(* ===== verification/_CoqProject ===== *)
-Q . S2P
Prelude.v
ProtocolDomain.v
EdgeFunc.v
GoRat.v
Formula.v
Feasibility.v
CFG.v
WitnessConstraints.v
Supergraph.v
Witness.v
Tabulation.v
TabulationKeys.v
Derivation.v
Traces.v
TabulationInvariant.v
TabulationRun.v
TabulationFacts.v
TabulationBudget.v
Refinement.v
RefinementFacts.v
Solver.v
SolverReuse.v
Dependencies.v
GoStrings.v
Checks.v
PlanModel.v
PlanFacts.v
Scheduler.v
SchedulerFacts.v
SchedulerTheorems.v
PlanOrder.v
Evidence.v
EvidenceFacts.v
Summary.v
RecursiveSummary.v
RecursiveTransfers.v
RecursiveFacts.v
RecursiveBodies.v
RecursiveTheorems.v
SSA.v
Identity.v
IdentityFacts.v
Alias.v
AliasSemantics.v
AliasRun.v
AliasWorklist.v
AliasJoin.v
AliasDefects.v
AliasTheorems.v
Oracle.v
Interpreter.v
InterpreterKeys.v
InterpreterFacts.v
InterpreterRun.v
Executions.v
InterpreterTheorems.v
Generate.v
GenerateFacts.v
CorpusTheorems.v
OracleTheorems.v
