(* ===== verification/Prelude.v ===== *)
(** * Verification of goplint's protocol analysis core and of its soundness gate

    goplint is a Go linter.  Its core follows values that must be validated (their [Validate]
    method must be called and its error heeded) through a program and reports uses of values
    that were not.  Its repository carries a gate that plans, schedules and accounts for the
    evidence that the linter is sound.  It also has an oracle,
    an independent interpreter of small protocol programs.  This development models them and
    proves what makes them correct.

    ** The program and the files

    The protocol domain.  A tracked value has an abstract state (validated or required,
    hazards, uncertainties, possible effects, what its error result is).
    - [ProtocolDomain]: [goplint/protocol_domain.go], [protocol_relevance.go] and the reasons
      of [cfa_outcome.go]: states, their order and join, effects, path status, aggregation.
    - [EdgeFunc]: [cfa_ide_edgefunc.go]: what an edge does to a state, as a tag; composition
      for summaries, the tag of a witness step.

    Path feasibility.  A path that violates the obligation is reported unless a certificate
    shows that its branch conditions contradict each other.
    - [GoRat]: the number parser of [math/big] the checker relies on.
    - [Formula], [Feasibility]: [cfa_ssa_constraints.go], [cfa_feasibility_ssa_constraints.go]:
      formulas of branch conditions, contradictions, certificates, the checker of certificates.
    - [CFG]: [cfa_traversal.go], [cfa_budget.go] and the dominators of
      [constructor_deferred.go].
    - [WitnessConstraints]: the formula of a witness from its path, from the predicates that
      dominate its start and from the predicates recorded on its edges.

    The interprocedural analysis.
    - [Supergraph]: [cfa_interproc_graph.go], [cfa_call_events.go], [cfa_ifds_domain.go].
    - [Witness]: [cfa_witness_contribution.go]: qualified witness edges and their replay.
    - [Tabulation]: [cfa_ifds_tabulation.go] with its helpers: the worklist run as a state
      monad over the tables, one definition per closure of the Go function.
    - [TabulationKeys], [Derivation], [Traces], [TabulationInvariant], [TabulationRun],
      [TabulationFacts], [TabulationBudget]: the specification (moves of configurations with a
      stack of open calls, and path edges derivable with summaries), the invariant of the
      tables, the specification of every operation, the verdicts, the budget.
    - [Refinement], [RefinementFacts]: [cfa_refinement.go] and the SSA backend: the loop that
      discharges refuted witnesses and runs the analysis again.
    - [Solver], [SolverReuse]: how a client composes the propagation, the completion of its
      result and the refinement whose rerun propagates again, as in [cfa_cast_shared.go].

    Summaries of callees.
    - [Summary]: [cfa_summary.go], [protocol_summary_fact.go]: the facts that carry the effects
      of a function between packages, their validation and import, and what callers conclude.
    - [RecursiveSummary]: [protocol_recursive_validation.go]: helpers that return the error of
      a validation or of each other, summarised by fixed points over maps.
    - [RecursiveTransfers], [RecursiveFacts], [RecursiveBodies], [RecursiveTheorems]: the
      algebra of transfers, the stable states of the loops, the order of instructions and the
      scan of bodies, and the theorems.

    Identities and aliases.
    - [SSA]: the part of [golang.org/x/tools/go/ssa] that the alias analysis looks at, as data.
    - [Identity], [IdentityFacts]: [protocol_identity.go]: identities of values and addresses,
      interned by keys, and that they are stable.
    - [Alias]: [protocol_alias_analysis.go]: snapshots, the transfer of an instruction, the join
      and the worklist over blocks.
    - [AliasSemantics], [AliasRun], [AliasWorklist], [AliasJoin], [AliasDefects],
      [AliasTheorems]: executions over cells and objects, the soundness of the transfer, the
      worklist, the lattice of snapshots, and the functions on which the analysis goes wrong.

    The protocol oracle ([internal/protocoloracle]), with which the analyzer is compared.
    - [Oracle]: [ir.go]: protocol programs, their validation and metrics.
    - [Interpreter]: [reference.go]: the reference interpreter, a second tabulation.
    - [InterpreterKeys], [InterpreterFacts], [InterpreterRun]: its keys, its rules and the
      invariant of its tables; [Executions]: executions with a call stack, which the rules
      characterise; [InterpreterTheorems]: its answers.
    - [Generate]: [generate.go], [fuzz.go]: configurations, programs, corpora, shards, fuzzing.
    - [GenerateFacts], [CorpusTheorems], [OracleTheorems]: normal forms of configurations, what
      is admitted, the corpora and the reviewed manifest of [spec], and the composition of the
      fuzz decoder with the interpreter.

    The soundness gate ([internal/soundnessgate], [internal/soundnessevidence]).
    - [Dependencies]: the search for dependency cycles.
    - [GoStrings], [Checks]: strings, slash paths, errors and early returns; shared checks.
    - [PlanModel], [PlanFacts]: [plan_model.go]: execution plans and what validation promises.
    - [Scheduler], [SchedulerFacts], [SchedulerTheorems]: [scheduler.go] as a step relation of
      the loop, its goroutines, the channel, the context and the clock.
    - [PlanOrder]: the serial order of [plan_runner.go].
    - [Evidence], [EvidenceFacts]: [model.go] and [registry.go] of the evidence package.

    Interaction: a client fills the supergraph and calls the tabulation with transfer
    functions; the tabulation stores witnesses; the refinement takes the witness of an unsafe
    result, asks the feasibility backend, whose certificate the independent checker must
    accept, and reruns the tabulation with the hash of the refuted witness to ignore.
    [Solver.evaluatePath] is that composition.  Summaries give the transfer of a call.  The
    gate validates a plan, runs it with the scheduler and checks the observations of the run
    against the registry.

    ** What the theorems show

    - Verdicts.  A safe verdict covers every interprocedurally valid path (matched calls and
      returns); an unsafe one has a valid path to a violation; an inconclusive one has the
      cause its reason names: an expired control, an unknown start, as many recorded items as
      the state budget allows, as many witnesses of one fact as an antichain holds, or a
      blocked or uncertain node on a valid path.  The whole analysis with reruns: every valid
      path ends harmlessly or passes a witness with an accepted certificate.  The tables the
      worklist ends with hold exactly what valid paths reach, the derivable path edges and the
      effects of derivable exits; the replay accepts exactly the realizable witnesses.
    - Certificates.  An accepted certificate refutes its formula under every valuation and,
      under stated conditions, every run of the program along the witness.  The builder finds
      exactly the pairs of atoms that exclude each other, not contradictions of three atoms,
      and its certificates are accepted; what refinement calls a violation is not refuted.
    - Termination and budgets of the tabulation, the refinement, the summaries, the dominators.
    - The algebra of states and edge functions: order, join, monotonicity, composition.
    - Recursive summaries: sound for every execution, through whatever recursion, that runs
      the call whose error it returns once (unsound for retries), independent of the order of
      maps in what callers conclude, exact order of instructions.
    - The gate: validated plans are acyclic and their shards partition the censuses; the
      scheduler respects resources and dependencies, makes progress, fails fast and is
      deterministic where it succeeds; accepted evidence corresponds one to one to the registry.
    - Aliases: a resolution is right on the executions of [AliasSemantics], which keep what
      the analysis assumes (one object per allocation site, calls that write no cell) and let
      others overwrite a cell where its address is handed out;
      snapshots are well-formed; the join is a semilattice; the worklist ends without loops.
    - The oracle: the interpreter always answers, with the verdict of the executions that keep
      a call stack or a reported budget; every fuzz input gives a well-formed program; the
      shards partition a corpus; the reviewed manifest loads with the sizes it declares, and
      its integrated corpus holds exactly 648 programs under 2016 names.
    - Defects, each proved on a program: the alias worklist runs for ever on a loop, candidates
      are left out and a resolution is wrong; the integrated corpus repeats programs; a witness
      of the interpreter through a call is no path; a configuration is normalized twice; reuse
      of dependencies hides a feasible witness; predicates assumed on a join; constants
      compared by spelling; published effects of recursive helpers depend on the order of
      maps, and leave out what a retry did before.

    ** Parameters

    Code outside the repository's sources is an argument: SHA-256 and base64 and JSON encoders
    (where injectivity or a round trip is needed it is a hypothesis and a witness instantiates
    it), the value index and the bodies of [golang.org/x/tools/go/ssa] (in the recursive
    summaries: how a return is classified and which effects an instruction has), types of
    [go/types], the transfer functions of a client, the wall clock and cancellation (arbitrary
    functions of the poll), the order in which Go ranges over a map (an arbitrary permutation),
    the execution of commands (any result, at any step).

    ** Bounds and fuel

    The worklist runs on [runFuel], one more than the work units the budget admits, and
    [tabulation_terminates] shows that it ends before.  The refinement loop runs on its
    [IterationBudget].  Dominators run on [passFuel], the number of removals possible, and marks on
    [markFuel], blocks plus edges.  The search for cycles uses one more than the number of
    identifiers, the serial order the number of commands.  The loops of recursive summaries
    run on one more than the number of nodes, the transfers on nine times that (nine flags
    per transfer); block reachability on twice the edges and one; the collection on any fuel
    above the number of procedures.  Each bound is proved to be enough where the property
    needs it.  Interning descends on the depth of a value; the alias worklist on a weight of
    the blocks when the control flow has no loop.  The interpreter runs on [maxStates], which
    bounds the entries of its queue, and the depth of a call graph on its procedures and one.
    Unsigned masks are kept within their width by [valid] and [regular].

    ** Assumptions about executions

    The semantics of [AliasSemantics] runs one function: an instruction that hands out the
    address of a cell lets others write it there, calls write no cell that the function
    tracks, an object is named by the instruction that allocates it, and distinct parameters
    and distinct unwritten contents are distinct objects.  The go/ssa heap is data given to
    the model.  [executes] of the recursive summaries runs the call whose error is returned
    once.  The executions of protocol programs run the abstract states of
    the oracle; a node with a return edge returns, as in the interpreter.

    ** Not modelled

    - Building supergraphs, transfer functions and summaries from [go/ast], [go/ssa] and
      [go/types] values ([cfa_ifds_constructor_path.go], [cfa_ifds_ubv.go],
      [cfa_ssa_alias.go], [constructor_ssa_identity.go], validation programs): they walk the
      data structures of golang.org/x/tools.
    - The syntax analyzers, configuration, findings and baseline files, catalogs: pattern
      checks and tables around the type checker and the file system.
    - [source.go] of the oracle, which prints a program as Go source: its promise is about
      what the analyzer finds in the printed text.
    - Command execution, reports, manifests, telemetry and the distributed runner of the gate,
      and the command line tools: input and output around the modelled plans and schedules.
    - The mutation, race repetition, benchmark, audit and documentation guards under
      [internal]. *)

From stdpp Require Export base tactics numbers strings list list_numbers fin_maps
  gmap sorting pretty relations.
From Stdlib Require Export ZArith Lia.

(** ** Decimal numbers and string building

    [strconv.Itoa] and the [%d] verb print a signed decimal number. *)
Definition itoa (z : Z) : string := pretty z.

(** [strings.Join parts sep]. *)
Fixpoint strings_Join (parts : list string) (sep : string) : string :=
  match parts with
  | [] => ""
  | [s] => s
  | s :: rest => s +:+ sep +:+ strings_Join rest sep
  end.

(** [strings.HasPrefix s prefix]. *)
Definition strings_HasPrefix (s p : string) : bool := String.prefix p s.

(** ** Separator characters

    Composite keys of the analyzer are fields joined by a bar.  They are
    injective as long as the later fields contain no bar; the lemmas below are
    what every key proof uses. *)
Fixpoint has_char (c : Ascii.ascii) (s : string) : bool :=
  match s with
  | EmptyString => false
  | String d s' => Ascii.eqb c d || has_char c s'
  end.

Definition bar : Ascii.ascii := Ascii.Ascii false false true true true true true false.

Definition bar_free (s : string) : Prop := has_char bar s = false.

Lemma string_app_nil_l (a : string) : "" +:+ a = a.
Proof. done. Qed.

Lemma string_app_cons c (a b : string) : (String c a) +:+ b = String c (a +:+ b).
Proof. done. Qed.

Create Rewrite HintDb strings.
#[export] Hint Rewrite string_app_nil_l string_app_cons : strings.
Ltac str_simpl := autorewrite with strings in *; simpl in *.

Lemma has_char_app c s t : has_char c (s +:+ t) = has_char c s || has_char c t.
Proof. induction s as [|d s IH]; str_simpl; [done|]. by rewrite IH, orb_assoc. Qed.

Lemma bar_free_app s t : bar_free (s +:+ t) <-> bar_free s /\ bar_free t.
Proof. unfold bar_free. rewrite has_char_app, orb_false_iff. done. Qed.

Lemma string_app_assoc (a b c : string) : (a +:+ b) +:+ c = a +:+ (b +:+ c).
Proof. induction a as [|x a IH]; str_simpl; by f_equal. Qed.

Lemma string_app_nil_r (a : string) : a +:+ "" = a.
Proof. induction a as [|x a IH]; str_simpl; by f_equal. Qed.

Lemma string_app_inj_l (a b c : string) : a +:+ b = a +:+ c -> b = c.
Proof. induction a as [|x a IH]; str_simpl; [done|]. intros [= H]. auto. Qed.

(** Prefixes are what strings begin with. *)
Lemma prefix_app p s : String.prefix p (p +:+ s) = true.
Proof. induction p as [|a p IH]; [by destruct s|]. rewrite string_app_cons. cbn. by destruct (Ascii.ascii_dec a a). Qed.

Lemma prefix_inv p : forall s, String.prefix p s = true -> exists rest, s = p +:+ rest.
Proof.
  induction p as [|a p IH]; intros s H; [by exists s|]. destruct s as [|b s]; [done|]. cbn in H.
  destruct (Ascii.ascii_dec a b) as [->|]; [|done]. destruct (IH _ H) as [rest ->]. by exists rest.
Qed.

(** A field that precedes the first separator is determined. *)
Lemma sep_inj_l c a b x y :
  has_char c a = false -> has_char c b = false ->
  a +:+ String c x = b +:+ String c y -> a = b /\ x = y.
Proof.
  revert b. induction a as [|p a IH]; intros [|q b]; str_simpl.
  - by intros _ _ [= ->].
  - intros _ [Hq _]%orb_false_iff [= -> _]. by rewrite Ascii.eqb_refl in Hq.
  - intros [Hp _]%orb_false_iff _ [= -> _]. by rewrite Ascii.eqb_refl in Hp.
  - intros [_ Ha]%orb_false_iff [_ Hb]%orb_false_iff [= -> H].
    by destruct (IH b Ha Hb H) as [-> ->].
Qed.

(** A field that follows the last separator is determined. *)
Lemma sep_inj_r c a b x y :
  has_char c x = false -> has_char c y = false ->
  a +:+ String c x = b +:+ String c y -> a = b /\ x = y.
Proof.
  revert b. induction a as [|p a IH]; intros [|q b] Hx Hy; str_simpl.
  - by intros [= ->].
  - intros [= -> ->]. rewrite has_char_app in Hx. simpl in Hx.
    rewrite Ascii.eqb_refl, orb_true_r in Hx. done.
  - intros [= -> <-]. rewrite has_char_app in Hy. simpl in Hy.
    rewrite Ascii.eqb_refl, orb_true_r in Hy. done.
  - intros [= -> H]. by destruct (IH b Hx Hy H) as [-> ->].
Qed.

Lemma bar_sep (s : string) : "|" +:+ s = String bar s.
Proof. done. Qed.

(** Printed numbers contain only digits and the minus sign. *)
Definition num_char (c : Ascii.ascii) : bool := has_char c "-0123456789".

Lemma pretty_N_char_num c x : num_char c = false -> Ascii.eqb c (pretty_N_char x) = false.
Proof.
  unfold num_char, pretty_N_char. cbn [has_char]. intros.
  repeat match goal with H : _ || _ = false |- _ => apply orb_false_iff in H as [??] end.
  repeat case_match; done.
Qed.

Lemma pretty_N_go_num c x s :
  num_char c = false -> has_char c s = false -> has_char c (pretty_N_go x s) = false.
Proof.
  intros Hc. revert s. induction (N.lt_wf_0 x) as [x _ IH]; intros s Hs.
  assert (x = 0 \/ 0 < x)%N as [->|?] by lia; [by rewrite pretty_N_go_0|].
  rewrite pretty_N_go_step by done. apply IH; [by apply N.div_lt|].
  cbn [has_char]. by rewrite pretty_N_char_num.
Qed.

Lemma itoa_no_char c z : num_char c = false -> has_char c (itoa z) = false.
Proof.
  intros Hc.
  assert (forall p, has_char c (pretty (N.pos p)) = false) as Hp.
  { intros p. unfold pretty, pretty_N. case_decide; [done|].
    by apply pretty_N_go_num. }
  destruct z as [|p|p]; [|apply Hp|].
  - unfold num_char in Hc. cbn [has_char] in *.
    repeat match goal with H : _ || _ = false |- _ => apply orb_false_iff in H as [??] end.
    unfold itoa, pretty, pretty_Z. cbn [has_char]. by rewrite orb_false_r.
  - change (itoa (Z.neg p)) with ("-" +:+ pretty (N.pos p)).
    rewrite has_char_app, (Hp p), orb_false_r.
    unfold num_char in Hc. cbn [has_char] in *.
    apply orb_false_iff in Hc as [-> _]. done.
Qed.

Lemma itoa_bar_free z : bar_free (itoa z).
Proof. by apply itoa_no_char. Qed.

Lemma itoa_inj x y : itoa x = itoa y -> x = y.
Proof. apply (inj pretty). Qed.

(** *** Numbers at the front of a text *)
Definition nonnum_head (s : string) : Prop :=
  match s with EmptyString => True | String c _ => num_char c = false end.

Lemma itoa_num_chars z c : has_char c (itoa z) = true -> num_char c = true.
Proof. intros H. destruct (num_char c) eqn:E; [done|]. by rewrite itoa_no_char in H. Qed.

Lemma num_prefix a b x y :
  (forall c, has_char c a = true -> num_char c = true) ->
  (forall c, has_char c b = true -> num_char c = true) ->
  nonnum_head x -> nonnum_head y -> a +:+ x = b +:+ y -> a = b /\ x = y.
Proof.
  revert b. induction a as [|p a IH]; intros [|q b] Ha Hb Hx Hy; rewrite ?string_app_nil_l, ?string_app_cons.
  - done.
  - intros ->. simpl in Hx. rewrite Hb in Hx; [done|]. simpl. by rewrite Ascii.eqb_refl.
  - intros <-. simpl in Hy. rewrite Ha in Hy; [done|]. simpl. by rewrite Ascii.eqb_refl.
  - intros [= -> H]. destruct (IH b) as [-> ->]; try done;
      intros c Hc; [apply Ha|apply Hb]; simpl; by rewrite Hc, orb_true_r.
Qed.

Lemma itoa_prefix a b x y :
  nonnum_head x -> nonnum_head y -> itoa a +:+ x = itoa b +:+ y -> a = b /\ x = y.
Proof.
  intros Hx Hy H. apply num_prefix in H as [H1 H2]; [|apply itoa_num_chars..|done|done].
  by apply itoa_inj in H1.
Qed.

(** ** Lexicographic order on strings

    Go compares strings bytewise; [String.le] of stdpp is that order. *)
#[export] Instance string_le_total : Total String.le.
Proof. 
  intros s t. unfold String.le.
  destruct (String.leb_total s t) as [H|H]; [left|right]; by rewrite H.
Qed.

Definition str_leb (s t : string) : bool := String.leb s t.
Definition str_ltb (s t : string) : bool := String.ltb s t.

Lemma str_leb_le s t : str_leb s t = true <-> String.le s t.
Proof. unfold str_leb, String.le. by rewrite Is_true_true. Qed.

Lemma str_ltb_not_leb s t : str_ltb s t = negb (str_leb t s).
Proof.
  unfold str_ltb, str_leb, String.ltb, String.leb.
  rewrite (String.compare_antisym s t). by destruct (String.compare t s).
Qed.

(** [slices.Sort] on strings. *)
Definition slices_Sort (l : list string) : list string := merge_sort String.le l.

Lemma slices_Sort_Permutation l : slices_Sort l ≡ₚ l.
Proof. apply merge_sort_Permutation. Qed.

Lemma slices_Sort_elem_of l x : x ∈ slices_Sort l <-> x ∈ l.
Proof. by rewrite slices_Sort_Permutation. Qed.

(** ** Cooperative cancellation

    [protocolAnalysisControl] is polled at checkpoints; a nil control never
    expires.  A control is a function from the number of polls made so far to
    the answer of [Expired()], so a wall clock, an operation budget and any
    other implementation are instances.  A polled computation threads the
    number of polls. *)
Abbreviation Control := (option (nat -> bool)).

Definition polled (A : Type) : Type := nat -> A * nat.

#[export] Instance polled_ret : MRet polled := fun A a clk => (a, clk).
#[export] Instance polled_bind : MBind polled :=
  fun A B k m clk => let '(a, clk') := m clk in k a clk'.

(** [feasibilityDeadlineReached(control)]. *)
Definition feasibilityDeadlineReached (control : Control) : polled bool :=
  fun clk => match control with
             | None => (false, clk)
             | Some expired => (expired clk, S clk)
             end.

(** The three shapes in which the analyzer polls: a guard before the rest of a
    function, a call whose own expiry ends the caller, and a final poll that
    accompanies the result. *)
Definition checkpoint {A} (control : Control) (dflt : A) (k : polled (A * bool)) : polled (A * bool) :=
  expired ← feasibilityDeadlineReached control;
  if expired : bool then mret (dflt, true) else k.

Definition unless_expired {A B} (m : polled (A * bool)) (dflt : B) (k : A -> polled (B * bool))
    : polled (B * bool) :=
  '(a, expired) ← m;
  if expired : bool then mret (dflt, true) else k a.

Definition finish {A} (control : Control) (a : A) : polled (A * bool) :=
  expired ← feasibilityDeadlineReached control; mret (a, expired).

(** A polled function is transparent when expiry is its only effect: a run that
    does not expire returns what the run without a control returns. *)
Definition transparent {A} (F : Control -> polled (A * bool)) : Prop :=
  (forall clk, snd (fst (F None clk)) = false /\ snd (F None clk) = clk) /\
  forall control clk clk0 r clk', F control clk = ((r, false), clk') -> fst (F None clk0) = (r, false).

Lemma transparent_ret {A} (a : A) : transparent (fun _ => mret (a, false)).
Proof. split; [done|]. intros ????? [= <- _]. done. Qed.

Lemma transparent_finish {A} (a : A) : transparent (fun c => finish c a).
Proof.
  split; [done|]. intros [f|] ????; unfold finish; simpl; [|by intros [= <- _]].
  intros H. unfold mret, polled_ret, mbind, polled_bind in H. simpl in H. by inversion H.
Qed.

Lemma transparent_checkpoint {A} (dflt : A) (k : Control -> polled (A * bool)) :
  transparent k -> transparent (fun c => checkpoint c dflt (k c)).
Proof.
  intros [Hn Hk]. split; [intros clk; apply Hn|].
  intros [f|] clk clk0 r clk'; unfold checkpoint, mbind, polled_bind; simpl; [|by apply Hk].
  destruct (f clk); [by intros [=]|]. apply (Hk (Some f)).
Qed.

Lemma transparent_unless {A B} (m : Control -> polled (A * bool)) (dflt : B)
    (k : A -> Control -> polled (B * bool)) :
  transparent m -> (forall a, transparent (k a)) ->
  transparent (fun c => unless_expired (m c) dflt (fun a => k a c)).
Proof.
  intros [Hmn Hm] Hk. unfold unless_expired, mbind, polled_bind. split.
  - intros clk. destruct (Hmn clk) as [H1 H2]. destruct (m None clk) as [[a e] clk'].
    simpl in *; subst. apply Hk.
  - intros c clk clk0 r clk'. specialize (Hm c clk clk0). destruct (Hmn clk0) as [H1 H2].
    destruct (m c clk) as [[a e] clk1]. destruct (m None clk0) as [[a0 e0] clk2].
    simpl in *; subst. destruct e; [by intros [=]|]. intros H.
    specialize (Hm _ _ eq_refl) as [= ->]. by apply (proj2 (Hk a)) with (clk0 := clk0) in H.
Qed.

(** What a polled function returns when nothing expires. *)
Definition outcome {A} (F : Control -> polled (A * bool)) : A := fst (fst (F None 0%nat)).

Lemma transparent_outcome {A} (F : Control -> polled (A * bool)) clk :
  transparent F -> F None clk = ((outcome F, false), clk).
Proof.
  intros [Hn Hc]. unfold outcome. destruct (Hn clk) as [H1 H2].
  destruct (F None clk) as [[a e] clk'] eqn:E. simpl in *; subst.
  apply Hc with (clk0 := 0%nat) in E. by rewrite E.
Qed.

Lemma transparent_run {A} (F : Control -> polled (A * bool)) c clk r clk' :
  transparent F -> F c clk = ((r, false), clk') -> r = outcome F.
Proof. intros [_ Hc] E. unfold outcome. apply Hc with (clk0 := 0%nat) in E. by rewrite E. Qed.

Lemma outcome_unless {A B} (m : Control -> polled (A * bool)) (dflt : B)
    (k : A -> Control -> polled (B * bool)) :
  transparent m -> outcome (fun c => unless_expired (m c) dflt (fun a => k a c)) = outcome (k (outcome m)).
Proof.
  intros Hm. unfold outcome, unless_expired, mbind, polled_bind.
  by rewrite (transparent_outcome m 0%nat Hm).
Qed.

Lemma outcome_checkpoint {A} (dflt : A) (k : Control -> polled (A * bool)) :
  outcome (fun c => checkpoint c dflt (k c)) = outcome k.
Proof. reflexivity. Qed.

Lemma outcome_ret {A} (a : A) : outcome (fun _ => mret (a, false)) = a.
Proof. reflexivity. Qed.

Lemma outcome_finish {A} (a : A) : outcome (fun c => finish c a) = a.
Proof. reflexivity. Qed.

(** Prove a polled function transparent by following its shape; the calls it makes
    are left to the hint database. *)
Ltac transparency :=
  repeat lazymatch goal with
  | |- transparent (fun c => checkpoint c ?d (@?k c)) => apply (transparent_checkpoint d k)
  | |- transparent (fun c => unless_expired (@?m c) ?d (fun a => @?k c a)) =>
      apply (transparent_unless m d (fun a c => k c a)); [|intros ?]; cbv beta
  | |- transparent (fun _ => mret (_, false)) => apply transparent_ret
  | |- transparent (fun c => finish c _) => apply transparent_finish
  | |- transparent (fun c => match ?x with _ => _ end) => destruct x
  end.

(** A control that some poll finds expired. *)
Definition expires (control : Control) : Prop :=
  exists f k, control = Some f /\ f k = true.

(** A polled function is honest when it reports expiry only under a control that
    expires. *)
Definition honest {A} (F : Control -> polled (A * bool)) : Prop :=
  forall control clk, snd (fst (F control clk)) = true -> expires control.

Lemma poll_expires control clk : fst (feasibilityDeadlineReached control clk) = true -> expires control.
Proof. destruct control as [f|]; [|done]. intros H. by exists f, clk. Qed.

Lemma honest_ret {A} (a : A) : honest (fun _ => mret (a, false)).
Proof. by intros c clk. Qed.

Lemma honest_finish {A} (a : A) : honest (fun c => finish c a).
Proof.
  intros c clk H. apply (poll_expires c clk). unfold finish, mbind, polled_bind in H.
  by destruct (feasibilityDeadlineReached c clk).
Qed.

Lemma honest_checkpoint {A} (dflt : A) (k : Control -> polled (A * bool)) :
  honest k -> honest (fun c => checkpoint c dflt (k c)).
Proof.
  intros Hk c clk. unfold checkpoint, mbind, polled_bind. pose proof (poll_expires c clk) as Hp.
  destruct (feasibilityDeadlineReached c clk) as [[] clk1]; [by intros _; apply Hp|apply Hk].
Qed.

Lemma honest_unless {A B} (m : Control -> polled (A * bool)) (dflt : B)
    (k : A -> Control -> polled (B * bool)) :
  honest m -> (forall a, honest (k a)) -> honest (fun c => unless_expired (m c) dflt (fun a => k a c)).
Proof.
  intros Hm Hk c clk. unfold unless_expired, mbind, polled_bind. specialize (Hm c clk).
  destruct (m c clk) as [[a []] clk1]; [by intros _; apply Hm|apply Hk].
Qed.

(** Prove a polled function honest by following its shape. *)
Ltac honesty :=
  repeat lazymatch goal with
  | |- honest (fun c => checkpoint c ?d (@?k c)) => apply (honest_checkpoint d k)
  | |- honest (fun c => unless_expired (@?m c) ?d (fun a => @?k c a)) =>
      apply (honest_unless m d (fun a c => k c a)); [|intros ?]; cbv beta
  | |- honest (fun _ => mret (_, false)) => apply honest_ret
  | |- honest (fun c => finish c _) => apply honest_finish
  | |- honest (fun c => match ?x with _ => _ end) => destruct x
  end.

(** Unfold one step of what a polled function returns. *)
Ltac outcome_step :=
  lazymatch goal with
  | |- context [outcome (fun c => checkpoint c ?d (@?k c))] =>
      rewrite (outcome_checkpoint d k); cbv beta
  | |- context [outcome (fun c => unless_expired (@?m c) ?d (fun a => @?k c a))] =>
      rewrite (outcome_unless m d (fun a c => k c a)); [cbv beta|]
  end.

(** ** Semilattices

    The interface between the protocol domain and its components: a boolean
    order with a least upper bound.  [sl_join_leb] characterises the join as the
    least upper bound in one equation. *)
Class JoinSemilattice {A : Type} (leb : A -> A -> bool) (jn : A -> A -> A) := {
  sl_refl : forall a, leb a a = true;
  sl_antisym : forall a b, leb a b = true -> leb b a = true -> a = b;
  sl_trans : forall a b c, leb a b = true -> leb b c = true -> leb a c = true;
  sl_join_leb : forall a b c, leb (jn a b) c = leb a c && leb b c;
}.

Section Semilattice.
Context {A : Type} {leb : A -> A -> bool} {jn : A -> A -> A}.
Context `{!JoinSemilattice leb jn}.

Lemma sl_ub_l a b : leb a (jn a b) = true.
Proof. pose proof (sl_refl (jn a b)) as H. rewrite sl_join_leb in H. by apply andb_true_iff in H as [? _]. Qed.

Lemma sl_ub_r a b : leb b (jn a b) = true.
Proof. pose proof (sl_refl (jn a b)) as H. rewrite sl_join_leb in H. by apply andb_true_iff in H as [_ ?]. Qed.

Lemma sl_lub a b c : leb a c = true -> leb b c = true -> leb (jn a b) c = true.
Proof. intros Ha Hb. by rewrite sl_join_leb, Ha, Hb. Qed.

Lemma sl_comm a b : jn a b = jn b a.
Proof. apply sl_antisym; apply sl_lub; auto using sl_ub_l, sl_ub_r. Qed.

Lemma sl_idem a : jn a a = a.
Proof. apply sl_antisym; [apply sl_lub; apply sl_refl|apply sl_ub_l]. Qed.

Lemma sl_assoc a b c : jn a (jn b c) = jn (jn a b) c.
Proof.
  apply sl_antisym; repeat apply sl_lub;
    eauto using sl_ub_l, sl_ub_r, sl_trans.
Qed.

Lemma sl_partial_order : PartialOrder (fun a b => leb a b = true).
Proof.
  split; [split|].
  - intros a. apply sl_refl.
  - intros a b c. apply sl_trans.
  - intros a b. apply sl_antisym.
Qed.
End Semilattice.

(** Close an equation or a comparison of a semilattice from the context. *)
Ltac sl_order :=
  match goal with
  | H : ?leb ?a ?b = true, H' : ?leb ?b ?a = true |- ?a = ?b =>
      exact (sl_antisym (leb := leb) a b H H')
  | H : ?leb ?a ?b = true, H' : ?leb ?b ?c = true |- ?leb ?a ?c = true =>
      exact (sl_trans (leb := leb) a b c H H')
  end.

(** Bit sets under inclusion. *)
Definition bits_leb (a b : Z) : bool := (Z.land a b =? a)%Z.

Lemma bits_leb_spec a b :
  bits_leb a b = true <-> forall n, (0 <= n)%Z -> Z.testbit a n = true -> Z.testbit b n = true.
Proof.
  unfold bits_leb. rewrite Z.eqb_eq. split.
  - intros H n Hn Ha. rewrite <- H, Z.land_spec, andb_true_iff in Ha. by destruct Ha.
  - intros H. apply Z.bits_inj'. intros n Hn. rewrite Z.land_spec.
    specialize (H n Hn). destruct (Z.testbit a n); [by rewrite H|done].
Qed.

#[export] Instance bits_semilattice : JoinSemilattice bits_leb Z.lor.
Proof.
  split.
  - intros a. by apply bits_leb_spec.
  - intros a b. unfold bits_leb. rewrite !Z.eqb_eq, (Z.land_comm b a). congruence.
  - intros a b c. rewrite !bits_leb_spec. eauto.
  - intros a b c. apply eq_true_iff_eq. rewrite andb_true_iff, !bits_leb_spec. split.
    + intros H; split; intros n Hn Hb; apply H; try done;
        rewrite Z.lor_spec, Hb; auto using orb_true_r.
    + intros [Ha Hb] n Hn. rewrite Z.lor_spec, orb_true_iff. intros [?|?]; eauto.
Qed.

(** A subset of a set of [n] bits has [n] bits. *)
Lemma bits_leb_bound x m n :
  (0 <= n)%Z -> bits_leb x m = true -> (0 <= m < 2 ^ n)%Z -> (0 <= x < 2 ^ n)%Z.
Proof.
  intros Hn Hx%Z.eqb_eq Hm.
  assert (Z.land m (Z.ones n) = m) as Em by (rewrite Z.land_ones, Z.mod_small; lia).
  rewrite <- Em, Z.land_assoc, Z.land_ones in Hx by done.
  pose proof (Z.mod_pos_bound (Z.land x m) (2 ^ n)). lia.
Qed.

(** Numbers under their order, joined by the maximum. *)
#[export] Instance max_semilattice : JoinSemilattice Z.leb Z.max.
Proof.
  split; intros *; rewrite ?Z.leb_le; try lia.
Qed.

(** The flat order whose top is [top]: distinct values join to [top]. *)
Definition flat_leb (top a b : Z) : bool := ((a =? b) || (b =? top))%Z.
Definition flat_join (top a b : Z) : Z := if (a =? b)%Z then a else top.

#[export] Instance flat_semilattice top : JoinSemilattice (flat_leb top) (flat_join top).
Proof.
  unfold flat_leb, flat_join. split; intros *; rewrite ?orb_true_iff, ?Z.eqb_eq; try lia.
  destruct (Z.eqb_spec a b) as [->|]; [by rewrite andb_diag|].
  apply eq_true_iff_eq. rewrite andb_true_iff, !orb_true_iff, !Z.eqb_eq. lia.
Qed.

Lemma max_join_leb a b c : Z.leb (Z.max a b) c = Z.leb a c && Z.leb b c.
Proof. apply sl_join_leb. Qed.
Lemma bits_join_leb a b c : bits_leb (Z.lor a b) c = bits_leb a c && bits_leb b c.
Proof. apply sl_join_leb. Qed.
Lemma flat_join_leb top a b c :
  flat_leb top (flat_join top a b) c = flat_leb top a c && flat_leb top b c.
Proof. apply sl_join_leb. Qed.

(** ** Shared automation *)
Create HintDb goplint.
Create Rewrite HintDb goplint_rw.
#[export] Hint Resolve itoa_bar_free : goplint.
#[export] Hint Resolve slices_Sort_Permutation : goplint.
#[export] Hint Rewrite slices_Sort_elem_of : goplint_rw.

(** Split every conjunction of boolean tests in the context. *)
Ltac split_bools :=
  repeat match goal with
  | H : (_ && _)%bool = true |- _ => apply andb_true_iff in H; destruct H
  | H : (_ || _)%bool = false |- _ => apply orb_false_iff in H; destruct H
  | H : negb _ = true |- _ => apply negb_true_iff in H
  | H : negb _ = false |- _ => apply negb_false_iff in H
  | H : bool_decide _ = true |- _ => apply bool_decide_eq_true in H
  | H : bool_decide _ = false |- _ => apply bool_decide_eq_false in H
  | H : (_ =? _)%Z = true |- _ => apply Z.eqb_eq in H
  | H : (_ =? _)%Z = false |- _ => apply Z.eqb_neq in H
  | H : (_ <=? _)%Z = true |- _ => apply Z.leb_le in H
  | H : (_ <=? _)%Z = false |- _ => apply Z.leb_gt in H
  | H : (_ <? _)%Z = true |- _ => apply Z.ltb_lt in H
  | H : (_ <? _)%Z = false |- _ => apply Z.ltb_ge in H
  end.

(** Case analysis on every match of the goal, closing contradictory branches. *)
Ltac case_all := repeat (case_match; simplify_eq/=; try done).
