(* ===== verification/ProtocolDomain.v ===== *)
(** * The canonical protocol domain

    [goplint/protocol_domain.go], [goplint/protocol_relevance.go] and the
    reason vocabulary of [goplint/cfa_outcome.go]: the abstract state a tracked
    identity carries along a path, its information order and join, the transfer
    of conditional effects, uncertainty reasons and their bits, path status and
    the aggregation of path statuses into a decision. *)

From S2P Require Export Prelude.
Local Open Scope Z_scope.

(** ** Constants (Go typed constants of small unsigned widths) *)
Definition protocolValidationProven : Z := 0.
Definition protocolValidationRequired : Z := 1.

Definition protocolHazardEscaped : Z := Z.shiftl 1 0.
Definition protocolHazardConsumed : Z := Z.shiftl 1 1.

Definition protocolUncertaintyUnresolvedCall : Z := Z.shiftl 1 1.
Definition protocolUncertaintyAmbiguousIdentity : Z := Z.shiftl 1 2.
Definition protocolUncertaintyMissingSSA : Z := Z.shiftl 1 5.
Definition protocolUncertaintyStateBudget : Z := Z.shiftl 1 6.
Definition protocolUncertaintyWitnessBudget : Z := Z.shiftl 1 7.
Definition protocolUncertaintyTimeout : Z := Z.shiftl 1 10.
Definition protocolUncertaintyUnsupportedInstruction : Z := Z.shiftl 1 12.
Definition protocolUncertaintyReflection : Z := Z.shiftl 1 13.
Definition protocolUncertaintyUnsafe : Z := Z.shiftl 1 14.
Definition protocolUncertaintyConcurrentMutation : Z := Z.shiftl 1 15.
Definition protocolUncertaintyEscapedHeapMutation : Z := Z.shiftl 1 16.
Definition protocolUncertaintyRecursionCycle : Z := Z.shiftl 1 17.
Definition protocolUncertaintyFeasibilityUnknown : Z := Z.shiftl 1 18.
Definition protocolUncertaintyCallMapping : Z := Z.shiftl 1 19.

Definition protocolErrorResultUnknown : Z := 0.
Definition protocolErrorResultNil : Z := 1.
Definition protocolErrorResultNonNil : Z := 2.

Definition protocolDeferredErrorUnknown : Z := 0.
Definition protocolDeferredErrorNil : Z := 1.
Definition protocolDeferredErrorValidation : Z := 2.
Definition protocolDeferredErrorOther : Z := 3.

Definition protocolEffectValidate : Z := 0.
Definition protocolEffectEscape : Z := 1.
Definition protocolEffectConsume : Z := 2.

Definition protocolPathSatisfied : Z := 0.
Definition protocolPathViolation : Z := 1.
Definition protocolPathUnresolved : Z := 2.
Definition protocolPathDischargedInfeasible : Z := 3.

Definition protocolEvidenceViolation : string := "violation".
Definition protocolEvidenceInconclusive : string := "inconclusive".
Definition protocolEvidenceDischargedInfeasible : string := "discharged-infeasible".

(** [protocol_relevance.go]: effects an unresolved step may have. *)
Definition protocolPossibleEffectValidate : Z := Z.shiftl 1 0.
Definition protocolPossibleEffectMutate : Z := Z.shiftl 1 1.
Definition protocolPossibleEffectReplace : Z := Z.shiftl 1 2.
Definition protocolPossibleEffectEscape : Z := Z.shiftl 1 3.
Definition protocolPossibleEffectConsume : Z := Z.shiftl 1 4.
Definition protocolPossibleEffectTerminate : Z := Z.shiftl 1 5.
Definition protocolPossibleEffectConstraint : Z := Z.shiftl 1 6.

Definition z_union (l : list Z) : Z := foldr Z.lor 0 l.

Definition protocolUnknownCallEffects : Z :=
  z_union [protocolPossibleEffectValidate; protocolPossibleEffectMutate;
           protocolPossibleEffectReplace; protocolPossibleEffectEscape;
           protocolPossibleEffectConsume; protocolPossibleEffectTerminate;
           protocolPossibleEffectConstraint].

Definition protocolIdentityUnrelated : Z := 0.
Definition protocolIdentityMustAlias : Z := 1.
Definition protocolIdentityMayAlias : Z := 2.
Definition protocolIdentityUnknown : Z := 3.

(** [cfa_outcome.go]: a reason is a string, the empty one meaning none. *)
Abbreviation pathOutcomeReason := string.

Definition pathOutcomeReasonNone : pathOutcomeReason := "".
Definition pathOutcomeReasonStateBudget : pathOutcomeReason := "state-budget".
Definition pathOutcomeReasonWitnessBudget : pathOutcomeReason := "witness-budget".
Definition pathOutcomeReasonTimeout : pathOutcomeReason := "timeout".
Definition pathOutcomeReasonRecursionCycle : pathOutcomeReason := "recursion-cycle".
Definition pathOutcomeReasonUnresolvedTarget : pathOutcomeReason := "unresolved-target".
Definition pathOutcomeReasonCallMapping : pathOutcomeReason := "call-mapping".
Definition pathOutcomeReasonFeasibilityUnknown : pathOutcomeReason := "feasibility-unknown".
Definition pathOutcomeReasonMissingSSA : pathOutcomeReason := "missing-ssa".
Definition pathOutcomeReasonUnsupportedInstr : pathOutcomeReason := "unsupported-instruction".
Definition pathOutcomeReasonAmbiguousIdentity : pathOutcomeReason := "ambiguous-identity".
Definition pathOutcomeReasonConcurrentMutation : pathOutcomeReason := "concurrent-mutation".
Definition pathOutcomeReasonEscapedHeapMutation : pathOutcomeReason := "escaped-heap-mutation".
Definition pathOutcomeReasonReflection : pathOutcomeReason := "reflection".
Definition pathOutcomeReasonUnsafe : pathOutcomeReason := "unsafe".

(** ** Abstract states *)
Record protocolAbstractState := mkState {
  Validation : Z;
  Hazards : Z;
  Uncertainty : Z;
  Result : Z;
  DeferredError : Z;
  Identity : Z;
  PossibleEffects : Z;
}.

#[export] Instance protocolAbstractState_eq_dec : EqDecision protocolAbstractState.
Proof. solve_decision. Defined.

Record protocolValidationRelation := mkRelation {
  ReceiverIdentity : Z;
  ErrorIdentity : Z;
}.

Record protocolConditionalEffect := mkEffect {
  effect_Kind : Z;
  effect_Relation : protocolValidationRelation;
}.

Record protocolDecision := mkDecision {
  decision_Kind : string;
  EmitDiagnostic : bool;
  DischargedWitnesses : Z;
}.

(** Field updates, as the assignments of the value receivers. *)
Definition set_Validation (v : Z) (s : protocolAbstractState) : protocolAbstractState :=
  mkState v (Hazards s) (Uncertainty s) (Result s) (DeferredError s) (Identity s) (PossibleEffects s).
Definition set_Hazards (h : Z) (s : protocolAbstractState) : protocolAbstractState :=
  mkState (Validation s) h (Uncertainty s) (Result s) (DeferredError s) (Identity s) (PossibleEffects s).
Definition set_Uncertainty (u : Z) (s : protocolAbstractState) : protocolAbstractState :=
  mkState (Validation s) (Hazards s) u (Result s) (DeferredError s) (Identity s) (PossibleEffects s).
Definition set_Result (r : Z) (s : protocolAbstractState) : protocolAbstractState :=
  mkState (Validation s) (Hazards s) (Uncertainty s) r (DeferredError s) (Identity s) (PossibleEffects s).
Definition set_DeferredError (d : Z) (s : protocolAbstractState) : protocolAbstractState :=
  mkState (Validation s) (Hazards s) (Uncertainty s) (Result s) d (Identity s) (PossibleEffects s).
Definition set_Identity (i : Z) (s : protocolAbstractState) : protocolAbstractState :=
  mkState (Validation s) (Hazards s) (Uncertainty s) (Result s) (DeferredError s) i (PossibleEffects s).
Definition set_PossibleEffects (e : Z) (s : protocolAbstractState) : protocolAbstractState :=
  mkState (Validation s) (Hazards s) (Uncertainty s) (Result s) (DeferredError s) (Identity s) e.

Definition newProtocolRequiredState : protocolAbstractState :=
  mkState protocolValidationRequired 0 0 protocolErrorResultUnknown 0 0 0.

Definition protocolErrorResultLessEqual (left right : Z) : bool :=
  (left =? right) || (right =? protocolErrorResultUnknown).

Definition joinProtocolErrorResults (left right : Z) : Z :=
  if left =? right then left else protocolErrorResultUnknown.

Definition protocolDeferredErrorLessEqual (left right : Z) : bool :=
  (left =? right) || (right =? protocolDeferredErrorUnknown).

Definition joinProtocolDeferredErrors (left right : Z) : Z :=
  if left =? right then left else protocolDeferredErrorUnknown.

Definition joinProtocolIdentityRelevance (left right : Z) : Z :=
  if right <=? left then left else right.

Definition lessEqual (s other : protocolAbstractState) : bool :=
  (Validation s <=? Validation other) &&
  (Z.land (Hazards s) (Hazards other) =? Hazards s) &&
  (Z.land (Uncertainty s) (Uncertainty other) =? Uncertainty s) &&
  protocolErrorResultLessEqual (Result s) (Result other) &&
  protocolDeferredErrorLessEqual (DeferredError s) (DeferredError other) &&
  (Identity s <=? Identity other) &&
  (Z.land (PossibleEffects s) (PossibleEffects other) =? PossibleEffects s).

Definition join (s other : protocolAbstractState) : protocolAbstractState :=
  {| Validation := Z.max (Validation s) (Validation other);
     Hazards := Z.lor (Hazards s) (Hazards other);
     Uncertainty := Z.lor (Uncertainty s) (Uncertainty other);
     Result := joinProtocolErrorResults (Result s) (Result other);
     DeferredError := joinProtocolDeferredErrors (DeferredError s) (DeferredError other);
     Identity := joinProtocolIdentityRelevance (Identity s) (Identity other);
     PossibleEffects := Z.lor (PossibleEffects s) (PossibleEffects other) |}.

Definition apply (s : protocolAbstractState) (effect : protocolConditionalEffect)
    (result unknownReason : Z) : protocolAbstractState :=
  if effect_Kind effect =? protocolEffectValidate then
    if result =? protocolErrorResultNil then
      set_Result protocolErrorResultNil (set_Validation protocolValidationProven s)
    else if result =? protocolErrorResultNonNil then
      set_Result protocolErrorResultNonNil s
    else if result =? protocolErrorResultUnknown then
      set_Uncertainty (Z.lor (Uncertainty s) unknownReason)
        (set_Result protocolErrorResultUnknown s)
    else s
  else if effect_Kind effect =? protocolEffectEscape then
    if Validation s =? protocolValidationRequired then
      set_Hazards (Z.lor (Hazards s) protocolHazardEscaped) s
    else s
  else if effect_Kind effect =? protocolEffectConsume then
    if Validation s =? protocolValidationRequired then
      set_Hazards (Z.lor (Hazards s) protocolHazardConsumed) s
    else s
  else s.

(** The fixed priority of uncertainty bits. *)
Definition protocolPathReasonOrder : list (Z * pathOutcomeReason) :=
  [ (protocolUncertaintyTimeout, pathOutcomeReasonTimeout);
    (protocolUncertaintyStateBudget, pathOutcomeReasonStateBudget);
    (protocolUncertaintyWitnessBudget, pathOutcomeReasonWitnessBudget);
    (protocolUncertaintyRecursionCycle, pathOutcomeReasonRecursionCycle);
    (protocolUncertaintyFeasibilityUnknown, pathOutcomeReasonFeasibilityUnknown);
    (protocolUncertaintyMissingSSA, pathOutcomeReasonMissingSSA);
    (protocolUncertaintyUnsupportedInstruction, pathOutcomeReasonUnsupportedInstr);
    (protocolUncertaintyConcurrentMutation, pathOutcomeReasonConcurrentMutation);
    (protocolUncertaintyEscapedHeapMutation, pathOutcomeReasonEscapedHeapMutation);
    (protocolUncertaintyAmbiguousIdentity, pathOutcomeReasonAmbiguousIdentity);
    (protocolUncertaintyReflection, pathOutcomeReasonReflection);
    (protocolUncertaintyUnsafe, pathOutcomeReasonUnsafe);
    (protocolUncertaintyUnresolvedCall, pathOutcomeReasonUnresolvedTarget);
    (protocolUncertaintyCallMapping, pathOutcomeReasonCallMapping) ].

Fixpoint bitOfReason (order : list (Z * pathOutcomeReason)) (reason : pathOutcomeReason) : Z :=
  match order with
  | [] => protocolUncertaintyFeasibilityUnknown
  | (bit, r) :: rest => if String.eqb r reason then bit else bitOfReason rest reason
  end.

Definition protocolUncertaintyForPathReason (reason : pathOutcomeReason) : Z :=
  bitOfReason protocolPathReasonOrder reason.

Fixpoint firstReasonIn (order : list (Z * pathOutcomeReason)) (uncertainty : Z) : pathOutcomeReason :=
  match order with
  | [] => pathOutcomeReasonNone
  | (bit, r) :: rest =>
      if negb (Z.land uncertainty bit =? 0) then r else firstReasonIn rest uncertainty
  end.

Definition state_pathOutcomeReason (s : protocolAbstractState) : pathOutcomeReason :=
  firstReasonIn protocolPathReasonOrder (Uncertainty s).

(** ** Relevance of uncertainty ([protocol_relevance.go]) *)
Definition protocolEffectsForUncertainty (reason : pathOutcomeReason) : Z :=
  if String.eqb reason pathOutcomeReasonConcurrentMutation then
    Z.lor protocolPossibleEffectMutate protocolPossibleEffectReplace
  else if String.eqb reason pathOutcomeReasonEscapedHeapMutation then
    z_union [protocolPossibleEffectMutate; protocolPossibleEffectReplace; protocolPossibleEffectEscape]
  else if String.eqb reason pathOutcomeReasonAmbiguousIdentity then
    z_union [protocolPossibleEffectMutate; protocolPossibleEffectReplace;
             protocolPossibleEffectEscape; protocolPossibleEffectConsume;
             protocolPossibleEffectConstraint]
  else if String.eqb reason pathOutcomeReasonUnresolvedTarget ||
          String.eqb reason pathOutcomeReasonCallMapping ||
          String.eqb reason pathOutcomeReasonReflection ||
          String.eqb reason pathOutcomeReasonUnsafe then
    protocolUnknownCallEffects
  else 0.

Definition protocolIdentityForUncertainty (reason : pathOutcomeReason) : Z :=
  if String.eqb reason pathOutcomeReasonAmbiguousIdentity then protocolIdentityMayAlias
  else if negb (protocolEffectsForUncertainty reason =? 0) then protocolIdentityMustAlias
  else protocolIdentityUnrelated.

Definition protocolIdentityAtUnresolvedSink (reason : pathOutcomeReason) (identity : Z) : Z :=
  if String.eqb reason pathOutcomeReasonUnresolvedTarget ||
     String.eqb reason pathOutcomeReasonCallMapping ||
     String.eqb reason pathOutcomeReasonReflection ||
     String.eqb reason pathOutcomeReasonUnsafe then
    joinProtocolIdentityRelevance identity protocolIdentityUnknown
  else identity.

Definition withUncertainty (s : protocolAbstractState) (reason : pathOutcomeReason) : protocolAbstractState :=
  if String.eqb reason pathOutcomeReasonNone then s
  else
    let s := set_Uncertainty (Z.lor (Uncertainty s) (protocolUncertaintyForPathReason reason)) s in
    let s := set_PossibleEffects (Z.lor (PossibleEffects s) (protocolEffectsForUncertainty reason)) s in
    set_Identity (joinProtocolIdentityRelevance (Identity s) (protocolIdentityForUncertainty reason)) s.

(** [key] prints the seven fields in order. *)
Definition state_key (s : protocolAbstractState) : string :=
  "validation=" +:+ itoa (Validation s) +:+ ",hazards=" +:+ itoa (Hazards s) +:+
  ",uncertainty=" +:+ itoa (Uncertainty s) +:+ ",result=" +:+ itoa (Result s) +:+
  ",deferred-error=" +:+ itoa (DeferredError s) +:+ ",identity=" +:+ itoa (Identity s) +:+
  ",effects=" +:+ itoa (PossibleEffects s).

Definition allUncertainty : Z :=
  z_union [protocolUncertaintyUnresolvedCall; protocolUncertaintyAmbiguousIdentity;
           protocolUncertaintyMissingSSA; protocolUncertaintyStateBudget;
           protocolUncertaintyWitnessBudget; protocolUncertaintyTimeout;
           protocolUncertaintyUnsupportedInstruction; protocolUncertaintyReflection;
           protocolUncertaintyUnsafe; protocolUncertaintyConcurrentMutation;
           protocolUncertaintyEscapedHeapMutation; protocolUncertaintyRecursionCycle;
           protocolUncertaintyFeasibilityUnknown; protocolUncertaintyCallMapping].

(** Go's [x & ^mask]: the bits of [x] outside [mask]. *)
Definition outside (x mask : Z) : Z := Z.land x (Z.lnot mask).

Definition valid (s : protocolAbstractState) : bool :=
  if (protocolValidationRequired <? Validation s) ||
     negb (outside (Hazards s) (Z.lor protocolHazardEscaped protocolHazardConsumed) =? 0) ||
     (protocolErrorResultNonNil <? Result s) ||
     (protocolDeferredErrorOther <? DeferredError s) ||
     (protocolIdentityUnknown <? Identity s)
  then false
  else (outside (Uncertainty s) allUncertainty =? 0) &&
       (outside (PossibleEffects s) protocolUnknownCallEffects =? 0).

Definition validationProven (s : protocolAbstractState) : bool :=
  Validation s =? protocolValidationProven.
Definition validationRequired (s : protocolAbstractState) : bool :=
  Validation s =? protocolValidationRequired.
Definition escapedBeforeValidation (s : protocolAbstractState) : bool :=
  negb (Z.land (Hazards s) protocolHazardEscaped =? 0).
Definition consumedBeforeValidation (s : protocolAbstractState) : bool :=
  negb (Z.land (Hazards s) protocolHazardConsumed =? 0).

Record protocolRelevanceQuery := mkQuery {
  ForwardReachable : bool;
  SinkReachable : bool;
  query_Identity : Z;
  query_PossibleEffects : Z;
}.

Definition relevantEffects : Z :=
  z_union [protocolPossibleEffectMutate; protocolPossibleEffectReplace;
           protocolPossibleEffectEscape; protocolPossibleEffectConsume;
           protocolPossibleEffectConstraint].

Definition relevant (query : protocolRelevanceQuery) (state : protocolAbstractState) : bool :=
  if negb (ForwardReachable query) || negb (SinkReachable query) ||
     (query_Identity query =? protocolIdentityUnrelated) || (query_PossibleEffects query =? 0)
  then false
  else if negb (validationProven state) then
    protocolIdentityMayAlias <=? query_Identity query
  else negb (Z.land (query_PossibleEffects query) relevantEffects =? 0).

(** ** Path status and decisions *)
Definition pathStatus (s : protocolAbstractState) : Z :=
  if negb (Hazards s =? 0) then protocolPathViolation
  else if negb (Uncertainty s =? 0) then protocolPathUnresolved
  else protocolPathSatisfied.

(** The accumulator of the loop: (hasViolation, hasUnresolved, discharged). *)
Definition aggregateStep (acc : bool * bool * Z) (status : Z) : bool * bool * Z :=
  let '(hasViolation, hasUnresolved, discharged) := acc in
  if status =? protocolPathViolation then (true, hasUnresolved, discharged)
  else if status =? protocolPathUnresolved then (hasViolation, true, discharged)
  else if status =? protocolPathDischargedInfeasible then
    (hasViolation, hasUnresolved, discharged + 1)
  else (hasViolation, hasUnresolved, discharged).

Definition aggregateProtocolPaths (statuses : list Z) : protocolDecision :=
  let '(hasViolation, hasUnresolved, discharged) :=
    fold_left aggregateStep statuses (false, false, 0) in
  if hasViolation : bool then mkDecision protocolEvidenceViolation true discharged
  else if hasUnresolved : bool then mkDecision protocolEvidenceInconclusive true discharged
  else mkDecision "" false discharged.

(** ** Widths

    The unsigned Go types of the fields; no operation below wraps around. *)
Definition representable (s : protocolAbstractState) : Prop :=
  0 <= Validation s < 2 ^ 8 /\ 0 <= Hazards s < 2 ^ 8 /\ 0 <= Uncertainty s < 2 ^ 32 /\
  0 <= Result s < 2 ^ 8 /\ 0 <= DeferredError s < 2 ^ 8 /\ 0 <= Identity s < 2 ^ 8 /\
  0 <= PossibleEffects s < 2 ^ 16.

(** ** The state is a product semilattice *)
Lemma lessEqual_components s t :
  lessEqual s t =
  Z.leb (Validation s) (Validation t) && bits_leb (Hazards s) (Hazards t) &&
  bits_leb (Uncertainty s) (Uncertainty t) &&
  flat_leb protocolErrorResultUnknown (Result s) (Result t) &&
  flat_leb protocolDeferredErrorUnknown (DeferredError s) (DeferredError t) &&
  Z.leb (Identity s) (Identity t) && bits_leb (PossibleEffects s) (PossibleEffects t).
Proof. reflexivity. Qed.

Lemma lessEqual_spec s t :
  lessEqual s t = true <->
  Z.leb (Validation s) (Validation t) = true /\ bits_leb (Hazards s) (Hazards t) = true /\
  bits_leb (Uncertainty s) (Uncertainty t) = true /\
  flat_leb protocolErrorResultUnknown (Result s) (Result t) = true /\
  flat_leb protocolDeferredErrorUnknown (DeferredError s) (DeferredError t) = true /\
  Z.leb (Identity s) (Identity t) = true /\
  bits_leb (PossibleEffects s) (PossibleEffects t) = true.
Proof. rewrite lessEqual_components, !andb_true_iff. tauto. Qed.

Lemma joinIdentity_max a b : joinProtocolIdentityRelevance a b = Z.max a b.
Proof. unfold joinProtocolIdentityRelevance. case_match; split_bools; lia. Qed.

#[export] Instance state_semilattice : JoinSemilattice lessEqual join.
Proof.
  split.
  - intros s. apply lessEqual_spec. repeat split; apply sl_refl.
  - intros [] [] (?&?&?&?&?&?&?)%lessEqual_spec (?&?&?&?&?&?&?)%lessEqual_spec; simpl in *.
    f_equal; sl_order.
  - intros a b c (?&?&?&?&?&?&?)%lessEqual_spec (?&?&?&?&?&?&?)%lessEqual_spec.
    apply lessEqual_spec. repeat split; sl_order.
  - intros a b c. apply eq_true_iff_eq.
    rewrite andb_true_iff, !lessEqual_spec. simpl. rewrite joinIdentity_max.
    change (joinProtocolErrorResults (Result a) (Result b)) with
      (flat_join protocolErrorResultUnknown (Result a) (Result b)).
    change (joinProtocolDeferredErrors (DeferredError a) (DeferredError b)) with
      (flat_join protocolDeferredErrorUnknown (DeferredError a) (DeferredError b)).
    rewrite !max_join_leb, !bits_join_leb, !flat_join_leb, !andb_true_iff. tauto.
Qed.

(** ** Validity *)
Lemma outside_zero x mask : outside x mask = 0 <-> bits_leb x mask = true.
Proof.
  unfold outside, bits_leb. rewrite Z.eqb_eq, <- Z.ldiff_land. split; intros H.
  - apply Z.bits_inj'. intros n Hn. apply (f_equal (fun z => Z.testbit z n)) in H.
    rewrite Z.ldiff_spec, Z.bits_0 in H. rewrite Z.land_spec.
    by destruct (Z.testbit x n), (Z.testbit mask n).
  - apply Z.bits_inj'. intros n Hn. apply (f_equal (fun z => Z.testbit z n)) in H.
    rewrite Z.land_spec in H. rewrite Z.ldiff_spec, Z.bits_0.
    by destruct (Z.testbit x n), (Z.testbit mask n).
Qed.

Lemma valid_spec s :
  valid s = true <->
  Validation s <= protocolValidationRequired /\
  bits_leb (Hazards s) (Z.lor protocolHazardEscaped protocolHazardConsumed) = true /\
  Result s <= protocolErrorResultNonNil /\ DeferredError s <= protocolDeferredErrorOther /\
  Identity s <= protocolIdentityUnknown /\
  bits_leb (Uncertainty s) allUncertainty = true /\
  bits_leb (PossibleEffects s) protocolUnknownCallEffects = true.
Proof.
  unfold valid. rewrite <- !outside_zero.
  destruct (_ || _ || _ || _ || _) eqn:E.
  - split; [done|]. rewrite !orb_true_iff, !Z.ltb_lt, negb_true_iff, Z.eqb_neq in E. lia.
  - split_bools. rewrite andb_true_iff, !Z.eqb_eq. lia.
Qed.

Lemma validationProven_spec s : validationProven s = true <-> Validation s = 0.
Proof. apply Z.eqb_eq. Qed.
Lemma validationRequired_spec s : validationRequired s = true <-> Validation s = 1.
Proof. apply Z.eqb_eq. Qed.

#[export] Hint Rewrite joinIdentity_max validationProven_spec validationRequired_spec
  andb_true_iff : goplint_rw.

(** ** Transfers *)
Lemma withUncertainty_some s r :
  r <> "" ->
  withUncertainty s r =
  mkState (Validation s) (Hazards s)
    (Z.lor (Uncertainty s) (protocolUncertaintyForPathReason r)) (Result s) (DeferredError s)
    (Z.max (Identity s) (protocolIdentityForUncertainty r))
    (Z.lor (PossibleEffects s) (protocolEffectsForUncertainty r)).
Proof.
  intros Hr. unfold withUncertainty, pathOutcomeReasonNone.
  apply String.eqb_neq in Hr. rewrite Hr.
  unfold set_Identity; simpl. by rewrite joinIdentity_max.
Qed.

Lemma withUncertainty_none s : withUncertainty s "" = s.
Proof. done. Qed.

(** The bit of a reason is one of the fourteen bits; an unknown reason maps to
    feasibility-unknown. *)
Lemma bitOfReason_in order r :
  bitOfReason order r = protocolUncertaintyFeasibilityUnknown \/
  exists r', (bitOfReason order r, r') ∈ order.
Proof.
  induction order as [|[b r'] order IH]; simpl; [by left|].
  destruct (String.eqb r' r); [right; exists r'; left|].
  destruct IH as [->|[r'' H]]; [by left|]. right. exists r''. by right.
Qed.

Lemma reason_bit_known r :
  protocolUncertaintyForPathReason r ∈ map fst protocolPathReasonOrder.
Proof.
  destruct (bitOfReason_in protocolPathReasonOrder r) as [H|[r' H]].
  - unfold protocolUncertaintyForPathReason. rewrite H. by apply (bool_decide_unpack _).
  - change (fst (protocolUncertaintyForPathReason r, r') ∈ map fst protocolPathReasonOrder).
    by apply list_elem_of_fmap_2.
Qed.

Lemma known_bits_positive b :
  b ∈ map fst protocolPathReasonOrder -> 0 < b /\ bits_leb b allUncertainty = true.
Proof.
  intros H. pose proof (Forall_forall (fun b => 0 < b /\ bits_leb b allUncertainty = true)
                          (map fst protocolPathReasonOrder)) as [Hall _].
  apply Hall; [|done]. repeat constructor.
Qed.

Lemma reason_bit_in_all r : bits_leb (protocolUncertaintyForPathReason r) allUncertainty = true.
Proof. apply known_bits_positive, reason_bit_known. Qed.

Lemma reason_bit_positive r : 0 < protocolUncertaintyForPathReason r.
Proof. apply known_bits_positive, reason_bit_known. Qed.

Lemma reason_effects_in_all r :
  bits_leb (protocolEffectsForUncertainty r) protocolUnknownCallEffects = true.
Proof. unfold protocolEffectsForUncertainty. by repeat case_match. Qed.

Lemma reason_identity_bound r : 0 <= protocolIdentityForUncertainty r <= protocolIdentityUnknown.
Proof. unfold protocolIdentityForUncertainty. repeat case_match; vm_compute; split; congruence. Qed.

(** A union with a positive number is not zero. *)
Lemma lor_nonzero_r a b : 0 < b -> Z.lor a b <> 0.
Proof. intros Hb [_ H]%Z.lor_eq_0_iff. lia. Qed.

Lemma land_nonzero_lor_r a b : 0 < b -> Z.land (Z.lor a b) b <> 0.
Proof.
  intros Hb H. assert (Z.land (Z.lor a b) b = b) as E; [|lia].
  rewrite Z.land_comm. apply Z.eqb_eq. change (bits_leb b (Z.lor a b) = true). apply sl_ub_r.
Qed.

Lemma firstReasonIn_none order u :
  Forall (fun e => snd e <> "") order ->
  firstReasonIn order u = "" <-> Forall (fun e => Z.land u (fst e) = 0) order.
Proof.
  induction order as [|[b r] order IH]; intros Hne; simpl; [by split; [constructor|]|].
  apply Forall_cons in Hne as [Hr Hne]. simpl in Hr.
  destruct (Z.eqb_spec (Z.land u b) 0) as [E|E]; simpl.
  - rewrite (IH Hne), Forall_cons. tauto.
  - rewrite Forall_cons. simpl. split; [done|]. intros [? _]; done.
Qed.

Lemma reasons_nonempty : Forall (fun e => snd e <> "") protocolPathReasonOrder.
Proof. by repeat constructor. Qed.

Lemma reported_reason_none u :
  firstReasonIn protocolPathReasonOrder u = "" <->
  Forall (fun b => Z.land u b = 0) (map fst protocolPathReasonOrder).
Proof.
  rewrite firstReasonIn_none by apply reasons_nonempty.
  rewrite Forall_fmap. done.
Qed.

(** A set of known bits disjoint from every known bit is empty. *)
Lemma known_bits_complete u :
  bits_leb u allUncertainty = true ->
  Forall (fun b => Z.land u b = 0) (map fst protocolPathReasonOrder) -> u = 0.
Proof.
  intros Hu Hall. unfold bits_leb in Hu. apply Z.eqb_eq in Hu. rewrite <- Hu.
  unfold allUncertainty, z_union. simpl foldr.
  repeat rewrite Z.land_lor_distr_r.
  repeat match goal with H : Forall _ (_ :: _) |- _ => apply Forall_cons in H as [? H]
                       | H : Forall _ (map _ _) |- _ => simpl map in H end.
  simpl fst in *.
  repeat match goal with H : Z.land u _ = 0 |- _ => rewrite H; clear H end.
  by rewrite Z.land_0_r.
Qed.

(** Valid states with non-negative fields: the invariant of every operation. *)
Definition wf_state (s : protocolAbstractState) : Prop :=
  valid s = true /\ 0 <= Validation s /\ 0 <= Result s /\ 0 <= DeferredError s /\ 0 <= Identity s.

Lemma wf_representable s : wf_state s -> representable s.
Proof.
  intros (Hv & ? & ? & ? & ?). apply valid_spec in Hv as (?&?&?&?&?&?&?).
  unfold representable.
  assert (0 <= Hazards s < 2 ^ 8) by (eapply bits_leb_bound; [done|eassumption|done]).
  assert (0 <= Uncertainty s < 2 ^ 32) by (eapply bits_leb_bound; [done|eassumption|done]).
  assert (0 <= PossibleEffects s < 2 ^ 16) by (eapply bits_leb_bound; [done|eassumption|done]).
  change protocolValidationRequired with 1 in *. change protocolErrorResultNonNil with 2 in *.
  change protocolDeferredErrorOther with 3 in *. change protocolIdentityUnknown with 3 in *. lia.
Qed.

Lemma wf_join s t : wf_state s -> wf_state t -> wf_state (join s t).
Proof.
  intros (Hs & ? & ? & ? & ?) (Ht & ? & ? & ? & ?).
  apply valid_spec in Hs as (?&?&?&?&?&?&?). apply valid_spec in Ht as (?&?&?&?&?&?&?).
  unfold wf_state. rewrite valid_spec. simpl. rewrite joinIdentity_max, !bits_join_leb.
  unfold joinProtocolErrorResults, joinProtocolDeferredErrors.
  change protocolErrorResultUnknown with 0. change protocolDeferredErrorUnknown with 0.
  change protocolErrorResultNonNil with 2 in *. change protocolDeferredErrorOther with 3 in *.
  repeat split; try (apply andb_true_iff; done); repeat case_match; lia.
Qed.

Lemma wf_withUncertainty s r : wf_state s -> wf_state (withUncertainty s r).
Proof.
  intros (Hs & ? & ? & ? & ?). destruct (decide (r = "")) as [->|Hr]; [done|].
  apply valid_spec in Hs as (?&?&?&?&?&?&?). pose proof (reason_identity_bound r).
  rewrite withUncertainty_some by done. unfold wf_state. rewrite valid_spec. simpl.
  rewrite !bits_join_leb, reason_bit_in_all, reason_effects_in_all, !andb_true_r.
  repeat split; try done; lia.
Qed.

Lemma wf_apply s e result r :
  wf_state s -> bits_leb r allUncertainty = true -> wf_state (apply s e result r).
Proof.
  intros (Hs & ? & ? & ? & ?) Hr. apply valid_spec in Hs as (?&?&?&?&?&?&?).
  unfold apply. repeat case_match; unfold wf_state; rewrite valid_spec; simpl;
    rewrite ?bits_join_leb, ?andb_true_iff; repeat split; try done.
Qed.

(** [apply] on a validation effect or a hazard effect, component by component. *)
Lemma apply_monotone_aux s t e result r :
  Validation t <= protocolValidationRequired ->
  lessEqual s t = true -> lessEqual (apply s e result r) (apply t e result r) = true.
Proof.
  intros Hv Hst. pose proof Hst as (HV&HH&HU&HR&HD&HI&HE)%lessEqual_spec.
  apply Z.leb_le in HV. change protocolValidationRequired with 1 in *.
  unfold apply. change protocolValidationRequired with 1.
  repeat case_match; split_bools; try done; apply lessEqual_spec; simpl;
    rewrite ?bits_join_leb, ?andb_true_iff, ?Z.leb_le;
    repeat split; try done; try lia;
    try apply sl_refl; try apply sl_ub_r;
    try (eapply sl_trans; [eassumption|apply sl_ub_l]).
Qed.

Lemma aggregate_fold l : forall v u d,
  fold_left aggregateStep l (v, u, d) =
  (v || bool_decide (protocolPathViolation ∈ l), u || bool_decide (protocolPathUnresolved ∈ l),
   d + Z.of_nat (length (filter (fun x => x = protocolPathDischargedInfeasible) l))).
Proof.
  induction l as [|x l IH]; intros v u d; cbn [fold_left].
  - repeat (case_bool_decide; [set_solver|]). by rewrite !orb_false_r, Z.add_0_r.
  - replace (aggregateStep (v, u, d) x) with
      (v || (x =? protocolPathViolation), u || (x =? protocolPathUnresolved),
       d + if x =? protocolPathDischargedInfeasible then 1 else 0).
    + rewrite IH, filter_cons, <- !orb_assoc, <- Z.add_assoc. f_equal; [f_equal|].
      * f_equal. apply eq_true_iff_eq.
        rewrite orb_true_iff, !bool_decide_eq_true, Z.eqb_eq, elem_of_cons. intuition congruence.
      * f_equal. apply eq_true_iff_eq.
        rewrite orb_true_iff, !bool_decide_eq_true, Z.eqb_eq, elem_of_cons. intuition congruence.
      * f_equal. destruct (decide (x = protocolPathDischargedInfeasible)) as [->|Hn].
        -- rewrite Z.eqb_refl. cbn [length]. lia.
        -- rewrite (proj2 (Z.eqb_neq _ _) Hn). lia.
    + unfold aggregateStep. repeat case_match; split_bools; subst;
        by rewrite ?orb_true_r, ?orb_false_r, ?Z.add_0_r.
Qed.

(** ** Properties *)

(** The information order of abstract states is a partial order, and [join]
    computes least upper bounds in it: a state bounds the join exactly when it
    bounds both arguments. *)
Theorem state_join_is_least_upper_bound :
  PartialOrder (fun a b => lessEqual a b = true) /\
  forall a b c, lessEqual (join a b) c = lessEqual a c && lessEqual b c.
Proof. split; [apply sl_partial_order|apply sl_join_leb]. Qed.

(** Applying a conditional effect is monotone in the information order: more
    information in never yields less information out. *)
Theorem apply_monotone s t e result r :
  valid t = true -> lessEqual s t = true ->
  lessEqual (apply s e result r) (apply t e result r) = true.
Proof. intros (?&?)%valid_spec. by apply apply_monotone_aux. Qed.

Lemma apply_monotone_witness :
  valid (mkState 1 1 2 0 0 1 3) = true /\
  lessEqual (apply newProtocolRequiredState (mkEffect protocolEffectEscape (mkRelation 0 0)) 0 0)
    (apply (mkState 1 1 2 0 0 1 3) (mkEffect protocolEffectEscape (mkRelation 0 0)) 0 0) = true.
Proof. split; [reflexivity|apply apply_monotone; reflexivity]. Defined.

(** Every operation keeps states valid, and valid states fit the unsigned
    field widths of the Go struct, so no field ever wraps around. *)
Theorem operations_preserve_validity s t e result r reason :
  wf_state s -> wf_state t -> bits_leb r allUncertainty = true ->
  wf_state (join s t) /\ wf_state (apply s e result r) /\ wf_state (withUncertainty s reason) /\
  representable s.
Proof. auto using wf_join, wf_apply, wf_withUncertainty, wf_representable. Qed.

Lemma operations_preserve_validity_witness :
  wf_state newProtocolRequiredState /\
  wf_state (withUncertainty newProtocolRequiredState pathOutcomeReasonReflection).
Proof.
  assert (wf_state newProtocolRequiredState) as H by (split; [reflexivity|vm_compute; intuition congruence]).
  split; [done|].
  apply (operations_preserve_validity newProtocolRequiredState newProtocolRequiredState
           (mkEffect 0 (mkRelation 0 0)) 0 0 pathOutcomeReasonReflection); done.
Defined.

(** Uncertainty is never silent: recording any reason, known or not, raises
    the state in the information order, keeps the reported reason non-empty and
    keeps the path from being satisfied. *)
Theorem withUncertainty_blocks s reason :
  reason <> pathOutcomeReasonNone ->
  lessEqual s (withUncertainty s reason) = true /\
  state_pathOutcomeReason (withUncertainty s reason) <> pathOutcomeReasonNone /\
  pathStatus (withUncertainty s reason) <> protocolPathSatisfied.
Proof.
  intros Hr. rewrite withUncertainty_some by done. pose proof (reason_bit_positive reason) as Hb.
  split; [|split].
  - apply lessEqual_spec. simpl. repeat split; try apply sl_refl; try apply sl_ub_l; lia.
  - unfold state_pathOutcomeReason. simpl. intros H%reported_reason_none.
    rewrite Forall_forall in H. specialize (H _ (reason_bit_known reason)).
    by apply land_nonzero_lor_r in H.
  - unfold pathStatus. simpl. pose proof (lor_nonzero_r (Uncertainty s) _ Hb) as Hz.
    apply Z.eqb_neq in Hz. rewrite Hz. by repeat case_match.
Qed.

Lemma withUncertainty_blocks_witness :
  state_pathOutcomeReason (withUncertainty newProtocolRequiredState "no-such-reason") =
    pathOutcomeReasonFeasibilityUnknown /\
  pathStatus (withUncertainty newProtocolRequiredState "no-such-reason") <> protocolPathSatisfied.
Proof.
  split; [reflexivity|].
  apply (withUncertainty_blocks newProtocolRequiredState "no-such-reason"). discriminate.
Defined.

(** A valid state reports no reason exactly when it carries no uncertainty,
    and a known reason recorded in a state without uncertainty is the reason
    reported. *)
Theorem reported_reason_exact s :
  wf_state s ->
  (state_pathOutcomeReason s = pathOutcomeReasonNone <-> Uncertainty s = 0) /\
  (Uncertainty s = 0 -> Forall (fun r => state_pathOutcomeReason (withUncertainty s r) = r)
                          (map snd protocolPathReasonOrder)).
Proof.
  intros [Hv _]. apply valid_spec in Hv as (_&_&_&_&_&Hu&_). split.
  - unfold state_pathOutcomeReason. change pathOutcomeReasonNone with "".
    rewrite reported_reason_none. split; [by apply known_bits_complete|].
    intros ->. by repeat constructor.
  - intros H0. repeat constructor; simpl; unfold state_pathOutcomeReason; simpl; by rewrite H0.
Qed.

Lemma reported_reason_exact_witness :
  state_pathOutcomeReason newProtocolRequiredState = pathOutcomeReasonNone <-> Uncertainty newProtocolRequiredState = 0.
Proof. apply reported_reason_exact. split; [reflexivity|vm_compute; intuition congruence]. Defined.

(** The aggregation of path statuses reports a violation as soon as one path
    violates, otherwise inconclusive as soon as one path is unresolved, and counts
    every discharged witness; in particular a discharged witness never removes a
    diagnostic and the order of the paths is irrelevant. *)
Theorem aggregate_decides statuses :
  aggregateProtocolPaths statuses =
  {| decision_Kind :=
       if bool_decide (protocolPathViolation ∈ statuses) then protocolEvidenceViolation
       else if bool_decide (protocolPathUnresolved ∈ statuses) then protocolEvidenceInconclusive
       else "";
     EmitDiagnostic := bool_decide (protocolPathViolation ∈ statuses) ||
                       bool_decide (protocolPathUnresolved ∈ statuses);
     DischargedWitnesses :=
       Z.of_nat (length (filter (fun x => x = protocolPathDischargedInfeasible) statuses)) |}.
Proof.
  unfold aggregateProtocolPaths. rewrite aggregate_fold. simpl.
  by repeat case_bool_decide.
Qed.

(** Relevance grows with the query: an uncertainty relevant to an obligation
    stays relevant when reachability holds, the identity relation is less definite
    and more effects are possible. *)
Theorem relevance_monotone q q' s :
  relevant q s = true -> ForwardReachable q' = true -> SinkReachable q' = true ->
  0 <= query_Identity q <= query_Identity q' ->
  bits_leb (query_PossibleEffects q) (query_PossibleEffects q') = true ->
  relevant q' s = true.
Proof.
  unfold relevant. intros H HF HS Hid Heff. rewrite HF, HS. cbn [negb orb].
  destruct (_ || _ || _ || _) eqn:E in H; [done|]. split_bools.
  assert (query_Identity q' <> 0) by (change protocolIdentityUnrelated with 0 in *; lia).
  assert (query_PossibleEffects q' <> 0) as Hne.
  { intros Hz. rewrite Hz in Heff. unfold bits_leb in Heff. rewrite Z.land_0_r in Heff.
    split_bools. congruence. }
  rewrite (proj2 (Z.eqb_neq _ protocolIdentityUnrelated)), (proj2 (Z.eqb_neq _ 0)) by done.
  simpl. destruct (negb (validationProven s)); [split_bools; apply Z.leb_le; lia|].
  apply negb_true_iff, Z.eqb_neq in H. apply negb_true_iff, Z.eqb_neq. intros Hz. apply H.
  apply Z.eqb_eq in Heff. rewrite <- Heff, <- Z.land_assoc, Hz. apply Z.land_0_r.
Qed.

Lemma relevance_monotone_witness :
  relevant (mkQuery true true 2 2) newProtocolRequiredState = true /\
  relevant (mkQuery true true 3 3) newProtocolRequiredState = true.
Proof.
  split; [reflexivity|].
  apply (relevance_monotone (mkQuery true true 2 2)); try reflexivity. simpl. lia.
Defined.
