(* ===== verification/EdgeFunc.v ===== *)
(** * Edge functions

    [goplint/cfa_ide_edgefunc.go] and the conditional edge functions of
    [goplint/cfa_ifds_tabulation.go]: the tags a node or an edge transfers a
    protocol state with, the composition used for procedure summaries, and the
    inference of the tag a witness step is labelled with. *)

From S2P Require Export ProtocolDomain.
Local Open Scope Z_scope.

(** ** Tags *)
Abbreviation ideEdgeFuncTag := string.

Definition ideEdgeFuncIdentity : ideEdgeFuncTag := "identity".
Definition ideEdgeFuncValidate : ideEdgeFuncTag := "needs-to-validated".
Definition ideEdgeFuncValidationFailed : ideEdgeFuncTag := "needs-to-validation-failed".
Definition ideEdgeFuncInvalidate : ideEdgeFuncTag := "validated-to-needs".
Definition ideEdgeFuncEscape : ideEdgeFuncTag := "needs-to-escaped-before-validate".
Definition ideEdgeFuncConsume : ideEdgeFuncTag := "needs-to-consumed-before-validate".
Definition ideEdgeFuncDeferredErrorNil : ideEdgeFuncTag := "deferred-error-nil".
Definition ideEdgeFuncDeferredErrorValidation : ideEdgeFuncTag := "deferred-error-validation".
Definition ideEdgeFuncDeferredErrorOther : ideEdgeFuncTag := "deferred-error-other".
Definition ideEdgeFuncDeferredErrorUnknown : ideEdgeFuncTag := "deferred-error-unknown".

Definition ideStateNeedsValidate : protocolAbstractState := newProtocolRequiredState.
Definition ideStateValidated : protocolAbstractState :=
  mkState protocolValidationProven 0 0 protocolErrorResultNil 0 0 0.
Definition ideStateValidationFailed : protocolAbstractState :=
  mkState protocolValidationRequired 0 0 protocolErrorResultNonNil 0 0 0.
Definition ideStateEscapedBeforeValidate : protocolAbstractState :=
  mkState protocolValidationRequired protocolHazardEscaped 0 0 0 0 0.
Definition ideStateConsumedBeforeValidate : protocolAbstractState :=
  mkState protocolValidationRequired protocolHazardConsumed 0 0 0 0 0.

Record ideEdgeFunc := mkEdgeFunc { tag : ideEdgeFuncTag }.

(** The tags of the constructor's two non-default cases. *)
Definition ideEdgeFuncTags : list ideEdgeFuncTag :=
  [ideEdgeFuncValidate; ideEdgeFuncValidationFailed; ideEdgeFuncInvalidate;
   ideEdgeFuncEscape; ideEdgeFuncConsume; ideEdgeFuncDeferredErrorNil;
   ideEdgeFuncDeferredErrorValidation; ideEdgeFuncDeferredErrorOther;
   ideEdgeFuncDeferredErrorUnknown].

Definition newIDEEdgeFunc (t : ideEdgeFuncTag) : ideEdgeFunc :=
  if bool_decide (t ∈ ideEdgeFuncTags) then mkEdgeFunc t
  else mkEdgeFunc ideEdgeFuncIdentity.

Definition Tag (f : ideEdgeFunc) : ideEdgeFuncTag :=
  if String.eqb (tag f) "" then ideEdgeFuncIdentity else tag f.

Definition validateEffect : protocolConditionalEffect :=
  mkEffect protocolEffectValidate (mkRelation 0 0).
Definition escapeEffect : protocolConditionalEffect :=
  mkEffect protocolEffectEscape (mkRelation 0 0).
Definition consumeEffect : protocolConditionalEffect :=
  mkEffect protocolEffectConsume (mkRelation 0 0).

Definition Apply (f : ideEdgeFunc) (state : protocolAbstractState) : protocolAbstractState :=
  let t := Tag f in
  if String.eqb t ideEdgeFuncValidate then
    apply state validateEffect protocolErrorResultNil 0
  else if String.eqb t ideEdgeFuncValidationFailed then
    apply state validateEffect protocolErrorResultNonNil 0
  else if String.eqb t ideEdgeFuncInvalidate then
    let state := set_Validation protocolValidationRequired state in
    let state := set_Result protocolErrorResultUnknown state in
    if DeferredError state =? protocolDeferredErrorValidation
    then set_DeferredError protocolDeferredErrorOther state
    else state
  else if String.eqb t ideEdgeFuncEscape then
    apply state escapeEffect protocolErrorResultUnknown 0
  else if String.eqb t ideEdgeFuncConsume then
    apply state consumeEffect protocolErrorResultUnknown 0
  else if String.eqb t ideEdgeFuncDeferredErrorNil then
    set_DeferredError protocolDeferredErrorNil state
  else if String.eqb t ideEdgeFuncDeferredErrorValidation then
    set_DeferredError protocolDeferredErrorValidation state
  else if String.eqb t ideEdgeFuncDeferredErrorOther then
    set_DeferredError protocolDeferredErrorOther state
  else if String.eqb t ideEdgeFuncDeferredErrorUnknown then
    set_Identity protocolIdentityUnknown (set_DeferredError protocolDeferredErrorUnknown state)
  else state.

Definition edgeFuncForState (state : protocolAbstractState) : ideEdgeFunc :=
  if consumedBeforeValidation state then newIDEEdgeFunc ideEdgeFuncConsume
  else if escapedBeforeValidation state then newIDEEdgeFunc ideEdgeFuncEscape
  else if validationProven state then newIDEEdgeFunc ideEdgeFuncValidate
  else if Result state =? protocolErrorResultNonNil then newIDEEdgeFunc ideEdgeFuncValidationFailed
  else newIDEEdgeFunc ideEdgeFuncIdentity.

Definition composeIDEEdgeFuncs (first second : ideEdgeFunc) : ideEdgeFunc :=
  edgeFuncForState (Apply second (Apply first newProtocolRequiredState)).

Definition joinIDEEdgeFuncs (left right : ideEdgeFunc) : ideEdgeFunc :=
  edgeFuncForState (join (Apply left newProtocolRequiredState) (Apply right newProtocolRequiredState)).

Definition joinIDEStates (left right : protocolAbstractState) : protocolAbstractState :=
  join left right.

(** ** Conditional edge functions of path edges *)
Record interprocConditionalEdgeFunc := mkCond {
  required : protocolAbstractState;
  proven : protocolAbstractState;
}.

#[export] Instance interprocConditionalEdgeFunc_eq_dec : EqDecision interprocConditionalEdgeFunc.
Proof. solve_decision. Defined.

Definition identityInterprocConditionalEdgeFunc : interprocConditionalEdgeFunc :=
  {| required := newProtocolRequiredState; proven := ideStateValidated |}.

Definition cond_apply (effect : interprocConditionalEdgeFunc) (state : protocolAbstractState)
    : protocolAbstractState :=
  let transformed := if validationRequired state then required effect else proven effect in
  set_Result (Result transformed)
    (set_Hazards (Z.lor (Hazards state) (Hazards transformed))
       (set_Validation (Validation transformed) state)).

Definition cond_then (effect : interprocConditionalEdgeFunc) (t : ideEdgeFuncTag)
    : interprocConditionalEdgeFunc :=
  {| required := Apply (newIDEEdgeFunc t) (required effect);
     proven := Apply (newIDEEdgeFunc t) (proven effect) |}.

Definition thenSummary (effect next : interprocConditionalEdgeFunc) : interprocConditionalEdgeFunc :=
  {| required := cond_apply next (required effect);
     proven := cond_apply next (proven effect) |}.

Definition cond_key (effect : interprocConditionalEdgeFunc) : string :=
  state_key (required effect) +:+ ">" +:+ state_key (proven effect).

(** The tag a witness step is labelled with, from the states around it. *)
Definition interprocTransitionTag (before after : protocolAbstractState) : ideEdgeFuncTag :=
  if bool_decide (before = after) then ideEdgeFuncIdentity
  else if validationRequired before && validationProven after then ideEdgeFuncValidate
  else if validationRequired before && validationRequired after &&
          negb (Result before =? protocolErrorResultNonNil) &&
          (Result after =? protocolErrorResultNonNil) then ideEdgeFuncValidationFailed
  else if validationProven before && validationRequired after then ideEdgeFuncInvalidate
  else if negb (escapedBeforeValidation before) && escapedBeforeValidation after
  then ideEdgeFuncEscape
  else if negb (consumedBeforeValidation before) && consumedBeforeValidation after
  then ideEdgeFuncConsume
  else if negb (DeferredError before =? DeferredError after) then
    if DeferredError after =? protocolDeferredErrorNil then ideEdgeFuncDeferredErrorNil
    else if DeferredError after =? protocolDeferredErrorValidation
    then ideEdgeFuncDeferredErrorValidation
    else if DeferredError after =? protocolDeferredErrorOther then ideEdgeFuncDeferredErrorOther
    else if DeferredError after =? protocolDeferredErrorUnknown
    then ideEdgeFuncDeferredErrorUnknown
    else ideEdgeFuncIdentity
  else ideEdgeFuncIdentity.

(** [protocolWitnessTransferMatches] of [cfa_witness_contribution.go]. *)
Definition protocolWitnessTransferMatches (transferred observed : protocolAbstractState) : bool :=
  (Validation transferred =? Validation observed) &&
  (Hazards transferred =? Hazards observed) &&
  (Z.land (Uncertainty transferred) (Uncertainty observed) =? Uncertainty transferred) &&
  (Identity transferred <=? Identity observed) &&
  (Z.land (PossibleEffects transferred) (PossibleEffects observed) =? PossibleEffects transferred).

(** ** Case analysis on tags *)
Definition allTags : list ideEdgeFuncTag := ideEdgeFuncIdentity :: ideEdgeFuncTags.

Lemma Apply_default f s : Tag f ∉ ideEdgeFuncTags -> Apply f s = s.
Proof.
  intros Hn. unfold Apply.
  repeat match goal with
  | |- context [String.eqb (Tag f) ?t] =>
      destruct (String.eqb_spec (Tag f) t) as [E|_];
      [exfalso; apply Hn; rewrite E; apply (bool_decide_unpack _); reflexivity|]
  end. done.
Qed.

(** Every edge function acts like one of the ten tags. *)
Lemma Apply_by_tag f : exists t, t ∈ allTags /\ forall s, Apply f s = Apply (mkEdgeFunc t) s.
Proof.
  destruct (decide (Tag f ∈ ideEdgeFuncTags)) as [Hin|Hn].
  - exists (Tag f). split; [by right|]. intros s. unfold Apply.
    replace (Tag (mkEdgeFunc (Tag f))) with (Tag f); [done|].
    unfold Tag at 2. simpl. case_match; [|done]. split_bools.
    apply String.eqb_eq in H. rewrite H in Hin. by apply (bool_decide_pack _) in Hin.
  - exists ideEdgeFuncIdentity. split; [left|]. intros s. by rewrite Apply_default.
Qed.

Lemma allTags_check (P : ideEdgeFuncTag -> bool) :
  forallb P allTags = true -> forall t, t ∈ allTags -> P t = true.
Proof. rewrite forallb_forall. intros H t Ht%list_elem_of_In. auto. Qed.

(** Split a goal about [Apply (newIDEEdgeFunc t)] into the ten tags. *)
Lemma newIDEEdgeFunc_cases t :
  newIDEEdgeFunc t ∈ map mkEdgeFunc allTags.
Proof.
  unfold newIDEEdgeFunc. case_bool_decide.
  - apply list_elem_of_fmap_2. by right.
  - apply list_elem_of_fmap_2. left.
Qed.

Ltac tag_cases t :=
  let H := fresh "Htag" in
  pose proof (newIDEEdgeFunc_cases t) as H; revert H;
  generalize (newIDEEdgeFunc t); intros ? H;
  unfold allTags, ideEdgeFuncTags in H; cbn [map] in H;
  repeat (apply elem_of_cons in H as [->|H]); [..|by apply elem_of_nil in H].

(** The two components a summary observes of a state. *)
Lemma Apply_tag f s t : Tag f = t -> Apply f s = Apply (mkEdgeFunc t) s \/ t = "".
Proof.
  intros <-. left. unfold Apply. replace (Tag (mkEdgeFunc (Tag f))) with (Tag f); [done|].
  unfold Tag. simpl. by repeat case_match.
Qed.

Lemma wf_Apply f s : wf_state s -> wf_state (Apply f s).
Proof.
  intros Hs. unfold Apply. repeat case_match; try (by apply wf_apply); try done;
    destruct Hs as (Hv&?&?&?&?); apply valid_spec in Hv as (?&?&?&?&?&?&?);
    unfold wf_state; rewrite valid_spec; simpl; repeat split; try done; lia.
Qed.

(** ** Observations of the required obligation *)

(** The composite of two tags is decided on the required start state; it keeps
    what the analysis decides on. *)
Definition observation (s : protocolAbstractState) : Z * bool * bool :=
  (pathStatus s, consumedBeforeValidation s,
   if pathStatus s =? protocolPathSatisfied then validationProven s else false).

Lemma observation_compose_tags :
  forallb (fun t1 => forallb (fun t2 =>
    bool_decide (observation (Apply (composeIDEEdgeFuncs (mkEdgeFunc t1) (mkEdgeFunc t2))
                                newProtocolRequiredState) =
                 observation (Apply (mkEdgeFunc t2) (Apply (mkEdgeFunc t1)
                                newProtocolRequiredState)))) allTags) allTags = true.
Proof. vm_compute. reflexivity. Qed.

Lemma observation_join_tags :
  forallb (fun t1 => forallb (fun t2 =>
    bool_decide (observation (Apply (joinIDEEdgeFuncs (mkEdgeFunc t1) (mkEdgeFunc t2))
                                newProtocolRequiredState) =
                 observation (join (Apply (mkEdgeFunc t1) newProtocolRequiredState)
                                   (Apply (mkEdgeFunc t2) newProtocolRequiredState))))
    allTags) allTags = true.
Proof. vm_compute. reflexivity. Qed.

(** ** Conditional edge functions as functions *)

(** Two conditional edge functions are equivalent when they transfer every state
    alike; equality of the stored states is finer. *)
Definition cond_equiv (e e' : interprocConditionalEdgeFunc) : Prop :=
  forall s, cond_apply e s = cond_apply e' s.

#[export] Instance cond_equiv_equivalence : Equivalence cond_equiv.
Proof.
  split.
  - intros x s. done.
  - intros x y H s. by rewrite H.
  - intros x y z H H' s. by rewrite H, H'.
Qed.

#[export] Instance cond_apply_proper : Proper (cond_equiv ==> eq ==> eq) cond_apply.
Proof. intros e e' He s ? <-. apply He. Qed.

Lemma cond_apply_thenSummary a b s :
  cond_apply (thenSummary a b) s = cond_apply b (cond_apply a s).
Proof.
  unfold cond_apply, thenSummary. simpl.
  destruct (validationRequired s); simpl;
    unfold validationRequired, set_Result, set_Hazards, set_Validation; simpl;
    case_match; by rewrite Z.lor_assoc.
Qed.

#[export] Instance thenSummary_proper :
  Proper (cond_equiv ==> cond_equiv ==> cond_equiv) thenSummary.
Proof. intros a a' Ha b b' Hb s. by rewrite !cond_apply_thenSummary, Ha, Hb. Qed.

Lemma cond_apply_identity_twice e s :
  cond_apply e (cond_apply identityInterprocConditionalEdgeFunc s) = cond_apply e s.
Proof.
  unfold cond_apply. simpl.
  destruct (validationRequired s); simpl; unfold validationRequired; simpl;
    by rewrite Z.lor_0_r.
Qed.

(** What a summary transports: validation, hazards and the error result. *)
Definition transported (s : protocolAbstractState) : Z * Z * Z :=
  (Validation s, Hazards s, Result s).

Lemma transported_Apply_hazards t s h :
  transported (Apply (newIDEEdgeFunc t) (set_Hazards (Z.lor h (Hazards s)) s)) =
  (Validation (Apply (newIDEEdgeFunc t) s), Z.lor h (Hazards (Apply (newIDEEdgeFunc t) s)),
   Result (Apply (newIDEEdgeFunc t) s)).
Proof.
  tag_cases t; try done;
    unfold Apply, apply; cbn -[Z.lor Z.eqb];
    repeat (case_match; cbn -[Z.lor Z.eqb] in *); try done;
    by rewrite ?Z.lor_assoc.
Qed.

Lemma transported_Apply_ext t s s' :
  transported s = transported s' ->
  transported (Apply (newIDEEdgeFunc t) s) = transported (Apply (newIDEEdgeFunc t) s').
Proof.
  destruct s as [v h u r d i p], s' as [v' h' u' r' d' i' p'].
  unfold transported; simpl. intros [= <- <- <-].
  tag_cases t; try done; unfold Apply, apply; cbn -[Z.lor Z.eqb];
    repeat (case_match; cbn -[Z.lor Z.eqb] in *); done.
Qed.

Lemma cond_then_transported e t s :
  transported (cond_apply (cond_then e t) s) =
  transported (Apply (newIDEEdgeFunc t) (cond_apply e s)).
Proof.
  set (x := if validationRequired s then required e else proven e).
  rewrite (transported_Apply_ext t (cond_apply e s) (set_Hazards (Z.lor (Hazards s) (Hazards x)) x)).
  - rewrite transported_Apply_hazards. unfold cond_apply, cond_then, x. simpl.
    by destruct (validationRequired s).
  - unfold cond_apply, transported, x. simpl. by destruct (validationRequired s).
Qed.

(** ** Witness labels *)
Lemma matches_spec s t :
  protocolWitnessTransferMatches s t = true <->
  Validation s = Validation t /\ Hazards s = Hazards t /\
  bits_leb (Uncertainty s) (Uncertainty t) = true /\ Identity s <= Identity t /\
  bits_leb (PossibleEffects s) (PossibleEffects t) = true.
Proof.
  unfold protocolWitnessTransferMatches.
  rewrite !andb_true_iff, !Z.eqb_eq, Z.leb_le. unfold bits_leb. rewrite !Z.eqb_eq. tauto.
Qed.

Lemma matches_refl s : protocolWitnessTransferMatches s s = true.
Proof. apply matches_spec. repeat split; try apply sl_refl; lia. Qed.

Lemma withUncertainty_fields s r :
  Validation (withUncertainty s r) = Validation s /\ Hazards (withUncertainty s r) = Hazards s /\
  Result (withUncertainty s r) = Result s /\
  DeferredError (withUncertainty s r) = DeferredError s /\
  bits_leb (Uncertainty s) (Uncertainty (withUncertainty s r)) = true /\
  Identity s <= Identity (withUncertainty s r) /\
  bits_leb (PossibleEffects s) (PossibleEffects (withUncertainty s r)) = true.
Proof.
  destruct (decide (r = "")) as [->|Hr].
  - rewrite withUncertainty_none. repeat split; try apply sl_refl; lia.
  - rewrite withUncertainty_some by done. simpl. repeat split; try apply sl_ub_l; lia.
Qed.

Lemma escaped_lor s : Z.land (Z.lor (Hazards s) protocolHazardEscaped) protocolHazardEscaped <> 0.
Proof. by apply land_nonzero_lor_r. Qed.
Lemma consumed_lor s : Z.land (Z.lor (Hazards s) protocolHazardConsumed) protocolHazardConsumed <> 0.
Proof. by apply land_nonzero_lor_r. Qed.

(** A hazard already recorded is recorded again without change. *)
Lemma hazard_idem h b : 0 < b -> (exists k, 0 <= k /\ b = 2 ^ k) -> Z.land h b <> 0 -> Z.lor h b = h.
Proof.
  intros Hb [k [Hk ->]] Hne. apply Z.bits_inj'. intros n Hn.
  rewrite Z.lor_spec, Z.pow2_bits_eqb by done.
  destruct (Z.eqb_spec k n) as [<-|]; [|by rewrite orb_false_r].
  destruct (Z.testbit h k) eqn:E; [done|]. exfalso. apply Hne.
  apply Z.bits_inj'. intros m Hm. rewrite Z.land_spec, Z.pow2_bits_eqb, Z.bits_0 by done.
  destruct (Z.eqb_spec k m) as [<-|]; [by rewrite E|by rewrite andb_false_r].
Qed.

(** The equations of [Apply] at its hazard tags. *)
Lemma Apply_Escape s :
  Apply (newIDEEdgeFunc ideEdgeFuncEscape) s =
  if Validation s =? 1 then set_Hazards (Z.lor (Hazards s) protocolHazardEscaped) s else s.
Proof. reflexivity. Qed.
Lemma Apply_Consume s :
  Apply (newIDEEdgeFunc ideEdgeFuncConsume) s =
  if Validation s =? 1 then set_Hazards (Z.lor (Hazards s) protocolHazardConsumed) s else s.
Proof. reflexivity. Qed.

(** The step adds information to everything but validation and hazards. *)
Definition extends (s a : protocolAbstractState) : Prop :=
  bits_leb (Uncertainty s) (Uncertainty a) = true /\ Identity s <= Identity a /\
  bits_leb (PossibleEffects s) (PossibleEffects a) = true.

Lemma escapedBeforeValidation_ext s a :
  Hazards s = Hazards a -> escapedBeforeValidation s = escapedBeforeValidation a.
Proof. unfold escapedBeforeValidation. by intros ->. Qed.
Lemma consumedBeforeValidation_ext s a :
  Hazards s = Hazards a -> consumedBeforeValidation s = consumedBeforeValidation a.
Proof. unfold consumedBeforeValidation. by intros ->. Qed.

Lemma label_same_hazards s a :
  0 <= Validation s <= 1 -> Validation a = Validation s -> Hazards a = Hazards s ->
  extends s a -> (DeferredError s <> 0 -> DeferredError a = 0 -> protocolIdentityUnknown <= Identity a) ->
  protocolWitnessTransferMatches (Apply (newIDEEdgeFunc (interprocTransitionTag s a)) s) a = true.
Proof.
  intros Hv HV HH (HU & HI & HE) HD. unfold interprocTransitionTag.
  rewrite (escapedBeforeValidation_ext s a), (consumedBeforeValidation_ext s a) by done.
  rewrite !andb_negb_l. unfold validationRequired, validationProven. rewrite HV.
  change protocolValidationRequired with 1. change protocolValidationProven with 0.
  case_bool_decide as Heq; [subst; apply matches_refl|].
  assert (protocolWitnessTransferMatches s a = true) as Hid by (apply matches_spec; done).
  destruct (Z.eqb_spec (Validation s) 1) as [H1|H1], (Z.eqb_spec (Validation s) 0) as [H0|H0];
    try lia; cbn [andb];
    repeat case_match; try exact Hid;
    apply matches_spec; unfold Apply, apply; cbn -[Z.lor]; repeat split; try done;
    split_bools; change protocolDeferredErrorUnknown with 0 in *; apply HD; lia.
Qed.

Lemma label_validates s a :
  Validation s = 1 -> Validation a = 0 -> Hazards a = Hazards s -> extends s a ->
  protocolWitnessTransferMatches (Apply (newIDEEdgeFunc (interprocTransitionTag s a)) s) a = true.
Proof.
  intros Hs Ha HH (HU & HI & HE). unfold interprocTransitionTag.
  case_bool_decide as Heq; [congruence|].
  unfold validationRequired, validationProven. rewrite Hs, Ha. cbn [Z.eqb andb].
  apply matches_spec. unfold Apply, apply. cbn -[Z.lor]. by repeat split.
Qed.

Lemma label_invalidates s a :
  Validation s = 0 -> Validation a = 1 -> Hazards a = Hazards s -> extends s a ->
  protocolWitnessTransferMatches (Apply (newIDEEdgeFunc (interprocTransitionTag s a)) s) a = true.
Proof.
  intros Hs Ha HH (HU & HI & HE). unfold interprocTransitionTag.
  case_bool_decide as Heq; [congruence|].
  unfold validationRequired, validationProven. rewrite Hs, Ha. cbn [Z.eqb andb].
  apply matches_spec. unfold Apply. cbn -[Z.lor].
  destruct (DeferredError s); cbn -[Z.lor]; repeat case_match; cbn -[Z.lor]; by repeat split.
Qed.

Lemma label_hazard s a b t :
  (b = protocolHazardEscaped /\ t = ideEdgeFuncEscape \/
   b = protocolHazardConsumed /\ t = ideEdgeFuncConsume) ->
  Validation s = 1 -> Validation a = 1 -> Result a = Result s -> extends s a ->
  DeferredError a = DeferredError s -> Hazards a = Z.lor (Hazards s) b ->
  protocolWitnessTransferMatches (Apply (newIDEEdgeFunc (interprocTransitionTag s a)) s) a = true.
Proof.
  intros Hb Hs Ha HR HX HD HH.
  destruct (decide (Z.land (Hazards s) b = 0)) as [Hz|Hz]; cycle 1.
  { apply label_same_hazards; try lia; try done. rewrite HH. apply hazard_idem; try done.
    - by destruct Hb as [[-> ->]|[-> ->]].
    - destruct Hb as [[-> ->]|[-> ->]]; [by exists 0|by exists 1]. }
  destruct HX as (HU & HI & HE).
  assert (interprocTransitionTag s a = t) as ->; cycle 1.
  { apply matches_spec. destruct Hb as [[-> ->]|[-> ->]];
      rewrite ?Apply_Escape, ?Apply_Consume, Hs; simpl; repeat split; congruence. }
  unfold interprocTransitionTag, validationRequired, validationProven. rewrite Hs, Ha, HR.
  change (1 =? protocolValidationRequired) with true.
  change (1 =? protocolValidationProven) with false. cbn [andb]. rewrite andb_negb_l.
  case_bool_decide as Heq.
  { exfalso. subst a. rewrite HH in Hz. destruct Hb as [[-> ->]|[-> ->]].
    - by apply escaped_lor in Hz.
    - by apply consumed_lor in Hz. }
  unfold escapedBeforeValidation, consumedBeforeValidation. rewrite HH.
  destruct Hb as [[-> ->]|[-> ->]].
  - rewrite Hz. simpl. destruct (Z.eqb_spec (Z.land (Z.lor (Hazards s) protocolHazardEscaped) protocolHazardEscaped) 0) as [E|E]; [by apply escaped_lor in E|done].
  - rewrite Hz. replace (Z.land (Z.lor (Hazards s) protocolHazardConsumed) protocolHazardEscaped)
      with (Z.land (Hazards s) protocolHazardEscaped).
    + rewrite negb_involutive, andb_negb_r. simpl.
      destruct (Z.eqb_spec (Z.land (Z.lor (Hazards s) protocolHazardConsumed) protocolHazardConsumed) 0) as [E|E]; [by apply consumed_lor in E|done].
    + rewrite Z.land_lor_distr_l. change (Z.land protocolHazardConsumed protocolHazardEscaped) with 0.
      by rewrite Z.lor_0_r.
Qed.

(** The four ways one transfer, possibly followed by uncertainty, moves a state. *)
Inductive shape (s a : protocolAbstractState) : Prop :=
| shape_same :
    Validation a = Validation s -> Hazards a = Hazards s ->
    (DeferredError s <> 0 -> DeferredError a = 0 -> protocolIdentityUnknown <= Identity a) ->
    extends s a -> shape s a
| shape_validates :
    Validation s = 1 -> Validation a = 0 -> Hazards a = Hazards s -> extends s a -> shape s a
| shape_invalidates :
    Validation s = 0 -> Validation a = 1 -> Hazards a = Hazards s -> extends s a -> shape s a
| shape_hazard b t :
    (b = protocolHazardEscaped /\ t = ideEdgeFuncEscape \/
     b = protocolHazardConsumed /\ t = ideEdgeFuncConsume) ->
    Validation s = 1 -> Validation a = 1 -> Result a = Result s ->
    DeferredError a = DeferredError s -> Hazards a = Z.lor (Hazards s) b -> extends s a ->
    shape s a.

Lemma shape_label s a :
  0 <= Validation s <= 1 -> shape s a ->
  protocolWitnessTransferMatches (Apply (newIDEEdgeFunc (interprocTransitionTag s a)) s) a = true.
Proof.
  intros Hv [].
  - by apply label_same_hazards.
  - by apply label_validates.
  - by apply label_invalidates.
  - by eapply label_hazard.
Qed.

Lemma shape_withUncertainty s a r : shape s a -> shape s (withUncertainty a r).
Proof.
  destruct (withUncertainty_fields a r) as (EV&EH&ER&ED&EU&EI&EE).
  assert (extends s a -> extends s (withUncertainty a r)) as HX.
  { intros (?&?&?). split; [|split]; [by sl_order|lia|by sl_order]. }
  intros [].
  - apply shape_same; try congruence; auto. rewrite ED. intros ? ?. etrans; [|exact EI]. auto.
  - apply shape_validates; try congruence; auto.
  - apply shape_invalidates; try congruence; auto.
  - eapply shape_hazard; rewrite ?EV, ?EH, ?ER, ?ED; eauto.
Qed.

Lemma extends_refl s : extends s s.
Proof. repeat split; try apply sl_refl; lia. Qed.

Lemma Apply_shape s t :
  Identity s <= protocolIdentityUnknown -> 0 <= Validation s <= 1 ->
  shape s (Apply (newIDEEdgeFunc t) s).
Proof.
  intros HI HV. pose proof (extends_refl s) as HX.
  assert (Validation s = 0 \/ Validation s = 1) as Hs by lia. clear HV.
  tag_cases t.
  - by apply shape_same.
  - destruct Hs as [Hs|Hs]; [apply shape_same; try done; by rewrite Hs|by apply shape_validates].
  - by apply shape_same.
  - destruct Hs as [Hs|Hs]; unfold Apply; cbn -[Z.lor]; case_match;
      first [by apply shape_invalidates|apply shape_same; simpl; rewrite ?Hs; try done].
  - change (mkEdgeFunc ideEdgeFuncEscape) with (newIDEEdgeFunc ideEdgeFuncEscape).
    rewrite Apply_Escape. case_match; split_bools; [|by apply shape_same].
    by eapply shape_hazard; [left| |done..|].
  - change (mkEdgeFunc ideEdgeFuncConsume) with (newIDEEdgeFunc ideEdgeFuncConsume).
    rewrite Apply_Consume. case_match; split_bools; [|by apply shape_same].
    by eapply shape_hazard; [right| |done..|].
  - by apply shape_same.
  - by apply shape_same.
  - by apply shape_same.
  - apply shape_same; try done. destruct HX as (?&?&?). by repeat split.
Qed.

(** ** Properties *)

(** Composing and joining edge functions decides like the sequence and the
    join of the states they stand for: from the required start state, the
    composite has the path status, the consumption hazard and, on a satisfied
    path, the validation state of applying one function after the other (of the
    join of the two results). *)
Theorem edge_composition_decides f g :
  observation (Apply (composeIDEEdgeFuncs f g) newProtocolRequiredState) =
    observation (Apply g (Apply f newProtocolRequiredState)) /\
  observation (Apply (joinIDEEdgeFuncs f g) newProtocolRequiredState) =
    observation (join (Apply f newProtocolRequiredState) (Apply g newProtocolRequiredState)).
Proof.
  destruct (Apply_by_tag f) as (t1 & Hin1 & E1), (Apply_by_tag g) as (t2 & Hin2 & E2).
  unfold composeIDEEdgeFuncs, joinIDEEdgeFuncs. rewrite !E1, !E2.
  pose proof (allTags_check _ observation_compose_tags t1 Hin1) as H1; cbv beta in H1.
  pose proof (allTags_check _ observation_join_tags t1 Hin1) as H2; cbv beta in H2.
  pose proof (allTags_check _ H1 t2 Hin2) as H1'. pose proof (allTags_check _ H2 t2 Hin2) as H2'.
  cbv beta in *. split_bools. done.
Qed.

(** A conditional edge function tracks the sequence of tags it was extended
    with: extending it by a tag transfers validation, hazards and the error result
    of every state as applying the tag after it. *)
Theorem cond_then_tracks_tag e t s :
  transported (cond_apply (cond_then e t) s) = transported (Apply (newIDEEdgeFunc t) (cond_apply e s)).
Proof. apply cond_then_transported. Qed.

(** Summaries compose: on every state a composed summary acts as the callee's
    summary after the caller's effect, composition is associative, and the
    identity edge function is neutral on the left, up to acting alike. *)
Theorem summary_composition a b c :
  (forall s, cond_apply (thenSummary a b) s = cond_apply b (cond_apply a s)) /\
  cond_equiv (thenSummary a (thenSummary b c)) (thenSummary (thenSummary a b) c) /\
  cond_equiv (thenSummary identityInterprocConditionalEdgeFunc a) a.
Proof.
  split; [apply cond_apply_thenSummary|split].
  - intros s. by rewrite !cond_apply_thenSummary.
  - intros s. by rewrite cond_apply_thenSummary, cond_apply_identity_twice.
Qed.

(** The label of a witness step replays: for a step that transfers a state by
    one tag and then records any uncertainty, the tag inferred from the two states
    transfers the first one to a state the second one matches. *)
Theorem inferred_tag_replays s t reason :
  wf_state s ->
  let after := withUncertainty (Apply (newIDEEdgeFunc t) s) reason in
  protocolWitnessTransferMatches (Apply (newIDEEdgeFunc (interprocTransitionTag s after)) s) after = true.
Proof.
  intros (Hv & HV0 & _ & _ & _) after. apply valid_spec in Hv as (HV&_&_&_&HI&_&_).
  change protocolValidationRequired with 1 in HV.
  apply shape_label; [lia|]. apply shape_withUncertainty, Apply_shape; [done|lia].
Qed.

Lemma inferred_tag_replays_witness :
  let after := withUncertainty (Apply (newIDEEdgeFunc ideEdgeFuncEscape) newProtocolRequiredState)
                 pathOutcomeReasonUnsafe in
  protocolWitnessTransferMatches
    (Apply (newIDEEdgeFunc (interprocTransitionTag newProtocolRequiredState after))
       newProtocolRequiredState) after = true.
Proof.
  apply (inferred_tag_replays newProtocolRequiredState ideEdgeFuncEscape).
  split; [reflexivity|vm_compute; intuition congruence].
Defined.
