(* ===== verification/GoRat.v ===== *)
(** * Numeric constants: [math/big.Rat.SetString]

    The feasibility checker compares constant texts by parsing both with
    [new(big.Rat).SetString].  This file is that parser of Go's standard library:
    an optional sign, a mantissa with an optional base prefix, separators and a
    radix point, an optional decimal or binary exponent, or a fraction [a/b].
    A text the parser rejects is [None]. *)

From S2P Require Export Prelude.
From Stdlib Require Export QArith_base.
Local Open Scope Z_scope.

(** ** Scanning an unsigned number ([nat.scan] with base 0) *)
Definition char_code (c : Ascii.ascii) : Z := Z.of_N (Ascii.N_of_ascii c).

(** The value of a digit, or a value above every base. *)
Definition digit_value (c : Ascii.ascii) : Z :=
  let n := char_code c in
  if (48 <=? n) && (n <=? 57) then n - 48
  else if (97 <=? n) && (n <=? 122) then n - 97 + 10
  else if (65 <=? n) && (n <=? 90) then n - 65 + 10
  else 1000.

Inductive prev_char := PrevStart | PrevDigit | PrevSep.

Record scan_state := mkScan {
  sc_value : Z;
  sc_count : Z;
  sc_dp : option Z;      (** digits before the radix point *)
  sc_prev : prev_char;
  sc_bad : bool;         (** a misplaced separator *)
}.

Fixpoint scan_digits (base : Z) (fracOk : bool) (st : scan_state) (s : string)
    : scan_state * string :=
  match s with
  | EmptyString => (st, EmptyString)
  | String c rest =>
      if (char_code c =? 46) && fracOk then
        scan_digits base false
          (mkScan (sc_value st) (sc_count st) (Some (sc_count st)) PrevStart
             (sc_bad st || match sc_prev st with PrevSep => true | _ => false end)) rest
      else if char_code c =? 95 then
        scan_digits base fracOk
          (mkScan (sc_value st) (sc_count st) (sc_dp st) PrevSep
             (sc_bad st || match sc_prev st with PrevDigit => false | _ => true end)) rest
      else if base <=? digit_value c then (st, s)
      else scan_digits base fracOk
             (mkScan (sc_value st * base + digit_value c) (sc_count st + 1) (sc_dp st)
                PrevDigit (sc_bad st)) rest
  end.

(** The base prefix: base, whether it is the bare octal prefix, the remaining text. *)
Definition scan_prefix (fracOk : bool) (s : string) : Z * bool * scan_state * string :=
  let start := mkScan 0 0 None PrevStart false in
  match s with
  | String z ((String c rest) as after) =>
      if char_code z =? 48 then
        let k := char_code c in
        if (k =? 98) || (k =? 66) then (2, false, mkScan 0 0 None PrevDigit false, rest)
        else if (k =? 111) || (k =? 79) then (8, false, mkScan 0 0 None PrevDigit false, rest)
        else if (k =? 120) || (k =? 88) then (16, false, mkScan 0 0 None PrevDigit false, rest)
        else if fracOk then (10, false, mkScan 0 1 None PrevDigit false, after)
        else (8, true, mkScan 0 0 None PrevDigit false, after)
      else (10, false, start, s)
  | String z EmptyString =>
      if char_code z =? 48 then (10, false, mkScan 0 1 None PrevDigit false, EmptyString)
      else (10, false, start, s)
  | EmptyString => (10, false, start, s)
  end.

(** Value, base, (non-positive) fractional digit count and unread text. *)
Definition nat_scan (fracOk : bool) (s : string) : option (Z * Z * Z * string) :=
  let '(base, octal, st0, s0) := scan_prefix fracOk s in
  let '(st, rest) := scan_digits base fracOk st0 s0 in
  if sc_bad st || match sc_prev st with PrevSep => true | _ => false end then None
  else if sc_count st =? 0 then if octal then Some (0, 10, 0, rest) else None
  else Some (sc_value st, base,
             match sc_dp st with Some dp => dp - sc_count st | None => 0 end, rest).

Definition scan_sign (s : string) : bool * string :=
  match s with
  | String c rest =>
      if char_code c =? 45 then (true, rest)
      else if char_code c =? 43 then (false, rest) else (false, s)
  | EmptyString => (false, s)
  end.

(** ** Exponents: value, base and unread text *)
Definition int64_ok (z : Z) : bool := (- 2 ^ 63 <=? z) && (z <? 2 ^ 63).

Definition scan_exponent (s : string) : option (Z * Z * string) :=
  match s with
  | String c rest =>
      let k := char_code c in
      let ebase := if (k =? 101) || (k =? 69) then Some 10
                   else if (k =? 112) || (k =? 80) then Some 2 else None in
      match ebase with
      | None => Some (0, 10, s)
      | Some eb =>
          let '(neg, digits) := scan_sign rest in
          let '(st, rest') := scan_digits 10 false (mkScan 0 0 None PrevStart false) digits in
          let e := if neg : bool then - sc_value st else sc_value st in
          if sc_bad st || match sc_prev st with PrevSep => true | _ => false end then None
          else if sc_count st =? 0 then None
          else if int64_ok e then Some (e, eb, rest') else None
      end
  | EmptyString => Some (0, 10, s)
  end.

(** ** Rationals *)

(** [m * 2^e2 * 5^e5]. *)
Definition scaled (m e2 e5 : Z) : Q :=
  Qmake (m * 2 ^ (Z.max 0 e2) * 5 ^ (Z.max 0 e5))
        (Z.to_pos (2 ^ (Z.max 0 (- e2)) * 5 ^ (Z.max 0 (- e5)))).

Definition float_SetString (s : string) : option Q :=
  let '(neg, s1) := scan_sign s in
  '(m, base, fcount, s2) ← nat_scan true s1;
  '(exp, ebase, s3) ← scan_exponent s2;
  match s3 with
  | String _ _ => None
  | EmptyString =>
      if m =? 0 then Some (Qmake 0 1)
      else
        let e5 := (if base =? 10 then fcount else 0) + (if ebase =? 10 then exp else 0) in
        let e2 := (if base =? 8 then fcount * 3 else if base =? 16 then fcount * 4 else fcount)
                  + exp in
        if (10 ^ 6 <? Z.abs e5) || (10 ^ 7 <? Z.abs e2) then None
        else Some (scaled (if neg : bool then - m else m) e2 e5)
  end.

(** Split at the first slash. *)
Fixpoint split_slash (s : string) : option (string * string) :=
  match s with
  | EmptyString => None
  | String c rest =>
      if char_code c =? 47 then Some (EmptyString, rest)
      else '(a, b) ← split_slash rest; Some (String c a, b)
  end.

Definition Rat_SetString (s : string) : option Q :=
  match s with
  | EmptyString => None
  | _ =>
      match split_slash s with
      | Some (a, b) =>
          let '(neg, a1) := scan_sign a in
          '(m, _, _, ra) ← nat_scan false a1;
          '(d, _, _, rb) ← nat_scan false b;
          match ra, rb with
          | EmptyString, EmptyString =>
              if d =? 0 then None
              else Some (Qmake (if neg : bool then - m else m) (Z.to_pos d))
          | _, _ => None
          end
      | None => float_SetString s
      end
  end.

(** ** Canonical decimal texts

    The text [constant.Value.ExactString] prints for an integer: an optional
    minus sign and decimal digits without a leading zero. *)
Definition is_decimal (c : Ascii.ascii) : bool := (48 <=? char_code c) && (char_code c <=? 57).

Fixpoint all_decimal (s : string) : bool :=
  match s with EmptyString => true | String c s' => is_decimal c && all_decimal s' end.

Fixpoint decimal_value (acc : Z) (s : string) : Z :=
  match s with EmptyString => acc | String c s' => decimal_value (acc * 10 + digit_value c) s' end.

Definition canonical_nat (s : string) : bool :=
  match s with
  | EmptyString => false
  | String c EmptyString => is_decimal c
  | String c s' => is_decimal c && negb (char_code c =? 48) && all_decimal s'
  end.

Definition canonical_int (s : string) : option Z :=
  match s with
  | String c s' =>
      if char_code c =? 45 then
        if canonical_nat s' && negb (decimal_value 0 s' =? 0) then Some (- decimal_value 0 s') else None
      else if canonical_nat s then Some (decimal_value 0 s) else None
  | EmptyString => None
  end.

Lemma is_decimal_spec c :
  is_decimal c = true ->
  (char_code c =? 46) = false /\ (char_code c =? 95) = false /\ (char_code c =? 47) = false /\
  (char_code c =? 45) = false /\ (char_code c =? 43) = false /\
  digit_value c = char_code c - 48 /\ (10 <=? digit_value c) = false /\ 48 <= char_code c <= 57.
Proof.
  unfold is_decimal, digit_value. intros [H1 H2]%andb_true_iff. rewrite H1, H2. simpl.
  apply Z.leb_le in H1, H2. rewrite !Z.eqb_neq, Z.leb_gt. lia.
Qed.

Lemma scan_decimal fracOk s : forall v n dp prev bad,
  all_decimal s = true ->
  scan_digits 10 fracOk (mkScan v n dp prev bad) s =
  (mkScan (decimal_value v s) (n + Z.of_nat (String.length s)) dp
     (match s with EmptyString => prev | _ => PrevDigit end) bad, EmptyString).
Proof.
  induction s as [|c s IH]; intros v n dp prev bad; [by rewrite Z.add_0_r|].
  cbn [all_decimal]. intros [Hc Hs]%andb_true_iff.
  destruct (is_decimal_spec c Hc) as (H46 & H95 & _ & _ & _ & _ & H10 & _).
  cbn [scan_digits sc_value sc_count sc_dp sc_bad]. rewrite H46, H95, H10. cbn [andb].
  rewrite IH by done. cbn [String.length decimal_value].
  replace (n + Z.of_nat (S (String.length s))) with (n + 1 + Z.of_nat (String.length s)) by lia.
  by destruct s.
Qed.

Lemma canonical_nat_decimal s : canonical_nat s = true -> all_decimal s = true /\ s <> EmptyString.
Proof.
  destruct s as [|c [|d s]]; [done| |]; cbn [canonical_nat all_decimal].
  - intros ->. done.
  - intros [[Hc _]%andb_true_iff Hs]%andb_true_iff. by rewrite Hc.
Qed.

Lemma nat_scan_canonical s :
  canonical_nat s = true -> nat_scan true s = Some (decimal_value 0 s, 10, 0, EmptyString).
Proof.
  intros Hs. destruct (canonical_nat_decimal s Hs) as [Hd Hne]. unfold nat_scan.
  assert (scan_prefix true s = (10, false, mkScan 0 0 None PrevStart false, s) \/
          s = "0" /\ scan_prefix true s = (10, false, mkScan 0 1 None PrevDigit false, EmptyString))
    as [->|[-> ->]].
  - destruct s as [|c [|d s]]; [done| |]; cbn [scan_prefix].
    + destruct (Z.eqb_spec (char_code c) 48) as [E|]; [right|by left].
      split; [|done]. f_equal. rewrite <- (Ascii.ascii_N_embedding c).
      unfold char_code in E. by replace (Ascii.N_of_ascii c) with 48%N by lia.
    + cbn [canonical_nat] in Hs. split_bools.
      destruct (Z.eqb_spec (char_code c) 48); [done|by left].
  - rewrite scan_decimal by done. destruct s as [|c s]; [done|]. cbn [sc_bad sc_prev sc_count orb].
    cbn [String.length]. destruct (Z.eqb_spec (0 + Z.of_nat (S (String.length s))) 0); [lia|done].
  - reflexivity.
Qed.

Lemma split_slash_decimal s : all_decimal s = true -> split_slash s = None.
Proof.
  induction s as [|c s IH]; [done|]. cbn [all_decimal split_slash].
  intros [Hc Hs]%andb_true_iff. destruct (is_decimal_spec c Hc) as (_&_&->&_). by rewrite IH.
Qed.

Lemma scan_sign_decimal s : all_decimal s = true -> scan_sign s = (false, s).
Proof.
  destruct s as [|c s]; [done|]. cbn [all_decimal scan_sign].
  intros [Hc Hs]%andb_true_iff. by destruct (is_decimal_spec c Hc) as (_&_&_&->&->&_).
Qed.

Lemma scaled_int m : scaled m 0 0 = Qmake m 1.
Proof.
  unfold scaled. change (2 ^ Z.max 0 0) with 1. change (5 ^ Z.max 0 0) with 1.
  by rewrite !Z.mul_1_r.
Qed.

(** The parser reads canonical texts as the integers they denote. *)
Lemma Rat_SetString_canonical s z : canonical_int s = Some z -> Rat_SetString s = Some (Qmake z 1).
Proof.
  unfold canonical_int, Rat_SetString. destruct s as [|c s]; [done|]. intros H.
  destruct (Z.eqb_spec (char_code c) 45) as [E|E].
  - destruct (canonical_nat s) eqn:Hn; [|done]. simpl in H.
    destruct (Z.eqb_spec (decimal_value 0 s) 0) as [|Hz]; [done|]. injection H as <-.
    destruct (canonical_nat_decimal s Hn) as [Hd _]. cbn [split_slash].
    destruct (Z.eqb_spec (char_code c) 47); [lia|]. rewrite split_slash_decimal by done. simpl.
    unfold float_SetString. cbn [scan_sign]. rewrite (proj2 (Z.eqb_eq _ _) E).
    rewrite nat_scan_canonical by done. simpl. apply Z.eqb_neq in Hz. rewrite Hz.
    by rewrite scaled_int.
  - destruct (canonical_nat (String c s)) eqn:Hn; [|done]. injection H as <-.
    destruct (canonical_nat_decimal _ Hn) as [Hd _].
    rewrite split_slash_decimal by done. unfold float_SetString.
    rewrite scan_sign_decimal, nat_scan_canonical by done. simpl.
    destruct (Z.eqb_spec (decimal_value (0 * 10 + digit_value c) s) 0) as [->|]; [done|].
    by rewrite scaled_int.
Qed.

(** Distinct canonical texts denote distinct integers. *)
Lemma decimal_value_bound s : forall v,
  all_decimal s = true -> 0 <= v ->
  v * 10 ^ Z.of_nat (String.length s) <= decimal_value v s
    < (v + 1) * 10 ^ Z.of_nat (String.length s).
Proof.
  induction s as [|c s IH]; intros v; cbn [all_decimal decimal_value String.length]; [lia|].
  intros [Hc Hs]%andb_true_iff Hv.
  destruct (is_decimal_spec c Hc) as (_&_&_&_&_&Hd&_&Hr).
  specialize (IH (v * 10 + digit_value c) Hs ltac:(lia)).
  rewrite Nat2Z.inj_succ, Z.pow_succ_r by lia.
  set (p := 10 ^ Z.of_nat (String.length s)) in *. assert (0 < p) by (apply Z.pow_pos_nonneg; lia).
  nia.
Qed.

Lemma decimal_value_inj s : forall t v w,
  all_decimal s = true -> all_decimal t = true -> String.length s = String.length t ->
  0 <= v -> 0 <= w -> decimal_value v s = decimal_value w t -> v = w /\ s = t.
Proof.
  induction s as [|c s IH]; intros [|d t] v w; cbn [all_decimal decimal_value String.length];
    try done.
  intros [Hc Hs]%andb_true_iff [Hd Ht]%andb_true_iff [= Hl] Hv Hw H.
  destruct (is_decimal_spec c Hc) as (_&_&_&_&_&Ec&_&Rc).
  destruct (is_decimal_spec d Hd) as (_&_&_&_&_&Ed&_&Rd).
  destruct (IH t (v * 10 + digit_value c) (w * 10 + digit_value d) Hs Ht Hl
              ltac:(lia) ltac:(lia) H) as [E ->].
  assert (char_code c = char_code d) as Ecd by lia. split; [lia|]. f_equal.
  unfold char_code in Ecd. apply N2Z.inj in Ecd.
  by rewrite <- (Ascii.ascii_N_embedding c), Ecd, Ascii.ascii_N_embedding.
Qed.

(** A canonical number of [n + 1 > 1] digits is at least [10 ^ n]. *)
Lemma canonical_nat_lower s :
  canonical_nat s = true -> (1 < String.length s)%nat ->
  10 ^ (Z.of_nat (String.length s) - 1) <= decimal_value 0 s.
Proof.
  destruct s as [|c [|d s]]; cbn [String.length]; try (intros; lia).
  cbn [canonical_nat]. intros Hs _. split_bools.
  match goal with H : is_decimal c = true |- _ =>
    destruct (is_decimal_spec c H) as (_&_&_&_&_&Ec&_&Rc) end.
  change (decimal_value 0 (String c (String d s))) with
    (decimal_value (0 * 10 + digit_value c) (String d s)).
  pose proof (decimal_value_bound (String d s) (0 * 10 + digit_value c) ltac:(done) ltac:(lia)) as HB.
  cbn [String.length] in HB.
  replace (Z.of_nat (S (S (String.length s))) - 1) with (Z.of_nat (S (String.length s))) by lia.
  set (p := 10 ^ _) in *. assert (0 < p) by (apply Z.pow_pos_nonneg; lia). nia.
Qed.

Lemma canonical_nat_length s t :
  canonical_nat s = true -> canonical_nat t = true ->
  decimal_value 0 s = decimal_value 0 t -> (String.length s <= String.length t)%nat.
Proof.
  intros Hs Ht E. destruct (canonical_nat_decimal t Ht) as [Hd Hne].
  destruct (decide (String.length s <= String.length t)%nat) as [|Hgt]; [done|].
  assert (0 < String.length t)%nat by (destruct t; simpl; [done|lia]).
  pose proof (canonical_nat_lower s Hs ltac:(lia)) as HL.
  pose proof (decimal_value_bound t 0 Hd ltac:(lia)) as HB.
  assert (10 ^ Z.of_nat (String.length t) <= 10 ^ (Z.of_nat (String.length s) - 1))
    by (apply Z.pow_le_mono_r; lia). lia.
Qed.

Lemma canonical_nat_inj s t :
  canonical_nat s = true -> canonical_nat t = true ->
  decimal_value 0 s = decimal_value 0 t -> s = t.
Proof.
  intros Hs Ht E.
  pose proof (canonical_nat_length s t Hs Ht E). pose proof (canonical_nat_length t s Ht Hs (eq_sym E)).
  eapply (decimal_value_inj s t 0 0); try done; try lia; try (by apply canonical_nat_decimal).
Qed.

Lemma decimal_value_nonneg s : all_decimal s = true -> 0 <= decimal_value 0 s.
Proof. intros Hs. pose proof (decimal_value_bound s 0 Hs ltac:(lia)). lia. Qed.

Lemma canonical_int_inj s t z : canonical_int s = Some z -> canonical_int t = Some z -> s = t.
Proof.
  unfold canonical_int. destruct s as [|c s], t as [|d t]; try done.
  destruct (Z.eqb_spec (char_code c) 45) as [Ec|Ec], (Z.eqb_spec (char_code d) 45) as [Ed|Ed];
    intros Hs Ht; repeat case_match; simplify_eq; split_bools;
    repeat match goal with H : canonical_nat ?x = true |- _ =>
      match goal with _ : all_decimal x = true |- _ => fail 1 | _ =>
        pose proof (proj1 (canonical_nat_decimal x H)) end end;
    repeat match goal with H : all_decimal ?x = true |- _ =>
      match goal with _ : 0 <= decimal_value 0 x |- _ => fail 1 | _ =>
        pose proof (decimal_value_nonneg x H) end end; try lia.
  - f_equal; [|apply canonical_nat_inj; try done; lia].
    unfold char_code in *. rewrite <- (Ascii.ascii_N_embedding c), <- (Ascii.ascii_N_embedding d).
    f_equal. lia.
  - apply canonical_nat_inj; try done; lia.
Qed.
