(* ===== verification/Formula.v ===== *)
(** * SSA constraint formulas

    [goplint/cfa_ssa_constraints.go] with the constraint type of
    [goplint/cfa_feasibility.go]: formulas in disjunctive normal form over
    comparisons of one SSA value with one constant, their conjunction and
    disjunction under the alternative limit, normalization, and the extraction
    of a formula from a branch condition and the polarity it was taken with. *)

From S2P Require Export GoRat.
Local Open Scope Z_scope.

Definition cfgSSAConstraintAlternativeLimit : Z := 256.

Record cfgPredicateConstraint := mkConstraint {
  subject : string;
  op : string;
  value : string;
}.

#[export] Instance cfgPredicateConstraint_eq_dec : EqDecision cfgPredicateConstraint.
Proof. solve_decision. Defined.

Record cfgSSAConstraintFormula := mkFormula {
  alternatives : list (list cfgPredicateConstraint);
  unsupported : bool;
}.

(** The zero value of the struct, returned with every expiry. *)
Definition noFormula : cfgSSAConstraintFormula := mkFormula [] false.

Definition trueFormula : cfgSSAConstraintFormula := mkFormula [[]] false.

Definition cfgSSAUnsupportedFormula : cfgSSAConstraintFormula := mkFormula [[]] true.

Definition cfgSSAConstantFormula (v : bool) : cfgSSAConstraintFormula :=
  if v then mkFormula [[]] false else mkFormula [] false.

Definition zlen {A} (l : list A) : Z := Z.of_nat (length l).

(** ** Conjunction and disjunction *)
Fixpoint andRow (control : Control) (leftAlternative : list cfgPredicateConstraint)
    (rights acc : list (list cfgPredicateConstraint))
    : polled (list (list cfgPredicateConstraint) * bool) :=
  match rights with
  | [] => mret (acc, false)
  | rightAlternative :: rights' =>
      checkpoint control [] (andRow control leftAlternative rights'
                               (acc ++ [leftAlternative ++ rightAlternative]))
  end.

Fixpoint andRows (control : Control) (lefts rights acc : list (list cfgPredicateConstraint))
    : polled (list (list cfgPredicateConstraint) * bool) :=
  match lefts with
  | [] => mret (acc, false)
  | leftAlternative :: lefts' =>
      checkpoint control []
        (unless_expired (andRow control leftAlternative rights acc) []
           (fun acc' => andRows control lefts' rights acc'))
  end.

Definition cfgSSAFormulaAndWithControl (left right : cfgSSAConstraintFormula) (control : Control)
    : polled (cfgSSAConstraintFormula * bool) :=
  checkpoint control noFormula
    (if (zlen (alternatives left) =? 0) || (zlen (alternatives right) =? 0) then
       mret (mkFormula [] (unsupported left || unsupported right), false)
     else if cfgSSAConstraintAlternativeLimit <?
             zlen (alternatives left) * zlen (alternatives right) then
       mret (cfgSSAUnsupportedFormula, false)
     else
       unless_expired (andRows control (alternatives left) (alternatives right) []) noFormula
         (fun alts => finish control (mkFormula alts (unsupported left || unsupported right)))).

Definition cfgSSAFormulaOrWithControl (left right : cfgSSAConstraintFormula) (control : Control)
    : polled (cfgSSAConstraintFormula * bool) :=
  checkpoint control noFormula
    (if cfgSSAConstraintAlternativeLimit <? zlen (alternatives left) + zlen (alternatives right) then
       mret (cfgSSAUnsupportedFormula, false)
     else finish control (mkFormula (alternatives left ++ alternatives right)
                            (unsupported left || unsupported right))).

(** ** Normalization *)
Definition cfgConstraintKey (c : cfgPredicateConstraint) : string :=
  subject c +:+ "|" +:+ op c +:+ "|" +:+ value c.

Definition constraint_le (a b : cfgPredicateConstraint) : Prop :=
  String.le (cfgConstraintKey a) (cfgConstraintKey b).
#[export] Instance constraint_le_dec : RelDecision constraint_le.
Proof. intros a b. unfold constraint_le. apply _. Defined.
#[export] Instance constraint_le_total : Total constraint_le.
Proof. intros a b. unfold constraint_le. apply (total String.le). Qed.

(** [slices.CompareFunc] of two alternatives by the keys of their atoms. *)
Fixpoint alternative_leb (left right : list cfgPredicateConstraint) : bool :=
  match left, right with
  | [], _ => true
  | _ :: _, [] => false
  | a :: left', b :: right' =>
      if str_ltb (cfgConstraintKey a) (cfgConstraintKey b) then true
      else if str_ltb (cfgConstraintKey b) (cfgConstraintKey a) then false
      else alternative_leb left' right'
  end.

Definition alternative_le (left right : list cfgPredicateConstraint) : Prop :=
  alternative_leb left right = true.
#[export] Instance alternative_le_dec : RelDecision alternative_le.
Proof. intros l r. unfold alternative_le. apply _. Defined.

Fixpoint sortAlternatives (control : Control) (alts acc : list (list cfgPredicateConstraint))
    : polled (list (list cfgPredicateConstraint) * bool) :=
  match alts with
  | [] => mret (acc, false)
  | alternative :: alts' =>
      checkpoint control []
        (let sorted := merge_sort constraint_le alternative in
         checkpoint control [] (sortAlternatives control alts' (acc ++ [sorted])))
  end.

(** The receiver is updated in place; the model returns the normalized formula
    together with the expiry. *)
Definition normalizeWithControl (formula : cfgSSAConstraintFormula) (control : Control)
    : polled (cfgSSAConstraintFormula * bool) :=
  checkpoint control noFormula
    (unless_expired (sortAlternatives control (alternatives formula) []) noFormula
       (fun alts => finish control (mkFormula (merge_sort alternative_le alts) (unsupported formula)))).

(** ** Comparison operators *)
Inductive token := LAND | LOR | EQL | NEQ | LSS | LEQ | GTR | GEQ | NOT | ARROW | otherToken.

Definition cfgComparisonOp (operator : token) : string :=
  match operator with
  | EQL => "eq" | NEQ => "neq" | LSS => "lt" | LEQ => "le" | GTR => "gt" | GEQ => "ge"
  | _ => ""
  end.

Definition reverseComparisonToken (operator : token) : token :=
  match operator with
  | LSS => GTR | LEQ => GEQ | GTR => LSS | GEQ => LEQ
  | _ => operator
  end.

Definition negateCFGComparisonOp (operator : string) : string :=
  if String.eqb operator "eq" then "neq"
  else if String.eqb operator "neq" then "eq"
  else if String.eqb operator "lt" then "ge"
  else if String.eqb operator "le" then "gt"
  else if String.eqb operator "gt" then "le"
  else if String.eqb operator "ge" then "lt"
  else "".

Definition isCFGComparisonOp (operator : string) : bool :=
  bool_decide (operator ∈ ["eq"; "neq"; "lt"; "le"; "gt"; "ge"]).

(** ** Syntax and SSA values

    Expressions of [go/ast] with the pointer that identifies the node; the SSA
    values and the type information are those of the loaded package. *)
Inductive Expr :=
| Ident (p : Z) (Name : string)
| BasicLit (p : Z) (Value : string)
| ParenExpr (p : Z) (X : Expr)
| UnaryExpr (p : Z) (Op : token) (X : Expr)
| BinaryExpr (p : Z) (Op : token) (X Y : Expr)
| TypeAssertExpr (p : Z) (X : Expr)
| OtherExpr (p : Z).

Definition expr_pointer (e : Expr) : Z :=
  match e with
  | Ident p _ | BasicLit p _ | ParenExpr p _ | UnaryExpr p _ _ | BinaryExpr p _ _ _
  | TypeAssertExpr p _ | OtherExpr p => p
  end.

Inductive BasicKind :=
| KBool | KString | KInt | KInt8 | KInt16 | KInt32 | KInt64
| KUint | KUint8 | KUint16 | KUint32 | KUint64 | KUintptr | KUnsafePointer | KOther.

(** The underlying type of a value's type. *)
Inductive GoUnderlying :=
| UBasic (kind : BasicKind)
| UChan | UInterface | UMap | UPointer | USignature | USlice | UOther.

Record ssaValue := mkSSAValue {
  value_Parent : option string;      (** [Parent().String()], if any *)
  value_TypeName : string;           (** the [%T] of the value *)
  value_Name : string;
  value_Type : option GoUnderlying;  (** nil, or the unaliased underlying type *)
  value_isPhi : bool;
}.

Record typesInfo := mkTypesInfo {
  ObjectOf : Z -> Z;                 (** object pointer of an identifier, 0 for nil *)
  ConstantString : Z -> option string (** [ExactString] of a constant expression *)
}.

(** A pass: nil, or its possibly nil type information. *)
Abbreviation analysisPass := (option (option typesInfo)).

Record cfgSSAValueIndex := mkValueIndex {
  expressions : gmap Z ssaValue;
  objects : gmap Z ssaValue;
}.

Definition index_empty (index : cfgSSAValueIndex) : bool :=
  bool_decide (expressions index = ∅) && bool_decide (objects index = ∅).

Fixpoint stripParens (expr : Expr) : Expr :=
  match expr with ParenExpr _ x => stripParens x | _ => expr end.

(** ** Extraction of atoms *)
Definition cfgSSAComparisonSupported (subjectType : option GoUnderlying) (constant : string) : bool :=
  match subjectType with
  | None => false
  | Some underlying =>
      if String.eqb constant "<nil>" then
        match underlying with
        | UChan | UInterface | UMap | UPointer | USignature | USlice => true
        | UBasic KUnsafePointer => true
        | _ => false
        end
      else
        match underlying with
        | UBasic (KBool | KString | KInt | KInt8 | KInt16 | KInt32 | KInt64
                 | KUint | KUint8 | KUint16 | KUint32 | KUint64 | KUintptr) => true
        | _ => false
        end
  end.

Definition cfgSSAValueKey (v : ssaValue) : string :=
  let parent := match value_Parent v with Some p => p | None => "package" end in
  parent +:+ "|" +:+ value_TypeName v +:+ "|" +:+ value_Name v.

Definition cfgSSAValueForExpr (pass : analysisPass) (values : cfgSSAValueIndex) (expression : Expr)
    : option ssaValue :=
  let expression := stripParens expression in
  match expressions values !! expr_pointer expression with
  | Some v => Some v
  | None =>
      match expression, pass with
      | Ident p _, Some (Some info) => objects values !! ObjectOf info p
      | _, _ => None
      end
  end.

(** [tv.Value.ExactString()] of a typed constant expression. *)
Definition typedConstant (pass : analysisPass) (expr : Expr) : option string :=
  match pass with
  | Some (Some info) => ConstantString info (expr_pointer expr)
  | _ => None
  end.

Definition exprConstraintValue (pass : analysisPass) (expr : Expr) : option string :=
  match stripParens expr with
  | Ident _ name =>
      if String.eqb name "nil" then Some "<nil>"
      else if String.eqb name "true" || String.eqb name "false" then Some name
      else typedConstant pass expr
  | BasicLit _ v => Some v
  | _ => typedConstant pass expr
  end.

Definition isOrdered (operator : token) : bool :=
  match operator with EQL | NEQ => false | _ => true end.

Definition extractSSAComparisonAtom (pass : analysisPass) (values : cfgSSAValueIndex)
    (subjectExpression valueExpression : Expr) (operator : token)
    : option cfgPredicateConstraint :=
  match cfgSSAValueForExpr pass values subjectExpression with
  | None => None
  | Some v =>
      if isOrdered operator && value_isPhi v then None
      else
        match exprConstraintValue pass valueExpression with
        | None => None
        | Some constant =>
            if cfgSSAComparisonSupported (value_Type v) constant then
              let comparisonOp := cfgComparisonOp operator in
              if String.eqb comparisonOp "" then None
              else Some (mkConstraint (cfgSSAValueKey v) comparisonOp constant)
            else None
        end
  end.

Definition isComparison (operator : token) : bool :=
  match operator with EQL | NEQ | LSS | LEQ | GTR | GEQ => true | _ => false end.

(** The atom of a comparison: the constant on the right, or on the left with the
    operator reversed. *)
Definition comparisonAtom (pass : analysisPass) (values : cfgSSAValueIndex) (x y : Expr)
    (operator : token) : option cfgPredicateConstraint :=
  match extractSSAComparisonAtom pass values x y operator with
  | Some atom => Some atom
  | None => extractSSAComparisonAtom pass values y x (reverseComparisonToken operator)
  end.

Definition identifierFormula (pass : analysisPass) (values : cfgSSAValueIndex) (node : Expr)
    (truthy : bool) : cfgSSAConstraintFormula :=
  match cfgSSAValueForExpr pass values node with
  | Some v =>
      if cfgSSAComparisonSupported (value_Type v) "true" then
        mkFormula [[mkConstraint (cfgSSAValueKey v) "eq" (if truthy then "true" else "false")]] false
      else cfgSSAUnsupportedFormula
  | None => cfgSSAUnsupportedFormula
  end.

(** The switch of [extractSSAPredicateFormulaWithControl] on the stripped node. *)
Fixpoint extractSSAPredicateNode (pass : analysisPass) (values : cfgSSAValueIndex)
    (expression : Expr) (truthy : bool) (control : Control)
    : polled (cfgSSAConstraintFormula * bool) :=
  let recurse (x : Expr) (t : bool) : polled (cfgSSAConstraintFormula * bool) :=
    checkpoint control noFormula (extractSSAPredicateNode pass values x t control) in
  match expression with
  | ParenExpr _ x => extractSSAPredicateNode pass values x truthy control
  | Ident _ name =>
      if String.eqb name "true" then mret (cfgSSAConstantFormula truthy, false)
      else if String.eqb name "false" then mret (cfgSSAConstantFormula (negb truthy), false)
      else mret (identifierFormula pass values expression truthy, false)
  | UnaryExpr _ NOT x => recurse x (negb truthy)
  | BinaryExpr _ LAND x y =>
      unless_expired (recurse x truthy) noFormula (fun left =>
        unless_expired (recurse y truthy) noFormula (fun right =>
          if truthy then cfgSSAFormulaAndWithControl left right control
          else cfgSSAFormulaOrWithControl left right control))
  | BinaryExpr _ LOR x y =>
      unless_expired (recurse x truthy) noFormula (fun left =>
        unless_expired (recurse y truthy) noFormula (fun right =>
          if truthy then cfgSSAFormulaOrWithControl left right control
          else cfgSSAFormulaAndWithControl left right control))
  | BinaryExpr _ operator x y =>
      if isComparison operator then
        match comparisonAtom pass values x y operator with
        | None => mret (cfgSSAUnsupportedFormula, false)
        | Some atom =>
            let atom := if truthy then atom
                        else mkConstraint (subject atom) (negateCFGComparisonOp (op atom)) (value atom) in
            mret (mkFormula [[atom]] false, false)
        end
      else mret (cfgSSAUnsupportedFormula, false)
  | _ => mret (cfgSSAUnsupportedFormula, false)
  end.

Definition extractSSAPredicateFormulaWithControl (pass : analysisPass) (values : cfgSSAValueIndex)
    (expression : Expr) (truthy : bool) (control : Control) : polled (cfgSSAConstraintFormula * bool) :=
  checkpoint control noFormula (extractSSAPredicateNode pass values expression truthy control).

Definition extractSSAPredicateFormula (pass : analysisPass) (values : cfgSSAValueIndex)
    (expression : Expr) (truthy : bool) : cfgSSAConstraintFormula :=
  fst (fst (extractSSAPredicateFormulaWithControl pass values expression truthy None 0%nat)).

(** A switch case: the tag and the case constant are the last two nodes. *)
Definition extractSSASwitchCasePredicate (pass : analysisPass) (values : cfgSSAValueIndex)
    (nodes : list (option Expr)) (truthy : bool) : cfgSSAConstraintFormula :=
  match reverse nodes with
  | Some constant :: Some subj :: _ =>
      match extractSSAComparisonAtom pass values subj constant EQL with
      | None => cfgSSAUnsupportedFormula
      | Some atom =>
          mkFormula [[mkConstraint (subject atom) (if truthy then "eq" else "neq") (value atom)]] false
      end
  | _ => cfgSSAUnsupportedFormula
  end.

(** The polarity of a branch successor: [Succs[0]] is the true edge. *)
Definition cfgPathSuccessorPolarity (succ0 succ1 : option Z) (to : Z) : bool * bool :=
  if bool_decide (succ0 = Some to) then (true, true)
  else if bool_decide (succ1 = Some to) then (false, true)
  else (false, false).

(** * Facts *)

(** ** Cancellation is the only effect of a control *)
Lemma andRow_transparent left rights : forall acc,
  transparent (fun c => andRow c left rights acc).
Proof.
  induction rights as [|r rights IH]; intros acc; simpl; auto using transparent_ret, transparent_checkpoint.
Qed.

Lemma andRows_transparent lefts rights : forall acc,
  transparent (fun c => andRows c lefts rights acc).
Proof.
  induction lefts as [|l lefts IH]; intros acc; simpl; [apply transparent_ret|].
  apply transparent_checkpoint, (transparent_unless (fun c => andRow c l rights acc));
    auto using andRow_transparent.
Qed.

Lemma formulaAnd_transparent left right :
  transparent (fun c => cfgSSAFormulaAndWithControl left right c).
Proof.
  apply transparent_checkpoint. repeat case_match; try apply transparent_ret.
  apply (transparent_unless (fun c => andRows c _ _ [])); auto using andRows_transparent, transparent_finish.
Qed.

Lemma formulaOr_transparent left right :
  transparent (fun c => cfgSSAFormulaOrWithControl left right c).
Proof. apply transparent_checkpoint. case_match; [apply transparent_ret|apply transparent_finish]. Qed.

Lemma sortAlternatives_transparent alts : forall acc,
  transparent (fun c => sortAlternatives c alts acc).
Proof.
  induction alts as [|a alts IH]; intros acc; simpl; auto using transparent_ret, transparent_checkpoint.
Qed.

Lemma normalize_transparent f : transparent (fun c => normalizeWithControl f c).
Proof.
  apply transparent_checkpoint, (transparent_unless (fun c => sortAlternatives c _ []));
    auto using sortAlternatives_transparent, transparent_finish.
Qed.

#[export] Hint Resolve transparent_ret transparent_finish transparent_checkpoint
  formulaAnd_transparent formulaOr_transparent normalize_transparent : goplint.

Lemma extractNode_transparent pass values e : forall truthy,
  transparent (fun c => extractSSAPredicateNode pass values e truthy c).
Proof.
  induction e as [| |p x IH|p o x IH|p o x IHx y IHy| |]; intros truthy; cbn [extractSSAPredicateNode];
    auto with goplint.
  - repeat case_match; auto with goplint.
  - destruct o; auto with goplint.
  - destruct o; try (repeat case_match; auto with goplint; fail).
    all: apply (transparent_unless (fun c => checkpoint c noFormula _)); auto with goplint; intros left.
    all: apply (transparent_unless (fun c => checkpoint c noFormula _)); auto with goplint; intros right.
    all: destruct truthy; auto with goplint.
Qed.

Lemma extract_transparent pass values e truthy :
  transparent (fun c => extractSSAPredicateFormulaWithControl pass values e truthy c).
Proof. apply transparent_checkpoint, extractNode_transparent. Qed.
#[export] Hint Resolve extractNode_transparent extract_transparent : goplint.

(** ** What the operations return *)
Definition formulaAnd (left right : cfgSSAConstraintFormula) : cfgSSAConstraintFormula :=
  outcome (cfgSSAFormulaAndWithControl left right).
Definition formulaOr (left right : cfgSSAConstraintFormula) : cfgSSAConstraintFormula :=
  outcome (cfgSSAFormulaOrWithControl left right).
Definition normalized (f : cfgSSAConstraintFormula) : cfgSSAConstraintFormula :=
  outcome (normalizeWithControl f).

Lemma andRow_outcome l rs : forall acc clk,
  andRow None l rs acc clk = ((acc ++ map (fun r => l ++ r) rs, false), clk).
Proof.
  induction rs as [|r rs IH]; intros acc clk; simpl; [by rewrite app_nil_r|].
  unfold checkpoint, mbind, polled_bind. simpl. by rewrite IH, <- app_assoc.
Qed.

Lemma andRows_outcome ls rs : forall acc clk,
  andRows None ls rs acc clk =
  ((acc ++ concat (map (fun l => map (fun r => l ++ r) rs) ls), false), clk).
Proof.
  induction ls as [|l ls IH]; intros acc clk; simpl; [by rewrite app_nil_r|].
  unfold checkpoint, unless_expired, mbind, polled_bind. simpl.
  by rewrite andRow_outcome, IH, <- app_assoc.
Qed.

Lemma formulaAnd_eq left right :
  formulaAnd left right =
  if (zlen (alternatives left) =? 0) || (zlen (alternatives right) =? 0)
  then mkFormula [] (unsupported left || unsupported right)
  else if cfgSSAConstraintAlternativeLimit <? zlen (alternatives left) * zlen (alternatives right)
  then cfgSSAUnsupportedFormula
  else mkFormula (concat (map (fun l => map (fun r => l ++ r) (alternatives right)) (alternatives left)))
         (unsupported left || unsupported right).
Proof.
  unfold formulaAnd, outcome, cfgSSAFormulaAndWithControl, checkpoint, mbind, polled_bind. simpl.
  case_match; [done|]. case_match; [done|].
  unfold unless_expired, mbind, polled_bind. by rewrite andRows_outcome.
Qed.

Lemma formulaOr_eq left right :
  formulaOr left right =
  if cfgSSAConstraintAlternativeLimit <? zlen (alternatives left) + zlen (alternatives right)
  then cfgSSAUnsupportedFormula
  else mkFormula (alternatives left ++ alternatives right) (unsupported left || unsupported right).
Proof.
  unfold formulaOr, outcome, cfgSSAFormulaOrWithControl, checkpoint, mbind, polled_bind. simpl.
  by case_match.
Qed.

Lemma sortAlternatives_outcome alts : forall acc clk,
  sortAlternatives None alts acc clk = ((acc ++ map (merge_sort constraint_le) alts, false), clk).
Proof.
  induction alts as [|a alts IH]; intros acc clk; simpl; [by rewrite app_nil_r|].
  unfold checkpoint, mbind, polled_bind. simpl. by rewrite IH, <- app_assoc.
Qed.

Lemma normalized_eq f :
  normalized f = mkFormula (merge_sort alternative_le (map (merge_sort constraint_le) (alternatives f)))
                   (unsupported f).
Proof.
  unfold normalized, outcome, normalizeWithControl, checkpoint, unless_expired, mbind, polled_bind.
  simpl. by rewrite sortAlternatives_outcome.
Qed.

(** ** Meaning of constants

    The Go values a compared SSA value can hold: integers, booleans, strings and
    nil.  A text denotes the value Go gives it when it is in the form
    [ExactString] prints: canonical decimals, the boolean and nil spellings of
    [exprConstraintValue], and interpreted string literals without escapes. *)
Inductive gval := VInt (z : Z) | VBool (b : bool) | VStr (s : string) | VNil.

#[export] Instance gval_eq_dec : EqDecision gval.
Proof. solve_decision. Defined.

Fixpoint plain_inner (s : string) : option string :=
  match s with
  | EmptyString => None
  | String c rest =>
      if char_code c =? 34 then match rest with EmptyString => Some EmptyString | _ => None end
      else if (char_code c =? 92) || (char_code c =? 10) then None
      else inner ← plain_inner rest; Some (String c inner)
  end.

Definition plain_string (s : string) : option string :=
  match s with
  | String c rest => if char_code c =? 34 then plain_inner rest else None
  | EmptyString => None
  end.

Definition den (text : string) : option gval :=
  match canonical_int text with
  | Some z => Some (VInt z)
  | None =>
      if String.eqb text "true" then Some (VBool true)
      else if String.eqb text "false" then Some (VBool false)
      else if String.eqb text "<nil>" then Some VNil
      else VStr <$> plain_string text
  end.

Lemma plain_inner_inj s : forall t v, plain_inner s = Some v -> plain_inner t = Some v -> s = t.
Proof.
  induction s as [|c s IH]; intros [|d t] v; cbn [plain_inner]; try done.
  destruct (Z.eqb_spec (char_code c) 34) as [Ec|Ec], (Z.eqb_spec (char_code d) 34) as [Ed|Ed].
  - assert (c = d) as ->; [|by repeat case_match].
    unfold char_code in *. rewrite <- (Ascii.ascii_N_embedding c), <- (Ascii.ascii_N_embedding d).
    f_equal. lia.
  - destruct s; [|done]. intros [= <-]. destruct (_ || _); [done|]. by destruct (plain_inner t).
  - destruct t; [|by destruct (_ || _), (plain_inner s)]. intros H [= <-].
    destruct (_ || _); [done|]. by destruct (plain_inner s).
  - destruct (_ || _); [done|]. destruct (_ || _); [by destruct (plain_inner s)|].
    destruct (plain_inner s) as [v'|] eqn:E; [|done]. intros [= <-].
    destruct (plain_inner t) eqn:E'; [|done]. intros [= -> ->]. by rewrite (IH t v').
Qed.

Lemma char_code_inj c d : char_code c = char_code d -> c = d.
Proof.
  unfold char_code. intros H%N2Z.inj.
  by rewrite <- (Ascii.ascii_N_embedding c), H, Ascii.ascii_N_embedding.
Qed.

Lemma plain_string_inj s t v : plain_string s = Some v -> plain_string t = Some v -> s = t.
Proof.
  destruct s as [|c s], t as [|d t]; cbn [plain_string]; try done.
  destruct (Z.eqb_spec (char_code c) 34) as [Ec|]; [|done].
  destruct (Z.eqb_spec (char_code d) 34) as [Ed|]; [|done].
  intros Hs Ht. f_equal; [apply char_code_inj; lia|by apply (plain_inner_inj s t v)].
Qed.

Lemma den_inv s v :
  den s = Some v ->
  match v with
  | VInt z => canonical_int s = Some z
  | VBool b => s = if b then "true" else "false"
  | VStr inner => plain_string s = Some inner
  | VNil => s = "<nil>"
  end.
Proof.
  unfold den. destruct (canonical_int s); [by intros [= <-]|].
  destruct (String.eqb_spec s "true"); [by intros [= <-]|].
  destruct (String.eqb_spec s "false"); [by intros [= <-]|].
  destruct (String.eqb_spec s "<nil>"); [by intros [= <-]|].
  destruct (plain_string s); [by intros [= <-]|done].
Qed.

Lemma den_inj s t v : den s = Some v -> den t = Some v -> s = t.
Proof.
  intros Hs%den_inv Ht%den_inv. destruct v; subst; try done;
    [by eapply canonical_int_inj|by eapply plain_string_inj].
Qed.

(** ** Meaning of atoms and formulas *)

(** The order Go's comparison operators use on integers and strings. *)
Definition vlt (a b : gval) : bool :=
  match a, b with
  | VInt x, VInt y => x <? y
  | VStr x, VStr y => str_ltb x y
  | _, _ => false
  end.

Definition vle (a b : gval) : bool :=
  match a, b with
  | VInt x, VInt y => x <=? y
  | VStr x, VStr y => str_leb x y
  | _, _ => false
  end.

(** The pairs of values Go's ordered comparisons accept. *)
Definition ordered_pair (a b : gval) : bool :=
  match a, b with
  | VInt _, VInt _ | VStr _, VStr _ => true
  | _, _ => false
  end.

Lemma vle_vlt a b : ordered_pair a b = true -> vle a b = negb (vlt b a).
Proof.
  destruct a, b; try done; simpl; intros _; [by rewrite Z.leb_antisym|].
  by rewrite str_ltb_not_leb, negb_involutive.
Qed.

Lemma ordered_pair_sym a b : ordered_pair a b = ordered_pair b a.
Proof. by destruct a, b. Qed.

Definition op_holds (operator : string) (a b : gval) : bool :=
  if String.eqb operator "eq" then bool_decide (a = b)
  else if String.eqb operator "neq" then negb (bool_decide (a = b))
  else if String.eqb operator "lt" then vlt a b
  else if String.eqb operator "le" then vle a b
  else if String.eqb operator "gt" then vlt b a
  else if String.eqb operator "ge" then vle b a
  else true.

(** An atom under a valuation of the SSA subjects; a text without a meaning
    constrains nothing. *)
Definition atom_holds (σ : string -> gval) (c : cfgPredicateConstraint) : bool :=
  match den (value c) with
  | Some w => op_holds (op c) (σ (subject c)) w
  | None => true
  end.

Definition alternative_holds (σ : string -> gval) (alternative : list cfgPredicateConstraint) : bool :=
  forallb (atom_holds σ) alternative.

Definition formula_holds (σ : string -> gval) (f : cfgSSAConstraintFormula) : bool :=
  existsb (alternative_holds σ) (alternatives f).

Lemma existsb_permutation {A} (p : A -> bool) l l' : l ≡ₚ l' -> existsb p l = existsb p l'.
Proof.
  induction 1; simpl; [done|congruence| |congruence].
  by rewrite !orb_assoc, (orb_comm (p x)).
Qed.

Lemma forallb_permutation {A} (p : A -> bool) l l' : l ≡ₚ l' -> forallb p l = forallb p l'.
Proof.
  induction 1; simpl; [done|congruence| |congruence].
  by rewrite !andb_assoc, (andb_comm (p x)).
Qed.

Lemma existsb_app_rows σ l rs :
  existsb (alternative_holds σ) (map (fun r => l ++ r) rs) =
  alternative_holds σ l && existsb (alternative_holds σ) rs.
Proof.
  induction rs as [|r rs IH]; simpl; [by rewrite andb_false_r|].
  rewrite IH, andb_orb_distrib_r. f_equal. apply forallb_app.
Qed.

Lemma formulaAnd_product σ ls rs :
  existsb (alternative_holds σ) (concat (map (fun l => map (fun r => l ++ r) rs) ls)) =
  existsb (alternative_holds σ) ls && existsb (alternative_holds σ) rs.
Proof.
  induction ls as [|l ls IH]; simpl; [done|].
  by rewrite existsb_app, existsb_app_rows, IH, andb_orb_distrib_l.
Qed.

(** Over-approximation: a combined formula holds when its parts justify it, and is
    exact unless it is flagged as unsupported. *)
Definition describes (f : cfgSSAConstraintFormula) (σ : string -> gval) (P : bool) : Prop :=
  (P = true -> formula_holds σ f = true) /\ (unsupported f = false -> formula_holds σ f = P).

Lemma describes_unsupported σ P : describes cfgSSAUnsupportedFormula σ P.
Proof. split; done. Qed.

Lemma no_alternatives σ f : zlen (alternatives f) = 0 -> formula_holds σ f = false.
Proof. unfold formula_holds, zlen. destruct (alternatives f); simpl; [done|lia]. Qed.

Lemma formulaAnd_describes σ f g P Q :
  describes f σ P -> describes g σ Q -> describes (formulaAnd f g) σ (P && Q).
Proof.
  intros [Hf Ef] [Hg Eg]. rewrite formulaAnd_eq.
  assert (forall x y : bool, x || y = false -> x = false /\ y = false) as Hor by (by intros [] []).
  destruct (_ || _) eqn:E0; [|case_match; [apply describes_unsupported|]].
  - assert (formula_holds σ f = false \/ formula_holds σ g = false) as Hno.
    { apply orb_true_iff in E0 as [E|E]; apply Z.eqb_eq in E; [left|right]; by apply no_alternatives. }
    split; simpl.
    + intros [-> ->]%andb_true_iff. destruct Hno as [H|H]; [rewrite Hf in H|rewrite Hg in H]; done.
    + intros [U V]%Hor. rewrite Ef, Eg in Hno by done. destruct Hno as [-> | ->];
        unfold formula_holds; simpl; by rewrite ?andb_false_r.
  - unfold describes. unfold formula_holds at 1 2. cbn [alternatives unsupported].
    rewrite formulaAnd_product. fold (formula_holds σ f) (formula_holds σ g). split.
    + intros [-> ->]%andb_true_iff. by rewrite Hf, Hg.
    + intros [U V]%Hor. by rewrite <- Ef, <- Eg.
Qed.

Lemma formulaOr_describes σ f g P Q :
  describes f σ P -> describes g σ Q -> describes (formulaOr f g) σ (P || Q).
Proof.
  intros [Hf Ef] [Hg Eg]. rewrite formulaOr_eq. case_match; [apply describes_unsupported|].
  unfold describes, formula_holds in *. simpl. rewrite existsb_app. split.
  - intros [-> | ->]%orb_true_iff; rewrite ?Hf, ?Hg by done; by rewrite ?orb_true_r.
  - intros [U V]%orb_false_iff. by rewrite Ef, Eg.
Qed.

Lemma normalized_holds σ f : formula_holds σ (normalized f) = formula_holds σ f.
Proof.
  rewrite normalized_eq. unfold formula_holds. simpl.
  rewrite (existsb_permutation _ _ _ (merge_sort_Permutation _ _)).
  induction (alternatives f) as [|a alts IH]; simpl; [done|].
  rewrite IH. f_equal. apply forallb_permutation, merge_sort_Permutation.
Qed.

(** ** Meaning of a branch condition

    The values the operands of a condition have when it is evaluated, by the
    pointer of the (unparenthesized) operand. *)
Definition operand_value (ν : Z -> gval) (e : Expr) : gval := ν (expr_pointer (stripParens e)).

Definition compare_values (operator : token) (a b : gval) : bool :=
  match operator with
  | EQL => bool_decide (a = b)
  | NEQ => negb (bool_decide (a = b))
  | LSS => vlt a b
  | LEQ => vle a b
  | GTR => vlt b a
  | GEQ => vle b a
  | _ => false
  end.

Fixpoint evalb (ν : Z -> gval) (e : Expr) : bool :=
  match e with
  | ParenExpr _ x => evalb ν x
  | Ident p name =>
      if String.eqb name "true" then true
      else if String.eqb name "false" then false
      else bool_decide (ν p = VBool true)
  | UnaryExpr _ NOT x => negb (evalb ν x)
  | BinaryExpr _ LAND x y => evalb ν x && evalb ν y
  | BinaryExpr _ LOR x y => evalb ν x || evalb ν y
  | BinaryExpr p operator x y =>
      if isComparison operator then compare_values operator (operand_value ν x) (operand_value ν y)
      else bool_decide (ν p = VBool true)
  | _ => bool_decide (ν (expr_pointer e) = VBool true)
  end.

Section Extraction.
Context (pass : analysisPass) (values : cfgSSAValueIndex).
(** What the SSA subjects hold and what the operands evaluate to. *)
Context (σ : string -> gval) (ν : Z -> gval).

(** An operand has the value of its SSA subject, and its constant text, when it
    has one, denotes that value. *)
Definition operand_coherent (e : Expr) : Prop :=
  (forall v, cfgSSAValueForExpr pass values e = Some v -> σ (cfgSSAValueKey v) = operand_value ν e) /\
  (forall text, exprConstraintValue pass e = Some text -> den text = Some (operand_value ν e)).

Fixpoint coherent (e : Expr) : Prop :=
  match e with
  | ParenExpr _ x => coherent x
  | Ident p _ => operand_coherent e /\ exists b, ν p = VBool b
  | UnaryExpr _ _ x => coherent x
  | BinaryExpr _ LAND x y | BinaryExpr _ LOR x y => coherent x /\ coherent y
  | BinaryExpr _ o x y =>
      operand_coherent x /\ operand_coherent y /\
      (isOrdered o = true -> ordered_pair (operand_value ν x) (operand_value ν y) = true)
  | _ => True
  end.

Lemma op_holds_comparison o a b :
  isComparison o = true -> op_holds (cfgComparisonOp o) a b = compare_values o a b.
Proof. by destruct o. Qed.

Lemma op_holds_reversed o a b :
  isComparison o = true ->
  op_holds (cfgComparisonOp (reverseComparisonToken o)) b a = compare_values o a b.
Proof.
  destruct o; try done; intros _; unfold op_holds; simpl;
    rewrite (bool_decide_ext (b = a) (a = b)); done.
Qed.

Definition isOrderedOp (o : string) : bool := negb (String.eqb o "eq") && negb (String.eqb o "neq").

Lemma op_holds_negated o a b :
  isCFGComparisonOp o = true ->
  (isOrderedOp o = true -> ordered_pair a b = true) ->
  op_holds (negateCFGComparisonOp o) a b = negb (op_holds o a b).
Proof.
  unfold isCFGComparisonOp. rewrite bool_decide_eq_true, !elem_of_cons.
  intros [->|[->|[->|[->|[->|[->|[]%elem_of_nil]]]]]]; unfold op_holds; simpl; intros Ho;
    rewrite ?negb_involutive; try done; specialize (Ho eq_refl);
    rewrite !vle_vlt by (rewrite ?(ordered_pair_sym b a); done); by rewrite ?negb_involutive.
Qed.

Lemma comparison_op_known o :
  isComparison o = true ->
  isCFGComparisonOp (cfgComparisonOp o) = true /\ isOrderedOp (cfgComparisonOp o) = isOrdered o.
Proof. by destruct o. Qed.

Lemma atom_of_operands s c o a :
  operand_coherent s -> operand_coherent c ->
  extractSSAComparisonAtom pass values s c o = Some a ->
  op a = cfgComparisonOp o /\ den (value a) = Some (operand_value ν c) /\
  σ (subject a) = operand_value ν s.
Proof.
  intros [Hs _] [_ Hc]. unfold extractSSAComparisonAtom.
  destruct (cfgSSAValueForExpr pass values s) as [v|]; [|done]. case_match; [done|].
  destruct (exprConstraintValue pass c) as [text|]; [|done].
  case_match; [|done]. case_match; [done|]. intros [= <-]. cbn. auto.
Qed.

Lemma comparisonAtom_holds x y o a :
  isComparison o = true -> operand_coherent x -> operand_coherent y ->
  comparisonAtom pass values x y o = Some a ->
  isCFGComparisonOp (op a) = true /\
  isOrderedOp (op a) = isOrdered o /\
  exists w, den (value a) = Some w /\
    ordered_pair (σ (subject a)) w = ordered_pair (operand_value ν x) (operand_value ν y) /\
    op_holds (op a) (σ (subject a)) w = compare_values o (operand_value ν x) (operand_value ν y).
Proof.
  intros Ho Hx Hy. unfold comparisonAtom.
  destruct (extractSSAComparisonAtom pass values x y o) eqn:E.
  - intros [= ->]. destruct (atom_of_operands _ _ _ _ Hx Hy E) as (-> & -> & ->).
    do 2 (split; [by apply comparison_op_known|]).
    eexists; split_and!; [done|done|by apply op_holds_comparison].
  - intros E'. destruct (atom_of_operands _ _ _ _ Hy Hx E') as (-> & -> & ->).
    split; [apply comparison_op_known; by destruct o|]. split; [by destruct o|].
    eexists; split_and!; [done|apply ordered_pair_sym|by apply op_holds_reversed].
Qed.

Lemma single_atom_holds c : formula_holds σ (mkFormula [[c]] false) = atom_holds σ c.
Proof. unfold formula_holds. simpl. by rewrite andb_true_r, orb_false_r. Qed.

Lemma identifier_describes p name truthy :
  operand_coherent (Ident p name) -> (exists b, ν p = VBool b) ->
  describes (identifierFormula pass values (Ident p name) truthy) σ
    (Bool.eqb (bool_decide (ν p = VBool true)) truthy).
Proof.
  intros [Hs _] [b Hb]. unfold identifierFormula.
  destruct (cfgSSAValueForExpr _ _ _) as [v|] eqn:E; [|apply describes_unsupported].
  case_match; [|apply describes_unsupported].
  unfold describes. rewrite single_atom_holds. unfold atom_holds. cbn [subject op value].
  rewrite (Hs v eq_refl). change (operand_value ν (Ident p name)) with (ν p). rewrite Hb.
  by destruct truthy, b.
Qed.

Lemma comparison_describes x y o truthy :
  isComparison o = true -> coherent (BinaryExpr 0 o x y) ->
  describes match comparisonAtom pass values x y o with
    | None => cfgSSAUnsupportedFormula
    | Some atom =>
        mkFormula [[if truthy : bool then atom
                    else mkConstraint (subject atom) (negateCFGComparisonOp (op atom)) (value atom)]] false
    end σ (Bool.eqb (compare_values o (operand_value ν x) (operand_value ν y)) truthy).
Proof.
  intros Ho Hxy. destruct (comparisonAtom pass values x y o) as [a|] eqn:E;
    [|apply describes_unsupported].
  assert (operand_coherent x /\ operand_coherent y /\
    (isOrdered o = true -> ordered_pair (operand_value ν x) (operand_value ν y) = true))
    as (Hx & Hy & Hord) by (by destruct o).
  destruct (comparisonAtom_holds x y o a Ho Hx Hy E) as (Hop & Hk & w & Hw & Hp & Ha).
  unfold describes. rewrite single_atom_holds. unfold atom_holds. rewrite <- Ha.
  destruct truthy; cbn [value subject op]; rewrite Hw, ?op_holds_negated by (rewrite ?Hk, ?Hp; done);
    by destruct (op_holds (op a) (σ (subject a)) w).
Qed.

Abbreviation node e t := (outcome (extractSSAPredicateNode pass values e t)).

Lemma node_and p x y truthy :
  node (BinaryExpr p LAND x y) truthy =
  if truthy then formulaAnd (node x truthy) (node y truthy) else formulaOr (node x truthy) (node y truthy).
Proof.
  transitivity (outcome (fun c => unless_expired (checkpoint c noFormula
      (extractSSAPredicateNode pass values x truthy c)) noFormula (fun left =>
    unless_expired (checkpoint c noFormula (extractSSAPredicateNode pass values y truthy c)) noFormula
      (fun right => (if truthy then cfgSSAFormulaAndWithControl else cfgSSAFormulaOrWithControl)
         left right c)))); [by destruct truthy|].
  etransitivity;
    [apply (outcome_unless (fun c => checkpoint c noFormula _) _
              (fun left c => unless_expired (checkpoint c noFormula _) _ _)); auto with goplint|].
  etransitivity;
    [apply (outcome_unless (fun c => checkpoint c noFormula _) _ (fun right c => _)); auto with goplint|].
  by destruct truthy.
Qed.

Lemma node_or p x y truthy :
  node (BinaryExpr p LOR x y) truthy =
  if truthy then formulaOr (node x truthy) (node y truthy) else formulaAnd (node x truthy) (node y truthy).
Proof.
  transitivity (outcome (fun c => unless_expired (checkpoint c noFormula
      (extractSSAPredicateNode pass values x truthy c)) noFormula (fun left =>
    unless_expired (checkpoint c noFormula (extractSSAPredicateNode pass values y truthy c)) noFormula
      (fun right => (if truthy then cfgSSAFormulaOrWithControl else cfgSSAFormulaAndWithControl)
         left right c)))); [by destruct truthy|].
  etransitivity;
    [apply (outcome_unless (fun c => checkpoint c noFormula _) _
              (fun left c => unless_expired (checkpoint c noFormula _) _ _)); auto with goplint|].
  etransitivity;
    [apply (outcome_unless (fun c => checkpoint c noFormula _) _ (fun right c => _)); auto with goplint|].
  by destruct truthy.
Qed.

Lemma constant_describes b truthy :
  describes (cfgSSAConstantFormula (Bool.eqb b truthy)) σ (Bool.eqb b truthy).
Proof. unfold describes. by destruct b, truthy. Qed.

Lemma extraction_describes e : forall truthy,
  coherent e -> describes (node e truthy) σ (Bool.eqb (evalb ν e) truthy).
Proof.
  induction e as [p name| |p x IH|p o x IH|p o x IHx y IHy| |]; intros truthy Hc;
    try apply describes_unsupported.
  - unfold outcome. cbn [extractSSAPredicateNode evalb].
    destruct (String.eqb name "true"); [by destruct truthy; apply (constant_describes true)|].
    destruct (String.eqb name "false"); [by destruct truthy; apply (constant_describes false)|].
    destruct Hc. by apply identifier_describes.
  - by apply IH.
  - destruct o; try apply describes_unsupported.
    change (node (UnaryExpr p NOT x) truthy) with (node x (negb truthy)). cbn [evalb].
    replace (Bool.eqb (negb (evalb ν x)) truthy) with (Bool.eqb (evalb ν x) (negb truthy))
      by (by destruct (evalb ν x), truthy). by apply IH.
  - assert (isComparison o = true -> coherent (BinaryExpr p o x y) ->
      describes (node (BinaryExpr p o x y) truthy) σ (Bool.eqb (evalb ν (BinaryExpr p o x y)) truthy)) as Hcmp.
    { intros Ho Hxy. replace (evalb ν (BinaryExpr p o x y)) with
        (compare_values o (operand_value ν x) (operand_value ν y)) by (by destruct o).
      pose proof (comparison_describes x y o truthy Ho ltac:(by destruct o)) as H.
      replace (node (BinaryExpr p o x y) truthy) with match comparisonAtom pass values x y o with
        | None => cfgSSAUnsupportedFormula
        | Some atom => mkFormula [[if truthy then atom else
            mkConstraint (subject atom) (negateCFGComparisonOp (op atom)) (value atom)]] false end; [done|].
      destruct o; try done; unfold outcome; cbn [extractSSAPredicateNode isComparison]; by case_match. }
    destruct o; auto; try apply describes_unsupported; destruct Hc as [Hx Hy];
      specialize (IHx truthy Hx); specialize (IHy truthy Hy); rewrite ?node_and, ?node_or; cbn [evalb].
    + destruct truthy.
      * replace (Bool.eqb _ true) with (Bool.eqb (evalb ν x) true && Bool.eqb (evalb ν y) true)
          by (by destruct (evalb ν x), (evalb ν y)). by apply formulaAnd_describes.
      * replace (Bool.eqb _ false) with (Bool.eqb (evalb ν x) false || Bool.eqb (evalb ν y) false)
          by (by destruct (evalb ν x), (evalb ν y)). by apply formulaOr_describes.
    + destruct truthy.
      * replace (Bool.eqb _ true) with (Bool.eqb (evalb ν x) true || Bool.eqb (evalb ν y) true)
          by (by destruct (evalb ν x), (evalb ν y)). by apply formulaOr_describes.
      * replace (Bool.eqb _ false) with (Bool.eqb (evalb ν x) false && Bool.eqb (evalb ν y) false)
          by (by destruct (evalb ν x), (evalb ν y)). by apply formulaAnd_describes.
Qed.
End Extraction.
