(* ===== verification/Feasibility.v ===== *)
(** * Feasibility certificates

    [goplint/cfa_feasibility_ssa_constraints.go]: contradictions between two
    atoms, the search for one contradiction per alternative, the replayable
    certificate built from them, and the checker that must accept a certificate
    before a witness is discharged as infeasible.  On comparisons with integers the
    pairs that contradict are those no rational satisfies; formulas that only three
    atoms make unsatisfiable are not refuted. *)

From S2P Require Export Formula.
From Stdlib Require Import QArith Lqa.
Local Open Scope Z_scope.

Definition cfgSSAConstraintEvidenceVersion : Z := 1.

Record cfgSSAConstraintContradiction := mkContradiction {
  Alternative : Z;
  Left : cfgPredicateConstraint;
  Right : cfgPredicateConstraint;
}.

Record cfgSSAConstraintEvidence := mkEvidence {
  FormatVersion : Z;
  ConstantFalse : bool;
  WitnessPath : list Z;
  Subjects : list string;
  Contradictions : list cfgSSAConstraintContradiction;
}.

Definition noEvidence : cfgSSAConstraintEvidence := mkEvidence 0 false [] [] [].

(** ** Contradictions between two atoms *)

(** [leftValue.Cmp(rightValue)], when both texts parse. *)
Definition compareCFGNumericConstants (left right : string) : option Z :=
  leftValue ← Rat_SetString left;
  rightValue ← Rat_SetString right;
  Some match Qcompare leftValue rightValue with Lt => -1 | Eq => 0 | Gt => 1 end.

Definition cfgEqualityContradicts (v : string) (constraint : cfgPredicateConstraint) : bool :=
  if String.eqb (op constraint) "neq" then String.eqb v (value constraint)
  else
    match compareCFGNumericConstants v (value constraint) with
    | None => false
    | Some comparison =>
        if String.eqb (op constraint) "lt" then 0 <=? comparison
        else if String.eqb (op constraint) "le" then 0 <? comparison
        else if String.eqb (op constraint) "gt" then comparison <=? 0
        else if String.eqb (op constraint) "ge" then comparison <? 0
        else false
    end.

Definition cfgOrderedBounds (lowerCandidate upperCandidate : cfgPredicateConstraint)
    : option (cfgPredicateConstraint * cfgPredicateConstraint) :=
  if (negb (String.eqb (op lowerCandidate) "gt") && negb (String.eqb (op lowerCandidate) "ge"))
     || (negb (String.eqb (op upperCandidate) "lt") && negb (String.eqb (op upperCandidate) "le"))
  then None
  else Some (lowerCandidate, upperCandidate).

Definition cfgOrderedConstraintsContradict (left right : cfgPredicateConstraint) : bool :=
  match
    match cfgOrderedBounds left right with
    | Some bounds => Some bounds
    | None => cfgOrderedBounds right left
    end
  with
  | None => false
  | Some (lower, upper) =>
      match compareCFGNumericConstants (value lower) (value upper) with
      | None => false
      | Some comparison =>
          (0 <? comparison) ||
          ((comparison =? 0) && (String.eqb (op lower) "gt" || String.eqb (op upper) "lt"))
      end
  end.

Definition ssaConstraintsContradict (left right : cfgPredicateConstraint) : bool :=
  if String.eqb (subject left) "" || negb (String.eqb (subject left) (subject right))
     || String.eqb (value left) "" || String.eqb (value right) ""
  then false
  else if String.eqb (op left) "eq" && String.eqb (op right) "eq" then
    negb (String.eqb (value left) (value right))
  else if String.eqb (op left) "eq" then cfgEqualityContradicts (value left) right
  else if String.eqb (op right) "eq" then cfgEqualityContradicts (value right) left
  else if String.eqb (op left) "neq" || String.eqb (op right) "neq" then false
  else cfgOrderedConstraintsContradict left right.

(** ** Searching for a contradiction *)
Fixpoint findRight (deadline : Control) (left : cfgPredicateConstraint)
    (rights : list cfgPredicateConstraint) : polled (option cfgPredicateConstraint * bool) :=
  match rights with
  | [] => mret (None, false)
  | candidate :: rights' =>
      checkpoint deadline None
        (if ssaConstraintsContradict left candidate then mret (Some candidate, false)
         else findRight deadline left rights')
  end.

Fixpoint findSSAConstraintContradictionWithDeadline (constraints : list cfgPredicateConstraint)
    (deadline : Control)
    : polled (option (cfgPredicateConstraint * cfgPredicateConstraint) * bool) :=
  match constraints with
  | [] => mret (None, false)
  | first :: rest =>
      checkpoint deadline None
        (unless_expired (findRight deadline first rest) None (fun found =>
           match found with
           | Some second => mret (Some (first, second), false)
           | None => findSSAConstraintContradictionWithDeadline rest deadline
           end))
  end.

(** ** Subjects *)
Fixpoint alternativeSubjects (deadline : Control) (alternative : list cfgPredicateConstraint)
    (seen : gset string) : polled (gset string * bool) :=
  match alternative with
  | [] => mret (seen, false)
  | constraint :: rest =>
      checkpoint deadline ∅
        (alternativeSubjects deadline rest
           (if String.eqb (subject constraint) "" then seen else {[subject constraint]} ∪ seen))
  end.

Fixpoint formulaSubjects (deadline : Control) (alts : list (list cfgPredicateConstraint))
    (seen : gset string) : polled (gset string * bool) :=
  match alts with
  | [] => mret (seen, false)
  | alternative :: rest =>
      checkpoint deadline ∅
        (unless_expired (alternativeSubjects deadline alternative seen) ∅
           (fun seen' => formulaSubjects deadline rest seen'))
  end.

(** The keys of the Go map, sorted: the result does not depend on the iteration
    order of the map. *)
Definition ssaConstraintSubjectsWithDeadline (formula : cfgSSAConstraintFormula) (deadline : Control)
    : polled (list string * bool) :=
  unless_expired (formulaSubjects deadline (alternatives formula) ∅) []
    (fun seen => finish deadline (slices_Sort (elements seen))).

(** ** Building a certificate: the evidence and whether the formula is unsatisfiable *)
Fixpoint buildContradictions (deadline : Control) (alternativeIndex : Z)
    (alts : list (list cfgPredicateConstraint)) (acc : list cfgSSAConstraintContradiction)
    : polled (option (list cfgSSAConstraintContradiction) * bool) :=
  match alts with
  | [] => mret (Some acc, false)
  | alternative :: rest =>
      checkpoint deadline None
        (unless_expired (findSSAConstraintContradictionWithDeadline alternative deadline) None
           (fun found =>
              match found with
              | None => mret (None, false)
              | Some (first, second) =>
                  buildContradictions deadline (alternativeIndex + 1) rest
                    (acc ++ [mkContradiction alternativeIndex first second])
              end))
  end.

Definition buildSSAConstraintEvidenceWithDeadline (formula : cfgSSAConstraintFormula)
    (deadline : Control) : polled ((cfgSSAConstraintEvidence * bool) * bool) :=
  checkpoint deadline (noEvidence, false)
    match alternatives formula with
    | [] =>
        checkpoint deadline (noEvidence, false)
          (mret ((mkEvidence cfgSSAConstraintEvidenceVersion true [] [] [], true), false))
    | alts =>
        unless_expired (buildContradictions deadline 0 alts []) (noEvidence, false)
          (fun contradictions =>
             match contradictions with
             | None => mret ((noEvidence, false), false)
             | Some found =>
                 checkpoint deadline (noEvidence, false)
                   (mret ((mkEvidence cfgSSAConstraintEvidenceVersion false [] [] found, true), false))
             end)
    end.

(** ** Checking a certificate *)
Fixpoint constraintPresentWithDeadline (constraints : list cfgPredicateConstraint)
    (target : cfgPredicateConstraint) (deadline : Control) : polled bool :=
  match constraints with
  | [] => mret false
  | constraint :: rest =>
      expired ← feasibilityDeadlineReached deadline;
      if expired : bool then mret false
      else if decide (constraint = target) then mret true
      else constraintPresentWithDeadline rest target deadline
  end.

(** A rejected certificate is polled once more to tell expiry from rejection. *)
Definition rejectCertificate (deadline : Control) : polled (bool * bool) :=
  expired ← feasibilityDeadlineReached deadline; mret (false, expired).

Fixpoint checkCertificates (deadline : Control) (alternativeIndex : Z)
    (alts : list (list cfgPredicateConstraint)) (certificates : list cfgSSAConstraintContradiction)
    : polled (bool * bool) :=
  match alts, certificates with
  | alternative :: alts', certificate :: certificates' =>
      checkpoint deadline false
        (if negb (Alternative certificate =? alternativeIndex) then rejectCertificate deadline
         else
           leftPresent ← constraintPresentWithDeadline alternative (Left certificate) deadline;
           if negb leftPresent then rejectCertificate deadline
           else
             rightPresent ← constraintPresentWithDeadline alternative (Right certificate) deadline;
             if negb rightPresent then rejectCertificate deadline
             else if negb (ssaConstraintsContradict (Left certificate) (Right certificate))
             then rejectCertificate deadline
             else checkCertificates deadline (alternativeIndex + 1) alts' certificates')
  | _, _ => checkpoint deadline false (mret (true, false))
  end.

Definition checkSSAConstraintFormulaEvidenceWithDeadline (formula : cfgSSAConstraintFormula)
    (witnessPath : list Z) (evidence : cfgSSAConstraintEvidence) (deadline : Control)
    : polled (bool * bool) :=
  checkpoint deadline false
    (if negb (FormatVersion evidence =? cfgSSAConstraintEvidenceVersion) then mret (false, false)
     else
       unless_expired (ssaConstraintSubjectsWithDeadline formula deadline) false (fun subjects =>
         if negb (bool_decide (WitnessPath evidence = witnessPath))
            || negb (bool_decide (Subjects evidence = subjects))
         then mret (false, false)
         else
           match alternatives formula with
           | [] =>
               expired ← feasibilityDeadlineReached deadline;
               mret ((ConstantFalse evidence && (length (Contradictions evidence) =? 0)%nat)
                       && negb expired, expired)
           | alts =>
               if ConstantFalse evidence
                  || negb (length alts =? length (Contradictions evidence))%nat
               then mret (false, false)
               else checkCertificates deadline 0 alts (Contradictions evidence)
           end)).

(** * Facts *)

(** ** Constant comparison agrees with the meaning of constants *)
Definition quote_char : Ascii.ascii := Ascii.Ascii false true false false false true false false.

Lemma nat_scan_quote fracOk s : nat_scan fracOk (String quote_char s) = None.
Proof. by destruct s, fracOk. Qed.

Lemma Rat_SetString_quote s : Rat_SetString (String quote_char s) = None.
Proof.
  unfold Rat_SetString. cbn [split_slash]. change (char_code quote_char =? 47) with false.
  assert (float_SetString (String quote_char s) = None) as Hf.
  { unfold float_SetString. change (scan_sign (String quote_char s)) with (false, String quote_char s).
    cbv beta iota zeta. by rewrite nat_scan_quote. }
  destruct (split_slash s) as [[a b]|]; [|exact Hf].
  change ((let '(neg, a1) := (false, String quote_char a) in
    '(m, _, _, ra) ← nat_scan false a1; '(d, _, _, rb) ← nat_scan false b;
    match ra, rb with
    | EmptyString, EmptyString => if d =? 0 then None else Some (Qmake (if neg : bool then - m else m) (Z.to_pos d))
    | _, _ => None end) = None).
  cbv beta iota zeta. by rewrite nat_scan_quote.
Qed.

Lemma Rat_SetString_den s v :
  den s = Some v -> Rat_SetString s = match v with VInt z => Some (Qmake z 1) | _ => None end.
Proof.
  intros H%den_inv. destruct v as [z|b|inner|].
  - by apply Rat_SetString_canonical.
  - subst. by destruct b.
  - unfold plain_string in H. destruct s as [|c s]; [done|].
    destruct (Z.eqb_spec (char_code c) 34) as [E|]; [|done].
    rewrite (char_code_inj c quote_char E). apply Rat_SetString_quote.
  - by subst.
Qed.

Lemma compare_den s t a b :
  den s = Some a -> den t = Some b ->
  compareCFGNumericConstants s t =
  match a, b with
  | VInt m, VInt n => Some (match m ?= n with Lt => -1 | Eq => 0 | Gt => 1 end)
  | _, _ => None
  end.
Proof.
  intros Ha Hb. unfold compareCFGNumericConstants.
  rewrite (Rat_SetString_den s a Ha), (Rat_SetString_den t b Hb).
  destruct a as [m| | |], b as [n| | |]; try done. simpl. unfold Qcompare. simpl.
  by rewrite !Z.mul_1_r.
Qed.

(** ** A reported contradiction is one *)
Ltac op_cases :=
  repeat match goal with
  | H : context [String.eqb ?s ?t] |- _ => destruct (String.eqb_spec s t); subst; simpl in H; try done
  | |- context [String.eqb ?s ?t] => destruct (String.eqb_spec s t); subst; simpl; try done
  end.

Lemma equality_contradicts_sound text c a b :
  cfgEqualityContradicts text c = true -> den text = Some a -> den (value c) = Some b ->
  op_holds (op c) a b = false.
Proof.
  unfold cfgEqualityContradicts, op_holds. destruct c as [sc o vc]. cbn [op value]. intros H Ha Hb.
  destruct (String.eqb_spec o "neq") as [->|]; simpl.
  - apply String.eqb_eq in H. subst. rewrite Ha in Hb. simplify_eq. by rewrite bool_decide_true.
  - rewrite (compare_den _ _ _ _ Ha Hb) in H. destruct a as [ma| | |], b as [nb| | |]; try done.
    destruct (Z.compare_spec ma nb); op_cases; simpl; rewrite ?negb_false_iff; lia.
Qed.

Lemma ordered_contradicts_sound l r a b x :
  cfgOrderedConstraintsContradict l r = true ->
  den (value l) = Some a -> den (value r) = Some b ->
  op_holds (op l) x a && op_holds (op r) x b = false.
Proof.
  unfold cfgOrderedConstraintsContradict, cfgOrderedBounds. intros H Ha Hb.
  assert (forall lo hi p q, den (value lo) = Some p -> den (value hi) = Some q ->
    (op lo = "gt" \/ op lo = "ge") -> (op hi = "lt" \/ op hi = "le") ->
    match compareCFGNumericConstants (value lo) (value hi) with
    | None => false
    | Some k => (0 <? k) || ((k =? 0) && (String.eqb (op lo) "gt" || String.eqb (op hi) "lt"))
    end = true ->
    op_holds (op lo) x p && op_holds (op hi) x q = false) as Hcore.
  { intros lo hi p q Hp Hq Hlo Hhi. rewrite (compare_den _ _ _ _ Hp Hq).
    destruct p as [m| | |], q as [n| | |]; try done.
    destruct (Z.compare_spec m n), Hlo as [-> | ->], Hhi as [-> | ->]; simpl; try done; intros _;
      unfold op_holds; simpl; destruct x as [z| | |]; try done; simpl;
      apply andb_false_iff; rewrite ?negb_false_iff; lia. }
  assert (forall o1 o2 s1 s2, negb (String.eqb o1 s1) && negb (String.eqb o1 s2)
    || negb (String.eqb o2 "lt") && negb (String.eqb o2 "le") = false ->
    (o1 = s1 \/ o1 = s2) /\ (o2 = "lt" \/ o2 = "le")) as Hops.
  { intros o1 o2 s1 s2. 
    destruct (String.eqb_spec o1 s1), (String.eqb_spec o1 s2), (String.eqb_spec o2 "lt"),
      (String.eqb_spec o2 "le"); simpl; try done; auto. }
  destruct (_ || _) eqn:E1.
  - destruct (negb (String.eqb (op r) "gt") && _ || _) eqn:E2; [done|].
    destruct (Hops _ _ _ _ E2). rewrite andb_comm. by apply Hcore.
  - destruct (Hops _ _ _ _ E1). by apply Hcore.
Qed.

Lemma contradiction_refutes σ l r :
  ssaConstraintsContradict l r = true ->
  is_Some (den (value l)) -> is_Some (den (value r)) ->
  atom_holds σ l && atom_holds σ r = false.
Proof.
  unfold ssaConstraintsContradict, atom_holds. intros H [a Ha] [b Hb].
  destruct (_ || _ || _ || _) eqn:E0; [done|]. split_bools.
  repeat match goal with E : String.eqb (subject l) (subject r) = true |- _ =>
    apply String.eqb_eq in E; rewrite <- E; clear E end.
  rewrite Ha, Hb. generalize (σ (subject l)) as x; intros x.
  destruct (String.eqb_spec (op l) "eq") as [El|El], (String.eqb_spec (op r) "eq") as [Er|Er];
    simpl in H.
  - rewrite El, Er. unfold op_holds. simpl. apply negb_true_iff, String.eqb_neq in H.
    rewrite <- bool_decide_and. apply bool_decide_eq_false. intros [-> ->]. apply H. by eapply den_inj.
  - rewrite El. unfold op_holds at 1. simpl. destruct (decide (x = a)) as [->|].
    + rewrite (equality_contradicts_sound _ _ _ _ H Ha Hb). by rewrite andb_false_r.
    + by rewrite bool_decide_false.
  - rewrite Er. unfold op_holds at 2. simpl. destruct (decide (x = b)) as [->|].
    + by rewrite (equality_contradicts_sound _ _ _ _ H Hb Ha).
    + by rewrite (bool_decide_false (x = b)), andb_false_r.
  - case_match; [done|]. by apply ordered_contradicts_sound.
Qed.

(** ** The search finds a contradiction exactly when there is one *)
Definition contradictory (alternative : list cfgPredicateConstraint) : Prop :=
  exists i j l r, (i < j)%nat /\ alternative !! i = Some l /\ alternative !! j = Some r /\
    ssaConstraintsContradict l r = true.

Lemma findRight_transparent l rs : transparent (fun c => findRight c l rs).
Proof.
  induction rs as [|r rs IH]; simpl; [apply transparent_ret|].
  apply transparent_checkpoint. case_match; [apply transparent_ret|done].
Qed.

Lemma findContradiction_transparent alternative :
  transparent (findSSAConstraintContradictionWithDeadline alternative).
Proof.
  induction alternative as [|l rest IH]; simpl; [apply transparent_ret|].
  apply transparent_checkpoint, (transparent_unless (fun c => findRight c l rest));
    [apply findRight_transparent|].
  intros [r|]; [apply transparent_ret|apply IH].
Qed.

Abbreviation contradiction_of alternative :=
  (outcome (findSSAConstraintContradictionWithDeadline alternative)).

Lemma findRight_outcome l rs :
  outcome (fun c => findRight c l rs) =
  match rs with
  | [] => None
  | r :: rs' => if ssaConstraintsContradict l r then Some r else outcome (fun c => findRight c l rs')
  end.
Proof.
  destruct rs as [|r rs]; [done|].
  unfold outcome, checkpoint, mbind, polled_bind. simpl. by case_match.
Qed.

Lemma findRight_spec l rs :
  match outcome (fun c => findRight c l rs) with
  | Some r => r ∈ rs /\ ssaConstraintsContradict l r = true
  | None => forall r, r ∈ rs -> ssaConstraintsContradict l r = false
  end.
Proof.
  induction rs as [|r rs IH]; rewrite findRight_outcome; [by intros r ?%elem_of_nil|].
  destruct (ssaConstraintsContradict l r) eqn:E; [split; [left|done]|].
  destruct (outcome _) as [r'|].
  - destruct IH. split; [by right|done].
  - intros r' [->|?]%elem_of_cons; auto.
Qed.

Lemma contradiction_of_cons l rest :
  contradiction_of (l :: rest) =
  match outcome (fun c => findRight c l rest) with
  | Some r => Some (l, r)
  | None => contradiction_of rest
  end.
Proof.
  transitivity (outcome (fun c => unless_expired (findRight c l rest) None (fun found =>
    match found with
    | Some r => mret (Some (l, r), false)
    | None => findSSAConstraintContradictionWithDeadline rest c
    end))); [done|].
  rewrite (outcome_unless (fun c => findRight c l rest) None (fun found c => match found with
    | Some r => mret (Some (l, r), false)
    | None => findSSAConstraintContradictionWithDeadline rest c
    end)) by apply findRight_transparent.
  by case_match.
Qed.

Lemma contradiction_of_spec alternative :
  match contradiction_of alternative with
  | Some (l, r) => contradictory alternative /\ l ∈ alternative /\ r ∈ alternative /\
      ssaConstraintsContradict l r = true
  | None => ~ contradictory alternative
  end.
Proof.
  induction alternative as [|x rest IH]; [by intros (i & j & l & r & _ & [=] & _)|].
  rewrite contradiction_of_cons. pose proof (findRight_spec x rest) as Hx.
  destruct (outcome (fun c => findRight c x rest)) as [r|].
  - destruct Hx as [Hr Hc]. split_and!; [|left|by right|done].
    destruct (list_elem_of_lookup_1 _ _ Hr) as [j Hj]. exists 0%nat, (S j), x, r. split_and!; [lia|done..].
  - destruct (contradiction_of rest) as [[l r]|].
    + destruct IH as (Hc & Hl & Hr & H). split_and!; [|by right|by right|done].
      destruct Hc as (i & j & l' & r' & ? & ? & ? & ?).
      exists (S i), (S j), l', r'. split_and!; [lia|done..].
    + intros (i & j & l & r & Hij & Hi & Hj & H). destruct i as [|i], j as [|j]; try lia; simpl in *.
      * simplify_eq. apply list_elem_of_lookup_2 in Hj. rewrite Hx in H by done. done.
      * apply IH. exists i, j, l, r. split_and!; [lia|done..].
Qed.

(** ** The certificate *)
Lemma alternativeSubjects_transparent alternative : forall seen,
  transparent (fun c => alternativeSubjects c alternative seen).
Proof. induction alternative; intros; simpl; auto with goplint. Qed.

Lemma formulaSubjects_transparent alts : forall seen,
  transparent (fun c => formulaSubjects c alts seen).
Proof.
  induction alts as [|a alts IH]; intros seen; simpl; auto with goplint.
  apply transparent_checkpoint, (transparent_unless (fun c => alternativeSubjects c a seen));
    auto using alternativeSubjects_transparent.
Qed.

Lemma subjects_transparent f : transparent (ssaConstraintSubjectsWithDeadline f).
Proof.
  apply (transparent_unless (fun c => formulaSubjects c _ _));
    auto using formulaSubjects_transparent with goplint.
Qed.

Lemma buildContradictions_transparent alts : forall i acc,
  transparent (fun c => buildContradictions c i alts acc).
Proof.
  induction alts as [|a alts IH]; intros i acc; simpl; [apply transparent_ret|].
  apply transparent_checkpoint, (transparent_unless (findSSAConstraintContradictionWithDeadline a));
    [apply findContradiction_transparent|].
  intros [[l r]|]; [apply IH|apply transparent_ret].
Qed.

Lemma buildEvidence_transparent f : transparent (buildSSAConstraintEvidenceWithDeadline f).
Proof.
  unfold buildSSAConstraintEvidenceWithDeadline. apply transparent_checkpoint.
  destruct (alternatives f) as [|a alts]; [auto with goplint|].
  apply (transparent_unless (fun c => buildContradictions c _ _ _));
    [apply buildContradictions_transparent|].
  intros [found|]; auto with goplint.
Qed.
#[export] Hint Resolve subjects_transparent buildEvidence_transparent : goplint.

Abbreviation subjects_of f := (outcome (ssaConstraintSubjectsWithDeadline f)).
Abbreviation evidence_of f := (outcome (buildSSAConstraintEvidenceWithDeadline f)).
Abbreviation contradictions_of i alts acc := (outcome (fun c => buildContradictions c i alts acc)).

Lemma contradictions_of_cons i a alts acc :
  contradictions_of i (a :: alts) acc =
  match contradiction_of a with
  | None => None
  | Some (l, r) => contradictions_of (i + 1) alts (acc ++ [mkContradiction i l r])
  end.
Proof.
  etransitivity; [apply (outcome_unless (findSSAConstraintContradictionWithDeadline a) None
    (fun found c => match found with
       | None => mret (None, false)
       | Some (l, r) => buildContradictions c (i + 1) alts (acc ++ [mkContradiction i l r])
       end)); apply findContradiction_transparent|].
  by destruct (contradiction_of a) as [[l r]|].
Qed.

(** A certificate entry that proves its alternative contradictory. *)
Definition certifies (i : Z) (alternative : list cfgPredicateConstraint)
    (c : cfgSSAConstraintContradiction) : Prop :=
  Alternative c = i /\ Left c ∈ alternative /\ Right c ∈ alternative /\
  ssaConstraintsContradict (Left c) (Right c) = true.

Fixpoint certified (i : Z) (alts : list (list cfgPredicateConstraint))
    (cs : list cfgSSAConstraintContradiction) : Prop :=
  match alts, cs with
  | [], [] => True
  | a :: alts', c :: cs' => certifies i a c /\ certified (i + 1) alts' cs'
  | _, _ => False
  end.

Lemma certified_length i alts cs : certified i alts cs -> length alts = length cs.
Proof.
  revert i cs. induction alts as [|a alts IH]; intros i [|c cs]; simpl; try done.
  intros [_ H]. f_equal. eauto.
Qed.

Lemma contradictions_of_spec alts : forall i acc,
  match contradictions_of i alts acc with
  | Some cs => exists found, cs = acc ++ found /\ certified i alts found /\ Forall contradictory alts
  | None => ~ Forall contradictory alts
  end.
Proof.
  induction alts as [|a alts IH]; intros i acc.
  - exists []. by rewrite app_nil_r.
  - rewrite contradictions_of_cons. pose proof (contradiction_of_spec a) as Ha.
    destruct (contradiction_of a) as [[l r]|]; [|by intros [? _]%Forall_cons].
    destruct Ha as (Hc & Hl & Hr & Hlr). specialize (IH (i + 1) (acc ++ [mkContradiction i l r])).
    destruct (contradictions_of _ _ _) as [cs|]; [|by intros [_ ?]%Forall_cons].
    destruct IH as (found & -> & Hf & Hall). exists (mkContradiction i l r :: found).
    rewrite <- app_assoc. split_and!; [done| |by constructor]. split; [by split_and!|done].
Qed.

(** The builder decides whether every alternative is contradictory. *)
Lemma evidence_of_spec f :
  let '(evidence, unsat) := evidence_of f in
  if unsat : bool
  then Forall contradictory (alternatives f) /\ FormatVersion evidence = cfgSSAConstraintEvidenceVersion /\
    ConstantFalse evidence = (length (alternatives f) =? 0)%nat /\
    certified 0 (alternatives f) (Contradictions evidence)
  else ~ Forall contradictory (alternatives f).
Proof.
  unfold buildSSAConstraintEvidenceWithDeadline. 
  destruct (alternatives f) as [|a alts]; [by cbn|].
  change (outcome _) with (outcome (fun c => unless_expired (buildContradictions c 0 (a :: alts) [])
    (noEvidence, false) (fun contradictions =>
             match contradictions with
             | None => mret ((noEvidence, false), false)
             | Some found =>
                 checkpoint c (noEvidence, false)
                   (mret ((mkEvidence cfgSSAConstraintEvidenceVersion false [] [] found, true), false))
             end))).
  rewrite (outcome_unless (fun c => buildContradictions c 0 (a :: alts) []) (noEvidence, false)
    (fun contradictions c => match contradictions with
             | None => mret ((noEvidence, false), false)
             | Some found =>
                 checkpoint c (noEvidence, false)
                   (mret ((mkEvidence cfgSSAConstraintEvidenceVersion false [] [] found, true), false))
             end)) by apply buildContradictions_transparent.
  pose proof (contradictions_of_spec (a :: alts) 0 []) as H.
  destruct (contradictions_of 0 (a :: alts) []) as [cs|]; cbn.
  - destruct H as (found & -> & Hf & Hall). by split_and!.
  - done.
Qed.

(** ** The checker accepts exactly certified evidence *)
Lemma present_sound cs t control clk clk' :
  constraintPresentWithDeadline cs t control clk = (true, clk') -> t ∈ cs.
Proof.
  revert clk. induction cs as [|c cs IH]; intros clk; simpl; [done|].
  unfold mbind, polled_bind. destruct (feasibilityDeadlineReached control clk) as [[] clk1]; [done|].
  case_decide; [by subst; left|]. intros Hr. right. eauto.
Qed.

Lemma present_complete cs t clk : t ∈ cs -> constraintPresentWithDeadline cs t None clk = (true, clk).
Proof.
  induction 1; simpl; unfold mbind, polled_bind; simpl; [by rewrite decide_True|].
  by case_decide.
Qed.

Lemma reject_not_accepted control clk e clk' :
  rejectCertificate control clk <> ((true, e), clk').
Proof. unfold rejectCertificate, mbind, polled_bind. by case_match. Qed.

Lemma checkpoint_accepted control (k : polled (bool * bool)) clk e clk' :
  checkpoint control false k clk = ((true, e), clk') -> exists clk1, k clk1 = ((true, e), clk').
Proof.
  unfold checkpoint, mbind, polled_bind. destruct (feasibilityDeadlineReached control clk) as [[] clk1];
    [done|]. eauto.
Qed.

Lemma checkCertificates_sound alts : forall i cs control clk e clk',
  length alts = length cs ->
  checkCertificates control i alts cs clk = ((true, e), clk') -> certified i alts cs.
Proof.
  induction alts as [|a alts IH]; intros i [|c cs] control clk e clk'; try done; cbn [checkCertificates].
  intros [= Hlen] [clk1 H]%checkpoint_accepted. unfold mbind, polled_bind in H.
  destruct (negb (Alternative c =? i)) eqn:Ei; [by apply reject_not_accepted in H|].
  destruct (constraintPresentWithDeadline a (Left c) control clk1) as [lp clk2] eqn:El.
  destruct (negb lp) eqn:Elp; [by apply reject_not_accepted in H|].
  destruct (constraintPresentWithDeadline a (Right c) control clk2) as [rp clk3] eqn:Er.
  destruct (negb rp) eqn:Erp; [by apply reject_not_accepted in H|].
  destruct (negb (ssaConstraintsContradict (Left c) (Right c))) eqn:Ec;
    [by apply reject_not_accepted in H|].
  split_bools; subst. split; [|by eapply IH].
  split_and!; eauto using present_sound.
Qed.

Lemma checkCertificates_complete alts : forall i cs clk,
  certified i alts cs -> checkCertificates None i alts cs clk = ((true, false), clk).
Proof.
  induction alts as [|a alts IH]; intros i [|c cs] clk; try done; cbn [checkCertificates].
  intros [(Hi & Hl & Hr & Hc) H].
  unfold checkpoint, mbind, polled_bind. simpl. rewrite Hi, Z.eqb_refl. simpl.
  rewrite present_complete by done. simpl. rewrite present_complete by done. simpl. rewrite Hc. by apply IH.
Qed.

Definition canonical_formula (f : cfgSSAConstraintFormula) : Prop :=
  Forall (Forall (fun c => is_Some (den (value c)))) (alternatives f).

Lemma certifies_refutes σ i a c :
  certifies i a c -> Forall (fun x => is_Some (den (value x))) a -> alternative_holds σ a = false.
Proof.
  intros (_ & Hl & Hr & Hc) Hcan. apply not_true_iff_false. intros Ha.
  unfold alternative_holds in Ha. rewrite forallb_forall in Ha. rewrite Forall_forall in Hcan.
  pose proof (contradiction_refutes σ _ _ Hc (Hcan _ Hl) (Hcan _ Hr)) as H.
  by rewrite !Ha in H by (by apply list_elem_of_In).
Qed.

Lemma certified_refutes σ alts : forall i cs,
  certified i alts cs -> Forall (Forall (fun x => is_Some (den (value x)))) alts ->
  existsb (alternative_holds σ) alts = false.
Proof.
  induction alts as [|a alts IH]; intros i [|c cs]; try done; simpl.
  intros [Hcert Hrest] [Ha Hall]%Forall_cons. rewrite (certifies_refutes σ i a c) by done. by eapply IH.
Qed.

Lemma check_accepted f path ev control clk e clk' :
  checkSSAConstraintFormulaEvidenceWithDeadline f path ev control clk = ((true, e), clk') ->
  WitnessPath ev = path /\ FormatVersion ev = cfgSSAConstraintEvidenceVersion /\
  (alternatives f = [] \/ certified 0 (alternatives f) (Contradictions ev)).
Proof.
  unfold checkSSAConstraintFormulaEvidenceWithDeadline. intros [clk1 H]%checkpoint_accepted.
  destruct (negb _) eqn:Ev; [done|]. unfold unless_expired, mbind, polled_bind in H.
  destruct (ssaConstraintSubjectsWithDeadline f control clk1) as [[subs exp] clk2].
  destruct exp; [done|]. destruct (_ || _) eqn:Eb; [done|]. split_bools.
  split_and!; [done|done|]. destruct (alternatives f) as [|a alts] eqn:Ea; [by left|right].
  destruct (_ || _) eqn:El in H; [done|]. split_bools.
  eapply checkCertificates_sound; [by apply Nat.eqb_eq|done].
Qed.

(** C8. An accepted certificate is a proof: whatever the control polled, a
    formula whose certificate the checker accepts holds under no values of the
    SSA subjects, provided its constants are written canonically. *)
Theorem accepted_certificate_refutes f path ev control clk e clk' σ :
  checkSSAConstraintFormulaEvidenceWithDeadline f path ev control clk = ((true, e), clk') ->
  canonical_formula f ->
  WitnessPath ev = path /\ formula_holds σ f = false.
Proof.
  intros (Hp & _ & Hcert)%check_accepted Hcan. split; [done|]. unfold formula_holds.
  destruct Hcert as [Hnil|Hcs]; [by rewrite Hnil|]. by eapply certified_refutes.
Qed.

Definition example_formula : cfgSSAConstraintFormula :=
  mkFormula [[mkConstraint "f|v" "eq" "3"; mkConstraint "f|v" "gt" "7"];
             [mkConstraint "f|w" "le" "-2"; mkConstraint "f|w" "ge" "10"]] false.

Definition example_evidence : cfgSSAConstraintEvidence :=
  mkEvidence 1 false [4; 5] ["f|v"; "f|w"]
    [mkContradiction 0 (mkConstraint "f|v" "eq" "3") (mkConstraint "f|v" "gt" "7");
     mkContradiction 1 (mkConstraint "f|w" "le" "-2") (mkConstraint "f|w" "ge" "10")].

Lemma accepted_certificate_refutes_witness :
  checkSSAConstraintFormulaEvidenceWithDeadline example_formula [4; 5] example_evidence
    (Some (fun n => (20 <=? n)%nat)) 0%nat = ((true, false), 17%nat) /\
  WitnessPath example_evidence = [4; 5] /\ formula_holds (fun _ => VInt 3) example_formula = false.
Proof.
  assert (checkSSAConstraintFormulaEvidenceWithDeadline example_formula [4; 5] example_evidence
    (Some (fun n => (20 <=? n)%nat)) 0%nat = ((true, false), 17%nat)) as H by (vm_compute; reflexivity).
  split; [exact H|]. apply (accepted_certificate_refutes _ _ _ _ _ _ _ _ H).
  repeat constructor; cbn [value]; vm_compute; eexists; reflexivity.
Defined.

(** ** What two atoms exclude *)

(** A rational value under a comparison with an integer. *)
Definition rational_op (operator : string) (q : Q) (n : Z) : Prop :=
  if String.eqb operator "eq" then (q == inject_Z n)%Q
  else if String.eqb operator "neq" then ~ (q == inject_Z n)%Q
  else if String.eqb operator "lt" then (q < inject_Z n)%Q
  else if String.eqb operator "le" then (q <= inject_Z n)%Q
  else if String.eqb operator "gt" then (inject_Z n < q)%Q
  else if String.eqb operator "ge" then (inject_Z n <= q)%Q
  else True.

Definition rational_holds (q : Q) (c : cfgPredicateConstraint) : Prop :=
  match den (value c) with Some (VInt n) => rational_op (op c) q n | _ => True end.

(** Two atoms on one subject that no rational value satisfies together. *)
Definition exclusive (l r : cfgPredicateConstraint) : Prop :=
  subject l = subject r /\ forall q, ~ (rational_holds q l /\ rational_holds q r).

(** An atom that compares a subject with an integer. *)
Definition numeric_atom (c : cfgPredicateConstraint) : Prop :=
  subject c <> "" /\ op c ∈ ["eq"; "neq"; "lt"; "le"; "gt"; "ge"] /\ exists n, den (value c) = Some (VInt n).

Definition numeric_formula (f : cfgSSAConstraintFormula) : Prop :=
  Forall (Forall numeric_atom) (alternatives f).

(** Comparisons of a rational with two integers: none meets both, or one around the
    integers does. *)
Ltac no_rational :=
  intros q [? ?]; first [lra | match goal with H : ~ Qeq _ _ |- _ => apply H; lra end].
Ltac rational := split; first [lra | intros ?; lra].
Ltac some_rational H a b :=
  first [apply (H a); rational | apply (H b); rational
        |apply (H (a + 1)%Q); rational | apply (H (b + 1)%Q); rational
        |apply (H (a - 1)%Q); rational | apply (H (b - 1)%Q); rational
        |apply (H ((a + b) * (1 # 2))%Q); rational].

Lemma contradict_rational l r :
  numeric_atom l -> numeric_atom r -> subject l = subject r ->
  ssaConstraintsContradict l r = true <-> exclusive l r.
Proof.
  intros (Hs & Hol & m & Hm) (_ & Hor & n & Hn) Es. unfold exclusive, rational_holds. rewrite Hm, Hn.
  assert (forall c k, den (value c) = Some (VInt k) -> String.eqb (value c) "" = false) as Hne
    by (intros c k H; apply String.eqb_neq; intros E; by rewrite E in H).
  unfold ssaConstraintsContradict, cfgEqualityContradicts, cfgOrderedConstraintsContradict, cfgOrderedBounds.
  rewrite <- Es, String.eqb_refl, (Hne _ _ Hm), (Hne _ _ Hn), (proj2 (String.eqb_neq _ _) Hs). cbn [negb orb].
  assert (String.eqb (value l) (value r) = bool_decide (m = n)) as E1.
  { destruct (String.eqb_spec (value l) (value r)) as [E|E]; symmetry.
    - apply bool_decide_eq_true. rewrite E in Hm. congruence.
    - apply bool_decide_eq_false. intros ->. apply E. by eapply den_inj. }
  pose proof (compare_den _ _ _ _ Hm Hn) as C1. pose proof (compare_den _ _ _ _ Hn Hm) as C2.
  cbv beta iota in C1, C2. rewrite (Z.compare_antisym m n) in C2. rewrite (String.eqb_sym (value r)), E1. clear E1 Hne Hs Hm Hn. unfold rational_op. set (a := inject_Z m). set (b := inject_Z n).
  assert (match m ?= n with Lt => Qlt a b | Eq => Qeq a b | Gt => Qlt b a end) as Hab.
  { destruct (Z.compare_spec m n) as [->|H|H]; [apply Qeq_refl|unfold a, b; by rewrite <- Zlt_Qlt..]. }
  assert (bool_decide (m = n) = match m ?= n with Eq => true | _ => false end) as ->.
  { destruct (Z.compare_spec m n); [by apply bool_decide_eq_true|apply bool_decide_eq_false; lia..]. }
  destruct l as [sl ol vl], r as [sr o2 vr]; cbn [op subject value] in *.
  rewrite !elem_of_cons, elem_of_nil in Hol, Hor. clearbody a b.

  destruct (m ?= n); cbn [CompOpp] in *;
  destruct Hol as [->|[->|[->|[->|[->|[->|[]]]]]]], Hor as [->|[->|[->|[->|[->|[->|[]]]]]]]; cbn; rewrite ?C1, ?C2; cbn;
    (split; [intros H; first [discriminate H | split; [reflexivity|no_rational]]
            |intros [_ H]; first [reflexivity | exfalso; some_rational H a b]]).
Qed.

Lemma numeric_satisfiable c : numeric_atom c -> ~ exclusive c c.
Proof.
  intros Hc Hx. apply (contradict_rational c c Hc Hc eq_refl) in Hx. destruct Hc as (_ & Ho & _).
  destruct c as [s o v]. cbn [op] in Ho. unfold ssaConstraintsContradict, cfgOrderedConstraintsContradict in Hx.
  rewrite !elem_of_cons, elem_of_nil in Ho. cbn [op value subject] in Hx. rewrite ?String.eqb_refl in Hx.
  destruct Ho as [->|[->|[->|[->|[->|[->|[]]]]]]]; cbn in Hx; by destruct (_ || _ || _ || _).
Qed.

Lemma exclusive_sym l r : exclusive l r -> exclusive r l.
Proof. intros [E H]. split; [done|]. intros q [H1 H2]. by apply (H q). Qed.

(** On comparisons with integers the search finds the alternatives with two atoms that
    exclude each other. *)
Lemma contradictory_exclusive alternative :
  Forall numeric_atom alternative ->
  contradictory alternative <-> exists l r, l ∈ alternative /\ r ∈ alternative /\ exclusive l r.
Proof.
  rewrite Forall_forall. intros Hn. split.
  - intros (i & j & l & r & _ & Hl%list_elem_of_lookup_2 & Hr%list_elem_of_lookup_2 & Hc).
    exists l, r. split_and!; [done..|]. apply contradict_rational; [by apply Hn..| |done].
    unfold ssaConstraintsContradict in Hc. destruct (_ || _ || _ || _) eqn:E; [done|]. split_bools.
    by apply String.eqb_eq.
  - intros (l & r & Hl & Hr & Hx). pose proof (Hn _ Hl) as Nl. pose proof (Hn _ Hr) as Nr.
    apply list_elem_of_lookup in Hl as [i Hi], Hr as [j Hj].
    destruct (lt_eq_lt_dec i j) as [[Hij|<-]|Hij].
    + exists i, j, l, r. split_and!; [done..|]. by apply contradict_rational; [..|apply Hx|].
    + rewrite Hi in Hj. injection Hj as <-. by apply numeric_satisfiable in Hx.
    + apply exclusive_sym in Hx. exists j, i, r, l. split_and!; [done..|].
      by apply contradict_rational; [..|apply Hx|].
Qed.

(** A joint contradiction of three atoms is not looked for: no value satisfies this
    formula, no two of its atoms exclude each other, and it is reported satisfiable. *)
Definition joint_formula : cfgSSAConstraintFormula :=
  mkFormula [[mkConstraint "f|v" "ge" "1"; mkConstraint "f|v" "le" "1"; mkConstraint "f|v" "neq" "1"]] false.

Lemma joint_contradiction_missed :
  (forall σ, formula_holds σ joint_formula = false) /\ unsupported joint_formula = false /\
  snd (evidence_of joint_formula) = false.
Proof.
  split_and!; [|done|by vm_compute]. intros σ. unfold formula_holds, alternative_holds, atom_holds. cbn [existsb forallb joint_formula alternatives value op subject].
  change (den "1") with (Some (VInt 1)). cbv beta iota. unfold op_holds. cbn.
  destruct (σ "f|v") as [z| | |]; try done. cbn.
  destruct (Z.leb_spec 1 z), (Z.leb_spec z 1); cbn; try done.
  assert (z = 1) as -> by lia. done.
Qed.

(** A certificate the builder made, completed with path and subjects, is accepted. *)
Lemma built_accepted f path ev clk :
  FormatVersion ev = cfgSSAConstraintEvidenceVersion ->
  ConstantFalse ev = (length (alternatives f) =? 0)%nat ->
  certified 0 (alternatives f) (Contradictions ev) ->
  checkSSAConstraintFormulaEvidenceWithDeadline f path
    (mkEvidence (FormatVersion ev) (ConstantFalse ev) path (subjects_of f) (Contradictions ev)) None clk =
  ((true, false), clk).
Proof.
  intros Hv Hcf Hcs. unfold checkSSAConstraintFormulaEvidenceWithDeadline, checkpoint, mbind, polled_bind. cbn.
  rewrite Hv. cbn. unfold unless_expired, mbind, polled_bind.
  rewrite (transparent_outcome (ssaConstraintSubjectsWithDeadline f)) by auto with goplint.
  rewrite !bool_decide_eq_true_2 by done. cbn. rewrite Hcf.
  destruct (alternatives f) as [|a alts] eqn:Ea.
  - destruct (Contradictions ev); done.
  - cbn [length Nat.eqb]. pose proof (certified_length _ _ _ Hcs) as Hl. cbn [length] in Hl.
    rewrite <- Hl, Nat.eqb_refl. cbn [orb negb]. exact (checkCertificates_complete (a :: alts) 0 _ clk Hcs).
Qed.

(** C37. What the builder decides: it reports a formula unsatisfiable exactly when every
    alternative has a pair of atoms that contradict by its rules.  When the atoms compare
    with integers, these are the pairs on one subject that no rational value satisfies
    together.  A reported formula whose constants are canonical holds under no valuation,
    and its certificate, completed with witness path and subjects as the backend does,
    is accepted.  (A contradiction of three atoms is not looked for, see
    [joint_contradiction_missed].) *)
Theorem builder_decides_exclusion f path :
  let '(evidence, unsat) := evidence_of f in
  (unsat = true <-> Forall contradictory (alternatives f)) /\
  (numeric_formula f ->
     unsat = true <-> Forall (fun a => exists l r, l ∈ a /\ r ∈ a /\ exclusive l r) (alternatives f)) /\
  (unsat = true ->
     (canonical_formula f -> forall σ, formula_holds σ f = false) /\
     forall clk, checkSSAConstraintFormulaEvidenceWithDeadline f path
       (mkEvidence (FormatVersion evidence) (ConstantFalse evidence) path (subjects_of f)
          (Contradictions evidence)) None clk = ((true, false), clk)).
Proof.
  pose proof (evidence_of_spec f) as H. destruct (evidence_of f) as [ev unsat].
  assert (unsat = true <-> Forall contradictory (alternatives f)) as Hu
    by (destruct unsat; [by split; [intros _; apply H|]|by split]).
  split; [done|]. split.
  { intros Hn. rewrite Hu. unfold numeric_formula in Hn. rewrite Forall_forall in Hn.
    rewrite !Forall_forall. split; intros Hx a Ha; by apply (contradictory_exclusive a (Hn a Ha)), Hx. }
  intros ->. destruct H as (Hall & Hv & Hcf & Hcs). split.
  { intros Hcan σ. by eapply certified_refutes. }
  intros clk. by apply built_accepted.
Qed.

Lemma value_key_nonempty v : String.eqb (cfgSSAValueKey v) "" = false.
Proof. unfold cfgSSAValueKey. by destruct (value_Parent v) as [[]|]. Qed.

(** Equality of constants is textual, so two spellings of one number refute each
    other: the conditions [x == 0x10] and [x == 16] on an integer yield two
    equalities whose constants compare as equal numbers, and yet their conjunction
    is reported unsatisfiable, although nothing in it was approximated. *)
Theorem equal_spellings_refuted pass index p q x v :
  cfgSSAValueForExpr pass index x = Some v -> value_Type v = Some (UBasic KInt) ->
  let equals text p := extractSSAPredicateFormula pass index (BinaryExpr p EQL x (BasicLit (p + 1) text)) true in
  let f := formulaAnd (equals "0x10" p) (equals "16" q) in
  compareCFGNumericConstants "0x10" "16" = Some 0 /\ unsupported f = false /\ snd (evidence_of f) = true.
Proof.
  intros Hv Ht equals f. split; [by vm_compute|].
  assert (forall text p, cfgSSAComparisonSupported (Some (UBasic KInt)) text = true -> equals text p =
            mkFormula [[mkConstraint (cfgSSAValueKey v) "eq" text]] false) as He.
  { intros text p' Hs. unfold equals, extractSSAPredicateFormula, extractSSAPredicateFormulaWithControl,
      checkpoint, mbind, polled_bind. cbn -[comparisonAtom].
    unfold comparisonAtom, extractSSAComparisonAtom. rewrite Hv. cbn -[cfgSSAComparisonSupported].
    by rewrite Ht, Hs. }
  unfold f. rewrite !He, formulaAnd_eq by done. split; [done|]. cbn -[cfgSSAValueKey].
  match goal with |- snd (evidence_of ?g) = true => pose proof (evidence_of_spec g) as H; destruct (evidence_of g) as [ev unsat] end.
  destruct unsat; [done|]. exfalso. apply H. apply Forall_singleton.
  exists 0%nat, 1%nat, (mkConstraint (cfgSSAValueKey v) "eq" "0x10"), (mkConstraint (cfgSSAValueKey v) "eq" "16").
  do 3 (split; [first [done|lia]|]). unfold ssaConstraintsContradict. cbn -[cfgSSAValueKey String.eqb].
  rewrite String.eqb_refl. cbn -[cfgSSAValueKey]. rewrite value_key_nonempty. done.
Qed.

Definition hex_value : ssaValue := mkSSAValue (Some "pkg.f") "*ssa.Parameter" "x" (Some (UBasic KInt)) false.

Lemma equal_spellings_refuted_witness :
  let index := mkValueIndex {[1 := hex_value]} ∅ in
  cfgSSAValueForExpr None index (Ident 1 "x") = Some hex_value /\
  compareCFGNumericConstants "0x10" "16" = Some 0.
Proof.
  split; [by vm_compute|].
  apply (equal_spellings_refuted None (mkValueIndex {[1 := hex_value]} ∅) 10 20 (Ident 1 "x") hex_value);
    by vm_compute.
Defined.
