(* ===== verification/CFG.v ===== *)
(** * Control-flow graphs

    The blocks of [golang.org/x/tools/go/cfg] the analyzer traverses, the
    breadth-first reachability of [goplint/cfa_traversal.go], the adaptive state
    budget of [goplint/cfa_budget.go] and the dominator computation of
    [goplint/constructor_deferred.go]. *)

From S2P Require Export Formula.
Local Open Scope Z_scope.

(** A block: its index, its successor pointers (nil, or the block with an index)
    and its nodes, of which only expressions matter.  A graph is the slice of its
    blocks, in which pointers may be nil. *)
Record Block := mkBlock {
  Index : Z;
  Succs : list (option Z);
  Nodes : list (option Expr);
}.

Abbreviation Blocks := (list (option Block)).

(** The non-nil blocks, and the block a pointer refers to. *)
Definition present (cfg : Blocks) : list Block := omap id cfg.

Definition deref (cfg : Blocks) (i : Z) : option Block :=
  head (filter (fun b => Index b = i) (present cfg)).

Definition edge (cfg : Blocks) (i j : Z) : Prop :=
  exists b, deref cfg i = Some b /\ Some j ∈ Succs b.

(** Indices identify blocks and every non-nil successor is a block of the graph. *)
Definition wf_cfg (cfg : Blocks) : Prop :=
  NoDup (Index <$> present cfg) /\
  forall b j, b ∈ present cfg -> Some j ∈ Succs b -> is_Some (deref cfg j).

(** ** Reachable blocks (cfa_traversal.go) *)
Section Reachable.
Context (cfg : Blocks).

Fixpoint enqueueStarts (starts : list (option Block)) (queue : list Block) (seen : gmap Z Block)
    : list Block * gmap Z Block :=
  match starts with
  | [] => (queue, seen)
  | None :: rest => enqueueStarts rest queue seen
  | Some block :: rest =>
      match seen !! Index block with
      | Some _ => enqueueStarts rest queue seen
      | None => enqueueStarts rest (queue ++ [block]) (<[Index block := block]> seen)
      end
  end.

Definition reachLoop_body (current : Block) (queue : list Block) (seen : gmap Z Block)
    : list Block * gmap Z Block :=
  enqueueStarts ((fun succ => i ← succ; deref cfg i) <$> Succs current) queue seen.

(** The loop, with the number of iterations it may take. *)
Fixpoint reachLoop (fuel : nat) (queue : list Block) (seen : gmap Z Block)
    : option (gmap Z Block) :=
  match queue with
  | [] => Some seen
  | current :: queue' =>
      match fuel with
      | O => None
      | S fuel' =>
          let '(queue'', seen') := reachLoop_body current queue' seen in
          reachLoop fuel' queue'' seen'
      end
  end.

Definition block_le (a b : Block) : Prop := Index a <= Index b.
#[local] Instance block_le_dec : RelDecision block_le.
Proof. intros a b. unfold block_le. apply _. Defined.

Definition collectReachableCFGBlocks (fuel : nat) (starts : list (option Block))
    : option (list Block) :=
  match starts with
  | [] => Some []
  | _ =>
      let '(queue, seen) := enqueueStarts starts [] ∅ in
      blocks ← reachLoop fuel queue seen;
      Some (merge_sort block_le ((map_to_list blocks).*2))
  end.
End Reachable.

(** ** State budgets (cfa_budget.go) *)
Definition maxAdaptiveBudgetMultiplier : Z := 4.
Definition minAdaptiveStatesPerBlock : Z := 16.

Definition adaptiveBudgetValue (requested sizeFloor : Z) : Z :=
  if requested <=? 0 then requested
  else if requested <=? 8 then requested
  else
    let effective := Z.max requested sizeFloor in
    let hardCap := requested * maxAdaptiveBudgetMultiplier in
    if hardCap <? effective then hardCap else effective.

Definition adaptiveBlockVisitBudgetByBlockCount (blockCount requested : Z) : Z :=
  adaptiveBudgetValue requested (blockCount * minAdaptiveStatesPerBlock).

Definition adaptiveBlockVisitBudget (fuel : nat) (cfg : Blocks) (requested : Z) : option Z :=
  match cfg with
  | [] => Some requested
  | _ =>
      blocks ← collectReachableCFGBlocks cfg fuel cfg;
      let blockCount := zlen blocks in
      let blockCount := if blockCount =? 0 then zlen cfg else blockCount in
      Some (adaptiveBlockVisitBudgetByBlockCount blockCount requested)
  end.

(** ** Dominators (constructor_deferred.go) *)
Section Dominators.
Context (cfg : Blocks).

(** The blocks reachable from the entry, marked when they leave the queue. *)
Fixpoint markLoop (fuel : nat) (queue : list (option Block)) (reachable : gset Z)
    : option (gset Z) :=
  match queue with
  | [] => Some reachable
  | block :: queue' =>
      match fuel with
      | O => None
      | S fuel' =>
          match block with
          | None => markLoop fuel' queue' reachable
          | Some b =>
              if decide (Index b ∈ reachable) then markLoop fuel' queue' reachable
              else markLoop fuel'
                     (queue' ++ ((fun succ => i ← succ; deref cfg i) <$> Succs b))
                     ({[Index b]} ∪ reachable)
          end
      end
  end.

Definition reachableBlocks (reachable : gset Z) : list Block :=
  filter (fun b => Index b ∈ reachable) (present cfg).

(** [predecessors[j]], in the order it was appended to. *)
Definition predecessors (reachable : gset Z) (j : Z) : list Z :=
  b ← reachableBlocks reachable;
  s ← Succs b;
  if decide (s = Some j /\ j ∈ reachable) then [Index b] else [].

Definition sameConstructorBlockSet (lset rset : gset Z) : bool :=
  (size lset =? size rset)%nat && bool_decide (lset ⊆ rset).

Definition dominatorsOf (result : gmap Z (gset Z)) (i : Z) : gset Z := default ∅ (result !! i).

Fixpoint meetPredecessors (result : gmap Z (gset Z)) (preds : list Z) (next : option (gset Z))
    : option (gset Z) :=
  match preds with
  | [] => next
  | predecessor :: rest =>
      meetPredecessors result rest
        (Some match next with
              | None => dominatorsOf result predecessor
              | Some n => n ∩ dominatorsOf result predecessor
              end)
  end.

Definition nextDominators (reachable : gset Z) (result : gmap Z (gset Z)) (i : Z) : gset Z :=
  {[i]} ∪ default ∅ (meetPredecessors result (predecessors reachable i) None).

Definition updateBlock (entry : Z) (reachable : gset Z)
    (st : gmap Z (gset Z) * bool) (block : Block) : gmap Z (gset Z) * bool :=
  let '(result, changed) := st in
  if Index block =? entry then (result, changed)
  else
    let next := nextDominators reachable result (Index block) in
    if negb (sameConstructorBlockSet (dominatorsOf result (Index block)) next)
    then (<[Index block := next]> result, true)
    else (result, changed).

Definition dominatorPass (entry : Z) (reachable : gset Z) (result : gmap Z (gset Z))
    : gmap Z (gset Z) * bool :=
  fold_left (updateBlock entry reachable) (reachableBlocks reachable) (result, false).

Fixpoint dominatorLoop (fuel : nat) (entry : Z) (reachable : gset Z) (result : gmap Z (gset Z))
    : option (gmap Z (gset Z)) :=
  match fuel with
  | O => None
  | S fuel' =>
      let '(result', changed) := dominatorPass entry reachable result in
      if changed : bool then dominatorLoop fuel' entry reachable result' else Some result'
  end.

Definition initialDominators (entry : Z) (reachable : gset Z) : gmap Z (gset Z) :=
  let all : gset Z := list_to_set (Index <$> reachableBlocks reachable) in
  fold_left (fun result block =>
    <[Index block := if Index block =? entry then {[entry]} else all]> result)
    (reachableBlocks reachable) ∅.

Definition protocolCFGBlockDominators (markFuel passFuel : nat) : option (gmap Z (gset Z)) :=
  match present cfg with
  | [] => Some ∅
  | entryBlock :: _ =>
      reachable ← markLoop markFuel [Some entryBlock] ∅;
      match reachableBlocks reachable with
      | [] => Some ∅
      | _ => dominatorLoop passFuel (Index entryBlock) reachable
               (initialDominators (Index entryBlock) reachable)
      end
  end.
End Dominators.

(** * Facts *)

(** ** Pointers *)
Lemma deref_present cfg i b : deref cfg i = Some b -> b ∈ present cfg /\ Index b = i.
Proof.
  unfold deref. intros H%head_Some_elem_of. by apply list_elem_of_filter in H as [? ?].
Qed.

Lemma present_deref cfg b : wf_cfg cfg -> b ∈ present cfg -> deref cfg (Index b) = Some b.
Proof.
  intros [Hnd _] Hb. unfold deref.
  assert (b ∈ filter (fun b' => Index b' = Index b) (present cfg)) as Hin by (by apply list_elem_of_filter).
  destruct (filter _ _) as [|c cs] eqn:E; [by apply elem_of_nil in Hin|]. simpl. f_equal.
  assert (c ∈ filter (fun b' => Index b' = Index b) (present cfg)) as Hc by (rewrite E; left).
  apply list_elem_of_filter in Hc as [Hi Hc].
  apply list_elem_of_lookup in Hb as [m Hm], Hc as [n Hn].
  assert (m = n) as ->; [|congruence].
  eapply NoDup_lookup; [exact Hnd|by rewrite list_lookup_fmap, Hm|].
  by rewrite list_lookup_fmap, Hn; simpl; rewrite Hi.
Qed.

Lemma deref_succ cfg b j : wf_cfg cfg -> b ∈ present cfg -> Some j ∈ Succs b -> edge cfg (Index b) j.
Proof. intros Hwf Hb Hj. exists b. by rewrite present_deref. Qed.

(** The blocks with an edge to a block, by computation. *)
Definition edge_sources (cfg : Blocks) (j : Z) : list Z :=
  Index <$> filter (fun b => Some j ∈ Succs b) (present cfg).

Lemma edge_source cfg i j : edge cfg i j -> i ∈ edge_sources cfg j.
Proof.
  intros (b & [Hb <-]%deref_present & Hj). apply list_elem_of_fmap_2, list_elem_of_filter. done.
Qed.

Lemma elem_of_present cfg b : b ∈ present cfg <-> Some b ∈ cfg.
Proof.
  unfold present. rewrite list_elem_of_omap. split; [|by exists (Some b)].
  by intros (o & Ho & [= ->]).
Qed.

(** The pointers of a block's successors, as the traversals enqueue them. *)
Lemma succ_pointers cfg b c :
  wf_cfg cfg -> b ∈ present cfg ->
  Some c ∈ ((fun succ => i ← succ; deref cfg i) <$> Succs b) <->
  c ∈ present cfg /\ edge cfg (Index b) (Index c).
Proof.
  intros Hwf Hb. rewrite list_elem_of_fmap. split.
  - intros ([i|] & H & Hs); [|done]. simpl in H. symmetry in H.
    destruct (deref_present _ _ _ H) as [Hc <-]. split; [done|]. by apply deref_succ.
  - intros (Hc & b' & Hb' & Hs). rewrite present_deref in Hb' by done. simplify_eq.
    exists (Some (Index c)). split; [|done]. simpl. by rewrite present_deref.
Qed.

(** ** Reachability *)
Section ReachableFacts.
Context (cfg : Blocks) (Hwf : wf_cfg cfg).

Lemma enqueueStarts_spec l : forall q s q' s',
  enqueueStarts l q s = (q', s') ->
  exists new, q' = q ++ new /\ size s' = (size s + length new)%nat /\
    (forall i b, s' !! i = Some b <-> s !! i = Some b \/ b ∈ new /\ i = Index b) /\
    (forall b, b ∈ new -> Some b ∈ l) /\
    (forall b, Some b ∈ l -> is_Some (s' !! Index b)).
Proof.
  induction l as [|[b|] l IH]; intros q s q' s'; simpl.
  - intros [= <- <-]. exists []. rewrite app_nil_r, Nat.add_0_r. split_and!; try done.
    + intros i b. split; [by left|]. by intros [?|[?%elem_of_nil _]].
    + by intros b ?%elem_of_nil.
    + by intros b ?%elem_of_nil.
  - destruct (s !! Index b) as [b0|] eqn:Eb; intros H.
    + destruct (IH _ _ _ _ H) as (new & -> & Hs & Hl & Hn & Hc). exists new. split_and!; try done.
      * intros c Hc'. right. auto.
      * intros c [[= ->]|?]%elem_of_cons; auto. exists b0. apply Hl. by left.
    + destruct (IH _ _ _ _ H) as (new & -> & Hs & Hl & Hn & Hc). exists (b :: new).
      rewrite <- app_assoc. split_and!; [done| | | |].
      * rewrite Hs, map_size_insert, Eb. simpl. lia.
      * intros i c. rewrite Hl, lookup_insert_Some, elem_of_cons. split.
        -- intros [[[<- <-]|[_ ?]]|[? ->]]; auto.
        -- intros [?|[[->|?] ->]]; [|auto..]. left. right. split; [congruence|done].
      * intros c [->|?]%elem_of_cons; [left|right; auto].
      * intros c [[= ->]|?]%elem_of_cons; auto. exists b. apply Hl. left. by rewrite lookup_insert_eq.
  - intros H. destruct (IH _ _ _ _ H) as (new & -> & Hs & Hl & Hn & Hc). exists new.
    split_and!; try done; [intros c Hc'; right; auto|].
    intros c [[=]|?]%elem_of_cons; auto.
Qed.

Context (starts : list (option Block)) (Hstarts : forall b, Some b ∈ starts -> b ∈ present cfg).

Definition from_starts (i : Z) : Prop := exists s, Some s ∈ starts /\ rtc (edge cfg) (Index s) i.

Record reach_inv (queue : list Block) (seen : gmap Z Block) : Prop := {
  ri_known : forall i b, seen !! i = Some b -> deref cfg i = Some b;
  ri_queue : forall b, b ∈ queue -> seen !! Index b = Some b;
  ri_closed : forall i b, seen !! i = Some b -> b ∈ queue \/ forall j, edge cfg i j -> is_Some (seen !! j);
  ri_sound : forall i b, seen !! i = Some b -> from_starts i;
  ri_starts : forall s, Some s ∈ starts -> is_Some (seen !! Index s);
}.

Lemma reach_inv_start queue seen :
  enqueueStarts starts [] ∅ = (queue, seen) ->
  reach_inv queue seen /\ size seen = length queue.
Proof.
  intros (new & -> & Hs & Hl & Hn & Hc)%enqueueStarts_spec.
  assert (forall i b, seen !! i = Some b -> b ∈ new /\ i = Index b) as Hl'.
  { intros i b. rewrite Hl, lookup_empty. by intros [?|?]. }
  split; [split|].
  - intros i b [Hb ->]%Hl'. apply present_deref; auto.
  - intros b Hb. apply Hl. by right.
  - intros i b [Hb ->]%Hl'. by left.
  - intros i b [Hb ->]%Hl'. exists b. by split; auto.
  - done.
  - by rewrite Hs, map_size_empty.
Qed.

Lemma reach_inv_step b queue seen queue' seen' :
  reach_inv (b :: queue) seen ->
  reachLoop_body cfg b queue seen = (queue', seen') ->
  reach_inv queue' seen' /\ (size seen' + length queue = size seen + length queue')%nat.
Proof.
  intros [Hk Hq Hcl Hso Hst] (new & -> & Hs & Hl & Hn & Hc)%enqueueStarts_spec.
  assert (seen !! Index b = Some b) as Hb by (apply Hq; left).
  assert (b ∈ present cfg) as Hbp by (by apply Hk, deref_present in Hb as [? _]).
  assert (forall c, c ∈ new -> c ∈ present cfg /\ edge cfg (Index b) (Index c)) as Hn'
    by (intros c Hc'; by apply succ_pointers; auto).
  split; [split|].
  - intros i c [H|[H ->]]%Hl; [auto|]. apply present_deref; [done|by apply Hn'].
  - intros c [H|H]%elem_of_app; apply Hl; [left; apply Hq; by right|by right].
  - intros i c [H|[H ->]]%Hl; [|left; by apply elem_of_app; right].
    destruct (Hcl _ _ H) as [[->|Hin]%elem_of_cons|Hcl'].
    + right. intros j Hj. assert (i = Index b) as -> by (by apply Hk, deref_present in H as [_ ->]).
      destruct Hj as (b' & Hb' & Hj). rewrite present_deref in Hb' by done. simplify_eq.
      destruct (proj2 Hwf _ _ Hbp Hj) as [c Hd]. destruct (deref_present _ _ _ Hd) as [Hcp <-].
      apply Hc. apply succ_pointers; [done..|]. split; [done|]. by apply deref_succ.
    + left. apply elem_of_app. by left.
    + right. intros j Hj. destruct (Hcl' j Hj) as [d Hd]. exists d. apply Hl. by left.
  - intros i c [H|[H ->]]%Hl; [eauto|]. destruct (Hn' _ H) as [_ He].
    destruct (Hso _ _ Hb) as (s & Hs1 & Hs2). exists s. split; [done|]. by eapply rtc_r.
  - intros s [d Hd]%Hst. exists d. apply Hl. by left.
  - rewrite Hs, length_app. lia.
Qed.

Lemma reach_seen_bound queue seen : reach_inv queue seen -> (size seen <= length (present cfg))%nat.
Proof.
  intros Hi. rewrite <- (size_dom (D := gset Z)).
  rewrite <- (length_fmap Index (present cfg)), <- (size_list_to_set (C := gset Z)) by apply Hwf.
  apply subseteq_size. intros i [b Hb]%elem_of_dom.
  apply (ri_known _ _ Hi) in Hb. destruct (deref_present _ _ _ Hb) as [Hp <-].
  apply elem_of_list_to_set, list_elem_of_fmap. by exists b.
Qed.

Lemma reachLoop_total fuel : forall queue seen,
  reach_inv queue seen -> (length (present cfg) + length queue <= fuel + size seen)%nat ->
  exists result, reachLoop cfg fuel queue seen = Some result /\ reach_inv [] result.
Proof.
  induction fuel as [|fuel IH]; intros [|b queue] seen Hi Hf; simpl; try (by exists seen).
  - pose proof (reach_seen_bound _ _ Hi). simpl in Hf. lia.
  - destruct (reachLoop_body cfg b queue seen) as [q' s'] eqn:E.
    destruct (reach_inv_step _ _ _ _ _ Hi E) as [Hi' Hm]. simpl in Hf.
    apply IH; [done|]. lia.
Qed.

Lemma reach_inv_done seen i b :
  reach_inv [] seen -> seen !! i = Some b <-> deref cfg i = Some b /\ from_starts i.
Proof.
  intros [Hk _ Hcl Hso Hst]. split; [eauto|]. intros (Hd & s & Hs & Hr).
  assert (is_Some (seen !! i)) as [c Hc]; [|by rewrite Hc, <- (Hk _ _ Hc), Hd].
  clear b Hd. apply Hst in Hs. induction Hr as [i|i j k He Hr IH]; [done|].
  apply IH. destruct Hs as [d Hd]. destruct (Hcl _ _ Hd) as [?%elem_of_nil|H]; [done|]. by apply H.
Qed.
End ReachableFacts.

#[export] Instance block_le_total : Total block_le.
Proof. intros a b. unfold block_le. lia. Qed.

#[export] Instance block_le_trans : Transitive block_le.
Proof. intros a b c. unfold block_le. lia. Qed.

(** Reachability terminates and is exact: within one iteration per block,
    [collectReachableCFGBlocks] returns the blocks reachable from the starts, each
    once, in increasing index order. *)
Theorem reachable_blocks_exact cfg starts :
  wf_cfg cfg -> (forall b, Some b ∈ starts -> b ∈ present cfg) ->
  exists blocks, collectReachableCFGBlocks cfg (length (present cfg)) starts = Some blocks /\
    StronglySorted block_le blocks /\ NoDup blocks /\
    forall b, b ∈ blocks <->
      b ∈ present cfg /\ exists s, Some s ∈ starts /\ rtc (edge cfg) (Index s) (Index b).
Proof.
  intros Hwf Hst. unfold collectReachableCFGBlocks. destruct starts as [|s0 starts'] eqn:Es.
  - exists []. split_and!; [done|constructor..|]. intros b. rewrite elem_of_nil. split; [done|].
    by intros (_ & s & ?%elem_of_nil & _).
  - rewrite <- Es in *. destruct (enqueueStarts starts [] ∅) as [q s] eqn:E.
    destruct (reach_inv_start cfg Hwf starts Hst q s E) as [Hi Hq].
    destruct (reachLoop_total cfg Hwf starts (length (present cfg)) q s Hi ltac:(lia))
      as (res & Hres & Hdone). rewrite Hres. simpl. eexists. split; [done|].
    assert (forall b, b ∈ (map_to_list res).*2 <->
      b ∈ present cfg /\ exists s', Some s' ∈ starts /\ rtc (edge cfg) (Index s') (Index b)) as Hin.
    { intros b. rewrite list_elem_of_fmap. split.
      - intros ([i c] & -> & H%elem_of_map_to_list). simpl.
        apply (reach_inv_done cfg starts res i c Hdone) in H as [Hd Hf].
        by destruct (deref_present _ _ _ Hd) as [? <-].
      - intros [Hp Hf]. exists (Index b, b). split; [done|]. apply elem_of_map_to_list.
        apply (reach_inv_done cfg starts); [done|]. by rewrite present_deref. }
    split_and!.
    + apply (StronglySorted_merge_sort block_le).
    + rewrite merge_sort_Permutation. apply (NoDup_fmap_1 Index).
      assert (Index <$> (map_to_list res).*2 = (map_to_list res).*1) as ->; [|apply NoDup_fst_map_to_list].
      rewrite <- list_fmap_compose. apply list_fmap_ext. intros n [i b] Hl. simpl.
      apply list_elem_of_lookup_2, elem_of_map_to_list in Hl.
      by apply (ri_known _ _ _ _ Hdone), deref_present in Hl as [_ ->].
    + intros b. by rewrite merge_sort_Permutation.
Qed.

Definition diamond : Blocks :=
  [Some (mkBlock 0 [Some 2; Some 1] []); Some (mkBlock 1 [Some 3] []); None;
   Some (mkBlock 2 [Some 3] []); Some (mkBlock 3 [] []); Some (mkBlock 4 [Some 3] [])].

Lemma diamond_wf : wf_cfg diamond.
Proof.
  split; [refine (bool_decide_unpack _ _); by vm_compute|].
  intros b j Hb Hj. cbn in Hb.
  repeat (apply elem_of_cons in Hb as [->|Hb]; [cbn in Hj;
    repeat (apply elem_of_cons in Hj as [[= ->]|Hj]; [vm_compute; eexists; reflexivity|]);
    by apply elem_of_nil in Hj|]). by apply elem_of_nil in Hb.
Qed.

Lemma reachable_blocks_exact_witness :
  exists blocks,
    collectReachableCFGBlocks diamond 5 [Some (mkBlock 0 [Some 2; Some 1] [])] = Some blocks /\
    blocks = [mkBlock 0 [Some 2; Some 1] []; mkBlock 1 [Some 3] []; mkBlock 2 [Some 3] []; mkBlock 3 [] []].
Proof.
  destruct (reachable_blocks_exact diamond [Some (mkBlock 0 [Some 2; Some 1] [])] diamond_wf)
    as (blocks & E & _ & _ & _).
  - intros b [[= ->]|[]%elem_of_nil]%elem_of_cons. vm_compute. left.
  - exists blocks. split; [exact E|]. vm_compute in E. congruence.
Defined.

(** The adaptive budget is bounded: it never drops below the requested number
    of states, never exceeds four times it, and leaves tiny or absent budgets as
    they are. *)
Theorem adaptive_budget_bounds blockCount requested :
  let effective := adaptiveBlockVisitBudgetByBlockCount blockCount requested in
  (requested <= 8 -> effective = requested) /\
  (8 < requested -> requested <= effective <= 4 * requested /\
     (blockCount * 16 <= 4 * requested -> blockCount * 16 <= effective)) /\
  (forall blockCount' : Z, blockCount <= blockCount' ->
     effective <= adaptiveBlockVisitBudgetByBlockCount blockCount' requested).
Proof.
  unfold adaptiveBlockVisitBudgetByBlockCount, adaptiveBudgetValue, maxAdaptiveBudgetMultiplier,
    minAdaptiveStatesPerBlock. split_and!; intros; repeat case_match; split_bools; lia.
Qed.


(** ** Dominators: the reachable blocks *)
Section DominatorFacts.
Context (cfg : Blocks) (Hwf : wf_cfg cfg) (entryBlock : Block) (Hentry : entryBlock ∈ present cfg).

Abbreviation entry := (Index entryBlock).
Abbreviation reachable_from_entry := (rtc (edge cfg) entry).

Definition pendingSuccs (marked : gset Z) : nat :=
  sum_list_with (fun b => if decide (Index b ∈ marked) then 0%nat else length (Succs b)) (present cfg).

Lemma pending_mark b marked :
  b ∈ present cfg -> Index b ∉ marked ->
  (pendingSuccs ({[Index b]} ∪ marked) + length (Succs b) <= pendingSuccs marked)%nat.
Proof.
  clear Hentry Hwf. unfold pendingSuccs. intros Hb Hm.
  assert (forall l, sum_list_with (fun x => if decide (Index x ∈ {[Index b]} ∪ marked) then 0%nat
      else length (Succs x)) l <= sum_list_with (fun x => if decide (Index x ∈ marked) then 0%nat
      else length (Succs x)) l)%nat as Hmono.
  { induction l as [|x l IHl]; simpl; [done|].
    destruct (decide (Index x ∈ marked)) as [Hx|Hx]; [rewrite decide_True by set_solver; lia|].
    case_decide; lia. }
  induction Hb as [b l|b x l Hb IHb]; simpl.
  - rewrite decide_True by set_solver. rewrite (decide_False (P := Index b ∈ marked)) by done.
    specialize (Hmono l). lia.
  - specialize (IHb Hm Hmono). destruct (decide (Index x ∈ marked)) as [Hx|Hx];
      [rewrite decide_True by set_solver; lia|]. case_decide; lia.
Qed.

Record mark_inv (queue : list (option Block)) (marked : gset Z) : Prop := {
  mi_queue : forall b, Some b ∈ queue -> b ∈ present cfg /\ reachable_from_entry (Index b);
  mi_marked : forall i, i ∈ marked -> reachable_from_entry i;
  mi_closed : forall i j, i ∈ marked -> edge cfg i j ->
    j ∈ marked \/ exists c, Some c ∈ queue /\ Index c = j;
  mi_entry : entry ∈ marked \/ Some entryBlock ∈ queue;
}.

Lemma mark_inv_skip b queue marked :
  mark_inv (b :: queue) marked -> (forall c, b = Some c -> Index c ∈ marked) -> mark_inv queue marked.
Proof.
  intros [Hq Hm Hc He] Hb. split.
  - intros c ?. apply Hq. by right.
  - done.
  - intros i j Hi Hij. destruct (Hc i j Hi Hij) as [?|(c & [Hcb|?]%elem_of_cons & <-)]; eauto.
  - destruct He as [?|[Hcb|?]%elem_of_cons]; eauto.
Qed.

Lemma mark_inv_mark b queue marked :
  mark_inv (Some b :: queue) marked ->
  mark_inv (queue ++ ((fun succ => i ← succ; deref cfg i) <$> Succs b)) ({[Index b]} ∪ marked).
Proof.
  intros [Hq Hm Hc He]. destruct (Hq b ltac:(left)) as [Hb Hr]. split.
  - intros c [Hin|Hin]%elem_of_app; [apply Hq; by right|].
    apply succ_pointers in Hin as [? ?]; [|done..]. split; [done|]. by eapply rtc_r.
  - intros i [->%elem_of_singleton|?]%elem_of_union; auto.
  - intros i j [->%elem_of_singleton|Hi]%elem_of_union Hij.
    + right. destruct Hij as (b' & Hb' & Hj). rewrite present_deref in Hb' by done. simplify_eq.
      destruct (proj2 Hwf _ _ Hb Hj) as [c Hd]. destruct (deref_present _ _ _ Hd) as [Hcp <-].
      exists c. split; [|done]. apply elem_of_app. right. apply succ_pointers; [done..|].
      split; [done|]. by apply deref_succ.
    + destruct (Hc i j Hi Hij) as [?|(c & [[= ->]|?]%elem_of_cons & <-)]; [left; rewrite elem_of_union, elem_of_singleton; auto..|].
      right. exists c. split; [by apply elem_of_app; left|done].
  - destruct He as [?|[[= ->]|?]%elem_of_cons]; [left; rewrite elem_of_union, elem_of_singleton; auto..|].
    right. by apply elem_of_app; left.
Qed.

Lemma markLoop_total fuel : forall queue marked,
  mark_inv queue marked -> (length queue + pendingSuccs marked <= fuel)%nat ->
  exists R, markLoop cfg fuel queue marked = Some R /\ mark_inv [] R.
Proof.
  induction fuel as [|fuel IH]; intros [|[b|] queue] marked Hi Hf; simpl in *; try (by exists marked); try lia.
  - destruct (decide (Index b ∈ marked)) as [Hb|Hb].
    + apply IH; [|lia]. eapply mark_inv_skip; [done|]. by intros c [= <-].
    + apply IH; [by apply mark_inv_mark|]. rewrite length_app, length_fmap.
      pose proof (pending_mark b marked (proj1 (mi_queue _ _ Hi b ltac:(left))) Hb). lia.
  - apply IH; [|lia]. by eapply mark_inv_skip.
Qed.

Definition markFuel : nat := S (pendingSuccs ∅).

Lemma marked_reachable :
  exists R, markLoop cfg markFuel [Some entryBlock] ∅ = Some R /\
    forall i, i ∈ R <-> reachable_from_entry i.
Proof.
  destruct (markLoop_total markFuel [Some entryBlock] ∅) as (R & HR & Hi); [|done|].
  - split.
    + intros b [[= ->]|[]%elem_of_nil]%elem_of_cons. by split.
    + set_solver.
    + set_solver.
    + right. left.
  - exists R. split; [done|]. intros i. split; [apply Hi|].
    intros Hr. assert (entry ∈ R) as He by (by destruct (mi_entry _ _ Hi) as [?|?%elem_of_nil]).
    induction Hr as [i|i j k Hij Hr IHr]; [done|]. apply IHr.
    by destruct (mi_closed _ _ Hi i j He Hij) as [?|(c & ?%elem_of_nil & _)].
Qed.

(** *** The fixpoint iteration *)
Context (R : gset Z) (HR : forall i, i ∈ R <-> reachable_from_entry i).

Inductive path_from_entry : Z -> list Z -> Prop :=
| path_start : path_from_entry entry [entry]
| path_snoc i j p : path_from_entry i p -> edge cfg i j -> path_from_entry j (p ++ [j]).

Definition dominates (d i : Z) : Prop := forall p, path_from_entry i p -> d ∈ p.

Lemma entry_reachable : entry ∈ R.
Proof. apply HR. constructor. Qed.

Lemma reachable_present i : i ∈ R -> exists b, b ∈ present cfg /\ Index b = i.
Proof.
  assert (forall x y, rtc (edge cfg) x y -> (exists b, b ∈ present cfg /\ Index b = x) ->
    exists b, b ∈ present cfg /\ Index b = y) as Hall.
  { intros x y. induction 1 as [|x y z Hij Hr IH]; [done|]. intros _. apply IH.
    destruct Hij as (b & [Hb _]%deref_present & Hj).
    destruct (proj2 Hwf _ _ Hb Hj) as [c Hc]. apply deref_present in Hc. by exists c. }
  intros Hi%HR. by apply (Hall _ _ Hi); exists entryBlock.
Qed.

Lemma elem_of_reachableBlocks b : b ∈ reachableBlocks cfg R <-> b ∈ present cfg /\ Index b ∈ R.
Proof. unfold reachableBlocks. rewrite list_elem_of_filter. apply and_comm. Qed.

Lemma reachableBlocks_index i : i ∈ R -> exists b, b ∈ reachableBlocks cfg R /\ Index b = i.
Proof.
  intros Hi. destruct (reachable_present i Hi) as (b & Hb & <-). exists b.
  by rewrite elem_of_reachableBlocks.
Qed.

Lemma elem_of_predecessors p j :
  p ∈ predecessors cfg R j <-> p ∈ R /\ j ∈ R /\ edge cfg p j.
Proof.
  unfold predecessors. rewrite list_elem_of_bind. split.
  - intros (b & H & Hb). apply list_elem_of_bind in H as (s & H & Hs).
    apply elem_of_reachableBlocks in Hb as [Hb Hi].
    destruct (decide _) as [[-> Hj]|]; [|by apply elem_of_nil in H].
    apply list_elem_of_singleton in H as ->. split_and!; [done|done|]. by apply deref_succ.
  - intros (Hp & Hj & b & Hb & Hs). pose proof Hb as [Hbp <-]%deref_present.
    exists b. split; [|by apply elem_of_reachableBlocks]. apply list_elem_of_bind. exists (Some j).
    split; [|done]. rewrite decide_True by done. by apply list_elem_of_singleton.
Qed.

Lemma meet_spec result preds d : forall n,
  d ∈ default ∅ (meetPredecessors result preds (Some n)) <->
  d ∈ n /\ forall p, p ∈ preds -> d ∈ dominatorsOf result p.
Proof.
  induction preds as [|p preds IH]; intros n; simpl.
  - split; [|by intros [? _]]. intros ?. split; [done|]. by intros p ?%elem_of_nil.
  - rewrite IH, elem_of_intersection. split.
    + intros [[? ?] Hall]. split; [done|]. intros q [->|?]%elem_of_cons; auto.
    + intros [? Hall]. split_and!; [done|apply Hall; left|]. intros q ?. apply Hall. by right.
Qed.

Lemma next_spec result i d :
  d ∈ nextDominators cfg R result i <->
  d = i \/ predecessors cfg R i <> [] /\
           forall p, p ∈ predecessors cfg R i -> d ∈ dominatorsOf result p.
Proof.
  unfold nextDominators. rewrite elem_of_union, elem_of_singleton.
  destruct (predecessors cfg R i) as [|p preds]; simpl.
  { split; [by intros [?|?%elem_of_empty]; [left|]|]. by intros [?|[? _]]; [left|]. }
  rewrite meet_spec. split; (intros [?|Hd]; [by left|right]).
  - destruct Hd as [Hd Hall]. split; [done|]. intros q [->|?]%elem_of_cons; auto.
  - destruct Hd as [_ Hall]. split; [apply Hall; left|]. intros q ?. apply Hall. by right.
Qed.

Lemma next_mono (result result' : gmap Z (gset Z)) i :
  (forall j, dominatorsOf result' j ⊆ dominatorsOf result j) ->
  nextDominators cfg R result' i ⊆ nextDominators cfg R result i.
Proof. intros Hm d. rewrite !next_spec. intros [?|[? H]]; [by left|right]. split; [done|]. intros p ?. by apply Hm, H. Qed.

Lemma same_spec x y : sameConstructorBlockSet x y = true <-> x = y.
Proof.
  unfold sameConstructorBlockSet. rewrite andb_true_iff, Nat.eqb_eq, bool_decide_eq_true. split.
  - intros [Hs Hxy]. apply (anti_symm (⊆)); [done|]. intros d Hd.
    destruct (decide (d ∈ x)) as [|Hn]; [done|]. exfalso.
    assert (x ⊂ y) as Hlt by (split; [done|intros Hyx; by apply Hn, Hyx]). apply subset_size in Hlt. lia.
  - by intros ->.
Qed.

(** The invariant of the iteration: sets shrink towards, and never below, the
    dominators. *)
Record dom_inv (result : gmap Z (gset Z)) : Prop := {
  di_dom : forall i, is_Some (result !! i) <-> i ∈ R;
  di_entry : dominatorsOf result entry = {[entry]};
  di_post : forall i, i ∈ R -> i <> entry -> nextDominators cfg R result i ⊆ dominatorsOf result i;
  di_keeps : forall d i, i ∈ R -> dominates d i -> d ∈ dominatorsOf result i;
}.

Definition totalSize (result : gmap Z (gset Z)) : nat :=
  sum_list_with (fun b => size (dominatorsOf result (Index b))) (reachableBlocks cfg R).

(** The equation the block satisfies once it no longer changes. *)
Definition settled (result : gmap Z (gset Z)) (b : Block) : Prop :=
  Index b <> entry -> dominatorsOf result (Index b) = nextDominators cfg R result (Index b).

Lemma dominatorsOf_insert (result : gmap Z (gset Z)) i s j :
  dominatorsOf (<[i := s]> result) j = if decide (i = j) then s else dominatorsOf result j.
Proof. unfold dominatorsOf. rewrite lookup_insert. by case_decide. Qed.

Lemma totalSize_insert (result : gmap Z (gset Z)) b s :
  b ∈ reachableBlocks cfg R -> s ⊂ dominatorsOf result (Index b) ->
  (totalSize (<[Index b := s]> result) < totalSize result)%nat.
Proof.
  intros Hb Hs. unfold totalSize.
  assert (forall c, size (dominatorsOf (<[Index b:=s]> result) (Index c)) <=
    size (dominatorsOf result (Index c)))%nat as Hle.
  { intros c. rewrite dominatorsOf_insert. case_decide as E; [|done].
    rewrite <- E. apply subseteq_size. by apply Hs. }
  assert (forall l, sum_list_with (fun c => size (dominatorsOf (<[Index b:=s]> result) (Index c))) l <=
    sum_list_with (fun c => size (dominatorsOf result (Index c))) l)%nat as Hl.
  { induction l as [|c l IHl]; simpl; [done|]. specialize (Hle c). lia. }
  induction Hb as [b l|b c l Hb IHb]; simpl.
  - rewrite dominatorsOf_insert, decide_True by done. specialize (Hl l).
    pose proof (subset_size _ _ Hs). lia.
  - specialize (IHb Hs Hle Hl). specialize (Hle c). lia.
Qed.

Lemma dominates_preds d j p :
  dominates d j -> d <> j -> edge cfg p j -> dominates d p.
Proof.
  intros Hd Hne He q Hq. assert (d ∈ q ++ [j]) as H by (apply Hd; by econstructor).
  apply elem_of_app in H as [?|H%list_elem_of_singleton]; done.
Qed.

Lemma update_inv result changed b result' changed' :
  dom_inv result -> b ∈ reachableBlocks cfg R ->
  updateBlock cfg entry R (result, changed) b = (result', changed') ->
  dom_inv result' /\
  (result' = result /\ changed' = changed /\ settled result b \/
   changed' = true /\ (totalSize result' < totalSize result)%nat).
Proof.
  intros Hi Hb. unfold updateBlock. destruct (Z.eqb_spec (Index b) entry) as [E|E].
  - intros [= <- <-]. split; [done|left]. do 2 (split; [done|]). by intros ?.
  - destruct (negb _) eqn:Es; intros [= <- <-]; cycle 1.
    { split; [done|left]. split_and!; [done..|]. intros _. apply same_spec. by apply negb_false_iff. }
    pose proof Hb as [Hbp HbR]%elem_of_reachableBlocks.
    assert (nextDominators cfg R result (Index b) ⊂ dominatorsOf result (Index b)) as Hlt.
    { apply negb_true_iff, not_true_iff_false in Es. rewrite same_spec in Es.
      pose proof (di_post _ Hi _ HbR E). split; [done|]. intros ?. apply Es. by apply (anti_symm (⊆)). }
    set (result' := <[_ := _]> result).
    assert (forall j, dominatorsOf result' j ⊆ dominatorsOf result j) as Hmono.
    { intros j. unfold result'. rewrite dominatorsOf_insert. case_decide as E2; [rewrite <- E2; apply Hlt|done]. }
    split; [|right; split; [done|by apply totalSize_insert]]. split.
    + intros i. unfold result'. rewrite lookup_insert_is_Some, (di_dom _ Hi).
      split; [by intros [<-|[_ ?]]|]. intros ?. destruct (decide (Index b = i)); auto.
    + unfold result'. rewrite dominatorsOf_insert, decide_False by done. apply (di_entry _ Hi).
    + intros i HiR Hne. etrans; [by apply next_mono|]. unfold result'. rewrite dominatorsOf_insert.
      case_decide as E2; [by rewrite E2|by apply (di_post _ Hi)].
    + intros d i HiR Hd. unfold result'. rewrite dominatorsOf_insert.
      case_decide as E2; [rewrite <- E2 in *|by apply (di_keeps _ Hi)]. apply next_spec.
      destruct (decide (d = Index b)) as [|Hne]; [by left|right]. split.
      * assert (rtc (edge cfg) entry (Index b)) as Hr by (by apply HR).
        apply rtc_inv_r in Hr as [Heq|(p & Hp & He)]; [done|].
        intros Hnil. assert (p ∈ predecessors cfg R (Index b)) as Hin
          by (apply elem_of_predecessors; split_and!; [by apply HR|done|done]).
        rewrite Hnil in Hin. by apply elem_of_nil in Hin.
      * intros p (HpR & _ & He)%elem_of_predecessors. apply (di_keeps _ Hi); [done|].
        by eapply dominates_preds.
Qed.

Lemma pass_inv l : forall result changed result' changed',
  dom_inv result -> (forall b, b ∈ l -> b ∈ reachableBlocks cfg R) ->
  fold_left (updateBlock cfg entry R) l (result, changed) = (result', changed') ->
  dom_inv result' /\
  (result' = result /\ changed' = changed /\ (forall b, b ∈ l -> settled result b) \/
   changed' = true /\ (totalSize result' < totalSize result)%nat).
Proof.
  induction l as [|b l IH]; intros result changed result' changed' Hi Hl.
  - intros [= <- <-]. split; [done|left]. split_and!; [done..|]. by intros b ?%elem_of_nil.
  - cbn [fold_left]. destruct (updateBlock cfg entry R (result, changed) b) as [r1 c1] eqn:E.
    intros H. destruct (update_inv _ _ _ _ _ Hi (Hl b ltac:(left)) E) as [Hi1 H1].
    destruct (IH r1 c1 result' changed' Hi1) as [Hi2 H2]; [intros; apply Hl; by right|done|].
    split; [done|].
    destruct H1 as [(-> & -> & Hs)|[-> Hs]], H2 as [(-> & -> & Hs2)|[-> Hs2]].
    + left. split_and!; [done..|]. intros c [->|?]%elem_of_cons; auto.
    + by right.
    + by right.
    + right. split; [done|]. lia.
Qed.

Lemma dominatorLoop_total fuel : forall result,
  dom_inv result -> (totalSize result < fuel)%nat ->
  exists result', dominatorLoop cfg fuel entry R result = Some result' /\ dom_inv result' /\
    forall b, b ∈ reachableBlocks cfg R -> settled result' b.
Proof.
  induction fuel as [|fuel IH]; intros result Hi Hf; [lia|]. cbn [dominatorLoop].
  unfold dominatorPass. destruct (fold_left _ _ _) as [r1 c1] eqn:E.
  destruct (pass_inv _ _ _ _ _ Hi (fun b Hb => Hb) E) as [Hi1 [(-> & -> & Hs)|[-> Hs]]].
  - by exists result.
  - apply IH; [done|]. lia.
Qed.

Lemma settled_dominates result d i p :
  dom_inv result -> (forall b, b ∈ reachableBlocks cfg R -> settled result b) ->
  path_from_entry i p -> d ∈ dominatorsOf result i -> d ∈ p.
Proof.
  intros Hi Hs Hp. revert d. induction Hp as [|j k p Hp IH He]; intros d Hd.
  - rewrite (di_entry _ Hi), elem_of_singleton in Hd. by apply list_elem_of_singleton.
  - assert (forall i p, path_from_entry i p -> i ∈ R) as Hreach.
    { intros i q Hq. apply HR. induction Hq; [done|]. by eapply rtc_r. }
    assert (k ∈ R) as HkR by (eapply Hreach; by econstructor).
    apply elem_of_app. destruct (decide (k = entry)) as [->|Hne].
    + right. rewrite (di_entry _ Hi), elem_of_singleton in Hd. by apply list_elem_of_singleton.
    + destruct (reachableBlocks_index k HkR) as (b & Hb & <-).
      rewrite (Hs b Hb Hne) in Hd. apply next_spec in Hd as [->|[_ Hd]];
        [right; by apply list_elem_of_singleton|left].
      apply IH, Hd, elem_of_predecessors. split_and!; [by eapply Hreach|done|done].
Qed.

(** *** The initial sets *)
Definition allReachable : gset Z := list_to_set (Index <$> reachableBlocks cfg R).

Lemma elem_of_allReachable i : i ∈ allReachable <-> i ∈ R.
Proof.
  unfold allReachable. rewrite elem_of_list_to_set, list_elem_of_fmap. split.
  - by intros (b & -> & [_ ?]%elem_of_reachableBlocks).
  - intros (b & Hb & <-)%reachableBlocks_index. by exists b.
Qed.

Definition initialSet (i : Z) : gset Z := if i =? entry then {[entry]} else allReachable.

Lemma initial_lookup i : initialDominators cfg entry R !! i = if decide (i ∈ R) then Some (initialSet i) else None.
Proof.
  unfold initialDominators. fold allReachable.
  assert (forall l acc, fold_left (fun (result : gmap Z (gset Z)) block =>
      <[Index block := if Index block =? entry then {[entry]} else allReachable]> result) l acc !! i =
    if decide (i ∈ Index <$> l) then Some (initialSet i) else acc !! i) as Hfold.
  { induction l as [|b l IHl]; intros acc; cbn [fold_left fmap list_fmap].
    - by rewrite decide_False by apply not_elem_of_nil.
    - rewrite IHl. destruct (decide (i ∈ Index <$> l)) as [E1|E1].
      + by rewrite decide_True by (by right).
      + destruct (decide (Index b = i)) as [<-|Hne].
        * by rewrite lookup_insert_eq, decide_True by left.
        * rewrite lookup_insert_ne, decide_False by (rewrite ?not_elem_of_cons; auto). done. }
  rewrite Hfold, lookup_empty. apply decide_ext. rewrite list_elem_of_fmap. split.
  - by intros (b & -> & [_ ?]%elem_of_reachableBlocks).
  - intros (b & Hb & <-)%reachableBlocks_index. by exists b.
Qed.

Lemma initial_dominatorsOf i : i ∈ R -> dominatorsOf (initialDominators cfg entry R) i = initialSet i.
Proof. intros Hi. unfold dominatorsOf. by rewrite initial_lookup, decide_True. Qed.

Lemma path_reachable i p : path_from_entry i p -> forall j, j ∈ p -> j ∈ R.
Proof.
  assert (forall k q, path_from_entry k q -> k ∈ R) as Hreach.
  { intros k q Hq. apply HR. induction Hq; [done|]. by eapply rtc_r. }
  induction 1 as [|k l p Hp IH He].
  - intros j ->%list_elem_of_singleton. apply entry_reachable.
  - intros j [?| ->%list_elem_of_singleton]%elem_of_app; [auto|]. eapply Hreach. by econstructor.
Qed.

Lemma path_exists i : i ∈ R -> exists p, path_from_entry i p.
Proof.
  intros Hi%HR. assert (exists p, path_from_entry entry p) as He by (eexists; constructor).
  assert (forall x y, rtc (edge cfg) x y -> (exists p, path_from_entry x p) ->
    exists p, path_from_entry y p) as Hall; [|eauto].
  induction 1 as [|x y z Hxy Hr IH]; [done|]. intros [p Hp]. apply IH. eexists. by econstructor.
Qed.

Lemma initial_inv : dom_inv (initialDominators cfg entry R).
Proof.
  assert (forall i, i ∈ R -> initialSet i ⊆ allReachable) as Hsub.
  { intros i Hi. unfold initialSet. destruct (i =? entry); [|done].
    intros d ->%elem_of_singleton. apply elem_of_allReachable, entry_reachable. }
  split.
  - intros i. rewrite initial_lookup. case_decide; [by split; [|eexists]|].
    split; [by intros [? [=]]|done].
  - rewrite initial_dominatorsOf by apply entry_reachable. unfold initialSet. by rewrite Z.eqb_refl.
  - intros i Hi Hne. rewrite initial_dominatorsOf by done. unfold initialSet.
    rewrite (proj2 (Z.eqb_neq _ _) Hne). intros d [->|[Hnil Hd]]%next_spec;
      [by apply elem_of_allReachable|].
    destruct (predecessors cfg R i) as [|p preds] eqn:E; [done|].
    assert (p ∈ R) as Hp by (apply (elem_of_predecessors p i); rewrite E; left).
    specialize (Hd p ltac:(left)). rewrite initial_dominatorsOf in Hd by done. by apply (Hsub p).
  - intros d i Hi Hd. rewrite initial_dominatorsOf by done. unfold initialSet.
    destruct (Z.eqb_spec i entry) as [->|Hne].
    + apply elem_of_singleton, list_elem_of_singleton, Hd. constructor.
    + destruct (path_exists i Hi) as [p Hp]. apply elem_of_allReachable, (path_reachable i p Hp), Hd, Hp.
Qed.

Lemma initial_total :
  (totalSize (initialDominators cfg entry R) <= length (present cfg) * length (present cfg))%nat.
Proof.
  assert (length (reachableBlocks cfg R) <= length (present cfg))%nat as Hlen by apply length_filter.
  assert (size allReachable <= length (present cfg))%nat as Hall.
  { unfold allReachable. rewrite size_list_to_set, length_fmap; [done|].
    eapply sublist_NoDup; [apply Hwf|]. apply fmap_sublist. apply sublist_filter. }
  unfold totalSize.
  assert (forall l, (forall b, b ∈ l -> b ∈ reachableBlocks cfg R) ->
    sum_list_with (fun b => size (dominatorsOf (initialDominators cfg entry R) (Index b))) l <=
    length l * length (present cfg))%nat as Hl.
  { induction l as [|b l IHl]; intros Hin; simpl; [done|].
    specialize (IHl ltac:(intros; apply Hin; by right)).
    assert (Index b ∈ R) as HbR by (apply elem_of_reachableBlocks, Hin; left).
    rewrite initial_dominatorsOf by done.
    assert (size (initialSet (Index b)) <= size allReachable)%nat; [|lia].
    apply subseteq_size. unfold initialSet. destruct (Index b =? entry); [|done].
    intros d ->%elem_of_singleton. apply elem_of_allReachable, entry_reachable. }
  specialize (Hl _ (fun b Hb => Hb)). nia.
Qed.
End DominatorFacts.

(** The passes the iteration may take. *)
Definition passFuel (cfg : Blocks) : nat := S (length (present cfg) * length (present cfg)).

(** C38. The iteration computes dominators: on a well-formed graph it terminates
    within the stated fuel; it has an entry exactly for the blocks reachable from
    the first block, and a block is in the set of another exactly when every path
    from the entry to the latter goes through it. *)
Theorem dominators_exact cfg entryBlock rest :
  wf_cfg cfg -> present cfg = entryBlock :: rest ->
  exists result, protocolCFGBlockDominators cfg (markFuel cfg) (passFuel cfg) = Some result /\
    (forall i, is_Some (result !! i) <-> rtc (edge cfg) (Index entryBlock) i) /\
    (forall i doms, result !! i = Some doms ->
       forall d, d ∈ doms <-> forall p, path_from_entry cfg entryBlock i p -> d ∈ p).
Proof.
  intros Hwf He. assert (entryBlock ∈ present cfg) as Hentry by (rewrite He; left).
  unfold protocolCFGBlockDominators. rewrite He.
  destruct (marked_reachable cfg Hwf entryBlock Hentry) as (R & HmR & HR). rewrite HmR. cbn [mbind option_bind].
  destruct (reachableBlocks cfg R) as [|b0 bs] eqn:Eb.
  { assert (entryBlock ∈ reachableBlocks cfg R) as Hin
      by (apply elem_of_reachableBlocks; split; [done|]; by apply HR).
    rewrite Eb in Hin. by apply elem_of_nil in Hin. }
  destruct (dominatorLoop_total cfg Hwf entryBlock R HR (passFuel cfg)
    (initialDominators cfg (Index entryBlock) R)) as (result & Hres & Hi & Hs).
  - by apply initial_inv.
  - unfold passFuel. pose proof (initial_total cfg Hwf entryBlock Hentry R HR). lia.
  - exists result. split; [done|]. split.
    + intros i. rewrite (di_dom _ _ _ _ Hi). apply HR.
    + intros i doms Hd d. assert (dominatorsOf result i = doms) as Ed by (unfold dominatorsOf; by rewrite Hd).
      assert (i ∈ R) as HiR by (apply (di_dom _ _ _ _ Hi); by rewrite Hd). rewrite <- Ed. split.
      * intros Hin p Hp. by eapply settled_dominates.
      * intros Hp. by apply (di_keeps _ _ _ _ Hi).
Qed.

Lemma dominators_exact_witness :
  exists result, protocolCFGBlockDominators diamond (markFuel diamond) (passFuel diamond) = Some result /\
    result !! 3 = Some {[0; 3]} /\
    forall p, path_from_entry diamond (mkBlock 0 [Some 2; Some 1] []) 3 p -> 0 ∈ p.
Proof.
  destruct (dominators_exact diamond (mkBlock 0 [Some 2; Some 1] [])
    [mkBlock 1 [Some 3] []; mkBlock 2 [Some 3] []; mkBlock 3 [] []; mkBlock 4 [Some 3] []]
    diamond_wf eq_refl) as (result & E & _ & H).
  exists result. split; [exact E|].
  assert (result !! 3 = Some {[0; 3]}) as E3 by (vm_compute in E; injection E as <-; vm_compute; reflexivity).
  split; [exact E3|]. apply (H 3 _ E3). vm_compute. reflexivity.
Defined.
