(* ===== verification/WitnessConstraints.v ===== *)
(** * Constraints of a witness

    The part of [goplint/cfa_ssa_constraints.go] that turns a witness into one
    formula: the branch predicates along a block path, the predicates that dominate
    the block in which the tracked fact starts, and the predicates recorded on the
    edges of an interprocedural witness, with their encoding. *)

From S2P Require Export CFG Feasibility.
Local Open Scope Z_scope.

(** ** The predicate of one branch *)

(** [block.Nodes[len(block.Nodes)-1].(ast.Expr)]. *)
Definition lastCondition (block : Block) : option Expr :=
  match reverse (Nodes block) with Some condition :: _ => Some condition | _ => None end.

(** The predicate of a taken branch: the condition, or else the switch case. *)
Definition branchPredicate (pass : analysisPass) (index : cfgSSAValueIndex) (block : Block)
    (condition : Expr) (truthy : bool) (control : Control) : polled (cfgSSAConstraintFormula * bool) :=
  unless_expired (extractSSAPredicateFormulaWithControl pass index condition truthy control) noFormula
    (fun predicate =>
       if unsupported predicate then
         let switchPredicate := extractSSASwitchCasePredicate pass index (Nodes block) truthy in
         mret (if unsupported switchPredicate then predicate else switchPredicate, false)
       else mret (predicate, false)).

(** ** Predicates along a block path *)

(** The condition and polarity a path step contributes, if any. *)
Definition stepBranch (from to : option Block) : option (Block * Expr * bool) :=
  match from, to with
  | Some from, Some to =>
      match Succs from with
      | [succ0; succ1] =>
          condition ← lastCondition from;
          let '(truthy, ok) := cfgPathSuccessorPolarity succ0 succ1 (Index to) in
          if ok : bool then Some (from, condition, truthy) else None
      | _ => None
      end
  | _, _ => None
  end.

Section Witness.
Context (pass : analysisPass).
(** [buildCFGSSAValueIndexWithControl pass control]. *)
Context (valueIndex : Control -> polled (cfgSSAValueIndex * bool)).

Fixpoint indexBlocks (control : Control) (blocks : Blocks) (blocksByIndex : gmap Z Block)
    : polled (gmap Z Block * bool) :=
  match blocks with
  | [] => mret (blocksByIndex, false)
  | block :: rest =>
      checkpoint control ∅
        (indexBlocks control rest
           match block with Some b => <[Index b := b]> blocksByIndex | None => blocksByIndex end)
  end.

(** The steps of the path from a block on. *)
Fixpoint pathPredicates (index : cfgSSAValueIndex) (blocksByIndex : gmap Z Block) (control : Control)
    (from : Z) (path : list Z) (formula : cfgSSAConstraintFormula)
    : polled (cfgSSAConstraintFormula * bool) :=
  match path with
  | [] => mret (formula, false)
  | to :: rest =>
      checkpoint control noFormula
        match stepBranch (blocksByIndex !! from) (blocksByIndex !! to) with
        | None => pathPredicates index blocksByIndex control to rest formula
        | Some (block, condition, truthy) =>
            unless_expired (branchPredicate pass index block condition truthy control) noFormula
              (fun predicate =>
                 unless_expired (cfgSSAFormulaAndWithControl formula predicate control) noFormula
                   (fun formula' => pathPredicates index blocksByIndex control to rest formula'))
        end
  end.

Definition extractSSAWitnessConstraintsWithControl (cfg : option Blocks) (path : list Z)
    (control : Control) : polled (cfgSSAConstraintFormula * bool) :=
  checkpoint control noFormula
    match pass, cfg, path with
    | None, _, _ => mret (cfgSSAUnsupportedFormula, false)
    | _, Some cfg, from :: ((_ :: _) as steps) =>
          unless_expired (valueIndex control) noFormula (fun index =>
            if index_empty index then mret (cfgSSAUnsupportedFormula, false)
            else
              unless_expired (indexBlocks control cfg ∅) noFormula (fun blocksByIndex =>
                unless_expired (pathPredicates index blocksByIndex control from steps trueFormula) noFormula
                  (fun formula =>
                     checkpoint control noFormula (normalizeWithControl formula control))))
    | _, _, _ => mret (trueFormula, false)
    end.

(** ** Predicates that dominate the start of the fact *)
Definition branchDominates (targetDominators : gset Z) (succ : option Z) : bool :=
  match succ with Some s => bool_decide (s ∈ targetDominators) | None => false end.

(** The branch a block contributes: its condition, if it ends in one, and the
    polarity of the one successor that dominates the target. *)
Definition dominatingBranch (targetIndex : Z) (targetDominators : gset Z) (block : option Block)
    : option (Block * option Expr * bool) :=
  match block with
  | None => None
  | Some block =>
      if (Index block =? targetIndex) || negb (bool_decide (Index block ∈ targetDominators)) then None
      else
        match Succs block, Nodes block with
        | [succ0; succ1], _ :: _ =>
            let trueDominates := branchDominates targetDominators succ0 in
            let falseDominates := branchDominates targetDominators succ1 in
            if Bool.eqb trueDominates falseDominates then None
            else Some (block, lastCondition block, trueDominates)
        | _, _ => None
        end
  end.

Fixpoint dominatingPredicates (index : cfgSSAValueIndex) (targetIndex : Z) (targetDominators : gset Z)
    (control : Control) (blocks : Blocks) (formula : cfgSSAConstraintFormula)
    : polled (cfgSSAConstraintFormula * bool) :=
  match blocks with
  | [] => mret (formula, false)
  | block :: rest =>
      let continue_with := fun predicate =>
        unless_expired (cfgSSAFormulaAndWithControl formula predicate control) noFormula
          (fun formula' =>
             dominatingPredicates index targetIndex targetDominators control rest formula') in
      checkpoint control noFormula
        match dominatingBranch targetIndex targetDominators block with
        | None => dominatingPredicates index targetIndex targetDominators control rest formula
        | Some (_, None, _) => continue_with cfgSSAUnsupportedFormula
        | Some (b, Some condition, trueDominates) =>
            unless_expired (branchPredicate pass index b condition trueDominates control) noFormula
              continue_with
        end
  end.

Definition extractSSADominatingConstraintsForWitnessStartWithControl (cfg : option Blocks)
    (path : list Z) (control : Control) : polled (cfgSSAConstraintFormula * bool) :=
  checkpoint control noFormula
    match pass, cfg, path with
    | Some _, Some ((_ :: _) as cfg), targetIndex :: _ =>
        let dominators := default ∅ (protocolCFGBlockDominators cfg (markFuel cfg) (passFuel cfg)) in
        match dominators !! targetIndex with
        | None => mret (cfgSSAUnsupportedFormula, false)
        | Some targetDominators =>
            unless_expired (valueIndex control) noFormula (fun index =>
              if index_empty index then mret (cfgSSAUnsupportedFormula, false)
              else
                unless_expired
                  (dominatingPredicates index targetIndex targetDominators control cfg trueFormula)
                  noFormula (fun formula => normalizeWithControl formula control))
        end
    | _, _, _ => mret (trueFormula, false)
    end.

(** ** Predicates recorded on witness edges *)

(** [json.Unmarshal] after [base64.RawURLEncoding.DecodeString], and their inverse,
    of Go's standard library, on alternatives of (subject, op, value). *)
Context (decode : string -> option (list (list (string * string * string)))).

Definition cfgSSAPredicateFormulaPrefix : string := "ssa-formula-v1:".

Definition strings_TrimPrefix (s p : string) : string :=
  if strings_HasPrefix s p then String.substring (String.length p) (String.length s - String.length p) s
  else s.

(** The inner loop returns [None] when an atom is malformed. *)
Fixpoint decodeAtoms (control : Control) (atoms : list (string * string * string))
    (alternative : list cfgPredicateConstraint)
    : polled (option (list cfgPredicateConstraint) * bool) :=
  match atoms with
  | [] => mret (Some alternative, false)
  | (s, o, v) :: rest =>
      checkpoint control None
        (if String.eqb s "" || negb (isCFGComparisonOp o) || String.eqb v "" then mret (None, false)
         else decodeAtoms control rest (alternative ++ [mkConstraint s o v]))
  end.

Fixpoint decodeAlternatives (control : Control) (decoded : list (list (string * string * string)))
    (alts : list (list cfgPredicateConstraint))
    : polled (option (list (list cfgPredicateConstraint)) * bool) :=
  match decoded with
  | [] => mret (Some alts, false)
  | encodedAlternative :: rest =>
      checkpoint control None
        (unless_expired (decodeAtoms control encodedAlternative []) None (fun alternative =>
           match alternative with
           | None => mret (None, false)
           | Some a => decodeAlternatives control rest (alts ++ [a])
           end))
  end.

Definition cfgSSAFormulaFromPredicateProvenanceWithControl (provenance : string) (control : Control)
    : polled (cfgSSAConstraintFormula * bool) :=
  checkpoint control noFormula
    (if negb (strings_HasPrefix provenance cfgSSAPredicateFormulaPrefix) then
       mret (cfgSSAUnsupportedFormula, false)
     else
       match decode (strings_TrimPrefix provenance cfgSSAPredicateFormulaPrefix) with
       | None => mret (cfgSSAUnsupportedFormula, false)
       | Some decoded =>
           unless_expired (decodeAlternatives control decoded []) noFormula (fun alts =>
             match alts with
             | None => mret (cfgSSAUnsupportedFormula, false)
             | Some alts =>
                 checkpoint control noFormula (normalizeWithControl (mkFormula alts false) control)
             end)
       end).

Context (encode : list (list (string * string * string)) -> string).

Definition encodeCFGSSAPredicateFormula (formula : cfgSSAConstraintFormula) : string :=
  if unsupported formula then ""
  else cfgSSAPredicateFormulaPrefix +:+
         encode (map (map (fun c => (subject c, op c, value c))) (alternatives (normalized formula))).

Fixpoint edgePredicates (control : Control) (provenances : list string)
    (formula : cfgSSAConstraintFormula) : polled (cfgSSAConstraintFormula * bool) :=
  match provenances with
  | [] => mret (formula, false)
  | provenance :: rest =>
      checkpoint control noFormula
        (unless_expired (cfgSSAFormulaFromPredicateProvenanceWithControl provenance control) noFormula
           (fun predicate =>
              unless_expired (cfgSSAFormulaAndWithControl formula predicate control) noFormula
                (fun formula' => edgePredicates control rest formula')))
  end.

(** The edges of a witness, by their [PredicateProvenance]. *)
Fixpoint witnessEdgePredicates (control : Control) (edges : list (list string))
    (formula : cfgSSAConstraintFormula) : polled (cfgSSAConstraintFormula * bool) :=
  match edges with
  | [] => mret (formula, false)
  | edge :: rest =>
      checkpoint control noFormula
        (unless_expired (edgePredicates control edge formula) noFormula
           (fun formula' => witnessEdgePredicates control rest formula'))
  end.

(** ** The formula of a witness record *)
Definition extractSSAConstraintsForWitnessRecordWithControl (cfg : option Blocks)
    (factOriginPath cfgPath : list Z) (witnessEdges : list (list string)) (control : Control)
    : polled (cfgSSAConstraintFormula * bool) :=
  checkpoint control noFormula
    (let originPath := match factOriginPath with [] => cfgPath | _ => factOriginPath end in
     unless_expired (extractSSADominatingConstraintsForWitnessStartWithControl cfg originPath control)
       noFormula (fun prefix =>
         match witnessEdges with
         | [] =>
             unless_expired (extractSSAWitnessConstraintsWithControl cfg cfgPath control) noFormula
               (fun suffix => cfgSSAFormulaAndWithControl prefix suffix control)
         | _ =>
             unless_expired (witnessEdgePredicates control witnessEdges trueFormula) noFormula
               (fun formula =>
                  checkpoint control noFormula
                    (unless_expired (normalizeWithControl formula control) noFormula
                       (fun formula' => cfgSSAFormulaAndWithControl prefix formula' control)))
         end)).
End Witness.

(** * Facts *)
Lemma branchPredicate_transparent pass index b e t : transparent (branchPredicate pass index b e t).
Proof. unfold branchPredicate. transparency; auto with goplint. Qed.
#[export] Hint Resolve branchPredicate_transparent : goplint.

Lemma indexBlocks_transparent blocks : forall m, transparent (fun c => indexBlocks c blocks m).
Proof. induction blocks as [|b blocks IH]; intros m; simpl; auto with goplint. Qed.

Lemma indexBlocks_outcome blocks : forall m,
  outcome (fun c => indexBlocks c blocks m) =
  fold_left (fun acc block => match block with Some b => <[Index b := b]> acc | None => acc end) blocks m.
Proof. induction blocks as [|b blocks IH]; intros m; [done|]. simpl. by rewrite <- IH. Qed.

Lemma pathPredicates_transparent pass index m path : forall from f,
  transparent (fun c => pathPredicates pass index m c from path f).
Proof.
  induction path as [|to path IH]; intros from f; simpl; transparency; auto with goplint.
Qed.

Lemma dominatingPredicates_transparent pass index i doms blocks : forall f,
  transparent (fun c => dominatingPredicates pass index i doms c blocks f).
Proof.
  induction blocks as [|b blocks IH]; intros f; simpl; [auto with goplint|].
  transparency; auto with goplint.
Qed.

Lemma decodeAtoms_transparent atoms : forall acc, transparent (fun c => decodeAtoms c atoms acc).
Proof. induction atoms as [|[[s o] v] atoms IH]; intros acc; simpl; transparency; auto. Qed.

Lemma decodeAlternatives_transparent decoded : forall acc,
  transparent (fun c => decodeAlternatives c decoded acc).
Proof.
  induction decoded as [|a decoded IH]; intros acc; simpl; transparency;
    auto using decodeAtoms_transparent.
Qed.

#[export] Hint Resolve indexBlocks_transparent pathPredicates_transparent
  dominatingPredicates_transparent decodeAlternatives_transparent : goplint.

Section WitnessFacts.
Context (pass : analysisPass) (valueIndex : Control -> polled (cfgSSAValueIndex * bool)).
Context (Hindex : transparent valueIndex).
Context (decode : string -> option (list (list (string * string * string)))).

Lemma witnessConstraints_transparent cfg path :
  transparent (extractSSAWitnessConstraintsWithControl pass valueIndex cfg path).
Proof.
  unfold extractSSAWitnessConstraintsWithControl. transparency; auto with goplint.
Qed.

Lemma dominatingConstraints_transparent cfg path :
  transparent (extractSSADominatingConstraintsForWitnessStartWithControl pass valueIndex cfg path).
Proof.
  unfold extractSSADominatingConstraintsForWitnessStartWithControl. transparency; auto with goplint.
Qed.

Lemma provenance_transparent provenance :
  transparent (cfgSSAFormulaFromPredicateProvenanceWithControl decode provenance).
Proof.
  unfold cfgSSAFormulaFromPredicateProvenanceWithControl. transparency; auto with goplint.
Qed.
#[local] Hint Resolve provenance_transparent witnessConstraints_transparent
  dominatingConstraints_transparent : goplint.

Lemma edgePredicates_transparent provenances : forall f,
  transparent (fun c => edgePredicates decode c provenances f).
Proof. induction provenances as [|p provenances IH]; intros f; simpl; transparency; auto with goplint. Qed.
#[local] Hint Resolve edgePredicates_transparent : goplint.

Lemma witnessEdgePredicates_transparent edges : forall f,
  transparent (fun c => witnessEdgePredicates decode c edges f).
Proof. induction edges as [|e edges IH]; intros f; simpl; transparency; auto with goplint. Qed.
#[local] Hint Resolve witnessEdgePredicates_transparent : goplint.

Lemma recordConstraints_transparent cfg originPath cfgPath edges :
  transparent (extractSSAConstraintsForWitnessRecordWithControl pass valueIndex decode
                 cfg originPath cfgPath edges).
Proof.
  unfold extractSSAConstraintsForWitnessRecordWithControl. transparency; auto with goplint.
Qed.
End WitnessFacts.

(** ** What a run must satisfy

    A block that ends in a tag switch carries the tag before the case constant;
    any other branch carries its condition alone. *)
Definition caseNodes (block : Block) : option (Expr * Expr) :=
  match reverse (Nodes block) with
  | Some constant :: Some tag :: _ => Some (tag, constant)
  | _ => None
  end.

Section Runs.
Context (pass : analysisPass) (index : cfgSSAValueIndex) (σ : string -> gval).

(** Taking the branch of a block with a polarity: some operand values, coherent
    with the SSA valuation, make the condition (or the case comparison) come out
    that way. *)
Definition branch_taken (block : Block) (condition : Expr) (truthy : bool) : Prop :=
  exists ν,
    (caseNodes block = None /\ coherent pass index σ ν condition /\ evalb ν condition = truthy) \/
    (exists tag, caseNodes block = Some (tag, condition) /\
       operand_coherent pass index σ ν tag /\ operand_coherent pass index σ ν condition /\
       extractSSAPredicateFormula pass index condition truthy = cfgSSAUnsupportedFormula /\
       bool_decide (operand_value ν tag = operand_value ν condition) = truthy).

Lemma caseNodes_switch block truthy :
  caseNodes block = None ->
  extractSSASwitchCasePredicate pass index (Nodes block) truthy = cfgSSAUnsupportedFormula.
Proof. unfold caseNodes, extractSSASwitchCasePredicate. intros H. by repeat case_match. Qed.

Lemma switchPredicate_holds block tag condition truthy ν :
  caseNodes block = Some (tag, condition) ->
  operand_coherent pass index σ ν tag -> operand_coherent pass index σ ν condition ->
  bool_decide (operand_value ν tag = operand_value ν condition) = truthy ->
  formula_holds σ (extractSSASwitchCasePredicate pass index (Nodes block) truthy) = true.
Proof.
  unfold caseNodes, extractSSASwitchCasePredicate. intros Hn Ht Hc Heq.
  repeat (case_match; simplify_eq/=); try done.
  all: match goal with E : extractSSAComparisonAtom _ _ _ _ _ = Some ?a |- _ =>
    destruct (atom_of_operands pass index σ ν _ _ _ a Ht Hc E) as (_ & Hw & Hs) end.
  all: rewrite single_atom_holds; unfold atom_holds; cbn [value subject op]; rewrite Hw, Hs.
  all: unfold op_holds; cbn; by match goal with E : bool_decide _ = _ |- _ => rewrite E end.
Qed.

Lemma branchPredicate_eq block condition truthy :
  outcome (branchPredicate pass index block condition truthy) =
  let predicate := extractSSAPredicateFormula pass index condition truthy in
  let switchPredicate := extractSSASwitchCasePredicate pass index (Nodes block) truthy in
  if unsupported predicate
  then if unsupported switchPredicate then predicate else switchPredicate
  else predicate.
Proof.
  unfold branchPredicate. cbv zeta. outcome_step; [|auto with goplint].
  change (outcome (fun c => extractSSAPredicateFormulaWithControl pass index condition truthy c)) with
    (extractSSAPredicateFormula pass index condition truthy).
  by destruct (unsupported (extractSSAPredicateFormula pass index condition truthy)).
Qed.

Lemma branchPredicate_sound block condition truthy :
  branch_taken block condition truthy ->
  formula_holds σ (outcome (branchPredicate pass index block condition truthy)) = true.
Proof.
  intros [ν H]. rewrite branchPredicate_eq. cbv zeta.
  destruct H as [(Hn & Hc & He)|(tag & Hn & Ht & Hc & Hu & He)].
  - rewrite caseNodes_switch by done.
    destruct (extraction_describes pass index σ ν condition truthy Hc) as [Hd _].
    change (outcome (extractSSAPredicateNode pass index condition truthy)) with
      (extractSSAPredicateFormula pass index condition truthy) in Hd.
    rewrite He, eqb_reflx in Hd. specialize (Hd eq_refl). by destruct (unsupported _).
  - rewrite Hu. pose proof (switchPredicate_holds _ _ _ truthy ν Hn Ht Hc He) as Hs.
    by destruct (unsupported (extractSSASwitchCasePredicate _ _ _ _)).
Qed.

Lemma formulaAnd_holds f g :
  formula_holds σ f = true -> formula_holds σ g = true -> formula_holds σ (formulaAnd f g) = true.
Proof.
  intros Hf Hg. destruct (formulaAnd_describes σ f g true true) as [H _]; [by split..|]. by apply H.
Qed.

(** The steps of a run along a block path. *)
Definition step_taken (cfg : Blocks) (i j : Z) : Prop :=
  match stepBranch (deref cfg i) (deref cfg j) with
  | Some (block, condition, truthy) => branch_taken block condition truthy
  | None => True
  end.

Fixpoint run_along (cfg : Blocks) (from : Z) (path : list Z) : Prop :=
  match path with
  | [] => True
  | to :: rest => step_taken cfg from to /\ run_along cfg to rest
  end.

Lemma pathPredicates_sound cfg m path : forall from f,
  (forall i, m !! i = deref cfg i) ->
  run_along cfg from path -> formula_holds σ f = true ->
  formula_holds σ (outcome (fun c => pathPredicates pass index m c from path f)) = true.
Proof.
  induction path as [|to path IH]; intros from f Hm Hrun Hf; cbn [pathPredicates]; [done|].
  destruct Hrun as [Hstep Hrun]. outcome_step. rewrite !Hm. unfold step_taken in Hstep.
  destruct (stepBranch (deref cfg from) (deref cfg to)) as [[[b e] t]|]; [|by apply IH].
  outcome_step; [|auto with goplint]. outcome_step; [|auto with goplint].
  apply IH; [done..|]. apply formulaAnd_holds; [done|]. by apply branchPredicate_sound.
Qed.

Lemma indexBlocks_deref cfg i :
  wf_cfg cfg -> outcome (fun c => indexBlocks c cfg ∅) !! i = deref cfg i.
Proof.
  intros Hwf. rewrite indexBlocks_outcome.
  assert (forall l (acc : gmap Z Block), NoDup (Index <$> present l) ->
    fold_left (fun (acc : gmap Z Block) block => match block with Some b => <[Index b := b]> acc | None => acc end) l acc !! i
    = match deref l i with Some b => Some b | None => acc !! i end) as Hfold.
  { clear. induction l as [|[b|] l IHl]; intros acc Hnd; cbn [fold_left]; [done| |by apply IHl].
    change (present (Some b :: l)) with (b :: present l) in Hnd.
    apply NoDup_cons in Hnd as [Hb Hnd]. rewrite IHl by done.
    assert (deref (Some b :: l) i = if decide (Index b = i) then Some b else deref l i) as ->.
    { unfold deref. change (present (Some b :: l)) with (b :: present l). rewrite filter_cons.
      by case_decide. }
    case_decide as Ei.
    - destruct (deref l i) as [b'|] eqn:Ed; [|subst; apply lookup_insert_eq].
      apply deref_present in Ed as [Hp Ed]. destruct Hb. rewrite Ei, <- Ed.
      by apply list_elem_of_fmap_2.
    - destruct (deref l i); [done|]. by apply lookup_insert_ne. }
  rewrite Hfold by apply Hwf. by destruct (deref cfg i).
Qed.

(** A witness formula holds on every run along the witness path. *)
Lemma witnessConstraints_sound (valueIndex : Control -> polled (cfgSSAValueIndex * bool)) cfg path :
  transparent valueIndex -> outcome valueIndex = index -> wf_cfg cfg ->
  match path with from :: rest => run_along cfg from rest | [] => True end ->
  formula_holds σ (outcome (extractSSAWitnessConstraintsWithControl pass valueIndex (Some cfg) path)) = true.
Proof.
  intros Hv Hi Hwf Hrun. unfold extractSSAWitnessConstraintsWithControl. outcome_step.
  destruct pass as [info|] eqn:Ep; [|done]. rewrite <- Ep. destruct path as [|from [|to path]]; [done..|].
  outcome_step; [|done]. change (outcome (fun c => valueIndex c)) with (outcome valueIndex). rewrite Hi.
  destruct (index_empty index); [done|]. outcome_step; [|auto with goplint].
  outcome_step; [|auto with goplint]. outcome_step.
  match goal with |- formula_holds σ (outcome (fun c => normalizeWithControl ?f c)) = true =>
    change (formula_holds σ (normalized f) = true) end.
  rewrite normalized_holds. apply pathPredicates_sound with (cfg := cfg); [|done|done].
  intros i. by apply indexBlocks_deref.
Qed.

(** A run that reaches a block from the entry. *)
Definition run_from_entry (cfg : Blocks) (entryBlock : Block) (target : Z) (p : list Z) : Prop :=
  path_from_entry cfg entryBlock target p /\
  match p with [] => True | from :: rest => run_along cfg from rest end.

Lemma run_along_step cfg p i j q : forall from rest,
  from :: rest = p ++ i :: j :: q -> run_along cfg from rest -> step_taken cfg i j.
Proof.
  induction p as [|x p IH]; intros from rest Heq.
  - injection Heq as -> ->. by intros [? _].
  - injection Heq as -> ->. destruct p as [|y p]; simpl; [by intros (_ & ? & _)|].
    intros [_ ?]. by eapply (IH y).
Qed.

Lemma path_last cfg entryBlock i p : path_from_entry cfg entryBlock i p -> exists q, p = q ++ [i].
Proof. destruct 1 as [|i j p]; [by exists []|by exists p]. Qed.

Lemma path_enters cfg entryBlock i p s :
  path_from_entry cfg entryBlock i p -> s ∈ p -> s <> Index entryBlock ->
  exists a d b, p = a ++ d :: s :: b /\ edge cfg d s.
Proof.
  induction 1 as [|i j p Hp IH He]; [by intros ->%list_elem_of_singleton|].
  intros [Hs|Hs]%elem_of_app Hne.
  - destruct (IH Hs Hne) as (a & d & b & -> & Hd). exists a, d, (b ++ [j]). by rewrite <- app_assoc.
  - apply list_elem_of_singleton in Hs as ->. destruct (path_last _ _ _ _ Hp) as [q ->].
    exists q, i, []. by rewrite <- app_assoc.
Qed.

(** The successor a dominating branch was admitted for. *)
Definition admittedSuccessor (block : Block) (truthy : bool) : option Z :=
  match Succs block with
  | [succ0; succ1] => if truthy then succ0 else succ1
  | _ => None
  end.

(** The admitted successor is entered from its branch only. *)
Definition entered_from_branch (cfg : Blocks) (entry target : Z) (doms : gset Z) : Prop :=
  forall block condition truthy s,
    block ∈ present cfg -> dominatingBranch target doms (Some block) = Some (block, condition, truthy) ->
    admittedSuccessor block truthy = Some s -> s <> entry /\ forall d, edge cfg d s -> d = Index block.

(** The same for every branch that dominates the start of the fact. *)
Definition start_entered_from_branches (cfg : Blocks) (entryBlock : Block) (target : Z) : Prop :=
  forall doms, default ∅ (protocolCFGBlockDominators cfg (markFuel cfg) (passFuel cfg)) !! target
      = Some doms -> entered_from_branch cfg (Index entryBlock) target doms.

Lemma dominatingBranch_taken cfg entryBlock target doms block b condition truthy p :
  wf_cfg cfg -> Some block ∈ cfg ->
  (forall d, d ∈ doms -> d ∈ p) ->
  entered_from_branch cfg (Index entryBlock) target doms ->
  run_from_entry cfg entryBlock target p ->
  dominatingBranch target doms (Some block) = Some (b, Some condition, truthy) ->
  branch_taken b condition truthy.
Proof.
  intros Hwf Hin Hdoms Henter [Hp Hrun] Hb.
  assert (b = block) as -> by (unfold dominatingBranch in Hb; by repeat case_match; simplify_eq).
  assert (exists s, admittedSuccessor block truthy = Some s /\ s ∈ doms /\ lastCondition block = Some condition /\
    forall c, Index c = s -> stepBranch (Some block) (Some c) = Some (block, condition, truthy))
    as (s & Hs & Hsd & Hl & Hstep).
  { unfold dominatingBranch, admittedSuccessor, stepBranch in *.
    destruct (_ || _); [done|]. destruct (Succs block) as [|succ0 [|succ1 [|]]]; try done.
    destruct (Nodes block); [done|]. 
    destruct (branchDominates doms succ0) eqn:E0, (branchDominates doms succ1) eqn:E1;
      simpl in Hb; try done; injection Hb as Hlc <-.
    - destruct succ0 as [s0|]; [|done]. exists s0. simpl in E0. apply bool_decide_eq_true in E0.
      split_and!; [done..|]. intros c <-. rewrite Hlc. simpl. unfold cfgPathSuccessorPolarity.
      by rewrite bool_decide_eq_true_2.
    - destruct succ1 as [s1|]; [|done]. exists s1. simpl in E1. apply bool_decide_eq_true in E1.
      split_and!; [done..|]. intros c <-. rewrite Hlc. simpl. unfold cfgPathSuccessorPolarity.
      rewrite bool_decide_eq_false_2, bool_decide_eq_true_2; [done..|].
      intros ->. simpl in E0. by apply bool_decide_eq_false in E0. }
  assert (block ∈ present cfg) as Hbp by (by apply elem_of_present).
  destruct (Henter _ _ _ _ Hbp Hb Hs) as [Hne Honly].
  destruct (path_enters _ _ _ _ s Hp (Hdoms _ Hsd) Hne) as (a & d & q & -> & Hd).
  pose proof (Honly d Hd) as ->. destruct (a ++ Index block :: s :: q) as [|from rest] eqn:Ea;
    [by destruct a|].
  assert (step_taken cfg (Index block) s) as Ht
    by (eapply (run_along_step cfg a _ _ q); [by symmetry|done]).
  destruct Hd as (b' & Hb' & Hsucc). pose proof (proj2 Hwf _ s Hbp) as Hsu.
  rewrite present_deref in Hb' by done. simplify_eq. destruct (Hsu Hsucc) as [c Hc].
  unfold step_taken in Ht. rewrite present_deref, Hc in Ht by done.
  rewrite (Hstep c) in Ht; [done|]. by apply deref_present in Hc as [_ ?].
Qed.

Lemma dominatingPredicates_sound cfg entryBlock target doms p blocks : forall f,
  wf_cfg cfg -> (forall b, b ∈ blocks -> b ∈ cfg) ->
  (forall d, d ∈ doms -> d ∈ p) ->
  entered_from_branch cfg (Index entryBlock) target doms ->
  run_from_entry cfg entryBlock target p ->
  formula_holds σ f = true ->
  formula_holds σ (outcome (fun c => dominatingPredicates pass index target doms c blocks f)) = true.
Proof.
  induction blocks as [|block blocks IH]; intros f Hwf Hin Hdoms Henter Hrun Hf;
    cbn [dominatingPredicates]; [done|].
  assert (forall g, formula_holds σ g = true -> formula_holds σ
    (outcome (fun c => unless_expired (cfgSSAFormulaAndWithControl f g c) noFormula
       (fun f' => dominatingPredicates pass index target doms c blocks f'))) = true) as Hcont.
  { intros g Hg. outcome_step; [|auto with goplint].
    apply IH; try done; [intros; apply Hin; by right|]. by apply formulaAnd_holds. }
  cbv zeta. outcome_step. destruct (dominatingBranch target doms block) as [[[b [e|]] t]|] eqn:Eb.
  - outcome_step; [|auto with goplint]. apply Hcont, branchPredicate_sound.
    destruct block as [block|]; [|done]. eapply dominatingBranch_taken; try done. apply Hin. left.
  - by apply Hcont.
  - apply IH; try done. intros. apply Hin. by right.
Qed.

Lemma dominatingConstraints_sound (valueIndex : Control -> polled (cfgSSAValueIndex * bool))
    cfg entryBlock rest target path p :
  transparent valueIndex -> outcome valueIndex = index -> wf_cfg cfg ->
  present cfg = entryBlock :: rest ->
  start_entered_from_branches cfg entryBlock target ->
  run_from_entry cfg entryBlock target p ->
  formula_holds σ (outcome (extractSSADominatingConstraintsForWitnessStartWithControl pass valueIndex
    (Some cfg) (target :: path))) = true.
Proof.
  intros Hv Hi Hwf He Henter Hrun. unfold start_entered_from_branches in Henter.
  unfold extractSSADominatingConstraintsForWitnessStartWithControl. outcome_step.
  destruct pass as [info|] eqn:Ep; [|done]. rewrite <- Ep. destruct cfg as [|b0 cfg'] eqn:Ec; [done|].
  rewrite <- Ec in *. cbv zeta.
  destruct (default ∅ (protocolCFGBlockDominators cfg (markFuel cfg) (passFuel cfg)) !! target)
    as [doms|] eqn:Hdoms; [|done]. specialize (Henter doms eq_refl). outcome_step; [|done].
  change (outcome (fun c => valueIndex c)) with (outcome valueIndex). rewrite Hi.
  destruct (index_empty index); [done|]. outcome_step; [|auto with goplint].
  match goal with |- formula_holds σ (outcome (fun c => normalizeWithControl ?f c)) = true =>
    change (formula_holds σ (normalized f) = true) end.
  rewrite normalized_holds. apply dominatingPredicates_sound with (cfg := cfg) (entryBlock := entryBlock) (p := p);
    try done.
  destruct (dominators_exact cfg entryBlock rest Hwf He) as (result & Hres & _ & Hex).
  rewrite Hres in Hdoms. simpl in Hdoms. intros d Hd. by apply (Hex _ _ Hdoms d), Hrun.
Qed.

(** *** Interprocedural witnesses *)
Context (decode : string -> option (list (list (string * string * string)))).

Abbreviation provenanceFormula p := (outcome (cfgSSAFormulaFromPredicateProvenanceWithControl decode p)).

Definition edges_taken (edges : list (list string)) : Prop :=
  forall edge provenance, edge ∈ edges -> provenance ∈ edge ->
    formula_holds σ (provenanceFormula provenance) = true.

Lemma edgePredicates_sound provenances : forall f,
  (forall p, p ∈ provenances -> formula_holds σ (provenanceFormula p) = true) ->
  formula_holds σ f = true ->
  formula_holds σ (outcome (fun c => edgePredicates decode c provenances f)) = true.
Proof.
  induction provenances as [|p ps IH]; intros f Hp Hf; cbn [edgePredicates]; [done|].
  outcome_step. outcome_step; [|by apply provenance_transparent].
  outcome_step; [|auto with goplint]. apply IH; [intros; apply Hp; by right|].
  apply formulaAnd_holds; [done|]. apply Hp. left.
Qed.

Lemma witnessEdgePredicates_sound edges : forall f,
  edges_taken edges -> formula_holds σ f = true ->
  formula_holds σ (outcome (fun c => witnessEdgePredicates decode c edges f)) = true.
Proof.
  induction edges as [|e es IH]; intros f He Hf; cbn [witnessEdgePredicates]; [done|].
  outcome_step. outcome_step; [|by apply edgePredicates_transparent].
  apply IH; [intros x y Hx; apply He; by right|]. apply edgePredicates_sound; [|done].
  intros p. apply He. left.
Qed.

Lemma recordConstraints_sound (valueIndex : Control -> polled (cfgSSAValueIndex * bool))
    cfg entryBlock rest target originPath cfgPath edges p :
  transparent valueIndex -> outcome valueIndex = index -> wf_cfg cfg ->
  present cfg = entryBlock :: rest ->
  head (match originPath with [] => cfgPath | _ => originPath end) = Some target ->
  start_entered_from_branches cfg entryBlock target ->
  run_from_entry cfg entryBlock target p ->
  match edges, cfgPath with
  | [], from :: path => run_along cfg from path
  | [], [] => True
  | _, _ => edges_taken edges
  end ->
  formula_holds σ (outcome (extractSSAConstraintsForWitnessRecordWithControl pass valueIndex decode
    (Some cfg) originPath cfgPath edges)) = true.
Proof.
  intros Hv Hi Hwf He Ht Henter Hp Hrun. unfold extractSSAConstraintsForWitnessRecordWithControl.
  cbv zeta. set (origin := match originPath with [] => cfgPath | _ => originPath end) in *.
  destruct origin as [|t path] eqn:Eo; [done|]. injection Ht as ->.
  outcome_step. outcome_step; [|by apply dominatingConstraints_transparent].
  match goal with |- context [outcome (fun c => extractSSADominatingConstraintsForWitnessStartWithControl _ _ _ _ c)] =>
    pose proof (dominatingConstraints_sound valueIndex cfg entryBlock rest target path p Hv Hi Hwf He Henter Hp)
      as Hprefix end.
  destruct edges as [|e es].
  - outcome_step; [|by apply witnessConstraints_transparent]. apply formulaAnd_holds; [done|].
    by apply witnessConstraints_sound.
  - outcome_step; [|by apply witnessEdgePredicates_transparent]. outcome_step.
    outcome_step; [|auto with goplint]. apply formulaAnd_holds; [done|].
    match goal with |- formula_holds σ (outcome (fun c => normalizeWithControl ?f c)) = true =>
      change (formula_holds σ (normalized f) = true) end.
    rewrite normalized_holds. by apply witnessEdgePredicates_sound.
Qed.
End Runs.

(** C9. A discharged witness is infeasible under the conditions the extraction relies on.
    Take the formula of a witness record and a certificate the checker accepts for it under
    any control.  Suppose the constants of the formula are written canonically, and every
    branch admitted before the origin is the only way into its admitted successor.  Then no
    one valuation of the SSA subjects, fixed for the whole run, is coherent with a run from
    the entry to the origin of the fact that continues along the branches the witness records
    (for recorded transitions of several procedures: satisfies their recorded predicates).
    A run takes a branch when operand values coherent with the valuation make its condition,
    or the comparison of switch tag and case constant, come out that way; a case constant
    that reads as a condition of its own is excluded (see [boolean_case_refuted]).  Without
    the condition on admitted branches the statement is false, see
    [dominating_prefix_refutes_feasible_witness]. *)
Theorem accepted_certificate_infeasible pass valueIndex decode cfg entryBlock rest target
    originPath cfgPath edges evidence control clk e clk' :
  transparent valueIndex -> wf_cfg cfg -> present cfg = entryBlock :: rest ->
  head (match originPath with [] => cfgPath | _ => originPath end) = Some target ->
  start_entered_from_branches cfg entryBlock target ->
  canonical_formula (outcome (extractSSAConstraintsForWitnessRecordWithControl pass valueIndex decode
    (Some cfg) originPath cfgPath edges)) ->
  checkSSAConstraintFormulaEvidenceWithDeadline
    (outcome (extractSSAConstraintsForWitnessRecordWithControl pass valueIndex decode
      (Some cfg) originPath cfgPath edges)) cfgPath evidence control clk = ((true, e), clk') ->
  ~ exists σ p,
      run_from_entry pass (outcome valueIndex) σ cfg entryBlock target p /\
      match edges, cfgPath with
      | [], from :: path => run_along pass (outcome valueIndex) σ cfg from path
      | [], [] => True
      | _, _ => edges_taken σ decode edges
      end.
Proof.
  intros Hv Hwf He Ht Henter Hcan Hcheck (σ & p & Hp & Hrun).
  pose proof (recordConstraints_sound pass (outcome valueIndex) σ decode valueIndex cfg entryBlock rest
    target originPath cfgPath edges p Hv eq_refl Hwf He Ht Henter Hp Hrun) as Hholds.
  apply check_accepted in Hcheck as (_ & _ & Hcert). unfold canonical_formula, formula_holds in *.
  destruct Hcert as [Hnil|Hcs]; [by rewrite Hnil in Hholds|].
  by rewrite (certified_refutes σ _ _ _ Hcs Hcan) in Hholds.
Qed.

(** ** A concrete program *)
Definition sample_info : typesInfo := mkTypesInfo (fun _ => 77) (fun _ => None).
Definition sample_pass : analysisPass := Some (Some sample_info).
Definition sample_value : ssaValue := mkSSAValue (Some "pkg.f") "*ssa.Parameter" "x" (Some (UBasic KInt)) false.
Definition sample_index : cfgSSAValueIndex := mkValueIndex ∅ {[77 := sample_value]}.
Definition sample_valueIndex : Control -> polled (cfgSSAValueIndex * bool) := fun c => finish c sample_index.
Definition x_is (p : Z) (text : string) : Expr := BinaryExpr p EQL (Ident (p + 1) "x") (BasicLit (p + 2) text).

(** [if x == 1 { if x == 2 { here } }]. *)
Definition nested_if : Blocks :=
  [Some (mkBlock 0 [Some 1; Some 2] [Some (x_is 100 "1")]);
   Some (mkBlock 1 [Some 3; Some 2] [Some (x_is 200 "2")]);
   Some (mkBlock 2 [] []); Some (mkBlock 3 [Some 2] [])].

Definition nested_evidence : cfgSSAConstraintEvidence :=
  mkEvidence 1 false [1; 3] ["pkg.f|*ssa.Parameter|x"]
    [mkContradiction 0 (mkConstraint "pkg.f|*ssa.Parameter|x" "eq" "1")
       (mkConstraint "pkg.f|*ssa.Parameter|x" "eq" "2")].

Ltac solve_wf_cfg :=
  split; [refine (bool_decide_unpack _ _); by vm_compute|];
  intros b j Hb Hj; cbn in Hb;
  repeat (apply elem_of_cons in Hb as [->|Hb]; [cbn in Hj;
    repeat (apply elem_of_cons in Hj as [[= ->]|Hj]; [vm_compute; eexists; reflexivity|]);
    by apply elem_of_nil in Hj|]); by apply elem_of_nil in Hb.

Lemma nested_if_wf : wf_cfg nested_if.
Proof. solve_wf_cfg. Qed.

Lemma nested_if_start : start_entered_from_branches nested_if
  (mkBlock 0 [Some 1; Some 2] [Some (x_is 100 "1")]) 1.
Proof.
  intros doms Hd.
  assert (default ∅ (protocolCFGBlockDominators nested_if (markFuel nested_if) (passFuel nested_if)) !! 1
    = Some {[0; 1]}) as E by (vm_compute; reflexivity).
  rewrite E in Hd. injection Hd as <-. intros block c t s Hb Hdb Hs.
  assert (block = mkBlock 0 [Some 1; Some 2] [Some (x_is 100 "1")] /\ t = true) as [-> ->].
  { change (present nested_if) with [mkBlock 0 [Some 1; Some 2] [Some (x_is 100 "1")];
      mkBlock 1 [Some 3; Some 2] [Some (x_is 200 "2")]; mkBlock 2 [] []; mkBlock 3 [Some 2] []] in Hb.
    rewrite !elem_of_cons, elem_of_nil in Hb.
    destruct Hb as [->|[->|[->|[->|[]]]]]; vm_compute in Hdb; [|discriminate Hdb..].
    by injection Hdb as _ <-. }
  injection Hs as <-. split; [done|]. intros d Hd%edge_source.
  change (edge_sources nested_if 1) with [0] in Hd. by apply list_elem_of_singleton in Hd.
Qed.

Lemma accepted_certificate_infeasible_witness :
  ~ exists σ p,
      run_from_entry sample_pass sample_index σ nested_if
        (mkBlock 0 [Some 1; Some 2] [Some (x_is 100 "1")]) 1 p /\
      run_along sample_pass sample_index σ nested_if 1 [3].
Proof.
  assert (outcome (extractSSAConstraintsForWitnessRecordWithControl sample_pass sample_valueIndex
    (fun _ => None) (Some nested_if) [] [1; 3] []) =
    mkFormula [[mkConstraint "pkg.f|*ssa.Parameter|x" "eq" "1";
                mkConstraint "pkg.f|*ssa.Parameter|x" "eq" "2"]] false) as Hf by (vm_compute; reflexivity).
  apply (accepted_certificate_infeasible sample_pass sample_valueIndex (fun _ => None) nested_if
    (mkBlock 0 [Some 1; Some 2] [Some (x_is 100 "1")])
    [mkBlock 1 [Some 3; Some 2] [Some (x_is 200 "2")]; mkBlock 2 [] []; mkBlock 3 [Some 2] []]
    1 [] [1; 3] [] nested_evidence None 0%nat false 0%nat).
  - apply transparent_finish.
  - apply nested_if_wf.
  - reflexivity.
  - reflexivity.
  - apply nested_if_start.
  - rewrite Hf. repeat constructor; vm_compute; eexists; reflexivity.
  - rewrite Hf. vm_compute. reflexivity.
Defined.

(** ** What the admission rule for dominating branches misses

    [if x == 1 { log() }; origin; if x == 1 { use() }]: the join block dominates
    the origin and is a successor of the first branch, so the false polarity is
    admitted although the true branch reaches the join too. *)
Definition if_without_else : Blocks :=
  [Some (mkBlock 0 [Some 1; Some 2] [Some (x_is 100 "1")]);
   Some (mkBlock 1 [Some 2] []);
   Some (mkBlock 2 [Some 3; Some 4] [Some (x_is 200 "1")]);
   Some (mkBlock 3 [Some 4] []); Some (mkBlock 4 [] [])].

Definition if_without_else_evidence : cfgSSAConstraintEvidence :=
  mkEvidence 1 false [2; 3] ["pkg.f|*ssa.Parameter|x"]
    [mkContradiction 0 (mkConstraint "pkg.f|*ssa.Parameter|x" "neq" "1")
       (mkConstraint "pkg.f|*ssa.Parameter|x" "eq" "1")].

Lemma x_is_taken σ ν block p :
  σ "pkg.f|*ssa.Parameter|x" = VInt 1 -> ν (p + 1) = VInt 1 -> ν (p + 2) = VInt 1 ->
  caseNodes block = None ->
  branch_taken sample_pass sample_index σ block (x_is p "1") true.
Proof.
  intros Hσ H1 H2 Hb. exists ν. left. split; [done|]. split.
  - unfold coherent, x_is, operand_coherent, operand_value. cbn [stripParens expr_pointer]. split_and!.
    + intros v. unfold cfgSSAValueForExpr. cbn. intros [= <-]. by rewrite H1.
    + intros text. by cbn.
    + intros v. by cbn.
    + intros text. cbn. intros [= <-]. by rewrite H2.
    + done.
  - unfold evalb, x_is, operand_value. cbn. rewrite H1, H2. by apply bool_decide_eq_true_2.
Qed.

(** C39. The admission of dominating predicates is not sound in general: for an
    origin after an [if] without [else], the analyzer assumes the condition was
    false, and a certificate is accepted for a witness that a run with the
    condition true follows. *)
Theorem dominating_prefix_refutes_feasible_witness :
  exists σ p clk',
    checkSSAConstraintFormulaEvidenceWithDeadline
      (outcome (extractSSAConstraintsForWitnessRecordWithControl sample_pass sample_valueIndex
        (fun _ => None) (Some if_without_else) [] [2; 3] [])) [2; 3] if_without_else_evidence None 0%nat
      = ((true, false), clk') /\
    run_from_entry sample_pass sample_index σ if_without_else
      (mkBlock 0 [Some 1; Some 2] [Some (x_is 100 "1")]) 2 p /\
    run_along sample_pass sample_index σ if_without_else 2 [3].
Proof.
  exists (fun _ => VInt 1), ([0; 1] ++ [2]), 0%nat. split_and!; [vm_compute; reflexivity| |].
  - split.
    + apply path_snoc with 1; [apply (path_snoc _ _ 0 1 [0])|].
      * constructor.
      * eexists. split; [reflexivity|]. cbn. left.
      * eexists. split; [reflexivity|]. cbn. left.
    + split; [|by split].
      change (branch_taken sample_pass sample_index (fun _ => VInt 1)
        (mkBlock 0 [Some 1; Some 2] [Some (x_is 100 "1")]) (x_is 100 "1") true).
      by apply x_is_taken with (ν := fun _ => VInt 1).
  - split; [|done].
    change (branch_taken sample_pass sample_index (fun _ => VInt 1)
      (mkBlock 2 [Some 3; Some 4] [Some (x_is 200 "1")]) (x_is 200 "1") true).
    by apply x_is_taken with (ν := fun _ => VInt 1).
Qed.

(** A switch on a boolean tag is read as a branch on its case constant: the
    successor of [case false] is refuted outright, whatever the tag is. *)
Theorem boolean_case_refuted pass index tag p truthy σ :
  let block := mkBlock 0 [Some 1; Some 2] [Some tag; Some (Ident p "false")] in
  caseNodes block = Some (tag, Ident p "false") /\
  formula_holds σ (outcome (branchPredicate pass index block (Ident p "false") truthy)) = negb truthy.
Proof. split; [done|]. rewrite branchPredicate_eq. by destruct truthy. Qed.

(** ** Encoding of predicates *)
Lemma substring_full s : String.substring 0 (String.length s) s = s.
Proof. induction s as [|c s IH]; simpl; [done|]. by rewrite IH. Qed.

Lemma trim_formula_prefix s :
  strings_HasPrefix (cfgSSAPredicateFormulaPrefix +:+ s) cfgSSAPredicateFormulaPrefix = true /\
  strings_TrimPrefix (cfgSSAPredicateFormulaPrefix +:+ s) cfgSSAPredicateFormulaPrefix = s.
Proof.
  assert (strings_HasPrefix (cfgSSAPredicateFormulaPrefix +:+ s) cfgSSAPredicateFormulaPrefix = true) as Hp
    by (by destruct s).
  split; [done|]. unfold strings_TrimPrefix. rewrite Hp.
  change (String.substring 0 (String.length (cfgSSAPredicateFormulaPrefix +:+ s) - 15) s = s).
  replace (String.length (cfgSSAPredicateFormulaPrefix +:+ s) - 15)%nat with (String.length s)
    by (change (String.length (cfgSSAPredicateFormulaPrefix +:+ s)) with (15 + String.length s)%nat; lia).
  apply substring_full.
Qed.

(** The atoms an extraction produces: a subject, a comparison and a value. *)
Definition well_formed_atom (c : cfgPredicateConstraint) : bool :=
  negb (String.eqb (subject c) "") && isCFGComparisonOp (op c) && negb (String.eqb (value c) "").

Lemma decodeAtoms_outcome atoms : forall acc,
  Forall (fun c => well_formed_atom c = true) atoms ->
  outcome (fun c => decodeAtoms c (map (fun a => (subject a, op a, value a)) atoms) acc) = Some (acc ++ atoms).
Proof.
  induction atoms as [|[s o v] atoms IH]; intros acc; cbn [map decodeAtoms]; [by rewrite app_nil_r|].
  intros [Ha Hall]%Forall_cons. unfold well_formed_atom in Ha. split_bools. cbn [subject op value] in *.
  outcome_step.
  repeat match goal with H : _ = false |- _ => rewrite H | H : isCFGComparisonOp o = true |- _ => rewrite H end.
  cbn [orb negb]. rewrite (IH _ Hall). by rewrite <- app_assoc.
Qed.

Lemma decodeAlternatives_outcome alts : forall acc,
  Forall (Forall (fun c => well_formed_atom c = true)) alts ->
  outcome (fun c => decodeAlternatives c (map (map (fun a => (subject a, op a, value a))) alts) acc) =
  Some (acc ++ alts).
Proof.
  induction alts as [|a alts IH]; intros acc; cbn [map decodeAlternatives]; [by rewrite app_nil_r|].
  intros [Ha Hall]%Forall_cons. outcome_step. outcome_step; [|by apply decodeAtoms_transparent].
  rewrite decodeAtoms_outcome by done. cbn. rewrite (IH _ Hall). by rewrite <- app_assoc.
Qed.

Lemma normalized_well_formed f :
  Forall (Forall (fun c => well_formed_atom c = true)) (alternatives f) ->
  Forall (Forall (fun c => well_formed_atom c = true)) (alternatives (normalized f)).
Proof.
  rewrite normalized_eq. cbn. rewrite merge_sort_Permutation, !Forall_forall.
  intros H a (b & -> & Hb)%list_elem_of_fmap. rewrite merge_sort_Permutation. by apply H.
Qed.

(** Predicates survive the encoding on witness edges: decoding the encoded
    form of a supported formula with well-formed atoms yields a supported formula
    that holds under the same valuations, when the transport decodes what it
    encoded. *)
Theorem predicate_provenance_roundtrip decode encode f σ :
  (forall l, decode (encode l) = Some l) ->
  unsupported f = false ->
  Forall (Forall (fun c => well_formed_atom c = true)) (alternatives f) ->
  let g := outcome (cfgSSAFormulaFromPredicateProvenanceWithControl decode
                      (encodeCFGSSAPredicateFormula encode f)) in
  unsupported g = false /\ formula_holds σ g = formula_holds σ f.
Proof.
  intros Hde Hu Hwf. unfold encodeCFGSSAPredicateFormula. rewrite Hu.
  unfold cfgSSAFormulaFromPredicateProvenanceWithControl.
  set (text := encode _). destruct (trim_formula_prefix text) as [Hp Ht].
  cbv zeta. assert (forall g, g = normalized (normalized f) ->
    unsupported g = false /\ formula_holds σ g = formula_holds σ f) as Hg.
  { intros g ->. rewrite !normalized_holds, !normalized_eq. done. }
  apply Hg. outcome_step. rewrite Hp, Ht. unfold text. rewrite Hde. cbn [negb].
  outcome_step; [|auto with goplint]. rewrite decodeAlternatives_outcome by (by apply normalized_well_formed).
  cbn [app]. outcome_step.
  replace (mkFormula (alternatives (normalized f)) false) with (normalized f)
    by (by rewrite normalized_eq, Hu). done.
Qed.

(** A transport for the witness: a countable type written in binary. *)
Fixpoint binary_text (p : positive) : string :=
  match p with
  | xH => EmptyString
  | xO q => String Ascii.zero (binary_text q)
  | xI q => String Ascii.one (binary_text q)
  end.

Fixpoint text_binary (s : string) : positive :=
  match s with
  | EmptyString => xH
  | String c rest => if Ascii.eqb c Ascii.zero then xO (text_binary rest) else xI (text_binary rest)
  end.

Definition sample_encode (l : list (list (string * string * string))) : string := binary_text (encode l).
Definition sample_decode (s : string) : option (list (list (string * string * string))) :=
  decode (text_binary s).

Lemma sample_transport l : sample_decode (sample_encode l) = Some l.
Proof.
  unfold sample_decode, sample_encode. rewrite <- (decode_encode l). f_equal.
  induction (encode l) as [p IH|p IH|]; simpl; [by rewrite IH..|done].
Qed.

Lemma predicate_provenance_roundtrip_witness :
  let f := mkFormula [[mkConstraint "pkg.f|v" "lt" "3"; mkConstraint "pkg.f|u" "eq" "<nil>"]] false in
  let g := outcome (cfgSSAFormulaFromPredicateProvenanceWithControl sample_decode
                      (encodeCFGSSAPredicateFormula sample_encode f)) in
  unsupported g = false /\ formula_holds (fun _ => VInt 2) g = formula_holds (fun _ => VInt 2) f.
Proof.
  apply (predicate_provenance_roundtrip sample_decode sample_encode).
  - apply sample_transport.
  - reflexivity.
  - repeat constructor.
Defined.
