(* ===== verification/Supergraph.v ===== *)
(** * The interprocedural supergraph

    The graph of [goplint/cfa_interproc_graph.go]: node identities and their keys,
    edges, the operations that build the graph and the ordered outgoing edges the
    tabulation walks; call events of [goplint/cfa_call_events.go]; and the fact
    keys of [goplint/cfa_ifds_domain.go]. *)

From S2P Require Export EdgeFunc.
Local Open Scope Z_scope.

(** ** Nodes and edges *)
Abbreviation interprocNodeKind := string.
Definition interprocNodeKindCFG : interprocNodeKind := "cfg-node".
Definition interprocNodeKindCall : interprocNodeKind := "call-site".
Definition interprocNodeKindReturn : interprocNodeKind := "return-site".
Definition interprocNodeKindExit : interprocNodeKind := "function-exit".

Record interprocNodeID := mkNode {
  FuncKey : string;
  BlockIndex : Z;
  NodeIndex : Z;
  CallOrdinal : Z;
  NKind : interprocNodeKind;
}.

#[export] Instance interprocNodeID_eq_dec : EqDecision interprocNodeID.
Proof. solve_decision. Defined.

Definition noNode : interprocNodeID := mkNode "" 0 0 0 "".

(** [id.Key()]. *)
Definition NodeKey (id : interprocNodeID) : string :=
  FuncKey id +:+ "|" +:+ NKind id +:+ "|" +:+ itoa (BlockIndex id) +:+ "|" +:+ itoa (NodeIndex id)
  +:+ "|" +:+ itoa (CallOrdinal id).

Abbreviation interprocEdgeKind := string.
Definition interprocEdgeIntra : interprocEdgeKind := "intra".
Definition interprocEdgeCall : interprocEdgeKind := "call".
Definition interprocEdgeReturn : interprocEdgeKind := "return".
Definition interprocEdgeCallToReturn : interprocEdgeKind := "call-to-return".

Record interprocEdge := mkEdge {
  From : interprocNodeID;
  To : interprocNodeID;
  EKind : interprocEdgeKind;
  CallSite : string;
  EReason : pathOutcomeReason;
  PredicateProvenance : list string;
}.

#[export] Instance interprocEdge_eq_dec : EqDecision interprocEdge.
Proof. solve_decision. Defined.

(** ** Call events *)
Record protocolCallSiteID := mkCallSiteID {
  Procedure : string;
  Position : Z;
  CBlockIndex : Z;
  InstructionIndex : Z;
  CPhase : string;
}.

Definition CallSiteKey (id : protocolCallSiteID) : string :=
  Procedure id +:+ "@" +:+ itoa (Position id) +:+ "|" +:+ itoa (CBlockIndex id) +:+ "|"
  +:+ itoa (InstructionIndex id) +:+ "|" +:+ CPhase id.

(** Pointers are addresses, nil is [None]. *)
Record protocolCallEvent := mkCallEvent {
  ID : protocolCallSiteID;
  Call : option Z;
  Instruction : option Z;
  Caller : option Z;
  Callee : option Z;
  Phase : string;
  Mapped : bool;
  Builtin : string;
}.

(** ** The graph *)
Record interprocSupergraph := mkGraph {
  graphNodes : gmap string interprocNodeID;
  NodeAST : gmap string Z;
  CallEvents : gmap string protocolCallEvent;
  graphEdges : list interprocEdge;
  terminalCFGNodes : gmap string bool;
  functionExitNodes : gmap string bool;
  nonReturningNodes : gmap string bool;
  nonReturningFunctions : gmap string bool;
}.

Definition newInterprocSupergraph : interprocSupergraph := mkGraph ∅ ∅ ∅ [] ∅ ∅ ∅ ∅.

Definition addNode (graph : interprocSupergraph) (id : interprocNodeID) (node : option Z)
    : interprocSupergraph :=
  let key := NodeKey id in
  mkGraph (<[key := id]> (graphNodes graph))
    match node with Some p => <[key := p]> (NodeAST graph) | None => NodeAST graph end
    (CallEvents graph) (graphEdges graph) (terminalCFGNodes graph) (functionExitNodes graph)
    (nonReturningNodes graph) (nonReturningFunctions graph).

Definition addCallNode (graph : interprocSupergraph) (id : interprocNodeID) (event : protocolCallEvent)
    : interprocSupergraph :=
  let graph := addNode graph id (Call event) in
  mkGraph (graphNodes graph) (NodeAST graph) (<[NodeKey id := event]> (CallEvents graph)) (graphEdges graph)
    (terminalCFGNodes graph) (functionExitNodes graph) (nonReturningNodes graph)
    (nonReturningFunctions graph).

Definition addEdge (graph : interprocSupergraph) (edge : interprocEdge) : interprocSupergraph :=
  let graph := addNode graph (From edge) None in
  let graph := addNode graph (To edge) None in
  mkGraph (graphNodes graph) (NodeAST graph) (CallEvents graph) (graphEdges graph ++ [edge])
    (terminalCFGNodes graph) (functionExitNodes graph) (nonReturningNodes graph)
    (nonReturningFunctions graph).

(** ** Outgoing edges *)
Definition edgeSortKey (edge : interprocEdge) : string :=
  EKind edge +:+ "|" +:+ CallSite edge +:+ "|" +:+ NodeKey (To edge) +:+ "|" +:+ EReason edge
  +:+ "|" +:+ strings_Join (PredicateProvenance edge) ",".

Definition edge_le (a b : interprocEdge) : Prop := String.le (edgeSortKey a) (edgeSortKey b).
#[export] Instance edge_le_dec : RelDecision edge_le.
Proof. intros a b. unfold edge_le. apply _. Defined.
#[export] Instance edge_le_total : Total edge_le.
Proof. intros a b. unfold edge_le. apply (total String.le). Qed.

Fixpoint filterOutgoing (control : Control) (key : string) (edges out : list interprocEdge)
    : polled (list interprocEdge * bool) :=
  match edges with
  | [] => mret (out, false)
  | edge :: rest =>
      checkpoint control []
        (filterOutgoing control key rest
           (if String.eqb (NodeKey (From edge)) key then out ++ [edge] else out))
  end.

Definition outgoingWithControl (graph : interprocSupergraph) (from : interprocNodeID) (control : Control)
    : polled (list interprocEdge * bool) :=
  checkpoint control []
    match graphEdges graph with
    | [] => mret ([], false)
    | edges =>
        unless_expired (filterOutgoing control (NodeKey from) edges []) []
          (fun out => finish control (merge_sort edge_le out))
    end.

Definition outgoing (graph : interprocSupergraph) (from : interprocNodeID) : list interprocEdge :=
  fst (fst (outgoingWithControl graph from None 0%nat)).

(** ** Lookups *)
Definition astNode (graph : interprocSupergraph) (id : interprocNodeID) : option Z :=
  NodeAST graph !! NodeKey id.
Definition callEvent (graph : interprocSupergraph) (id : interprocNodeID) : option protocolCallEvent :=
  CallEvents graph !! NodeKey id.
Definition flag (m : gmap string bool) (key : string) : bool := default false (m !! key).
Definition isTerminalCFGNode (graph : interprocSupergraph) (id : interprocNodeID) : bool :=
  flag (terminalCFGNodes graph) (NodeKey id).
Definition isFunctionExitNode (graph : interprocSupergraph) (id : interprocNodeID) : bool :=
  flag (functionExitNodes graph) (NodeKey id).
Definition isNonReturningNode (graph : interprocSupergraph) (id : interprocNodeID) : bool :=
  flag (nonReturningNodes graph) (NodeKey id).

(** One step of the loop over the node map, and the loop in the order the map
    happens to be ranged over. *)
Definition firstStep (first : option interprocNodeID) (node : interprocNodeID) : option interprocNodeID :=
  if negb (String.eqb (NKind node) interprocNodeKindCFG) then first
  else match first with
       | None => Some node
       | Some f => if str_leb (NodeKey f) (NodeKey node) then first else Some node
       end.

Definition firstCFGNode (order : list interprocNodeID) : option interprocNodeID :=
  fold_left firstStep order None.

(** ** Fact families and keys *)
Abbreviation ifdsFactFamily := string.
Definition ifdsFactFamilyZero : ifdsFactFamily := "zero".
Definition ifdsFactFamilyCastNeedsValidate : ifdsFactFamily := "cast-needs-validate".
Definition ifdsFactFamilyUBVNeedsValidateBefore : ifdsFactFamily := "ubv-needs-validate-before-use".
Definition ifdsFactFamilyCtorReturnNeedsValidate : ifdsFactFamily := "ctor-return-needs-validate".

(** * Facts *)

(** ** Node keys identify nodes *)

(** Node kinds are the four constants, none of which has a bar. *)
Lemma node_key_inj a b :
  bar_free (NKind a) -> bar_free (NKind b) -> NodeKey a = NodeKey b -> a = b.
Proof.
  destruct a as [fa ba na ca ka], b as [fb bb nb cb kb]. unfold NodeKey. cbn [FuncKey NKind BlockIndex NodeIndex CallOrdinal].
  intros Ha Hb.
  rewrite !bar_sep. intros H.
  assert (forall f k b n c : string, f +:+ String bar (k +:+ String bar (b +:+ String bar (n +:+ String bar c)))
    = (((f +:+ String bar k) +:+ String bar b) +:+ String bar n) +:+ String bar c) as Hassoc.
  { intros. repeat (rewrite ?string_app_assoc, ?string_app_cons). done. }
  rewrite !Hassoc in H.
  apply sep_inj_r in H as [H Hc]; [|apply itoa_bar_free..].
  apply sep_inj_r in H as [H Hn]; [|apply itoa_bar_free..].
  apply sep_inj_r in H as [H Hbi]; [|apply itoa_bar_free..].
  apply sep_inj_r in H as [-> ->]; [|done..].
  apply itoa_inj in Hc as ->. apply itoa_inj in Hn as ->. by apply itoa_inj in Hbi as ->.
Qed.

(** ** Building the graph *)

(** Every stored node is under its key, and edges connect stored nodes. *)
Record wf_graph (graph : interprocSupergraph) : Prop := {
  wg_keys : forall key id, graphNodes graph !! key = Some id -> NodeKey id = key;
  wg_edges : forall edge, edge ∈ graphEdges graph ->
    is_Some (graphNodes graph !! NodeKey (From edge)) /\ is_Some (graphNodes graph !! NodeKey (To edge));
  wg_events : forall key, is_Some (CallEvents graph !! key) -> is_Some (graphNodes graph !! key);
}.

Lemma wf_newGraph : wf_graph newInterprocSupergraph.
Proof.
  split; cbn.
  - intros key id. by rewrite lookup_empty.
  - by intros edge ?%elem_of_nil.
  - intros key. rewrite lookup_empty. by intros [? [=]].
Qed.

Lemma lookup_insert_some {A} (m : gmap string A) i j x :
  is_Some (m !! j) -> is_Some (<[i := x]> m !! j).
Proof. intros H. rewrite lookup_insert. by case_decide; [eexists|]. Qed.

Lemma lookup_insert_here {A} (m : gmap string A) i x : is_Some (<[i := x]> m !! i).
Proof. rewrite lookup_insert_eq. by eexists. Qed.
#[export] Hint Resolve lookup_insert_some lookup_insert_here : goplint.

Lemma wf_addNode graph id node : wf_graph graph -> wf_graph (addNode graph id node).
Proof.
  intros [Hk He Hv]. split; cbn.
  - intros key x. rewrite lookup_insert_Some. intros [[<- <-]|[_ ?]]; auto.
  - intros edge Hin. destruct (He _ Hin). auto with goplint.
  - intros key Hs. auto with goplint.
Qed.

Lemma wf_addCallNode graph id event : wf_graph graph -> wf_graph (addCallNode graph id event).
Proof.
  intros H. apply (wf_addNode _ id (Call event)) in H as [Hk He Hv]. split; cbn in *; try done.
  intros key. rewrite lookup_insert. case_decide as E; [|auto]. subst. auto with goplint.
Qed.

Lemma wf_addEdge graph edge : wf_graph graph -> wf_graph (addEdge graph edge).
Proof.
  intros H. apply (wf_addNode _ (From edge) None), (wf_addNode _ (To edge) None) in H as [Hk He Hv].
  split; cbn in *; try done.
  intros e [Hin| ->%list_elem_of_singleton]%elem_of_app; [auto|]. auto with goplint.
Qed.

(** ** Outgoing edges *)
Lemma filterOutgoing_transparent key edges : forall out,
  transparent (fun c => filterOutgoing c key edges out).
Proof. induction edges as [|e edges IH]; intros out; simpl; transparency; auto. Qed.

Lemma outgoing_transparent graph from : transparent (outgoingWithControl graph from).
Proof.
  unfold outgoingWithControl. transparency; auto using filterOutgoing_transparent.
Qed.

Lemma filterOutgoing_honest key edges : forall out, honest (fun c => filterOutgoing c key edges out).
Proof. induction edges as [|e edges IH]; intros out; simpl; honesty; auto. Qed.

Lemma outgoing_honest graph from : honest (outgoingWithControl graph from).
Proof. unfold outgoingWithControl. honesty; auto using filterOutgoing_honest. Qed.
#[export] Hint Resolve outgoing_transparent outgoing_honest : goplint.

Lemma filterOutgoing_outcome key edges : forall out,
  outcome (fun c => filterOutgoing c key edges out) =
  out ++ filter (fun e => NodeKey (From e) = key) edges.
Proof.
  induction edges as [|e edges IH]; intros out; [by rewrite app_nil_r|].
  cbn [filterOutgoing]. outcome_step. rewrite IH, filter_cons.
  destruct (String.eqb_spec (NodeKey (From e)) key) as [E|E]; [|by rewrite decide_False].
  by rewrite decide_True, <- app_assoc.
Qed.

Lemma outgoing_eq graph from :
  outgoing graph from = merge_sort edge_le (filter (fun e => NodeKey (From e) = NodeKey from) (graphEdges graph)).
Proof.
  change (outgoing graph from) with (outcome (outgoingWithControl graph from)).
  unfold outgoingWithControl. outcome_step.
  destruct (graphEdges graph) as [|e es]; [done|]. outcome_step; [|apply filterOutgoing_transparent].
  by rewrite filterOutgoing_outcome.
Qed.

Lemma elem_of_outgoing graph from edge :
  edge ∈ outgoing graph from <-> edge ∈ graphEdges graph /\ NodeKey (From edge) = NodeKey from.
Proof. rewrite outgoing_eq, merge_sort_Permutation, list_elem_of_filter. apply and_comm. Qed.

(** ** Graph construction as a sequence of operations *)
Inductive graphOp :=
| OpNode (id : interprocNodeID) (node : option Z)
| OpCallNode (id : interprocNodeID) (event : protocolCallEvent)
| OpEdge (edge : interprocEdge).

Definition graphStep (graph : interprocSupergraph) (o : graphOp) : interprocSupergraph :=
  match o with
  | OpNode id node => addNode graph id node
  | OpCallNode id event => addCallNode graph id event
  | OpEdge edge => addEdge graph edge
  end.

Definition buildGraph (ops : list graphOp) : interprocSupergraph :=
  fold_left graphStep ops newInterprocSupergraph.

Definition opNodes (o : graphOp) : list interprocNodeID :=
  match o with
  | OpNode id _ | OpCallNode id _ => [id]
  | OpEdge edge => [From edge; To edge]
  end.

Definition opEdges (o : graphOp) : list interprocEdge :=
  match o with OpEdge edge => [edge] | _ => [] end.

Lemma graphStep_wf graph o : wf_graph graph -> wf_graph (graphStep graph o).
Proof. destruct o; simpl; auto using wf_addNode, wf_addCallNode, wf_addEdge. Qed.

Lemma graphStep_edges graph o : graphEdges (graphStep graph o) = graphEdges graph ++ opEdges o.
Proof. destruct o; simpl; by rewrite ?app_nil_r. Qed.

Lemma lookup_insert_iff {A} (m : gmap string A) i j x :
  is_Some (<[i := x]> m !! j) <-> j = i \/ is_Some (m !! j).
Proof.
  rewrite lookup_insert_is_Some. destruct (decide (i = j)) as [->|Hne]; [tauto|].
  split; [tauto|]. intros [->|?]; [done|auto].
Qed.

Lemma graphStep_nodes graph o key :
  is_Some (graphNodes (graphStep graph o) !! key) <->
  is_Some (graphNodes graph !! key) \/ key ∈ NodeKey <$> opNodes o.
Proof.
  destruct o; simpl; rewrite ?lookup_insert_iff, ?elem_of_cons, ?elem_of_nil; tauto.
Qed.

Lemma fold_graph ops : forall graph,
  wf_graph graph ->
  wf_graph (fold_left graphStep ops graph) /\
  graphEdges (fold_left graphStep ops graph) = graphEdges graph ++ (ops ≫= opEdges) /\
  (forall key, is_Some (graphNodes (fold_left graphStep ops graph) !! key) <->
     is_Some (graphNodes graph !! key) \/ key ∈ NodeKey <$> (ops ≫= opNodes)).
Proof.
  induction ops as [|o ops IH]; intros graph Hwf; cbn [fold_left mbind list_bind].
  - split_and!; [done|by rewrite app_nil_r|]. intros key. rewrite fmap_nil, elem_of_nil. tauto.
  - destruct (IH (graphStep graph o)) as (H1 & H2 & H3); [by apply graphStep_wf|].
    split_and!; [done| |].
    + rewrite H2, graphStep_edges, <- app_assoc. done.
    + intros key. rewrite H3, graphStep_nodes, fmap_app, elem_of_app. tauto.
Qed.

(** Graphs are built soundly: after any sequence of node, call node and edge
    insertions the graph stores every node under its own key, holds exactly the
    nodes and edges that were inserted, and every edge connects stored nodes. *)
Theorem graph_construction ops :
  let graph := buildGraph ops in
  wf_graph graph /\ graphEdges graph = (ops ≫= opEdges) /\
  forall key, is_Some (graphNodes graph !! key) <-> key ∈ NodeKey <$> (ops ≫= opNodes).
Proof.
  destruct (fold_graph ops newInterprocSupergraph wf_newGraph) as (H1 & H2 & H3).
  split_and!; [done|done|]. intros key. unfold buildGraph. rewrite H3. cbn. rewrite lookup_empty.
  split; [by intros [[? [=]]|?]|by right].
Qed.

(** The outgoing edges of a node are exactly the edges of the graph that leave
    it, in the order of their sort keys, whatever the control polls while it does
    not expire: keys never merge two nodes whose kinds have no bar. *)
Theorem outgoing_exact graph from control clk out clk' :
  Forall (fun edge => bar_free (NKind (From edge))) (graphEdges graph) -> bar_free (NKind from) ->
  outgoingWithControl graph from control clk = ((out, false), clk') ->
  Sorted edge_le out /\ forall edge, edge ∈ out <-> edge ∈ graphEdges graph /\ From edge = from.
Proof.
  intros Hall Hfrom Hrun.
  apply (transparent_run (outgoingWithControl graph from)) in Hrun; [|auto with goplint].
  change (outcome (outgoingWithControl graph from)) with (outgoing graph from) in Hrun. subst out. split.
  - rewrite outgoing_eq. apply Sorted_merge_sort. apply _.
  - intros edge. rewrite elem_of_outgoing. split.
    + intros [Hin Hk]. split; [done|]. apply node_key_inj; [|done|done].
      rewrite Forall_forall in Hall. by apply Hall.
    + by intros [? ->].
Qed.

Definition nodeA : interprocNodeID := mkNode "pkg.F|x" 0 0 0 interprocNodeKindCFG.
Definition nodeB : interprocNodeID := mkNode "pkg.F|x" 0 1 0 interprocNodeKindCFG.
Definition nodeC : interprocNodeID := mkNode "pkg.F|x" 1 0 0 interprocNodeKindCFG.
Definition sample_graph : interprocSupergraph :=
  buildGraph [OpNode nodeA None; OpEdge (mkEdge nodeA nodeC interprocEdgeIntra "" "" ["p"]);
              OpEdge (mkEdge nodeB nodeC interprocEdgeIntra "" "" []);
              OpEdge (mkEdge nodeA nodeB interprocEdgeIntra "" "" [])].

Lemma outgoing_exact_witness :
  let out := [mkEdge nodeA nodeB interprocEdgeIntra "" "" []; mkEdge nodeA nodeC interprocEdgeIntra "" "" ["p"]] in
  outgoingWithControl sample_graph nodeA (Some (fun n => (9 <? n)%nat)) 0%nat = ((out, false), 5%nat) /\
  Sorted edge_le out.
Proof.
  assert (outgoingWithControl sample_graph nodeA (Some (fun n => (9 <? n)%nat)) 0%nat =
    (([mkEdge nodeA nodeB interprocEdgeIntra "" "" []; mkEdge nodeA nodeC interprocEdgeIntra "" "" ["p"]],
      false), 5%nat)) as H by (vm_compute; reflexivity).
  split; [exact H|].
  apply (outgoing_exact sample_graph nodeA _ _ _ _) in H as [Hs _]; [exact Hs| |reflexivity].
  repeat constructor.
Defined.

(** The first node, in any order of the map. *)
Lemma firstCFGNode_spec order : forall acc,
  (forall n, acc = Some n -> NKind n = interprocNodeKindCFG) ->
  match fold_left firstStep order acc with
  | Some n => (n ∈ order \/ acc = Some n) /\ NKind n = interprocNodeKindCFG /\
      (forall m, m ∈ order \/ acc = Some m -> NKind m = interprocNodeKindCFG ->
         String.le (NodeKey n) (NodeKey m))
  | None => acc = None /\ forall m, m ∈ order -> NKind m <> interprocNodeKindCFG
  end.
Proof.
  induction order as [|x order IH]; intros acc Hacc; cbn [fold_left].
  - destruct acc as [n|]; [|by split; [|intros m ?%elem_of_nil]].
    split_and!; [by right|by apply Hacc|]. intros m [?%elem_of_nil|[= ->]] _; [done|].
    apply str_leb_le. unfold str_leb. by destruct (String.leb_total (NodeKey m) (NodeKey m)).
  - specialize (IH (firstStep acc x)).
    assert (forall n, firstStep acc x = Some n -> n = x \/ acc = Some n) as Hcase.
    { intros n. unfold firstStep. destruct (negb _); [by right|].
      destruct acc; [destruct (str_leb _ _)|]; intros [= ->]; auto. }
    assert (forall n, firstStep acc x = Some n -> NKind n = interprocNodeKindCFG) as Hkind.
    { intros n. unfold firstStep. destruct (String.eqb_spec (NKind x) interprocNodeKindCFG) as [E|E]; cbn;
        [|apply Hacc]. destruct acc as [f|]; [|by intros [= <-]].
      destruct (str_leb _ _); [apply Hacc|by intros [= <-]]. }
    specialize (IH Hkind).
    assert (forall m, m = x \/ acc = Some m -> NKind m = interprocNodeKindCFG ->
      exists n, firstStep acc x = Some n /\ String.le (NodeKey n) (NodeKey m)) as Hmin.
    { assert (forall n, String.le (NodeKey n) (NodeKey n)) as Hrefl.
      { intros n. destruct (total String.le (NodeKey n) (NodeKey n)); done. }
      intros m Hm Hk. unfold firstStep. destruct (String.eqb_spec (NKind x) interprocNodeKindCFG) as [E|E]; cbn.
      - destruct acc as [f|]; [|destruct Hm as [->|[=]]; by exists x].
        destruct (str_leb (NodeKey f) (NodeKey x)) eqn:El.
        + exists f. split; [done|]. destruct Hm as [->|[= ->]]; [by apply str_leb_le|done].
        + exists x. split; [done|]. destruct Hm as [->|[= ->]]; [done|].
          apply str_leb_le. unfold str_leb in *. destruct (String.leb_total (NodeKey x) (NodeKey m)); congruence.
      - destruct Hm as [->|Hm]; [done|]. by exists m. }
    destruct (fold_left firstStep order (firstStep acc x)) as [n|].
    + destruct IH as (Hin & Hk & Hle). split_and!; [|done|].
      * destruct Hin as [?|Hin]; [left; by right|]. apply Hcase in Hin as [->|?]; [left; left|by right].
      * assert (forall m, m = x \/ acc = Some m -> NKind m = interprocNodeKindCFG ->
          String.le (NodeKey n) (NodeKey m)) as Hfirst.
        { intros m Hm Hkm. destruct (Hmin m Hm Hkm) as (n' & Hn' & Hle').
          transitivity (NodeKey n'); [|done]. apply Hle; auto. }
        intros m [[Hm|Hm]%elem_of_cons|Hm] Hkm; auto.
    + destruct IH as [Hnone Hall]. split.
      * destruct acc as [f|]; [|done]. destruct (Hmin f) as (n & Hn & _); auto. congruence.
      * intros m [->|Hm]%elem_of_cons; [|by apply Hall]. intros Hkx.
        destruct (Hmin x) as (n & Hn & _); auto. congruence.
Qed.

(** The start node does not depend on map iteration order: every order in which
    the node map can be ranged over yields the same first node. *)
Theorem first_node_deterministic order order' :
  order ≡ₚ order' -> firstCFGNode order = firstCFGNode order'.
Proof.
  intros Hp. unfold firstCFGNode.
  pose proof (firstCFGNode_spec order None ltac:(done)) as H1.
  pose proof (firstCFGNode_spec order' None ltac:(done)) as H2.
  destruct (fold_left firstStep order None) as [n|], (fold_left firstStep order' None) as [n'|].
  - destruct H1 as ([Hn|[=]] & Hk & Hmin), H2 as ([Hn'|[=]] & Hk' & Hmin'). f_equal.
    apply node_key_inj; [by rewrite Hk|by rewrite Hk'|].
    apply (anti_symm String.le).
    + apply Hmin; [left; by rewrite Hp|done].
    + apply Hmin'; [left; by rewrite <- Hp|done].
  - destruct H1 as ([Hn|[=]] & Hk & _), H2 as [_ H2]. rewrite Hp in Hn. by destruct (H2 n).
  - destruct H2 as ([Hn|[=]] & Hk & _), H1 as [_ H1]. rewrite <- Hp in Hn. by destruct (H1 n').
  - done.
Qed.

Lemma first_node_deterministic_witness :
  [nodeC; nodeB; nodeA] ≡ₚ [nodeA; nodeB; nodeC] /\ firstCFGNode [nodeC; nodeB; nodeA] = Some nodeA.
Proof.
  assert ([nodeC; nodeB; nodeA] ≡ₚ [nodeA; nodeB; nodeC]) as H by (apply (bool_decide_unpack _); vm_compute; done).
  split; [exact H|]. etransitivity; [exact (first_node_deterministic _ _ H)|]. vm_compute. reflexivity.
Defined.
