(* ===== verification/Witness.v ===== *)
(** * Witnesses

    [goplint/cfa_witness_contribution.go] with the result and record types of
    [goplint/cfa_interproc_result.go] and [goplint/cfa_feasibility.go]: qualified
    witness edges, the canonical order and the subsumption that bound how many
    witnesses are retained, and the replay that a witness must pass before it can
    be refined. *)

From S2P Require Export Supergraph Feasibility.
Local Open Scope Z_scope.

(** ** Witness edges *)
Record interprocWitnessEdge := mkWitnessEdge {
  WFrom : interprocNodeID;
  WTo : interprocNodeID;
  WKind : interprocEdgeKind;
  WCallSite : string;
  WFactFamily : ifdsFactFamily;
  WFactKey : string;
  StateBefore : protocolAbstractState;
  StateAfter : protocolAbstractState;
  WEdgeFunctionTag : ideEdgeFuncTag;
  EdgeReason : pathOutcomeReason;
  WPredicateProvenance : list string;
}.

#[export] Instance interprocWitnessEdge_eq_dec : EqDecision interprocWitnessEdge.
Proof. solve_decision. Defined.

Definition witnessEdgeKey (edge : interprocWitnessEdge) : string :=
  strings_Join
    ["from=" +:+ NodeKey (WFrom edge);
     "to=" +:+ NodeKey (WTo edge);
     "kind=" +:+ WKind edge;
     "call-site=" +:+ WCallSite edge;
     "fact-family=" +:+ WFactFamily edge;
     "fact-key=" +:+ WFactKey edge;
     "state-before=" +:+ state_key (StateBefore edge);
     "state-after=" +:+ state_key (StateAfter edge);
     "edge-function-tag=" +:+ WEdgeFunctionTag edge;
     "edge-reason=" +:+ EdgeReason edge;
     "predicates=" +:+ strings_Join (WPredicateProvenance edge) ","] "|".

Definition appendInterprocWitnessEdge (witness : list interprocWitnessEdge) (edge : interprocEdge)
    (stateBefore stateAfter : protocolAbstractState) (edgeFunctionTag : ideEdgeFuncTag)
    : list interprocWitnessEdge :=
  witness ++ [mkWitnessEdge (From edge) (To edge) (EKind edge) (CallSite edge) "" ""
                stateBefore stateAfter edgeFunctionTag (EReason edge) (PredicateProvenance edge)].

Definition mergeInterprocWitnessEdges (parts : list (list interprocWitnessEdge))
    : list interprocWitnessEdge := concat parts.

Definition qualifyInterprocWitnessFact (witness : list interprocWitnessEdge) (family : ifdsFactFamily)
    (key : string) : list interprocWitnessEdge :=
  map (fun e => mkWitnessEdge (WFrom e) (WTo e) (WKind e) (WCallSite e) family key (StateBefore e)
         (StateAfter e) (WEdgeFunctionTag e) (EdgeReason e) (WPredicateProvenance e)) witness.

Definition newline : string := String (Ascii.Ascii false true false true false false false false) EmptyString.

Definition interprocWitnessIdentity (witness : list interprocWitnessEdge) : string :=
  match witness with
  | [] => "root"
  | _ => strings_Join (map witnessEdgeKey witness) newline
  end.

(** ** Canonical order: [cmp.Compare] and lexicographic combinations *)
Definition compare_int (a b : Z) : Z := match a ?= b with Lt => -1 | Eq => 0 | Gt => 1 end.
Definition compare_string (a b : string) : Z :=
  match String.compare a b with Lt => -1 | Eq => 0 | Gt => 1 end.

(** The loop over the comparisons. *)
Fixpoint firstNonZero (comparisons : list Z) : Z :=
  match comparisons with
  | [] => 0
  | comparison :: rest => if comparison =? 0 then firstNonZero rest else comparison
  end.

(** [slices.Compare]. *)
Fixpoint compare_list {A} (f : A -> A -> Z) (l r : list A) : Z :=
  match l, r with
  | [], [] => 0
  | [], _ :: _ => -1
  | _ :: _, [] => 1
  | a :: l', b :: r' => if f a b =? 0 then compare_list f l' r' else f a b
  end.

Definition compareInterprocNodeID (a b : interprocNodeID) : Z :=
  firstNonZero
    [compare_string (FuncKey a) (FuncKey b);
     compare_string (NKind a) (NKind b);
     compare_int (BlockIndex a) (BlockIndex b);
     compare_int (NodeIndex a) (NodeIndex b);
     compare_int (CallOrdinal a) (CallOrdinal b)].

Definition compareProtocolAbstractState (a b : protocolAbstractState) : Z :=
  firstNonZero
    [compare_int (Validation a) (Validation b);
     compare_int (Hazards a) (Hazards b);
     compare_int (Uncertainty a) (Uncertainty b);
     compare_int (Result a) (Result b);
     compare_int (DeferredError a) (DeferredError b);
     compare_int (Identity a) (Identity b);
     compare_int (PossibleEffects a) (PossibleEffects b)].

Definition compareInterprocWitnessEdge (a b : interprocWitnessEdge) : Z :=
  firstNonZero
    [compareInterprocNodeID (WFrom a) (WFrom b);
     compareInterprocNodeID (WTo a) (WTo b);
     compare_string (WKind a) (WKind b);
     compare_string (WCallSite a) (WCallSite b);
     compare_string (WFactFamily a) (WFactFamily b);
     compare_string (WFactKey a) (WFactKey b);
     compareProtocolAbstractState (StateBefore a) (StateBefore b);
     compareProtocolAbstractState (StateAfter a) (StateAfter b);
     compare_string (WEdgeFunctionTag a) (WEdgeFunctionTag b);
     compare_string (EdgeReason a) (EdgeReason b);
     compare_list compare_string (WPredicateProvenance a) (WPredicateProvenance b)].

(** The loop over the common prefix, then the lengths. *)
Fixpoint compareInterprocWitnessEdges (a b : list interprocWitnessEdge) : Z :=
  match a, b with
  | x :: a', y :: b' =>
      let comparison := compareInterprocWitnessEdge x y in
      if negb (comparison =? 0) then comparison else compareInterprocWitnessEdges a' b'
  | _, _ => compare_int (zlen a) (zlen b)
  end.

(** ** Subsumption *)
Definition interprocWitnessPredicates (witness : list interprocWitnessEdge) : gset string :=
  list_to_set (witness ≫= WPredicateProvenance).

Definition interprocWitnessSubsumes (retained candidate : list interprocWitnessEdge) : bool :=
  if zlen candidate <? zlen retained then false
  else bool_decide (interprocWitnessPredicates retained ⊆ interprocWitnessPredicates candidate).

(** ** Results *)
Abbreviation interprocOutcomeClass := string.
Definition interprocOutcomeSafe : interprocOutcomeClass := "safe".
Definition interprocOutcomeUnsafe : interprocOutcomeClass := "unsafe".
Definition interprocOutcomeInconclusive : interprocOutcomeClass := "inconclusive".

Record interprocTabulationStats := mkStats {
  PathEdges : Z;
  Dependencies : Z;
  Summaries : Z;
  SummaryReuses : Z;
}.

Record ssaAvailability := mkAvailability { Status : string; Detail : string }.

Record cfgWitnessRecord := mkWitnessRecord {
  RCategory : string;
  RFindingID : string;
  ROriginAnchors : gmap string string;
  RFactFamily : string;
  RFactKey : string;
  REdgeTag : string;
  RFactOriginPath : list Z;
  RCFGPath : list Z;
  RWitnessEdges : list interprocWitnessEdge;
  RWitnessTerminal : interprocNodeID;
  RCallChain : list string;
  RTriggerReason : string;
  RWitnessHash : string;
}.

Definition noWitnessRecord : cfgWitnessRecord :=
  mkWitnessRecord "" "" ∅ "" "" "" [] [] [] noNode [] "" "".

Record cfgProtocolRefinementResult := mkRefinementResult {
  REnabled : bool;
  FeasibilityEngine : string;
  FeasibilityResult : string;
  FeasibilityReason : string;
  RefinementStatus : string;
  RefinementIterations : Z;
  RefinementTrigger : string;
  RefinementWitnessHash : string;
  SSASubjects : list string;
  REvidence : cfgSSAConstraintEvidence;
  REvidenceDigest : string;
}.

Definition noRefinement : cfgProtocolRefinementResult :=
  mkRefinementResult false "" "" "" "" 0 "" "" [] noEvidence "".

Record interprocPathResult := mkResult {
  Class : interprocOutcomeClass;
  Reason : pathOutcomeReason;
  RWitness : list Z;
  WitnessEdges : list interprocWitnessEdge;
  WitnessTerminal : interprocNodeID;
  WitnessHash : string;
  FactFamily : ifdsFactFamily;
  FactKey : string;
  EdgeFunctionTag : ideEdgeFuncTag;
  WitnessRecord : cfgWitnessRecord;
  Refinement : cfgProtocolRefinementResult;
  SSAAvailability : ssaAvailability;
  Tabulation : interprocTabulationStats;
  witnessGraph : option interprocSupergraph;
}.

(** ** Replay *)
Definition replayMissingNode : string := "missing-node".
Definition replayNonEdge : string := "non-edge".
Definition replayDisconnected : string := "disconnected-transition".
Definition replayCrossProcedure : string := "cross-procedure-transition".
Definition replayUnmatchedReturn : string := "unmatched-return".
Definition replayChangedFact : string := "changed-fact".
Definition replayChangedState : string := "changed-state".
Definition replayInvalidState : string := "invalid-state".
Definition replayInvalidEdgeKind : string := "invalid-edge-kind".
Definition replayMissingCallSite : string := "missing-call-site".

Definition interprocWitnessNodeExists (graph : interprocSupergraph) (node : interprocNodeID) : bool :=
  bool_decide (graphNodes graph !! NodeKey node = Some node).

Definition sameGraphEdge (edge : interprocEdge) (w : interprocWitnessEdge) : bool :=
  bool_decide (From edge = WFrom w) && bool_decide (To edge = WTo w) &&
  String.eqb (EKind edge) (WKind w) && String.eqb (CallSite edge) (WCallSite w) &&
  String.eqb (EReason edge) (EdgeReason w) &&
  bool_decide (PredicateProvenance edge = WPredicateProvenance w).

Definition interprocWitnessGraphHasEdge (graph : interprocSupergraph) (w : interprocWitnessEdge) : bool :=
  existsb (fun edge => sameGraphEdge edge w) (graphEdges graph).

Record callFrame := mkFrame { callSite : string; caller : string; callee : string }.

(** The switch on the edge kind: an error, or the new call stack (top first). *)
Definition replayKind (w : interprocWitnessEdge) (callStack : list callFrame)
    : string + list callFrame :=
  if String.eqb (WKind w) interprocEdgeIntra then
    if negb (String.eqb (FuncKey (WFrom w)) (FuncKey (WTo w))) then inl replayCrossProcedure
    else if negb (String.eqb (WCallSite w) "") then inl replayMissingCallSite
    else inr callStack
  else if String.eqb (WKind w) interprocEdgeCallToReturn then
    if negb (String.eqb (FuncKey (WFrom w)) (FuncKey (WTo w))) then inl replayCrossProcedure
    else if String.eqb (WCallSite w) "" then inl replayMissingCallSite
    else inr callStack
  else if String.eqb (WKind w) interprocEdgeCall then
    if String.eqb (WCallSite w) "" then inl replayMissingCallSite
    else inr (mkFrame (WCallSite w) (FuncKey (WFrom w)) (FuncKey (WTo w)) :: callStack)
  else if String.eqb (WKind w) interprocEdgeReturn then
    if String.eqb (WCallSite w) "" then inl replayMissingCallSite
    else match callStack with
         | [] => inl replayUnmatchedReturn
         | frame :: rest =>
             if negb (String.eqb (callSite frame) (WCallSite w))
                || negb (String.eqb (callee frame) (FuncKey (WFrom w)))
                || negb (String.eqb (caller frame) (FuncKey (WTo w)))
             then inl replayUnmatchedReturn
             else inr rest
         end
  else inl replayInvalidEdgeKind.

Fixpoint replayLoop (graph : interprocSupergraph) (family : ifdsFactFamily) (key : string)
    (previous : option interprocWitnessEdge) (edges : list interprocWitnessEdge)
    (callStack : list callFrame) : string :=
  match edges with
  | [] => ""
  | w :: rest =>
      if negb (interprocWitnessNodeExists graph (WFrom w))
         || negb (interprocWitnessNodeExists graph (WTo w)) then replayMissingNode
      else if negb (String.eqb (WFactFamily w) family) || negb (String.eqb (WFactKey w) key)
      then replayChangedFact
      else if negb (valid (StateBefore w)) || negb (valid (StateAfter w)) then replayInvalidState
      else if negb (protocolWitnessTransferMatches
                      (Apply (newIDEEdgeFunc (WEdgeFunctionTag w)) (StateBefore w)) (StateAfter w))
      then replayChangedState
      else
        match match previous with
              | None => ""
              | Some p =>
                  if negb (bool_decide (WTo p = WFrom w)) then replayDisconnected
                  else if negb (bool_decide (StateAfter p = StateBefore w)) then replayChangedState
                  else ""
              end with
        | "" =>
            if negb (interprocWitnessGraphHasEdge graph w) then replayNonEdge
            else match replayKind w callStack with
                 | inl rejection => rejection
                 | inr callStack' => replayLoop graph family key (Some w) rest callStack'
                 end
        | rejection => rejection
        end
  end.

Definition validateInterprocWitnessReplay (graph : interprocSupergraph) (result : interprocPathResult)
    : string :=
  if negb (String.eqb (FuncKey (WitnessTerminal result)) "")
     && negb (interprocWitnessNodeExists graph (WitnessTerminal result))
  then replayMissingNode
  else
    match last (WitnessEdges result) with
    | Some w =>
        if negb (String.eqb (FuncKey (WitnessTerminal result)) "")
           && negb (bool_decide (WTo w = WitnessTerminal result))
        then replayDisconnected
        else replayLoop graph (FactFamily result) (FactKey result) None (WitnessEdges result) []
    | None => replayLoop graph (FactFamily result) (FactKey result) None (WitnessEdges result) []
    end.

(** * Facts *)

(** ** Comparison functions

    What the canonical order promises its callers: antisymmetric, transitive and
    zero only on equal values.  The combinators preserve it. *)
Class TotalComparison {A : Type} (f : A -> A -> Z) := {
  tc_zero : forall a b, f a b = 0 <-> a = b;
  tc_antisym : forall a b, f b a = - f a b;
  tc_trans : forall a b c, f a b <= 0 -> f b c <= 0 -> f a c <= 0;
}.

Lemma compare_int_sgn a b : compare_int a b = Z.sgn (a - b).
Proof. unfold compare_int. destruct (Z.compare_spec a b); lia. Qed.

#[export] Instance compare_int_total : TotalComparison compare_int.
Proof. split; intros *; rewrite !compare_int_sgn; lia. Qed.

Lemma compare_string_le a b : compare_string a b <= 0 <-> String.le a b.
Proof.
  unfold compare_string, String.le, String.leb. destruct (String.compare a b); simpl; split; try done; lia.
Qed.

#[export] Instance compare_string_total : TotalComparison compare_string.
Proof.
  split.
  - intros a b. unfold compare_string. split.
    + intros H. apply String.compare_eq_iff. by destruct (String.compare a b).
    + intros ->. pose proof (String.compare_antisym b b) as H. by destruct (String.compare b b).
  - intros a b. unfold compare_string. rewrite (String.compare_antisym a b).
    by destruct (String.compare b a).
  - intros a b c. rewrite !compare_string_le. by intros ? ?; transitivity b.
Qed.

Section Lexicographic.
Context {A : Type}.

(** A weak comparison need not separate distinct values; a projection of a total
    one is weak. *)
Record weak_comparison (f : A -> A -> Z) : Prop := {
  wk_antisym : forall a b, f b a = - f a b;
  wk_trans : forall a b c, f a b <= 0 -> f b c <= 0 -> f a c <= 0;
}.

Lemma weak_pullback {B} (g : B -> B -> Z) `{!TotalComparison g} (p : A -> B) :
  weak_comparison (fun a b => g (p a) (p b)).
Proof. split; intros *; [apply tc_antisym|apply tc_trans]. Qed.

Lemma weak_zero_l f a b c : weak_comparison f -> f a b = 0 -> (f a c <= 0 <-> f b c <= 0).
Proof.
  intros [Ha Ht] H. split; intros Hc; (eapply Ht; [|exact Hc]); [rewrite Ha|]; lia.
Qed.

Lemma firstNonZero_antisym fs a b :
  Forall weak_comparison fs ->
  firstNonZero (map (fun f => f b a) fs) = - firstNonZero (map (fun f => f a b) fs).
Proof.
  induction 1 as [|f fs Hf Hfs IH]; [done|]. cbn [map firstNonZero].
  rewrite (wk_antisym _ Hf a b).
  destruct (Z.eqb_spec (- f a b) 0), (Z.eqb_spec (f a b) 0); try lia; done.
Qed.

Lemma firstNonZero_trans fs a b c :
  Forall weak_comparison fs ->
  firstNonZero (map (fun f => f a b) fs) <= 0 -> firstNonZero (map (fun f => f b c) fs) <= 0 ->
  firstNonZero (map (fun f => f a c) fs) <= 0.
Proof.
  induction 1 as [|f fs Hf Hfs IH]; [done|]. cbn [map firstNonZero].
  pose proof (wk_trans _ Hf a b c). pose proof (wk_trans _ Hf c a b). pose proof (wk_trans _ Hf b c a).
  rewrite (wk_antisym _ Hf a b), (wk_antisym _ Hf b c), (wk_antisym _ Hf a c) in *.
  destruct (Z.eqb_spec (f a b) 0), (Z.eqb_spec (f b c) 0), (Z.eqb_spec (f a c) 0); intros;
    try lia; auto.
Qed.

Lemma firstNonZero_zero fs (a b : A) :
  firstNonZero (map (fun f => f a b) fs) = 0 <-> Forall (fun f => f a b = 0) fs.
Proof.
  induction fs as [|f fs IH]; cbn [map firstNonZero]; [by split|].
  rewrite Forall_cons, <- IH. destruct (Z.eqb_spec (f a b) 0); [tauto|]. split; [done|tauto].
Qed.

(** Lexicographic comparison by projections that determine the value. *)
Lemma lexicographic_total (fs : list (A -> A -> Z)) (f : A -> A -> Z) :
  (forall a b, f a b = firstNonZero (map (fun g => g a b) fs)) ->
  Forall weak_comparison fs ->
  (forall a b, Forall (fun g => g a b = 0) fs <-> a = b) ->
  TotalComparison f.
Proof.
  intros Hf Hfs Heq. split.
  - intros a b. by rewrite Hf, firstNonZero_zero.
  - intros a b. rewrite !Hf. by apply firstNonZero_antisym.
  - intros a b c. rewrite !Hf. by apply firstNonZero_trans.
Qed.

#[export] Instance compare_list_total (g : A -> A -> Z) `{!TotalComparison g} :
  TotalComparison (compare_list g).
Proof.
  split.
  - induction a as [|x a IH]; intros [|y b]; cbn [compare_list]; try done.
    destruct (Z.eqb_spec (g x y) 0) as [E|E].
    + rewrite IH. apply tc_zero in E as ->. split; [by intros ->|by intros [= ->]].
    + split; [lia|]. intros [= -> ->]. destruct E. by apply tc_zero.
  - induction a as [|x a IH]; intros [|y b]; cbn [compare_list]; try done.
    rewrite (tc_antisym x y).
    destruct (Z.eqb_spec (g x y) 0), (Z.eqb_spec (- g x y) 0); try lia; auto.
  - induction a as [|x a IH]; intros [|y b] [|z c]; cbn [compare_list]; try done; try lia.
    pose proof (tc_trans (f := g) x y z). pose proof (tc_trans (f := g) z x y).
    pose proof (tc_trans (f := g) y z x).
    rewrite (tc_antisym (f := g) x y), (tc_antisym (f := g) y z), (tc_antisym (f := g) x z) in *.
    destruct (Z.eqb_spec (g x y) 0), (Z.eqb_spec (g y z) 0), (Z.eqb_spec (g x z) 0); intros;
      try lia; eauto.
Qed.
End Lexicographic.

Ltac solve_lexicographic :=
  match goal with
  | |- Forall weak_comparison _ => repeat constructor; intros *; try apply tc_antisym; apply tc_trans
  | |- forall a b, Forall _ _ <-> a = b =>
      intros [] []; rewrite !Forall_cons, Forall_nil; simpl; rewrite !tc_zero;
      split; [intros ?; destruct_and!; congruence|by intros [=]; subst]
  end.

#[export] Instance compareInterprocNodeID_total : TotalComparison compareInterprocNodeID.
Proof.
  apply (lexicographic_total
    [(fun a b => compare_string (FuncKey a) (FuncKey b));
     (fun a b => compare_string (NKind a) (NKind b));
     (fun a b => compare_int (BlockIndex a) (BlockIndex b));
     (fun a b => compare_int (NodeIndex a) (NodeIndex b));
     (fun a b => compare_int (CallOrdinal a) (CallOrdinal b))]); [done|solve_lexicographic..].
Qed.

#[export] Instance compareProtocolAbstractState_total : TotalComparison compareProtocolAbstractState.
Proof.
  apply (lexicographic_total
    [(fun a b => compare_int (Validation a) (Validation b));
     (fun a b => compare_int (Hazards a) (Hazards b));
     (fun a b => compare_int (Uncertainty a) (Uncertainty b));
     (fun a b => compare_int (Result a) (Result b));
     (fun a b => compare_int (DeferredError a) (DeferredError b));
     (fun a b => compare_int (Identity a) (Identity b));
     (fun a b => compare_int (PossibleEffects a) (PossibleEffects b))]); [done|solve_lexicographic..].
Qed.

#[export] Instance compareInterprocWitnessEdge_total : TotalComparison compareInterprocWitnessEdge.
Proof.
  apply (lexicographic_total
    [(fun a b => compareInterprocNodeID (WFrom a) (WFrom b));
     (fun a b => compareInterprocNodeID (WTo a) (WTo b));
     (fun a b => compare_string (WKind a) (WKind b));
     (fun a b => compare_string (WCallSite a) (WCallSite b));
     (fun a b => compare_string (WFactFamily a) (WFactFamily b));
     (fun a b => compare_string (WFactKey a) (WFactKey b));
     (fun a b => compareProtocolAbstractState (StateBefore a) (StateBefore b));
     (fun a b => compareProtocolAbstractState (StateAfter a) (StateAfter b));
     (fun a b => compare_string (WEdgeFunctionTag a) (WEdgeFunctionTag b));
     (fun a b => compare_string (EdgeReason a) (EdgeReason b));
     (fun a b => compare_list compare_string (WPredicateProvenance a) (WPredicateProvenance b))]);
    [done|solve_lexicographic..].
Qed.

(** The order on witnesses is the list order of their edges: the length decides
    only between a witness and its prefix. *)
Lemma compareInterprocWitnessEdges_list a : forall b,
  compareInterprocWitnessEdges a b = compare_list compareInterprocWitnessEdge a b.
Proof.
  induction a as [|x a IH]; intros [|y b]; cbn [compareInterprocWitnessEdges compare_list]; try done.
  destruct (Z.eqb_spec (compareInterprocWitnessEdge x y) 0); simpl; [apply IH|done].
Qed.

(** Witnesses are totally ordered: the canonical comparison is zero only on equal
    witnesses, antisymmetric and transitive, so which witness is retained depends
    on their contents alone. *)
Theorem witness_order_total : TotalComparison compareInterprocWitnessEdges.
Proof.
  split; intros *; rewrite !compareInterprocWitnessEdges_list;
    [apply tc_zero|apply tc_antisym|apply tc_trans].
Qed.

(** Subsumption is a preorder that weakening only extends: dropping a suffix or
    predicates of the retained witness, or adding steps to the candidate, keeps it. *)
Theorem subsumption_preorder :
  PreOrder (fun r c => interprocWitnessSubsumes r c = true) /\
  (forall r r' c, r `prefix_of` r' -> interprocWitnessSubsumes r' c = true ->
     interprocWitnessSubsumes r c = true) /\
  (forall r c c', interprocWitnessSubsumes r c = true -> interprocWitnessSubsumes r (c ++ c') = true).
Proof.
  assert (forall r c, interprocWitnessSubsumes r c = true <->
    (length r <= length c)%nat /\ interprocWitnessPredicates r ⊆ interprocWitnessPredicates c) as Hspec.
  { intros r c. unfold interprocWitnessSubsumes, zlen.
    destruct (Z.ltb_spec (Z.of_nat (length c)) (Z.of_nat (length r))).
    - split; [done|]. lia.
    - rewrite bool_decide_eq_true. split; [split; [lia|done]|by intros [_ ?]]. }
  assert (forall w w', interprocWitnessPredicates (w ++ w') =
    interprocWitnessPredicates w ∪ interprocWitnessPredicates w') as Happ.
  { intros w w'. unfold interprocWitnessPredicates. by rewrite bind_app, list_to_set_app_L. }
  split_and!.
  - split; [intros w; by apply Hspec|]. intros x y z. rewrite !Hspec. intros [? ?] [? ?].
    split; [lia|by etrans].
  - intros r r' c [k ->]. rewrite !Hspec, length_app, Happ. intros [? H]. split; [lia|].
    etrans; [|exact H]. apply union_subseteq_l.
  - intros r c c'. rewrite !Hspec, length_app, Happ. intros [? H]. split; [lia|].
    etrans; [exact H|]. apply union_subseteq_l.
Qed.

(** ** Replay accepts exactly the realizable witnesses *)

(** How an edge moves the call stack: calls push, a return pops the most recent
    call of the same site and functions, the rest stays in its function. *)
Inductive call_step (w : interprocWitnessEdge) : list callFrame -> list callFrame -> Prop :=
| step_intra st :
    WKind w = interprocEdgeIntra -> FuncKey (WFrom w) = FuncKey (WTo w) -> WCallSite w = "" ->
    call_step w st st
| step_call_to_return st :
    WKind w = interprocEdgeCallToReturn -> FuncKey (WFrom w) = FuncKey (WTo w) -> WCallSite w <> "" ->
    call_step w st st
| step_call st :
    WKind w = interprocEdgeCall -> WCallSite w <> "" ->
    call_step w st (mkFrame (WCallSite w) (FuncKey (WFrom w)) (FuncKey (WTo w)) :: st)
| step_return st :
    WKind w = interprocEdgeReturn -> WCallSite w <> "" ->
    call_step w (mkFrame (WCallSite w) (FuncKey (WTo w)) (FuncKey (WFrom w)) :: st) st.

(** An edge of the graph that carries the fact between two valid states its tag
    relates. *)
Definition faithful_edge (graph : interprocSupergraph) (family : ifdsFactFamily) (key : string)
    (w : interprocWitnessEdge) : Prop :=
  graphNodes graph !! NodeKey (WFrom w) = Some (WFrom w) /\
  graphNodes graph !! NodeKey (WTo w) = Some (WTo w) /\
  mkEdge (WFrom w) (WTo w) (WKind w) (WCallSite w) (EdgeReason w) (WPredicateProvenance w)
    ∈ graphEdges graph /\
  WFactFamily w = family /\ WFactKey w = key /\
  valid (StateBefore w) = true /\ valid (StateAfter w) = true /\
  protocolWitnessTransferMatches (Apply (newIDEEdgeFunc (WEdgeFunctionTag w)) (StateBefore w))
    (StateAfter w) = true.

Definition follows (previous : option interprocWitnessEdge) (w : interprocWitnessEdge) : Prop :=
  match previous with
  | None => True
  | Some p => WTo p = WFrom w /\ StateAfter p = StateBefore w
  end.

Inductive realizable (graph : interprocSupergraph) (family : ifdsFactFamily) (key : string)
  : option interprocWitnessEdge -> list interprocWitnessEdge -> list callFrame -> list callFrame -> Prop :=
| realizable_nil previous st : realizable graph family key previous [] st st
| realizable_cons previous w rest st st' st'' :
    faithful_edge graph family key w -> follows previous w -> call_step w st st' ->
    realizable graph family key (Some w) rest st' st'' ->
    realizable graph family key previous (w :: rest) st st''.

Lemma sameGraphEdge_spec edge w :
  sameGraphEdge edge w = true <->
  edge = mkEdge (WFrom w) (WTo w) (WKind w) (WCallSite w) (EdgeReason w) (WPredicateProvenance w).
Proof.
  unfold sameGraphEdge. rewrite !andb_true_iff, !bool_decide_eq_true, !String.eqb_eq.
  destruct edge; simpl. split; [intros ?; destruct_and!; congruence|by intros [=]].
Qed.

Lemma graphHasEdge_spec graph w :
  interprocWitnessGraphHasEdge graph w = true <->
  mkEdge (WFrom w) (WTo w) (WKind w) (WCallSite w) (EdgeReason w) (WPredicateProvenance w)
    ∈ graphEdges graph.
Proof.
  unfold interprocWitnessGraphHasEdge. rewrite existsb_exists. split.
  - intros (edge & Hin & ->%sameGraphEdge_spec). by apply list_elem_of_In.
  - intros Hin. eexists. split; [by apply list_elem_of_In|]. by apply sameGraphEdge_spec.
Qed.

Lemma replayKind_spec w st st' : replayKind w st = inr st' <-> call_step w st st'.
Proof.
  unfold replayKind. split.
  - destruct (String.eqb_spec (WKind w) interprocEdgeIntra).
    { destruct (String.eqb_spec (FuncKey (WFrom w)) (FuncKey (WTo w))); [|done].
      destruct (String.eqb_spec (WCallSite w) ""); [|done]. intros [= <-]. by apply step_intra. }
    destruct (String.eqb_spec (WKind w) interprocEdgeCallToReturn).
    { destruct (String.eqb_spec (FuncKey (WFrom w)) (FuncKey (WTo w))); [|done].
      destruct (String.eqb_spec (WCallSite w) ""); [done|]. intros [= <-]. by apply step_call_to_return. }
    destruct (String.eqb_spec (WKind w) interprocEdgeCall).
    { destruct (String.eqb_spec (WCallSite w) ""); [done|]. intros [= <-]. by apply step_call. }
    destruct (String.eqb_spec (WKind w) interprocEdgeReturn); [|done].
    destruct (String.eqb_spec (WCallSite w) ""); [done|].
    destruct st as [|[site clr cle] st]; [done|]. cbn [callSite caller callee].
    destruct (String.eqb_spec site (WCallSite w)); [|done].
    destruct (String.eqb_spec cle (FuncKey (WFrom w))); [|done].
    destruct (String.eqb_spec clr (FuncKey (WTo w))); [|done].
    intros [= <-]. subst. by apply step_return.
  - destruct 1 as [st Hk Hf Hs|st Hk Hf Hs|st Hk Hs|st Hk Hs]; rewrite Hk; simpl;
      rewrite ?Hf, ?String.eqb_refl; simpl; by destruct (String.eqb_spec (WCallSite w) "").
Qed.

Lemma replayLoop_spec graph family key edges : forall previous st,
  replayLoop graph family key previous edges st = "" <->
  exists st', realizable graph family key previous edges st st'.
Proof.
  induction edges as [|w edges IH]; intros previous st; cbn [replayLoop].
  - split; [|done]. intros _. eexists. constructor.
  - split.
    + unfold interprocWitnessNodeExists.
      destruct (bool_decide_reflect (graphNodes graph !! NodeKey (WFrom w) = Some (WFrom w))); [|done].
      destruct (bool_decide_reflect (graphNodes graph !! NodeKey (WTo w) = Some (WTo w))); [|done].
      destruct (String.eqb_spec (WFactFamily w) family); [|done].
      destruct (String.eqb_spec (WFactKey w) key); [|done]. simpl.
      destruct (valid (StateBefore w)) eqn:?; [|done]. destruct (valid (StateAfter w)) eqn:?; [|done]. simpl.
      destruct (protocolWitnessTransferMatches _ _) eqn:?; [|done]. simpl.
      assert (match previous with
              | None => ""
              | Some p =>
                  if negb (bool_decide (WTo p = WFrom w)) then replayDisconnected
                  else if negb (bool_decide (StateAfter p = StateBefore w)) then replayChangedState
                  else ""
              end = "" <-> follows previous w) as Hprev.
      { destruct previous as [p|]; [|done]. simpl.
        by destruct (bool_decide_reflect (WTo p = WFrom w)), (bool_decide_reflect (StateAfter p = StateBefore w));
          simpl; split; try intros [? ?]. }
      destruct (match previous with None => "" | Some p => _ end) eqn:Ep; [|done].
      destruct (interprocWitnessGraphHasEdge graph w) eqn:Eg; [|done]. simpl.
      destruct (replayKind w st) as [r|st1] eqn:Ek; [intros ->; unfold replayKind in Ek; by repeat case_match|].
      intros [st' Hr]%IH. exists st'. econstructor; [|by apply Hprev|by apply replayKind_spec|done].
      apply graphHasEdge_spec in Eg. by split_and!.
    + intros [st' Hr]. inversion Hr as [|? ? ? ? st1 ? Hf Hfo Hs Hrest]; subst.
      destruct Hf as (H1 & H2 & H3%graphHasEdge_spec & <- & <- & H6 & H7 & H8).
      unfold interprocWitnessNodeExists. rewrite !bool_decide_eq_true_2, !String.eqb_refl, H6, H7, H8 by done.
      simpl. apply replayKind_spec in Hs. rewrite H3, Hs. simpl.
      assert (replayLoop graph (WFactFamily w) (WFactKey w) (Some w) edges st1 = "") as Hl
        by (apply IH; eauto).
      destruct previous as [p|]; [|done]. destruct Hfo as [Hf1 Hf2].
      by rewrite !bool_decide_eq_true_2.
Qed.

(** C10. Replay accepts exactly the realizable witnesses: the validation returns no
    rejection if and only if the terminal node exists and ends the witness, and the
    steps are edges of the graph over stored nodes that carry the result's fact
    between valid states their tags relate, chain node to node and state to state,
    and match every return with the most recent call of the same site. *)
Theorem replay_accepts_realizable graph result :
  validateInterprocWitnessReplay graph result = "" <->
  (FuncKey (WitnessTerminal result) <> "" ->
     graphNodes graph !! NodeKey (WitnessTerminal result) = Some (WitnessTerminal result) /\
     forall w, last (WitnessEdges result) = Some w -> WTo w = WitnessTerminal result) /\
  exists callStack,
    realizable graph (FactFamily result) (FactKey result) None (WitnessEdges result) [] callStack.
Proof.
  unfold validateInterprocWitnessReplay, interprocWitnessNodeExists. rewrite <- replayLoop_spec.
  destruct (String.eqb_spec (FuncKey (WitnessTerminal result)) "") as [E|E]; simpl.
  - split; [|intros [_ H]; by destruct (last (WitnessEdges result))].
    intros H. split; [done|]. by destruct (last (WitnessEdges result)).
  - destruct (bool_decide_reflect (graphNodes graph !! NodeKey (WitnessTerminal result)
      = Some (WitnessTerminal result))) as [Hn|Hn]; simpl.
    + destruct (last (WitnessEdges result)) as [w|] eqn:El.
      * destruct (bool_decide_reflect (WTo w = WitnessTerminal result)) as [Ht|Ht]; simpl.
        -- split; [|by intros [_ ?]]. intros H. split; [|done]. intros _. split; [done|]. by intros ? [= <-].
        -- split; [done|]. intros [H _]. destruct Ht. by apply (proj2 (H E)).
      * split; [|by intros [_ ?]]. intros H. by split.
    + split; [done|]. intros [H _]. by destruct (H E).
Qed.
