(* ===== verification/Tabulation.v ===== *)
(** * The IFDS/IDE tabulation

    [goplint/cfa_ifds_tabulation.go] with the helpers of
    [goplint/cfa_ifds_solver.go] and [goplint/cfa_interproc_result.go] it uses: the
    worklist propagation of protocol states over the supergraph, with summaries,
    caller dependencies, a bounded antichain of witnesses per path edge, a work
    budget and cooperative cancellation. *)

From S2P Require Export Witness.
Local Open Scope Z_scope.

(** ** Outcomes of a path *)
Definition pathOutcomeSafe : Z := 0.
Definition pathOutcomeUnsafe : Z := 1.
Definition pathOutcomeInconclusive : Z := 2.

Definition interprocOutcomeClassFromPathOutcome (outcome : Z) : interprocOutcomeClass :=
  if outcome =? pathOutcomeSafe then interprocOutcomeSafe
  else if outcome =? pathOutcomeUnsafe then interprocOutcomeUnsafe
  else interprocOutcomeInconclusive.

Definition toPathOutcome (r : interprocPathResult) : Z :=
  if String.eqb (Class r) interprocOutcomeSafe then pathOutcomeSafe
  else if String.eqb (Class r) interprocOutcomeUnsafe then pathOutcomeUnsafe
  else pathOutcomeInconclusive.

Definition noStats : interprocTabulationStats := mkStats 0 0 0 0.

Definition interprocPathResultFromOutcome (outcome : Z) (reason : pathOutcomeReason) (witness : list Z)
    : interprocPathResult :=
  let class := interprocOutcomeClassFromPathOutcome outcome in
  mkResult class
    (if String.eqb class interprocOutcomeInconclusive then reason else pathOutcomeReasonNone)
    witness [] noNode "" "" "" "" noWitnessRecord noRefinement (mkAvailability "" "") noStats None.

(** The assignments to [WitnessEdges] and [WitnessTerminal] that follow it. *)
Definition with_witness (r : interprocPathResult) (edges : list interprocWitnessEdge)
    (terminal : interprocNodeID) : interprocPathResult :=
  mkResult (Class r) (Reason r) (RWitness r) edges terminal (WitnessHash r) (FactFamily r) (FactKey r)
    (EdgeFunctionTag r) (WitnessRecord r) (Refinement r) (SSAAvailability r) (Tabulation r) (witnessGraph r).

Definition with_graph (r : interprocPathResult) (graph : interprocSupergraph) : interprocPathResult :=
  mkResult (Class r) (Reason r) (RWitness r) (WitnessEdges r) (WitnessTerminal r) (WitnessHash r)
    (FactFamily r) (FactKey r) (EdgeFunctionTag r) (WitnessRecord r) (Refinement r) (SSAAvailability r)
    (Tabulation r) (Some graph).

(** ** Path edges, dependencies and summaries *)
Record interprocEntryFact := mkEntry { entry_node : interprocNodeID; entry_state : protocolAbstractState }.

Definition entryKey (fact : interprocEntryFact) : string :=
  strings_Join [NodeKey (entry_node fact); "entry-fact=" +:+ state_key (entry_state fact)] "|".

Record interprocPathEdge := mkPathEdge {
  pe_entry : interprocEntryFact;
  pe_node : interprocNodeID;
  pe_state : protocolAbstractState;
  pe_edgeFunction : interprocConditionalEdgeFunc;
  pe_path : list Z;
  pe_witness : list interprocWitnessEdge;
}.

Definition pathEdgeKey (edge : interprocPathEdge) : string :=
  strings_Join
    [entryKey (pe_entry edge);
     "procedure=" +:+ FuncKey (pe_node edge);
     "node=" +:+ NodeKey (pe_node edge);
     "current-fact=" +:+ state_key (pe_state edge);
     "edge-function=" +:+ cond_key (pe_edgeFunction edge)] "|".

Record interprocCallDependency := mkDependency {
  calleeEntry : interprocEntryFact;
  calleeExit : interprocNodeID;
  callerEntry : interprocEntryFact;
  dep_callSite : string;
  returnNode : interprocNodeID;
  callerEffect : interprocConditionalEdgeFunc;
  callerPath : list Z;
  callerWitness : list interprocWitnessEdge;
}.

Definition dependencyKey (d : interprocCallDependency) : string :=
  strings_Join
    [entryKey (calleeEntry d);
     "callee-exit=" +:+ NodeKey (calleeExit d);
     "caller-entry=" +:+ entryKey (callerEntry d);
     "call-site=" +:+ dep_callSite d;
     "return-node=" +:+ NodeKey (returnNode d);
     "caller-effect=" +:+ cond_key (callerEffect d)] "|".

Record interprocProcedureSummary := mkSummary {
  sum_entry : interprocEntryFact;
  sum_exit : interprocNodeID;
  sum_state : protocolAbstractState;
  sum_edgeFunction : interprocConditionalEdgeFunc;
  sum_path : list Z;
  sum_witness : list interprocWitnessEdge;
  exitStateBefore : protocolAbstractState;
  exitTransferTag : ideEdgeFuncTag;
}.

Definition summaryKey (s : interprocProcedureSummary) : string :=
  strings_Join
    [entryKey (sum_entry s);
     "exit=" +:+ NodeKey (sum_exit s);
     "exit-fact=" +:+ state_key (sum_state s);
     "edge-function=" +:+ cond_key (sum_edgeFunction s)] "|".

Definition zeroState : protocolAbstractState := mkState 0 0 0 0 0 0 0.
Definition zeroCond : interprocConditionalEdgeFunc := mkCond zeroState zeroState.
Definition zeroEntry : interprocEntryFact := mkEntry noNode zeroState.
(** What a map lookup of an absent key yields. *)
Definition zeroDependency : interprocCallDependency :=
  mkDependency zeroEntry noNode zeroEntry "" noNode zeroCond [] [].
Definition zeroSummary : interprocProcedureSummary :=
  mkSummary zeroEntry noNode zeroState zeroCond [] [] zeroState "".

(** ** Display paths *)
Definition appendWitnessBlock (path : list Z) (blockIndex : Z) : list Z :=
  match last path with
  | None => [blockIndex]
  | Some b => if b =? blockIndex then path else path ++ [blockIndex]
  end.

Definition mergeTabulationPaths (prefix local : list Z) (returnBlock : Z) : list Z :=
  appendWitnessBlock (fold_left appendWitnessBlock local prefix) returnBlock.

(** ** Return edges *)
Fixpoint keepReturns (control : Control) (edges out : list interprocEdge)
    : polled (list interprocEdge * bool) :=
  match edges with
  | [] => finish control out
  | edge :: rest =>
      checkpoint control []
        (keepReturns control rest (if String.eqb (EKind edge) interprocEdgeReturn then out ++ [edge] else out))
  end.

Definition returnEdgesFromWithControl (graph : interprocSupergraph) (node : interprocNodeID)
    (control : Control) : polled (list interprocEdge * bool) :=
  unless_expired (outgoingWithControl graph node control) [] (fun edges => keepReturns control edges []).

Definition isMatchingReturn (site calleeFunc : string) (edge : interprocEdge) : bool :=
  String.eqb (EKind edge) interprocEdgeReturn && String.eqb (CallSite edge) site &&
  String.eqb (FuncKey (From edge)) calleeFunc.

Definition returnSortKey (edge : interprocEdge) : string := NodeKey (From edge) +:+ "|" +:+ NodeKey (To edge).
Definition return_le (a b : interprocEdge) : Prop := String.le (returnSortKey a) (returnSortKey b).
#[export] Instance return_le_dec : RelDecision return_le.
Proof. intros a b. unfold return_le. apply _. Defined.

Fixpoint keepMatching (control : Control) (site calleeFunc : string) (edges out : list interprocEdge)
    : polled (list interprocEdge * bool) :=
  match edges with
  | [] => finish control (merge_sort return_le out)
  | edge :: rest =>
      checkpoint control []
        (keepMatching control site calleeFunc rest
           (if isMatchingReturn site calleeFunc edge then out ++ [edge] else out))
  end.

Definition returnEdgesForCallWithControl (graph : interprocSupergraph) (site calleeFunc : string)
    (control : Control) : polled (list interprocEdge * bool) :=
  keepMatching control site calleeFunc (graphEdges graph) [].

(** ** Preferred results and discharged witnesses *)
Definition preferInterprocResult (current : option interprocPathResult) (candidate : interprocPathResult)
    : option interprocPathResult :=
  match current with
  | None => Some candidate
  | Some c =>
      if zlen (RWitness candidate) <? zlen (RWitness c) then Some candidate
      else if (zlen (RWitness candidate) =? zlen (RWitness c)) &&
              (compareInterprocWitnessEdges (WitnessEdges candidate) (WitnessEdges c) <? 0)
      then Some candidate
      else Some c
  end.

Abbreviation witnessHashFunc := (list Z -> list interprocWitnessEdge -> interprocNodeID -> string -> string).

Definition witnessIsDischarged (witnessHash : option witnessHashFunc) (path : list Z)
    (witness : list interprocWitnessEdge) (terminal : interprocNodeID) (trigger : string)
    (dischargedWitnesses : list string) : bool :=
  match dischargedWitnesses, path, witnessHash with
  | _ :: _, _ :: _, Some hashOf =>
      let hash := hashOf path witness terminal trigger in
      if String.eqb hash "" then false
      else existsb (fun dischargeToken => strings_HasPrefix dischargeToken (hash +:+ "|cfgd1_"))
             dischargedWitnesses
  | _, _, _ => false
  end.

Definition cfgRefinementTriggerUnsafeCandidate : string := "unsafe-candidate".
Definition defaultCFGMaxStates : Z := 20000.
Definition interprocWitnessAntichainLimit : Z := 64.

(** ** The state of a run *)
Record tabulation := mkTab {
  pathEdges : gmap string interprocPathEdge;
  pathEdgeWitnesses : gmap string (gmap string string);
  queue : list string;
  dependencies : gmap string interprocCallDependency;
  dependenciesByEntry : gmap string (list string);
  summaries : gmap string interprocProcedureSummary;
  summariesByEntry : gmap string (list string);
  workUnits : Z;
  stats : interprocTabulationStats;
  budgetResult : option interprocPathResult;
  unsafeResult : option interprocPathResult;
  inconclusiveResult : option interprocPathResult;
  observedExits : list (interprocNodeID * protocolAbstractState);
  polls : nat;
}.

Definition initialTabulation (clk : nat) : tabulation :=
  mkTab ∅ ∅ [] ∅ ∅ ∅ ∅ 0 noStats None None None [] clk.

Definition set_tables (t : tabulation) pe pw q : tabulation :=
  mkTab pe pw q (dependencies t) (dependenciesByEntry t) (summaries t) (summariesByEntry t) (workUnits t)
    (stats t) (budgetResult t) (unsafeResult t) (inconclusiveResult t) (observedExits t) (polls t).
Definition set_queue (t : tabulation) q : tabulation := set_tables t (pathEdges t) (pathEdgeWitnesses t) q.
Definition set_dependencies (t : tabulation) d db : tabulation :=
  mkTab (pathEdges t) (pathEdgeWitnesses t) (queue t) d db (summaries t) (summariesByEntry t) (workUnits t)
    (stats t) (budgetResult t) (unsafeResult t) (inconclusiveResult t) (observedExits t) (polls t).
Definition set_summaries (t : tabulation) s sb : tabulation :=
  mkTab (pathEdges t) (pathEdgeWitnesses t) (queue t) (dependencies t) (dependenciesByEntry t) s sb
    (workUnits t) (stats t) (budgetResult t) (unsafeResult t) (inconclusiveResult t) (observedExits t) (polls t).
Definition set_work (t : tabulation) w st : tabulation :=
  mkTab (pathEdges t) (pathEdgeWitnesses t) (queue t) (dependencies t) (dependenciesByEntry t) (summaries t)
    (summariesByEntry t) w st (budgetResult t) (unsafeResult t) (inconclusiveResult t) (observedExits t) (polls t).
Definition set_results (t : tabulation) b u i : tabulation :=
  mkTab (pathEdges t) (pathEdgeWitnesses t) (queue t) (dependencies t) (dependenciesByEntry t) (summaries t)
    (summariesByEntry t) (workUnits t) (stats t) b u i (observedExits t) (polls t).
Definition set_observed (t : tabulation) o clk : tabulation :=
  mkTab (pathEdges t) (pathEdgeWitnesses t) (queue t) (dependencies t) (dependenciesByEntry t) (summaries t)
    (summariesByEntry t) (workUnits t) (stats t) (budgetResult t) (unsafeResult t) (inconclusiveResult t) o clk.

Definition count_pathEdge (s : interprocTabulationStats) : interprocTabulationStats :=
  mkStats (PathEdges s + 1) (Dependencies s) (Summaries s) (SummaryReuses s).
Definition count_dependency (s : interprocTabulationStats) : interprocTabulationStats :=
  mkStats (PathEdges s) (Dependencies s + 1) (Summaries s) (SummaryReuses s).
Definition count_summary (s : interprocTabulationStats) : interprocTabulationStats :=
  mkStats (PathEdges s) (Dependencies s) (Summaries s + 1) (SummaryReuses s).
Definition count_reuse (s : interprocTabulationStats) : interprocTabulationStats :=
  mkStats (PathEdges s) (Dependencies s) (Summaries s) (SummaryReuses s + 1).

(** Computations on the state. *)
Definition run (A : Type) : Type := tabulation -> A * tabulation.
#[export] Instance run_ret : MRet run := fun A a t => (a, t).
#[export] Instance run_bind : MBind run := fun A B k m t => let '(a, t') := m t in k a t'.

Definition get {A} (f : tabulation -> A) : run A := fun t => (f t, t).
Definition modify (f : tabulation -> tabulation) : run unit := fun t => (tt, f t).
Definition lift {A} (p : polled A) : run A :=
  fun t => let '(a, clk) := p (polls t) in (a, set_observed t (observedExits t) clk).

(** ** Parameters of a run *)
Record interprocSinkPolicy := mkSinkPolicy {
  TerminalCanObserve : bool;
  UnresolvedIdentityAtSink : bool;
  MustAliasUncertaintyAtSink : bool;
}.

(** The callbacks of a propagation; a nil function is [None], an AST node a
    pointer.  The two [inject] fields are the test seam a control may implement,
    the identity in production. *)
Record tabulationInput := mkInput {
  in_graph : interprocSupergraph;
  in_start : interprocNodeID;
  in_maxStates : Z;
  in_discharged : list string;
  in_witnessHash : option witnessHashFunc;
  transfer : interprocNodeID -> option Z -> protocolAbstractState -> ideEdgeFuncTag * pathOutcomeReason;
  terminalUnsafe : interprocNodeID -> option Z -> protocolAbstractState -> bool;
  unresolvedCallRelevant : option (interprocNodeID -> option Z -> protocolAbstractState -> bool);
  obligationSink : option (interprocNodeID -> option Z -> bool);
  sinkPolicy : interprocSinkPolicy;
  edgeTransfer : option (interprocEdge -> protocolAbstractState -> ideEdgeFuncTag * pathOutcomeReason);
  in_control : Control;
  worklistLIFO : bool;
  injectReason : pathOutcomeReason -> pathOutcomeReason;
  injectSummary : interprocProcedureSummary -> interprocProcedureSummary;
  InitialState : option protocolAbstractState;
  observesExit : bool;
  PruneEdge : option (interprocEdge -> protocolAbstractState -> bool);
  (** the order in which Go ranges over a map of retained witnesses *)
  rangeOrder : gmap string string -> list (string * string);
}.

Definition obligationSinkReached (inp : tabulationInput) (n : interprocNodeID) (ast : option Z) : bool :=
  match obligationSink inp with Some sink => sink n ast | None => false end.

Definition terminalCanObserveObligation (inp : tabulationInput) (n : interprocNodeID) (ast : option Z) : bool :=
  existsb (terminalUnsafe inp n ast)
    [ideStateNeedsValidate; ideStateValidationFailed; ideStateEscapedBeforeValidate;
     ideStateConsumedBeforeValidate].

Definition initialState (inp : tabulationInput) : protocolAbstractState :=
  match InitialState inp with Some s => s | None => ideStateNeedsValidate end.

Definition rootEntry (inp : tabulationInput) : interprocEntryFact := mkEntry (in_start inp) (initialState inp).

Definition effectiveMaxStates (inp : tabulationInput) : Z :=
  if in_maxStates inp <=? 0 then defaultCFGMaxStates else in_maxStates inp.

(** ** Operations *)
Section Operations.
Context (inp : tabulationInput).
Abbreviation graph := (in_graph inp).
Abbreviation start := (in_start inp).
Abbreviation control := (in_control inp).
Abbreviation maxStates := (effectiveMaxStates inp).

Definition setBudgetExceeded (reason : pathOutcomeReason) (path : list Z)
    (witness : list interprocWitnessEdge) : run unit :=
  modify (fun t =>
    match budgetResult t with
    | Some _ => t
    | None =>
        let terminal := match last witness with Some w => WTo w | None => start end in
        set_results t
          (Some (with_witness (interprocPathResultFromOutcome pathOutcomeInconclusive reason path) witness terminal))
          (unsafeResult t) (inconclusiveResult t)
    end).

Definition checkpointAt (path : list Z) (witness : list interprocWitnessEdge) : run bool :=
  expired ← lift (feasibilityDeadlineReached control);
  if expired : bool then setBudgetExceeded pathOutcomeReasonTimeout path witness ;; mret false
  else mret true.

Definition reserveWorkUnit (path : list Z) (witness : list interprocWitnessEdge) : run bool :=
  ok ← checkpointAt path witness;
  if negb ok then mret false
  else
    modify (fun t => set_work t (workUnits t + 1) (stats t)) ;;
    units ← get workUnits;
    if units <=? maxStates then mret true
    else setBudgetExceeded pathOutcomeReasonStateBudget path witness ;; mret false.

(** The scan of the antichain: stop with the value to return, or go on with the
    storage keys the candidate subsumes. *)
Fixpoint scanAntichain (edge : interprocPathEdge) (witnessID : string)
    (retainedOnes : list (string * string)) (subsumed : list string) : run (bool + list string) :=
  match retainedOnes with
  | [] => mret (inr subsumed)
  | (retainedID, storageKey) :: rest =>
      ok ← checkpointAt (pe_path edge) (pe_witness edge);
      if negb ok then mret (inl false)
      else
        stored ← get (fun t => pathEdges t !! storageKey);
        let retained := match stored with Some e => pe_witness e | None => [] end in
        let retainedSubsumes := interprocWitnessSubsumes retained (pe_witness edge) in
        let candidateSubsumes := interprocWitnessSubsumes (pe_witness edge) retained in
        if retainedSubsumes && (negb candidateSubsumes || str_leb retainedID witnessID)
        then mret (inl true)
        else scanAntichain edge witnessID rest
               (if candidateSubsumes then subsumed ++ [storageKey] else subsumed)
  end.

Fixpoint dropSubsumed (edge : interprocPathEdge) (contributionKey : string) (storageKeys : list string)
    : run bool :=
  match storageKeys with
  | [] => mret true
  | storageKey :: rest =>
      ok ← checkpointAt (pe_path edge) (pe_witness edge);
      if negb ok then mret false
      else
        modify (fun t =>
          let retainedID := interprocWitnessIdentity
            match pathEdges t !! storageKey with Some e => pe_witness e | None => [] end in
          set_tables t (delete storageKey (pathEdges t))
            (alter (delete retainedID) contributionKey (pathEdgeWitnesses t)) (queue t)) ;;
        dropSubsumed edge contributionKey rest
  end.

Definition NUL : string := String Ascii.zero EmptyString.

Definition antichainOf (t : tabulation) (contributionKey : string) : gmap string string :=
  default ∅ (pathEdgeWitnesses t !! contributionKey).

Definition storageKeyOf (contributionKey witnessID : string) : string :=
  contributionKey +:+ NUL +:+ "witness=" +:+ witnessID.

Definition storePathEdge (edge : interprocPathEdge) (contributionKey witnessID : string)
    (t : tabulation) : tabulation :=
  let storageKey := storageKeyOf contributionKey witnessID in
  set_work
    (set_tables t (<[storageKey := edge]> (pathEdges t))
       (<[contributionKey := <[witnessID := storageKey]> (antichainOf t contributionKey)]> (pathEdgeWitnesses t))
       (queue t ++ [storageKey]))
    (workUnits t) (count_pathEdge (stats t)).

Definition enqueue (edge : interprocPathEdge) : run bool :=
  ok ← checkpointAt (pe_path edge) (pe_witness edge);
  if negb ok then mret false
  else
    let contributionKey := pathEdgeKey edge in
    let witnessID := interprocWitnessIdentity (pe_witness edge) in
    modify (fun t => set_tables t (pathEdges t)
              (<[contributionKey := antichainOf t contributionKey]> (pathEdgeWitnesses t)) (queue t)) ;;
    antichain ← get (fun t => antichainOf t contributionKey);
    scan ← scanAntichain edge witnessID (rangeOrder inp antichain) [];
    match scan with
    | inl answer => mret answer
    | inr subsumed =>
        dropped ← dropSubsumed edge contributionKey subsumed;
        if negb dropped then mret false
        else
          remaining ← get (fun t => antichainOf t contributionKey);
          if interprocWitnessAntichainLimit <=? Z.of_nat (size (remaining : gmap string string)) then
            setBudgetExceeded pathOutcomeReasonWitnessBudget (pe_path edge) (pe_witness edge) ;; mret false
          else
            reserved ← reserveWorkUnit (pe_path edge) (pe_witness edge);
            if negb reserved then mret false
            else modify (storePathEdge edge contributionKey witnessID) ;; mret true
    end.

(** The path edge a summary contributes to a caller. *)
Definition returnPathEdge (dependency : interprocCallDependency) (summary : interprocProcedureSummary)
    : interprocPathEdge :=
  mkPathEdge (callerEntry dependency) (returnNode dependency) (sum_state summary)
    (thenSummary (callerEffect dependency) (sum_edgeFunction summary))
    (mergeTabulationPaths (callerPath dependency) (sum_path summary) (BlockIndex (returnNode dependency)))
    (appendInterprocWitnessEdge
       (mergeInterprocWitnessEdges [callerWitness dependency; sum_witness summary])
       (mkEdge (calleeExit dependency) (returnNode dependency) interprocEdgeReturn
          (dep_callSite dependency) "" [])
       (exitStateBefore summary) (sum_state summary) (exitTransferTag summary)).

Definition applySummary (dependency : interprocCallDependency) (summary : interprocProcedureSummary)
    : run bool :=
  ok ← checkpointAt (callerPath dependency) (callerWitness dependency);
  if negb ok then mret false
  else if negb (String.eqb (NodeKey (calleeExit dependency)) (NodeKey (sum_exit summary))) then mret true
  else
    enqueued ← enqueue (returnPathEdge dependency summary);
    if negb enqueued then mret false
    else modify (fun t => set_work t (workUnits t) (count_reuse (stats t))) ;; mret true.

Fixpoint applySummaries (dependency : interprocCallDependency) (keys : list string) : run bool :=
  match keys with
  | [] => mret true
  | key :: rest =>
      ok ← checkpointAt (callerPath dependency) (callerWitness dependency);
      if negb ok then mret false
      else
        summary ← get (fun t => default zeroSummary (summaries t !! key));
        applied ← applySummary dependency summary;
        if negb applied then mret false else applySummaries dependency rest
  end.

Definition registerDependency (dependency : interprocCallDependency) : run bool :=
  ok ← checkpointAt (callerPath dependency) (callerWitness dependency);
  if negb ok then mret false
  else
    let key := dependencyKey dependency in
    existing ← get (fun t => dependencies t !! key);
    match existing with
    | Some _ => mret true
    | None =>
        reserved ← reserveWorkUnit (callerPath dependency) (callerWitness dependency);
        if negb reserved then mret false
        else
          let entry := entryKey (calleeEntry dependency) in
          modify (fun t =>
            set_work
              (set_dependencies t (<[key := dependency]> (dependencies t))
                 (<[entry := slices_Sort (default [] (dependenciesByEntry t !! entry) ++ [key])]>
                    (dependenciesByEntry t)))
              (workUnits t) (count_dependency (stats t))) ;;
          keys ← get (fun t => default [] (summariesByEntry t !! entry));
          applySummaries dependency keys
    end.

Fixpoint applyDependencies (summary : interprocProcedureSummary) (keys : list string) : run bool :=
  match keys with
  | [] => mret true
  | key :: rest =>
      ok ← checkpointAt (sum_path summary) (sum_witness summary);
      if negb ok then mret false
      else
        dependency ← get (fun t => default zeroDependency (dependencies t !! key));
        applied ← applySummary dependency summary;
        if negb applied then mret false else applyDependencies summary rest
  end.

Definition publishSummary (published : interprocProcedureSummary) : run bool :=
  ok ← checkpointAt (sum_path published) (sum_witness published);
  if negb ok then mret false
  else
    let summary := injectSummary inp published in
    let key := summaryKey summary in
    existing ← get (fun t => summaries t !! key);
    match existing with
    | Some _ => mret true
    | None =>
        reserved ← reserveWorkUnit (sum_path summary) (sum_witness summary);
        if negb reserved then mret false
        else
          let entry := entryKey (sum_entry summary) in
          modify (fun t =>
            set_work
              (set_summaries t (<[key := summary]> (summaries t))
                 (<[entry := slices_Sort (default [] (summariesByEntry t !! entry) ++ [key])]>
                    (summariesByEntry t)))
              (workUnits t) (count_summary (stats t))) ;;
          keys ← get (fun t => default [] (dependenciesByEntry t !! entry));
          applyDependencies summary keys
    end.
End Operations.

(** ** Processing a path edge *)
Section Processing.
Context (inp : tabulationInput).
Abbreviation graph := (in_graph inp).
Abbreviation start := (in_start inp).
Abbreviation control := (in_control inp).

(** The tag and reason a node transfers a state with. *)
Definition nodeTransfer (n : interprocNodeID) (s : protocolAbstractState)
    : ideEdgeFuncTag * pathOutcomeReason :=
  let '(nodeTag, reason) := transfer inp n (astNode graph n) s in (nodeTag, injectReason inp reason).

(** A reason without effects ends the path as inconclusive. *)
Definition blockingReason (reason : pathOutcomeReason) : bool :=
  negb (String.eqb reason pathOutcomeReasonNone) && (protocolEffectsForUncertainty reason =? 0).

Definition nodeStateOf (s : protocolAbstractState) (tagReason : ideEdgeFuncTag * pathOutcomeReason)
    : protocolAbstractState :=
  withUncertainty (Apply (newIDEEdgeFunc (fst tagReason)) s) (snd tagReason).

(** The identity the relevance query uses. *)
Definition queryIdentityOf (nodeState : protocolAbstractState) (nodeReason : pathOutcomeReason)
    (sinkReached : bool) : Z :=
  let queryIdentity := Identity nodeState in
  let queryIdentity :=
    if UnresolvedIdentityAtSink (sinkPolicy inp) && sinkReached
    then protocolIdentityAtUnresolvedSink nodeReason queryIdentity else queryIdentity in
  if MustAliasUncertaintyAtSink (sinkPolicy inp) && sinkReached &&
     negb (String.eqb nodeReason pathOutcomeReasonNone) && (queryIdentity =? protocolIdentityMustAlias)
  then protocolIdentityMayAlias else queryIdentity.

Definition relevanceQueryOf (n : interprocNodeID) (nodeState : protocolAbstractState)
    (nodeReason : pathOutcomeReason) (returnEdges : list interprocEdge) : protocolRelevanceQuery :=
  let ast := astNode graph n in
  let sinkReached := obligationSinkReached inp n ast in
  mkQuery (negb (String.eqb nodeReason pathOutcomeReasonNone))
    (sinkReached ||
      (TerminalCanObserve (sinkPolicy inp) && (zlen returnEdges =? 0) &&
         terminalCanObserveObligation inp n ast))
    (queryIdentityOf nodeState nodeReason sinkReached) (PossibleEffects nodeState).

(** The definite violation that is checked before relevance. *)
Definition definiteViolation (n : interprocNodeID) (nodeState : protocolAbstractState) : bool :=
  negb (validationProven nodeState) && (Identity nodeState <? protocolIdentityMayAlias) &&
  terminalUnsafe inp n (astNode graph n) nodeState.

Definition relevantUncertainty (n : interprocNodeID) (nodeState : protocolAbstractState)
    (nodeReason : pathOutcomeReason) (returnEdges : list interprocEdge) : bool :=
  negb (String.eqb nodeReason pathOutcomeReasonNone) &&
  relevant (relevanceQueryOf n nodeState nodeReason returnEdges) nodeState.

Definition discharged (snapshot : interprocPathEdge) (trigger : string) : bool :=
  witnessIsDischarged (in_witnessHash inp) (pe_path snapshot) (pe_witness snapshot) (pe_node snapshot)
    trigger (in_discharged inp).

Definition recordInconclusive (snapshot : interprocPathEdge) (reason : pathOutcomeReason) : run unit :=
  modify (fun t => set_results t (budgetResult t) (unsafeResult t)
    (preferInterprocResult (inconclusiveResult t)
       (with_witness (interprocPathResultFromOutcome pathOutcomeInconclusive reason (pe_path snapshot))
          (pe_witness snapshot) (pe_node snapshot)))).

Definition recordUnsafe (snapshot : interprocPathEdge) : run unit :=
  modify (fun t => set_results t (budgetResult t)
    (preferInterprocResult (unsafeResult t)
       (with_witness (interprocPathResultFromOutcome pathOutcomeUnsafe pathOutcomeReasonNone (pe_path snapshot))
          (pe_witness snapshot) (pe_node snapshot)))
    (inconclusiveResult t)).

(** ** Successors *)

(** The tag, state and effect along an outgoing edge. *)
Definition edgeTransferOf (edge : interprocEdge) (nodeState : protocolAbstractState)
    : ideEdgeFuncTag * pathOutcomeReason :=
  let '(edgeTag, edgeReason) :=
    match edgeTransfer inp with
    | Some f => f edge nodeState
    | None => (ideEdgeFuncIdentity, pathOutcomeReasonNone)
    end in (edgeTag, injectReason inp edgeReason).

Definition edgeStateOf (edge : interprocEdge) (nodeState : protocolAbstractState) : protocolAbstractState :=
  nodeStateOf nodeState (edgeTransferOf edge nodeState).

Definition edgeEffectOf (edge : interprocEdge) (nodeState : protocolAbstractState)
    (nodeEffect : interprocConditionalEdgeFunc) : interprocConditionalEdgeFunc :=
  cond_then nodeEffect (fst (edgeTransferOf edge nodeState)).

Definition pruned (edge : interprocEdge) (nodeState : protocolAbstractState) : bool :=
  match PruneEdge inp with Some prune => prune edge nodeState | None => false end.

(** The AST node the relevance of an unresolved call is asked about. *)
Definition originNode (n : interprocNodeID) (edge : interprocEdge) : option Z :=
  match astNode graph n with
  | Some p => Some p
  | None => astNode graph
              (mkNode (FuncKey (From edge)) (BlockIndex (From edge)) (NodeIndex (From edge)) 0
                 interprocNodeKindCFG)
  end.

Definition unresolvedRelevant (n : interprocNodeID) (edge : interprocEdge)
    (nodeState : protocolAbstractState) : bool :=
  match unresolvedCallRelevant inp with
  | None => true
  | Some f => f n (originNode n edge) nodeState
  end.

(** The state after a local or call-to-return edge. *)
Definition nextStateOf (n : interprocNodeID) (edge : interprocEdge) (nodeState : protocolAbstractState)
    : protocolAbstractState :=
  if String.eqb (EKind edge) interprocEdgeCallToReturn &&
     negb (String.eqb (EReason edge) pathOutcomeReasonNone) && unresolvedRelevant n edge nodeState
  then withUncertainty (edgeStateOf edge nodeState) (injectReason inp (EReason edge))
  else edgeStateOf edge nodeState.

(** The witness whose last step ends in the final state of the edge. *)
Definition setLastStateAfter (witness : list interprocWitnessEdge) (s : protocolAbstractState)
    : list interprocWitnessEdge :=
  match reverse witness with
  | [] => witness
  | w :: rest =>
      reverse rest ++ [mkWitnessEdge (WFrom w) (WTo w) (WKind w) (WCallSite w) (WFactFamily w) (WFactKey w)
                         (StateBefore w) s (WEdgeFunctionTag w) (EdgeReason w) (WPredicateProvenance w)]
  end.

Definition dependencyOf (snapshot : interprocPathEdge) (edge : interprocEdge)
    (edgeState : protocolAbstractState) (edgeEffect : interprocConditionalEdgeFunc)
    (nextPath : list Z) (nextWitness : list interprocWitnessEdge) (returnEdge : interprocEdge)
    : interprocCallDependency :=
  mkDependency (mkEntry (To edge) edgeState) (From returnEdge) (pe_entry snapshot) (CallSite edge)
    (To returnEdge) edgeEffect nextPath nextWitness.

Fixpoint registerReturns (snapshot : interprocPathEdge) (edge : interprocEdge)
    (edgeState : protocolAbstractState) (edgeEffect : interprocConditionalEdgeFunc)
    (nextPath : list Z) (nextWitness : list interprocWitnessEdge) (matching : list interprocEdge)
    : run unit :=
  match matching with
  | [] => mret tt
  | returnEdge :: rest =>
      ok ← checkpointAt inp nextPath nextWitness;
      if negb ok then mret tt
      else
        registered ← registerDependency inp
          (dependencyOf snapshot edge edgeState edgeEffect nextPath nextWitness returnEdge);
        if negb registered then mret tt
        else registerReturns snapshot edge edgeState edgeEffect nextPath nextWitness rest
  end.

Definition budgetExceeded : run bool :=
  get (fun t => match budgetResult t with Some _ => true | None => false end).

(** One outgoing edge; the answer tells whether the loop goes on. *)
Definition processEdge (snapshot : interprocPathEdge) (nodeState : protocolAbstractState)
    (nodeEffect : interprocConditionalEdgeFunc) (edge : interprocEdge) : run bool :=
  if String.eqb (EKind edge) interprocEdgeReturn then mret true
  else if pruned edge nodeState then mret true
  else
    let edgeState := edgeStateOf edge nodeState in
    let edgeEffect := edgeEffectOf edge nodeState nodeEffect in
    let nextPath := appendWitnessBlock (pe_path snapshot) (BlockIndex (To edge)) in
    let nextWitness := appendInterprocWitnessEdge (pe_witness snapshot) edge (pe_state snapshot) edgeState
                         (interprocTransitionTag (pe_state snapshot) edgeState) in
    if String.eqb (EKind edge) interprocEdgeCall then
      matching ← lift (returnEdgesForCallWithControl graph (CallSite edge) (FuncKey (To edge)) control);
      if snd matching : bool then
        setBudgetExceeded inp pathOutcomeReasonTimeout nextPath nextWitness ;; mret false
      else
        registerReturns snapshot edge edgeState edgeEffect nextPath nextWitness (fst matching) ;;
        exceeded ← budgetExceeded;
        if exceeded : bool then mret false
        else
          enqueue inp (mkPathEdge (mkEntry (To edge) edgeState) (To edge) edgeState
                         identityInterprocConditionalEdgeFunc [BlockIndex (To edge)] []) ;;
          mret true
    else
      let nextState := nextStateOf (pe_node snapshot) edge nodeState in
      enqueue inp (mkPathEdge (pe_entry snapshot) (To edge) nextState edgeEffect nextPath
                     (if String.eqb (EKind edge) interprocEdgeCallToReturn &&
                         negb (String.eqb (EReason edge) pathOutcomeReasonNone) &&
                         unresolvedRelevant (pe_node snapshot) edge nodeState
                      then setLastStateAfter nextWitness nextState else nextWitness)).

Fixpoint processEdges (snapshot : interprocPathEdge) (nodeState : protocolAbstractState)
    (nodeEffect : interprocConditionalEdgeFunc) (edges : list interprocEdge) : run unit :=
  match edges with
  | [] => mret tt
  | edge :: rest =>
      ok ← checkpointAt inp (pe_path snapshot) (pe_witness snapshot);
      if negb ok then mret tt
      else
        continues ← processEdge snapshot nodeState nodeEffect edge;
        if negb continues then mret tt else processEdges snapshot nodeState nodeEffect rest
  end.

(** What follows the obligation checks of a node. *)
Definition propagateNode (snapshot : interprocPathEdge) (nodeTag : ideEdgeFuncTag)
    (nodeState : protocolAbstractState) (returnEdges : list interprocEdge) : run unit :=
  let nodeEffect := cond_then (pe_edgeFunction snapshot) nodeTag in
  match returnEdges with
  | _ :: _ =>
      publishSummary inp
        (mkSummary (pe_entry snapshot) (pe_node snapshot) nodeState nodeEffect (pe_path snapshot)
           (pe_witness snapshot) (pe_state snapshot) nodeTag) ;;
      mret tt
  | [] =>
      outgoing ← lift (outgoingWithControl graph (pe_node snapshot) control);
      if snd outgoing : bool then
        setBudgetExceeded inp pathOutcomeReasonTimeout (pe_path snapshot) (pe_witness snapshot)
      else processEdges snapshot nodeState nodeEffect (fst outgoing)
  end.

Definition observeExit (n : interprocNodeID) (nodeState : protocolAbstractState) : run unit :=
  if observesExit inp && String.eqb (FuncKey n) (FuncKey start) && isFunctionExitNode graph n
  then modify (fun t => set_observed t (observedExits t ++ [(n, nodeState)]) (polls t))
  else mret tt.

(** The body of the worklist loop for a stored path edge. *)
Definition processNode (snapshot : interprocPathEdge) : run unit :=
  let n := pe_node snapshot in
  let tagReason := nodeTransfer n (pe_state snapshot) in
  if blockingReason (snd tagReason) then
    if discharged snapshot (snd tagReason) then mret tt
    else recordInconclusive snapshot (snd tagReason)
  else
    let nodeState := nodeStateOf (pe_state snapshot) tagReason in
    let nodeReason := state_pathOutcomeReason nodeState in
    observeExit n nodeState ;;
    returns ← lift (returnEdgesFromWithControl graph n control);
    if snd returns : bool then
      setBudgetExceeded inp pathOutcomeReasonTimeout (pe_path snapshot) (pe_witness snapshot)
    else
      let returnEdges := fst returns in
      if definiteViolation n nodeState then
        if discharged snapshot cfgRefinementTriggerUnsafeCandidate then mret tt else recordUnsafe snapshot
      else
        let uncertain := relevantUncertainty n nodeState nodeReason returnEdges in
        if uncertain && discharged snapshot nodeReason then mret tt
        else
          (if uncertain then recordInconclusive snapshot nodeReason else mret tt) ;;
          if negb uncertain && terminalUnsafe inp n (astNode graph n) nodeState then
            if discharged snapshot cfgRefinementTriggerUnsafeCandidate then mret tt
            else recordUnsafe snapshot
          else propagateNode snapshot (fst tagReason) nodeState returnEdges.
End Processing.

(** ** The worklist loop *)
Section Loop.
Context (inp : tabulationInput).

Definition takeProtocolWorklist (q : list string) : option (string * list string) :=
  if worklistLIFO inp then
    match reverse q with [] => None | key :: rest => Some (key, reverse rest) end
  else match q with [] => None | key :: rest => Some (key, rest) end.

(** One iteration; [None] when the loop condition or its checkpoint ends it. *)
Definition loopBody (t : tabulation) : option tabulation :=
  match queue t, budgetResult t with
  | _ :: _, None =>
      let '(ok, t1) := checkpointAt inp [] [] t in
      if negb ok then None
      else
        match takeProtocolWorklist (queue t1) with
        | None => None
        | Some (key, remaining) =>
            let t2 := set_queue t1 remaining in
            match pathEdges t2 !! key with
            | None => Some t2
            | Some snapshot => Some (snd (processNode inp snapshot t2))
            end
        end
  | _, _ => None
  end.

(** The state in which the loop stops: the checkpoint that ends it may have set
    the budget result. *)
Definition loopExit (t : tabulation) : tabulation :=
  match queue t, budgetResult t with
  | _ :: _, None => snd (checkpointAt inp [] [] t)
  | _, _ => t
  end.

Fixpoint worklistLoop (fuel : nat) (t : tabulation) : option tabulation :=
  match loopBody t with
  | None => Some (loopExit t)
  | Some t' => match fuel with O => None | S fuel' => worklistLoop fuel' t' end
  end.

Definition attachGraph (result : interprocPathResult) : interprocPathResult :=
  match WitnessEdges result with
  | [] => result
  | _ => with_graph result (in_graph inp)
  end.

(** The verdict after the final checkpoint. *)
Definition verdict (t : tabulation) : interprocPathResult :=
  let t := match budgetResult t with None => snd (checkpointAt inp [] [] t) | Some _ => t end in
  match budgetResult t, unsafeResult t, inconclusiveResult t with
  | Some r, _, _ => attachGraph r
  | None, Some r, _ => attachGraph r
  | None, None, Some r => attachGraph r
  | None, None, None => interprocPathResultFromOutcome pathOutcomeSafe pathOutcomeReasonNone []
  end.

Definition rootPathEdge : interprocPathEdge :=
  mkPathEdge (rootEntry inp) (in_start inp) (initialState inp) identityInterprocConditionalEdgeFunc
    [BlockIndex (in_start inp)] [].

Definition runIFDSPropagationWithStatsOptions (fuel : nat) (clk : nat)
    : option (interprocPathResult * interprocTabulationStats) :=
  let '(expired, clk1) := feasibilityDeadlineReached (in_control inp) clk in
  if expired : bool then
    Some (interprocPathResultFromOutcome pathOutcomeInconclusive pathOutcomeReasonTimeout [], noStats)
  else
    match graphNodes (in_graph inp) !! NodeKey (in_start inp) with
    | None =>
        Some (interprocPathResultFromOutcome pathOutcomeInconclusive pathOutcomeReasonUnresolvedTarget [],
              noStats)
    | Some _ =>
        t ← worklistLoop fuel (snd (enqueue inp rootPathEdge (initialTabulation clk1)));
        Some (verdict t, stats t)
    end.

(** The iterations a run may take: one for every unit of work. *)
Definition runFuel : nat := S (Z.to_nat (effectiveMaxStates inp)).
End Loop.
