(* ===== verification/TabulationKeys.v ===== *)
(** * Keys of the tabulation tables

    The tables of the tabulation are maps keyed by strings built from node keys,
    states and effects.  Under the conditions real keys meet (function keys, node
    kinds and call sites contain no equals sign and no NUL, kinds no bar) each key
    determines what it was built from. *)

From S2P Require Export Tabulation.
Local Open Scope Z_scope.

Definition equals_sign : Ascii.ascii := Ascii.Ascii true false true true true true false false.

Lemma equals_sep (s : string) : "=" +:+ s = String equals_sign s.
Proof. done. Qed.

Definition free_of (c : Ascii.ascii) (s : string) : Prop := has_char c s = false.

Definition clean (s : string) : Prop := free_of equals_sign s /\ free_of Ascii.zero s.

Definition clean_node (n : interprocNodeID) : Prop :=
  clean (FuncKey n) /\ clean (NKind n) /\ bar_free (NKind n).

Lemma free_of_app c s t : free_of c (s +:+ t) <-> free_of c s /\ free_of c t.
Proof. unfold free_of. rewrite has_char_app, orb_false_iff. done. Qed.

Lemma clean_app s t : clean (s +:+ t) <-> clean s /\ clean t.
Proof. unfold clean. rewrite !free_of_app. tauto. Qed.

Lemma clean_itoa z : clean (itoa z).
Proof. split; by apply itoa_no_char. Qed.

Lemma clean_const (s : string) : has_char equals_sign s || has_char Ascii.zero s = false -> clean s.
Proof. intros [? ?]%orb_false_iff. done. Qed.

Lemma clean_NodeKey n : clean_node n -> clean (NodeKey n).
Proof.
  intros (Hf & Hk & _). unfold NodeKey. rewrite !clean_app.
  split_and!; try done; try apply clean_itoa; by apply clean_const.
Qed.

Lemma NodeKey_inj a b : clean_node a -> clean_node b -> NodeKey a = NodeKey b -> a = b.
Proof. intros (_ & _ & ?) (_ & _ & ?). by apply node_key_inj. Qed.

(** ** States at the front of a text *)
Lemma state_key_prefix s s' x y :
  nonnum_head x -> nonnum_head y -> state_key s +:+ x = state_key s' +:+ y -> s = s' /\ x = y.
Proof.
  destruct s as [v h u r d i p], s' as [v' h' u' r' d' i' p']. unfold state_key.
  cbn [Validation Hazards Uncertainty Result DeferredError Identity PossibleEffects].
  rewrite !string_app_assoc. intros Hx Hy H.
  apply string_app_inj_l in H. apply itoa_prefix in H as [<- H]; [|done..].
  apply string_app_inj_l in H. apply itoa_prefix in H as [<- H]; [|done..].
  apply string_app_inj_l in H. apply itoa_prefix in H as [<- H]; [|done..].
  apply string_app_inj_l in H. apply itoa_prefix in H as [<- H]; [|done..].
  apply string_app_inj_l in H. apply itoa_prefix in H as [<- H]; [|done..].
  apply string_app_inj_l in H. apply itoa_prefix in H as [<- H]; [|done..].
  apply string_app_inj_l in H. apply itoa_prefix in H as [<- H]; [|done..].
  done.
Qed.

Lemma cond_key_prefix e e' x y :
  nonnum_head x -> nonnum_head y -> cond_key e +:+ x = cond_key e' +:+ y -> e = e' /\ x = y.
Proof.
  destruct e as [r p], e' as [r' p']. unfold cond_key. cbn [required proven].
  rewrite !string_app_assoc. intros Hx Hy H.
  apply state_key_prefix in H as [<- H]; [|done..]. apply string_app_inj_l in H.
  by apply state_key_prefix in H as [<- ->].
Qed.

Lemma cond_key_inj e e' : cond_key e = cond_key e' -> e = e'.
Proof.
  intros H. rewrite <- (string_app_nil_r (cond_key e)), <- (string_app_nil_r (cond_key e')) in H.
  by apply cond_key_prefix in H as [-> _].
Qed.

(** ** Fields that end before an equals sign *)
Lemma length_string_app (a b : string) :
  String.length (a +:+ b) = (String.length a + String.length b)%nat.
Proof. induction a as [|x a IH]; str_simpl; by rewrite ?IH. Qed.

Lemma string_app_inj_r (a b c : string) : a +:+ c = b +:+ c -> a = b.
Proof.
  revert b. induction a as [|x a IH]; intros [|y b]; rewrite ?string_app_nil_l, ?string_app_cons; try done.
  - intros H. exfalso. assert (String.length c = String.length (String y (b +:+ c))) as E by (by rewrite <- H).
    simpl in E. rewrite length_string_app in E. lia.
  - intros H. exfalso. assert (String.length (String x (a +:+ c)) = String.length c) as E by (by rewrite H).
    simpl in E. rewrite length_string_app in E. lia.
  - intros [= -> H]. f_equal. by apply IH.
Qed.

(** A clean field, a label without an equals sign, and the equals sign. *)
Lemma field_inj (a b label x y : string) :
  clean a -> clean b -> clean label ->
  a +:+ label +:+ "=" +:+ x = b +:+ label +:+ "=" +:+ y -> a = b /\ x = y.
Proof.
  intros [Ha _] [Hb _] [Hl _]. rewrite !equals_sep, <- !string_app_assoc. intros H.
  apply sep_inj_l in H as [H ->]; [|by apply free_of_app..].
  by apply string_app_inj_r in H.
Qed.

(** ** The keys of the tables *)
Definition clean_entry (e : interprocEntryFact) : Prop := clean_node (entry_node e).

Lemma entryKey_eq e :
  entryKey e = NodeKey (entry_node e) +:+ "|entry-fact" +:+ "=" +:+ state_key (entry_state e).
Proof. done. Qed.

Lemma clean_NodeKey_label n : clean_node n -> clean (NodeKey n).
Proof. apply clean_NodeKey. Qed.

Lemma entry_key_prefix e e' x y :
  clean_entry e -> clean_entry e' -> nonnum_head x -> nonnum_head y ->
  entryKey e +:+ x = entryKey e' +:+ y -> e = e' /\ x = y.
Proof.
  intros He He' Hx Hy. rewrite !entryKey_eq, !string_app_assoc. intros H.
  apply field_inj in H as [Hn H]; [|by apply clean_NodeKey..|by apply clean_const].
  apply NodeKey_inj in Hn; [|done..]. apply state_key_prefix in H as [Hs ->]; [|done..].
  destruct e, e'. simpl in *. by subst.
Qed.

Lemma entryKey_inj e e' : clean_entry e -> clean_entry e' -> entryKey e = entryKey e' -> e = e'.
Proof.
  intros He He' H. rewrite <- (string_app_nil_r (entryKey e)), <- (string_app_nil_r (entryKey e')) in H.
  by apply entry_key_prefix in H as [-> _].
Qed.

(** The part of a path edge its key covers. *)
Definition contribution (pe : interprocPathEdge) :
    interprocEntryFact * interprocNodeID * protocolAbstractState * interprocConditionalEdgeFunc :=
  (pe_entry pe, pe_node pe, pe_state pe, pe_edgeFunction pe).

Definition clean_pathEdge (pe : interprocPathEdge) : Prop :=
  clean_entry (pe_entry pe) /\ clean_node (pe_node pe).

Lemma pathEdgeKey_eq pe :
  pathEdgeKey pe = entryKey (pe_entry pe) +:+ "|procedure=" +:+ FuncKey (pe_node pe) +:+ "|node" +:+ "=" +:+
    NodeKey (pe_node pe) +:+ "|current-fact" +:+ "=" +:+ state_key (pe_state pe) +:+ "|edge-function=" +:+
    cond_key (pe_edgeFunction pe).
Proof. done. Qed.

Lemma pathEdgeKey_inj a b :
  clean_pathEdge a -> clean_pathEdge b -> pathEdgeKey a = pathEdgeKey b -> contribution a = contribution b.
Proof.
  intros [Hea Ha] [Heb Hb]. rewrite !pathEdgeKey_eq. intros H.
  apply entry_key_prefix in H as [He H]; [|done..]. apply string_app_inj_l in H.
  apply field_inj in H as [_ H]; [|by apply Ha|by apply Hb|by apply clean_const].
  apply field_inj in H as [Hn H]; [|by apply clean_NodeKey..|by apply clean_const].
  apply NodeKey_inj in Hn; [|done..].
  apply state_key_prefix in H as [Hs H]; [|done..]. apply string_app_inj_l in H. apply cond_key_inj in H.
  unfold contribution. congruence.
Qed.

Definition clean_dependency (d : interprocCallDependency) : Prop :=
  clean_entry (calleeEntry d) /\ clean_node (calleeExit d) /\ clean_entry (callerEntry d) /\
  clean (dep_callSite d) /\ clean_node (returnNode d).

(** The part of a dependency its key covers. *)
Definition dependency_facts (d : interprocCallDependency) :=
  (calleeEntry d, calleeExit d, callerEntry d, dep_callSite d, returnNode d, callerEffect d).

Lemma dependencyKey_eq d :
  dependencyKey d = entryKey (calleeEntry d) +:+ "|callee-exit=" +:+ NodeKey (calleeExit d) +:+
    "|caller-entry" +:+ "=" +:+ entryKey (callerEntry d) +:+ "|call-site=" +:+ dep_callSite d +:+
    "|return-node" +:+ "=" +:+ NodeKey (returnNode d) +:+ "|caller-effect" +:+ "=" +:+ cond_key (callerEffect d).
Proof. done. Qed.

Lemma dependencyKey_inj a b :
  clean_dependency a -> clean_dependency b -> dependencyKey a = dependencyKey b ->
  dependency_facts a = dependency_facts b.
Proof.
  intros (Ha1 & Ha2 & Ha3 & Ha4 & Ha5) (Hb1 & Hb2 & Hb3 & Hb4 & Hb5). rewrite !dependencyKey_eq. intros H.
  apply entry_key_prefix in H as [H1 H]; [|done..]. apply string_app_inj_l in H.
  apply field_inj in H as [H2 H]; [|by apply clean_NodeKey..|by apply clean_const].
  apply entry_key_prefix in H as [H3 H]; [|done..]. apply string_app_inj_l in H.
  apply field_inj in H as [H4 H]; [|done..|by apply clean_const].
  apply field_inj in H as [H5 H]; [|by apply clean_NodeKey..|by apply clean_const].
  apply NodeKey_inj in H2, H5; [|done..]. apply cond_key_inj in H.
  unfold dependency_facts. congruence.
Qed.

Definition clean_summary (s : interprocProcedureSummary) : Prop :=
  clean_entry (sum_entry s) /\ clean_node (sum_exit s).

(** The part of a summary its key covers. *)
Definition summary_facts (s : interprocProcedureSummary) :=
  (sum_entry s, sum_exit s, sum_state s, sum_edgeFunction s).

Lemma summaryKey_eq s :
  summaryKey s = entryKey (sum_entry s) +:+ "|exit=" +:+ NodeKey (sum_exit s) +:+ "|exit-fact" +:+ "=" +:+
    state_key (sum_state s) +:+ "|edge-function=" +:+ cond_key (sum_edgeFunction s).
Proof. done. Qed.

Lemma summaryKey_inj a b :
  clean_summary a -> clean_summary b -> summaryKey a = summaryKey b -> summary_facts a = summary_facts b.
Proof.
  intros [Ha1 Ha2] [Hb1 Hb2]. rewrite !summaryKey_eq. intros H.
  apply entry_key_prefix in H as [H1 H]; [|done..]. apply string_app_inj_l in H.
  apply field_inj in H as [H2 H]; [|by apply clean_NodeKey..|by apply clean_const].
  apply state_key_prefix in H as [H3 H]; [|done..]. apply string_app_inj_l in H. apply cond_key_inj in H.
  apply NodeKey_inj in H2; [|done..]. unfold summary_facts. congruence.
Qed.

(** The tables of the tabulation never confuse facts: as long as function keys,
    node kinds and call sites contain no equals sign and no NUL, and kinds no bar,
    two path edges, dependencies or summaries with the same key agree on everything
    the key is meant to identify. *)
Theorem table_keys_identify :
  (forall a b, clean_pathEdge a -> clean_pathEdge b ->
     (pathEdgeKey a = pathEdgeKey b <-> contribution a = contribution b)) /\
  (forall a b, clean_dependency a -> clean_dependency b ->
     (dependencyKey a = dependencyKey b <-> dependency_facts a = dependency_facts b)) /\
  (forall a b, clean_summary a -> clean_summary b ->
     (summaryKey a = summaryKey b <-> summary_facts a = summary_facts b)).
Proof.
  split_and!; intros a b Ha Hb; (split; [auto using pathEdgeKey_inj, dependencyKey_inj, summaryKey_inj|]).
  - unfold contribution. intros [= E1 E2 E3 E4]. rewrite !pathEdgeKey_eq. congruence.
  - unfold dependency_facts. intros [= E1 E2 E3 E4 E5 E6]. rewrite !dependencyKey_eq. congruence.
  - unfold summary_facts. intros [= E1 E2 E3 E4]. rewrite !summaryKey_eq. congruence.
Qed.
