(* ===== verification/Derivation.v ===== *)
(** * What the tabulation computes

    The specification of [goplint/cfa_ifds_tabulation.go]: configurations of the
    analyzed program (a node, a protocol state and the stack of open calls) with
    their moves, the path edges derivable with procedure summaries, and the proof
    that both reach the same states.  Calls and returns are matched by call site
    and callee, so the moves are the interprocedurally valid paths. *)

From S2P Require Export TabulationKeys.
Local Open Scope Z_scope.

(** ** Return edges *)
Lemma keepReturns_transparent edges : forall out, transparent (fun c => keepReturns c edges out).
Proof. induction edges as [|e edges IH]; intros out; cbn [keepReturns]; transparency; auto. Qed.

Lemma keepReturns_outcome edges : forall out,
  outcome (fun c => keepReturns c edges out) = out ++ filter (fun e => EKind e = interprocEdgeReturn) edges.
Proof.
  induction edges as [|e edges IH]; intros out; [by rewrite app_nil_r|].
  cbn [keepReturns]. outcome_step. rewrite IH, filter_cons.
  destruct (String.eqb_spec (EKind e) interprocEdgeReturn) as [E|E]; [|by rewrite decide_False].
  by rewrite decide_True, <- app_assoc.
Qed.

Lemma returnsFrom_transparent graph n : transparent (returnEdgesFromWithControl graph n).
Proof.
  unfold returnEdgesFromWithControl.
  apply (transparent_unless (outgoingWithControl graph n) [] (fun edges c => keepReturns c edges []));
    auto using keepReturns_transparent with goplint.
Qed.

Lemma keepMatching_transparent site f edges : forall out, transparent (fun c => keepMatching c site f edges out).
Proof. induction edges as [|e edges IH]; intros out; cbn [keepMatching]; transparency; auto. Qed.

Lemma keepMatching_outcome site f edges : forall out,
  outcome (fun c => keepMatching c site f edges out) =
  merge_sort return_le (out ++ filter (fun e => isMatchingReturn site f e = true) edges).
Proof.
  induction edges as [|e edges IH]; intros out; [by rewrite app_nil_r|].
  cbn [keepMatching]. outcome_step. rewrite IH, filter_cons.
  destruct (isMatchingReturn site f e); [|done]. by rewrite decide_True, <- app_assoc.
Qed.

Lemma returnsForCall_transparent graph site f : transparent (returnEdgesForCallWithControl graph site f).
Proof. apply keepMatching_transparent. Qed.

Lemma keepReturns_honest edges : forall out, honest (fun c => keepReturns c edges out).
Proof. induction edges as [|e edges IH]; intros out; cbn [keepReturns]; honesty; auto. Qed.

Lemma returnsFrom_honest graph n : honest (returnEdgesFromWithControl graph n).
Proof.
  unfold returnEdgesFromWithControl.
  apply (honest_unless (outgoingWithControl graph n) [] (fun edges c => keepReturns c edges []));
    auto using keepReturns_honest with goplint.
Qed.

Lemma returnsForCall_honest graph site f : honest (returnEdgesForCallWithControl graph site f).
Proof.
  unfold returnEdgesForCallWithControl. generalize (@nil interprocEdge).
  induction (graphEdges graph) as [|e edges IH]; intros out; cbn [keepMatching]; honesty; auto.
Qed.
#[export] Hint Resolve returnsFrom_transparent returnsForCall_transparent
  returnsFrom_honest returnsForCall_honest : goplint.

Definition returnEdgesFrom (graph : interprocSupergraph) (n : interprocNodeID) : list interprocEdge :=
  outcome (returnEdgesFromWithControl graph n).
Definition returnEdgesForCall (graph : interprocSupergraph) (site f : string) : list interprocEdge :=
  outcome (returnEdgesForCallWithControl graph site f).

Lemma elem_of_returnsFrom graph n r :
  r ∈ returnEdgesFrom graph n <-> r ∈ outgoing graph n /\ EKind r = interprocEdgeReturn.
Proof.
  unfold returnEdgesFrom, returnEdgesFromWithControl.
  rewrite (outcome_unless (outgoingWithControl graph n) [] (fun edges c => keepReturns c edges []))
    by auto with goplint.
  rewrite keepReturns_outcome. change (outcome (outgoingWithControl graph n)) with (outgoing graph n).
  cbn [app]. rewrite list_elem_of_filter. apply and_comm.
Qed.

Lemma elem_of_returnsForCall graph site f r :
  r ∈ returnEdgesForCall graph site f <-> r ∈ graphEdges graph /\ isMatchingReturn site f r = true.
Proof.
  unfold returnEdgesForCall, returnEdgesForCallWithControl.
  change (outcome _) with (outcome (fun c => keepMatching c site f (graphEdges graph) [])).
  rewrite keepMatching_outcome, merge_sort_Permutation. cbn [app].
  rewrite list_elem_of_filter. apply and_comm.
Qed.

Lemma isMatchingReturn_spec site f r :
  isMatchingReturn site f r = true <->
  EKind r = interprocEdgeReturn /\ CallSite r = site /\ FuncKey (From r) = f.
Proof. unfold isMatchingReturn. rewrite !andb_true_iff, !String.eqb_eq. tauto. Qed.

(** ** Node verdicts *)
Inductive nodeVerdict := Blocked | Violates | Uncertain | Clear.

Section Semantics.
Context (inp : tabulationInput).
Abbreviation graph := (in_graph inp).

(** The state after the node's own transfer. *)
Definition stateAfter (n : interprocNodeID) (s : protocolAbstractState) : protocolAbstractState :=
  nodeStateOf s (nodeTransfer inp n s).

Definition uncertainAt (n : interprocNodeID) (s : protocolAbstractState) : bool :=
  relevantUncertainty inp n (stateAfter n s) (state_pathOutcomeReason (stateAfter n s))
    (returnEdgesFrom graph n).

(** What a node says about a state that reaches it: a reason without effects
    blocks; an obligation is violated for certain, or possibly, or not at all. *)
Definition judge (n : interprocNodeID) (s : protocolAbstractState) : nodeVerdict :=
  if blockingReason (snd (nodeTransfer inp n s)) then Blocked
  else if definiteViolation inp n (stateAfter n s) then Violates
  else if uncertainAt n s then Uncertain
  else if terminalUnsafe inp n (astNode graph n) (stateAfter n s) then Violates
  else Clear.

(** Paths end where they are blocked or violate the obligation. *)
Definition continues (n : interprocNodeID) (s : protocolAbstractState) : Prop :=
  judge n s = Uncertain \/ judge n s = Clear.

(** An edge a path takes out of a node that is not a procedure exit. *)
Definition takes (n : interprocNodeID) (s : protocolAbstractState) (edge : interprocEdge) : Prop :=
  continues n s /\ returnEdgesFrom graph n = [] /\ edge ∈ outgoing graph n /\
  EKind edge <> interprocEdgeReturn /\ pruned inp edge (stateAfter n s) = false.

Definition stateAlong (edge : interprocEdge) (n : interprocNodeID) (s : protocolAbstractState) :=
  edgeStateOf inp edge (stateAfter n s).

(** ** Configurations and moves *)
Definition configuration : Type := interprocNodeID * protocolAbstractState * list (string * string).

Inductive moves : configuration -> configuration -> Prop :=
| move_local n s stack edge :
    takes n s edge -> EKind edge <> interprocEdgeCall ->
    moves (n, s, stack) (To edge, nextStateOf inp n edge (stateAfter n s), stack)
| move_call n s stack edge :
    takes n s edge -> EKind edge = interprocEdgeCall ->
    moves (n, s, stack) (To edge, stateAlong edge n s, (CallSite edge, FuncKey (To edge)) :: stack)
| move_return n s stack r :
    continues n s -> r ∈ graphEdges graph -> EKind r = interprocEdgeReturn -> From r = n ->
    moves (n, s, (CallSite r, FuncKey n) :: stack) (To r, stateAfter n s, stack).

Definition initialConfiguration : configuration := (in_start inp, initialState inp, []).

Definition reachable (n : interprocNodeID) (s : protocolAbstractState) : Prop :=
  exists stack, rtc moves initialConfiguration (n, s, stack).

(** ** Derivable path edges *)
Definition effectAfter (n : interprocNodeID) (s : protocolAbstractState) (f : interprocConditionalEdgeFunc) :=
  cond_then f (fst (nodeTransfer inp n s)).

Definition effectAlong (edge : interprocEdge) (n : interprocNodeID) (s : protocolAbstractState)
    (f : interprocConditionalEdgeFunc) :=
  edgeEffectOf inp edge (stateAfter n s) (effectAfter n s f).

Abbreviation pathFact :=
  (interprocEntryFact * interprocNodeID * protocolAbstractState * interprocConditionalEdgeFunc)%type.

Inductive derivable : pathFact -> Prop :=
| derive_root :
    derivable (rootEntry inp, in_start inp, initialState inp, identityInterprocConditionalEdgeFunc)
| derive_local e n s f edge :
    derivable (e, n, s, f) -> takes n s edge -> EKind edge <> interprocEdgeCall ->
    derivable (e, To edge, nextStateOf inp n edge (stateAfter n s), effectAlong edge n s f)
| derive_call e n s f edge :
    derivable (e, n, s, f) -> takes n s edge -> EKind edge = interprocEdgeCall ->
    derivable (mkEntry (To edge) (stateAlong edge n s), To edge, stateAlong edge n s,
               identityInterprocConditionalEdgeFunc)
| derive_return e n s f edge r sx fx :
    derivable (e, n, s, f) -> takes n s edge -> EKind edge = interprocEdgeCall ->
    r ∈ graphEdges graph -> isMatchingReturn (CallSite edge) (FuncKey (To edge)) r = true ->
    derivable (mkEntry (To edge) (stateAlong edge n s), From r, sx, fx) -> continues (From r) sx ->
    derivable (e, To r, stateAfter (From r) sx,
               thenSummary (effectAlong edge n s f) (effectAfter (From r) sx fx)).

(** The stacks under which the procedure of an entry fact may run. *)
Inductive opened : interprocEntryFact -> list (string * string) -> Prop :=
| opened_root : opened (rootEntry inp) []
| opened_call e n s f edge stack :
    opened e stack -> derivable (e, n, s, f) -> takes n s edge -> EKind edge = interprocEdgeCall ->
    opened (mkEntry (To edge) (stateAlong edge n s)) ((CallSite edge, FuncKey (To edge)) :: stack).

Lemma moves_derivable c c' :
  moves c c' ->
  (exists e f, opened e (snd c) /\ derivable (e, fst (fst c), snd (fst c), f)) ->
  exists e f, opened e (snd c') /\ derivable (e, fst (fst c'), snd (fst c'), f).
Proof.
  intros Hm (e & f & Ho & Hd). destruct Hm as [n s st edge Ht Hk|n s st edge Ht Hk|n s st r Hc Hr Hk Hn]; simpl in *.
  - exists e, (effectAlong edge n s f). split; [done|]. by apply derive_local.
  - eexists _, identityInterprocConditionalEdgeFunc. split; [by eapply opened_call|]. by eapply derive_call.
  - inversion Ho as [|e0 n0 s0 f0 edge st0 Ho0 Hd0 Ht0 Hk0]; subst.
    eexists e0, _. split; [done|]. eapply derive_return; try done. by apply isMatchingReturn_spec.
Qed.

Lemma reachable_derivable n s : reachable n s -> exists e f, derivable (e, n, s, f).
Proof.
  intros [st H].
  assert (exists e f, opened e st /\ derivable (e, n, s, f)) as (e & f & _ & ?); [|by eauto].
  change st with (snd ((n, s), st)). change n with (fst (fst ((n, s), st))) at 2.
  change s with (snd (fst ((n, s), st))) at 3.
  remember ((n, s), st) as c eqn:Ec. clear Ec. revert c H. apply rtc_ind_r.
  - exists (rootEntry inp), identityInterprocConditionalEdgeFunc.
    split; [apply opened_root|apply derive_root].
  - intros c c' _ Hm IH. by eapply moves_derivable.
Qed.

(** A derivable path edge is a path through its procedure under every stack the
    procedure is entered with, and it is entered with some. *)
Lemma derivable_paths e n s f :
  derivable (e, n, s, f) ->
  (exists stack, rtc moves initialConfiguration (entry_node e, entry_state e, stack)) /\
  forall stack, rtc moves initialConfiguration (entry_node e, entry_state e, stack) ->
    rtc moves initialConfiguration (n, s, stack).
Proof.
  intros Hd. remember (e, n, s, f) as c eqn:Ec. revert e n s f Ec.
  induction Hd as [|e n s f edge _ IH Ht Hk|e n s f edge _ IH Ht Hk
    |e n s f edge r sx fx _ IH Ht Hk Hr Hm _ IHx Hc]; intros e' n' s' f' [= <- <- <- <-].
  - split; [by exists []|done].
  - destruct (IH _ _ _ _ eq_refl) as [Hs Hp]. split; [done|]. intros st Hst.
    eapply rtc_r; [by apply Hp|]. by apply move_local.
  - destruct (IH _ _ _ _ eq_refl) as [[st Hs] Hp]. split; [|done].
    eexists. eapply rtc_r; [by apply Hp|]. by apply move_call.
  - destruct (IH _ _ _ _ eq_refl) as [Hs Hp], (IHx _ _ _ _ eq_refl) as [_ Hx]. split; [done|].
    intros st Hst. apply isMatchingReturn_spec in Hm as (Hmk & Hsite & Hcallee).
    eapply rtc_r; [apply Hx; eapply rtc_r; [by apply Hp|by apply move_call]|].
    rewrite <- Hsite, <- Hcallee. by apply move_return.
Qed.

Lemma derivable_reachable e n s f : derivable (e, n, s, f) -> reachable n s.
Proof. intros H. destruct (derivable_paths _ _ _ _ H) as [[st Hs] Hp]. exists st. auto. Qed.
End Semantics.

(** Procedure summaries lose and invent nothing: a state reaches a node on some
    interprocedurally valid path, with every return matched to the call that opened
    it, exactly when the tabulation rules derive a path edge to that node with that
    state from some entry fact. *)
Lemma summaries_exact inp n s :
  (exists e f, derivable inp (e, n, s, f)) <-> reachable inp n s.
Proof.
  split; [|apply reachable_derivable]. intros (e & f & Hd). by eapply derivable_reachable.
Qed.
