(* ===== verification/Traces.v ===== *)
(** * Traced path edges

    The path edges of [goplint/cfa_ifds_tabulation.go] with the block path and the
    witness they were derived with: what a run of the tabulation may store, register
    and publish, including the concrete history a discharged witness names. *)

From S2P Require Export Derivation.
Local Open Scope Z_scope.

Section Traces.
Context (inp : tabulationInput).
Abbreviation graph := (in_graph inp).

(** ** What a path edge becomes along an outgoing edge *)
Definition stateOut (pe : interprocPathEdge) (edge : interprocEdge) : protocolAbstractState :=
  stateAlong inp edge (pe_node pe) (pe_state pe).
Definition effectOut (pe : interprocPathEdge) (edge : interprocEdge) : interprocConditionalEdgeFunc :=
  effectAlong inp edge (pe_node pe) (pe_state pe) (pe_edgeFunction pe).
Definition nextOf (pe : interprocPathEdge) (edge : interprocEdge) : protocolAbstractState :=
  nextStateOf inp (pe_node pe) edge (stateAfter inp (pe_node pe) (pe_state pe)).

Definition pathAlong (pe : interprocPathEdge) (edge : interprocEdge) : list Z :=
  appendWitnessBlock (pe_path pe) (BlockIndex (To edge)).

Definition witnessAlong (pe : interprocPathEdge) (edge : interprocEdge) : list interprocWitnessEdge :=
  appendInterprocWitnessEdge (pe_witness pe) edge (pe_state pe) (stateOut pe edge)
    (interprocTransitionTag (pe_state pe) (stateOut pe edge)).

(** An unresolved call whose effects are relevant leaves its reason in the state. *)
Definition leavesUncertainty (pe : interprocPathEdge) (edge : interprocEdge) : bool :=
  String.eqb (EKind edge) interprocEdgeCallToReturn &&
  negb (String.eqb (EReason edge) pathOutcomeReasonNone) &&
  unresolvedRelevant inp (pe_node pe) edge (stateAfter inp (pe_node pe) (pe_state pe)).

Definition localPathEdge (pe : interprocPathEdge) (edge : interprocEdge) : interprocPathEdge :=
  mkPathEdge (pe_entry pe) (To edge) (nextOf pe edge) (effectOut pe edge) (pathAlong pe edge)
    (if leavesUncertainty pe edge then setLastStateAfter (witnessAlong pe edge) (nextOf pe edge)
     else witnessAlong pe edge).

Definition calleePathEdge (pe : interprocPathEdge) (edge : interprocEdge) : interprocPathEdge :=
  mkPathEdge (mkEntry (To edge) (stateOut pe edge)) (To edge) (stateOut pe edge)
    identityInterprocConditionalEdgeFunc [BlockIndex (To edge)] [].

Definition dependencyAt (pe : interprocPathEdge) (edge r : interprocEdge) : interprocCallDependency :=
  dependencyOf pe edge (stateOut pe edge) (effectOut pe edge) (pathAlong pe edge) (witnessAlong pe edge) r.

Definition summaryAt (pe : interprocPathEdge) : interprocProcedureSummary :=
  mkSummary (pe_entry pe) (pe_node pe) (stateAfter inp (pe_node pe) (pe_state pe))
    (effectAfter inp (pe_node pe) (pe_state pe) (pe_edgeFunction pe)) (pe_path pe) (pe_witness pe)
    (pe_state pe) (fst (nodeTransfer inp (pe_node pe) (pe_state pe))).

(** ** Traces *)

(** A call of a path edge and one way its callee returns to it. *)
Record calls (pe : interprocPathEdge) (edge r : interprocEdge) : Prop := {
  calls_takes : takes inp (pe_node pe) (pe_state pe) edge;
  calls_kind : EKind edge = interprocEdgeCall;
  calls_return : r ∈ graphEdges graph;
  calls_matching : isMatchingReturn (CallSite edge) (FuncKey (To edge)) r = true;
}.

Inductive traced : interprocPathEdge -> Prop :=
| trace_root : traced (rootPathEdge inp)
| trace_local pe edge :
    traced pe -> takes inp (pe_node pe) (pe_state pe) edge -> EKind edge <> interprocEdgeCall ->
    traced (localPathEdge pe edge)
| trace_call pe edge :
    traced pe -> takes inp (pe_node pe) (pe_state pe) edge -> EKind edge = interprocEdgeCall ->
    traced (calleePathEdge pe edge)
| trace_return pe edge r px :
    traced pe -> calls pe edge r -> traced px ->
    pe_entry px = mkEntry (To edge) (stateOut pe edge) -> pe_node px = From r ->
    continues inp (pe_node px) (pe_state px) ->
    traced (returnPathEdge (dependencyAt pe edge r) (summaryAt px)).

Lemma traced_derivable pe : traced pe -> derivable inp (contribution pe).
Proof.
  induction 1 as [|pe edge _ IH Ht Hk|pe edge _ IH Ht Hk|pe edge r px _ IH Hc _ IHx He Hn Hx].
  - apply derive_root.
  - by apply derive_local.
  - by eapply derive_call.
  - destruct Hc. unfold contribution in IHx. rewrite He, Hn in IHx. rewrite Hn in Hx.
    unfold contribution, returnPathEdge. cbn. rewrite Hn. by eapply derive_return.
Qed.

Lemma traced_reachable pe : traced pe -> reachable inp (pe_node pe) (pe_state pe).
Proof. intros H%traced_derivable. by eapply derivable_reachable. Qed.

(** What a run registers for a call and publishes for an exit. *)
Definition call_traced (d : interprocCallDependency) : Prop :=
  exists pe edge r, traced pe /\ calls pe edge r /\ d = dependencyAt pe edge r.

Definition exit_traced (x : interprocProcedureSummary) : Prop :=
  exists pe, traced pe /\ continues inp (pe_node pe) (pe_state pe) /\ x = summaryAt pe.

Lemma return_traced d x :
  call_traced d -> exit_traced x -> calleeEntry d = sum_entry x -> calleeExit d = sum_exit x ->
  traced (returnPathEdge d x).
Proof.
  intros (pe & edge & r & Hp & Hc & ->) (px & Hx & Hcx & ->) He Hn. cbn in He, Hn.
  by apply trace_return.
Qed.

(** ** Discharged witnesses *)

(** Some traced path edge reaches the node in the state with a discharged witness. *)
Definition discharged_at (n : interprocNodeID) (s : protocolAbstractState) : Prop :=
  exists pe trigger,
    traced pe /\ pe_node pe = n /\ pe_state pe = s /\ discharged inp pe trigger = true.

(** A path edge with this contribution has a discharged witness. *)
Definition excused (c : interprocEntryFact * interprocNodeID * protocolAbstractState *
    interprocConditionalEdgeFunc) : Prop :=
  exists pe trigger, traced pe /\ contribution pe = c /\ discharged inp pe trigger = true.

Lemma excused_at e n s f : excused (e, n, s, f) -> discharged_at n s.
Proof. intros (pe & trigger & Hp & [= _ <- <- _] & Hd). by exists pe, trigger. Qed.

Lemma nothing_discharged n s : in_discharged inp = [] -> ~ discharged_at n s.
Proof.
  intros H (pe & trigger & _ & _ & _ & Hd). unfold discharged, witnessIsDischarged in Hd. by rewrite H in Hd.
Qed.

(** A path that goes through a discharged witness on its way. *)
Definition excused_path (c : configuration) : Prop :=
  exists m s' stack, rtc (moves inp) (initialConfiguration inp) (m, s', stack) /\
    rtc (moves inp) (m, s', stack) c /\ discharged_at m s'.

Lemma excused_path_step c c' : excused_path c -> moves inp c c' -> excused_path c'.
Proof. intros (m & s' & stack & H1 & H2 & Hd) Hm. exists m, s', stack. split_and!; [done|by eapply rtc_r|done]. Qed.

Lemma not_excused_path c : in_discharged inp = [] -> ~ excused_path c.
Proof. intros H (m & s' & stack & _ & _ & Hd). by eapply nothing_discharged. Qed.
End Traces.
