(* ===== verification/TabulationInvariant.v ===== *)
(** * The invariant of the tabulation

    What the tables of a run hold ([wf]: only traced path edges, indexed
    consistently), how operations move a run forward ([advances]), and the
    specification of every operation of [Tabulation.v] in these terms. *)

From S2P Require Export Traces.
Local Open Scope Z_scope.

(** ** Storage keys *)
Lemma state_key_no_nul s : free_of Ascii.zero (state_key s).
Proof.
  unfold state_key, free_of. rewrite !has_char_app, !itoa_no_char by done. done.
Qed.

Lemma cond_key_no_nul f : free_of Ascii.zero (cond_key f).
Proof.
  unfold cond_key. rewrite !free_of_app.
  split_and!; [apply state_key_no_nul|reflexivity|apply state_key_no_nul].
Qed.

Lemma pathEdgeKey_no_nul pe : clean_pathEdge pe -> free_of Ascii.zero (pathEdgeKey pe).
Proof.
  intros [He Hn]. rewrite pathEdgeKey_eq, entryKey_eq, !free_of_app.
  split_and!; lazymatch goal with
  | |- free_of _ (state_key _) => apply state_key_no_nul
  | |- free_of _ (cond_key _) => apply cond_key_no_nul
  | |- free_of _ (NodeKey _) => by apply clean_NodeKey
  | |- free_of _ (FuncKey _) => apply Hn
  | |- _ => reflexivity
  end.
Qed.

Lemma storageKey_inj ck ck' wid wid' :
  free_of Ascii.zero ck -> free_of Ascii.zero ck' ->
  storageKeyOf ck wid = storageKeyOf ck' wid' -> ck = ck' /\ wid = wid'.
Proof.
  intros H H' E. unfold storageKeyOf, NUL in E. rewrite !string_app_cons, !string_app_nil_l in E.
  apply sep_inj_l in E as [-> E]; [|done..]. by injection E as ->.
Qed.


(** ** The invariant *)
Section Invariant.
Context (inp : tabulationInput).
Abbreviation graph := (in_graph inp).

(** Function keys, kinds and call sites contain no equals sign and no NUL. *)
Definition clean_input : Prop :=
  clean_node (in_start inp) /\
  forall edge, edge ∈ graphEdges graph ->
    clean_node (From edge) /\ clean_node (To edge) /\ clean (CallSite edge).

(** Go ranges over the entries of a map in some order. *)
Definition ranges_entries : Prop := forall m, rangeOrder inp m ≡ₚ map_to_list m.

(** The test seam for summaries is absent in production. *)
Definition summaries_uninjected : Prop := forall s, injectSummary inp s = s.

Context (Hclean : clean_input) (Hrange : ranges_entries) (Hseam : summaries_uninjected).

Lemma derivable_clean e n s f : derivable inp (e, n, s, f) -> clean_entry e /\ clean_node n.
Proof.
  intros Hd. remember (e, n, s, f) as c eqn:Ec. revert e n s f Ec. destruct Hclean as [Hs He].
  assert (forall n s edge, takes inp n s edge -> clean_node (To edge)) as Ht.
  { intros n s edge (_ & _ & Ho & _). apply elem_of_outgoing in Ho as [Ho _]. by apply He in Ho as (_ & ? & _). }
  induction Hd as [|? ? ? ? ? _ IH|? ? ? ? ? _ IH|? ? ? ? ? ? ? ? _ IH ? ? Hr]; intros ???? [= <- <- <- <-].
  - done.
  - split; [apply (IH _ _ _ _ eq_refl)|by eapply Ht].
  - split; by eapply Ht.
  - split; [apply (IH _ _ _ _ eq_refl)|by apply He in Hr as (_ & ? & _)].
Qed.

Lemma derivable_clean_edge pe : derivable inp (contribution pe) -> clean_pathEdge pe.
Proof. unfold contribution. intros H%derivable_clean. done. Qed.

(** The result of a path edge that violates the obligation, or leaves it open. *)
Definition violationOf (pe : interprocPathEdge) : interprocPathResult :=
  with_witness (interprocPathResultFromOutcome pathOutcomeUnsafe pathOutcomeReasonNone (pe_path pe))
    (pe_witness pe) (pe_node pe).

Definition openQuestionOf (pe : interprocPathEdge) (reason : pathOutcomeReason) : interprocPathResult :=
  with_witness (interprocPathResultFromOutcome pathOutcomeInconclusive reason (pe_path pe))
    (pe_witness pe) (pe_node pe).

(** Why a node leaves the obligation open. *)
Definition openReason (pe : interprocPathEdge) (reason : pathOutcomeReason) : Prop :=
  let n := pe_node pe in let s := pe_state pe in
  judge inp n s = Blocked /\ reason = snd (nodeTransfer inp n s) \/
  judge inp n s = Uncertain /\ reason = state_pathOutcomeReason (stateAfter inp n s).

(** Path edges with one fact and pairwise different witnesses, as many as an antichain
    may hold. *)
Definition crowded : Prop :=
  exists pes, interprocWitnessAntichainLimit <= zlen pes /\ Forall (traced inp) pes /\
    (forall a b, a ∈ pes -> b ∈ pes -> contribution a = contribution b) /\
    NoDup (map (fun pe => interprocWitnessIdentity (pe_witness pe)) pes).

(** Why a run may be cut short: the control expires, the state budget, or more
    witnesses of one fact than an antichain holds. *)
Definition budgetCause (reason : pathOutcomeReason) : Prop :=
  reason = pathOutcomeReasonTimeout /\ expires (in_control inp) \/
  reason = pathOutcomeReasonStateBudget \/
  reason = pathOutcomeReasonWitnessBudget /\ crowded.

Definition cut_short (r : interprocPathResult) : Prop :=
  Class r = interprocOutcomeInconclusive /\ budgetCause (Reason r).

Record wf (t : tabulation) : Prop := {
  wf_edges sk pe : pathEdges t !! sk = Some pe ->
    traced inp pe /\
    sk = storageKeyOf (pathEdgeKey pe) (interprocWitnessIdentity (pe_witness pe));
  wf_antichain ck ac : pathEdgeWitnesses t !! ck = Some ac ->
    free_of Ascii.zero ck /\
    forall wid sk, ac !! wid = Some sk -> sk = storageKeyOf ck wid /\ is_Some (pathEdges t !! sk);
  wf_dependencies k d : dependencies t !! k = Some d -> call_traced inp d /\ k = dependencyKey d;
  wf_dependencyIndex ek k : k ∈ default [] (dependenciesByEntry t !! ek) <->
    exists d, dependencies t !! k = Some d /\ entryKey (calleeEntry d) = ek;
  wf_summaries k x : summaries t !! k = Some x -> exit_traced inp x /\ k = summaryKey x;
  wf_summaryIndex ek k : k ∈ default [] (summariesByEntry t !! ek) <->
    exists x, summaries t !! k = Some x /\ entryKey (sum_entry x) = ek;
  wf_budget r : budgetResult t = Some r -> cut_short r;
  wf_unsafe r : unsafeResult t = Some r -> exists pe, traced inp pe /\
    judge inp (pe_node pe) (pe_state pe) = Violates /\
    discharged inp pe cfgRefinementTriggerUnsafeCandidate = false /\ r = violationOf pe;
  wf_inconclusive r : inconclusiveResult t = Some r -> exists pe reason, traced inp pe /\
    openReason pe reason /\ discharged inp pe reason = false /\ r = openQuestionOf pe reason;
}.

(** ** Progress *)
Definition covered (t : tabulation) c : Prop :=
  exists sk pe, pathEdges t !! sk = Some pe /\ contribution pe = c.
Definition pending (t : tabulation) c : Prop :=
  exists sk pe, sk ∈ queue t /\ pathEdges t !! sk = Some pe /\ contribution pe = c.
Definition registered (t : tabulation) x : Prop :=
  exists k d, dependencies t !! k = Some d /\ dependency_facts d = x.
Definition published (t : tabulation) x : Prop :=
  exists k s, summaries t !! k = Some s /\ summary_facts s = x.

(** Some obligation could not be proven. *)
Definition flagged (t : tabulation) : Prop := is_Some (unsafeResult t) \/ is_Some (inconclusiveResult t).

(** How a run moves forward: an exceeded budget stays exceeded, and while there is
    none nothing is lost and every new path edge is queued. *)
Record progress (t t' : tabulation) : Prop := {
  adv_budget : budgetResult t = None;
  adv_flagged : flagged t -> flagged t';
  adv_covered c : covered t c -> covered t' c;
  adv_pending c : pending t c -> pending t' c;
  adv_new c : covered t' c -> covered t c \/ pending t' c;
  adv_registered x : registered t x -> registered t' x;
  adv_published x : published t x -> published t' x;
}.

Definition advances (t t' : tabulation) : Prop := budgetResult t' = None -> progress t t'.

#[export] Instance advances_preorder : PreOrder advances.
Proof.
  split; [intros t H; split; auto|]. intros t1 t2 t3 H12 H23 H3.
  specialize (H23 H3). specialize (H12 (adv_budget _ _ H23)).
  split; [apply H12|..]; intros.
  - by apply (adv_flagged _ _ H23), (adv_flagged _ _ H12).
  - by apply (adv_covered _ _ H23), (adv_covered _ _ H12).
  - by apply (adv_pending _ _ H23), (adv_pending _ _ H12).
  - apply (adv_new _ _ H23) in H as [H|H]; [|by right].
    apply (adv_new _ _ H12) in H as [H|H]; [by left|right]. by apply (adv_pending _ _ H23).
  - by apply (adv_registered _ _ H23), (adv_registered _ _ H12).
  - by apply (adv_published _ _ H23), (adv_published _ _ H12).
Qed.

(** ** Specifications of computations *)
Definition ensures {A} (m : run A) (t : tabulation) (Q : A -> tabulation -> Prop) : Prop :=
  let '(a, t') := m t in wf t' /\ advances t t' /\ Q a t'.

Lemma ensures_ret {A} (a : A) t (Q : A -> tabulation -> Prop) : wf t -> Q a t -> ensures (mret a) t Q.
Proof. intros. split; [assumption|]. split; [reflexivity|assumption]. Qed.

Lemma ensures_bind {A B} (m : run A) (k : A -> run B) t P Q :
  ensures m t P ->
  (forall a t', wf t' -> advances t t' -> P a t' -> ensures (k a) t' Q) ->
  ensures (m ≫= k) t Q.
Proof.
  unfold ensures, mbind, run_bind. destruct (m t) as [a t1]. intros (Hw & Ha & HP) Hk.
  specialize (Hk a t1 Hw Ha HP). destruct (k a t1) as [b t2]. destruct Hk as (? & ? & ?).
  split_and!; [done|by etrans|done].
Qed.

Lemma run_bind_eq {A B} (m : run A) (k : A -> run B) t : (m ≫= k) t = k (fst (m t)) (snd (m t)).
Proof. unfold mbind, run_bind. by destruct (m t). Qed.

Lemma ensures_get {A B} (f : tabulation -> A) (k : A -> run B) t Q :
  ensures (k (f t)) t Q -> ensures (get f ≫= k) t Q.
Proof. done. Qed.

Lemma ensures_modify f t (Q : unit -> tabulation -> Prop) :
  wf (f t) -> advances t (f t) -> Q tt (f t) -> ensures (modify f) t Q.
Proof. intros. do 2 (split; [assumption|]). assumption. Qed.

Lemma ensures_mono {A} (m : run A) t (P Q : A -> tabulation -> Prop) :
  ensures m t P -> (forall a t', wf t' -> advances t t' -> P a t' -> Q a t') -> ensures m t Q.
Proof.
  unfold ensures. destruct (m t) as [a t']. intros (Hw & Ha & HP) HQ. split_and!; auto.
Qed.

(** ** Quiet steps: polls and a first budget result *)
Definition same_results (t t' : tabulation) : Prop :=
  budgetResult t' = budgetResult t \/
  budgetResult t = None /\ exists r, budgetResult t' = Some r /\ cut_short r.

Record quiet (t t' : tabulation) : Prop := {
  quiet_pathEdges : pathEdges t' = pathEdges t;
  quiet_witnesses : pathEdgeWitnesses t' = pathEdgeWitnesses t;
  quiet_queue : queue t' = queue t;
  quiet_dependencies : dependencies t' = dependencies t;
  quiet_dependencyIndex : dependenciesByEntry t' = dependenciesByEntry t;
  quiet_summaries : summaries t' = summaries t;
  quiet_summaryIndex : summariesByEntry t' = summariesByEntry t;
  quiet_unsafe : unsafeResult t' = unsafeResult t;
  quiet_inconclusive : inconclusiveResult t' = inconclusiveResult t;
  quiet_budget : same_results t t';
}.

#[export] Instance quiet_preorder : PreOrder quiet.
Proof.
  split; [intros t; split; try done; by left|]. intros t1 t2 t3 [] [].
  split; try (by etrans). unfold same_results in *.
  destruct quiet_budget0 as [H|(H & r & H1 & H2)], quiet_budget1 as [H'|(H' & r' & H1' & H2')].
  - left. congruence.
  - right. split; [congruence|eauto].
  - right. split; [done|]. exists r. split; [congruence|done].
  - congruence.
Qed.

Lemma quiet_wf t t' : quiet t t' -> wf t -> wf t'.
Proof.
  intros [E1 E2 _ E4 E5 E6 E7 E8 E9 Hb] [H1 H2 H3 H4 H5 H6 H7 H8 H9].
  split; rewrite ?E1, ?E2, ?E4, ?E5, ?E6, ?E7, ?E8, ?E9; try done.
  intros r Hr. destruct Hb as [Hb|(_ & r' & Hb & ?)]; [apply H7; congruence|congruence].
Qed.

Lemma quiet_budget_none t t' : quiet t t' -> budgetResult t' = None -> budgetResult t = None.
Proof. intros [] H. destruct quiet_budget0 as [?|(? & r & ? & ?)]; congruence. Qed.

Lemma quiet_advances t t' : quiet t t' -> advances t t'.
Proof.
  intros Hq Hn. pose proof (quiet_budget_none _ _ Hq Hn). destruct Hq as [E1 E2 E3 E4 E5 E6 E7 E8 E9 _].
  split; unfold flagged, covered, pending, registered, published;
    rewrite ?E1, ?E2, ?E3, ?E4, ?E6, ?E8, ?E9; auto.
Qed.

(** A computation that only polls. *)
Lemma ensures_quiet {A} (m : run A) t (Q : A -> tabulation -> Prop) :
  wf t -> quiet t (snd (m t)) -> Q (fst (m t)) (snd (m t)) -> ensures m t Q.
Proof.
  unfold ensures. destruct (m t) as [a t']. simpl. intros. split_and!; [|by apply quiet_advances|done].
  by eapply quiet_wf.
Qed.

Lemma lift_quiet {A} (p : polled A) t : quiet t (snd (lift p t)).
Proof. unfold lift. destruct (p (polls t)) as [a clk]. split; try done. by left. Qed.

Lemma setBudget_quiet reason path witness t :
  budgetCause reason -> quiet t (snd (setBudgetExceeded inp reason path witness t)).
Proof.
  intros Hr. unfold setBudgetExceeded, modify. simpl. destruct (budgetResult t) eqn:E; [reflexivity|].
  split; try done. right. split; [done|]. eexists. split; [reflexivity|done].
Qed.

Lemma setBudget_some reason path witness t :
  is_Some (budgetResult (snd (setBudgetExceeded inp reason path witness t))).
Proof. unfold setBudgetExceeded, modify. cbn. destruct (budgetResult t) eqn:E; [by rewrite E|]. by eexists. Qed.

(** [false] answers come with an exceeded budget. *)
Definition answers (b : bool) (t : tabulation) : Prop := b = false -> is_Some (budgetResult t).

Lemma checkpoint_quiet path witness t :
  quiet t (snd (checkpointAt inp path witness t)) /\
  answers (fst (checkpointAt inp path witness t)) (snd (checkpointAt inp path witness t)).
Proof.
  unfold checkpointAt. rewrite run_bind_eq.
  pose proof (lift_quiet (feasibilityDeadlineReached (in_control inp)) t) as Hq.
  pose proof (poll_expires (in_control inp) (polls t)) as He. unfold lift in *.
  destruct (feasibilityDeadlineReached _ (polls t)) as [[] clk]; cbn [fst snd] in *; [|by split].
  rewrite run_bind_eq. cbn [mret run_ret fst snd]. split; [|intros _; apply setBudget_some].
  etrans; [exact Hq|]. apply setBudget_quiet. left. split; [done|by apply He].
Qed.

Lemma ensures_checkpoint path witness t (Q : bool -> tabulation -> Prop) :
  wf t -> (forall b t', quiet t t' -> answers b t' -> Q b t') -> ensures (checkpointAt inp path witness) t Q.
Proof.
  intros Hw HQ. destruct (checkpoint_quiet path witness t). apply ensures_quiet; auto.
Qed.

(** Reserving a work unit changes the work counters only. *)
Lemma reserve_spec path witness t :
  quiet t (snd (reserveWorkUnit inp path witness t)) /\
  answers (fst (reserveWorkUnit inp path witness t)) (snd (reserveWorkUnit inp path witness t)).
Proof.
  unfold reserveWorkUnit. rewrite run_bind_eq. destruct (checkpoint_quiet path witness t) as [Hq Ha].
  destruct (checkpointAt inp path witness t) as [[] t1]; cbn [fst snd negb] in *; [|by split].
  rewrite run_bind_eq, run_bind_eq. unfold modify, get. cbn [fst snd].
  set (t2 := set_work t1 _ _). assert (quiet t1 t2) as Hq2 by (split; try done; by left).
  assert (quiet t t2) as Hq3 by by etrans.
  destruct (_ <=? _); [by split|]. rewrite run_bind_eq. cbn [fst snd mret run_ret]. split.
  - etrans; [exact Hq3|]. apply setBudget_quiet. by right; left.
  - intros _. apply setBudget_some.
Qed.

(** ** Queuing a path edge *)
Lemma scan_spec edge wid retained : forall subsumed t,
  let r := scanAntichain inp edge wid retained subsumed t in
  quiet t (snd r) /\
  match fst r with
  | inl b => answers b (snd r) /\ (b = true -> exists x, x ∈ retained)
  | inr l => forall sk, sk ∈ l -> sk ∈ subsumed \/ exists x, x ∈ retained /\ snd x = sk
  end.
Proof.
  induction retained as [|[rid sk] rest IH]; intros subsumed t r.
  - split; [reflexivity|]. intros sk Hsk. by left.
  - unfold r. cbn [scanAntichain]. rewrite run_bind_eq.
    destruct (checkpoint_quiet (pe_path edge) (pe_witness edge) t) as [Hq Ha].
    destruct (checkpointAt inp (pe_path edge) (pe_witness edge) t) as [[] t1]; cbn [fst snd negb] in *.
    2: { split; [done|]. by split. }
    rewrite run_bind_eq. cbn [get fst snd].
    destruct (_ && _); [split; [done|]; split; [done|]; eauto using list_elem_of_here|].
    specialize (IH (if interprocWitnessSubsumes (pe_witness edge)
      match pathEdges t1 !! sk with Some e => pe_witness e | None => [] end
      then subsumed ++ [sk] else subsumed) t1).
    destruct IH as [IHq IH]. split; [by etrans|].
    destruct (fst _) as [b|l].
    + destruct IH as [? IH]. split; [done|]. intros [x Hx]%IH. exists x. by right.
    + intros sk' [Hin|(x & Hx & Hs)]%IH; [|right; exists x; split; [by right|done]].
      destruct (interprocWitnessSubsumes _ _); [|by left].
      apply elem_of_app in Hin as [Hin|Hin]; [by left|]. apply list_elem_of_singleton in Hin as ->.
      right. eexists. split; [by left|done].
Qed.

(** What dropping subsumed contributions leaves: at most path edges with the
    contribution key are gone. *)
Record trimmed (ck : string) (t t' : tabulation) : Prop := {
  trim_sub sk pe : pathEdges t' !! sk = Some pe -> pathEdges t !! sk = Some pe;
  trim_kept sk pe : pathEdges t !! sk = Some pe -> pathEdges t' !! sk = Some pe \/ pathEdgeKey pe = ck;
  trim_queue : queue t' = queue t;
  trim_dependencies : dependencies t' = dependencies t;
  trim_dependencyIndex : dependenciesByEntry t' = dependenciesByEntry t;
  trim_summaries : summaries t' = summaries t;
  trim_summaryIndex : summariesByEntry t' = summariesByEntry t;
  trim_unsafe : unsafeResult t' = unsafeResult t;
  trim_inconclusive : inconclusiveResult t' = inconclusiveResult t;
  trim_budget : budgetResult t' = None -> budgetResult t = None;
}.

Lemma trimmed_trans ck t1 t2 t3 : trimmed ck t1 t2 -> trimmed ck t2 t3 -> trimmed ck t1 t3.
Proof.
  intros [] []. split; try (by etrans); auto. intros sk pe H.
  destruct (trim_kept0 _ _ H) as [H'|]; [|by right]. by apply trim_kept1.
Qed.

Lemma quiet_trimmed ck t t' : quiet t t' -> trimmed ck t t'.
Proof.
  intros Hq. pose proof (quiet_budget_none _ _ Hq). destruct Hq as [E1 E2 E3 E4 E5 E6 E7 E8 E9 _].
  split; try done; intros sk pe; rewrite E1; auto.
Qed.

Lemma traced_clean pe : traced inp pe -> clean_pathEdge pe.
Proof. intros H%traced_derivable. by apply derivable_clean_edge. Qed.

Lemma traced_no_nul pe : traced inp pe -> free_of Ascii.zero (pathEdgeKey pe).
Proof. intros H%traced_clean. by apply pathEdgeKey_no_nul. Qed.

Definition dropped (ck sk : string) (t : tabulation) : tabulation :=
  let retainedID := interprocWitnessIdentity
    match pathEdges t !! sk with Some e => pe_witness e | None => [] end in
  set_tables t (delete sk (pathEdges t)) (alter (delete retainedID) ck (pathEdgeWitnesses t)) (queue t).

Lemma dropped_spec ck wid t :
  wf t -> free_of Ascii.zero ck ->
  let t' := dropped ck (storageKeyOf ck wid) t in wf t' /\ trimmed ck t t'.
Proof.
  intros Hw Hck t'. set (sk := storageKeyOf ck wid) in *.
  assert (forall pe, pathEdges t !! sk = Some pe ->
    pathEdgeKey pe = ck /\ interprocWitnessIdentity (pe_witness pe) = wid) as Hsk.
  { intros pe H. apply (wf_edges _ Hw) in H as [Hd E].
    by apply storageKey_inj in E as [-> ->]; [|done|apply traced_no_nul]. }
  split.
  - destruct Hw as [H1 H2 H3 H4 H5 H6 H7 H8 H9]. split; cbn; try done.
    + intros sk' pe [_ H]%lookup_delete_Some. by apply H1.
    + intros ck' ac. rewrite lookup_alter_Some.
      intros [(-> & ac0 & Hac & ->)|[Hne Hac]]; apply H2 in Hac as [Hf Hac]; (split; [done|]).
      * intros wid' sk' [Hid Hl]%lookup_delete_Some. apply Hac in Hl as [-> Hl]. split; [done|].
        destruct (pathEdges t !! sk) as [pe|] eqn:Ep; [|by rewrite delete_id].
        rewrite lookup_delete_ne; [done|]. destruct (Hsk _ eq_refl) as [_ Hi].
        intros [_ ->]%storageKey_inj; [|done..]. done.
      * intros wid' sk' Hl. apply Hac in Hl as [-> Hl]. split; [done|].
        rewrite lookup_delete_ne; [done|]. by intros [-> _]%storageKey_inj.
  - split; cbn; try done.
    + by intros sk' pe [_ H]%lookup_delete_Some.
    + intros sk' pe H. destruct (decide (sk = sk')) as [<-|Hne]; [right; by apply Hsk|].
      left. by rewrite lookup_delete_ne.
Qed.

Lemma drop_spec edge ck sks : forall t,
  wf t -> free_of Ascii.zero ck -> (forall sk, sk ∈ sks -> exists wid, sk = storageKeyOf ck wid) ->
  let r := dropSubsumed inp edge ck sks t in
  wf (snd r) /\ trimmed ck t (snd r) /\ answers (fst r) (snd r).
Proof.
  induction sks as [|sk sks IH]; intros t Hw Hck Hsks r.
  { split_and!; [done|by apply quiet_trimmed|done]. }
  unfold r. cbn [dropSubsumed]. rewrite run_bind_eq.
  destruct (checkpoint_quiet (pe_path edge) (pe_witness edge) t) as [Hq Ha].
  destruct (checkpointAt inp (pe_path edge) (pe_witness edge) t) as [[] t1]; cbn [fst snd negb] in *.
  2: { split_and!; [by eapply quiet_wf|by apply quiet_trimmed|done]. }
  rewrite run_bind_eq. cbn [modify fst snd].
  destruct (Hsks sk) as [wid ->]; [by left|].
  change (set_tables t1 _ _ _) with (dropped ck (storageKeyOf ck wid) t1).
  destruct (dropped_spec ck wid t1) as [Hw1 Ht1]; [by eapply quiet_wf|done|].
  destruct (IH (dropped ck (storageKeyOf ck wid) t1)) as (Hw2 & Ht2 & Ha2);
    [done|done|intros sk' ?; apply Hsks; by right|].
  split_and!; [done| |done].
  eapply trimmed_trans; [by apply quiet_trimmed|]. by eapply trimmed_trans.
Qed.

Record same_tables (t t' : tabulation) : Prop := {
  same_dependencies : dependencies t' = dependencies t;
  same_dependencyIndex : dependenciesByEntry t' = dependenciesByEntry t;
  same_summaries : summaries t' = summaries t;
  same_summaryIndex : summariesByEntry t' = summariesByEntry t;
}.

#[export] Instance same_tables_preorder : PreOrder same_tables.
Proof. split; [by split|]. intros t1 t2 t3 [] []. split; by etrans. Qed.

Lemma trimmed_same ck t t' : trimmed ck t t' -> same_tables t t'.
Proof. intros []. by split. Qed.

Lemma quiet_same t t' : quiet t t' -> same_tables t t'.
Proof. intros []. by split. Qed.

Lemma exceeded_advances t t' : is_Some (budgetResult t') -> advances t t'.
Proof. intros [r Hr] Hn. congruence. Qed.

Definition opened_antichain (ck : string) (t : tabulation) : tabulation :=
  set_tables t (pathEdges t) (<[ck := antichainOf t ck]> (pathEdgeWitnesses t)) (queue t).

Lemma antichain_entry t ck wid sk :
  wf t -> antichainOf t ck !! wid = Some sk ->
  sk = storageKeyOf ck wid /\ is_Some (pathEdges t !! sk).
Proof.
  intros Hw. unfold antichainOf. destruct (_ !! ck) as [ac|] eqn:E; [|done].
  intros H. by apply (wf_antichain _ Hw) in E as [_ E]; apply E in H.
Qed.

Lemma opened_antichain_spec ck t :
  wf t -> free_of Ascii.zero ck -> wf (opened_antichain ck t) /\ trimmed ck t (opened_antichain ck t).
Proof.
  intros Hw Hck. split; [|split; cbn; auto].
  pose proof (antichain_entry t ck) as He.
  destruct Hw as [H1 H2 H3 H4 H5 H6 H7 H8 H9] eqn:EH. split; cbn; try done. clear EH.
  intros ck' ac. rewrite lookup_insert_Some. intros [[<- <-]|[_ H]]; [|by apply H2].
  split; [done|]. intros wid sk H. apply He in H as [? ?]; [done|by split].
Qed.

Lemma store_wf pe t :
  wf t -> traced inp pe ->
  wf (storePathEdge pe (pathEdgeKey pe) (interprocWitnessIdentity (pe_witness pe)) t).
Proof.
  intros Hw Hd. pose proof (antichain_entry t (pathEdgeKey pe)) as He.
  destruct Hw as [H1 H2 H3 H4 H5 H6 H7 H8 H9] eqn:EH. split; cbn; try done.
  - intros sk pe'. rewrite lookup_insert_Some. intros [[<- <-]|[_ H]]; [by split|by apply H1].
  - assert (forall sk, is_Some (pathEdges t !! sk) -> is_Some
      (<[storageKeyOf (pathEdgeKey pe) (interprocWitnessIdentity (pe_witness pe)) := pe]> (pathEdges t) !! sk))
      as Hi.
    { intros sk Hs. apply lookup_insert_is_Some'. by right. }
    intros ck' ac. rewrite lookup_insert_Some. intros [[<- <-]|[_ H]].
    + split; [by apply traced_no_nul|]. intros wid sk. rewrite lookup_insert_Some.
      intros [[<- <-]|[_ H]]; [split; [done|]; rewrite lookup_insert_eq; by eexists|].
      apply He in H as [-> H]; [split; [done|by apply Hi]|by split].
    + apply H2 in H as [Hf H]. split; [done|]. intros wid sk Hs. apply H in Hs as [-> Hs].
      split; [done|by apply Hi].
Qed.

Lemma same_key_contribution a b :
  traced inp a -> traced inp b -> pathEdgeKey a = pathEdgeKey b ->
  contribution a = contribution b.
Proof. intros Ha%traced_clean Hb%traced_clean. by apply pathEdgeKey_inj. Qed.

(** Storing a path edge after trimming its antichain loses no contribution. *)
Lemma store_advances pe t t5 :
  wf t -> trimmed (pathEdgeKey pe) t t5 -> wf t5 -> traced inp pe ->
  let t6 := storePathEdge pe (pathEdgeKey pe) (interprocWitnessIdentity (pe_witness pe)) t5 in
  advances t t6 /\ covered t6 (contribution pe).
Proof.
  intros Hw Htr Hw5 Hd t6. set (sk0 := storageKeyOf (pathEdgeKey pe) (interprocWitnessIdentity (pe_witness pe))).
  assert (pathEdges t6 !! sk0 = Some pe) as H0 by (cbn; by rewrite lookup_insert_eq).
  assert (sk0 ∈ queue t6) as Hq0 by (cbn; apply elem_of_app; right; by left).
  assert (forall sk pe', pathEdges t !! sk = Some pe' ->
    pathEdges t6 !! sk = Some pe' \/ contribution pe' = contribution pe) as Hkeep.
  { intros sk pe' H. pose proof (wf_edges _ Hw _ _ H) as [Hd' Hsk'].
    destruct (decide (pathEdgeKey pe' = pathEdgeKey pe)) as [E|E]; [right; by apply same_key_contribution|].
    left. destruct (trim_kept _ _ _ Htr _ _ H) as [H'|]; [|done]. cbn.
    rewrite lookup_insert_ne; [done|]. rewrite Hsk'. intros [? _]%storageKey_inj; [done|by apply traced_no_nul..]. }
  split; [|by exists sk0, pe]. intros Hn. destruct Htr. split.
  - by apply trim_budget0.
  - unfold flagged. cbn. by rewrite trim_unsafe0, trim_inconclusive0.
  - intros c (sk & pe' & H & <-). destruct (Hkeep _ _ H) as [?|E]; [by exists sk, pe'|]. by exists sk0, pe.
  - intros c (sk & pe' & Hq & H & <-). destruct (Hkeep _ _ H) as [?|E]; [|by exists sk0, pe].
    exists sk, pe'. split_and!; [|done..]. cbn. apply elem_of_app. left. by rewrite trim_queue0.
  - intros c (sk & pe' & H & <-). cbn in H. apply lookup_insert_Some in H as [[<- <-]|[_ H]].
    + right. by exists sk0, pe.
    + left. exists sk, pe'. auto.
  - intros x (k & d & H & <-). exists k, d. cbn. by rewrite trim_dependencies0.
  - intros x (k & s & H & <-). exists k, s. cbn. by rewrite trim_summaries0.
Qed.

(** The path edges a full antichain retains have one fact and different witnesses. *)
Lemma full_crowded ck t :
  wf t -> free_of Ascii.zero ck ->
  interprocWitnessAntichainLimit <= Z.of_nat (size (antichainOf t ck)) -> crowded.
Proof.
  intros Hw Hck Hfull.
  assert (exists pes, map (fun pe => interprocWitnessIdentity (pe_witness pe)) pes = (map_to_list (antichainOf t ck)).*1 /\
    Forall (fun pe => traced inp pe /\ pathEdgeKey pe = ck) pes) as (pes & Eid & Hp).
  { assert (forall x, x ∈ map_to_list (antichainOf t ck) -> exists pe,
      interprocWitnessIdentity (pe_witness pe) = fst x /\ traced inp pe /\ pathEdgeKey pe = ck) as Hx.
    { intros [wid sk] H. apply elem_of_map_to_list, antichain_entry in H as [-> [pe H]]; [|done].
      apply (wf_edges _ Hw) in H as [Hd E]. exists pe.
      by apply storageKey_inj in E as [-> ->]; [|done|apply traced_no_nul]. }
    revert Hx. induction (map_to_list (antichainOf t ck)) as [|x l IH]; intros Hx; [by exists []|].
    destruct IH as (pes & E & H); [intros y Hy; apply Hx; by right|].
    destruct (Hx x) as (pe & E1 & H1); [by left|]. exists (pe :: pes). cbn. by rewrite E1, E, Forall_cons. }
  exists pes. rewrite Forall_forall in Hp. split_and!.
  - apply (f_equal length) in Eid. rewrite length_map, length_fmap, length_map_to_list in Eid.
    unfold zlen. by rewrite Eid.
  - apply Forall_forall. by intros pe [? _]%Hp.
  - intros a b [Ha Ea]%Hp [Hb Eb]%Hp. apply same_key_contribution; congruence.
  - rewrite Eid. apply NoDup_fst_map_to_list.
Qed.

(** What queuing a path edge promises. *)
Definition queued pe (t : tabulation) (b : bool) (t' : tabulation) : Prop :=
  answers b t' /\ same_tables t t' /\ (budgetResult t' = None -> covered t' (contribution pe)).

Lemma exceeded_queued pe t b t' :
  wf t' -> trimmed (pathEdgeKey pe) t t' -> is_Some (budgetResult t') ->
  wf t' /\ advances t t' /\ queued pe t b t'.
Proof.
  intros Hw Ht Hs. split; [done|]. split; [by apply exceeded_advances|]. split; [by intros _|].
  split; [by eapply trimmed_same|]. intros Hn. rewrite Hn in Hs. by destruct Hs.
Qed.

(** The rest of [enqueue] once the scan found what the candidate subsumes. *)
Definition admitCandidate (pe : interprocPathEdge) (subsumed : list string) : run bool :=
  dropped ← dropSubsumed inp pe (pathEdgeKey pe) subsumed;
  if negb dropped then mret false
  else
    remaining ← get (fun t => antichainOf t (pathEdgeKey pe));
    if interprocWitnessAntichainLimit <=? Z.of_nat (size (remaining : gmap string string)) then
      setBudgetExceeded inp pathOutcomeReasonWitnessBudget (pe_path pe) (pe_witness pe) ;; mret false
    else
      reserved ← reserveWorkUnit inp (pe_path pe) (pe_witness pe);
      if negb reserved then mret false
      else modify (storePathEdge pe (pathEdgeKey pe) (interprocWitnessIdentity (pe_witness pe))) ;; mret true.

Lemma admit_spec pe t t3 subsumed :
  wf t -> traced inp pe -> wf t3 -> trimmed (pathEdgeKey pe) t t3 ->
  (forall sk, sk ∈ subsumed -> exists wid, sk = storageKeyOf (pathEdgeKey pe) wid) ->
  let '(b, t') := admitCandidate pe subsumed t3 in wf t' /\ advances t t' /\ queued pe t b t'.
Proof.
  intros Hw Hd Hw3 Ht3 Hs. rewrite (surjective_pairing (admitCandidate pe subsumed t3)).
  unfold admitCandidate. rewrite run_bind_eq.
  destruct (drop_spec pe (pathEdgeKey pe) subsumed t3) as (Hw4 & Ht4 & Ha4);
    [done|by apply traced_no_nul|done|].
  destruct (dropSubsumed inp pe (pathEdgeKey pe) subsumed t3) as [b t4]. cbn [fst snd] in *.
  apply (trimmed_trans _ _ _ _ Ht3) in Ht4. clear Ht3.
  destruct b; cbn [negb mret run_ret fst snd]; [|by apply exceeded_queued; auto].
  rewrite run_bind_eq. cbn [get fst snd]. destruct (Z.leb_spec interprocWitnessAntichainLimit (Z.of_nat (size (antichainOf t4 (pathEdgeKey pe))))) as [Hfull|_].
  { rewrite run_bind_eq. cbn [mret run_ret fst snd].
    pose proof (full_crowded _ _ Hw4 (traced_no_nul _ Hd) Hfull) as Hcrowd.
    pose proof (setBudget_quiet pathOutcomeReasonWitnessBudget (pe_path pe) (pe_witness pe) t4
      ltac:(by right; right)) as Hq.
    apply exceeded_queued; [by eapply quiet_wf| |apply setBudget_some].
    eapply trimmed_trans; [done|by apply quiet_trimmed]. }
  rewrite run_bind_eq. destruct (reserve_spec (pe_path pe) (pe_witness pe) t4) as [Hq5 Ha5].
  destruct (reserveWorkUnit inp (pe_path pe) (pe_witness pe) t4) as [b t5]. cbn [fst snd] in *.
  assert (wf t5) as Hw5 by by eapply quiet_wf.
  assert (trimmed (pathEdgeKey pe) t t5) as Ht5 by (eapply trimmed_trans; [done|by apply quiet_trimmed]).
  destruct b; cbn [negb mret run_ret fst snd]; [|by apply exceeded_queued; auto].
  rewrite run_bind_eq. cbn [modify mret run_ret fst snd].
  destruct (store_advances pe t t5) as [Hadv Hcov]; try done.
  split; [by apply store_wf|]. split; [done|]. split; [done|]. split; [|done].
  etrans; [by eapply trimmed_same|by split].
Qed.

(** A candidate another witness already subsumes changes nothing. *)
Lemma retained_queued pe t t3 sk :
  wf t -> trimmed (pathEdgeKey pe) t t3 -> pathEdges t3 = pathEdges t -> traced inp pe ->
  (exists wid, sk = storageKeyOf (pathEdgeKey pe) wid) -> is_Some (pathEdges t !! sk) ->
  advances t t3 /\ queued pe t true t3.
Proof.
  intros Hw Ht E Hd [wid ->] [pe' Hpe]. destruct (wf_edges _ Hw _ _ Hpe) as [Hd' Hk].
  apply storageKey_inj in Hk as [Hk _]; [|by apply traced_no_nul..].
  split; [|split; [done|split; [by eapply trimmed_same|]]].
  - intros Hn. destruct Ht. split; unfold flagged, covered, pending, registered, published;
      rewrite ?E, ?trim_queue0, ?trim_dependencies0, ?trim_summaries0, ?trim_unsafe0, ?trim_inconclusive0; auto.
  - intros _. exists (storageKeyOf (pathEdgeKey pe) wid), pe'. rewrite E. split; [done|].
    by apply same_key_contribution.
Qed.

Lemma enqueue_spec pe t :
  wf t -> traced inp pe -> ensures (enqueue inp pe) t (queued pe t).
Proof.
  intros Hw Hd. pose proof (traced_no_nul _ Hd) as Hck. set (ck := pathEdgeKey pe) in *.
  unfold ensures, enqueue. rewrite run_bind_eq.
  destruct (checkpoint_quiet (pe_path pe) (pe_witness pe) t) as [Hq Ha].
  destruct (checkpointAt inp (pe_path pe) (pe_witness pe) t) as [[] t1]; cbn [fst snd negb] in *.
  2: { apply exceeded_queued; [by eapply quiet_wf|by apply quiet_trimmed|by apply Ha]. }
  assert (wf t1) as Hw1 by by eapply quiet_wf.
  cbv zeta. rewrite run_bind_eq. cbn [modify fst snd]. fold ck.
  change (set_tables t1 _ _ _) with (opened_antichain ck t1).
  destruct (opened_antichain_spec ck t1 Hw1 Hck) as [Hw2 Ht2].
  set (t2 := opened_antichain ck t1) in *. rewrite run_bind_eq. cbn [get fst snd].
  rewrite run_bind_eq.
  pose proof (scan_spec pe (interprocWitnessIdentity (pe_witness pe)) (rangeOrder inp (antichainOf t2 ck)) [] t2)
    as [Hq3 Hscan]. cbv zeta in *.
  destruct (scanAntichain _ _ _ _ _ t2) as [scan t3]. cbn [fst snd] in *.
  assert (wf t3) as Hw3 by by eapply quiet_wf.
  assert (trimmed ck t t3) as Ht3.
  { eapply trimmed_trans; [by apply quiet_trimmed|]. eapply trimmed_trans; [done|]. by apply quiet_trimmed. }
  assert (forall x, x ∈ rangeOrder inp (antichainOf t2 ck) -> snd x = storageKeyOf ck (fst x) /\
    is_Some (pathEdges t2 !! snd x)) as Hent.
  { intros [wid sk] Hx. rewrite (Hrange (antichainOf t2 ck)) in Hx. apply elem_of_map_to_list in Hx.
    by apply antichain_entry in Hx. }
  destruct scan as [b|subsumed].
  - destruct Hscan as [Hb Hx]. cbn [mret run_ret].
    destruct b; [|by apply exceeded_queued; auto].
    destruct Hx as [x Hx]; [done|]. destruct (Hent _ Hx) as [Hsk Hin].
    assert (pathEdges t2 = pathEdges t) as E2 by apply (quiet_pathEdges _ _ Hq).
    destruct (retained_queued pe t t3 (snd x)); try done; [|by eexists|by rewrite <- E2].
    by rewrite (quiet_pathEdges _ _ Hq3).
  - apply (admit_spec pe t t3 subsumed); try done. intros sk [[]%elem_of_nil|(x & Hx & <-)]%Hscan.
    destruct (Hent _ Hx) as [-> _]. by eexists.
Qed.

(** ** Dependencies and summaries *)
Definition matched (d : interprocCallDependency) (x : interprocProcedureSummary) : Prop :=
  calleeEntry d = sum_entry x /\ calleeExit d = sum_exit x.

(** Every summary has been applied to every caller that waits for it. *)
Definition closed (t : tabulation) : Prop :=
  forall k d k' x, dependencies t !! k = Some d -> summaries t !! k' = Some x -> matched d x ->
    covered t (contribution (returnPathEdge d x)).

Lemma call_clean d : call_traced inp d -> clean_dependency d.
Proof.
  intros (pe & edge & r & Hp%traced_clean & [(_ & _ & Ho & _) _ Hr _] & ->).
  apply elem_of_outgoing in Ho as [Ho _]. destruct Hclean as [_ Hg].
  apply Hg in Ho as (_ & ? & ?), Hr as (? & ? & _). destruct Hp. by split_and!.
Qed.

Lemma exit_clean x : exit_traced inp x -> clean_summary x.
Proof. intros (pe & Hp%traced_clean & _ & ->). by destruct Hp. Qed.

Lemma set_work_quiet t w st : quiet t (set_work t w st).
Proof. split; try done. by left. Qed.

(** An operation on the tables that ends early because the budget is exceeded. *)
Lemma ensures_stop t t' (P : tabulation -> Prop) :
  wf t' -> answers false t' -> same_tables t t' ->
  ensures (mret false) t' (fun b t'' => answers b t'' /\ same_tables t t'' /\ (budgetResult t'' = None -> P t'')).
Proof.
  intros Hw Hb Hs. apply ensures_ret; [done|]. split; [done|]. split; [done|].
  intros Hn. destruct Hb; [done|congruence].
Qed.

Lemma checkpoint_tables path witness t : wf t ->
  ensures (checkpointAt inp path witness) t (fun b t' => answers b t' /\ same_tables t t').
Proof. intros Hw. apply ensures_checkpoint; [done|]. intros b t' Hq Hb. split; [done|by apply quiet_same]. Qed.

Lemma applySummary_spec d x t :
  wf t -> call_traced inp d -> exit_traced inp x -> calleeEntry d = sum_entry x ->
  ensures (applySummary inp d x) t (fun b t' => answers b t' /\ same_tables t t' /\
    (budgetResult t' = None -> matched d x -> covered t' (contribution (returnPathEdge d x)))).
Proof.
  intros Hw Hd Hx He. unfold applySummary.
  eapply ensures_bind; [by apply checkpoint_tables|]. intros b t1 Hw1 _ [Hb Hs1].
  destruct b; cbn [negb]; [|by apply ensures_stop].
  destruct (String.eqb_spec (NodeKey (calleeExit d)) (NodeKey (sum_exit x))) as [Ek|Ek]; cbn [negb].
  2: { apply ensures_ret; [done|]. split; [done|]. split; [done|]. intros _ [_ M]. by rewrite M in Ek. }
  apply NodeKey_inj in Ek; [|by apply call_clean|by apply exit_clean].
  eapply ensures_bind; [by apply enqueue_spec, return_traced|].
  intros b t2 Hw2 _ (Ha & Hs & Hc).
  destruct b; cbn [negb]; [|apply ensures_stop; [done..|by etrans]].
  eapply ensures_bind; [apply (ensures_quiet _ _ (fun _ t' => quiet t2 t')); [done|apply set_work_quiet..]|].
  intros [] t3 Hw3 Ha3 Hq. apply ensures_ret; [done|]. split; [done|].
  split; [etrans; [done|etrans; [done|by apply quiet_same]]|].
  intros Hn _. apply (adv_covered _ _ (Ha3 Hn)), Hc. by apply (quiet_budget_none _ _ Hq).
Qed.

Lemma applySummaries_spec d keys : forall t,
  wf t -> call_traced inp d ->
  (forall key, key ∈ keys -> exists x, summaries t !! key = Some x /\ calleeEntry d = sum_entry x) ->
  ensures (applySummaries inp d keys) t (fun b t' => answers b t' /\ same_tables t t' /\
    (budgetResult t' = None -> forall key x, key ∈ keys -> summaries t !! key = Some x -> matched d x ->
       covered t' (contribution (returnPathEdge d x)))).
Proof.
  induction keys as [|key keys IH]; intros t Hw Hd Hkeys; cbn [applySummaries].
  { apply ensures_ret; [done|]. split; [done|]. split; [done|]. by intros _ key x []%elem_of_nil. }
  eapply ensures_bind; [by apply checkpoint_tables|]. intros b t1 Hw1 _ [Hb Hs1].
  destruct b; cbn [negb]; [|by apply ensures_stop].
  apply ensures_get. destruct (Hkeys key) as (x & Hx & He); [by left|].
  rewrite (same_summaries _ _ Hs1), Hx. cbn [default].
  eapply ensures_bind; [apply applySummary_spec; [done|done| |done]|].
  { by apply (wf_summaries _ Hw) in Hx as [? _]. }
  intros b t2 Hw2 Hadv2 (Ha & Hs2 & Hc). assert (same_tables t t2) as Hs by by etrans.
  destruct b; cbn [negb]; [|by apply ensures_stop].
  eapply ensures_mono; [apply IH; [done|done|]|].
  { intros k Hk. rewrite (same_summaries _ _ Hs). apply Hkeys. by right. }
  cbn beta. intros b t3 Hw3 Hadv (Hb3 & Hs3 & Hc3). split; [done|]. split; [by etrans|].
  intros Hn k y Hk Hy M. apply elem_of_cons in Hk as [->|Hk].
  - rewrite Hx in Hy. injection Hy as <-. apply (adv_covered _ _ (Hadv Hn)), Hc; [|done].
    apply (adv_budget _ _ (Hadv Hn)).
  - eapply Hc3; try done. by rewrite (same_summaries _ _ Hs).
Qed.

Lemma applyDependencies_spec x keys : forall t,
  wf t -> exit_traced inp x ->
  (forall key, key ∈ keys -> exists d, dependencies t !! key = Some d /\ calleeEntry d = sum_entry x) ->
  ensures (applyDependencies inp x keys) t (fun b t' => answers b t' /\ same_tables t t' /\
    (budgetResult t' = None -> forall key d, key ∈ keys -> dependencies t !! key = Some d -> matched d x ->
       covered t' (contribution (returnPathEdge d x)))).
Proof.
  induction keys as [|key keys IH]; intros t Hw Hd Hkeys; cbn [applyDependencies].
  { apply ensures_ret; [done|]. split; [done|]. split; [done|]. by intros _ key d []%elem_of_nil. }
  eapply ensures_bind; [by apply checkpoint_tables|]. intros b t1 Hw1 _ [Hb Hs1].
  destruct b; cbn [negb]; [|by apply ensures_stop].
  apply ensures_get. destruct (Hkeys key) as (d & Hx & He); [by left|].
  rewrite (same_dependencies _ _ Hs1), Hx. cbn [default].
  eapply ensures_bind; [apply applySummary_spec; [done| |done|done]|].
  { by apply (wf_dependencies _ Hw) in Hx as [? _]. }
  intros b t2 Hw2 Hadv2 (Ha & Hs2 & Hc). assert (same_tables t t2) as Hs by by etrans.
  destruct b; cbn [negb]; [|by apply ensures_stop].
  eapply ensures_mono; [apply IH; [done|done|]|].
  { intros k Hk. rewrite (same_dependencies _ _ Hs). apply Hkeys. by right. }
  cbn beta. intros b t3 Hw3 Hadv (Hb3 & Hs3 & Hc3). split; [done|]. split; [by etrans|].
  intros Hn k y Hk Hy M. apply elem_of_cons in Hk as [->|Hk].
  - rewrite Hx in Hy. injection Hy as <-. apply (adv_covered _ _ (Hadv Hn)), Hc; [|done].
    apply (adv_budget _ _ (Hadv Hn)).
  - eapply Hc3; try done. by rewrite (same_dependencies _ _ Hs).
Qed.

(** An index of keys by entry fact, extended by a fresh key. *)
Lemma index_insert (index : gmap string (list string)) (holds : string -> string -> Prop) ek key :
  (forall ek' k, k ∈ default [] (index !! ek') <-> holds ek' k) ->
  forall ek' k,
    k ∈ default [] (<[ek := slices_Sort (default [] (index !! ek) ++ [key])]> index !! ek') <->
    holds ek' k \/ ek' = ek /\ k = key.
Proof.
  intros H ek' k. destruct (decide (ek' = ek)) as [->|Hne].
  - rewrite lookup_insert_eq. cbn [from_option id]. rewrite slices_Sort_elem_of, elem_of_app, list_elem_of_singleton, H.
    tauto.
  - rewrite lookup_insert_ne by done. rewrite H. tauto.
Qed.

Definition addedDependency (d : interprocCallDependency) (t : tabulation) : tabulation :=
  set_work
    (set_dependencies t (<[dependencyKey d := d]> (dependencies t))
       (<[entryKey (calleeEntry d) :=
          slices_Sort (default [] (dependenciesByEntry t !! entryKey (calleeEntry d)) ++ [dependencyKey d])]>
          (dependenciesByEntry t)))
    (workUnits t) (count_dependency (stats t)).

Lemma addedDependency_spec d t :
  wf t -> call_traced inp d -> dependencies t !! dependencyKey d = None ->
  wf (addedDependency d t) /\ advances t (addedDependency d t).
Proof.
  intros [H1 H2 H3 H4 H5 H6 H7 H8 H9] Hd Hf. split.
  - split; cbn -[dependencyKey summaryKey entryKey]; try done.
    + intros k d'. rewrite lookup_insert_Some. intros [[<- <-]|[_ H]]; [done|by apply H3].
    + intros ek k. rewrite (index_insert _ _ _ _ H4). split.
      * intros [(d' & Hk & He)|[-> ->]]; [|exists d; by rewrite lookup_insert_eq].
        exists d'. split; [|done]. rewrite lookup_insert_ne; [done|]. intros <-. by rewrite Hf in Hk.
      * intros (d' & Hk & He). apply lookup_insert_Some in Hk as [[<- <-]|[_ Hk]]; [by right|left; by exists d'].
  - intros Hn. split; try done; cbn -[dependencyKey summaryKey entryKey]; auto.
    intros x (k & d' & Hk & Hx). exists k, d'. cbn -[dependencyKey summaryKey entryKey]. split; [|done]. rewrite lookup_insert_ne; [done|].
    intros <-. by rewrite Hf in Hk.
Qed.

Definition addedSummary (x : interprocProcedureSummary) (t : tabulation) : tabulation :=
  set_work
    (set_summaries t (<[summaryKey x := x]> (summaries t))
       (<[entryKey (sum_entry x) :=
          slices_Sort (default [] (summariesByEntry t !! entryKey (sum_entry x)) ++ [summaryKey x])]>
          (summariesByEntry t)))
    (workUnits t) (count_summary (stats t)).

Lemma addedSummary_spec x t :
  wf t -> exit_traced inp x -> summaries t !! summaryKey x = None ->
  wf (addedSummary x t) /\ advances t (addedSummary x t).
Proof.
  intros [H1 H2 H3 H4 H5 H6 H7 H8 H9] Hx Hf. split.
  - split; cbn -[dependencyKey summaryKey entryKey]; try done.
    + intros k x'. rewrite lookup_insert_Some. intros [[<- <-]|[_ H]]; [done|by apply H5].
    + intros ek k. rewrite (index_insert _ _ _ _ H6). split.
      * intros [(x' & Hk & He)|[-> ->]]; [|exists x; by rewrite lookup_insert_eq].
        exists x'. split; [|done]. rewrite lookup_insert_ne; [done|]. intros <-. by rewrite Hf in Hk.
      * intros (x' & Hk & He). apply lookup_insert_Some in Hk as [[<- <-]|[_ Hk]]; [by right|left; by exists x'].
  - intros Hn. split; try done; cbn -[dependencyKey summaryKey entryKey]; auto.
    intros y (k & x' & Hk & Hy). exists k, x'. cbn -[dependencyKey summaryKey entryKey]. split; [|done]. rewrite lookup_insert_ne; [done|].
    intros <-. by rewrite Hf in Hk.
Qed.

Lemma registered_key d t : wf t -> call_traced inp d -> is_Some (dependencies t !! dependencyKey d) ->
  registered t (dependency_facts d).
Proof.
  intros Hw Hd [d' Hk]. exists (dependencyKey d), d'. split; [done|].
  apply (wf_dependencies _ Hw) in Hk as [Hd' E]. symmetry. apply dependencyKey_inj; [by apply call_clean..|done].
Qed.

Lemma published_key x t : wf t -> exit_traced inp x -> is_Some (summaries t !! summaryKey x) ->
  published t (summary_facts x).
Proof.
  intros Hw Hx [x' Hk]. exists (summaryKey x), x'. split; [done|].
  apply (wf_summaries _ Hw) in Hk as [Hx' E]. symmetry. apply summaryKey_inj; [by apply exit_clean..|done].
Qed.

(** What the operations on the tables of dependencies and summaries promise. *)
Definition tabled (t : tabulation) (P : tabulation -> Prop) (b : bool) (t' : tabulation) : Prop :=
  answers b t' /\ (budgetResult t' = None -> (closed t -> closed t') /\ P t').

Lemma tabled_stop t (P : tabulation -> Prop) t' :
  wf t' -> answers false t' -> ensures (mret false) t' (tabled t P).
Proof.
  intros Hw Hb. apply ensures_ret; [done|]. split; [done|]. intros Hn. destruct Hb; [done|congruence].
Qed.

Lemma same_closed t t' : same_tables t t' -> advances t t' -> budgetResult t' = None -> closed t -> closed t'.
Proof.
  intros Hs Ha Hn Hc k d k' x Hd Hx M. apply (adv_covered _ _ (Ha Hn)).
  rewrite (same_dependencies _ _ Hs) in Hd. rewrite (same_summaries _ _ Hs) in Hx. by eapply Hc.
Qed.

Lemma entryKey_index_inj d x :
  call_traced inp d -> exit_traced inp x -> entryKey (sum_entry x) = entryKey (calleeEntry d) ->
  calleeEntry d = sum_entry x.
Proof. intros Hd%call_clean Hx%exit_clean E. symmetry. apply entryKey_inj; [apply Hx|apply Hd|done]. Qed.

Lemma closed_add_dependency d t t3 t4 :
  wf t3 -> t3 = addedDependency d t -> same_tables t3 t4 -> advances t t3 -> advances t3 t4 ->
  budgetResult t4 = None ->
  (forall key x, key ∈ default [] (summariesByEntry t3 !! entryKey (calleeEntry d)) ->
     summaries t3 !! key = Some x -> matched d x -> covered t4 (contribution (returnPathEdge d x))) ->
  closed t -> closed t4.
Proof.
  intros Hw E Hs Ha Ha4 Hn Hnew Hc k d' k' x Hd Hx M.
  rewrite (same_dependencies _ _ Hs) in Hd. rewrite (same_summaries _ _ Hs) in Hx.
  assert (budgetResult t3 = None) as Hn3 by apply (adv_budget _ _ (Ha4 Hn)).
  rewrite E in Hd. change (dependencies _) with (<[dependencyKey d := d]> (dependencies t)) in Hd.
  apply lookup_insert_Some in Hd as [[_ <-]|[_ Hd]].
  - eapply Hnew; [|done|done]. apply (wf_summaryIndex _ Hw). exists x. split; [done|]. by destruct M as [-> _].
  - apply (adv_covered _ _ (Ha4 Hn)), (adv_covered _ _ (Ha Hn3)). eapply Hc; [done| |done].
    by rewrite E in Hx.
Qed.

Lemma closed_add_summary x t t3 t4 :
  wf t3 -> t3 = addedSummary x t -> same_tables t3 t4 -> advances t t3 -> advances t3 t4 ->
  budgetResult t4 = None ->
  (forall key d, key ∈ default [] (dependenciesByEntry t3 !! entryKey (sum_entry x)) ->
     dependencies t3 !! key = Some d -> matched d x -> covered t4 (contribution (returnPathEdge d x))) ->
  closed t -> closed t4.
Proof.
  intros Hw E Hs Ha Ha4 Hn Hnew Hc k d k' x' Hd Hx M.
  rewrite (same_dependencies _ _ Hs) in Hd. rewrite (same_summaries _ _ Hs) in Hx.
  assert (budgetResult t3 = None) as Hn3 by apply (adv_budget _ _ (Ha4 Hn)).
  rewrite E in Hx. change (summaries _) with (<[summaryKey x := x]> (summaries t)) in Hx.
  apply lookup_insert_Some in Hx as [[_ <-]|[_ Hx]].
  - eapply Hnew; [|done|done]. apply (wf_dependencyIndex _ Hw). exists d. split; [done|]. by destruct M as [-> _].
  - apply (adv_covered _ _ (Ha4 Hn)), (adv_covered _ _ (Ha Hn3)). eapply Hc; [|done|done].
    by rewrite E in Hd.
Qed.

Lemma ensures_reserve path witness t : wf t ->
  ensures (reserveWorkUnit inp path witness) t (fun b t' => answers b t' /\ same_tables t t').
Proof.
  intros Hw. destruct (reserve_spec path witness t) as [Hq Ha].
  apply ensures_quiet; [done|done|]. split; [done|by apply quiet_same].
Qed.

Lemma registerDependency_spec d t :
  wf t -> call_traced inp d ->
  ensures (registerDependency inp d) t (tabled t (fun t' => registered t' (dependency_facts d))).
Proof.
  intros Hw Hd. unfold registerDependency.
  eapply ensures_bind; [by apply checkpoint_tables|]. intros b t1 Hw1 Ha1 [Hb Hs1].
  destruct b; cbn [negb]; [|by apply tabled_stop].
  cbv zeta. apply ensures_get. destruct (dependencies t1 !! dependencyKey d) as [d'|] eqn:Ek.
  { apply ensures_ret; [done|]. split; [done|]. intros Hn. split; [by apply same_closed|].
    apply registered_key; [done|done|by eexists]. }
  eapply ensures_bind; [by apply ensures_reserve|]. intros b t2 Hw2 Ha2 [Hb2 Hs2].
  destruct b; cbn [negb]; [|by apply tabled_stop].
  change (modify _) with (modify (addedDependency d)).
  destruct (addedDependency_spec d t2) as [Hw3 Ha3]; [done|done|by rewrite (same_dependencies _ _ Hs2)|].
  eapply ensures_bind; [by apply (ensures_modify _ _ (fun _ t' => t' = addedDependency d t2))|].
  intros [] t3 _ _ E3. rewrite <- E3 in Hw3, Ha3. apply ensures_get.
  eapply ensures_mono; [apply applySummaries_spec; [done|done|]|].
  { intros key Hk. apply (wf_summaryIndex _ Hw3) in Hk as (x & Hx & He). exists x. split; [done|].
    apply entryKey_index_inj; [done| |done]. by apply (wf_summaries _ Hw3) in Hx as [? _]. }
  cbn beta. intros b t4 Hw4 Ha4 (Hb4 & Hs4 & Hnew). split; [done|]. intros Hn. split.
  - intros Hc. assert (budgetResult t3 = None) as Hn3 by apply (adv_budget _ _ (Ha4 Hn)).
    assert (budgetResult t2 = None) as Hn2 by apply (adv_budget _ _ (Ha3 Hn3)).
    eapply closed_add_dependency; [exact Hw3|exact E3|done..|by apply Hnew|].
    eapply same_closed; [exact (transitivity Hs1 Hs2)|exact (transitivity Ha1 Ha2)|done|done].
  - apply (adv_registered _ _ (Ha4 Hn)), registered_key; [done|done|]. rewrite E3.
    exists d. apply (lookup_insert_eq (dependencies t2)).
Qed.

Lemma publishSummary_spec x t :
  wf t -> exit_traced inp x ->
  ensures (publishSummary inp x) t (tabled t (fun t' => published t' (summary_facts x))).
Proof.
  intros Hw Hx. unfold publishSummary. rewrite Hseam.
  eapply ensures_bind; [by apply checkpoint_tables|]. intros b t1 Hw1 Ha1 [Hb Hs1].
  destruct b; cbn [negb]; [|by apply tabled_stop].
  cbv zeta. apply ensures_get. destruct (summaries t1 !! summaryKey x) as [x'|] eqn:Ek.
  { apply ensures_ret; [done|]. split; [done|]. intros Hn. split; [by apply same_closed|].
    apply published_key; [done|done|by eexists]. }
  eapply ensures_bind; [by apply ensures_reserve|]. intros b t2 Hw2 Ha2 [Hb2 Hs2].
  destruct b; cbn [negb]; [|by apply tabled_stop].
  change (modify _) with (modify (addedSummary x)).
  destruct (addedSummary_spec x t2) as [Hw3 Ha3]; [done|done|by rewrite (same_summaries _ _ Hs2)|].
  eapply ensures_bind; [by apply (ensures_modify _ _ (fun _ t' => t' = addedSummary x t2))|].
  intros [] t3 _ _ E3. rewrite <- E3 in Hw3, Ha3. apply ensures_get.
  eapply ensures_mono; [apply applyDependencies_spec; [done|done|]|].
  { intros key Hk. apply (wf_dependencyIndex _ Hw3) in Hk as (d & Hd & He). exists d. split; [done|].
    apply entryKey_index_inj; [|done|done]. by apply (wf_dependencies _ Hw3) in Hd as [? _]. }
  cbn beta. intros b t4 Hw4 Ha4 (Hb4 & Hs4 & Hnew). split; [done|]. intros Hn. split.
  - intros Hc. assert (budgetResult t3 = None) as Hn3 by apply (adv_budget _ _ (Ha4 Hn)).
    assert (budgetResult t2 = None) as Hn2 by apply (adv_budget _ _ (Ha3 Hn3)).
    eapply closed_add_summary; [exact Hw3|exact E3|done..|by apply Hnew|].
    eapply same_closed; [exact (transitivity Hs1 Hs2)|exact (transitivity Ha1 Ha2)|done|done].
  - apply (adv_published _ _ (Ha4 Hn)), published_key; [done|done|]. rewrite E3.
    exists x. apply (lookup_insert_eq (summaries t2)).
Qed.
End Invariant.
