(* ===== verification/TabulationRun.v ===== *)
(** * Processing path edges

    The body of the worklist loop of [goplint/cfa_ifds_tabulation.go] under the
    invariant of the tables: processing a derivable path edge either flags the
    obligation or adds everything derivable from it. *)

From S2P Require Export TabulationInvariant.
Local Open Scope Z_scope.

Section Processing.
Context (inp : tabulationInput).
Context (Hclean : clean_input inp) (Hrange : ranges_entries inp) (Hseam : summaries_uninjected inp).
Abbreviation graph := (in_graph inp).
Abbreviation wf := (wf inp).
Abbreviation ensures := (ensures inp).
Abbreviation quiet := (quiet inp).

(** An edge taken from a path edge has been followed. *)
Definition followed (t : tabulation) (e : interprocEntryFact) (n : interprocNodeID)
    (s : protocolAbstractState) (f : interprocConditionalEdgeFunc) (edge : interprocEdge) : Prop :=
  takes inp n s edge ->
  if String.eqb (EKind edge) interprocEdgeCall then
    covered t (mkEntry (To edge) (stateAlong inp edge n s), To edge, stateAlong inp edge n s,
               identityInterprocConditionalEdgeFunc) /\
    forall r, r ∈ returnEdgesForCall graph (CallSite edge) (FuncKey (To edge)) ->
      registered t (mkEntry (To edge) (stateAlong inp edge n s), From r, e, CallSite edge, To r,
                    effectAlong inp edge n s f)
  else covered t (e, To edge, nextStateOf inp n edge (stateAfter inp n s), effectAlong inp edge n s f).

(** Everything derivable from a path edge in one step is in the tables. *)
Definition expanded (t : tabulation) (e : interprocEntryFact) (n : interprocNodeID)
    (s : protocolAbstractState) (f : interprocConditionalEdgeFunc) : Prop :=
  continues inp n s /\
  (returnEdgesFrom graph n <> [] -> published t (e, n, stateAfter inp n s, effectAfter inp n s f)) /\
  forall edge, followed t e n s f edge.

Definition handled (t : tabulation) c : Prop :=
  flagged t \/ excused inp c \/ let '(e, n, s, f) := c in judge inp n s = Clear /\ expanded t e n s f.

Lemma followed_mono t t' e n s f edge : progress t t' -> followed t e n s f edge -> followed t' e n s f edge.
Proof.
  intros Hp H Ht. specialize (H Ht). destruct (String.eqb _ _); [|by apply (adv_covered _ _ Hp)].
  destruct H as [Hc Hr]. split; [by apply (adv_covered _ _ Hp)|]. intros r Hin.
  by apply (adv_registered _ _ Hp), Hr.
Qed.

Lemma handled_mono t t' c : progress t t' -> handled t c -> handled t' c.
Proof.
  intros Hp [H|[H|H]]; [left; by apply (adv_flagged _ _ Hp)|right; by left|do 2 right].
  destruct c as [[[e n] s] f].
  destruct H as (Hj & H1 & H2 & H3). split; [done|]. split; [done|]. split.
  - intros Hr. by apply (adv_published _ _ Hp), H2.
  - intros edge. by eapply followed_mono.
Qed.

(** ** Polls inside a computation *)
Lemma ensures_lift {A B} (F : Control -> polled (A * bool)) (k : A * bool -> run B) t Q :
  transparent F -> honest F -> wf t ->
  (forall t', wf t' -> quiet t t' -> ensures (k (outcome F, false)) t' Q) ->
  (forall a t', wf t' -> quiet t t' -> expires (in_control inp) -> ensures (k (a, true)) t' Q) ->
  ensures (lift (F (in_control inp)) ≫= k) t Q.
Proof.
  intros HF Hh Hw Hk He.
  eapply ensures_bind with (P := fun (a : A * bool) t' => quiet t t' /\
    (if snd a : bool then expires (in_control inp) else fst a = outcome F)).
  - apply ensures_quiet; [done|apply lift_quiet|]. split; [apply lift_quiet|]. unfold lift.
    specialize (Hh (in_control inp) (polls t)).
    destruct (F (in_control inp) (polls t)) as [[a []] clk] eqn:E; cbn [fst snd] in *; [by apply Hh|].
    by eapply transparent_run.
  - intros [a []] t' Hw' _ [Hq Ha]; cbn [fst snd] in Ha; [by apply He|]. rewrite Ha. by apply Hk.
Qed.

Lemma ensures_setBudget {B} reason path witness (b : B) t (Q : B -> tabulation -> Prop) :
  wf t -> budgetCause inp reason -> (forall t', is_Some (budgetResult t') -> Q b t') ->
  ensures (setBudgetExceeded inp reason path witness ;; mret b) t Q.
Proof.
  intros Hw Hr HQ. eapply ensures_bind with (P := fun _ t' => is_Some (budgetResult t')).
  - apply ensures_quiet; [done|by apply setBudget_quiet|apply setBudget_some].
  - intros [] t' Hw' _ Hs. apply ensures_ret; auto.
Qed.

(** ** The path edge being processed *)
Section Snapshot.
Context (pe : interprocPathEdge) (Hd : traced inp pe).
Abbreviation e := (pe_entry pe).
Abbreviation n := (pe_node pe).
Abbreviation s := (pe_state pe).
Abbreviation f := (pe_edgeFunction pe).

(** What a step on the path edge promises when the budget is not exceeded. *)
Definition does (t : tabulation) (P : tabulation -> Prop) (t' : tabulation) : Prop :=
  budgetResult t' = None -> (closed t -> closed t') /\ P t'.

Lemma does_exceeded t P t' : is_Some (budgetResult t') -> does t P t'.
Proof. intros [r Hr] Hn. congruence. Qed.

Lemma does_stop t P t' : answers false t' -> does t P t'.
Proof. intros H. apply does_exceeded. by apply H. Qed.

Lemma does_after t0 t1 (P : tabulation -> Prop) t :
  (budgetResult t1 = None -> closed t0 -> closed t1) -> advances t1 t -> does t1 P t -> does t0 P t.
Proof.
  intros Hc Ha H Hn. destruct (H Hn) as [H1 H2]. split; [|done]. intros H0.
  apply H1, Hc; [apply (adv_budget _ _ (Ha Hn))|done].
Qed.

Lemma registerReturns_spec edge matching : forall t,
  let es := stateAlong inp edge n s in
  wf t -> takes inp n s edge -> EKind edge = interprocEdgeCall ->
  (forall r, r ∈ matching -> r ∈ returnEdgesForCall graph (CallSite edge) (FuncKey (To edge))) ->
  ensures (registerReturns inp pe edge es (effectAlong inp edge n s f) (pathAlong pe edge)
             (witnessAlong inp pe edge) matching) t
    (fun _ => does t (fun t' => forall r, r ∈ matching ->
       registered t' (mkEntry (To edge) es, From r, e, CallSite edge, To r, effectAlong inp edge n s f))).
Proof.
  cbv zeta. induction matching as [|r matching IH]; intros t Hw Ht Hk Hm; cbn [registerReturns].
  { apply ensures_ret; [done|]. intros _. split; [done|]. by intros r []%elem_of_nil. }
  eapply ensures_bind; [by apply checkpoint_tables|]. intros b t1 Hw1 Ha1 [Hb Hs1].
  destruct b; cbn [negb]; [|apply ensures_ret; [done|by apply does_stop]].
  set (d := dependencyOf _ _ _ _ _ _ _).
  assert (call_traced inp d) as Hcd.
  { exists pe, edge, r. destruct (elem_of_returnsForCall graph (CallSite edge) (FuncKey (To edge)) r) as [Hr _].
    destruct Hr as [? ?]; [apply Hm; by left|]. split; [done|]. by split. }
  eapply ensures_bind; [by apply registerDependency_spec|]. intros b t2 Hw2 Ha2 [Hb2 Hc2].
  destruct b; cbn [negb]; [|apply ensures_ret; [done|by apply does_stop]].
  eapply ensures_mono; [apply IH; try done; intros; apply Hm; by right|].
  intros [] t3 _ Ha3 H3 Hn. pose proof (adv_budget _ _ (Ha3 Hn)) as Hn2.
  destruct (H3 Hn) as [H31 H32], (Hc2 Hn2) as [H21 H22]. split.
  - intros Hc. apply H31, H21. by apply (same_closed t t1); [..|apply (adv_budget _ _ (Ha2 Hn2))|].
  - intros r' [->|Hr']%elem_of_cons; [|by apply H32]. by apply (adv_registered _ _ (Ha3 Hn)).
Qed.

(** ** Outgoing edges *)
Lemma enqueue_does pe' t :
  wf t -> traced inp pe' ->
  ensures (enqueue inp pe') t (fun b t' => answers b t' /\ does t (fun t' => covered t' (contribution pe')) t').
Proof.
  intros Hw Hd'. eapply ensures_mono; [by apply enqueue_spec|]. intros b t' _ Ha (Hb & Hs & Hc).
  split; [done|]. intros Hn. split; [by apply same_closed|by apply Hc].
Qed.

Lemma processEdge_spec edge t :
  wf t -> continues inp n s -> returnEdgesFrom graph n = [] -> edge ∈ outgoing graph n ->
  ensures (processEdge inp pe (stateAfter inp n s) (effectAfter inp n s f) edge) t
    (fun b t' => answers b t' /\ does t (fun t' => followed t' e n s f edge) t').
Proof.
  intros Hw Hcont Hret Hout. unfold processEdge.
  destruct (String.eqb_spec (EKind edge) interprocEdgeReturn) as [Ek|Ek].
  { apply ensures_ret; [done|]. split; [done|]. intros _. split; [done|]. by intros (_ & _ & _ & ? & _). }
  destruct (pruned inp edge (stateAfter inp n s)) eqn:Ep.
  { apply ensures_ret; [done|]. split; [done|]. intros _. split; [done|].
    intros (_ & _ & _ & _ & ?). congruence. }
  assert (takes inp n s edge) as Ht by done. cbv zeta.
  change (edgeStateOf inp edge (stateAfter inp n s)) with (stateAlong inp edge n s).
  change (edgeEffectOf inp edge (stateAfter inp n s) (effectAfter inp n s f)) with (effectAlong inp edge n s f).
  unfold followed.
  destruct (String.eqb_spec (EKind edge) interprocEdgeCall) as [Ec|Ec].
  2: { eapply ensures_mono; [apply (enqueue_does (localPathEdge inp pe edge)); [done|by apply trace_local]|].
       cbn beta. intros b t' _ _ [Hb Hn]. split; [done|]. intros H. destruct (Hn H). by split. }
  apply (ensures_lift (returnEdgesForCallWithControl graph (CallSite edge) (FuncKey (To edge))));
    [auto with goplint..|done| |].
  2: { intros a t' Hw' _ He. cbn [snd]. apply ensures_setBudget; [done|by left|].
       intros t1 Hs. split; [by intros _|by apply does_exceeded]. }
  intros t1 Hw1 Hq1. cbn [fst snd]. fold (returnEdgesForCall graph (CallSite edge) (FuncKey (To edge))).
  eapply ensures_bind; [by apply registerReturns_spec|]. intros [] t2 Hw2 Ha2 H2. cbn beta in H2.
  unfold budgetExceeded. apply ensures_get. destruct (budgetResult t2) as [r|] eqn:E2.
  { apply ensures_ret; [done|]. assert (is_Some (budgetResult t2)) by by rewrite E2.
    split; [by intros _|by apply does_exceeded]. }
  eapply ensures_bind; [apply (enqueue_does (calleePathEdge inp pe edge)); [done|by apply trace_call]|].
  intros b t3 Hw3 Ha3 [Hb3 H3]. apply ensures_ret; [done|]. split; [done|].
  intros Hn. destruct (H3 Hn) as [H31 H32], (H2 E2) as [H21 H22]. split.
  - intros Hc. apply H31, H21. eapply same_closed; [by apply (quiet_same inp)|by apply (quiet_advances inp)| |done].
    apply (adv_budget _ _ (Ha2 E2)).
  - intros _. split; [exact H32|]. intros r Hr. by apply (adv_registered _ _ (Ha3 Hn)), H22.
Qed.

Lemma processEdges_spec edges : forall t,
  wf t -> continues inp n s -> returnEdgesFrom graph n = [] ->
  (forall edge, edge ∈ edges -> edge ∈ outgoing graph n) ->
  ensures (processEdges inp pe (stateAfter inp n s) (effectAfter inp n s f) edges) t
    (fun _ => does t (fun t' => forall edge, edge ∈ edges -> followed t' e n s f edge)).
Proof.
  induction edges as [|edge edges IH]; intros t Hw Hc Hret Hin; cbn [processEdges].
  { apply ensures_ret; [done|]. intros _. split; [done|]. by intros edge []%elem_of_nil. }
  eapply ensures_bind; [by apply checkpoint_tables|]. intros b t1 Hw1 Ha1 [Hb Hs1].
  destruct b; cbn [negb]; [|apply ensures_ret; [done|by apply does_stop]].
  eapply ensures_bind; [apply processEdge_spec; [done..|apply Hin; by left]|].
  intros b t2 Hw2 Ha2 [Hb2 H2].
  destruct b; cbn [negb]; [|apply ensures_ret; [done|by apply does_stop]].
  eapply ensures_mono; [apply IH; try done; intros; apply Hin; by right|].
  intros [] t3 _ Ha3 H3 Hn. pose proof (adv_budget _ _ (Ha3 Hn)) as Hn2.
  destruct (H3 Hn) as [H31 H32], (H2 Hn2) as [H21 H22]. split.
  - intros Hcl. apply H31, H21. by apply (same_closed t t1); [..|apply (adv_budget _ _ (Ha2 Hn2))|].
  - intros edge' [->|He]%elem_of_cons; [|by apply H32]. by eapply followed_mono; [apply (Ha3 Hn)|].
Qed.

Lemma quiet_closed t t' : quiet t t' -> budgetResult t' = None -> closed t -> closed t'.
Proof. intros Hq Hn. by apply same_closed; [apply (quiet_same inp)|apply (quiet_advances inp)|]. Qed.

Lemma quiet_does t P t' : quiet t t' -> is_Some (budgetResult t') -> does t P t'.
Proof. intros _. apply does_exceeded. Qed.

Lemma ensures_expired reason path witness t (P : tabulation -> Prop) :
  wf t -> budgetCause inp reason -> ensures (setBudgetExceeded inp reason path witness) t (fun _ => does t P).
Proof.
  intros Hw Hr. apply ensures_quiet; [done|by apply setBudget_quiet|]. apply does_exceeded, setBudget_some.
Qed.

Lemma propagateNode_spec t :
  wf t -> continues inp n s ->
  ensures (propagateNode inp pe (fst (nodeTransfer inp n s)) (stateAfter inp n s) (returnEdgesFrom graph n)) t
    (fun _ => does t (fun t' => expanded t' e n s f)).
Proof.
  intros Hw Hc. unfold propagateNode. cbv zeta.
  change (cond_then f (fst (nodeTransfer inp n s))) with (effectAfter inp n s f).
  destruct (returnEdgesFrom graph n) as [|r rest] eqn:Er.
  - apply ensures_lift; [auto with goplint..|done| |].
    2: { intros a t' Hw' Hq He. cbn [snd].
         eapply ensures_mono; [apply ensures_expired with (P := fun _ => False); [done|by left]|].
         intros [] t'' _ _ H Hn. by destruct (H Hn). }
    intros t1 Hw1 Hq1. cbn [fst snd]. change (outcome (outgoingWithControl graph n)) with (outgoing graph n).
    eapply ensures_mono; [by apply processEdges_spec|]. intros [] t2 _ Ha2 H2 Hn.
    destruct (H2 Hn) as [H21 H22]. split.
    + intros Hcl. apply H21. eapply quiet_closed; [done|apply (adv_budget _ _ (Ha2 Hn))|done].
    + split; [done|]. split; [by intros []|]. intros edge Ht. by apply H22; [apply Ht|].
  - eapply ensures_bind; [apply (publishSummary_spec inp Hclean Hrange Hseam (summaryAt inp pe)); [done|by exists pe]|].
    intros b t1 Hw1 Ha1 [Hb1 H1]. apply ensures_ret; [done|]. intros Hn. destruct (H1 Hn) as [H11 H12].
    split; [done|]. split; [done|]. split; [done|]. intros edge (_ & Hr & _). congruence.
Qed.

(** ** Verdicts of a node *)
Lemma prefer_cases current candidate r :
  preferInterprocResult current candidate = Some r -> r = candidate \/ current = Some r.
Proof.
  unfold preferInterprocResult. destruct current as [c|]; [|intros [= ->]; by left].
  destruct (_ <? _); [intros [= ->]; by left|]. destruct (_ && _); intros [= ->]; [by left|by right].
Qed.

Lemma prefer_some current candidate : is_Some (preferInterprocResult current candidate).
Proof. unfold preferInterprocResult. repeat case_match; by eexists. Qed.

Lemma record_advances t u i :
  (is_Some (unsafeResult t) -> is_Some u) -> (is_Some (inconclusiveResult t) -> is_Some i) ->
  advances t (set_results t (budgetResult t) u i).
Proof. intros Hu Hi Hn. split; try done; cbn; auto. intros [?|?]; [left|right]; cbn; auto. Qed.

Lemma recordUnsafe_spec t :
  wf t -> judge inp n s = Violates -> discharged inp pe cfgRefinementTriggerUnsafeCandidate = false ->
  ensures (recordUnsafe pe) t (fun _ => does t flagged).
Proof.
  intros Hw Hj Hdis. apply ensures_modify.
  - destruct Hw as [H1 H2 H3 H4 H5 H6 H7 H8 H9]. split; cbn; try done.
    intros r [->|Hr]%prefer_cases; [|by apply H8]. by exists pe.
  - apply record_advances; [intros _; apply prefer_some|done].
  - intros Hn. split; [done|]. left. apply prefer_some.
Qed.

Lemma recordInconclusive_spec reason t :
  wf t -> openReason inp pe reason -> discharged inp pe reason = false ->
  ensures (recordInconclusive pe reason) t (fun _ => does t flagged).
Proof.
  intros Hw Hj Hdis. apply ensures_modify.
  - destruct Hw as [H1 H2 H3 H4 H5 H6 H7 H8 H9]. split; cbn; try done.
    intros r [->|Hr]%prefer_cases; [|by apply H9]. by exists pe, reason.
  - apply record_advances; [done|intros _; apply prefer_some].
  - intros Hn. split; [done|]. right. apply prefer_some.
Qed.

(** What processing the path edge promises: an obligation is flagged, the witness was
    discharged, or everything derivable in one step is added. *)
Definition done_with (t' : tabulation) : Prop := handled t' (contribution pe).

Lemma excused_done trigger t : discharged inp pe trigger = true -> wf t ->
  ensures (mret tt) t (fun _ => does t done_with).
Proof.
  intros Ed Hw. apply ensures_ret; [done|]. intros _. split; [done|]. right. left. by exists pe, trigger.
Qed.

(** A flagged verdict unless its witness was discharged. *)
Lemma verdict_spec trigger (m : run unit) t :
  wf t -> (discharged inp pe trigger = false -> ensures m t (fun _ => does t flagged)) ->
  ensures (if discharged inp pe trigger then mret tt else m) t (fun _ => does t done_with).
Proof.
  intros Hw Hm. destruct (discharged inp pe trigger) eqn:Ed; [by apply (excused_done trigger)|].
  eapply ensures_mono; [by apply Hm|]. intros [] t' _ _ H Hn. destruct (H Hn) as [? Hf].
  split; [done|]. by left.
Qed.

Lemma propagate_done t :
  wf t -> judge inp n s = Clear ->
  ensures (propagateNode inp pe (fst (nodeTransfer inp n s)) (stateAfter inp n s) (returnEdgesFrom graph n)) t
    (fun _ => does t done_with).
Proof.
  intros Hw Hc. eapply ensures_mono; [apply propagateNode_spec; [done|by right]|]. intros [] t' _ _ H Hn.
  destruct (H Hn) as [? He]. split; [done|]. do 2 right. by split.
Qed.

(** The obligation checks that follow the definite violation. *)
Lemma obligation_spec t :
  wf t -> blockingReason (snd (nodeTransfer inp n s)) = false ->
  definiteViolation inp n (stateAfter inp n s) = false ->
  let nodeReason := state_pathOutcomeReason (stateAfter inp n s) in
  ensures
    (if uncertainAt inp n s && discharged inp pe nodeReason then mret tt
     else
       (if uncertainAt inp n s then recordInconclusive pe nodeReason else mret tt) ;;
       if negb (uncertainAt inp n s) && terminalUnsafe inp n (astNode graph n) (stateAfter inp n s) then
         if discharged inp pe cfgRefinementTriggerUnsafeCandidate then mret tt else recordUnsafe pe
       else propagateNode inp pe (fst (nodeTransfer inp n s)) (stateAfter inp n s) (returnEdgesFrom graph n)) t
    (fun _ => does t done_with).
Proof.
  intros Hw Hb Hdv nodeReason. assert (judge inp n s =
    if uncertainAt inp n s then Uncertain
    else if terminalUnsafe inp n (astNode graph n) (stateAfter inp n s) then Violates else Clear) as Hj
    by (unfold judge; by rewrite Hb, Hdv).
  destruct (uncertainAt inp n s) eqn:Eu; cbn [andb negb].
  - destruct (discharged inp pe nodeReason) eqn:Ed.
    { by apply (excused_done nodeReason). }
    eapply ensures_bind; [apply recordInconclusive_spec; [done|by right|done]|]. intros [] t1 Hw1 Ha1 H1.
    eapply ensures_mono; [apply propagateNode_spec; [done|by left]|]. intros [] t2 _ Ha2 H2 Hn.
    destruct (H1 (adv_budget _ _ (Ha2 Hn))) as [Hc1 Hf], (H2 Hn) as [Hc2 _]. split; [auto|].
    left. by apply (adv_flagged _ _ (Ha2 Hn)).
  - eapply ensures_bind with (P := fun _ t' => t' = t); [by apply ensures_ret|]. intros [] t1 Hw1 _ ->.
    destruct (terminalUnsafe _ _ _ _) eqn:Et.
    + apply verdict_spec; [done|]. intros Hdis. by apply recordUnsafe_spec.
    + by apply propagate_done.
Qed.

Lemma processNode_spec t : wf t -> ensures (processNode inp pe) t (fun _ => does t done_with).
Proof.
  intros Hw. unfold processNode. cbv zeta. destruct (blockingReason _) eqn:Eb.
  { apply verdict_spec; [done|]. intros Hdis. apply recordInconclusive_spec; [done| |done]. left.
    split; [|done]. unfold judge. by rewrite Eb. }
  change (nodeStateOf s (nodeTransfer inp n s)) with (stateAfter inp n s).
  eapply ensures_bind with (P := fun _ t' => quiet t t').
  { unfold observeExit. destruct (_ && _); [|by apply ensures_ret].
    apply ensures_quiet; [done|..]; (split; try done; by left). }
  intros [] t1 Hw1 Ha1 Hq1. apply ensures_lift; [auto with goplint..|done| |].
  2: { intros a t2 Hw2 Hq2 He. cbn [snd]. eapply ensures_mono; [apply ensures_expired with (P := fun _ => False); [done|by left]|].
       intros [] t3 _ _ H Hn. by destruct (H Hn). }
  intros t2 Hw2 Hq2. cbn [fst snd].
  change (outcome (returnEdgesFromWithControl graph n)) with (returnEdgesFrom graph n).
  assert (forall t3, does t2 done_with t3 -> advances t2 t3 -> does t done_with t3) as Hback.
  { intros t3 H Ha. apply (does_after t t2); [|done|done]. intros Hn. apply quiet_closed; [by etrans|done]. }
  destruct (definiteViolation _ _ _) eqn:Ed.
  - eapply ensures_mono; [apply verdict_spec; [done|intros Hdis; apply recordUnsafe_spec; [done| |done]]|].
    { unfold judge. by rewrite Eb, Ed. }
    intros [] t3 _ Ha3 H3. by apply Hback.
  - eapply ensures_mono; [by apply obligation_spec|]. intros [] t3 _ Ha3 H3. by apply Hback.
Qed.
End Snapshot.
End Processing.
