(* ===== verification/TabulationFacts.v ===== *)
(** * Verdicts of the tabulation

    The worklist loop of [goplint/cfa_ifds_tabulation.go] terminates, its tables
    hold exactly what the rules derive, and its verdicts are justified by the
    analyzed program: a safe verdict covers every interprocedurally valid path, and
    an unsafe verdict points to one. *)

From S2P Require Export TabulationRun.
Local Open Scope Z_scope.

(** ** Taking from the worklist *)
Lemma take_some inp q : q <> [] -> exists key rest, takeProtocolWorklist inp q = Some (key, rest).
Proof.
  intros Hq. unfold takeProtocolWorklist. destruct (worklistLIFO inp).
  - destruct (reverse q) as [|key rest] eqn:E; [|by eauto].
    apply (f_equal reverse) in E. by rewrite reverse_involutive in E.
  - destruct q; [done|]. by eauto.
Qed.

Lemma take_permutation inp q key rest : takeProtocolWorklist inp q = Some (key, rest) -> q ≡ₚ key :: rest.
Proof.
  unfold takeProtocolWorklist. destruct (worklistLIFO inp).
  - destruct (reverse q) as [|k r] eqn:E; [done|]. intros [= <- <-].
    by rewrite <- (reverse_Permutation q), E, reverse_Permutation.
  - destruct q; [done|]. by intros [= <- <-].
Qed.

(** ** Partial correctness of the loop *)
Section Verdicts.
Context (inp : tabulationInput).
Context (Hclean : clean_input inp) (Hrange : ranges_entries inp) (Hseam : summaries_uninjected inp).
Abbreviation quiet := (quiet inp).
Abbreviation rootFact := (rootEntry inp, in_start inp, initialState inp, identityInterprocConditionalEdgeFunc).

(** The loop invariant: while the budget lasts, what the tables imply is in them,
    except for what queued path edges still have to add. *)
Record running (t : tabulation) : Prop := {
  run_wf : wf inp t;
  run_root : budgetResult t = None -> covered t rootFact;
  run_closed : budgetResult t = None -> closed t;
  run_open c : budgetResult t = None -> covered t c -> pending t c \/ handled inp t c;
}.

Lemma wf_initial clk : wf inp (initialTabulation clk).
Proof.
  split; cbn; try done; intros *; rewrite lookup_empty; try done; cbn.
  - rewrite elem_of_nil. split; [done|]. intros (d & H & _). by rewrite lookup_empty in H.
  - rewrite elem_of_nil. split; [done|]. intros (d & H & _). by rewrite lookup_empty in H.
Qed.

Lemma running_initial clk : running (snd (enqueue inp (rootPathEdge inp) (initialTabulation clk))).
Proof.
  pose proof (enqueue_spec inp Hclean Hrange (rootPathEdge inp) (initialTabulation clk)
    (wf_initial clk) (trace_root inp)) as H. unfold ensures in H.
  destruct (enqueue inp (rootPathEdge inp) (initialTabulation clk)) as [b t]. cbn [snd].
  destruct H as (Hw & Ha & _ & Hs & Hc).
  split; [done|done| |].
  - intros _ k d k' x Hd. by rewrite (same_dependencies _ _ Hs) in Hd.
  - intros c Hn H. apply (adv_new _ _ (Ha Hn)) in H as [(sk & pe & H & _)|H]; [done|by left].
Qed.

Lemma running_quiet t t' : running t -> quiet t t' -> running t'.
Proof.
  intros [Hw Hr Hc Ho] Hq. pose proof (quiet_advances _ _ _ Hq) as Ha.
  split; [by eapply quiet_wf|..].
  - intros Hn. apply (adv_covered _ _ (Ha Hn)), Hr, (adv_budget _ _ (Ha Hn)).
  - intros Hn. apply (quiet_closed inp t); [done..|]. apply Hc, (adv_budget _ _ (Ha Hn)).
  - intros c Hn H. apply (adv_new _ _ (Ha Hn)) in H as [H|H]; [|by left].
    apply Ho in H as [H|H]; [left; by apply (adv_pending _ _ (Ha Hn))|right|apply (adv_budget _ _ (Ha Hn))].
    by eapply handled_mono; [apply (Ha Hn)|].
Qed.

(** Taking a key leaves what it queued open until it is processed. *)
Lemma pending_taken t key rest c :
  queue t ≡ₚ key :: rest -> pending t c ->
  pending (set_queue t rest) c \/ exists pe, pathEdges t !! key = Some pe /\ contribution pe = c.
Proof.
  intros Hq (sk & pe & Hin & H & <-). rewrite Hq in Hin. apply elem_of_cons in Hin as [->|Hin].
  - right. by exists pe.
  - left. by exists sk, pe.
Qed.

Lemma running_processed t key rest pe :
  running t -> queue t ≡ₚ key :: rest -> pathEdges t !! key = Some pe ->
  running (snd (processNode inp pe (set_queue t rest))).
Proof.
  intros [Hw Hr Hc Ho] Hq Hk. assert (wf inp (set_queue t rest)) as Hw2 by (destruct Hw; by split).
  assert (traced inp pe) as Hd by by apply (wf_edges _ _ Hw) in Hk as [? _].
  pose proof (processNode_spec inp Hclean Hrange Hseam pe Hd (set_queue t rest) Hw2) as H.
  unfold ensures in H.
  destruct (processNode inp pe (set_queue t rest)) as [[] t']. cbn [snd]. destruct H as (Hw' & Ha & Hdone).
  assert (budgetResult t' = None -> budgetResult t = None) as Hb by (intros Hn; apply (adv_budget _ _ (Ha Hn))).
  split; [done|..].
  - intros Hn. by apply (adv_covered _ _ (Ha Hn)), Hr, Hb.
  - intros Hn. destruct (Hdone Hn) as [H _]. by apply H, Hc, Hb.
  - intros c Hn H. apply (adv_new _ _ (Ha Hn)) in H as [H|H]; [|by left].
    apply Ho in H as [H|H]; [|right|by apply Hb]; [|by apply (handled_mono _ _ _ _ (Ha Hn))].
    eapply pending_taken in H as [H|(pe' & H & <-)]; [|..|exact Hq]; [left; by apply (adv_pending _ _ (Ha Hn))|].
    rewrite Hk in H. injection H as <-. right. by apply (Hdone Hn).
Qed.

Lemma running_skipped t key rest :
  running t -> queue t ≡ₚ key :: rest -> pathEdges t !! key = None -> running (set_queue t rest).
Proof.
  intros [Hw Hr Hc Ho] Hq Hk. split; [destruct Hw; by split|done|done|].
  intros c Hn H. apply Ho in H as [H|H]; [|by right|done].
  eapply pending_taken in H as [H|(pe & H & _)]; [by left| |exact Hq]. congruence.
Qed.

Lemma loopBody_running t t' : running t -> loopBody inp t = Some t' -> running t'.
Proof.
  intros Hrun. unfold loopBody. destruct (queue t) as [|k0 q0] eqn:Eq; [done|].
  destruct (budgetResult t); [done|]. destruct (checkpoint_quiet inp [] [] t) as [Hq _].
  destruct (checkpointAt inp [] [] t) as [ok t1]. cbn [fst snd] in *. destruct ok; [|done]. cbn [negb].
  destruct (takeProtocolWorklist inp (queue t1)) as [[key rest]|] eqn:Et; [|done].
  apply take_permutation in Et. assert (running t1) as Hrun1 by by eapply running_quiet.
  change (pathEdges (set_queue t1 rest)) with (pathEdges t1).
  destruct (pathEdges t1 !! key) as [pe|] eqn:Ek; intros [= <-].
  - by eapply running_processed.
  - by eapply running_skipped.
Qed.

Lemma loopExit_running t :
  running t -> loopBody inp t = None ->
  let t' := loopExit inp t in running t' /\ (budgetResult t' = None -> queue t' = []).
Proof.
  intros Hrun. unfold loopBody, loopExit. destruct (queue t) as [|k0 q0] eqn:Eq; [done|].
  destruct (budgetResult t) as [r|] eqn:Eb; [intros _; split; [done|congruence]|].
  destruct (checkpoint_quiet inp [] [] t) as [Hq Hb].
  destruct (checkpointAt inp [] [] t) as [ok t1]. cbn [fst snd] in *. destruct ok; cbn [negb].
  - destruct (take_some inp (queue t1)) as (key & rest & ->); [by rewrite (quiet_queue _ _ _ Hq), Eq|].
    change (pathEdges (set_queue t1 rest)) with (pathEdges t1). by destruct (pathEdges t1 !! key).
  - intros _. split; [by eapply running_quiet|]. intros Hn. destruct Hb; [done|congruence].
Qed.

Lemma worklistLoop_running fuel : forall t t',
  running t -> worklistLoop inp fuel t = Some t' -> running t' /\ (budgetResult t' = None -> queue t' = []).
Proof.
  induction fuel as [|fuel IH]; intros t t' Hrun; cbn [worklistLoop];
    (destruct (loopBody inp t) as [t1|] eqn:El; [|intros [= <-]; by apply loopExit_running]); [done|].
  apply IH. by eapply loopBody_running.
Qed.

(** ** Saturation *)
Section Saturated.
Context (t : tabulation) (Hrun : running t) (Hn : budgetResult t = None) (Hq : queue t = []) (Hf : ~ flagged t).

Lemma covered_decided e n s f :
  covered t (e, n, s, f) ->
  discharged_at inp n s \/ judge inp n s = Clear /\ expanded inp t e n s f.
Proof.
  intros H. apply (run_open _ Hrun) in H as [(sk & pe & Hin & _)|[H|[H|H]]]; [|done| |by right|done].
  - rewrite Hq in Hin. by apply elem_of_nil in Hin.
  - left. by eapply excused_at.
Qed.

(** The stacks under which the tables entered the procedure of an entry fact. *)
Inductive entered : interprocEntryFact -> list (string * string) -> Prop :=
| entered_root : entered (rootEntry inp) []
| entered_call e n s f edge stack :
    entered e stack -> covered t (e, n, s, f) -> expanded inp t e n s f -> takes inp n s edge ->
    EKind edge = interprocEdgeCall ->
    entered (mkEntry (To edge) (stateAlong inp edge n s)) ((CallSite edge, FuncKey (To edge)) :: stack).

Lemma return_covered e n s f edge r sx fx :
  expanded inp t e n s f -> takes inp n s edge -> EKind edge = interprocEdgeCall ->
  r ∈ graphEdges (in_graph inp) -> isMatchingReturn (CallSite edge) (FuncKey (To edge)) r = true ->
  expanded inp t (mkEntry (To edge) (stateAlong inp edge n s)) (From r) sx fx ->
  covered t (e, To r, stateAfter inp (From r) sx,
    thenSummary (effectAlong inp edge n s f) (effectAfter inp (From r) sx fx)).
Proof.
  intros (_ & _ & H) Ht Hk Hr Hm (_ & Hp & _). specialize (H edge Ht).
  rewrite Hk, String.eqb_refl in H. destruct H as [_ H].
  destruct (H r) as (k & d & Hkd & Ed); [by apply elem_of_returnsForCall|].
  destruct Hp as (k' & x & Hkx & Ex).
  { assert (r ∈ returnEdgesFrom (in_graph inp) (From r)) as Hin
      by (apply elem_of_returnsFrom; rewrite elem_of_outgoing; by apply isMatchingReturn_spec in Hm as (? & _)).
    intros E. rewrite E in Hin. by apply elem_of_nil in Hin. }
  unfold dependency_facts in Ed. injection Ed as E1 E2 E3 E4 E5 E6.
  unfold summary_facts in Ex. injection Ex as F1 F2 F3 F4.
  pose proof (run_closed _ Hrun Hn k d k' x Hkd Hkx) as Hc.
  unfold contribution, returnPathEdge in Hc. cbn in Hc. rewrite E3, E5, E6, F3, F4 in Hc.
  apply Hc. split; congruence.
Qed.

Lemma move_covered n s stack c e f :
  moves inp (n, s, stack) c -> entered e stack -> covered t (e, n, s, f) -> expanded inp t e n s f ->
  exists e' f', entered e' (snd c) /\ covered t (e', fst (fst c), snd (fst c), f').
Proof.
  intros Hm He Hc Hx. inversion Hm as [n0 s0 st edge Ht Hk|n0 s0 st edge Ht Hk|n0 s0 st r Hcont Hr Hk Hfrom];
    subst; cbn [fst snd].
  - destruct Hx as (_ & _ & H). specialize (H edge Ht).
    destruct (String.eqb_spec (EKind edge) interprocEdgeCall); [done|]. eauto.
  - pose proof Hx as (_ & _ & H). specialize (H edge Ht).
    rewrite Hk, String.eqb_refl in H. destruct H as [H _].
    eexists _, _. split; [by eapply entered_call|exact H].
  - inversion He as [|e0 n0 s0 f0 edge st0 He0 Hc0 Hx0 Ht0 Hk0]; subst.
    eexists e0, _. split; [done|]. eapply return_covered; try done. by apply isMatchingReturn_spec.
Qed.

Lemma path_covered c :
  rtc (moves inp) (initialConfiguration inp) c ->
  excused_path inp c \/ exists e f, entered e (snd c) /\ covered t (e, fst (fst c), snd (fst c), f).
Proof.
  revert c. apply rtc_ind_r.
  - right. exists (rootEntry inp), identityInterprocConditionalEdgeFunc. split; [apply entered_root|].
    by apply (run_root _ Hrun).
  - intros [[n s] st] c' Hp Hm [Hex|(e & f & He & Hc)]; [left; by eapply excused_path_step|].
    destruct (covered_decided _ _ _ _ Hc) as [Hd|[_ Hx]]; [left|right; by eapply move_covered].
    exists n, s, st. split_and!; [done|by apply rtc_once|done].
Qed.

Lemma path_clear n s stack :
  rtc (moves inp) (initialConfiguration inp) (n, s, stack) ->
  excused_path inp (n, s, stack) \/ judge inp n s = Clear.
Proof.
  intros Hp. destruct (path_covered _ Hp) as [?|(e & f & _ & H)]; [by left|].
  apply covered_decided in H as [Hd|[? _]]; [left|by right]. by exists n, s, stack.
Qed.

(** Without discharged witnesses the tables hold every derivable path edge and the
    summary of every exit. *)
Lemma expanded_undischarged e n s f :
  in_discharged inp = [] -> covered t (e, n, s, f) -> expanded inp t e n s f.
Proof. intros Hdis [H|[_ H]]%covered_decided; [|done]. by apply nothing_discharged in H. Qed.

Lemma derivable_covered c : in_discharged inp = [] -> derivable inp c -> covered t c.
Proof.
  intros Hdis. induction 1 as [|e n s f edge _ IH Ht Hk|e n s f edge _ IH Ht Hk
    |e n s f edge r sx fx _ IH Ht Hk Hr Hm _ IHx Hc]; [by apply (run_root _ Hrun)|..];
    pose proof (expanded_undischarged _ _ _ _ Hdis IH) as (_ & _ & H); specialize (H edge Ht); unfold followed in H.
  - by rewrite (proj2 (String.eqb_neq _ _) Hk) in H.
  - rewrite Hk, String.eqb_refl in H. apply H.
  - eapply return_covered; try done; by apply expanded_undischarged.
Qed.

Lemma covered_derivable c : covered t c -> derivable inp c.
Proof. intros (sk & pe & [H _]%(wf_edges _ _ (run_wf _ Hrun)) & <-). by apply traced_derivable. Qed.

Lemma published_exact e n s f :
  in_discharged inp = [] -> returnEdgesFrom (in_graph inp) n <> [] ->
  published t (e, n, s, f) <->
  exists s0 f0, derivable inp (e, n, s0, f0) /\ s = stateAfter inp n s0 /\ f = effectAfter inp n s0 f0.
Proof.
  intros Hdis Hr. split.
  - intros (k & x & [(pe & Hp & _ & ->) _]%(wf_summaries _ _ (run_wf _ Hrun)) & [= <- <- <- <-]).
    exists (pe_state pe), (pe_edgeFunction pe). split; [by apply traced_derivable|done].
  - intros (s0 & f0 & H & -> & ->). apply derivable_covered, expanded_undischarged in H; [|done..].
    by apply H.
Qed.
End Saturated.

(** ** The verdict *)
Lemma attachGraph_class r : Class (attachGraph inp r) = Class r /\ Reason (attachGraph inp r) = Reason r.
Proof. unfold attachGraph. by destruct (WitnessEdges r). Qed.

(** The state whose results decide the verdict. *)
Definition finalState (t : tabulation) : tabulation :=
  match budgetResult t with None => snd (checkpointAt inp [] [] t) | Some _ => t end.

Lemma finalState_running t :
  running t -> (budgetResult t = None -> queue t = []) ->
  running (finalState t) /\ (budgetResult (finalState t) = None -> queue (finalState t) = []).
Proof.
  intros Hrun Hq. unfold finalState. destruct (budgetResult t) eqn:E; [by rewrite E|].
  destruct (checkpoint_quiet inp [] [] t) as [Hquiet _]. split; [by eapply running_quiet|].
  intros _. rewrite (quiet_queue _ _ _ Hquiet). auto.
Qed.

Lemma verdict_cases t :
  running t ->
  let r := verdict inp t in let t' := finalState t in
  (Class r = interprocOutcomeSafe /\ budgetResult t' = None /\ ~ flagged t') \/
  (Class r = interprocOutcomeUnsafe /\ exists u, r = attachGraph inp u /\ unsafeResult t' = Some u) \/
  (Class r = interprocOutcomeInconclusive /\
    ((exists b, r = attachGraph inp b /\ budgetResult t' = Some b) \/
     exists i, r = attachGraph inp i /\ inconclusiveResult t' = Some i)).
Proof.
  intros Hrun. unfold verdict. fold (finalState t).
  assert (wf inp (finalState t)) as Hw.
  { unfold finalState. destruct (budgetResult t); [apply Hrun|].
    destruct (checkpoint_quiet inp [] [] t) as [Hquiet _]. by eapply quiet_wf; [|apply Hrun]. }
  cbv zeta. change (match budgetResult t with Some _ => _ | None => _ end) with (finalState t).
  destruct (budgetResult (finalState t)) as [b|] eqn:Eb.
  { right. right. split; [|left; by exists b]. destruct (attachGraph_class b) as [-> _].
    by apply (wf_budget _ _ Hw) in Eb as [? _]. }
  destruct (unsafeResult (finalState t)) as [u|] eqn:Eu.
  { right. left. split; [|by exists u]. destruct (attachGraph_class u) as [-> _].
    by apply (wf_unsafe _ _ Hw) in Eu as (pe & _ & _ & _ & ->). }
  destruct (inconclusiveResult (finalState t)) as [i|] eqn:Ei.
  { right. right. split; [|right; by exists i]. destruct (attachGraph_class i) as [-> _].
    by apply (wf_inconclusive _ _ Hw) in Ei as (pe & reason & _ & _ & _ & ->). }
  left. split_and!; [done|done|]. unfold flagged. rewrite Eu, Ei. by intros [[? ?]|[? ?]].
Qed.

(** Every run ends early, or in a saturated state whose verdict it returns. *)
Lemma run_cases fuel clk result st :
  runIFDSPropagationWithStatsOptions inp fuel clk = Some (result, st) ->
  (Class result = interprocOutcomeInconclusive /\
     (Reason result = pathOutcomeReasonTimeout /\ expires (in_control inp) \/
      Reason result = pathOutcomeReasonUnresolvedTarget /\
      graphNodes (in_graph inp) !! NodeKey (in_start inp) = None)) \/
  exists t clk', worklistLoop inp fuel (snd (enqueue inp (rootPathEdge inp) (initialTabulation clk'))) = Some t /\
    running t /\ (budgetResult (finalState t) = None -> queue (finalState t) = []) /\
    running (finalState t) /\ result = verdict inp t /\ st = stats t.
Proof.
  unfold runIFDSPropagationWithStatsOptions. pose proof (poll_expires (in_control inp) clk) as He.
  destruct (feasibilityDeadlineReached _ _) as [[] clk1].
  { intros [= <- _]. left. split; [done|]. left. split; [done|by apply He]. }
  destruct (graphNodes _ !! _); [|intros [= <- _]; left; split; [done|by right]].
  destruct (worklistLoop inp fuel _) as [t|] eqn:El; [|done]. intros [= <- <-]. right.
  exists t, clk1. split; [done|]. apply worklistLoop_running in El as [Hrun Hq]; [|apply running_initial].
  by destruct (finalState_running t) as [Hf1 Hf2].
Qed.

(** A safe verdict comes from a saturated state without flags. *)
Lemma safe_run_saturated fuel clk result st :
  runIFDSPropagationWithStatsOptions inp fuel clk = Some (result, st) ->
  Class result = interprocOutcomeSafe ->
  exists t, running t /\ budgetResult t = None /\ queue t = [] /\ ~ flagged t.
Proof.
  intros [[E _]|(t & clk' & _ & Hrun & Hq & Hf & -> & _)]%run_cases Hc; [by rewrite Hc in E|].
  destruct (verdict_cases t Hrun) as [(_ & Hn & Hflag)|[[E _]|[E _]]]; [|by rewrite Hc in E..].
  exists (finalState t). auto.
Qed.

(** C2. A safe verdict is a proof: when a run without discharged witnesses answers
    safe, no interprocedurally valid path of the program reaches a node that violates
    the obligation, leaves it relevantly uncertain or blocks.  The witnesses kept,
    dropped or merged, the summaries reused and the order of the worklist do not
    matter. *)
Theorem safe_verdict_covers_every_path fuel clk result st :
  runIFDSPropagationWithStatsOptions inp fuel clk = Some (result, st) ->
  Class result = interprocOutcomeSafe -> in_discharged inp = [] ->
  forall n s, reachable inp n s -> judge inp n s = Clear.
Proof.
  intros H Hc Hdis n s [stack Hr]. destruct (safe_run_saturated _ _ _ _ H Hc) as (t & Hrun & Hn & Hq & Hf).
  apply (path_clear t) in Hr as [Hd|Hd]; try done. by apply not_excused_path in Hd.
Qed.

(** C3. Discharged witnesses excuse only what goes through them: when a run that ignores
    discharged witnesses answers safe, every interprocedurally valid path ends in a node
    with nothing to report, or passes a node in a state that some traced path edge with
    a discharged witness reaches. *)
Theorem discharged_safe_verdict_covers_the_rest fuel clk result st :
  runIFDSPropagationWithStatsOptions inp fuel clk = Some (result, st) ->
  Class result = interprocOutcomeSafe ->
  forall n s stack, rtc (moves inp) (initialConfiguration inp) (n, s, stack) ->
  excused_path inp (n, s, stack) \/ judge inp n s = Clear.
Proof.
  intros H Hc n s stack Hr. destruct (safe_run_saturated _ _ _ _ H Hc) as (t & Hrun & Hn & Hq & Hf).
  by eapply path_clear.
Qed.

(** C4. An unsafe verdict is no false alarm of the propagation: some interprocedurally
    valid path reaches a node with a state that violates the obligation there, the
    verdict carries the block path and the witness of that path, and its witness is
    not a discharged one. *)
Theorem unsafe_verdict_reaches_violation fuel clk result st :
  runIFDSPropagationWithStatsOptions inp fuel clk = Some (result, st) ->
  Class result = interprocOutcomeUnsafe ->
  exists pe, traced inp pe /\ result = attachGraph inp (violationOf pe) /\
    reachable inp (pe_node pe) (pe_state pe) /\ judge inp (pe_node pe) (pe_state pe) = Violates /\
    discharged inp pe cfgRefinementTriggerUnsafeCandidate = false.
Proof.
  intros [[E _]|(t & clk' & _ & Hrun & Hq & Hf & -> & _)]%run_cases Hc; [by rewrite Hc in E|].
  destruct (verdict_cases t Hrun) as [[E _]|[(_ & u & Er & Hu)|[E _]]]; [by rewrite Hc in E| |by rewrite Hc in E].
  apply (wf_unsafe _ _ (run_wf _ Hf)) in Hu as (pe & Hp & Hj & Hd & ->). exists pe.
  split_and!; try done. by apply traced_reachable.
Qed.

(** C11. The worklist computes the valid paths: when the loop, started on the root path
    edge, ends without an exceeded budget, without an open or violated obligation and
    without discharged witnesses, its table of path edges holds exactly the nodes and
    states that interprocedurally valid paths reach, its path edges are exactly the
    derivable ones, and its summaries are exactly the effects of the derivable exits. *)
Theorem tables_exact fuel clk t :
  worklistLoop inp fuel (snd (enqueue inp (rootPathEdge inp) (initialTabulation clk))) = Some t ->
  in_discharged inp = [] ->
  budgetResult t = None -> unsafeResult t = None -> inconclusiveResult t = None ->
  (forall n s, (exists sk pe, pathEdges t !! sk = Some pe /\ pe_node pe = n /\ pe_state pe = s) <->
     reachable inp n s) /\
  (forall c, (exists sk pe, pathEdges t !! sk = Some pe /\ contribution pe = c) <-> derivable inp c) /\
  (forall e n s f, returnEdgesFrom (in_graph inp) n <> [] ->
     (exists k x, summaries t !! k = Some x /\ summary_facts x = (e, n, s, f)) <->
     exists s0 f0, derivable inp (e, n, s0, f0) /\ s = stateAfter inp n s0 /\ f = effectAfter inp n s0 f0).
Proof.
  intros El Hdis Hn Hu Hi. apply worklistLoop_running in El as [Hrun Hq]; [|apply running_initial].
  assert (~ flagged t) as Hf by (unfold flagged; rewrite Hu, Hi; by intros [[? ?]|[? ?]]).
  assert (forall c, covered t c <-> derivable inp c) as Hc
    by (split; [by apply covered_derivable|apply derivable_covered; auto]).
  split; [|split; [exact Hc|intros e n s f Hr; by apply published_exact; auto]].
  intros n s. rewrite <- summaries_exact. split.
  - intros (sk & pe & H & <- & <-). exists (pe_entry pe), (pe_edgeFunction pe). apply Hc. by exists sk, pe.
  - intros (e & f & (sk & pe & H & E)%Hc). exists sk, pe. by injection E as _ -> -> _.
Qed.
End Verdicts.

(** ** A program with one call *)
Definition callerNode : interprocNodeID := mkNode "pkg.main" 0 0 0 interprocNodeKindCFG.
Definition afterNode : interprocNodeID := mkNode "pkg.main" 0 0 0 interprocNodeKindReturn.
Definition calleeNode : interprocNodeID := mkNode "pkg.check" 0 0 0 interprocNodeKindCFG.

Definition callGraph : interprocSupergraph :=
  buildGraph [OpNode callerNode None; OpNode afterNode None; OpNode calleeNode None;
              OpEdge (mkEdge callerNode calleeNode interprocEdgeCall "site" "" []);
              OpEdge (mkEdge calleeNode afterNode interprocEdgeReturn "site" "" [])].

(** The callee transfers with a tag; the obligation is checked after the call. *)
Definition callInput (tag : ideEdgeFuncTag) (reason : pathOutcomeReason) : tabulationInput :=
  mkInput callGraph callerNode 100 [] None
    (fun n _ _ => if bool_decide (n = calleeNode) then (tag, reason) else (ideEdgeFuncIdentity, pathOutcomeReasonNone))
    (fun n _ s => bool_decide (n = afterNode) && negb (validationProven s)) None
    (Some (fun n _ => bool_decide (n = afterNode))) (mkSinkPolicy false false false) None
    (Some (fun k => (1000 <=? k)%nat)) false id id None false None map_to_list.

Lemma callInput_clean tag reason : clean_input (callInput tag reason).
Proof.
  split; [by repeat split|]. intros edge Hin.
  change (graphEdges _) with (graphEdges callGraph) in Hin. vm_compute in Hin.
  apply elem_of_cons in Hin as [->|Hin]; [by repeat split|].
  apply list_elem_of_singleton in Hin as ->. by repeat split.
Qed.

Lemma callInput_seams tag reason : ranges_entries (callInput tag reason) /\ summaries_uninjected (callInput tag reason).
Proof. split; intros ?; reflexivity. Qed.

Lemma callInput_moves tag :
  takes (callInput tag "") callerNode ideStateNeedsValidate (mkEdge callerNode calleeNode interprocEdgeCall "site" "" []).
Proof.
  split_and!; [by right|done| |done|done].
  apply elem_of_outgoing. split; [by left|done].
Qed.

Lemma callInput_reachable :
  reachable (callInput ideEdgeFuncValidate "") afterNode (stateAfter (callInput ideEdgeFuncValidate "") calleeNode ideStateNeedsValidate).
Proof.
  exists []. eapply rtc_l; [by apply (move_call _ _ _ _ _ (callInput_moves _))|].
  apply rtc_once.
  apply (move_return _ calleeNode _ _ (mkEdge calleeNode afterNode interprocEdgeReturn "site" "" []));
    [by right|right; by left|done|done].
Qed.

Definition callRun (tag : ideEdgeFuncTag) (reason : pathOutcomeReason) :=
  runIFDSPropagationWithStatsOptions (callInput tag reason) 200 0.

(** The class of a concrete run, by evaluation. *)
Ltac class_of_run E :=
  lazymatch type of E with
  | _ = Some (?r, _) =>
      apply (f_equal (fmap (fun x => Class (fst x)))) in E; cbn [fmap option_fmap option_map fst] in E;
      destruct r; vm_compute in E; injection E as E; exact (eq_sym E)
  end.

Lemma safe_verdict_covers_every_path_witness :
  judge (callInput ideEdgeFuncValidate "") afterNode
    (stateAfter (callInput ideEdgeFuncValidate "") calleeNode ideStateNeedsValidate) = Clear.
Proof.
  destruct (callRun ideEdgeFuncValidate "") as [[r st]|] eqn:E; [|by vm_compute in E].
  apply (safe_verdict_covers_every_path _ (callInput_clean _ _) (proj1 (callInput_seams _ _))
    (proj2 (callInput_seams _ _)) _ _ _ _ E); [class_of_run E|done|apply callInput_reachable].
Defined.

(** The same program where a run ignores the witness that reaches the check. *)
Definition dischargingInput : tabulationInput :=
  mkInput callGraph callerNode 100 ["h|cfgd1_proof"]
    (Some (fun _ _ terminal _ => if bool_decide (terminal = afterNode) then "h" else ""))
    (fun _ _ _ => (ideEdgeFuncIdentity, pathOutcomeReasonNone))
    (fun n _ s => bool_decide (n = afterNode) && negb (validationProven s)) None
    (Some (fun n _ => bool_decide (n = afterNode))) (mkSinkPolicy false false false) None
    (Some (fun k => (1000 <=? k)%nat)) false id id None false None map_to_list.

Lemma dischargingInput_takes :
  takes dischargingInput callerNode ideStateNeedsValidate (mkEdge callerNode calleeNode interprocEdgeCall "site" "" []).
Proof.
  split_and!; [by right|done| |done|done].
  apply elem_of_outgoing. split; [by left|done].
Qed.

Lemma discharged_safe_verdict_covers_the_rest_witness :
  let s := stateAfter dischargingInput calleeNode ideStateNeedsValidate in
  judge dischargingInput afterNode s = Violates /\
  (excused_path dischargingInput (afterNode, s, []) \/ judge dischargingInput afterNode s = Clear).
Proof.
  intros s. split; [by vm_compute|].
  destruct (runIFDSPropagationWithStatsOptions dischargingInput 200 0) as [[r st]|] eqn:E; [|by vm_compute in E].
  apply (discharged_safe_verdict_covers_the_rest dischargingInput (callInput_clean "" "")
    (fun _ => reflexivity _) (fun _ => eq_refl) _ _ _ _ E); [class_of_run E|].
  eapply rtc_l; [by apply (move_call _ _ _ _ _ dischargingInput_takes)|]. apply rtc_once.
  apply (move_return _ calleeNode _ _ (mkEdge calleeNode afterNode interprocEdgeReturn "site" "" []));
    [by right|right; by left|done|done].
Defined.

Lemma unsafe_verdict_reaches_violation_witness :
  exists r, RWitness r = [0] /\ exists pe, traced (callInput ideEdgeFuncIdentity "") pe /\
    r = attachGraph (callInput ideEdgeFuncIdentity "") (violationOf pe) /\
    reachable (callInput ideEdgeFuncIdentity "") (pe_node pe) (pe_state pe) /\
    judge (callInput ideEdgeFuncIdentity "") (pe_node pe) (pe_state pe) = Violates /\
    discharged (callInput ideEdgeFuncIdentity "") pe cfgRefinementTriggerUnsafeCandidate = false.
Proof.
  destruct (callRun ideEdgeFuncIdentity "") as [[r st]|] eqn:E; [|by vm_compute in E].
  exists r. split.
  - apply (f_equal (fmap (fun x => RWitness (fst x)))) in E. destruct r. vm_compute in E. injection E as E. exact (eq_sym E).
  - apply (unsafe_verdict_reaches_violation _ (callInput_clean _ _) (proj1 (callInput_seams _ _))
      (proj2 (callInput_seams _ _)) _ _ _ _ E). class_of_run E.
Defined.

Definition callTables : option tabulation :=
  worklistLoop (callInput ideEdgeFuncValidate "") 200
    (snd (enqueue (callInput ideEdgeFuncValidate "") (rootPathEdge (callInput ideEdgeFuncValidate "")) (initialTabulation 0))).

Definition tablesSummary (t : tabulation) :=
  (budgetResult t, unsafeResult t, inconclusiveResult t, size (pathEdges t), size (summaries t)).

Lemma tables_exact_witness :
  exists t, callTables = Some t /\ size (pathEdges t) = 3%nat /\ size (summaries t) = 1%nat /\
    forall n s, (exists sk pe, pathEdges t !! sk = Some pe /\ pe_node pe = n /\ pe_state pe = s) <->
      reachable (callInput ideEdgeFuncValidate "") n s.
Proof.
  assert (option_map tablesSummary callTables = Some (None, None, None, 3%nat, 1%nat)) as R by by vm_compute.
  destruct callTables as [t|] eqn:E; [|done]. injection R as R1 R2 R3 R4 R5. exists t. split_and!; [done..|].
  apply (tables_exact _ (callInput_clean _ _) (proj1 (callInput_seams _ _)) (proj2 (callInput_seams _ _)) 200 0 t E);
    [done|exact R1|exact R2|exact R3].
Defined.
