(* ===== verification/TabulationBudget.v ===== *)
(** * Termination and budget of the tabulation

    The worklist of [goplint/cfa_ifds_tabulation.go] ends: every queued path edge is
    paid for with a work unit, and the run stops when the units are spent.  No
    assumption about the graph, the transfer functions or the control is made.  From
    the accounting follows why a verdict is inconclusive. *)

From S2P Require Export TabulationFacts.
Local Open Scope Z_scope.

Section Budget.
Context (inp : tabulationInput).
Abbreviation maxStates := (effectiveMaxStates inp).

(** Work units left plus queued path edges. *)
Definition measure (t : tabulation) : nat :=
  (Z.to_nat (maxStates - workUnits t) + length (queue t))%nat.

(** Table entries counted in the statistics. *)
Definition counted (t : tabulation) : Z := PathEdges (stats t) + Dependencies (stats t) + Summaries (stats t).

(** Every granted unit is spent on one entry, and only a refused one exceeds the state
    budget. *)
Definition bounded (t : tabulation) : Prop :=
  counted t = Z.min (workUnits t) maxStates /\
  forall r, budgetResult t = Some r -> Reason r = pathOutcomeReasonStateBudget -> counted t = maxStates.

Definition thrifty (t t' : tabulation) : Prop :=
  (measure t' <= measure t)%nat /\ (bounded t -> bounded t').

#[export] Instance thrifty_preorder : PreOrder thrifty.
Proof. split; [intros t; split; auto; lia|]. intros t1 t2 t3 [] []. split; [lia|auto]. Qed.

(** Steps that touch neither the queue nor the counters. *)
Lemma thrifty_same t t' :
  queue t' = queue t -> workUnits t' = workUnits t -> counted t' = counted t ->
  budgetResult t' = budgetResult t -> thrifty t t'.
Proof. intros E1 E2 E3 E4. unfold thrifty, measure, bounded. rewrite E1, E2, E3, E4. split; [lia|done]. Qed.

Definition thrifts {A} (m : run A) : Prop := forall t, thrifty t (snd (m t)).

Lemma thrifts_ret {A} (a : A) : thrifts (mret a).
Proof. intros t. reflexivity. Qed.

Lemma thrifts_bind {A B} (m : run A) (k : A -> run B) : thrifts m -> (forall a, thrifts (k a)) -> thrifts (m ≫= k).
Proof. intros Hm Hk t. rewrite run_bind_eq. etrans; [apply Hm|apply Hk]. Qed.

Lemma thrifts_get {A} (f : tabulation -> A) : thrifts (get f).
Proof. intros t. reflexivity. Qed.

Lemma thrifts_modify f : (forall t, thrifty t (f t)) -> thrifts (modify f).
Proof. intros H t. apply H. Qed.

Lemma thrifts_lift {A} (p : polled A) : thrifts (lift p).
Proof. intros t. unfold lift. destruct (p (polls t)). by apply thrifty_same. Qed.

Lemma thrifts_if {A} (b : bool) (m m' : run A) : thrifts m -> thrifts m' -> thrifts (if b then m else m').
Proof. by destruct b. Qed.

Lemma thrifts_setBudget reason path witness :
  reason <> pathOutcomeReasonStateBudget -> thrifts (setBudgetExceeded inp reason path witness).
Proof.
  intros Hne. apply thrifts_modify. intros t. destruct (budgetResult t) eqn:E; [by apply thrifty_same|].
  unfold thrifty, measure, bounded. cbn. split; [lia|]. intros [Hc _]. split; [done|]. by intros r [= <-].
Qed.

(** The refused unit that exceeds the state budget. *)
Lemma exceed_states path witness t :
  maxStates < workUnits t ->
  let t' := snd (setBudgetExceeded inp pathOutcomeReasonStateBudget path witness t) in
  measure t' = measure t /\ (counted t = maxStates -> bounded t').
Proof.
  intros Hw. unfold setBudgetExceeded, modify, bounded. cbn [snd].
  destruct (budgetResult t) eqn:E; cbn; (split; [done|]); intros Hc;
    (split; [unfold counted in *; cbn; lia|done]).
Qed.

(** Follow the shape of a computation; calls are left to the hints. *)
Create HintDb thrift.
#[local] Hint Resolve thrifts_ret thrifts_get thrifts_lift : thrift.
#[local] Hint Extern 1 (thrifts (setBudgetExceeded _ _ _ _)) => by apply thrifts_setBudget : thrift.
Ltac thrift :=
  repeat lazymatch goal with
  | |- thrifts (_ ≫= _) => apply thrifts_bind; [|intros ?]
  | |- thrifts (let '(_, _) := ?p in _) => destruct p
  | |- thrifts (match ?x with _ => _ end) => destruct x
  | |- _ => solve [auto with thrift]
  end.

Lemma thrifts_checkpoint path witness : thrifts (checkpointAt inp path witness).
Proof. unfold checkpointAt. thrift. Qed.
#[local] Hint Resolve thrifts_checkpoint : thrift.

(** A granted work unit pays for one queued path edge or table entry. *)
Lemma reserve_pays path witness t :
  let '(granted, t') := reserveWorkUnit inp path witness t in
  if granted : bool then
    (measure t' + 1 <= measure t)%nat /\
    (bounded t -> counted t' + 1 = workUnits t' /\ workUnits t' <= maxStates /\
       forall r, budgetResult t' = Some r -> Reason r <> pathOutcomeReasonStateBudget)
  else thrifty t t'.
Proof.
  unfold reserveWorkUnit. rewrite run_bind_eq. pose proof (thrifts_checkpoint path witness t) as Hc.
  destruct (checkpointAt inp path witness t) as [[] t1]; cbn [fst snd negb] in *; [|done].
  rewrite run_bind_eq, run_bind_eq. unfold modify, get. cbn [fst snd]. set (t2 := set_work t1 _ _).
  destruct Hc as [Hm Hb]. destruct (Z.leb_spec (workUnits t2) maxStates) as [Hle|Hgt]; cbn [mret run_ret].
  - split; [unfold measure in *; cbn in *; lia|]. intros [Hc Hr]%Hb. unfold counted in *. cbn in *.
    split; [lia|]. split; [lia|]. intros r E1 E2. specialize (Hr r E1 E2). lia.
  - rewrite run_bind_eq. cbn [mret run_ret fst snd]. split.
    + destruct (exceed_states path witness t2 Hgt) as [-> _]. unfold measure in *. cbn in *. lia.
    + intros [Hc _]%Hb. apply exceed_states; [done|]. unfold counted in *. cbn in *. lia.
Qed.

(** An addition to the tables that costs one unit. *)
Definition costs_one (g : tabulation -> tabulation) : Prop :=
  forall t, (measure (g t) <= measure t + 1)%nat /\ counted (g t) = counted t + 1 /\
    workUnits (g t) = workUnits t /\ budgetResult (g t) = budgetResult t.

Lemma thrifts_paid path witness g (m : run bool) :
  costs_one g -> thrifts m ->
  thrifts (reserved ← reserveWorkUnit inp path witness;
           if negb reserved then mret false else (modify g ;; m)).
Proof.
  intros Hg Hm t. rewrite run_bind_eq. pose proof (reserve_pays path witness t) as H.
  destruct (reserveWorkUnit inp path witness t) as [[] t1]; cbn [fst snd negb mret run_ret] in *; [|done].
  rewrite run_bind_eq. etrans; [|apply Hm]. cbn [modify snd]. destruct (Hg t1) as (G1 & G2 & G3 & G4), H as [P1 P2].
  split; [lia|]. intros (Q1 & Q2 & Q3)%P2. unfold bounded. rewrite G2, G3, G4. split; [lia|].
  intros r E1 E2. by destruct (Q3 r E1).
Qed.

(** ** The operations *)
Lemma thrifts_scan pe wid retained : forall subsumed, thrifts (scanAntichain inp pe wid retained subsumed).
Proof.
  induction retained as [|[rid sk] rest IH]; intros subsumed; cbn [scanAntichain]; cbv zeta; thrift; apply IH.
Qed.

Lemma thrifts_drop pe ck sks : thrifts (dropSubsumed inp pe ck sks).
Proof.
  induction sks as [|sk sks IH]; cbn [dropSubsumed]; thrift.
  apply thrifts_modify. intros t. by apply thrifty_same.
Qed.
#[local] Hint Resolve thrifts_scan thrifts_drop : thrift.

Lemma store_costs_one pe ck wid : costs_one (storePathEdge pe ck wid).
Proof. intros t. unfold measure, counted. cbn. rewrite length_app. cbn. split_and!; [lia|lia|done..]. Qed.

Lemma thrifts_enqueue pe : thrifts (enqueue inp pe).
Proof.
  unfold enqueue. cbv zeta.
  apply thrifts_bind; [apply thrifts_checkpoint|intros ok]. apply thrifts_if; [apply thrifts_ret|].
  apply thrifts_bind; [apply thrifts_modify; intros t; by apply thrifty_same|intros _].
  apply thrifts_bind; [apply thrifts_get|intros antichain]. apply thrifts_bind; [apply thrifts_scan|].
  intros [b|subsumed]; [apply thrifts_ret|]. apply thrifts_bind; [apply thrifts_drop|intros dropped].
  apply thrifts_if; [apply thrifts_ret|]. apply thrifts_bind; [apply thrifts_get|intros remaining].
  apply thrifts_if; [thrift|]. apply thrifts_paid; [apply store_costs_one|apply thrifts_ret].
Qed.
#[local] Hint Resolve thrifts_enqueue : thrift.

Lemma thrifts_applySummary d x : thrifts (applySummary inp d x).
Proof. unfold applySummary. thrift. apply thrifts_modify. intros t. by apply thrifty_same. Qed.
#[local] Hint Resolve thrifts_applySummary : thrift.

Lemma thrifts_applySummaries d keys : thrifts (applySummaries inp d keys).
Proof. induction keys as [|key keys IH]; cbn [applySummaries]; thrift; apply IH. Qed.

Lemma thrifts_applyDependencies x keys : thrifts (applyDependencies inp x keys).
Proof. induction keys as [|key keys IH]; cbn [applyDependencies]; thrift; apply IH. Qed.
#[local] Hint Resolve thrifts_applySummaries thrifts_applyDependencies : thrift.

Lemma thrifts_register d : thrifts (registerDependency inp d).
Proof.
  unfold registerDependency. cbv zeta.
  apply thrifts_bind; [apply thrifts_checkpoint|intros ok]. apply thrifts_if; [apply thrifts_ret|].
  apply thrifts_bind; [apply thrifts_get|intros [d'|]]; [apply thrifts_ret|].
  apply thrifts_paid; [|thrift]. intros t. unfold measure, counted. cbn. split_and!; [lia|lia|done..].
Qed.

Lemma thrifts_publish x : thrifts (publishSummary inp x).
Proof.
  unfold publishSummary. cbv zeta.
  apply thrifts_bind; [apply thrifts_checkpoint|intros ok]. apply thrifts_if; [apply thrifts_ret|].
  apply thrifts_bind; [apply thrifts_get|intros [d'|]]; [apply thrifts_ret|].
  apply thrifts_paid; [|thrift]. intros t. unfold measure, counted. cbn. split_and!; [lia|lia|done..].
Qed.
#[local] Hint Resolve thrifts_register thrifts_publish : thrift.

Lemma thrifts_record pe reason : thrifts (recordInconclusive pe reason) /\ thrifts (recordUnsafe pe).
Proof. split; apply thrifts_modify; intros t; by apply thrifty_same. Qed.

Lemma thrifts_registerReturns pe edge es f path witness matching :
  thrifts (registerReturns inp pe edge es f path witness matching).
Proof. induction matching as [|r matching IH]; cbn [registerReturns]; thrift; apply IH. Qed.
#[local] Hint Resolve thrifts_registerReturns : thrift.

Lemma thrifts_processEdge pe s f edge : thrifts (processEdge inp pe s f edge).
Proof. unfold processEdge, budgetExceeded. cbv zeta. thrift. Qed.

Lemma thrifts_processEdges pe s f edges : thrifts (processEdges inp pe s f edges).
Proof. induction edges as [|edge edges IH]; cbn [processEdges]; thrift; apply thrifts_processEdge. Qed.
#[local] Hint Resolve thrifts_processEdges : thrift.

Lemma thrifts_propagate pe tag s returns : thrifts (propagateNode inp pe tag s returns).
Proof. unfold propagateNode. cbv zeta. thrift. Qed.

Lemma thrifts_observe n s : thrifts (observeExit inp n s).
Proof.
  unfold observeExit. thrift. apply thrifts_modify. intros t. by apply thrifty_same.
Qed.

Lemma thrifts_processNode pe : thrifts (processNode inp pe).
Proof.
  unfold processNode. cbv zeta.
  pose proof (fun reason => proj1 (thrifts_record pe reason)) as Hi.
  pose proof (proj2 (thrifts_record pe pathOutcomeReasonNone)) as Hu.
  pose proof thrifts_propagate. pose proof thrifts_observe. thrift.
Qed.

(** ** The loop *)
Lemma loopBody_decreases t t' :
  loopBody inp t = Some t' -> (measure t' < measure t)%nat /\ (bounded t -> bounded t').
Proof.
  unfold loopBody. destruct (queue t) as [|k0 q0] eqn:Eq; [done|]. destruct (budgetResult t); [done|].
  destruct (thrifts_checkpoint [] [] t) as [Hm Hb]. destruct (checkpointAt inp [] [] t) as [ok t1].
  cbn [snd] in *. destruct ok; [|done]. cbn [negb].
  destruct (takeProtocolWorklist inp (queue t1)) as [[key rest]|] eqn:Et; [|done].
  apply take_permutation in Et. apply Permutation_length in Et. cbn in Et.
  assert (measure (set_queue t1 rest) < measure t)%nat as Hlt by (unfold measure in *; cbn; lia).
  assert (bounded t1 -> bounded (set_queue t1 rest)) as Hb1 by done.
  destruct (pathEdges _ !! key) as [pe|]; intros [= <-]; [|split; [lia|auto]].
  destruct (thrifts_processNode pe (set_queue t1 rest)). split; [lia|auto].
Qed.

Lemma loopExit_bounded t : bounded t -> bounded (loopExit inp t).
Proof.
  unfold loopExit. destruct (queue t); [done|]. destruct (budgetResult t); [done|].
  apply thrifts_checkpoint.
Qed.

Lemma worklistLoop_total fuel : forall t, (measure t <= fuel)%nat -> bounded t ->
  exists t', worklistLoop inp fuel t = Some t' /\ bounded t'.
Proof.
  induction fuel as [|fuel IH]; intros t Hm Hb; cbn [worklistLoop];
    (destruct (loopBody inp t) as [t1|] eqn:El;
      [apply loopBody_decreases in El as [Hlt Hb1]|by eauto using loopExit_bounded]); [lia|].
  apply IH; [lia|auto].
Qed.

Lemma effectiveMaxStates_positive : 0 < maxStates.
Proof. unfold effectiveMaxStates, defaultCFGMaxStates. destruct (Z.leb_spec (in_maxStates inp) 0); lia. Qed.

Lemma initial_loop_total fuel clk :
  exists t, worklistLoop inp (runFuel inp + fuel) (snd (enqueue inp (rootPathEdge inp) (initialTabulation clk)))
    = Some t /\ bounded t.
Proof.
  pose proof effectiveMaxStates_positive.
  destruct (thrifts_enqueue (rootPathEdge inp) (initialTabulation clk)) as [Hm Hb]. apply worklistLoop_total.
  - unfold runFuel. unfold measure in Hm at 2. change (workUnits (initialTabulation clk)) with 0 in Hm.
    change (queue (initialTabulation clk)) with (@nil string) in Hm. cbn [length] in Hm. lia.
  - apply Hb. split; [|done]. change (counted (initialTabulation clk)) with 0.
    change (workUnits (initialTabulation clk)) with 0. lia.
Qed.

Lemma run_answers clk : is_Some (runIFDSPropagationWithStatsOptions inp (runFuel inp) clk).
Proof.
  unfold runIFDSPropagationWithStatsOptions.
  destruct (feasibilityDeadlineReached _ _) as [[] clk1]; [by eexists|].
  destruct (graphNodes _ !! _); [|by eexists].
  destruct (initial_loop_total 0 clk1) as (t & H & _). rewrite Nat.add_0_r in H. rewrite H. by eexists.
Qed.

(** C5. The tabulation terminates: whatever the graph, the transfer functions, the
    control and the order of the worklist, one iteration per work unit is enough for
    a verdict, and the path edges, dependencies and summaries it recorded stay within
    the state budget. *)
Theorem tabulation_terminates fuel clk :
  exists result st, runIFDSPropagationWithStatsOptions inp (runFuel inp + fuel) clk = Some (result, st) /\
    PathEdges st + Dependencies st + Summaries st <= maxStates.
Proof.
  pose proof effectiveMaxStates_positive. unfold runIFDSPropagationWithStatsOptions.
  destruct (feasibilityDeadlineReached _ _) as [[] clk1]; [do 2 eexists; split; [done|cbn; lia]|].
  destruct (graphNodes _ !! _); [|do 2 eexists; split; [done|cbn; lia]].
  destruct (initial_loop_total fuel clk1) as (t & -> & Hbt & _). exists (verdict inp t), (stats t).
  split; [done|]. unfold counted in Hbt. lia.
Qed.
End Budget.

(** ** Why a run is inconclusive *)
Section Causes.
Context (inp : tabulationInput).

Lemma bounded_initial clk : bounded inp (snd (enqueue inp (rootPathEdge inp) (initialTabulation clk))).
Proof.
  pose proof (effectiveMaxStates_positive inp). apply (thrifts_enqueue inp (rootPathEdge inp) (initialTabulation clk)).
  split; [|done]. change (counted (initialTabulation clk)) with 0.
  change (workUnits (initialTabulation clk)) with 0. lia.
Qed.

Lemma worklistLoop_bounded fuel : forall t t', bounded inp t -> worklistLoop inp fuel t = Some t' -> bounded inp t'.
Proof.
  induction fuel as [|fuel IH]; intros t t' Hb; cbn [worklistLoop];
    (destruct (loopBody inp t) as [t1|] eqn:El; [|intros [= <-]; by apply loopExit_bounded]); [done|].
  apply IH. by apply loopBody_decreases in El as [_ H]; apply H.
Qed.

(** The final checkpoint changes no counter. *)
Lemma finalState_counted t : counted (finalState inp t) = counted t.
Proof.
  unfold finalState, checkpointAt. destruct (budgetResult t); [done|]. rewrite run_bind_eq. unfold lift.
  destruct (feasibilityDeadlineReached _ _) as [[] clk]; [|done]. cbn [fst snd].
  rewrite run_bind_eq. unfold setBudgetExceeded, modify. cbn [snd mret run_ret].
  by destruct (budgetResult (set_observed t _ _)).
Qed.

Lemma finalState_bounded t : bounded inp t -> bounded inp (finalState inp t).
Proof. unfold finalState. destruct (budgetResult t); [done|]. apply thrifts_checkpoint. Qed.
End Causes.

(** C34. An inconclusive verdict has a cause.  Its reason is a timeout and the control
    expires at some poll; or the start node is not in the graph; or the state budget, and
    the run recorded as many path edges, dependencies and summaries as it allows; or the
    witness budget, and there are as many traced path edges with one fact and pairwise
    different witnesses as an antichain holds; or some valid path, which the verdict
    carries with its reason, reaches a node that blocks or is relevantly uncertain with
    a witness that is not a discharged one. *)
Theorem inconclusive_verdict_justified inp fuel clk result st :
  clean_input inp -> ranges_entries inp -> summaries_uninjected inp ->
  runIFDSPropagationWithStatsOptions inp fuel clk = Some (result, st) ->
  Class result = interprocOutcomeInconclusive ->
  Reason result = pathOutcomeReasonTimeout /\ expires (in_control inp) \/
  Reason result = pathOutcomeReasonUnresolvedTarget /\
    graphNodes (in_graph inp) !! NodeKey (in_start inp) = None \/
  Reason result = pathOutcomeReasonStateBudget /\
    PathEdges st + Dependencies st + Summaries st = effectiveMaxStates inp \/
  Reason result = pathOutcomeReasonWitnessBudget /\ crowded inp \/
  exists pe reason, traced inp pe /\ result = attachGraph inp (openQuestionOf pe reason) /\
    reachable inp (pe_node pe) (pe_state pe) /\ openReason inp pe reason /\
    discharged inp pe reason = false.
Proof.
  intros Hclean Hrange Hseam Hr Hc.
  apply run_cases in Hr as [[_ [H|H]]|(t & clk' & El & Hrun & _ & Hf & -> & ->)]; [by left|by right; left| |done..].
  destruct (verdict_cases inp t Hrun) as [[E _]|[[E _]|[_ [(b & -> & Hb)|(i & -> & Hi)]]]]; [by rewrite Hc in E..| |].
  - rewrite (proj2 (attachGraph_class inp b)).
    destruct (wf_budget _ _ (run_wf _ _ Hf) _ Hb) as [_ [?|[E|?]]]; [by left| |by right; right; right; left].
    right. right. left. split; [done|]. apply worklistLoop_bounded in El; [|apply bounded_initial].
    destruct (finalState_bounded inp t El) as [_ Hs]. rewrite <- (Hs b Hb E). symmetry. apply finalState_counted.
  - do 4 right. apply (wf_inconclusive _ _ (run_wf _ _ Hf)) in Hi as (pe & reason & Hp & Ho & Hd & ->).
    exists pe, reason. split_and!; try done. by apply traced_reachable.
Qed.

(** The program with one call, with a state budget of one. *)
Definition budgetInput : tabulationInput :=
  mkInput callGraph callerNode 1 [] None (fun _ _ _ => (ideEdgeFuncIdentity, pathOutcomeReasonNone))
    (fun n _ s => bool_decide (n = afterNode) && negb (validationProven s)) None
    (Some (fun n _ => bool_decide (n = afterNode))) (mkSinkPolicy false false false) None
    (Some (fun k => (1000 <=? k)%nat)) false id id None false None map_to_list.

Definition classAndReason (out : option (interprocPathResult * interprocTabulationStats)) :=
  option_map (fun x => (Class (fst x), Reason (fst x))) out.

(** One run is out of states with one entry recorded, the other meets a node whose
    transfer blocks. *)
Lemma inconclusive_verdict_justified_witness :
  (exists r st, runIFDSPropagationWithStatsOptions budgetInput 200 0 = Some (r, st) /\
     Reason r = pathOutcomeReasonStateBudget /\
     (PathEdges st + Dependencies st + Summaries st = 1 \/
      exists pe reason, traced budgetInput pe /\ r = attachGraph budgetInput (openQuestionOf pe reason))) /\
  let inp := callInput ideEdgeFuncValidate pathOutcomeReasonUnresolvedTarget in
  exists r st pe reason, runIFDSPropagationWithStatsOptions inp 200 0 = Some (r, st) /\
    r = attachGraph inp (openQuestionOf pe reason) /\
    reachable inp (pe_node pe) (pe_state pe) /\ openReason inp pe reason.
Proof.
  split.
  - assert (classAndReason (runIFDSPropagationWithStatsOptions budgetInput 200 0) =
      Some (interprocOutcomeInconclusive, pathOutcomeReasonStateBudget)) as R by by vm_compute.
    destruct (runIFDSPropagationWithStatsOptions budgetInput 200 0) as [[r st]|] eqn:E; [|done].
    injection R as R1 R2. exists r, st. split; [reflexivity|]. split; [exact R2|].
    destruct (inconclusive_verdict_justified budgetInput 200 0 r st (callInput_clean "" "") (fun _ => reflexivity _)
      (fun _ => eq_refl) E R1) as [[H _]|[[H _]|[[_ H]|[[H _]|(pe & reason & Hp & H & _)]]]].
    + rewrite R2 in H. discriminate H.
    + rewrite R2 in H. discriminate H.
    + left. exact H.
    + rewrite R2 in H. discriminate H.
    + right. exists pe, reason. exact (conj Hp H).
  - assert (classAndReason (callRun ideEdgeFuncValidate pathOutcomeReasonUnresolvedTarget) =
      Some (interprocOutcomeInconclusive, pathOutcomeReasonUnresolvedTarget)) as R by by vm_compute.
    intros inp. unfold callRun in R. fold inp in R.
    destruct (runIFDSPropagationWithStatsOptions inp 200 0) as [[r st]|] eqn:E; [|done].
    injection R as R1 R2.
    destruct (inconclusive_verdict_justified inp 200 0 r st (callInput_clean _ _) (proj1 (callInput_seams _ _))
      (proj2 (callInput_seams _ _)) E R1) as [[H _]|[[_ H]|[[H _]|[[H _]|(pe & reason & _ & H & Hr & Ho & _)]]]];
      [rewrite R2 in H; discriminate H|by vm_compute in H|rewrite R2 in H; discriminate H..|].
    exists r, st, pe, reason. exact (conj eq_refl (conj H (conj Hr Ho))).
Defined.
