(* ===== verification/Refinement.v ===== *)
(** * Feasibility queries and the refinement loop

    The SSA backend of [goplint/cfa_feasibility_ssa_constraints.go], the witness
    records of [goplint/cfa_feasibility.go] and the refinement controller of
    [goplint/cfa_refinement.go]: a candidate witness is discharged only by an
    infeasibility certificate the independent checker accepts, and the analysis is
    run again without it, within iteration, query and time budgets. *)

From S2P Require Export WitnessConstraints Tabulation.
Local Open Scope Z_scope.

(** ** Vocabulary *)
Definition cfgFeasibilityResultSAT : string := "sat".
Definition cfgFeasibilityResultUNSAT : string := "unsat".
Definition cfgFeasibilityResultUnknown : string := "unknown".

Definition cfgFeasibilityReasonNone : string := "".
Definition cfgFeasibilityReasonUnsupportedPredicate : string := "unsupported-predicate".
Definition cfgFeasibilityReasonTimeout : string := "timeout".
Definition cfgFeasibilityReasonEvidenceRejected : string := "evidence-rejected".
Definition cfgFeasibilityReasonQueryLimit : string := "query-limit".
Definition cfgFeasibilityReasonIterationLimit : string := "iteration-limit".

Definition cfgRefinementStatusViolation : string := "violation".
Definition cfgRefinementStatusInconclusive : string := "inconclusive".
Definition cfgRefinementStatusDischargedInfeasible : string := "discharged-infeasible".

Definition cfgSSAConstraintsEngine : string := "ssa-constraints".
Definition defaultCFGRefinementMaxIterations : Z := 3.
Definition defaultCFGFeasibilityMaxQueries : Z := 16.

Record cfgFeasibilityDecision := mkDecision {
  Result : string;
  DReason : string;
  Evidence : cfgSSAConstraintEvidence;
  DSubjects : list string;
  FormulaDigest : string;
  EvidenceDigest : string;
}.

Definition noDecision : cfgFeasibilityDecision := mkDecision "" "" noEvidence [] "" "".
Definition unknownDecision (reason : string) : cfgFeasibilityDecision :=
  mkDecision cfgFeasibilityResultUnknown reason noEvidence [] "" "".
Definition timedOut : cfgFeasibilityDecision := unknownDecision cfgFeasibilityReasonTimeout.

Record cfgFeasibilityQuery := mkFeasibilityQuery {
  QPass : analysisPass;
  QCFG : option Blocks;
  Witness : cfgWitnessRecord;
  Timeout : Z;
  Deadline : Control;
}.

Definition feasibilityDeadlineExpired (query : cfgFeasibilityQuery) : polled bool :=
  match Deadline query with
  | Some _ => feasibilityDeadlineReached (Deadline query)
  | None => mret (Timeout query <=? 0)
  end.

(** [expired || feasibilityDeadlineExpired(query)], which polls only if needed. *)
Definition orExpired (expired : bool) (query : cfgFeasibilityQuery) : polled bool :=
  if expired then mret true else feasibilityDeadlineExpired query.

Definition edgeTagFromPathResult (r : interprocPathResult) : ideEdgeFuncTag :=
  if String.eqb (Class r) interprocOutcomeSafe then ideEdgeFuncValidate
  else if String.eqb (Class r) interprocOutcomeUnsafe then
    if String.eqb (FactFamily r) ifdsFactFamilyUBVNeedsValidateBefore then ideEdgeFuncEscape
    else ideEdgeFuncIdentity
  else ideEdgeFuncIdentity.

(** ** What the code takes from libraries

    [extraction] is the formula of a witness record under the pass and graph of a
    query; the other fields stand for SHA-256 in hexadecimal, for [json.Marshal] of
    the three digest preimages ([None] for an error) and for a deadline that starts
    now. *)
Record toolbox := mkToolbox {
  valueIndexOf : analysisPass -> Control -> polled (cfgSSAValueIndex * bool);
  decodeProvenance : string -> option (list (list (string * string * string)));
  sha256 : string -> string;
  marshalFormula : list (list string) -> bool -> option string;
  marshalEvidence : Z -> bool -> list Z -> list string -> list (Z * string * string) -> option string;
  marshalWitness : cfgWitnessRecord -> option string;
  wallClock : Z -> nat -> bool;
}.

Section Backend.
Context (tools : toolbox).

(** ** Digests *)
Fixpoint digestContradictions (control : Control) (contradictions : list cfgSSAConstraintContradiction)
    (out : list (Z * string * string)) : polled (list (Z * string * string) * bool) :=
  match contradictions with
  | [] => mret (out, false)
  | c :: rest =>
      checkpoint control []
        (digestContradictions control rest
           (out ++ [(Alternative c, cfgConstraintKey (Left c), cfgConstraintKey (Right c))]))
  end.

Definition cfgSSAConstraintEvidenceDigestWithControl (evidence : cfgSSAConstraintEvidence)
    (control : Control) : polled (string * bool) :=
  checkpoint control ""
    (if FormatVersion evidence =? 0 then mret ("", false)
     else
       unless_expired (digestContradictions control (Contradictions evidence) []) ""
         (fun contradictions =>
            match marshalEvidence tools (FormatVersion evidence) (ConstantFalse evidence)
                    (WitnessPath evidence) (slices_Sort (Subjects evidence)) contradictions with
            | None => mret ("", false)
            | Some encoded => checkpoint control "" (finish control ("cfge2_" +:+ sha256 tools encoded))
            end)).

Fixpoint digestAtoms (control : Control) (alternative : list cfgPredicateConstraint)
    (out : list string) : polled (list string * bool) :=
  match alternative with
  | [] => mret (out, false)
  | atom :: rest => checkpoint control [] (digestAtoms control rest (out ++ [cfgConstraintKey atom]))
  end.

Fixpoint digestAlternatives (control : Control) (alts : list (list cfgPredicateConstraint))
    (out : list (list string)) : polled (list (list string) * bool) :=
  match alts with
  | [] => mret (out, false)
  | alternative :: rest =>
      checkpoint control []
        (unless_expired (digestAtoms control alternative []) []
           (fun constraints => digestAlternatives control rest (out ++ [constraints])))
  end.

Definition cfgSSAConstraintFormulaDigestWithControl (formula : cfgSSAConstraintFormula)
    (control : Control) : polled (string * bool) :=
  checkpoint control ""
    (unless_expired (normalizeWithControl formula control) "" (fun formula =>
       unless_expired (digestAlternatives control (alternatives formula) []) "" (fun alts =>
         match marshalFormula tools alts (unsupported formula) with
         | None => mret ("", false)
         | Some encoded => checkpoint control "" (finish control ("cfgf2_" +:+ sha256 tools encoded))
         end))).

(** ** The backend and the checker *)
Definition recordFormula (query : cfgFeasibilityQuery) (deadline : Control)
    : polled (cfgSSAConstraintFormula * bool) :=
  extractSSAConstraintsForWitnessRecordWithControl (QPass query) (valueIndexOf tools (QPass query))
    (decodeProvenance tools) (QCFG query) (RFactOriginPath (Witness query)) (RCFGPath (Witness query))
    (map WPredicateProvenance (RWitnessEdges (Witness query))) deadline.

(** A query without a deadline gets one from its timeout. *)
Definition withDeadline (query : cfgFeasibilityQuery) : cfgFeasibilityQuery :=
  match Deadline query with
  | Some _ => query
  | None => mkFeasibilityQuery (QPass query) (QCFG query) (Witness query) (Timeout query)
              (Some (wallClock tools (Timeout query)))
  end.

(** [cfgSSAConstraintsFeasibilityBackend.Check]. *)
Definition Check (query : cfgFeasibilityQuery) : polled cfgFeasibilityDecision :=
  if Timeout query <=? 0 then mret timedOut
  else
    let query := withDeadline query in
    expired ← feasibilityDeadlineExpired query;
    if expired : bool then mret timedOut
    else
      '(formula, expired) ← recordFormula query (Deadline query);
      expired ← orExpired expired query;
      if expired : bool then mret timedOut
      else
        '(subjects, expired) ← ssaConstraintSubjectsWithDeadline formula (Deadline query);
        if expired : bool then mret timedOut
        else
          '((evidence, unsat), expired) ← buildSSAConstraintEvidenceWithDeadline formula (Deadline query);
          if expired : bool then mret timedOut
          else
            expired ← feasibilityDeadlineExpired query;
            if expired : bool then mret timedOut
            else if unsat : bool then
              let evidence := mkEvidence (FormatVersion evidence) (ConstantFalse evidence)
                                (RCFGPath (Witness query)) subjects (Contradictions evidence) in
              '(formulaDigest, expired) ← cfgSSAConstraintFormulaDigestWithControl formula (Deadline query);
              if expired : bool then mret timedOut
              else
                '(evidenceDigest, expired) ← cfgSSAConstraintEvidenceDigestWithControl evidence (Deadline query);
                expired ← orExpired expired query;
                if expired : bool then mret timedOut
                else mret (mkDecision cfgFeasibilityResultUNSAT "" evidence subjects formulaDigest evidenceDigest)
            else if unsupported formula then
              mret (mkDecision cfgFeasibilityResultUnknown cfgFeasibilityReasonUnsupportedPredicate
                      noEvidence subjects "" "")
            else
              expired ← feasibilityDeadlineExpired query;
              if expired : bool then mret timedOut
              else mret (mkDecision cfgFeasibilityResultSAT "" noEvidence subjects "" "").

(** Accepted, expired, and the two digests. *)
Definition checkSSAConstraintEvidenceWithDigests (query : cfgFeasibilityQuery)
    (evidence : cfgSSAConstraintEvidence) : polled (bool * bool * string * string) :=
  let query := if 0 <? Timeout query then withDeadline query else query in
  expired ← feasibilityDeadlineExpired query;
  if (expired : bool) || negb (FormatVersion evidence =? cfgSSAConstraintEvidenceVersion) then
    mret (false, expired, "", "")
  else
    '(formula, expired) ← recordFormula query (Deadline query);
    expired ← orExpired expired query;
    if expired : bool then mret (false, true, "", "")
    else
      '(accepted, expired) ← checkSSAConstraintFormulaEvidenceWithDeadline formula
                               (RCFGPath (Witness query)) evidence (Deadline query);
      if (expired : bool) || negb accepted then mret (false, expired, "", "")
      else
        '(formulaDigest, expired) ← cfgSSAConstraintFormulaDigestWithControl formula (Deadline query);
        if expired : bool then mret (false, true, "", "")
        else
          '(evidenceDigest, expired) ← cfgSSAConstraintEvidenceDigestWithControl evidence (Deadline query);
          expired ← orExpired expired query;
          if expired : bool then mret (false, true, "", "")
          else mret (true, false, formulaDigest, evidenceDigest).
End Backend.

(** ** Witness records *)
Definition effectiveWitnessPath (path syntheticPath : list Z) : list Z :=
  match path with [] => syntheticPath | _ => path end.

Definition refinementTriggerForResult (r : interprocPathResult) : string :=
  if String.eqb (Class r) interprocOutcomeUnsafe then cfgRefinementTriggerUnsafeCandidate
  else if String.eqb (Reason r) pathOutcomeReasonNone then cfgRefinementTriggerUnsafeCandidate
  else Reason r.

Definition normalizeFindingMeta (meta : gmap string string) : gmap string string :=
  filter (fun kv => negb (String.eqb (fst kv) "") && negb (String.eqb (snd kv) "") = true) meta.

(** The hash covers neither the category, the finding nor the hash itself. *)
Definition computeCFGWitnessHash (tools : toolbox) (record : cfgWitnessRecord) : string :=
  let preimage := mkWitnessRecord "" "" (normalizeFindingMeta (ROriginAnchors record)) (RFactFamily record)
                    (RFactKey record) (REdgeTag record) (RFactOriginPath record) (RCFGPath record)
                    (RWitnessEdges record) (RWitnessTerminal record) (RCallChain record)
                    (RTriggerReason record) "" in
  match marshalWitness tools preimage with
  | None => "cfgw1_" +:+ sha256 tools (RTriggerReason record +:+ "|" +:+ strings_Join (RCallChain record) "|")
  | Some encoded => "cfgw1_" +:+ sha256 tools encoded
  end.

Definition withWitnessHash (record : cfgWitnessRecord) (hash : string) : cfgWitnessRecord :=
  mkWitnessRecord (RCategory record) (RFindingID record) (ROriginAnchors record) (RFactFamily record)
    (RFactKey record) (REdgeTag record) (RFactOriginPath record) (RCFGPath record) (RWitnessEdges record)
    (RWitnessTerminal record) (RCallChain record) (RTriggerReason record) hash.

Definition buildCFGWitnessRecord (tools : toolbox) (category findingID : string)
    (originAnchors : gmap string string) (r : interprocPathResult) (callChain : list string)
    (syntheticPath : list Z) : cfgWitnessRecord :=
  let record := mkWitnessRecord category findingID originAnchors (FactFamily r) (FactKey r)
                  (EdgeFunctionTag r) syntheticPath (effectiveWitnessPath (RWitness r) syntheticPath)
                  (WitnessEdges r) (WitnessTerminal r) callChain (refinementTriggerForResult r) "" in
  withWitnessHash record (computeCFGWitnessHash tools record).

Definition computeInterprocWitnessHash (tools : toolbox) (r : interprocPathResult)
    (callChain : list string) (path : list Z) : string :=
  match path with
  | [] => ""
  | _ =>
      computeCFGWitnessHash tools
        (mkWitnessRecord "" "" ∅ (FactFamily r) (FactKey r) (EdgeFunctionTag r) [] path (WitnessEdges r)
           (WitnessTerminal r) callChain (refinementTriggerForResult r) "")
  end.

Definition with_facts (r : interprocPathResult) (edges : list interprocWitnessEdge) (hash : string)
    : interprocPathResult :=
  mkResult (Class r) (Reason r) (RWitness r) edges (WitnessTerminal r) hash (FactFamily r) (FactKey r)
    (EdgeFunctionTag r) (WitnessRecord r) (Refinement r) (SSAAvailability r) (Tabulation r) (witnessGraph r).

Definition setInterprocWitnessHash (tools : toolbox) (r : interprocPathResult) (callChain : list string)
    (syntheticPath : list Z) : interprocPathResult :=
  let path := effectiveWitnessPath (RWitness r) syntheticPath in
  let edges := qualifyInterprocWitnessFact (WitnessEdges r) (FactFamily r) (FactKey r) in
  with_facts r edges (computeInterprocWitnessHash tools (with_facts r edges (WitnessHash r)) callChain path).

Definition interprocPathResultForDischargeTrigger (factFamily : ifdsFactFamily) (factKey trigger : string)
    : interprocPathResult :=
  let result class reason tag :=
    mkResult class reason [] [] noNode "" factFamily factKey tag noWitnessRecord noRefinement
      (mkAvailability "" "") noStats None in
  let r := if String.eqb trigger cfgRefinementTriggerUnsafeCandidate
           then result interprocOutcomeUnsafe "" "" else result interprocOutcomeInconclusive trigger "" in
  result (Class r) (Reason r) (edgeTagFromPathResult r).

(** The hash the tabulation compares discharge tokens with. *)
Definition newInterprocWitnessHashFunc (tools : toolbox) (callChain : list string)
    (factFamily : ifdsFactFamily) (factKey : string) : witnessHashFunc :=
  fun path witness terminal trigger =>
    let r := interprocPathResultForDischargeTrigger factFamily factKey trigger in
    let r := mkResult (Class r) (Reason r) (RWitness r) (qualifyInterprocWitnessFact witness factFamily factKey)
               terminal (WitnessHash r) (FactFamily r) (FactKey r) (EdgeFunctionTag r) (WitnessRecord r)
               (Refinement r) (SSAAvailability r) (Tabulation r) (witnessGraph r) in
    computeInterprocWitnessHash tools r callChain path.

(** ** The controller *)
Record cfgRefinementOverride := mkOverride {
  MaxStates : Z;
  DischargedWitnesses : list string;
  AllowSafe : bool;
  ResolveTargets : bool;
}.

Definition hasConcreteAction (o : cfgRefinementOverride) : bool :=
  (0 <? MaxStates o) || (0 <? zlen (DischargedWitnesses o)) || ResolveTargets o.

Record cfgRefinementWitnessIdentity := mkIdentity {
  Category : string;
  FindingID : string;
  OriginAnchors : gmap string string;
  SyntheticPath : list Z;
}.

(** A request; [Rerun] polls the same deadline. *)
Record cfgRefinementRequest := mkRequest {
  RequestPass : analysisPass;
  RequestCFG : option Blocks;
  RequestResult : interprocPathResult;
  RequestIdentity : cfgRefinementWitnessIdentity;
  CallChain : list string;
  RequestControl : Control;
  Rerun : cfgRefinementOverride -> polled interprocPathResult;
  WitnessIdentity : option (interprocPathResult -> cfgRefinementWitnessIdentity);
}.

Record cfgProtocolRefinementOptions := mkOptions {
  RefinementMaxIterations : Z;
  FeasibilityMaxQueries : Z;
  FeasibilityTimeout : Z;
}.

Definition IterationBudget (o : cfgProtocolRefinementOptions) : Z :=
  if 0 <? RefinementMaxIterations o then RefinementMaxIterations o else defaultCFGRefinementMaxIterations.

Definition QueryBudget (o : cfgProtocolRefinementOptions) : Z :=
  if 0 <? FeasibilityMaxQueries o then FeasibilityMaxQueries o else defaultCFGFeasibilityMaxQueries.

(** The two injections are the test seam, identities in production. *)
Record cfgRefinementController := mkController {
  options : cfgProtocolRefinementOptions;
  deadlineFactory : option (Z -> Control);
  backend : option (cfgFeasibilityQuery -> polled cfgFeasibilityDecision);
  injectWitness : cfgSSAConstraintEvidence -> cfgSSAConstraintEvidence;
  injectRefinement : cfgFeasibilityDecision -> cfgFeasibilityDecision;
}.

(** [cfgRefinementCache.record]: whether the hash is new. *)
Definition cache_record (attempts : gset string) (hash : string) : bool * gset string :=
  if String.eqb hash "" then (false, attempts)
  else if bool_decide (hash ∈ attempts) then (false, attempts)
  else (true, {[hash]} ∪ attempts).

Definition refinementMaxStatesForTrigger (reason : pathOutcomeReason) : Z :=
  if String.eqb reason pathOutcomeReasonStateBudget then defaultCFGMaxStates else 0.

Definition shouldAttemptRefinement (r : interprocPathResult) (verdict : string) : bool :=
  negb (String.eqb (Class r) interprocOutcomeSafe) && String.eqb verdict cfgFeasibilityResultUNSAT.

Definition refinementWitnessReplayRejection (r : interprocPathResult) : string :=
  match WitnessEdges r, witnessGraph r with
  | [], _ => ""
  | _, None => replayMissingNode
  | _, Some graph => validateInterprocWitnessReplay graph r
  end.

(** How a solver completes the result of a propagation. *)
Definition completeResult (tools : toolbox) (family : ifdsFactFamily) (key : string)
    (callChain : list string) (syntheticPath : list Z) (r : interprocPathResult) : interprocPathResult :=
  let r := mkResult (Class r) (Reason r) (RWitness r) (WitnessEdges r) (WitnessTerminal r) (WitnessHash r)
             family key (EdgeFunctionTag r) (WitnessRecord r) (Refinement r) (SSAAvailability r)
             (Tabulation r) (witnessGraph r) in
  let r := mkResult (Class r) (Reason r) (RWitness r) (WitnessEdges r) (WitnessTerminal r) (WitnessHash r)
             (FactFamily r) (FactKey r) (edgeTagFromPathResult r) (WitnessRecord r) (Refinement r)
             (SSAAvailability r) (Tabulation r) (witnessGraph r) in
  setInterprocWitnessHash tools r callChain syntheticPath.

Section Refine.
Context (tools : toolbox) (c : cfgRefinementController) (request : cfgRefinementRequest).

Definition buildCFGWitnessRecordForRefinement (r : interprocPathResult) : cfgWitnessRecord :=
  let identity := match WitnessIdentity request with
                  | Some identify => identify r
                  | None => RequestIdentity request
                  end in
  buildCFGWitnessRecord tools (Category identity) (FindingID identity) (OriginAnchors identity) r
    (CallChain request) (SyntheticPath identity).

Definition refinementDischargeHash (r : interprocPathResult) (record : cfgWitnessRecord)
    (decision : cfgFeasibilityDecision) : string :=
  if negb (String.eqb (Result decision) cfgFeasibilityResultUNSAT) then ""
  else
    let baseHash := if negb (String.eqb (WitnessHash r) "") then WitnessHash r else RWitnessHash record in
    if String.eqb baseHash "" || String.eqb (EvidenceDigest decision) "" ||
       String.eqb (FormulaDigest decision) ""
    then ""
    else baseHash +:+ "|cfgd1_" +:+
           sha256 tools (strings_Join [baseHash; FormulaDigest decision; EvidenceDigest decision] "|").

Definition feasibilityQuery (record : cfgWitnessRecord) (deadline : Control) : cfgFeasibilityQuery :=
  mkFeasibilityQuery (RequestPass request) (RequestCFG request) record (FeasibilityTimeout (options c)) deadline.

Definition admitDecision (query : cfgFeasibilityQuery) (decision : cfgFeasibilityDecision)
    : polled cfgFeasibilityDecision :=
  if String.eqb (Result decision) cfgFeasibilityResultUNSAT then
    '(accepted, expired, formulaDigest, evidenceDigest) ←
      checkSSAConstraintEvidenceWithDigests tools query (Evidence decision);
    expired ← orExpired expired query;
    if expired : bool then mret timedOut
    else if negb accepted then
      mret (mkDecision cfgFeasibilityResultUnknown cfgFeasibilityReasonEvidenceRejected (Evidence decision)
              (DSubjects decision) "" "")
    else
      mret (mkDecision (Result decision) (DReason decision) (Evidence decision) (DSubjects decision)
              formulaDigest evidenceDigest)
  else mret decision.

Definition withEvidence (decision : cfgFeasibilityDecision) (evidence : cfgSSAConstraintEvidence) :=
  mkDecision (Result decision) (DReason decision) evidence (DSubjects decision) (FormulaDigest decision)
    (EvidenceDigest decision).

Definition checkFeasibilityWithDeadline (record : cfgWitnessRecord) (deadline : Control)
    : polled cfgFeasibilityDecision :=
  match backend c with
  | None => mret noDecision
  | Some check =>
      let query := feasibilityQuery record deadline in
      expired ← feasibilityDeadlineExpired query;
      if expired : bool then mret timedOut
      else
        decision ← check query;
        expired ← feasibilityDeadlineExpired query;
        if expired : bool then mret timedOut
        else
          admitDecision query
            (injectRefinement c (withEvidence decision (injectWitness c (Evidence decision))))
  end.

(** ** The loop *)
Record refinement := mkRefinement {
  l_result : interprocPathResult;
  l_record : cfgWitnessRecord;
  l_decision : cfgFeasibilityDecision;
  l_verdict : string;
  l_reason : string;
  l_dischargeHash : string;
  l_iterations : Z;
  l_queries : Z;
  l_discharged : list string;
  l_cache : gset string;
}.

Definition setVerdict (st : refinement) (verdict reason : string) : refinement :=
  mkRefinement (l_result st) (l_record st) (l_decision st) verdict reason (l_dischargeHash st)
    (l_iterations st) (l_queries st) (l_discharged st) (l_cache st).

Definition timeoutVerdict (st : refinement) : refinement :=
  setVerdict st cfgFeasibilityResultUnknown cfgFeasibilityReasonTimeout.

Definition setDischarged (st : refinement) : refinement :=
  mkRefinement (l_result st) (l_record st) (l_decision st) (l_verdict st) (l_reason st) (l_dischargeHash st)
    (l_iterations st) (l_queries st)
    (if bool_decide (l_dischargeHash st ∈ l_discharged st) then l_discharged st
     else l_discharged st ++ [l_dischargeHash st]) (l_cache st).

Definition setCache (st : refinement) (cache : gset string) : refinement :=
  mkRefinement (l_result st) (l_record st) (l_decision st) (l_verdict st) (l_reason st) (l_dischargeHash st)
    (l_iterations st) (l_queries st) (l_discharged st) cache.

Definition countIteration (st : refinement) : refinement :=
  mkRefinement (l_result st) (l_record st) (l_decision st) (l_verdict st) (l_reason st) (l_dischargeHash st)
    (l_iterations st + 1) (l_queries st) (l_discharged st) (l_cache st).

Definition setResult (st : refinement) (r : interprocPathResult) : refinement :=
  mkRefinement r (l_record st) (l_decision st) (l_verdict st) (l_reason st) (l_dischargeHash st)
    (l_iterations st) (l_queries st) (l_discharged st) (l_cache st).

(** The query about a result: record, decision, verdict and discharge hash. *)
Definition queryResult (st : refinement) (deadline : Control) : polled refinement :=
  let record := buildCFGWitnessRecordForRefinement (l_result st) in
  decision ← checkFeasibilityWithDeadline record deadline;
  let dischargeHash := refinementDischargeHash (l_result st) record decision in
  expired ← feasibilityDeadlineReached deadline;
  mret (if expired : bool then
          mkRefinement (l_result st) record decision cfgFeasibilityResultUnknown cfgFeasibilityReasonTimeout ""
            (l_iterations st) (l_queries st + 1) (l_discharged st) (l_cache st)
        else
          mkRefinement (l_result st) record decision (Result decision) (DReason decision) dischargeHash
            (l_iterations st) (l_queries st + 1) (l_discharged st) (l_cache st)).

Definition refinementOf (st : refinement) (status : string) : cfgProtocolRefinementResult :=
  mkRefinementResult true cfgSSAConstraintsEngine (l_verdict st) (l_reason st) status (l_iterations st)
    (RTriggerReason (l_record st)) (RWitnessHash (l_record st)) (DSubjects (l_decision st))
    (Evidence (l_decision st)) (EvidenceDigest (l_decision st)).

Definition with_refinement (r : interprocPathResult) (refinement : cfgProtocolRefinementResult)
    (record : cfgWitnessRecord) : interprocPathResult :=
  mkResult (Class r) (Reason r) (RWitness r) (WitnessEdges r) (WitnessTerminal r) (WitnessHash r)
    (FactFamily r) (FactKey r) (EdgeFunctionTag r) record refinement (SSAAvailability r) (Tabulation r)
    (witnessGraph r).

Inductive loopStep :=
| Break (st : refinement)
| Return (r : interprocPathResult) (st : refinement)
| Continue (st : refinement).

Definition overrideOf (st : refinement) : cfgRefinementOverride :=
  mkOverride (refinementMaxStatesForTrigger (Reason (l_result st))) (l_discharged st) true
    (String.eqb (Reason (l_result st)) pathOutcomeReasonUnresolvedTarget).

(** From the rerun on. *)
Definition afterRerun (st : refinement) (next : interprocPathResult) (deadline : Control) : polled loopStep :=
  expired ← feasibilityDeadlineReached deadline;
  if expired : bool then mret (Break (timeoutVerdict (setResult st next)))
  else if String.eqb (Class next) interprocOutcomeSafe then
    if String.eqb (l_verdict st) cfgFeasibilityResultUnknown then mret (Break st)
    else
      expired ← feasibilityDeadlineReached deadline;
      if expired : bool then mret (Break (timeoutVerdict (setResult st next)))
      else
        mret (Return (with_refinement next (refinementOf st cfgRefinementStatusDischargedInfeasible)
                        (l_record st)) st)
  else
    st ← queryResult (setResult st next) deadline;
    mret (Continue st).

(** From the override on. *)
Definition rerunStep (st : refinement) (deadline : Control) : polled loopStep :=
  let override := overrideOf st in
  if negb (hasConcreteAction override) then mret (Break st)
  else if String.eqb (l_dischargeHash st) "" then mret (Break st)
  else
    let '(isNew, cache) := cache_record (l_cache st) (l_dischargeHash st) in
    let st := setCache st cache in
    if negb isNew then mret (Break st)
    else
      next ← Rerun request override;
      afterRerun (countIteration st) next deadline.

Definition iterate (st : refinement) (deadline : Control) : polled loopStep :=
  if negb (shouldAttemptRefinement (l_result st) (l_verdict st)) then mret (Break st)
  else
    expired ← feasibilityDeadlineReached deadline;
    if expired : bool then mret (Break (timeoutVerdict st))
    else if String.eqb (l_verdict st) cfgFeasibilityResultUNSAT then
      expired ← feasibilityDeadlineReached deadline;
      if expired : bool then mret (Break (timeoutVerdict st))
      else rerunStep (setDischarged st) deadline
    else rerunStep st deadline.

Fixpoint refineLoop (fuel : nat) (st : refinement) (deadline : Control)
    : polled (option (option interprocPathResult * refinement)) :=
  if (l_iterations st <? IterationBudget (options c)) && (l_queries st <? QueryBudget (options c)) then
    step ← iterate st deadline;
    match step, fuel with
    | Break st', _ => mret (Some (None, st'))
    | Return r st', _ => mret (Some (Some r, st'))
    | Continue _, O => mret None
    | Continue st', S fuel' => refineLoop fuel' st' deadline
    end
  else mret (Some (None, st)).

(** What follows the loop. *)
Definition concludeRefinement (st : refinement) : interprocPathResult :=
  let inconclusive r :=
    mkResult interprocOutcomeInconclusive pathOutcomeReasonFeasibilityUnknown (RWitness r) (WitnessEdges r)
      (WitnessTerminal r) (WitnessHash r) (FactFamily r) (FactKey r) (EdgeFunctionTag r) (WitnessRecord r)
      (Refinement r) (SSAAvailability r) (Tabulation r) (witnessGraph r) in
  let st :=
    if shouldAttemptRefinement (l_result st) (l_verdict st) then
      setVerdict (setResult st (inconclusive (l_result st))) cfgFeasibilityResultUnknown
        (if QueryBudget (options c) <=? l_queries st then cfgFeasibilityReasonQueryLimit
         else if IterationBudget (options c) <=? l_iterations st then cfgFeasibilityReasonIterationLimit
         else l_reason st)
    else if String.eqb (l_verdict st) cfgFeasibilityResultUnknown then
      setResult st (inconclusive (l_result st))
    else st in
  let r := l_result st in
  let status := if String.eqb (Class r) interprocOutcomeSafe then cfgRefinementStatusDischargedInfeasible
                else if String.eqb (Class r) interprocOutcomeUnsafe then cfgRefinementStatusViolation
                else if String.eqb (Class r) interprocOutcomeInconclusive then cfgRefinementStatusInconclusive
                else cfgRefinementStatusViolation in
  with_refinement r (refinementOf st status) (l_record st).

Definition rejectedReplay (r : interprocPathResult) (record : cfgWitnessRecord) : interprocPathResult :=
  mkResult interprocOutcomeInconclusive pathOutcomeReasonFeasibilityUnknown (RWitness r) (WitnessEdges r)
    (WitnessTerminal r) (WitnessHash r) (FactFamily r) (FactKey r) (EdgeFunctionTag r) record
    (mkRefinementResult true cfgSSAConstraintsEngine cfgFeasibilityResultUnknown
       cfgFeasibilityReasonEvidenceRejected cfgRefinementStatusInconclusive 0 (RTriggerReason record)
       (RWitnessHash record) [] noEvidence "")
    (SSAAvailability r) (Tabulation r) (witnessGraph r).

Definition newDeadline : Control :=
  match deadlineFactory c with
  | None => None
  | Some factory => factory (FeasibilityTimeout (options c))
  end.

(** [Refine] with the cache of the controller; [None] if the loop runs out of fuel. *)
Definition Refine (fuel : nat) (cache : gset string) : polled (option (interprocPathResult * gset string)) :=
  let r := RequestResult request in
  if String.eqb (Class r) interprocOutcomeSafe then mret (Some (r, cache))
  else if negb (String.eqb (refinementWitnessReplayRejection r) "") then
    mret (Some (rejectedReplay r (buildCFGWitnessRecordForRefinement r), cache))
  else
    let deadline := match RequestControl request with Some _ as control => control | None => newDeadline end in
    st ← queryResult (mkRefinement r noWitnessRecord noDecision "" "" "" 0 0 [] cache) deadline;
    finished ← refineLoop fuel st deadline;
    mret (match finished with
          | None => None
          | Some (Some r, st) => Some (r, l_cache st)
          | Some (None, st) => Some (concludeRefinement st, l_cache st)
          end).
End Refine.
