(* ===== verification/RefinementFacts.v ===== *)
(** * The refinement loop is sound

    Nothing is reported safe without certificates the independent checker accepts,
    nothing is reported unsafe against a refutation or an open question, and the
    loop keeps its budgets: the properties of [Refinement.v]. *)

From S2P Require Export Refinement.
Local Open Scope Z_scope.

(** ** Inverting polled computations *)
Lemma polled_bind_inv {A B} (m : polled A) (k : A -> polled B) clk r clk' :
  (m ≫= k) clk = (r, clk') -> exists a clk1, m clk = (a, clk1) /\ k a clk1 = (r, clk').
Proof. unfold mbind, polled_bind. destruct (m clk) as [a clk1]. eauto. Qed.

Lemma polled_ret_inv {A} (a r : A) clk clk' : mret (M := polled) a clk = (r, clk') -> a = r.
Proof. by intros [= -> _]. Qed.

(** Step through a run: name the result of the first call and go on. *)
Tactic Notation "run_step" ident(H) ident(x) ident(Hx) :=
  apply polled_bind_inv in H as (x & ? & Hx & H); cbv beta iota in H.

Section Facts.
Context (tools : toolbox) (Htools : forall pass, transparent (valueIndexOf tools pass)).

Lemma recordFormula_transparent query : transparent (recordFormula tools query).
Proof. apply recordConstraints_transparent, Htools. Qed.

(** ** Accepted evidence *)

(** The checker accepts the evidence for the formula of the witness record. *)
Definition certifies_record (query : cfgFeasibilityQuery) (evidence : cfgSSAConstraintEvidence) : Prop :=
  exists control clk e clk',
    checkSSAConstraintFormulaEvidenceWithDeadline (outcome (recordFormula tools query))
      (RCFGPath (Witness query)) evidence control clk = ((true, e), clk').

Lemma withDeadline_certifies query evidence :
  certifies_record (withDeadline tools query) evidence <-> certifies_record query evidence.
Proof. unfold withDeadline. by destruct (Deadline query). Qed.

Lemma checkEvidence_certifies query evidence clk e fd ed clk' :
  checkSSAConstraintEvidenceWithDigests tools query evidence clk = ((true, e, fd, ed), clk') ->
  certifies_record query evidence.
Proof.
  unfold checkSSAConstraintEvidenceWithDigests. set (q := if 0 <? Timeout query then _ else _).
  intros H. assert (certifies_record q evidence) as Hq; [|unfold q in Hq; destruct (0 <? _); [|done]; by apply withDeadline_certifies].
  run_step H expired He. destruct (_ || _); [by apply polled_ret_inv in H|].
  apply polled_bind_inv in H as ([formula expired0] & clk1 & Hf & H). run_step H late Hex.
  destruct late; [by apply polled_ret_inv in H|].
  assert (expired0 = false) as -> by (unfold orExpired in Hex; destruct expired0; [by apply polled_ret_inv in Hex|done]).
  apply transparent_run in Hf as ->; [|apply recordFormula_transparent].
  apply polled_bind_inv in H as ([accepted over] & clk3 & Hc & H).
  destruct (over || negb accepted) eqn:Ea; [by apply polled_ret_inv in H|].
  apply orb_false_iff in Ea as [-> Ea]. destruct accepted; [|done]. by eexists _, _, _, _.
Qed.

(** ** The production backend *)

(** What a decision of the backend says about the formula of the witness record: a
    satisfiable answer is given only for a formula nothing in which was approximated
    and some alternative of which holds no contradicting pair of atoms. *)
Definition decides (query : cfgFeasibilityQuery) (decision : cfgFeasibilityDecision) : Prop :=
  let f := outcome (recordFormula tools query) in
  Result decision = cfgFeasibilityResultUnknown \/ Result decision = cfgFeasibilityResultUNSAT \/
  Result decision = cfgFeasibilityResultSAT /\ unsupported f = false /\ ~ Forall contradictory (alternatives f).

Lemma timedOut_decides query : decides query timedOut.
Proof. by left. Qed.

Lemma Check_decides query clk d clk' : Check tools query clk = (d, clk') -> decides query d.
Proof.
  unfold Check. destruct (Timeout query <=? 0); [intros <-%polled_ret_inv; apply timedOut_decides|].
  set (q := withDeadline tools query).
  assert (forall d, decides q d <-> decides query d) as Hq by (intros; unfold q, withDeadline; by destruct (Deadline query)).
  cbv zeta. rewrite <- Hq. clearbody q. clear Hq.
  intros H. run_step H late0 Hl0. destruct late0; [apply polled_ret_inv in H as <-; apply timedOut_decides|].
  apply polled_bind_inv in H as ([f late1] & clk1 & Hf & H). run_step H late2 Hl2.
  destruct late2; [apply polled_ret_inv in H as <-; apply timedOut_decides|].
  assert (late1 = false) as -> by (unfold orExpired in Hl2; destruct late1; [by apply polled_ret_inv in Hl2|done]).
  apply transparent_run in Hf; [|apply recordFormula_transparent].
  apply polled_bind_inv in H as ([subjects late3] & clk3 & _ & H).
  destruct late3; [apply polled_ret_inv in H as <-; apply timedOut_decides|].
  apply polled_bind_inv in H as ([[evidence unsat] late4] & clk4 & He & H).
  destruct late4; [apply polled_ret_inv in H as <-; apply timedOut_decides|].
  apply transparent_run in He; [|apply buildEvidence_transparent].
  run_step H late5 Hl5. destruct late5; [apply polled_ret_inv in H as <-; apply timedOut_decides|].
  destruct unsat.
  - apply polled_bind_inv in H as ([fd late6] & clk6 & _ & H).
    destruct late6; [apply polled_ret_inv in H as <-; apply timedOut_decides|].
    apply polled_bind_inv in H as ([ed late7] & clk7 & _ & H). run_step H late8 Hl8.
    destruct late8; apply polled_ret_inv in H as <-; [apply timedOut_decides|]. right. by left.
  - destruct (unsupported f) eqn:Eu; [apply polled_ret_inv in H as <-; by left|].
    run_step H late9 Hl9. destruct late9; apply polled_ret_inv in H as <-; [apply timedOut_decides|].
    right. right. pose proof (evidence_of_spec f) as Hspec. rewrite <- He in Hspec.
    rewrite <- Hf. by split_and!.
Qed.

Section Controller.
Context (c : cfgRefinementController) (request : cfgRefinementRequest).
(** What is known of the results the analysis computes. *)
Context (Good : interprocPathResult -> Prop) (HGood : Good (RequestResult request))
  (HRerun : forall override clk next clk', Rerun request override clk = (next, clk') -> Good next).
Abbreviation query record := (feasibilityQuery c request record None).

Lemma certifies_any_deadline record deadline evidence :
  certifies_record (feasibilityQuery c request record deadline) evidence ->
  certifies_record (query record) evidence.
Proof. done. Qed.

Lemma admit_certifies record deadline decision clk d clk' :
  admitDecision tools (feasibilityQuery c request record deadline) decision clk = (d, clk') ->
  Result d = cfgFeasibilityResultUNSAT -> certifies_record (query record) (Evidence d).
Proof.
  unfold admitDecision. destruct (String.eqb_spec (Result decision) cfgFeasibilityResultUNSAT) as [Hu|Hu].
  2: { intros <-%polled_ret_inv. done. }
  intros H Hr. apply polled_bind_inv in H as ([[[accepted expired0] fd] ed] & clk1 & Hc & H). run_step H late Hex.
  destruct late; [apply polled_ret_inv in H as <-; done|].
  destruct accepted; cbn [negb] in H; apply polled_ret_inv in H as <-; [|done].
  by apply checkEvidence_certifies in Hc.
Qed.

Lemma checkFeasibility_certifies record deadline clk d clk' :
  checkFeasibilityWithDeadline tools c request record deadline clk = (d, clk') ->
  Result d = cfgFeasibilityResultUNSAT -> certifies_record (query record) (Evidence d).
Proof.
  unfold checkFeasibilityWithDeadline. destruct (backend c) as [check|]; [|by intros <-%polled_ret_inv].
  intros H. run_step H expired0 Hex. destruct expired0; [by apply polled_ret_inv in H as <-|].
  run_step H decision Hd. run_step H late Hlate. destruct late; [by apply polled_ret_inv in H as <-|].
  by eapply admit_certifies.
Qed.

(** The controller uses the production backend and no test seam. *)
Definition production : Prop :=
  backend c = Some (Check tools) /\ forall d, injectRefinement c d = d.

Lemma checkFeasibility_decides record deadline clk d clk' :
  production -> checkFeasibilityWithDeadline tools c request record deadline clk = (d, clk') ->
  decides (query record) d.
Proof.
  intros [Hb Hi]. unfold checkFeasibilityWithDeadline. rewrite Hb. intros H.
  run_step H late0 Hl0. destruct late0; [apply polled_ret_inv in H as <-; apply timedOut_decides|].
  run_step H decision Hd. run_step H late1 Hl1.
  destruct late1; [apply polled_ret_inv in H as <-; apply timedOut_decides|].
  apply Check_decides in Hd. rewrite Hi in H. unfold admitDecision in H. cbn in H.
  destruct (String.eqb_spec (Result decision) cfgFeasibilityResultUNSAT) as [Hu|Hu].
  2: { apply polled_ret_inv in H as <-. exact Hd. }
  apply polled_bind_inv in H as ([[[accepted late2] fd] ed] & clk2 & _ & H). run_step H late3 Hl3.
  destruct late3; [apply polled_ret_inv in H as <-; apply timedOut_decides|].
  destruct accepted; apply polled_ret_inv in H as <-; [|by left]. right. by left.
Qed.

(** A discharge token stands for a witness with accepted evidence. *)
Definition justified (token : string) : Prop :=
  exists r decision, Good r /\
    Result decision = cfgFeasibilityResultUNSAT /\
    certifies_record (query (buildCFGWitnessRecordForRefinement tools request r)) (Evidence decision) /\
    token = refinementDischargeHash tools r (buildCFGWitnessRecordForRefinement tools request r) decision.

(** ** The loop *)
Record loop_ok (st : refinement) : Prop := {
  ok_good : Good (l_result st);
  ok_record : l_record st = buildCFGWitnessRecordForRefinement tools request (l_result st);
  ok_decision : Result (l_decision st) = cfgFeasibilityResultUNSAT ->
    certifies_record (query (l_record st)) (Evidence (l_decision st));
  ok_decides : production -> decides (query (l_record st)) (l_decision st);
  ok_hash : l_dischargeHash st = "" \/
    l_dischargeHash st = refinementDischargeHash tools (l_result st) (l_record st) (l_decision st);
  ok_verdict : l_verdict st = cfgFeasibilityResultUnknown \/ l_verdict st = Result (l_decision st);
  ok_discharged : Forall justified (l_discharged st);
  ok_class : Class (l_result st) <> interprocOutcomeSafe;
  ok_iterations : 0 <= l_iterations st;
  ok_queries : l_queries st = l_iterations st + 1;
}.

Lemma queryResult_ok st deadline clk st' clk' :
  queryResult tools c request st deadline clk = (st', clk') ->
  Good (l_result st) -> Forall justified (l_discharged st) -> Class (l_result st) <> interprocOutcomeSafe ->
  0 <= l_iterations st -> l_queries st = l_iterations st ->
  loop_ok st' /\ l_iterations st' = l_iterations st /\ l_queries st' = l_queries st + 1.
Proof.
  unfold queryResult. intros H Hg Hj Hc Hi Hq. run_step H decision Hd. run_step H expired0 Hex.
  apply polled_ret_inv in H as <-.
  destruct expired0; (split; [split; cbn; try done; try lia|done]); eauto using checkFeasibility_certifies, checkFeasibility_decides.
Qed.

(** What a certified safe result is. *)
Definition certified_safe (r : interprocPathResult) : Prop :=
  exists override next clk clk',
    Rerun request override clk = (next, clk') /\ Class next = interprocOutcomeSafe /\
    r = with_refinement next (Refinement r) (WitnessRecord r) /\
    DischargedWitnesses override <> [] /\ Forall justified (DischargedWitnesses override) /\
    FeasibilityResult (Refinement r) = cfgFeasibilityResultUNSAT /\
    RefinementStatus (Refinement r) = cfgRefinementStatusDischargedInfeasible.

(** A state in which the loop may stop. *)
Record break_ok (st : refinement) : Prop := {
  break_safe : Class (l_result st) = interprocOutcomeSafe -> l_verdict st = cfgFeasibilityResultUnknown;
  break_verdict : l_verdict st = cfgFeasibilityResultUnknown \/
    l_verdict st = Result (l_decision st) /\
    l_record st = buildCFGWitnessRecordForRefinement tools request (l_result st) /\
    (production -> decides (query (l_record st)) (l_decision st));
}.

Lemma loop_break st st' :
  loop_ok st -> l_result st' = l_result st -> l_record st' = l_record st ->
  l_decision st' = l_decision st -> l_verdict st' = l_verdict st -> break_ok st'.
Proof.
  intros [_ Hr _ Hd _ Hv _ Hc _ _] E1 E2 E3 E4. split; [by rewrite E1|]. rewrite E4.
  destruct Hv as [->| ->]; [by left|right]. by rewrite E1, E2, E3.
Qed.

Lemma timeout_break st : break_ok (timeoutVerdict st).
Proof. split; [done|by left]. Qed.

(** The counts a step may leave. *)
Definition counted_from (st st' : refinement) : Prop :=
  l_iterations st <= l_iterations st' <= l_iterations st + 1 /\ l_queries st' = l_queries st.

Definition step_ok (st : refinement) (step : loopStep) : Prop :=
  match step with
  | Break st' => break_ok st' /\ counted_from st st'
  | Return r st' => certified_safe r /\ RefinementIterations (Refinement r) = l_iterations st + 1 /\
                    counted_from st st'
  | Continue st' => loop_ok st' /\ l_iterations st' = l_iterations st + 1
  end.

Lemma justified_hash st :
  loop_ok st -> l_verdict st = cfgFeasibilityResultUNSAT -> l_dischargeHash st <> "" ->
  justified (l_dischargeHash st).
Proof.
  intros [Hg Hr Hd _ Hh Hv _ _ _ _] Hu Hne. destruct Hh as [?|Hh]; [done|]. destruct Hv as [E|E]; [by rewrite Hu in E|].
  rewrite Hu in E. exists (l_result st), (l_decision st). rewrite <- Hr. auto.
Qed.

(** The state that reruns: its hash is new and joins the discharged witnesses. *)
Lemma afterRerun_ok st cache next deadline clk clk0 clk1 step clk' :
  loop_ok st -> l_verdict st = cfgFeasibilityResultUNSAT -> l_dischargeHash st <> "" ->
  let st1 := setCache (setDischarged st) cache in
  Rerun request (overrideOf (setDischarged st)) clk0 = (next, clk1) ->
  afterRerun tools c request (countIteration st1) next deadline clk = (step, clk') -> step_ok st step.
Proof.
  intros Hok Hu Hne st1 Hrun H. pose proof (justified_hash _ Hok Hu Hne) as Hj.
  assert (Forall justified (l_discharged st1)) as Hall.
  { destruct Hok. cbn. destruct (bool_decide _); [done|]. apply Forall_app. split; [done|by apply Forall_singleton]. }
  assert (counted_from st (countIteration st1)) as Hcount by (unfold counted_from; cbn; lia).
  unfold afterRerun in H. run_step H late Hlate.
  destruct late; [apply polled_ret_inv in H as <-; split; [apply timeout_break|done]|].
  destruct (String.eqb_spec (Class next) interprocOutcomeSafe) as [Hs|Hs].
  - change (l_verdict (countIteration st1)) with (l_verdict st) in H. rewrite Hu in H. cbn in H.
    run_step H late2 Hlate2.
    destruct late2; apply polled_ret_inv in H as <-; (split; [|done]); [apply timeout_break|].
    exists (overrideOf (setDischarged st)), next, clk0, clk1. split_and!; try done.
    cbn. destruct (bool_decide_reflect (l_dischargeHash st ∈ l_discharged st)) as [Hin|]; [|by destruct (l_discharged st)].
    intros E. rewrite E in Hin. by apply elem_of_nil in Hin.
  - run_step H st2 Hst2. apply polled_ret_inv in H as <-. destruct Hok.
    apply queryResult_ok in Hst2 as (Hok2 & Hi2 & Hq2); cbn; [|by eapply HRerun|done..|lia|lia]. split; [done|]. by rewrite Hi2.
Qed.

Lemma iterate_ok st deadline clk step clk' :
  loop_ok st -> iterate tools c request st deadline clk = (step, clk') -> step_ok st step.
Proof.
  intros Hok. assert (counted_from st st) as Hcount by (unfold counted_from; lia).
  unfold iterate. destruct (shouldAttemptRefinement _ _) eqn:Es; cbn [negb].
  2: { intros <-%polled_ret_inv. split; [by apply (loop_break st)|done]. }
  assert (l_verdict st = cfgFeasibilityResultUNSAT) as Hu
    by (unfold shouldAttemptRefinement in Es; apply andb_true_iff in Es as [_ Es]; by apply String.eqb_eq).
  intros H. run_step H late Hlate. destruct late; [apply polled_ret_inv in H as <-; split; [apply timeout_break|done]|].
  rewrite Hu in H. change (String.eqb cfgFeasibilityResultUNSAT cfgFeasibilityResultUNSAT) with true in H.
  cbv iota in H.
  run_step H late2 Hlate2.
  destruct late2; [apply polled_ret_inv in H as <-; split; [apply timeout_break|done]|].
  unfold rerunStep in H. destruct (hasConcreteAction _); cbn [negb] in H.
  2: { apply polled_ret_inv in H as <-. split; [by apply (loop_break st)|done]. }
  change (l_dischargeHash (setDischarged st)) with (l_dischargeHash st) in H.
  destruct (String.eqb_spec (l_dischargeHash st) "") as [Hh|Hh].
  { apply polled_ret_inv in H as <-. split; [by apply (loop_break st)|done]. }
  destruct (cache_record _ _) as [[] cache]; cbn [negb] in H.
  2: { apply polled_ret_inv in H as <-. split; [by apply (loop_break st)|done]. }
  run_step H next Hnext. by eapply afterRerun_ok.
Qed.

Definition within (st : refinement) : Prop :=
  0 <= l_iterations st <= IterationBudget (options c) /\ l_queries st <= QueryBudget (options c).

Definition loop_result_ok (result : option interprocPathResult * refinement) : Prop :=
  within (snd result) /\
  match fst result with
  | Some r => certified_safe r /\ 0 <= RefinementIterations (Refinement r) <= IterationBudget (options c)
  | None => break_ok (snd result)
  end.

Lemma loop_ok_break st : loop_ok st -> break_ok st.
Proof. intros Hok. by apply (loop_break st). Qed.

Lemma refineLoop_ok fuel deadline : forall st clk out clk',
  loop_ok st -> within st -> refineLoop tools c request fuel st deadline clk = (out, clk') ->
  (Z.to_nat (IterationBudget (options c) - l_iterations st) <= fuel)%nat ->
  exists result, out = Some result /\ loop_result_ok result.
Proof.
  induction fuel as [|fuel IH]; intros st clk out clk' Hok Hw H Hfuel; cbn [refineLoop] in H;
    (destruct (_ && _) eqn:Eg;
      [|apply polled_ret_inv in H as <-; eexists; split; [done|]; split; [done|by apply loop_ok_break]]);
    apply andb_true_iff in Eg as [Hi Hq]; apply Z.ltb_lt in Hi, Hq; run_step H step Hstep;
    apply iterate_ok in Hstep; try done; destruct step as [st'|r st'|st'];
    try (apply polled_ret_inv in H as <-).
  all: unfold within in *.
  1, 4: destruct Hstep as [Hb [? ?]]; eexists; (split; [done|]); split; [unfold within; cbn; lia|done].
  1, 3: destruct Hstep as (Hb & Hn & [? ?]); eexists; (split; [done|]); split; [unfold within; cbn; lia|];
    split; [done|cbn; lia].
  - lia.
  - destruct Hstep as [Hok' Hi']. apply (IH st') in H; try done; [|lia].
    pose proof (ok_queries _ Hok). pose proof (ok_queries _ Hok'). lia.
Qed.

(** ** Refine *)
Lemma budgets_positive : 0 < IterationBudget (options c) /\ 0 < QueryBudget (options c).
Proof.
  unfold IterationBudget, QueryBudget, defaultCFGRefinementMaxIterations, defaultCFGFeasibilityMaxQueries.
  destruct (Z.ltb_spec 0 (RefinementMaxIterations (options c))),
    (Z.ltb_spec 0 (FeasibilityMaxQueries (options c))); lia.
Qed.

(** The outcomes of [Refine]: the untouched safe result, a rejected replay, a
    certified safe result, or the conclusion of a loop that stopped. *)
Inductive refine_outcome : interprocPathResult -> Prop :=
| outcome_untouched :
    Class (RequestResult request) = interprocOutcomeSafe -> refine_outcome (RequestResult request)
| outcome_rejected record :
    refinementWitnessReplayRejection (RequestResult request) <> "" ->
    refine_outcome (rejectedReplay (RequestResult request) record)
| outcome_certified r :
    certified_safe r -> 0 <= RefinementIterations (Refinement r) <= IterationBudget (options c) ->
    refine_outcome r
| outcome_concluded st : within st -> break_ok st -> refine_outcome (concludeRefinement c st).

Lemma Refine_outcome fuel cache clk out clk' :
  Refine tools c request fuel cache clk = (out, clk') ->
  (Z.to_nat (IterationBudget (options c)) <= fuel)%nat ->
  exists r cache', out = Some (r, cache') /\ refine_outcome r.
Proof.
  intros H Hfuel. unfold Refine in H. destruct budgets_positive as [Hib Hqb].
  destruct (String.eqb_spec (Class (RequestResult request)) interprocOutcomeSafe) as [Hs|Hs].
  { apply polled_ret_inv in H as <-. do 2 eexists. split; [done|]. by apply outcome_untouched. }
  destruct (String.eqb_spec (refinementWitnessReplayRejection (RequestResult request)) "") as [Hp|Hp]; cbn [negb] in H.
  2: { apply polled_ret_inv in H as <-. do 2 eexists. split; [done|]. by apply outcome_rejected. }
  run_step H st Hst. apply queryResult_ok in Hst as (Hok & Hi & Hq); cbn; [|done..|lia|lia].
  run_step H finished Hf. apply polled_ret_inv in H as <-. cbn in Hi, Hq.
  apply refineLoop_ok in Hf as ([[r|] st'] & -> & Hres); [| |done|split; lia|].
  all: try (unfold within; lia); try (rewrite Hi, Z.sub_0_r; done).
  - do 2 eexists. split; [done|]. destruct Hres as [_ [Hc Hn]]. by apply outcome_certified.
  - do 2 eexists. split; [done|]. destruct Hres as [Hw Hb]. by apply outcome_concluded.
Qed.
End Controller.
End Facts.

(** ** A concrete refinement

    The tools answer constants where they stand for hashing and marshalling; the
    production backend reads the program [nested_if] of [WitnessConstraints.v], and
    running again finds nothing. *)
Definition sample_tools : toolbox :=
  mkToolbox (fun _ => sample_valueIndex) (fun _ => None) (fun s => s) (fun _ _ => Some "f")
    (fun _ _ _ _ _ => Some "e") (fun _ => Some "w") (fun _ _ => false).

Definition sample_controller : cfgRefinementController :=
  mkController (mkOptions 3 16 5000) None (Some (Check sample_tools)) (fun e => e) (fun d => d).

Definition sample_result (class : interprocOutcomeClass) (path : list Z) : interprocPathResult :=
  mkResult class "" path [] noNode "" ifdsFactFamilyCastNeedsValidate "k" "identity" noWitnessRecord
    noRefinement (mkAvailability "" "") noStats None.

Definition sample_request (path : list Z) : cfgRefinementRequest :=
  mkRequest sample_pass (Some nested_if) (sample_result interprocOutcomeUnsafe path)
    (mkIdentity "cast" "finding" ∅ []) ["pkg.f"] None
    (fun _ => mret (sample_result interprocOutcomeSafe [])) None.

Definition sample_refined (path : list Z) : option (interprocPathResult * gset string) * nat :=
  Refine sample_tools sample_controller (sample_request path)
    (Z.to_nat (IterationBudget (options sample_controller)) + 0) ∅ 0%nat.

Lemma sample_tools_transparent pass : transparent (valueIndexOf sample_tools pass).
Proof. apply transparent_finish. Qed.

Lemma sample_production : production sample_tools sample_controller.
Proof. by split. Qed.

(** * Theorems *)
Lemma conclude_class tools c request st :
  break_ok tools c request st -> Class (concludeRefinement c st) <> interprocOutcomeSafe.
Proof.
  intros [Hs _]. unfold concludeRefinement. cbv zeta.
  destruct (shouldAttemptRefinement _ _); [done|].
  destruct (String.eqb_spec (l_verdict st) cfgFeasibilityResultUnknown); [done|]. cbn. auto.
Qed.

(** C6. Nothing is discharged without an accepted certificate.  Whatever the
    backend, the test seam, the deadline and the analysis that is run again answer,
    a safe result of the refinement is either the safe result it was given or what a
    run answered that ignored witnesses with accepted infeasibility certificates
    only, and it carries the unsatisfiable verdict and the discharged status. *)
Theorem refine_safe_is_certified tools c request extra cache clk r cache' clk' :
  (forall pass, transparent (valueIndexOf tools pass)) ->
  Refine tools c request (Z.to_nat (IterationBudget (options c)) + extra) cache clk = (Some (r, cache'), clk') ->
  Class r = interprocOutcomeSafe ->
  r = RequestResult request \/ certified_safe tools c request (fun _ => True) r.
Proof.
  intros Ht H Hs. apply (Refine_outcome tools Ht c request (fun _ => True) I (fun _ _ _ _ _ => I)) in H as (r' & c' & [= <- <-] & Ho); [|lia].
  destruct Ho as [_|record _|r Hc _|st _ Hb]; [by left|done|by right|].
  by apply conclude_class in Hb.
Qed.

Lemma refine_safe_is_certified_witness :
  exists r cache' clk', sample_refined [1; 3] = (Some (r, cache'), clk') /\ RWitness r = [] /\
    (r = sample_result interprocOutcomeUnsafe [1; 3] \/
     certified_safe sample_tools sample_controller (sample_request [1; 3]) (fun _ => True) r).
Proof.
  do 3 eexists. split; [vm_compute; reflexivity|]. split; [reflexivity|].
  eapply (refine_safe_is_certified sample_tools sample_controller (sample_request [1; 3]) 0 ∅ 0%nat).
  - apply sample_tools_transparent.
  - vm_compute. reflexivity.
  - reflexivity.
Defined.

(** C7. A violation is not reported against a refuted or undecided witness: the verdict of
    an unsafe result is neither unsatisfiable nor unknown.  With the production backend it is
    the verdict [sat]; the formula of its witness record was then extracted without approximation,
    and has an alternative in which no two atoms contradict each other by the rules of the
    checker.  (That is all the verdict claims: an alternative may still be unsatisfiable as a
    whole, see [joint_contradiction_missed].) *)
Theorem refine_violation_not_refuted tools c request extra cache clk r cache' clk' :
  (forall pass, transparent (valueIndexOf tools pass)) ->
  Refine tools c request (Z.to_nat (IterationBudget (options c)) + extra) cache clk = (Some (r, cache'), clk') ->
  Class r = interprocOutcomeUnsafe ->
  let verdict := FeasibilityResult (Refinement r) in
  verdict <> cfgFeasibilityResultUNSAT /\ verdict <> cfgFeasibilityResultUnknown /\
  (production tools c -> verdict = cfgFeasibilityResultSAT /\
     let f := outcome (recordFormula tools (feasibilityQuery c request (WitnessRecord r) None)) in
     unsupported f = false /\ ~ Forall contradictory (alternatives f)).
Proof.
  intros Ht H Hu. apply (Refine_outcome tools Ht c request (fun _ => True) I (fun _ _ _ _ _ => I)) in H as (r' & c' & [= <- <-] & Ho); [|lia].
  destruct Ho as [Hs|record _|r (o & next & k & k' & _ & Hs & E & _) _|st _ Hb].
  - by rewrite Hu in Hs.
  - done.
  - assert (Class r = Class next) as Ec by (by rewrite E). by rewrite Ec, Hs in Hu.
  - revert Hu. unfold concludeRefinement. cbv zeta.
    destruct (shouldAttemptRefinement _ _) eqn:Es; [done|].
    destruct (String.eqb_spec (l_verdict st) cfgFeasibilityResultUnknown) as [Hk|Hk]; [done|].
    cbn. intros Hu. unfold shouldAttemptRefinement in Es. rewrite Hu in Es. cbn in Es.
    apply String.eqb_neq in Es. split; [done|]. split; [done|]. intros Hp.
    destruct (break_verdict _ _ _ _ Hb) as [?|(E & Er & Hd)]; [done|]. rewrite E in *.
    destruct (Hd Hp) as [?|[?|?]]; done.
Qed.

Lemma refine_violation_not_refuted_witness :
  exists r cache' clk', sample_refined [1; 2] = (Some (r, cache'), clk') /\
    FeasibilityResult (Refinement r) = cfgFeasibilityResultSAT.
Proof.
  do 3 eexists. split; [vm_compute; reflexivity|].
  eapply (refine_violation_not_refuted sample_tools sample_controller (sample_request [1; 2]) 0 ∅ 0%nat).
  - apply sample_tools_transparent.
  - vm_compute. reflexivity.
  - reflexivity.
  - apply sample_production.
Defined.

(** C35. The refinement ends within its budgets: as many rounds as the iteration
    budget allows are enough for an answer, which never counts more iterations. *)
Theorem refine_terminates tools c request extra cache clk :
  (forall pass, transparent (valueIndexOf tools pass)) ->
  exists r cache' clk',
    Refine tools c request (Z.to_nat (IterationBudget (options c)) + extra) cache clk = (Some (r, cache'), clk') /\
    (r = RequestResult request \/ 0 <= RefinementIterations (Refinement r) <= IterationBudget (options c)).
Proof.
  intros Ht. destruct (Refine _ _ _ _ _ clk) as [out clk'] eqn:H.
  apply (Refine_outcome tools Ht c request (fun _ => True) I (fun _ _ _ _ _ => I)) in H as (r & c' & -> & Ho); [|lia]. exists r, c', clk'. split; [done|].
  destruct Ho as [_|record _|r' _ Hn|st [Hw _] _]; [by left|right|by right|right].
  - pose proof (budgets_positive c). cbn. lia.
  - unfold concludeRefinement. cbv zeta. destruct (shouldAttemptRefinement _ _); [exact Hw|].
    destruct (String.eqb _ _); exact Hw.
Qed.

Lemma refine_terminates_witness :
  exists r cache' clk',
    sample_refined [1; 3] = (Some (r, cache'), clk') /\
    (r = sample_result interprocOutcomeUnsafe [1; 3] \/
     0 <= RefinementIterations (Refinement r) <= IterationBudget (options sample_controller)).
Proof.
  apply (refine_terminates sample_tools sample_controller (sample_request [1; 3]) 0 ∅ 0%nat).
  apply sample_tools_transparent.
Defined.

(** ** Discharged witnesses *)

(** The propagation result recorded for a path edge. *)
Definition recordedResult (trigger : string) (path : list Z) (witness : list interprocWitnessEdge)
    (terminal : interprocNodeID) : interprocPathResult :=
  with_witness
    (if String.eqb trigger cfgRefinementTriggerUnsafeCandidate
     then interprocPathResultFromOutcome pathOutcomeUnsafe pathOutcomeReasonNone path
     else interprocPathResultFromOutcome pathOutcomeInconclusive trigger path) witness terminal.

(** A discharged witness is recognised: the token made for a result the
    propagation recorded makes the next run skip the path edge it was recorded for,
    because solver and propagation hash the same path, transitions, terminal, fact
    and trigger. *)
Theorem discharged_witness_recognised tools family key callChain syntheticPath trigger path witness
    terminal record decision others :
  path <> [] -> trigger <> "" ->
  let r := completeResult tools family key callChain syntheticPath (recordedResult trigger path witness terminal) in
  let token := refinementDischargeHash tools r record decision in
  token <> "" -> WitnessHash r <> "" ->
  witnessIsDischarged (Some (newInterprocWitnessHashFunc tools callChain family key)) path witness terminal
    trigger (token :: others) = true.
Proof.
  intros Hpath Htrigger r token Htok Hhash.
  assert (newInterprocWitnessHashFunc tools callChain family key path witness terminal trigger = WitnessHash r) as Hh.
  { unfold r, recordedResult, completeResult, setInterprocWitnessHash, newInterprocWitnessHashFunc,
      computeInterprocWitnessHash, interprocPathResultForDischargeTrigger, effectiveWitnessPath.
    destruct path as [|b path]; [done|].
    destruct (String.eqb_spec trigger cfgRefinementTriggerUnsafeCandidate) as [->|Hne]; [done|].
    cbn. unfold refinementTriggerForResult. cbn. by destruct (String.eqb_spec trigger ""). }
  unfold witnessIsDischarged. destruct path as [|b path]; [done|]. cbv zeta. rewrite Hh.
  destruct (String.eqb_spec (WitnessHash r) "") as [|_]; [done|]. cbn [existsb].
  apply orb_true_iff. left. unfold strings_HasPrefix.
  unfold token, refinementDischargeHash in Htok |- *. destruct (negb _); [done|].
  destruct (String.eqb_spec (WitnessHash r) "") as [|_]; [done|]. cbn [negb] in Htok |- *. cbv zeta in *.
  destruct (_ || _); [done|]. rewrite <- string_app_assoc. apply prefix_app.
Qed.

Lemma discharged_witness_recognised_witness :
  let r := completeResult sample_tools ifdsFactFamilyCastNeedsValidate "k" ["pkg.f"] []
             (recordedResult cfgRefinementTriggerUnsafeCandidate [1; 3] [] noNode) in
  let decision := mkDecision cfgFeasibilityResultUNSAT "" nested_evidence [] "cfgf2_f" "cfge2_e" in
  witnessIsDischarged
    (Some (newInterprocWitnessHashFunc sample_tools ["pkg.f"] ifdsFactFamilyCastNeedsValidate "k"))
    [1; 3] [] noNode cfgRefinementTriggerUnsafeCandidate
    [refinementDischargeHash sample_tools r noWitnessRecord decision] = true.
Proof.
  intros r decision.
  apply (discharged_witness_recognised sample_tools ifdsFactFamilyCastNeedsValidate "k" ["pkg.f"] []
    cfgRefinementTriggerUnsafeCandidate [1; 3] [] noNode noWitnessRecord decision []); by vm_compute.
Defined.
