(* ===== verification/Solver.v ===== *)
(** * The solver and its refinement

    How a client of [goplint/cfa_ifds_solver.go] composes the parts: a propagation
    over the supergraph ([runIFDSPropagationWithSinkControlled]), the identity and
    hash of its result, and the refinement of [goplint/cfa_refinement.go] whose
    [Rerun] propagates again without the discharged witnesses, as the callers in
    [goplint/cfa_cast_shared.go] set it up. *)

From S2P Require Export TabulationBudget RefinementFacts.
Local Open Scope Z_scope.

(** ** Composition *)
Definition with_stats (r : interprocPathResult) (st : interprocTabulationStats) : interprocPathResult :=
  mkResult (Class r) (Reason r) (RWitness r) (WitnessEdges r) (WitnessTerminal r) (WitnessHash r)
    (FactFamily r) (FactKey r) (EdgeFunctionTag r) (WitnessRecord r) (Refinement r) (SSAAvailability r)
    st (witnessGraph r).

Definition with_range (inp : tabulationInput) (order : gmap string string -> list (string * string))
    : tabulationInput :=
  mkInput (in_graph inp) (in_start inp) (in_maxStates inp) (in_discharged inp) (in_witnessHash inp)
    (transfer inp) (terminalUnsafe inp) (unresolvedCallRelevant inp) (obligationSink inp) (sinkPolicy inp)
    (edgeTransfer inp) (in_control inp) (worklistLIFO inp) (injectReason inp) (injectSummary inp)
    (InitialState inp) (observesExit inp) (PruneEdge inp) order.

(** The tracked fact: family and key, the call chain and the block of its origin. *)
Record trackedFact := mkFact {
  fact_Family : ifdsFactFamily;
  fact_Key : string;
  fact_callChain : list string;
  fact_origin : list Z;
}.

Section Solver.
Context (tools : toolbox) (fact : trackedFact) (base : tabulationInput).

(** The input of a run under an override: [Rerun] of the callers. *)
Definition overridden (o : cfgRefinementOverride) : tabulationInput :=
  mkInput (in_graph base) (in_start base)
    (if 0 <? MaxStates o then MaxStates o else in_maxStates base) (DischargedWitnesses o)
    (Some (newInterprocWitnessHashFunc tools (fact_callChain fact) (fact_Family fact) (fact_Key fact)))
    (transfer base) (terminalUnsafe base) (unresolvedCallRelevant base) (obligationSink base) (sinkPolicy base)
    (edgeTransfer base) (in_control base) (worklistLIFO base) (injectReason base) (injectSummary base)
    (InitialState base) (observesExit base) (PruneEdge base) (rangeOrder base).

Definition noOverride : cfgRefinementOverride := mkOverride 0 [] false false.

(** The completed result of one evaluation, with the fuel that is enough for it. *)
Definition evaluatePath (o : cfgRefinementOverride) (order : gmap string string -> list (string * string))
    (clk : nat) : option interprocPathResult :=
  let inp := with_range (overridden o) order in
  '(r, st) ← runIFDSPropagationWithStatsOptions inp (runFuel inp) clk;
  Some (completeResult tools (fact_Family fact) (fact_Key fact) (fact_callChain fact) (fact_origin fact)
          (with_stats r st)).

(** A map is ranged over in any order of its entries. *)
Definition is_order (order : gmap string string -> list (string * string)) : Prop :=
  forall m, order m ≡ₚ map_to_list m.

Definition evaluates (o : cfgRefinementOverride) (r : interprocPathResult) : Prop :=
  exists order clk, is_order order /\ evaluatePath o order clk = Some r.

Lemma evaluatePath_answers o order clk : is_Some (evaluatePath o order clk).
Proof.
  unfold evaluatePath. destruct (run_answers (with_range (overridden o) order) clk) as [[r st] E].
  cbv zeta. rewrite E. by eexists.
Qed.

(** A request made for the result of an evaluation. *)
Record requests (request : cfgRefinementRequest) : Prop := {
  req_result : evaluates noOverride (RequestResult request);
  req_rerun o clk next clk' : Rerun request o clk = (next, clk') -> evaluates o next;
  req_callChain : CallChain request = fact_callChain fact;
  req_identity : match WitnessIdentity request with
                 | None => SyntheticPath (RequestIdentity request) = fact_origin fact
                 | Some identify => forall r, SyntheticPath (identify r) = fact_origin fact
                 end;
}.

(** ** The program does not depend on the override *)
Abbreviation variant o order := (with_range (overridden o) order).

Lemma variant_moves o order c c' : moves (variant o order) c c' <-> moves base c c'.
Proof.
  split; intros [n s st edge Ht Hk|n s st edge Ht Hk|n s st r Hc Hr Hk Hn].
  - exact (move_local base n s st edge Ht Hk).
  - exact (move_call base n s st edge Ht Hk).
  - exact (move_return base n s st r Hc Hr Hk Hn).
  - exact (move_local (variant o order) n s st edge Ht Hk).
  - exact (move_call (variant o order) n s st edge Ht Hk).
  - exact (move_return (variant o order) n s st r Hc Hr Hk Hn).
Qed.

Lemma variant_paths o order c c' : rtc (moves (variant o order)) c c' <-> rtc (moves base) c c'.
Proof.
  split; induction 1 as [|c1 c2 c3 Hm _ IH]; try constructor;
    (eapply rtc_l; [by apply (variant_moves o order)|done]).
Qed.

Lemma variant_traced o order pe : traced (variant o order) pe -> traced base pe.
Proof.
  induction 1 as [|pe edge _ IH Ht Hk|pe edge _ IH Ht Hk|pe edge r px _ IH Hc _ IHx He Hn Hx].
  - exact (trace_root base).
  - exact (trace_local base pe edge IH Ht Hk).
  - exact (trace_call base pe edge IH Ht Hk).
  - destruct Hc as [H1 H2 H3 H4]. exact (trace_return base pe edge r px IH (Build_calls base pe edge r H1 H2 H3 H4) IHx He Hn Hx).
Qed.

(** ** What a discharge token names *)
Abbreviation completed :=
  (completeResult tools (fact_Family fact) (fact_Key fact) (fact_callChain fact) (fact_origin fact)).

(** Results carry the identity of the fact. *)
Definition is_completed (r : interprocPathResult) : Prop := exists r0, r = completed r0.

(** Hashes are hexadecimal, and two records with the same hash agree on the block path
    and the witness edges: SHA-256 does not collide and JSON keeps both fields. *)
Record hashing : Prop := {
  hash_bar_free text : bar_free (sha256 tools text);
  hash_identifies r1 r2 : computeCFGWitnessHash tools r1 = computeCFGWitnessHash tools r2 ->
    RCFGPath r1 = RCFGPath r2 /\ RWitnessEdges r1 = RWitnessEdges r2;
}.

Context (c : cfgRefinementController) (request : cfgRefinementRequest).
Context (Hhash : hashing) (Hreq : requests request).

Lemma witness_hash_bar_free record : bar_free (computeCFGWitnessHash tools record).
Proof.
  unfold computeCFGWitnessHash. destruct (marshalWitness _ _); (apply bar_free_app; split; [done|apply Hhash]).
Qed.

Lemma token_base r record decision :
  refinementDischargeHash tools r record decision <> "" ->
  exists suffix, refinementDischargeHash tools r record decision =
    (if negb (String.eqb (WitnessHash r) "") then WitnessHash r else RWitnessHash record) +:+
      "|cfgd1_" +:+ suffix.
Proof.
  unfold refinementDischargeHash. destruct (negb _); [done|]. cbv zeta.
  destruct (_ || _ || _); [done|]. intros _. by eexists.
Qed.

(** The record of a completed result names its block path and its witness edges. *)
Lemma record_names r :
  is_completed r ->
  let record := buildCFGWitnessRecordForRefinement tools request r in
  let base := if negb (String.eqb (WitnessHash r) "") then WitnessHash r else RWitnessHash record in
  RFactOriginPath record = fact_origin fact /\
  exists named, base = computeCFGWitnessHash tools named /\
    RCFGPath named = RCFGPath record /\ RWitnessEdges named = RWitnessEdges record.
Proof.
  intros [r0 ->]. cbv zeta. unfold buildCFGWitnessRecordForRefinement.
  set (identity := match WitnessIdentity request with Some identify => _ | None => _ end).
  assert (SyntheticPath identity = fact_origin fact) as Ho.
  { unfold identity. pose proof (req_identity _ Hreq) as H. destruct (WitnessIdentity request); [apply H|done]. }
  split; [exact Ho|]. destruct (negb _) eqn:E.
  - unfold completeResult, setInterprocWitnessHash, computeInterprocWitnessHash in E |- *. cbn in E |- *.
    rewrite Ho in *. destruct (effectiveWitnessPath _ _) as [|b path] eqn:Ep; [done|].
    eexists. split; [reflexivity|]. cbn. by rewrite ?Ep.
  - eexists (mkWitnessRecord _ _ _ _ _ _ _ _ _ _ _ _ ""). split; [reflexivity|done].
Qed.

(** A path edge whose witness has an accepted infeasibility certificate: for a record
    of the fact with its block path and the predicates of its witness edges. *)
Definition certified_witness (pe : interprocPathEdge) : Prop :=
  exists record evidence,
    certifies_record tools (feasibilityQuery c request record None) evidence /\
    RFactOriginPath record = fact_origin fact /\ RCFGPath record = pe_path pe /\
    map WPredicateProvenance (RWitnessEdges record) = map WPredicateProvenance (pe_witness pe).

Lemma discharged_certified o order pe trigger :
  Forall (justified tools c request is_completed) (DischargedWitnesses o) ->
  discharged (variant o order) pe trigger = true -> certified_witness pe.
Proof.
  intros Hall Hd. unfold discharged, witnessIsDischarged in Hd. cbn [in_witnessHash in_discharged with_range overridden] in Hd.
  destruct (DischargedWitnesses o) as [|t0 ts] eqn:Et; [done|]. destruct (pe_path pe) as [|b path] eqn:Ep; [done|].
  cbv zeta in Hd. set (h := newInterprocWitnessHashFunc _ _ _ _ _ _ _ _) in Hd.
  destruct (String.eqb_spec h "") as [|Hne]; [done|]. apply existsb_exists in Hd as (token & Hin & Hpre).
  apply list_elem_of_In in Hin. rewrite Forall_forall in Hall.
  destruct (Hall _ Hin) as (r & decision & Hg & _ & Hcert & ->).
  apply prefix_inv in Hpre as [rest Hpre]. destruct (record_names r Hg) as (Ho & named & Hn & Hp & He).
  set (record := buildCFGWitnessRecordForRefinement tools request r) in *.
  destruct (token_base r record decision) as [suffix Hs].
  { intros E. rewrite E in Hpre. by destruct h. }
  rewrite Hs, Hn, string_app_assoc in Hpre.
  assert (h = computeCFGWitnessHash tools named) as Hh.
  { unfold h, newInterprocWitnessHashFunc, computeInterprocWitnessHash in *.
    apply (sep_inj_l bar) in Hpre as [E _]; [done|apply witness_hash_bar_free..]. }
  unfold h, newInterprocWitnessHashFunc, computeInterprocWitnessHash in Hh.
  apply (hash_identifies Hhash) in Hh as [H1 H2]. cbn in H1, H2.
  exists record, (Evidence decision). split; [done|]. split; [done|]. split; [by rewrite Ep, H1|].
  rewrite <- He, <- H2. unfold qualifyInterprocWitnessFact. rewrite map_map. by apply map_ext.
Qed.

(** ** Paths a safe evaluation leaves *)

(** On its way to [c] the path passes a node that a certified witness reaches. *)
Definition passes_certified (cf : configuration) : Prop :=
  exists pe stack, rtc (moves base) (initialConfiguration base) (pe_node pe, pe_state pe, stack) /\
    rtc (moves base) (pe_node pe, pe_state pe, stack) cf /\ traced base pe /\ certified_witness pe.

Lemma evaluation_safe o r :
  clean_input base -> summaries_uninjected base -> evaluates o r -> Class r = interprocOutcomeSafe ->
  exists order, forall n s stack, rtc (moves base) (initialConfiguration base) (n, s, stack) ->
    excused_path (variant o order) (n, s, stack) \/ judge base n s = Clear.
Proof.
  intros Hclean Hseam (order & clk & Horder & He) Hs. exists order. intros n s stack Hp.
  unfold evaluatePath in He. destruct (runIFDSPropagationWithStatsOptions _ _ clk) as [[r1 st]|] eqn:Er; [|done].
  injection He as <-. assert (Class r1 = interprocOutcomeSafe) as Hs1 by exact Hs.
  assert (clean_input (variant o order)) as Hc by exact Hclean.
  assert (ranges_entries (variant o order)) as Hr by exact Horder.
  assert (summaries_uninjected (variant o order)) as Hu by exact Hseam.
  destruct (safe_run_saturated _ Hc Hr Hu _ _ _ _ Er Hs1) as (t & Hrun & Hn & Hq & Hf).
  assert (rtc (moves (variant o order)) (initialConfiguration (variant o order)) (n, s, stack)) as Hp'
    by (by apply (variant_paths o order)).
  exact (path_clear _ t Hrun Hn Hq Hf _ _ _ Hp').
Qed.

Lemma excused_certified o order cf :
  Forall (justified tools c request is_completed) (DischargedWitnesses o) ->
  excused_path (variant o order) cf -> passes_certified cf.
Proof.
  intros Hall (m & s' & stack & H1 & H2 & pe & trigger & Ht & <- & <- & Hd). exists pe, stack.
  split_and!.
  - by apply (variant_paths o order) in H1.
  - by apply (variant_paths o order) in H2.
  - by eapply variant_traced.
  - by eapply discharged_certified.
Qed.
End Solver.

(** C1. A safe verdict of the whole analysis is justified path by path.  When the
    refinement of an evaluated fact answers safe, every interprocedurally valid path of
    the program ends in a node with nothing to report, or passes a node in a state
    that a traced path edge reaches whose witness is refuted: the checker accepts an
    infeasibility certificate for a record of the fact with exactly the block path and
    the predicates of that witness. *)
Theorem refined_safe_verdict_is_justified tools fact base c request extra cache clk r cache' clk' :
  (forall pass, transparent (valueIndexOf tools pass)) -> hashing tools ->
  clean_input base -> summaries_uninjected base -> requests tools fact base request ->
  Refine tools c request (Z.to_nat (IterationBudget (options c)) + extra) cache clk = (Some (r, cache'), clk') ->
  Class r = interprocOutcomeSafe ->
  forall n s stack, rtc (moves base) (initialConfiguration base) (n, s, stack) ->
  judge base n s = Clear \/ passes_certified tools fact base c request (n, s, stack).
Proof.
  intros Ht Hh Hclean Hseam Hreq H Hs n s stack Hp.
  assert (forall o x, evaluates tools fact base o x -> is_completed tools fact x) as Hcomp.
  { intros o x (order & k & _ & He). unfold evaluatePath in He.
    destruct (runIFDSPropagationWithStatsOptions _ _ k) as [[r1 st]|]; [|done]. injection He as <-. by eexists. }
  apply (Refine_outcome tools Ht c request (is_completed tools fact)) in H as (r' & c1 & [= <- <-] & Ho);
    [|by eapply Hcomp, Hreq|by intros o k next k' He; eapply Hcomp, Hreq|lia].
  destruct Ho as [_|record _|r' (o & next & k & k' & Hrun & Hsn & E & _ & Hall & _) _|st _ Hb].
  - destruct (evaluation_safe tools fact base _ _ Hclean Hseam (req_result _ _ _ _ Hreq) Hs) as [order Hx].
    destruct (Hx _ _ _ Hp) as [Hex|?]; [|by left]. by apply not_excused_path in Hex.
  - done.
  - apply (req_rerun _ _ _ _ Hreq) in Hrun.
    destruct (evaluation_safe tools fact base _ _ Hclean Hseam Hrun Hsn) as [order Hx].
    destruct (Hx _ _ _ Hp) as [Hex|?]; [right|by left].
    by eapply excused_certified.
  - by apply conclude_class in Hb.
Qed.
