(* ===== verification/SolverReuse.v ===== *)
(** * What reuse of summaries and dependencies loses

    A program on which the whole analysis runs: two paths reach a call in the same
    state, the registration of the call keeps the witness of the first one only
    ([registerDependency] of [goplint/cfa_ifds_tabulation.go] skips known keys), the
    first witness is refuted, and the second one, which is feasible and violates the
    obligation, is never looked at. *)

From S2P Require Export Solver.
Local Open Scope Z_scope.

(** ** A faithful text for records

    The sample tools print records so that different ones have different texts: every
    field is framed by its length. *)
Class Text (A : Type) := {
  text : A -> string;
  text_inj a b x y : text a +:+ x = text b +:+ y -> a = b /\ x = y;
}.

Definition colon : Ascii.ascii := Ascii.Ascii false true false true true true false false.

Lemma append_length_inj (a b x y : string) :
  String.length a = String.length b -> a +:+ x = b +:+ y -> a = b /\ x = y.
Proof.
  revert b. induction a as [|c a IH]; intros [|d b]; try done. intros [= Hl].
  rewrite !string_app_cons. intros [= -> H]. by destruct (IH _ Hl H) as [-> ->].
Qed.

#[export, refine] Instance string_text : Text string := {
  text s := itoa (Z.of_nat (String.length s)) +:+ String colon s;
}.
Proof.
  intros a b x y. rewrite !string_app_assoc, !string_app_cons. intros [H1 H2]%sep_inj_l; [|by apply itoa_no_char..].
  apply append_length_inj in H2; [done|]. by apply itoa_inj, Nat2Z.inj in H1.
Defined.

#[export, refine] Instance Z_text : Text Z := { text z := text (itoa z) }.
Proof. intros a b x y [->%itoa_inj ->]%text_inj. done. Defined.

#[export, refine] Instance prod_text {A B} `{Text A, Text B} : Text (A * B) := {
  text p := text (fst p) +:+ text (snd p);
}.
Proof.
  intros [a1 a2] [b1 b2] x y. cbn. rewrite !string_app_assoc. intros [-> [-> ->]%text_inj]%text_inj. done.
Defined.

Fixpoint list_items {A} `{Text A} (l : list A) : string :=
  match l with [] => "" | a :: l' => text a +:+ list_items l' end.

#[export, refine] Instance list_text {A} `{Text A} : Text (list A) := {
  text l := text (Z.of_nat (length l)) +:+ list_items l;
}.
Proof.
  intros a b x y. rewrite !string_app_assoc. intros [Hl%Nat2Z.inj H1]%text_inj. revert b x y Hl H1.
  induction a as [|c a IH]; intros [|d b] x y; try done. intros [= Hl]. cbn [list_items].
  rewrite !string_app_assoc. intros [-> H2]%text_inj. by destruct (IH _ _ _ Hl H2) as [-> ->].
Defined.

(** The text of a record from the text of its fields. *)
Definition text_by {A B} `{Text B} (f : A -> B) (Hf : forall a b, f a = f b -> a = b) : Text A :=
  {| text a := text (f a);
     text_inj a b x y H := match text_inj (f a) (f b) x y H with conj E E' => conj (Hf a b E) E' end |}.

#[export, refine] Instance node_text : Text interprocNodeID :=
  text_by (fun n => (FuncKey n, BlockIndex n, NodeIndex n, CallOrdinal n, NKind n)) _.
Proof. intros [] [] [=]. by subst. Defined.

#[export, refine] Instance state_text : Text protocolAbstractState :=
  text_by (fun s => (Validation s, Hazards s, Uncertainty s, ProtocolDomain.Result s, DeferredError s, Identity s,
    PossibleEffects s)) _.
Proof. intros [] [] [=]. by subst. Defined.

#[export, refine] Instance witness_text : Text interprocWitnessEdge :=
  text_by (fun w => (WFrom w, WTo w, WKind w, WCallSite w, WFactFamily w, WFactKey w, StateBefore w,
    StateAfter w, WEdgeFunctionTag w, EdgeReason w, WPredicateProvenance w)) _.
Proof. intros [] [] [=]. by subst. Defined.

(** A stand-in for SHA-256 in hexadecimal: bars are escaped. *)
Definition mark : Ascii.ascii := Ascii.Ascii true false false false false true false false.

Fixpoint escaped (s : string) : string :=
  match s with
  | EmptyString => ""
  | String c rest =>
      if Ascii.eqb c bar then String mark (String Ascii.zero (escaped rest))
      else if Ascii.eqb c mark then String mark (String Ascii.one (escaped rest))
      else String c (escaped rest)
  end.

Lemma escaped_bar_free s : bar_free (escaped s).
Proof.
  unfold bar_free. induction s as [|c s IH]; [done|]. cbn [escaped].
  destruct (Ascii.eqb_spec c bar) as [->|Hb]; [exact IH|]. destruct (Ascii.eqb_spec c mark) as [->|Hm]; [exact IH|].
  cbn [has_char]. rewrite IH, orb_false_r. by apply Ascii.eqb_neq.
Qed.

Lemma escaped_inj s : forall t, escaped s = escaped t -> s = t.
Proof.
  induction s as [|c s IH]; intros [|d t]; cbn [escaped]; [done|by repeat case_match..|].
  destruct (Ascii.eqb_spec c bar), (Ascii.eqb_spec d bar), (Ascii.eqb_spec c mark), (Ascii.eqb_spec d mark);
    intros E; injection E; intros; try congruence; f_equal; auto; congruence.
Qed.

(** ** The tools and the program *)
Definition reuse_predicate (payload : string) : option (list (list (string * string * string))) :=
  if String.eqb payload "x=1" then Some [[("pkg.f|*ssa.Parameter|x", "eq", "1")]]
  else if String.eqb payload "x!=1" then Some [[("pkg.f|*ssa.Parameter|x", "neq", "1")]]
  else None.

Definition reuse_tools : toolbox :=
  mkToolbox (fun _ => sample_valueIndex) reuse_predicate escaped (fun _ _ => Some "f")
    (fun _ _ _ _ _ => Some "e") (fun r => Some (text (RCFGPath r, RWitnessEdges r))) (fun _ _ => false).

Lemma reuse_hashing : hashing reuse_tools.
Proof.
  split; [apply escaped_bar_free|]. intros r1 r2 H. unfold computeCFGWitnessHash in H. cbn in H.
  apply (inj (String.append "cfgw1_")) in H. apply escaped_inj in H.
  destruct (text_inj (RCFGPath r1, RWitnessEdges r1) (RCFGPath r2, RWitnessEdges r2) "" "") as [[= -> ->] _]; [|done].
  by rewrite !string_app_nil_r.
Qed.

(** [if x != 1 { log() }; g(); if x != 1 { use(v) }]: block 0 is the first branch, 1 the
    call of [log], 2 the call of [g], 3 the use and 4 the exit. *)
Definition cfgNode (f : string) (block : Z) : interprocNodeID := mkNode f block 0 0 interprocNodeKindCFG.
Definition returnSite : interprocNodeID := mkNode "pkg.f" 2 0 0 interprocNodeKindReturn.
Definition is_1 : string := cfgSSAPredicateFormulaPrefix +:+ "x=1".
Definition is_not_1 : string := cfgSSAPredicateFormulaPrefix +:+ "x!=1".

Definition intra (from to : interprocNodeID) (predicates : list string) : interprocEdge :=
  mkEdge from to interprocEdgeIntra "" "" predicates.

Definition e_skip := intra (cfgNode "pkg.f" 0) (cfgNode "pkg.f" 2) [is_1].
Definition e_log := intra (cfgNode "pkg.f" 0) (cfgNode "pkg.f" 1) [is_not_1].
Definition e_join := intra (cfgNode "pkg.f" 1) (cfgNode "pkg.f" 2) [].
Definition e_call := mkEdge (cfgNode "pkg.f" 2) (cfgNode "pkg.g" 0) interprocEdgeCall "site" "" [].
Definition e_return := mkEdge (cfgNode "pkg.g" 0) returnSite interprocEdgeReturn "site" "" [].
Definition e_use := intra returnSite (cfgNode "pkg.f" 3) [is_not_1].
Definition e_exit := intra returnSite (cfgNode "pkg.f" 4) [is_1].

Definition reuseGraph : interprocSupergraph :=
  buildGraph (((fun n => OpNode n None) <$>
      [cfgNode "pkg.f" 0; cfgNode "pkg.f" 1; cfgNode "pkg.f" 2; cfgNode "pkg.f" 3; cfgNode "pkg.f" 4;
       returnSite; cfgNode "pkg.g" 0]) ++
    (OpEdge <$> [e_skip; e_log; e_join; e_call; e_return; e_use; e_exit])).

(** The value is used unvalidated in block 3. *)
Definition reuseInput : tabulationInput :=
  mkInput reuseGraph (cfgNode "pkg.f" 0) 100 [] None
    (fun _ _ _ => (ideEdgeFuncIdentity, pathOutcomeReasonNone))
    (fun n _ s => bool_decide (n = cfgNode "pkg.f" 3) && negb (validationProven s)) None None
    (mkSinkPolicy true false false) None None false id id None false None map_to_list.

Definition reuseFact : trackedFact := mkFact ifdsFactFamilyCastNeedsValidate "v" ["pkg.f"] [0].

Definition evaluateReuse (o : cfgRefinementOverride) : interprocPathResult :=
  default (sample_result "" []) (evaluatePath reuse_tools reuseFact reuseInput o map_to_list 0).

Definition reuseRequest : cfgRefinementRequest :=
  mkRequest sample_pass (Some [Some (mkBlock 0 [] [])]) (evaluateReuse noOverride)
    (mkIdentity "cast" "finding" ∅ [0]) ["pkg.f"] None (fun o => mret (evaluateReuse o)) None.

Definition reuseController : cfgRefinementController :=
  mkController (mkOptions 3 16 5000) None (Some (Check reuse_tools)) (fun e => e) (fun d => d).

Abbreviation refinedReuse :=
  (Refine reuse_tools reuseController reuseRequest (Z.to_nat (IterationBudget (options reuseController)) + 0) ∅ 0%nat).

(** A request whose evaluations are those of the fact answers for it. *)
Lemma mret_inv {A} (a next : A) clk clk' : mret (M:=polled) a clk = (next, clk') -> next = a.
Proof. by intros [= -> ->]. Qed.

Lemma requests_of tools fact base pass graph identity path callChain (f : cfgRefinementOverride -> interprocPathResult) :
  (forall o, evaluates tools fact base o (f o)) -> callChain = fact_callChain fact -> path = fact_origin fact ->
  SyntheticPath identity = path ->
  requests tools fact base
    (mkRequest pass graph (f noOverride) identity callChain None (fun o => mret (f o)) None).
Proof.
  intros Hf Hc Hp Hi. split; [exact (Hf _)| |exact Hc|by cbn; rewrite Hi].
  intros o clk next clk' E. cbn [Rerun] in E. apply mret_inv in E as ->. exact (Hf o).
Qed.

Lemma evaluateReuse_evaluates o : evaluates reuse_tools reuseFact reuseInput o (evaluateReuse o).
Proof.
  exists map_to_list, 0%nat. split; [intros m; reflexivity|]. unfold evaluateReuse.
  destruct (evaluatePath_answers reuse_tools reuseFact reuseInput o map_to_list 0) as [r ->]. reflexivity.
Qed.

Lemma reuse_requests : requests reuse_tools reuseFact reuseInput reuseRequest.
Proof.
  exact (requests_of reuse_tools reuseFact reuseInput sample_pass (Some [Some (mkBlock 0 [] [])])
    (mkIdentity "cast" "finding" ∅ [0]) [0] ["pkg.f"] evaluateReuse
    evaluateReuse_evaluates eq_refl eq_refl eq_refl).
Qed.

Lemma reuse_tools_transparent pass : transparent (valueIndexOf reuse_tools pass).
Proof. apply transparent_finish. Qed.

Lemma reuse_clean : clean_input reuseInput.
Proof.
  split; [by repeat split|]. intros edge Hin.
  change (graphEdges _) with [e_skip; e_log; e_join; e_call; e_return; e_use; e_exit] in Hin.
  repeat (apply elem_of_cons in Hin as [->|Hin]; [by repeat split|]). by apply elem_of_nil in Hin.
Qed.

Lemma reuse_uninjected : summaries_uninjected reuseInput.
Proof. by intros ?. Qed.

(** ** The path through [log] *)
Definition atStart : interprocPathEdge := rootPathEdge reuseInput.
Definition atLog : interprocPathEdge := localPathEdge reuseInput atStart e_log.
Definition atCall : interprocPathEdge := localPathEdge reuseInput atLog e_join.
Definition inCallee : interprocPathEdge := calleePathEdge reuseInput atCall e_call.
Definition atReturn : interprocPathEdge :=
  returnPathEdge (dependencyAt reuseInput atCall e_call e_return) (summaryAt reuseInput inCallee).
Definition atUse : interprocPathEdge := localPathEdge reuseInput atReturn e_use.

(** Every edge of the program is taken from an open obligation. *)
Lemma reuse_takes n edge :
  edge ∈ graphEdges reuseGraph -> NodeKey (From edge) = NodeKey n -> EKind edge <> interprocEdgeReturn ->
  returnEdgesFrom reuseGraph n = [] -> judge reuseInput n ideStateNeedsValidate = Clear ->
  takes reuseInput n ideStateNeedsValidate edge.
Proof.
  intros Hin Hk Hr He Hj. split_and!; [by right|done| |done|done]. by apply elem_of_outgoing.
Qed.

Ltac solve_reuse_takes :=
  apply reuse_takes; [|reflexivity|discriminate|vm_compute; reflexivity|vm_compute; reflexivity];
  apply (bool_decide_unpack _); vm_compute; exact I.

Lemma atCall_traced : traced reuseInput atCall.
Proof.
  apply trace_local; [apply trace_local; [apply trace_root|solve_reuse_takes|discriminate]|solve_reuse_takes|discriminate].
Qed.

Lemma atUse_traced : traced reuseInput atUse.
Proof.
  apply trace_local; [|solve_reuse_takes|discriminate]. apply trace_return; [apply atCall_traced| | |done..|].
  - split; [solve_reuse_takes|done| |done]. apply (bool_decide_unpack _). vm_compute. exact I.
  - apply trace_call; [apply atCall_traced|solve_reuse_takes|done].
  - right. vm_compute. reflexivity.
Qed.

Lemma atUse_path : rtc (moves reuseInput) (initialConfiguration reuseInput) (pe_node atUse, pe_state atUse, []).
Proof.
  eapply rtc_l; [by apply (move_local _ _ _ _ e_log); [solve_reuse_takes|]|].
  eapply rtc_l; [by apply (move_local _ _ _ _ e_join); [solve_reuse_takes|]|].
  eapply rtc_l; [by apply (move_call _ _ _ _ e_call); [solve_reuse_takes|]|].
  eapply rtc_l; [apply (move_return _ _ _ _ e_return); [right; vm_compute; reflexivity| |done..]|].
  { apply (bool_decide_unpack _). vm_compute. exact I. }
  apply rtc_once. exact (move_local reuseInput returnSite ideStateNeedsValidate [] e_use ltac:(solve_reuse_takes) ltac:(discriminate)).
Qed.

Lemma refinedReuse_answers :
  exists r cache clk, refinedReuse = (Some (r, cache), clk) /\ Class r = interprocOutcomeSafe.
Proof.
  assert ((Class ∘ fst) <$> fst refinedReuse = Some interprocOutcomeSafe) as H by (vm_compute; reflexivity).
  destruct refinedReuse as [[[r cache]|] clk]; [|discriminate H]. exists r, cache, clk. by injection H.
Qed.

(** C40. The whole analysis can answer safe although a feasible path violates the
    obligation.  In the program [if x != 1 { log() }; g(); if x != 1 { use(v) }] the first
    run reports the witness that skips [log]; its predicates contradict each other and
    it is discharged.  The witness through [log] reaches the same call in the same state
    and is not explored, since the dependency of the call is already registered: the
    second run is safe and ends the refinement, although the path edge at the use is traced
    to a violation along a valid path whose branches are all taken when x is 2. *)
Theorem feasible_witness_hidden_by_reuse :
  (exists r cache clk, refinedReuse = (Some (r, cache), clk) /\ Class r = interprocOutcomeSafe) /\
  traced reuseInput atUse /\
  rtc (moves reuseInput) (initialConfiguration reuseInput) (pe_node atUse, pe_state atUse, []) /\
  judge reuseInput (pe_node atUse) (pe_state atUse) = Violates /\
  edges_taken (fun _ => VInt 2) reuse_predicate (map WPredicateProvenance (pe_witness atUse)).
Proof.
  split; [exact refinedReuse_answers|]. split; [exact atUse_traced|]. split; [exact atUse_path|].
  split; [vm_compute; reflexivity|]. intros edge provenance He Hp.
  assert (forallb (forallb (fun p => formula_holds (fun _ => VInt 2)
    (outcome (cfgSSAFormulaFromPredicateProvenanceWithControl reuse_predicate p))))
    (map WPredicateProvenance (pe_witness atUse)) = true) as H by (vm_compute; reflexivity).
  rewrite forallb_forall in H. specialize (H _ (proj1 (list_elem_of_In _ _) He)).
  rewrite forallb_forall in H. exact (H _ (proj1 (list_elem_of_In _ _) Hp)).
Qed.

(** The theorem of the solver at this program. *)
Lemma refined_safe_verdict_is_justified_witness :
  exists r cache clk, refinedReuse = (Some (r, cache), clk) /\ Class r = interprocOutcomeSafe /\
  (judge reuseInput (pe_node atUse) (pe_state atUse) = Clear \/
   passes_certified reuse_tools reuseFact reuseInput reuseController reuseRequest (pe_node atUse, pe_state atUse, [])).
Proof.
  destruct refinedReuse_answers as (r & cache & clk & E & Hs). exists r, cache, clk. split; [exact E|]. split; [exact Hs|].
  generalize atUse_path. apply refined_safe_verdict_is_justified with (1 := reuse_tools_transparent)
    (2 := reuse_hashing) (3 := reuse_clean) (4 := reuse_uninjected) (5 := reuse_requests) (6 := E) (7 := Hs).
Defined.
