(* ===== verification/Dependencies.v ===== *)
(** * Dependency graphs

    The depth-first search for dependency cycles that
    [internal/soundnessgate/plan_model.go] ([validateDependencyCycles]) and
    [internal/soundnessgate/manifest_resources.go] ([validateDependencies]) run, over the
    function from an identifier to the identifiers it requires, and what it decides. *)

From S2P Require Export Prelude.

(** ** The search *)
Section Visit.
Context (requires : string -> list string).

(** The identifiers on the stack of the search and those it has left. *)
Definition searchState : Type := gset string * gset string.

(** A search ends with the identifier a cycle includes or in a state. *)
Definition searchResult : Type := string + searchState.

Fixpoint visitAll (f : string -> searchState -> option searchResult) (ids : list string) (st : searchState)
    : option searchResult :=
  match ids with
  | [] => Some (inr st)
  | id :: rest =>
      r ← f id st;
      match r with
      | inl cycle => Some (inl cycle)
      | inr st' => visitAll f rest st'
      end
  end.

Fixpoint visit (fuel : nat) (id : string) (st : searchState) : option searchResult :=
  match fuel with
  | O => None
  | S fuel' =>
      let '(visiting, visited) := st in
      if bool_decide (id ∈ visiting) then Some (inl id)
      else if bool_decide (id ∈ visited) then Some (inr st)
      else
        r ← visitAll (visit fuel') (requires id) ({[id]} ∪ visiting, visited);
        match r with
        | inl cycle => Some (inl cycle)
        | inr (visiting', visited') => Some (inr (visiting' ∖ {[id]}, {[id]} ∪ visited'))
        end
  end.

(** [visit] for every identifier of a list, from nothing visited. *)
Definition search (fuel : nat) (ids : list string) : option (option string) :=
  (fun r => match r with inl cycle => Some cycle | inr _ => None end) <$> visitAll (visit fuel) ids (∅, ∅).

(** ** What it decides *)
Definition depends (x y : string) : Prop := y ∈ requires x.
Definition acyclic : Prop := forall x, ~ tc depends x x.

(** Identifiers the search has left lie on no cycle, and neither does what they require. *)
Record left_behind (visited : gset string) : Prop := {
  left_closed x y : x ∈ visited -> depends x y -> y ∈ visited;
  left_acyclic x : x ∈ visited -> ~ tc depends x x;
}.

Lemma left_behind_rtc visited x y : left_behind visited -> x ∈ visited -> rtc depends x y -> y ∈ visited.
Proof. intros Hl Hx H. induction H as [|x y z Hxy _ IH]; [done|]. by apply IH, (left_closed _ Hl x). Qed.

Lemma left_behind_add visited id :
  left_behind visited -> id ∉ visited -> (forall d, depends id d -> d ∈ visited) -> left_behind ({[id]} ∪ visited).
Proof.
  intros Hl Hn Hd. split.
  - intros x y [->%elem_of_singleton|Hx]%elem_of_union Hxy; apply elem_of_union; right; [by apply Hd|].
    by apply (left_closed _ Hl x).
  - intros x [->%elem_of_singleton|Hx]%elem_of_union Hc; [|by apply (left_acyclic _ Hl x)].
    apply Hn. inversion Hc as [? ? H|? d ? H Hr]; subst; [by apply Hd|].
    apply (left_behind_rtc _ d id); [done|by apply Hd|]. by apply tc_rtc.
Qed.

(** The outcome of a search from [id] under a stack each element of which leads to [id]. *)
Definition visits (visiting visited : gset string) (ids : list string) (r : searchResult) : Prop :=
  match r with
  | inl cycle => tc depends cycle cycle
  | inr (visiting', visited') =>
      visiting' = visiting /\ visited ⊆ visited' /\ left_behind visited' /\ visiting ## visited' /\
      Forall (.∈ visited') ids
  end.

Lemma visitAll_spec f ids : forall visiting visited r,
  (forall id visited0 r0, id ∈ ids -> left_behind visited0 -> visiting ## visited0 ->
    f id (visiting, visited0) = Some r0 -> visits visiting visited0 [id] r0) ->
  left_behind visited -> visiting ## visited ->
  visitAll f ids (visiting, visited) = Some r -> visits visiting visited ids r.
Proof.
  induction ids as [|id ids IH]; intros visiting visited r Hf Hl Hd E; cbn [visitAll] in E.
  { injection E as <-. by repeat (split; [done|]). }
  apply bind_Some in E as (r1 & E1 & E). apply Hf in E1; [|by left|done|done].
  destruct r1 as [cycle|[visiting1 visited1]]; [by injection E as <-|].
  destruct E1 as (-> & Hs & Hl1 & Hd1 & Hi). rewrite Forall_singleton in Hi. apply IH in E; [|by intros; eapply Hf; [by right|..]|done|done].
  destruct r as [|[visiting2 visited2]]; [done|]. destruct E as (-> & Hs2 & Hl2 & Hd2 & Hi2).
  split; [done|]. split; [by transitivity visited1|]. split; [done|]. split; [done|]. apply Forall_cons. split; [exact (Hs2 _ Hi)|done].
Qed.

Lemma visit_spec fuel : forall id visiting visited r,
  (forall x, x ∈ visiting -> tc depends x id) -> left_behind visited -> visiting ## visited ->
  visit fuel id (visiting, visited) = Some r -> visits visiting visited [id] r.
Proof.
  induction fuel as [|fuel IH]; intros id visiting visited r Hstack Hl Hd E; cbn [visit] in E; [done|].
  case_bool_decide as Hv; [injection E as <-; by apply Hstack|].
  case_bool_decide as Hw; [injection E as <-; by repeat (split; [done|]); apply Forall_singleton|].
  apply bind_Some in E as (r1 & E1 & E). apply visitAll_spec in E1; [| |done|set_solver].
  - destruct r1 as [cycle|[visiting1 visited1]]; injection E as <-; [done|].
    destruct E1 as (-> & Hs & Hl1 & Hd1 & Hi). rewrite Forall_forall in Hi.
    split; [set_solver|]. split; [set_solver|].
    split; [apply left_behind_add; [done|set_solver|intros d Hdep; by apply Hi]|]. split; [set_solver|].
    apply Forall_singleton. set_solver.
  - intros d visited0 r0 Hin Hl0 Hd0. apply IH; [|done|done].
    intros x [->%elem_of_singleton|Hx]%elem_of_union; [by apply tc_once|]. by eapply tc_r; [apply Hstack|].
Qed.

(** The search from [ids] reports a cycle exactly when one is reachable. *)
Lemma search_spec fuel ids result :
  search fuel ids = Some result ->
  match result with
  | Some cycle => tc depends cycle cycle
  | None => forall id x, id ∈ ids -> rtc depends id x -> ~ tc depends x x
  end.
Proof.
  unfold search. intros (r & E & ->)%fmap_Some. assert (left_behind ∅) as Hl by (split; set_solver).
  apply visitAll_spec in E; [| |done|set_solver].
  - destruct r as [cycle|[visiting visited]]; [done|]. destruct E as (_ & _ & Hv & _ & Hi).
    rewrite Forall_forall in Hi. intros id x Hid Hx. apply (left_acyclic _ Hv), (left_behind_rtc _ id); auto.
  - intros id visited0 r0 _ Hl0 Hd0. apply visit_spec; [set_solver|done|done].
Qed.

(** ** Termination *)
Context (universe : gset string) (Huniverse : forall x y, depends x y -> y ∈ universe).

Lemma visitAll_total f ids : forall visiting visited,
  (forall id visited0, id ∈ ids -> is_Some (f id (visiting, visited0))) ->
  (forall id visited0 visiting' visited', id ∈ ids ->
     f id (visiting, visited0) = Some (inr (visiting', visited')) -> visiting' = visiting) ->
  is_Some (visitAll f ids (visiting, visited)).
Proof.
  induction ids as [|id ids IH]; intros visiting visited Hf Hk; cbn [visitAll]; [done|].
  destruct (Hf id visited ltac:(left)) as [r E]. rewrite E. cbn. destruct r as [|[visiting' visited']]; [done|].
  apply Hk in E as ->; [|left]. apply IH; intros; [apply Hf|eapply Hk]; try done; by right.
Qed.

(** The stack of the search is restored. *)
Lemma visitAll_stack f ids : forall visiting visited visiting' visited',
  (forall id visited0 visiting' visited', id ∈ ids ->
     f id (visiting, visited0) = Some (inr (visiting', visited')) -> visiting' = visiting) ->
  visitAll f ids (visiting, visited) = Some (inr (visiting', visited')) -> visiting' = visiting.
Proof.
  induction ids as [|id ids IH]; intros visiting visited visiting' visited' Hk E; cbn [visitAll] in E; [by injection E|].
  apply bind_Some in E as ([cycle|[visiting1 visited1]] & E1 & E); [done|]. apply Hk in E1 as ->; [|left].
  refine (IH _ _ _ _ _ E). intros ???? Hin. by apply Hk; right.
Qed.

Lemma visit_stack fuel : forall id visiting visited visiting' visited',
  visit fuel id (visiting, visited) = Some (inr (visiting', visited')) -> visiting' = visiting.
Proof.
  induction fuel as [|fuel IH]; intros id visiting visited visiting' visited' E; cbn [visit] in E; [done|].
  case_bool_decide; [done|]. case_bool_decide; [by injection E|].
  apply bind_Some in E as ([cycle|[visiting1 visited1]] & E1 & E); [done|]. injection E as <- <-.
  apply visitAll_stack in E1 as ->; [set_solver|]. intros; by eapply IH.
Qed.

Lemma visit_total fuel : forall id visiting visited,
  id ∈ universe -> visiting ⊆ universe -> (size (universe ∖ visiting) < fuel)%nat ->
  is_Some (visit fuel id (visiting, visited)).
Proof.
  induction fuel as [|fuel IH]; intros id visiting visited Hid Hsub Hlt; cbn [visit]; [lia|].
  case_bool_decide as Hv; [done|]. case_bool_decide; [done|].
  destruct (visitAll_total (visit fuel) (requires id) ({[id]} ∪ visiting) visited) as [r E].
  - intros d visited0 Hd. apply IH; [by apply (Huniverse id)|set_solver|].
    assert (universe ∖ visiting = {[id]} ∪ universe ∖ ({[id]} ∪ visiting)) as Heq.
    { apply set_eq. intros x. destruct (decide (x = id)); set_solver. }
    rewrite Heq, size_union, size_singleton in Hlt by set_solver. lia.
  - intros d visited0 visiting' visited' _. apply visit_stack.
  - rewrite E. cbn. by destruct r as [|[? ?]].
Qed.

Lemma search_total fuel ids :
  Forall (.∈ universe) ids -> (size universe < fuel)%nat -> is_Some (search fuel ids).
Proof.
  intros Hids Hlt. rewrite Forall_forall in Hids. apply fmap_is_Some, visitAll_total.
  - intros id visited0 Hid. apply visit_total; [by apply Hids|set_solver|]. by rewrite difference_empty_L.
  - intros id visited0 visiting' visited' _. apply visit_stack.
Qed.
End Visit.

(** ** Minimal elements *)

(** From an element of a set the requirements in the set lead to one that requires
    nothing in the set, unless they lead into a cycle. *)
Lemma minimal_from (requires : string -> list string) (X : gset string) n : forall (path : gset string) x,
  (forall z, z ∈ X -> ~ tc (depends requires) z z) -> x ∈ X -> x ∉ path ->
  (forall z, z ∈ path -> tc (depends requires) z x) -> (size (X ∖ path) <= n)%nat ->
  exists m, m ∈ X /\ forall y, depends requires m y -> y ∉ X.
Proof.
  induction n as [|n IH]; intros path x Ha Hx Hp Hpath Hn.
  { apply Nat.le_0_r, size_empty_inv in Hn. set_solver. }
  destruct (decide (Exists (.∈ X) (requires x))) as [(y & Hxy & Hy)%Exists_exists|Hnone].
  - assert (y ∉ {[x]} ∪ path) as Hnew.
    { intros [->%elem_of_singleton|Hyp]%elem_of_union; apply (Ha x Hx); [by apply tc_once|].
      eapply tc_l; [exact Hxy|by apply Hpath]. }
    apply (IH ({[x]} ∪ path) y); [done|done|done| |].
    + intros z [->%elem_of_singleton|Hz]%elem_of_union; [by apply tc_once|]. by eapply tc_r; [apply Hpath|].
    + assert (X ∖ path = {[x]} ∪ X ∖ ({[x]} ∪ path)) as Heq.
      { apply set_eq. intros z. destruct (decide (z = x)); set_solver. }
      rewrite Heq, size_union, size_singleton in Hn by set_solver. lia.
  - exists x. split; [done|]. intros y Hxy Hy. apply Hnone, Exists_exists. by exists y.
Qed.

Lemma acyclic_minimal (requires : string -> list string) (X : gset string) :
  (forall x, x ∈ X -> ~ tc (depends requires) x x) -> X <> ∅ ->
  exists x, x ∈ X /\ forall y, depends requires x y -> y ∉ X.
Proof.
  intros Ha Hne. destruct (set_choose_L X Hne) as [x Hx].
  by apply (minimal_from requires X (size (X ∖ ∅)) ∅ x); [done|done|set_solver..|].
Qed.
