(* ===== verification/GoStrings.v ===== *)
(** * Strings and slash paths

    What the repository's orchestration code uses of the packages [strings] and
    [path/filepath]: trimming of white space, searching, and the lexical processing of
    paths on a system whose separator is the slash.  Strings are sequences of bytes. *)

From S2P Require Export Prelude.

(** ** Bytes *)
Definition bytes (codes : list nat) : string :=
  String.string_of_list_ascii (map Ascii.ascii_of_nat codes).

(** [s] without the prefix [p]; the second result of [strings.CutPrefix]. *)
Fixpoint cut_prefix (p s : string) : option string :=
  match p, s with
  | EmptyString, _ => Some s
  | String a p', String b s' => if Ascii.eqb a b then cut_prefix p' s' else None
  | _, _ => None
  end.

Fixpoint string_rev (s : string) : string :=
  match s with EmptyString => "" | String c rest => string_rev rest +:+ String c "" end.

(** ** White space

    The characters [unicode.IsSpace] accepts, in UTF-8. *)
Definition white_space : list string :=
  map bytes ([[9]; [10]; [11]; [12]; [13]; [32]; [194; 133]; [194; 160]; [225; 154; 128]] ++
    map (fun last => [226; 128; last]) (seq 128 11) ++
    [[226; 128; 168]; [226; 128; 169]; [226; 128; 175]; [226; 129; 159]; [227; 128; 128]])%nat.

(** [s] without a first character among [spaces]. *)
Definition strip_space (spaces : list string) (s : string) : option string :=
  foldr (fun space rest => match cut_prefix space s with Some s' => Some s' | None => rest end) None spaces.

(** A space has a byte, so the length of the string is enough fuel. *)
Fixpoint trim_left (spaces : list string) (fuel : nat) (s : string) : string :=
  match fuel with
  | O => s
  | S fuel' => match strip_space spaces s with Some rest => trim_left spaces fuel' rest | None => s end
  end.

Definition strings_TrimSpace (s : string) : string :=
  let left := trim_left white_space (String.length s) s in
  string_rev (trim_left (map string_rev white_space) (String.length left) (string_rev left)).

(** ** Searching *)
Fixpoint strings_Contains (s sub : string) : bool :=
  String.prefix sub s || match s with EmptyString => false | String _ rest => strings_Contains rest sub end.

Definition strings_ContainsAny (s : string) (chars : list Ascii.ascii) : bool :=
  existsb (fun c => has_char c s) chars.

(** Upper-case ASCII letters in lower case.  Of the other letters Go maps only
    those that become [k] and [i] to ASCII, which no word compared with the result has. *)
Definition lower_char (c : Ascii.ascii) : Ascii.ascii :=
  let code := Ascii.nat_of_ascii c in
  if (65 <=? code) && (code <=? 90) then Ascii.ascii_of_nat (code + 32) else c.

Fixpoint strings_ToLower (s : string) : string :=
  match s with EmptyString => "" | String c rest => String (lower_char c) (strings_ToLower rest) end.

(** ** Paths *)
Definition slash : Ascii.ascii := Ascii.Ascii true true true true false true false false.

(** The parts of a string between a character: never empty. *)
Fixpoint split_on (c : Ascii.ascii) (s : string) : list string :=
  match s with
  | EmptyString => [""]
  | String a rest =>
      if Ascii.eqb a c then "" :: split_on c rest
      else match split_on c rest with [] => [String a ""] | part :: parts => String a part :: parts end
  end.

Definition components (path : string) : list string := split_on slash path.

Definition filepath_IsAbs (path : string) : bool := strings_HasPrefix path "/".

(** One component of a path onto the components before it, in reverse. *)
Definition cleanStep (rooted : bool) (before : list string) (component : string) : list string :=
  if String.eqb component "" || String.eqb component "." then before
  else if String.eqb component ".." then
    match before with
    | last :: rest => if String.eqb last ".." then ".." :: before else rest
    | [] => if rooted then [] else [".."]
    end
  else component :: before.

Definition filepath_Clean (path : string) : string :=
  if String.eqb path "" then "."
  else
    let rooted := filepath_IsAbs path in
    let cleaned := strings_Join (rev (foldl (cleanStep rooted) [] (components path))) "/" in
    if rooted then "/" +:+ cleaned else if String.eqb cleaned "" then "." else cleaned.

(** The last component that is not empty; a slash for a path of slashes. *)
Definition filepath_Base (path : string) : string :=
  if String.eqb path "" then "."
  else match List.find (fun c => negb (String.eqb c "")) (rev (components path)) with
       | Some c => c
       | None => "/"
       end.

(** The suffix of the last component from its last dot. *)
Definition filepath_Ext (path : string) : string :=
  let dot := Ascii.Ascii false true true true false true false false in
  match rev (split_on dot (default "" (last (components path)))) with
  | suffix :: _ :: _ => String dot suffix
  | _ => ""
  end.

(** ** Lemmas *)
Lemma split_on_cons c s : exists part parts, split_on c s = part :: parts.
Proof.
  induction s as [|a s (part & parts & E)]; cbn; [by eexists _, _|]. destruct (Ascii.eqb a c); [by eexists _, _|].
  rewrite E. by eexists _, _.
Qed.

Lemma split_on_free c s : Forall (fun part => has_char c part = false) (split_on c s).
Proof.
  induction s as [|a s IH]; cbn; [by repeat constructor|]. destruct (Ascii.eqb a c) eqn:Ea; [by constructor|].
  destruct (split_on_cons c s) as (part & parts & E). rewrite E in *. inversion IH; subst.
  constructor; [|done]. cbn. rewrite Ascii.eqb_sym, Ea. by rewrite orb_false_l.
Qed.

Lemma split_on_app c s rest : has_char c s = false -> split_on c (s +:+ String c rest) = s :: split_on c rest.
Proof.
  induction s as [|a s IH]; intros H; rewrite ?string_app_nil_l, ?string_app_cons; cbn.
  { by rewrite Ascii.eqb_refl. }
  cbn in H. apply orb_false_iff in H as [H1 H2]. rewrite Ascii.eqb_sym, H1, IH by done. done.
Qed.

Lemma split_on_none c s : has_char c s = false -> split_on c s = [s].
Proof.
  induction s as [|a s IH]; intros H; cbn; [done|]. cbn in H. apply orb_false_iff in H as [H1 H2].
  rewrite Ascii.eqb_sym, H1, IH by done. done.
Qed.

(** Splitting is the inverse of joining. *)
Lemma components_Join parts :
  parts <> [] -> Forall (fun part => has_char slash part = false) parts ->
  components (strings_Join parts "/") = parts.
Proof.
  intros Hne H. induction H as [|part parts Hp _ IH]; [done|]. destruct parts as [|q parts].
  - by apply split_on_none.
  - change (strings_Join (part :: q :: parts) "/") with (part +:+ "/" +:+ strings_Join (q :: parts) "/").
    change ("/" +:+ strings_Join (q :: parts) "/") with (String slash (strings_Join (q :: parts) "/")).
    unfold components in *. by rewrite split_on_app, IH by done.
Qed.

Lemma Join_components path : strings_Join (components path) "/" = path.
Proof.
  unfold components. induction path as [|a path IH]; cbn; [done|].
  destruct (split_on_cons slash path) as (part & parts & E). rewrite E in *.
  destruct (Ascii.eqb_spec a slash) as [->|Hne].
  - change (strings_Join ("" :: part :: parts) "/") with ("" +:+ "/" +:+ strings_Join (part :: parts) "/").
    by rewrite IH.
  - destruct parts as [|q parts]; cbn in IH |- *; [by rewrite IH|]. by rewrite string_app_cons, IH.
Qed.

(** A component that names an entry of the directory before it. *)
Definition proper (component : string) : Prop := component <> "" /\ component <> "." /\ component <> "..".

Lemma cleanStep_proper rooted before component :
  proper component -> cleanStep rooted before component = component :: before.
Proof.
  intros (H1 & H2 & H3). unfold cleanStep.
  apply String.eqb_neq in H1 as ->. apply String.eqb_neq in H2 as ->. by apply String.eqb_neq in H3 as ->.
Qed.

(** The components kept by the cleaning of a relative path: parents first. *)
Definition cleaned (before : list string) : Prop :=
  exists up down, before = down ++ up /\ Forall (eq "..") up /\
    Forall (fun c => proper c /\ has_char slash c = false) down.

Lemma cleanStep_cleaned before component :
  cleaned before -> has_char slash component = false -> cleaned (cleanStep false before component).
Proof.
  intros (up & down & -> & Hup & Hdown) Hc. unfold cleanStep.
  destruct (String.eqb_spec component "") as [|H1]; [by exists up, down|].
  destruct (String.eqb_spec component ".") as [|H2]; [by exists up, down|]. cbn [orb].
  destruct (String.eqb_spec component "..") as [|H3].
  - destruct down as [|last down]; cbn [app].
    + destruct up as [|last up]; [exists [".."], []; by repeat constructor|]. inversion Hup; subst. cbn.
      exists (".." :: ".." :: up), []. by repeat constructor.
    + inversion Hdown as [|? ? [(_ & _ & Hl) _] Hd]; subst. apply String.eqb_neq in Hl as ->. by exists up, down.
  - exists up, (component :: down). split; [done|]. split; [done|]. by constructor.
Qed.

Lemma clean_cleaned parts : forall before,
  cleaned before -> Forall (fun c => has_char slash c = false) parts ->
  cleaned (foldl (cleanStep false) before parts).
Proof.
  induction parts as [|c parts IH]; intros before Hb H; inversion H; subst; [done|]. cbn.
  apply IH; [by apply cleanStep_cleaned|done].
Qed.

Lemma clean_proper rooted parts : forall before,
  Forall proper parts -> foldl (cleanStep rooted) before parts = rev parts ++ before.
Proof.
  induction parts as [|c parts IH]; intros before H; inversion H; subst; [done|]. cbn.
  rewrite cleanStep_proper, IH by done. by rewrite <- app_assoc.
Qed.

(** The first component of a path. *)
Lemma first_component first path :
  has_char slash first = false ->
  (String.eqb path first || strings_HasPrefix path (first +:+ "/")) = true <-> head (components path) = Some first.
Proof.
  intros Hf. rewrite orb_true_iff, String.eqb_eq. split.
  - intros [->|[rest ->]%prefix_inv]; unfold components; [by rewrite split_on_none|].
    rewrite string_app_assoc. change ("/" +:+ rest) with (String slash rest). by rewrite split_on_app.
  - intros H. destruct (components path) as [|c parts] eqn:E; [done|]. injection H as ->.
    rewrite <- (Join_components path), E. destruct parts as [|q parts]; [by left|right].
    change (strings_Join (first :: q :: parts) "/") with (first +:+ "/" +:+ strings_Join (q :: parts) "/").
    rewrite <- string_app_assoc. apply prefix_app.
Qed.

(** A relative path whose components are proper is clean. *)
Lemma clean_relative path :
  path <> "" -> filepath_IsAbs path = false -> Forall proper (components path) -> filepath_Clean path = path.
Proof.
  intros Hne Ha Hp. unfold filepath_Clean. apply String.eqb_neq in Hne as E. rewrite E, Ha.
  rewrite clean_proper, app_nil_r, rev_involutive, Join_components, E by done. done.
Qed.

(** A clean relative path is a dot, or leads up, or has proper components. *)
Lemma clean_components path :
  filepath_IsAbs path = false -> filepath_Clean path = path -> path <> "." ->
  head (components path) <> Some ".." -> Forall proper (components path).
Proof.
  intros Ha Hc Hdot Hup. unfold filepath_Clean in Hc. destruct (String.eqb_spec path "") as [->|Hne]; [done|].
  rewrite Ha in Hc. destruct (String.eqb_spec (strings_Join (rev (foldl (cleanStep false) [] (components path))) "/") "");
    [done|]. destruct (clean_cleaned (components path) []) as (up & down & E & Hups & Hdown);
    [by exists [], []|apply split_on_free|]. rewrite E in Hc.
  assert (rev (down ++ up) <> []) as Hnil by (intros En; by rewrite En in Hc).
  assert (components path = rev (down ++ up)) as Hcomp.
  { rewrite <- Hc at 1. apply components_Join; [done|]. apply Forall_rev, Forall_app.
    split; [by apply (Forall_impl _ _ _ Hdown); intros c []|]. by apply (Forall_impl _ _ _ Hups); intros c <-. }
  rewrite Hcomp, rev_app_distr in *. destruct up as [|u up].
  - apply Forall_rev. apply (Forall_impl _ _ _ Hdown). by intros c [].
  - exfalso. assert (exists rest, rev (u :: up) = ".." :: rest) as [rest Er].
    { apply Forall_rev in Hups. destruct (rev (u :: up)) as [|c rest] eqn:Er.
      - apply (f_equal (@rev string)) in Er. by rewrite rev_involutive in Er.
      - inversion Hups; subst. by exists rest. }
    by rewrite Er in Hup.
Qed.
