(* ===== verification/Checks.v ===== *)
(** * Errors and checks

    The error values of Go and the early-return style of the validation code of
    [internal/soundnessgate] and [internal/soundnessevidence], with the checks on identifiers
    and repository paths their validators share. *)

From S2P Require Export GoStrings.

(** ** Errors

    [fmt.Errorf]: the format, the printed arguments and the error it wraps. *)
Inductive goError : Set :=
  | Errorf (format : string) (args : list string)
  | Wrapf (format : string) (args : list string) (cause : goError).

(** A result or an error. *)
Definition checked (A : Type) : Type := (goError + A)%type.

#[export] Instance checked_ret : MRet checked := fun A a => inr a.
#[export] Instance checked_bind : MBind checked :=
  fun A B f m => match m with inl e => inl e | inr a => f a end.

(** [if b { return error }]. *)
Definition reject_if (b : bool) (format : string) (args : list string) : checked unit :=
  if b then inl (Errorf format args) else inr tt.

(** [if err := m; err != nil { return fmt.Errorf(format, err) }]. *)
Definition wrapped {A} (format : string) (args : list string) (m : checked A) : checked A :=
  match m with inl e => inl (Wrapf format args e) | inr a => inr a end.

(** A loop over a slice with its index that stops at the first error. *)
Fixpoint forEach {A S} (f : Z -> A -> S -> checked S) (index : Z) (l : list A) (s : S) : checked S :=
  match l with
  | [] => mret s
  | a :: rest => s' ← f index a s; forEach f (index + 1)%Z rest s'
  end.

Lemma checked_bind_inr {A B} (m : checked A) (f : A -> checked B) b :
  (m ≫= f) = inr b <-> exists a, m = inr a /\ f a = inr b.
Proof.
  destruct m as [e|a]; cbn; split; [done|by intros (? & ? & _)|by exists a|by intros (? & [= <-] & ?)].
Qed.

Lemma reject_if_inr b format args u : reject_if b format args = inr u <-> b = false.
Proof. unfold reject_if. destruct b, u; done. Qed.

Lemma wrapped_inr {A} format args (m : checked A) a : wrapped format args m = inr a <-> m = inr a.
Proof. destruct m; cbn; [done|]. split; by intros [= ->]. Qed.

(** Opens the checks of a hypothesis that a validator succeeds. *)
Ltac checks H :=
  repeat first
    [ apply checked_bind_inr in H as ([] & ?%reject_if_inr & H)
    | apply checked_bind_inr in H as ([] & ?%wrapped_inr & H)
    | apply checked_bind_inr in H as ([] & ? & H) ].

(** A loop that succeeds keeps what each of its steps keeps. *)
Lemma forEach_inv {A S} (P : list A -> S -> Prop) f (l : list A) : forall index before s s',
  (forall i before a s s', f i a s = inr s' -> P before s -> P (before ++ [a]) s') ->
  P before s -> forEach f index l s = inr s' -> P (before ++ l) s'.
Proof.
  induction l as [|a l IH]; intros index before s s' Hf Hp E; cbn [forEach] in E.
  { injection E as <-. by rewrite app_nil_r. }
  apply checked_bind_inr in E as (s1 & E1 & E). rewrite cons_middle, app_assoc. eapply IH; [exact Hf|by eapply Hf|exact E].
Qed.

Lemma forEach_holds {A} (P : A -> Prop) f (l : list A) index u :
  (forall i a u, f i a () = inr u -> P a) -> forEach f index l () = inr u -> Forall P l.
Proof.
  intros Hf H. apply (forEach_inv (fun l _ => Forall P l) _ _ index []) in H; [done| |constructor].
  intros i before a [] u' E Hb. apply Forall_app. split; [done|]. apply Forall_singleton. by eapply Hf.
Qed.

Ltac open_checks :=
  repeat match goal with
  | H : (_ ≫= _) = inr _ |- _ => apply checked_bind_inr in H as (? & ? & H)
  | H : reject_if _ _ _ = inr _ |- _ => apply reject_if_inr in H
  | H : wrapped _ _ _ = inr _ |- _ => apply wrapped_inr in H
  | H : bool_decide _ = false |- _ => apply bool_decide_eq_false in H
  | H : negb (bool_decide _) = false |- _ => apply negb_false_iff, bool_decide_eq_true in H
  | H : negb _ = false |- _ => apply negb_false_iff in H
  | H : _ || _ = false |- _ => apply orb_false_iff in H as [? ?]
  | H : inr _ = inr _ |- _ => injection H as <-
  | H : mret _ = inr _ |- _ => injection H as <-
  | u : () |- _ => destruct u
  end.

(** ** Maps built by a loop *)

(** A map built from a list of values with distinct keys. *)
Definition indexed {A B} (key : A -> string) (value : A -> B) (l : list A) (m : gmap string B) : Prop :=
  NoDup (map key l) /\ forall k b, m !! k = Some b <-> exists a, a ∈ l /\ key a = k /\ value a = b.

Lemma indexed_nil {A B} (key : A -> string) (value : A -> B) : indexed key value [] ∅.
Proof.
  split; [constructor|]. intros k b. rewrite lookup_empty. split; [done|]. by intros (a & ?%elem_of_nil & _).
Qed.

Lemma indexed_snoc {A B} (key : A -> string) (value : A -> B) l m a :
  indexed key value l m -> m !! key a = None -> indexed key value (l ++ [a]) (<[key a := value a]> m).
Proof.
  intros [Hd Hm] Hn. split.
  - rewrite map_app. apply NoDup_app. split_and!; [done| |apply NoDup_singleton].
    intros k (a' & -> & Ha)%list_elem_of_fmap Hk%list_elem_of_singleton.
    assert (m !! key a' = Some (value a')) as E by (apply Hm; eauto). by rewrite Hk, Hn in E.
  - intros k b. rewrite lookup_insert_Some, Hm. split.
    + intros [[<- <-]|[_ (a' & ? & ? & ?)]]; [exists a; set_solver|exists a'; set_solver].
    + intros (a' & [Ha| ->%list_elem_of_singleton]%elem_of_app & <- & <-); [right|by left].
      split; [|by exists a']. intros E. assert (m !! key a' = Some (value a')) as E' by (apply Hm; eauto).
      by rewrite <- E, Hn in E'.
Qed.

Lemma indexed_dom {A B} (key : A -> string) (value : A -> B) l m k :
  indexed key value l m -> is_Some (m !! k) <-> k ∈ map key l.
Proof.
  intros [_ Hm]. rewrite list_elem_of_fmap. split.
  - intros [b (a & Ha & <- & _)%Hm]. by exists a.
  - intros (a & -> & Ha). exists (value a). apply Hm. eauto.
Qed.

Lemma indexed_size {A B} (key : A -> string) (value : A -> B) l m : indexed key value l m -> size m = length l.
Proof.
  intros H. rewrite <- size_dom. assert (dom m = list_to_set (map key l)) as ->.
  { apply set_eq. intros k. rewrite elem_of_dom, elem_of_list_to_set. by apply (indexed_dom key value l). }
  rewrite size_list_to_set by apply H. by rewrite length_fmap.
Qed.

(** ** Identifiers *)
Definition validateIdentifier (name value : string) : checked unit :=
  reject_if (String.eqb (strings_TrimSpace value) "") "%s is empty" [name] ;;
  reject_if (negb (String.eqb value (strings_TrimSpace value))) "%s %q has surrounding whitespace" [name; value].

(** [slices.IsSorted]: no element is less than the one before it. *)
Fixpoint slices_IsSorted (values : list string) : bool :=
  match values with
  | a :: (b :: _) as rest => negb (str_ltb b a) && slices_IsSorted rest
  | _ => true
  end.

Definition canonicalStep (name : string) (index : Z) (value : string) (seen : gset string) : checked (gset string) :=
  validateIdentifier (name +:+ "[" +:+ itoa index +:+ "]") value ;;
  reject_if (bool_decide (value ∈ seen)) "%s contains duplicate %q" [name; value] ;;
  mret ({[value]} ∪ seen).

Definition validateCanonicalIdentifiers (name : string) (values : list string) : checked unit :=
  _ ← forEach (canonicalStep name) 0 values ∅;
  reject_if (negb (slices_IsSorted values)) "%s must use canonical lexical order" [name].

(** ** Repository paths *)
Definition validateRepositoryPath (name path : string) (allowDot : bool) : checked unit :=
  reject_if (String.eqb (strings_TrimSpace path) "" || filepath_IsAbs path || strings_Contains path "\")
    "%s %q must be a repository-relative slash path" [name; path] ;;
  reject_if (negb (String.eqb (filepath_Clean path) path) || (negb allowDot && String.eqb path ".") ||
             String.eqb path ".." || strings_HasPrefix path "../")
    "%s %q is not a clean repository-relative path" [name; path] ;;
  reject_if (String.eqb path ".git" || strings_HasPrefix path ".git/")
    "%s %q may not address git metadata" [name; path].

Definition validateReportFile (index : Z) (path : string) : checked unit :=
  validateRepositoryPath ("soundness manifest subgates[" +:+ itoa index +:+ "].report_file") path false ;;
  reject_if (negb (String.eqb (filepath_Base path) path))
    "soundness manifest subgates[%d].report_file %q must be a file name" [itoa index; path] ;;
  reject_if (negb (String.eqb (filepath_Ext path) ".json"))
    "soundness manifest subgates[%d].report_file %q must use .json" [itoa index; path].

(** ** Digests *)
Definition hex_char (c : Ascii.ascii) : bool :=
  let code := Ascii.nat_of_ascii c in
  ((48 <=? code) && (code <=? 57) || (97 <=? code) && (code <=? 102))%nat.

Fixpoint all_chars (f : Ascii.ascii -> bool) (s : string) : bool :=
  match s with EmptyString => true | String c rest => f c && all_chars f rest end.

(** [^sha256:[0-9a-f]{64}$] *)
Definition digestPattern (digest : string) : bool :=
  match cut_prefix "sha256:" digest with
  | Some rest => (String.length rest =? 64)%nat && all_chars hex_char rest
  | None => false
  end.

Definition ValidateDigest (name digest : string) : checked unit :=
  reject_if (negb (digestPattern digest)) "%s %q is not a canonical SHA-256 digest" [name; digest].

(** ** What they accept *)
Definition identifier (value : string) : Prop := strings_TrimSpace value = value /\ value <> "".

Lemma validateIdentifier_inr name value u : validateIdentifier name value = inr u <-> identifier value.
Proof.
  unfold validateIdentifier, identifier. destruct u. split.
  - intros H. checks H. apply reject_if_inr in H. apply negb_false_iff, String.eqb_eq in H.
    split; [done|]. intros ->. by match goal with E : String.eqb _ _ = false |- _ => cbn in E end.
  - intros [E Hne]. rewrite E. unfold reject_if. rewrite String.eqb_refl. by destruct (String.eqb_spec value "").
Qed.

(** Identifiers in strictly increasing order. *)
Definition canonical (values : list string) : Prop :=
  Forall identifier values /\ NoDup values /\ StronglySorted String.le values.

Lemma slices_IsSorted_spec values : slices_IsSorted values = true <-> StronglySorted String.le values.
Proof.
  split.
  - intros H. apply Sorted_StronglySorted; [apply _|]. induction values as [|a [|b l] IH]; [constructor|by repeat constructor|].
    cbn [slices_IsSorted] in H. apply andb_true_iff in H as [H1 H2]. constructor; [by apply IH|]. constructor.
    apply str_leb_le. rewrite str_ltb_not_leb, negb_involutive in H1. done.
  - induction 1 as [|a [|b l] _ IH Hall]; [done..|]. cbn [slices_IsSorted] in *. inversion Hall; subst.
    rewrite IH, andb_true_r, str_ltb_not_leb, negb_involutive. by apply str_leb_le.
Qed.

Lemma canonicalStep_inr name index value seen seen' :
  canonicalStep name index value seen = inr seen' <->
  identifier value /\ value ∉ seen /\ seen' = {[value]} ∪ seen.
Proof.
  unfold canonicalStep. split.
  - intros ([] & Hi%validateIdentifier_inr & H)%checked_bind_inr.
    apply checked_bind_inr in H as ([] & Hn%reject_if_inr%bool_decide_eq_false & [= <-]). done.
  - intros (Hi & Hn & ->). apply (validateIdentifier_inr (name +:+ "[" +:+ itoa index +:+ "]") value tt) in Hi.
    rewrite Hi. cbn. unfold reject_if. by rewrite bool_decide_eq_false_2.
Qed.

(** The loop over identifiers ends with the set of those it has seen. *)
Lemma canonicalLoop_inr name values : forall index seen seen',
  forEach (canonicalStep name) index values seen = inr seen' <->
  Forall identifier values /\ NoDup values /\ (forall v, v ∈ values -> v ∉ seen) /\ seen' = list_to_set values ∪ seen.
Proof.
  induction values as [|v values IH]; intros index seen seen'; cbn [forEach].
  - split; [intros [= <-]; split_and!; [constructor..|set_solver|set_solver]|].
    intros (_ & _ & _ & ->). cbn. by rewrite union_empty_l_L.
  - rewrite checked_bind_inr. split.
    + intros (seen1 & (Hi & Hn & ->)%canonicalStep_inr & (H1 & H2 & H3 & ->)%IH).
      split_and!; [by constructor|constructor; [|done]|set_solver|cbn; by set_solver].
      intros Hin. specialize (H3 v Hin). set_solver.
    + intros (H1 & H2 & H3 & ->). inversion H1; inversion H2; subst. exists ({[v]} ∪ seen).
      rewrite canonicalStep_inr, IH. split_and!; [done|set_solver|done|done|done|set_solver|set_solver].
Qed.

Lemma validateCanonicalIdentifiers_inr name values u :
  validateCanonicalIdentifiers name values = inr u <-> canonical values.
Proof.
  unfold validateCanonicalIdentifiers, canonical. rewrite checked_bind_inr. split.
  - intros (seen & (H1 & H2 & _ & _)%canonicalLoop_inr & H%reject_if_inr). apply negb_false_iff, slices_IsSorted_spec in H.
    done.
  - intros (H1 & H2 & H3). exists (list_to_set values ∪ ∅). rewrite canonicalLoop_inr. split; [set_solver|].
    destruct u. unfold reject_if. by apply slices_IsSorted_spec in H3 as ->.
Qed.

(** A path below the repository root: every component names an entry of the directory
    before it, and the first one is not the metadata directory. *)
Definition confined (path : string) : Prop :=
  Forall proper (components path) /\ head (components path) <> Some ".git".

Lemma proper_relative path : Forall proper (components path) -> filepath_IsAbs path = false.
Proof.
  intros H. destruct (filepath_IsAbs path) eqn:Ha; [|done]. unfold filepath_IsAbs, strings_HasPrefix in Ha.
  apply (prefix_inv "/") in Ha as [rest ->]. change ("/" +:+ rest) with ("" +:+ String slash rest) in H.
  unfold components in H. rewrite split_on_app in H by done. inversion H as [|? ? [He _]]; by subst.
Qed.

(** The check of repository paths accepts exactly the dot, where it is allowed, and
    the paths whose components all name entries of the directory before them, outside the
    metadata directory: no accepted path leaves the directory it is joined to. *)
Theorem repository_path_confined name path allowDot :
  validateRepositoryPath name path allowDot = inr () <->
  strings_TrimSpace path <> "" /\ strings_Contains path "\" = false /\
  ((path = "." /\ allowDot = true) \/ confined path).
Proof.
  unfold validateRepositoryPath. rewrite !checked_bind_inr. split.
  - intros ([] & H1%reject_if_inr & H). apply checked_bind_inr in H as ([] & H2%reject_if_inr & H3%reject_if_inr).
    apply orb_false_iff in H1 as [[Ht Ha]%orb_false_iff Hb].
    rewrite <- !orb_assoc in H2. apply orb_false_iff in H2 as [Hc [Hdot Hup]%orb_false_iff].
    apply String.eqb_neq in Ht. apply negb_false_iff, String.eqb_eq in Hc. split; [done|]. split; [done|].
    destruct (decide (path = ".")) as [->|Hn]; [left; by destruct allowDot|right]. split.
    + apply clean_components; [done..|]. intros Hf. apply (first_component "..") in Hf; [|done]. change (".." +:+ "/") with "../" in Hf. congruence.
    + intros Hf. apply (first_component ".git") in Hf; [|done]. change (".git" +:+ "/") with ".git/" in Hf. congruence.
  - intros (Ht & Hb & H). apply String.eqb_neq in Ht. unfold reject_if. rewrite Ht, Hb.
    destruct H as [[-> ->]|[Hp Hg]]; [by exists ()|]. rewrite (proper_relative path) by done. exists (). split; [done|].
    assert (path <> "") as Hne by (intros ->; by inversion Hp as [|? ? [He _]]).
    rewrite (clean_relative path), String.eqb_refl by (done || by apply proper_relative). cbn [negb orb].
    assert (String.eqb path "." = false) as ->.
    { apply String.eqb_neq. intros ->. by inversion Hp as [|? ? (_ & He & _)]. }
    rewrite andb_false_r. cbn [orb].
    assert (String.eqb path ".." || strings_HasPrefix path "../" = false) as ->.
    { apply not_true_iff_false. intros Hf. apply (first_component "..") in Hf; [|done].
      destruct (components path); [done|]. injection Hf as ->. by inversion Hp as [|? ? (_ & _ & He)]. }
    cbn.
    destruct (String.eqb path ".git" || strings_HasPrefix path ".git/") eqn:Eg; [|done].
    apply (first_component ".git") in Eg; done.
Qed.

(** The hexadecimal digits of the all-zero digest, for samples. *)
Definition zeros : string := Nat.iter 64 (String (Ascii.ascii_of_nat 48)) "".
