(* ===== verification/PlanModel.v ===== *)
(** * Execution plans

    The immutable plans of [internal/soundnessgate/plan_model.go] and their validation.
    SHA-256 and the JSON encoding of the identities are parameters; so is the order in which
    a map is ranged over. *)

From S2P Require Export Checks Dependencies.
Local Open Scope Z_scope.

(** ** Data *)
Definition ProfileID : Type := string.
Definition ProfileConsumer : ProfileID := "consumer".
Definition ProfileHarness : ProfileID := "harness".
Definition ProfileSemantic : ProfileID := "semantic".
Definition ProfileComplete : ProfileID := "complete".

Definition isKnownProfile (profile : ProfileID) : bool :=
  String.eqb profile ProfileConsumer || String.eqb profile ProfileHarness ||
  String.eqb profile ProfileSemantic || String.eqb profile ProfileComplete.

Record ResourceReservation := mkReservation { CPUUnits : Z; MemoryBytes : Z; WorkerSlots : Z }.

Record ResourceBudget := mkBudget {
  budgetCPU : Z;
  budgetMemory : Z;
  MaximumWorkers : Z;
  RunnerClass : string;
  SerialReference : bool;
}.

Record WorkspaceBinding := mkWorkspace { workspaceRoot : string; workspaceDigest : string }.
Record ArtifactBinding := mkArtifact { artifactPath : string; artifactDigest : string }.
Record ToolchainBinding := mkToolchain {
  GoVersion : string; GOOS : string; GOARCH : string; toolchainDigest : string;
}.

Record PlanCommandBinding := mkCommand {
  WorkUnitID : string;
  SubgateID : string;
  WorkingDirectory : string;
  Command : list string;
  CommandDigest : string;
  BinaryDigest : string;
  ReservedResources : ResourceReservation;
  ExclusivityGroups : list string;
  Distributable : bool;
  TimeoutSeconds : Z;
}.

Record PlanDependencyBinding := mkDependency { dependencyUnit : string; Requires : list string }.

Record PlanCensusBinding := mkCensus {
  censusID : string; censusKind : string; censusMembers : list string; censusDigest : string;
}.

Record PlanShardBinding := mkShard {
  shardID : string;
  shardUnit : string;
  shardCensus : string;
  shardMode : string;
  shardIteration : Z;
  shardMembers : list string;
  TotalWeight : Z;
  shardTimeout : Z;
}.

Record PopulationRequirement := mkRequirement { populationID : string; Minimum : Z }.

Record PlanExpectedReportBinding := mkReport {
  reportUnit : string;
  reportSubgate : string;
  ReportFile : string;
  reportCommandDigest : string;
  RequiredRegistrationIDs : list string;
  RequiredPopulations : list PopulationRequirement;
}.

Record ExecutionPlan := mkPlan {
  FormatVersion : Z;
  PlanID : string;
  planProfile : ProfileID;
  Workspace : WorkspaceBinding;
  Manifest : ArtifactBinding;
  Registry : ArtifactBinding;
  Toolchain : ToolchainBinding;
  Resources : ResourceBudget;
  Commands : list PlanCommandBinding;
  Dependencies : list PlanDependencyBinding;
  Censuses : list PlanCensusBinding;
  Shards : list PlanShardBinding;
  ExpectedReports : list PlanExpectedReportBinding;
}.

Definition ExecutionPlanFormatVersion : Z := 1.
Definition maximumPlanWorkers : Z := 1024.
Definition maximumTimeoutSeconds : Z := 86400.

(** What is encoded and hashed: the identity fields of a command, a census and a
    toolchain, and a plan. *)
Inductive identityPayload :=
  | CommandIdentity (id workingDirectory : string) (command : list string)
  | CensusIdentity (id kind : string) (members : list string)
  | ToolchainIdentity (goVersion goos goarch : string)
  | PlanIdentity (plan : ExecutionPlan).

Record environment := mkEnvironment {
  json_Marshal : identityPayload -> checked string;
  sha256_hex : string -> string;
  rangeRequires : gmap string (list string) -> list string;
  rangePopulations : gmap (string * string * Z) (gset string) -> list (string * string * Z * gset string);
  rangeCensuses : gmap string PlanCensusBinding -> list string;
}.

Section Validate.
Context (env : environment).

Definition DigestBytes (data : string) : string := "sha256:" +:+ sha256_hex env data.

Definition calculateBindingDigest (value : identityPayload) : checked string :=
  data ← wrapped "encode binding identity: %w" [] (json_Marshal env value);
  mret (DigestBytes data).

(** [CommandDigest] of the identity fields of a command. *)
Definition planCommandDigest (command : PlanCommandBinding) : checked string :=
  data ← wrapped "encode soundness command identity: %w" []
    (json_Marshal env (CommandIdentity (SubgateID command) (WorkingDirectory command) (Command command)));
  mret (DigestBytes data).

Definition planCensusDigest (census : PlanCensusBinding) : checked string :=
  calculateBindingDigest (CensusIdentity (censusID census) (censusKind census) (censusMembers census)).

Definition withPlanID (plan : ExecutionPlan) (id : string) : ExecutionPlan :=
  mkPlan (FormatVersion plan) id (planProfile plan) (Workspace plan) (Manifest plan) (Registry plan)
    (Toolchain plan) (Resources plan) (Commands plan) (Dependencies plan) (Censuses plan) (Shards plan)
    (ExpectedReports plan).

Definition CalculateID (plan : ExecutionPlan) : checked string :=
  data ← wrapped "encode soundness execution plan identity: %w" [] (json_Marshal env (PlanIdentity (withPlanID plan "")));
  mret (DigestBytes data).

(** ** Bindings *)
Definition workspace_validate (binding : WorkspaceBinding) : checked unit :=
  reject_if (negb (String.eqb (workspaceRoot binding) "."))
    "soundness execution plan workspace root = %q, want repository root %q" [workspaceRoot binding; "."] ;;
  wrapped "validate soundness execution plan workspace digest: %w" []
    (ValidateDigest "soundness execution plan workspace digest" (workspaceDigest binding)).

Definition artifact_validate (binding : ArtifactBinding) (name : string) : checked unit :=
  validateRepositoryPath ("soundness execution plan " +:+ name +:+ " path") (artifactPath binding) false ;;
  wrapped "validate soundness execution plan %s digest: %w" [name]
    (ValidateDigest ("soundness execution plan " +:+ name +:+ " digest") (artifactDigest binding)).

Definition toolchain_validate (binding : ToolchainBinding) : checked unit :=
  _ ← forEach (fun _ field _ => validateIdentifier ("soundness execution plan toolchain " +:+ fst field) (snd field)) 0
    [("go_version", GoVersion binding); ("goos", GOOS binding); ("goarch", GOARCH binding)] ();
  wrapped "validate soundness execution plan toolchain digest: %w" []
    (ValidateDigest "soundness execution plan toolchain digest" (toolchainDigest binding)) ;;
  expectedDigest ← wrapped "calculate soundness execution plan toolchain digest: %w" []
    (calculateBindingDigest (ToolchainIdentity (GoVersion binding) (GOOS binding) (GOARCH binding)));
  reject_if (negb (String.eqb (toolchainDigest binding) expectedDigest))
    "soundness execution plan toolchain digest does not match its identity fields" [].

Definition budget_validate (budget : ResourceBudget) : checked unit :=
  reject_if ((budgetCPU budget <=? 0) || (budgetMemory budget <=? 0) || (MaximumWorkers budget <=? 0) ||
             (maximumPlanWorkers <? MaximumWorkers budget))
    "soundness execution plan has invalid resource budget" [] ;;
  validateIdentifier "soundness execution plan runner_class" (RunnerClass budget).
(** ** Commands *)
Definition control_chars : list Ascii.ascii := [Ascii.zero; Ascii.ascii_of_nat 13; Ascii.ascii_of_nat 10].

Definition isShellEvaluator (executable firstArgument : string) : bool :=
  let executable := strings_ToLower executable in
  let firstArgument := strings_ToLower firstArgument in
  ((String.eqb executable "sh" || String.eqb executable "bash" || String.eqb executable "zsh") &&
     String.eqb firstArgument "-c") ||
  ((String.eqb executable "pwsh" || String.eqb executable "powershell") &&
     (String.eqb firstArgument "-command" || String.eqb firstArgument "-c")).

Definition validateSafeCommandVector (index : Z) (command : list string) : checked unit :=
  match command with
  | [] => inl (Errorf "soundness execution plan commands[%d].command is empty" [itoa index])
  | executable :: arguments =>
      _ ← forEach (fun argumentIndex argument _ =>
        reject_if (String.eqb (strings_TrimSpace argument) "" || strings_ContainsAny argument control_chars)
          "soundness execution plan commands[%d].command[%d] is unsafe" [itoa index; itoa argumentIndex]) 0 command ();
      reject_if (strings_HasPrefix executable "/" || strings_Contains executable "\" ||
                 String.eqb executable ".." || strings_HasPrefix executable "../" || strings_Contains executable "/../")
        "soundness execution plan commands[%d] executable %q is unsafe" [itoa index; executable] ;;
      reject_if (match arguments with first :: _ => isShellEvaluator executable first | [] => false end)
        "soundness execution plan commands[%d] uses an unsafe shell evaluation vector" [itoa index]
  end.

(** The commands seen by their work unit and the last work unit. *)
Definition commandsSeen : Type := gmap string PlanCommandBinding * string.

Definition commandField (index : Z) (field : string) : string :=
  "soundness execution plan commands[" +:+ itoa index +:+ "]." +:+ field.

Definition planCommandStep (resources : ResourceBudget) (index : Z) (command : PlanCommandBinding) (seen : commandsSeen)
    : checked commandsSeen :=
  let '(byID, previousID) := seen in
  let id := WorkUnitID command in
  let reserved := ReservedResources command in
  validateIdentifier (commandField index "work_unit_id") id ;;
  reject_if (bool_decide (is_Some (byID !! id))) "soundness execution plan contains duplicate work unit %q" [id] ;;
  reject_if (negb (String.eqb previousID "") && str_ltb id previousID)
    "soundness execution plan commands must use canonical work-unit order" [] ;;
  validateIdentifier (commandField index "subgate_id") (SubgateID command) ;;
  validateRepositoryPath (commandField index "working_directory") (WorkingDirectory command) true ;;
  validateSafeCommandVector index (Command command) ;;
  wrapped "validate soundness execution plan command digest: %w" []
    (ValidateDigest (commandField index "command_digest") (CommandDigest command)) ;;
  expectedCommandDigest ← wrapped "calculate soundness execution plan command digest: %w" [] (planCommandDigest command);
  reject_if (negb (String.eqb (CommandDigest command) expectedCommandDigest))
    "soundness execution plan command %q digest does not match its identity fields" [id] ;;
  wrapped "validate soundness execution plan binary digest: %w" []
    (ValidateDigest (commandField index "binary_digest") (BinaryDigest command)) ;;
  reject_if ((CPUUnits reserved <=? 0) || (MemoryBytes reserved <=? 0) || (WorkerSlots reserved <=? 0))
    "soundness execution plan command %q has invalid reserved resources" [id] ;;
  reject_if ((budgetCPU resources <? CPUUnits reserved) || (budgetMemory resources <? MemoryBytes reserved) ||
             (MaximumWorkers resources <? WorkerSlots reserved))
    "soundness execution plan command %q exceeds the plan resource budget" [id] ;;
  validateCanonicalIdentifiers (commandField index "exclusivity_groups") (ExclusivityGroups command) ;;
  reject_if ((TimeoutSeconds command <=? 0) || (maximumTimeoutSeconds <? TimeoutSeconds command))
    "soundness execution plan command %q has invalid timeout" [id] ;;
  mret (<[id := command]> byID, id).

Definition validatePlanCommands (commands : list PlanCommandBinding) (resources : ResourceBudget)
    : checked (gmap string PlanCommandBinding) :=
  match commands with
  | [] => inl (Errorf "soundness execution plan has no commands" [])
  | _ => seen ← forEach (planCommandStep resources) 0 commands (∅, ""); mret (fst seen)
  end.

(** ** Dependencies *)
Definition requiresOf (dependencies : gmap string (list string)) (id : string) : list string :=
  default [] (dependencies !! id).

(** Every identifier of a dependency map; the search for cycles nests no deeper. *)
Definition mentioned (dependencies : gmap string (list string)) : gset string :=
  dom dependencies ∪ list_to_set (concat (map snd (map_to_list dependencies))).

Definition validateDependencyCycles (dependencies : gmap string (list string)) : checked unit :=
  match search (requiresOf dependencies) (S (size (mentioned dependencies))) (rangeRequires env dependencies) with
  | Some None => inr ()
  | Some (Some id) => inl (Errorf "soundness execution plan dependency cycle includes %q" [id])
  | None => inl (Errorf "no fuel" [])
  end.

Definition requiredStep (commands : gmap string PlanCommandBinding) (unit : string) (_ : Z) (requiredID : string) (_ : ())
    : checked () :=
  reject_if (String.eqb requiredID unit) "soundness execution plan work unit %q depends on itself" [unit] ;;
  reject_if (negb (bool_decide (is_Some (commands !! requiredID))))
    "soundness execution plan work unit %q depends on unknown work unit %q" [unit; requiredID].

Definition planDependencyStep (commands : gmap string PlanCommandBinding) (index : Z) (dependency : PlanDependencyBinding)
    (seen : gmap string (list string) * string) : checked (gmap string (list string) * string) :=
  let '(byID, previousID) := seen in
  let id := dependencyUnit dependency in
  reject_if (negb (bool_decide (is_Some (commands !! id))))
    "soundness execution plan dependency references unknown work unit %q" [id] ;;
  reject_if (bool_decide (is_Some (byID !! id)))
    "soundness execution plan contains duplicate dependency binding %q" [id] ;;
  reject_if (negb (String.eqb previousID "") && str_ltb id previousID)
    "soundness execution plan dependencies must use canonical work-unit order" [] ;;
  validateCanonicalIdentifiers ("soundness execution plan dependencies[" +:+ itoa index +:+ "].requires")
    (Requires dependency) ;;
  forEach (requiredStep commands id) 0 (Requires dependency) () ;;
  mret (<[id := Requires dependency]> byID, id).

Definition validatePlanDependencies (dependencies : list PlanDependencyBinding)
    (commands : gmap string PlanCommandBinding) : checked unit :=
  reject_if (negb (Z.of_nat (length dependencies) =? Z.of_nat (size commands)))
    "soundness execution plan dependency count = %d, want exactly %d"
    [itoa (Z.of_nat (length dependencies)); itoa (Z.of_nat (size commands))] ;;
  seen ← forEach (planDependencyStep commands) 0 dependencies (∅, "");
  validateDependencyCycles (fst seen).
(** ** Censuses *)
Definition censusField (index : Z) (field : string) : string :=
  "soundness execution plan censuses[" +:+ itoa index +:+ "]." +:+ field.

Definition planCensusStep (index : Z) (census : PlanCensusBinding) (seen : gmap string PlanCensusBinding * string)
    : checked (gmap string PlanCensusBinding * string) :=
  let '(byID, previousID) := seen in
  let id := censusID census in
  validateIdentifier (censusField index "id") id ;;
  reject_if (bool_decide (is_Some (byID !! id))) "soundness execution plan contains duplicate census %q" [id] ;;
  reject_if (negb (String.eqb previousID "") && str_ltb id previousID)
    "soundness execution plan censuses must use canonical id order" [] ;;
  validateIdentifier (censusField index "kind") (censusKind census) ;;
  reject_if (match censusMembers census with [] => true | _ => false end)
    "soundness execution plan census %q has no members" [id] ;;
  validateCanonicalIdentifiers (censusField index "member_ids") (censusMembers census) ;;
  wrapped "validate soundness execution plan census digest: %w" []
    (ValidateDigest (censusField index "digest") (censusDigest census)) ;;
  expectedDigest ← wrapped "calculate soundness execution plan census digest: %w" []
    (calculateBindingDigest (CensusIdentity id (censusKind census) (censusMembers census)));
  reject_if (negb (String.eqb (censusDigest census) expectedDigest))
    "soundness execution plan census %q digest does not match its members" [id] ;;
  mret (<[id := census]> byID, id).

Definition validatePlanCensuses (censuses : list PlanCensusBinding) : checked (gmap string PlanCensusBinding) :=
  match censuses with
  | [] => inl (Errorf "soundness execution plan has no censuses" [])
  | _ => seen ← forEach planCensusStep 0 censuses (∅, ""); mret (fst seen)
  end.

(** ** Shards *)
Definition populationKey : Type := string * string * Z.

Record shardsSeen := mkSeen {
  seenPrevious : string;
  seenIDs : gset string;
  seenMembers : gmap populationKey (gset string);
  seenCensuses : gset string;
}.

Definition noShards : shardsSeen := mkSeen "" ∅ ∅ ∅.

Definition shardField (index : Z) (field : string) : string :=
  "soundness execution plan shards[" +:+ itoa index +:+ "]." +:+ field.

Definition shardMemberStep (shard : PlanShardBinding) (census : PlanCensusBinding) (_ : Z) (memberID : string)
    (members : gset string) : checked (gset string) :=
  reject_if (negb (bool_decide (memberID ∈ censusMembers census)))
    "soundness execution plan shard %q contains unknown census member %q" [shardID shard; memberID] ;;
  reject_if (bool_decide (memberID ∈ members))
    "soundness execution plan census %q mode %q iteration %d member %q overlaps shards"
    [shardCensus shard; shardMode shard; itoa (shardIteration shard); memberID] ;;
  mret ({[memberID]} ∪ members).

Definition populationOf (shard : PlanShardBinding) : populationKey :=
  (shardCensus shard, shardMode shard, shardIteration shard).

Definition planShardStep (commands : gmap string PlanCommandBinding) (censuses : gmap string PlanCensusBinding)
    (index : Z) (shard : PlanShardBinding) (seen : shardsSeen) : checked shardsSeen :=
  let id := shardID shard in
  validateIdentifier (shardField index "id") id ;;
  reject_if (bool_decide (id ∈ seenIDs seen)) "soundness execution plan contains duplicate shard %q" [id] ;;
  reject_if (negb (String.eqb (seenPrevious seen) "") && str_ltb id (seenPrevious seen))
    "soundness execution plan shards must use canonical id order" [] ;;
  reject_if (negb (bool_decide (is_Some (commands !! shardUnit shard))))
    "soundness execution plan shard %q references unknown work unit %q" [id; shardUnit shard] ;;
  match censuses !! shardCensus shard with
  | None => inl (Errorf "soundness execution plan shard %q references unknown census %q" [id; shardCensus shard])
  | Some census =>
      validateIdentifier (shardField index "mode") (shardMode shard) ;;
      reject_if ((shardIteration shard <=? 0) || (TotalWeight shard <=? 0) || (shardTimeout shard <=? 0) ||
                 (maximumTimeoutSeconds <? shardTimeout shard))
        "soundness execution plan shard %q has invalid execution bounds" [id] ;;
      reject_if (match shardMembers shard with [] => true | _ => false end)
        "soundness execution plan shard %q has no members" [id] ;;
      validateCanonicalIdentifiers (shardField index "member_ids") (shardMembers shard) ;;
      members ← forEach (shardMemberStep shard census) 0 (shardMembers shard)
        (default ∅ (seenMembers seen !! populationOf shard));
      mret (mkSeen id ({[id]} ∪ seenIDs seen) (<[populationOf shard := members]> (seenMembers seen))
              ({[shardCensus shard]} ∪ seenCensuses seen))
  end.

Definition populationCovered (censuses : gmap string PlanCensusBinding) (_ : Z)
    (population : populationKey * gset string) (_ : ()) : checked () :=
  let '((id, mode, iteration), members) := population in
  reject_if (negb (Z.of_nat (size members) =?
      Z.of_nat (length (default [] (censusMembers <$> censuses !! id)))))
    "soundness execution plan shards incompletely cover census %q mode %q iteration %d" [id; mode; itoa iteration].

Definition validatePlanShards (shards : list PlanShardBinding) (commands : gmap string PlanCommandBinding)
    (censuses : gmap string PlanCensusBinding) : checked unit :=
  seen ← forEach (planShardStep commands censuses) 0 shards noShards;
  _ ← forEach (populationCovered censuses) 0 (rangePopulations env (seenMembers seen)) ();
  forEach (fun _ id _ =>
    reject_if (negb (bool_decide (id ∈ seenCensuses seen)))
      "soundness execution plan shards incompletely cover census %q" [id]) 0 (rangeCensuses env censuses) ().

(** ** Expected reports *)
Definition requirementStep (index : Z) (unit : string) (populationIndex : Z) (population : PopulationRequirement)
    (seen : gset string * string) : checked (gset string * string) :=
  let '(seenPopulations, previousID) := seen in
  let id := populationID population in
  validateIdentifier ("soundness execution plan expected_reports[" +:+ itoa index +:+ "].required_populations[" +:+
    itoa populationIndex +:+ "].id") id ;;
  reject_if (Minimum population <=? 0)
    "soundness execution plan expected report %q population %q has non-positive minimum" [unit; id] ;;
  reject_if (bool_decide (id ∈ seenPopulations))
    "soundness execution plan expected report %q contains duplicate population %q" [unit; id] ;;
  reject_if (negb (String.eqb previousID "") && str_ltb id previousID)
    "soundness execution plan expected report %q populations must use canonical id order" [unit] ;;
  mret ({[id]} ∪ seenPopulations, id).

Definition planReportStep (commands : gmap string PlanCommandBinding) (index : Z) (report : PlanExpectedReportBinding)
    (seen : gset string * string) : checked (gset string * string) :=
  let '(units, previousID) := seen in
  let id := reportUnit report in
  match commands !! id with
  | None => inl (Errorf "soundness execution plan expected report references unknown work unit %q" [id])
  | Some command =>
      reject_if (bool_decide (id ∈ units)) "soundness execution plan contains duplicate expected report %q" [id] ;;
      reject_if (negb (String.eqb previousID "") && str_ltb id previousID)
        "soundness execution plan expected reports must use canonical work-unit order" [] ;;
      reject_if (negb (String.eqb (reportSubgate report) (SubgateID command)) ||
                 negb (String.eqb (reportCommandDigest report) (CommandDigest command)))
        "soundness execution plan expected report %q has mismatched command binding" [id] ;;
      validateReportFile index (ReportFile report) ;;
      validateCanonicalIdentifiers ("soundness execution plan expected_reports[" +:+ itoa index +:+
        "].required_registration_ids") (RequiredRegistrationIDs report) ;;
      reject_if (match RequiredPopulations report with [] => true | _ => false end)
        "soundness execution plan expected report %q has no required populations" [id] ;;
      _ ← forEach (requirementStep index id) 0 (RequiredPopulations report) (∅, "");
      mret ({[id]} ∪ units, id)
  end.

Definition validatePlanExpectedReports (reports : list PlanExpectedReportBinding)
    (commands : gmap string PlanCommandBinding) : checked unit :=
  reject_if (negb (Z.of_nat (length reports) =? Z.of_nat (size commands)))
    "soundness execution plan expected report count = %d, want exactly %d"
    [itoa (Z.of_nat (length reports)); itoa (Z.of_nat (size commands))] ;;
  _ ← forEach (planReportStep commands) 0 reports (∅, "");
  mret ().

(** ** Plans *)
Definition plan_Validate (plan : ExecutionPlan) : checked unit :=
  reject_if (negb (FormatVersion plan =? ExecutionPlanFormatVersion))
    "soundness execution plan format_version = %d, want %d" [itoa (FormatVersion plan); itoa ExecutionPlanFormatVersion] ;;
  wrapped "validate soundness execution plan id: %w" []
    (ValidateDigest "soundness execution plan plan_id" (PlanID plan)) ;;
  computedID ← CalculateID plan;
  reject_if (negb (String.eqb (PlanID plan) computedID))
    "soundness execution plan id = %q, want %q from canonical content" [PlanID plan; computedID] ;;
  reject_if (negb (isKnownProfile (planProfile plan)))
    "soundness execution plan profile = %q, want a reviewed profile" [planProfile plan] ;;
  workspace_validate (Workspace plan) ;;
  artifact_validate (Manifest plan) "manifest" ;;
  artifact_validate (Registry plan) "registry" ;;
  toolchain_validate (Toolchain plan) ;;
  budget_validate (Resources plan) ;;
  commands ← validatePlanCommands (Commands plan) (Resources plan);
  validatePlanDependencies (Dependencies plan) commands ;;
  censuses ← validatePlanCensuses (Censuses plan);
  validatePlanShards (Shards plan) commands censuses ;;
  validatePlanExpectedReports (ExpectedReports plan) commands.
End Validate.
