(* ===== verification/PlanFacts.v ===== *)
(** * What a validated plan promises

    The dependencies of a validated plan ([internal/soundnessgate/plan_model.go]) are acyclic,
    its commands fit the budget, and its shards partition its censuses. *)

From S2P Require Export PlanModel.
Local Open Scope Z_scope.

(** Maps are ranged over in some order of their entries. *)
Record ranging (env : environment) : Prop := {
  ranges_requires m : rangeRequires env m ≡ₚ map fst (map_to_list m);
  ranges_populations m : rangePopulations env m ≡ₚ map_to_list m;
  ranges_censuses m : rangeCensuses env m ≡ₚ map fst (map_to_list m);
}.

Lemma elem_of_keys {V} (m : gmap string V) k : k ∈ map fst (map_to_list m) <-> is_Some (m !! k).
Proof.
  rewrite list_elem_of_fmap. split.
  - intros ([k' v] & -> & H%elem_of_map_to_list). by exists v.
  - intros [v H]. exists (k, v). by rewrite elem_of_map_to_list.
Qed.

(** ** Cycles *)
Lemma requires_mentioned dependencies x y :
  depends (requiresOf dependencies) x y -> x ∈ dom dependencies /\ y ∈ mentioned dependencies.
Proof.
  unfold depends, requiresOf, mentioned. destruct (dependencies !! x) as [required|] eqn:E; [|by intros ?%elem_of_nil].
  intros Hy. split; [by apply elem_of_dom_2 in E|]. apply elem_of_union; right. apply elem_of_list_to_set.
  apply list_elem_of_In, in_concat. exists required. split; [|by apply list_elem_of_In].
  apply list_elem_of_In, list_elem_of_fmap. exists (x, required). by rewrite elem_of_map_to_list.
Qed.

Lemma cycle_search env dependencies :
  ranging env ->
  exists result, search (requiresOf dependencies) (S (size (mentioned dependencies)))
      (rangeRequires env dependencies) = Some result /\
    match result with
    | Some cycle => tc (depends (requiresOf dependencies)) cycle cycle
    | None => acyclic (requiresOf dependencies)
    end.
Proof.
  intros Hr.
  destruct (search_total (requiresOf dependencies) (mentioned dependencies)
    (fun x y H => proj2 (requires_mentioned dependencies x y H)) (S (size (mentioned dependencies)))
    (rangeRequires env dependencies)) as [result E]; [|lia|].
  { rewrite (ranges_requires env Hr). apply Forall_forall. intros k Hk%elem_of_keys. apply elem_of_union; left.
    by apply elem_of_dom. }
  exists result. split; [done|]. apply search_spec in E. destruct result as [cycle|]; [done|].
  intros x Hx. apply (E x x); [|done..]. rewrite (ranges_requires env Hr). apply elem_of_keys.
  inversion Hx; subst; apply elem_of_dom; by eapply requires_mentioned.
Qed.

Lemma cycles_accepted env dependencies :
  ranging env -> validateDependencyCycles env dependencies = inr () -> acyclic (requiresOf dependencies).
Proof.
  intros Hr. unfold validateDependencyCycles. destruct (cycle_search env dependencies Hr) as ([|] & -> & H); done.
Qed.

(** C17. The search for cycles of a dependency map decides them, whatever the order in
    which the map is ranged over: it accepts acyclic requirements and otherwise names a
    work unit that requires itself through others. *)
Theorem dependency_cycles_exact env dependencies :
  ranging env ->
  match validateDependencyCycles env dependencies with
  | inr _ => acyclic (requiresOf dependencies)
  | inl e => exists id, e = Errorf "soundness execution plan dependency cycle includes %q" [id] /\
      tc (depends (requiresOf dependencies)) id id
  end.
Proof.
  intros Hr. unfold validateDependencyCycles.
  destruct (cycle_search env dependencies Hr) as ([cycle|] & -> & H); [by exists cycle|done].
Qed.

(** ** Commands and dependencies *)

(** A command that fits a budget. *)
Definition fits (resources : ResourceBudget) (command : PlanCommandBinding) : Prop :=
  let reserved := ReservedResources command in
  0 < CPUUnits reserved <= budgetCPU resources /\ 0 < MemoryBytes reserved <= budgetMemory resources /\
  0 < WorkerSlots reserved <= MaximumWorkers resources.

Lemma validatePlanCommands_inr env commands resources byID :
  validatePlanCommands env commands resources = inr byID ->
  commands <> [] /\ indexed WorkUnitID id commands byID /\ Forall (fits resources) commands /\
  Forall (fun c => NoDup (ExclusivityGroups c)) commands.
Proof.
  unfold validatePlanCommands. destruct commands as [|c cs] eqn:Ec; [done|]. rewrite <- Ec. intros H.
  apply checked_bind_inr in H as (seen & H & [= <-]).
  apply (forEach_inv (fun l s => indexed WorkUnitID id l (fst s) /\ Forall (fits resources) l /\
      Forall (fun c => NoDup (ExclusivityGroups c)) l) _ _ 0 [] (∅, "")) in H;
    [split; [by subst|exact H]| |split_and!; [apply indexed_nil|constructor..]].
  intros i before a [m previous] s' E (Hi & Hf & Hg). unfold planCommandStep in E. open_checks. cbn. split_and!.
  - apply indexed_snoc; [done|]. by apply eq_None_not_Some.
  - apply Forall_app. split; [done|]. apply Forall_singleton. unfold fits. lia.
  - apply Forall_app. split; [done|]. apply Forall_singleton.
    match goal with E : validateCanonicalIdentifiers _ _ = inr _ |- _ => apply validateCanonicalIdentifiers_inr in E as (_ & ? & _) end.
    done.
Qed.

Lemma requiredSteps_inr commands unit l : forall index u,
  forEach (requiredStep commands unit) index l () = inr u ->
  Forall (fun id => id <> unit /\ is_Some (commands !! id)) l.
Proof.
  intros index u. intros H.
  apply (forEach_inv (fun l _ => Forall (fun id => id <> unit /\ is_Some (commands !! id)) l) _ _ index []) in H;
    [done| |constructor].
  intros i before a [] s' E Hf. unfold requiredStep in E. open_checks. apply Forall_app. split; [done|].
  apply Forall_singleton. split; [|done]. by apply String.eqb_neq.
Qed.

(** The dependency map of a plan. *)
Lemma validatePlanDependencies_inr env dependencies commands :
  ranging env -> validatePlanDependencies env dependencies commands = inr () ->
  exists byID, indexed dependencyUnit Requires dependencies byID /\ acyclic (requiresOf byID) /\
    (forall k, is_Some (byID !! k) <-> is_Some (commands !! k)) /\
    Forall (fun d => Forall (fun id => is_Some (commands !! id)) (Requires d)) dependencies.
Proof.
  intros Hr H. unfold validatePlanDependencies in H.
  apply checked_bind_inr in H as ([] & Hn%reject_if_inr%negb_false_iff & H).
  apply checked_bind_inr in H as (seen & H & Hc%cycles_accepted); [|done]. exists (fst seen).
  apply (forEach_inv (fun l s => indexed dependencyUnit Requires l (fst s) /\
      Forall (fun d => is_Some (commands !! dependencyUnit d)) l /\
      Forall (fun d => Forall (fun id => is_Some (commands !! id)) (Requires d)) l) _ _ 0 [] (∅, "")) in H;
    [|  |by split_and!; [apply indexed_nil|constructor..]].
  - destruct H as (Hi & Hk & Hq). cbn [app] in *. split_and!; [done..| |done].
    assert (dom (fst seen) = dom commands) as Hdom.
    { apply set_subseteq_size_eq.
      - intros k Hk'. apply elem_of_dom in Hk'. apply (indexed_dom _ _ _ _ _ Hi) in Hk'.
        apply list_elem_of_fmap in Hk' as (d & -> & Hd). rewrite Forall_forall in Hk. by apply elem_of_dom, Hk.
      - rewrite !size_dom, (indexed_size _ _ _ _ Hi). lia. }
    intros k. by rewrite <- !elem_of_dom, Hdom.
  - intros i before a [m previous] s' E (Hi & Hk & Hq). unfold planDependencyStep in E. open_checks. cbn.
    split_and!; [apply indexed_snoc; [done|by apply eq_None_not_Some]|..]; apply Forall_app; (split; [done|]);
      apply Forall_singleton; [done|].
    match goal with E : forEach _ _ _ _ = inr _ |- _ => apply requiredSteps_inr in E end.
    eapply Forall_impl; [eassumption|]. by intros x [].
Qed.

(** ** Shards *)

(** The members the shards of a population are assigned. *)
Definition assigned (population : populationKey) (shards : list PlanShardBinding) : list string :=
  concat (map shardMembers (filter (fun s => populationOf s = population) shards)).

Lemma assigned_snoc population shards shard :
  assigned population (shards ++ [shard]) =
  assigned population shards ++ (if decide (populationOf shard = population) then shardMembers shard else []).
Proof.
  unfold assigned. rewrite filter_app, map_app, concat_app. f_equal. rewrite filter_cons, filter_nil.
  destruct (decide _); cbn; by rewrite ?app_nil_r.
Qed.

Lemma shardMembers_inr shard census l : forall index members members',
  forEach (shardMemberStep shard census) index l members = inr members' ->
  members' = list_to_set l ∪ members /\ NoDup l /\ (forall m, m ∈ l -> m ∉ members) /\
  Forall (.∈ censusMembers census) l.
Proof.
  induction l as [|m l IH]; intros index members members' H; cbn [forEach] in H.
  { injection H as <-. split_and!; [set_solver|constructor|set_solver|constructor]. }
  apply checked_bind_inr in H as (members1 & E & (-> & H1 & H2 & H3)%IH). unfold shardMemberStep in E. open_checks.
  assert (m ∉ l) by (intros Hm; specialize (H2 m Hm); set_solver).
  split_and!; [set_solver|by constructor|set_solver|by constructor].
Qed.

(** What the loop over the shards has established. *)
Record partitioning (censuses : gmap string PlanCensusBinding) (shards : list PlanShardBinding) (seen : shardsSeen)
    : Prop := {
  part_members key : default ∅ (seenMembers seen !! key) = list_to_set (assigned key shards);
  part_nodup key : NoDup (assigned key shards);
  part_present key : is_Some (seenMembers seen !! key) <-> exists s, s ∈ shards /\ populationOf s = key;
  part_census s : s ∈ shards -> exists census, censuses !! shardCensus s = Some census /\
    Forall (.∈ censusMembers census) (shardMembers s);
  part_censuses : seenCensuses seen = list_to_set (map shardCensus shards);
}.

Lemma part_insert shards shard (seen : shardsSeen) (members : gset string) key :
  default ∅ (seenMembers seen !! key) = list_to_set (assigned key shards) ->
  (populationOf shard = key -> members = list_to_set (assigned key (shards ++ [shard]))) ->
  default ∅ (<[populationOf shard := members]> (seenMembers seen) !! key) = list_to_set (assigned key (shards ++ [shard])).
Proof.
  intros Hk Hm. rewrite assigned_snoc in *. destruct (decide (populationOf shard = key)) as [<-|Hne].
  - rewrite lookup_insert_eq. cbn. by apply Hm.
  - by rewrite lookup_insert_ne, app_nil_r.
Qed.

Lemma planShardStep_inr commands censuses index shard shards seen seen' :
  planShardStep commands censuses index shard seen = inr seen' ->
  partitioning censuses shards seen -> partitioning censuses (shards ++ [shard]) seen'.
Proof.
  intros H Hp. unfold planShardStep in H.
  do 4 (apply checked_bind_inr in H as ([] & _ & H)). destruct (censuses !! shardCensus shard) as [census|] eqn:Ec; [|done].
  do 4 (apply checked_bind_inr in H as ([] & _ & H)).
  apply checked_bind_inr in H as (members & (Em & Hnd & Hfresh & Hin)%shardMembers_inr & [= <-]).
  assert (members = list_to_set (assigned (populationOf shard) (shards ++ [shard]))) as Hmem.
  { rewrite Em, (part_members _ _ _ Hp), assigned_snoc, decide_True by done. set_solver. }
  split; cbn.
  - intros key. apply part_insert; [by apply (part_members _ _ _ Hp)|by intros <-].
  - intros key. rewrite assigned_snoc. destruct (decide _) as [<-|]; [|rewrite app_nil_r; by apply (part_nodup _ _ _ Hp)].
    apply NoDup_app. split_and!; [by apply (part_nodup _ _ _ Hp)| |done].
    intros m Hm Hm'. apply (Hfresh m Hm'). rewrite (part_members _ _ _ Hp). by apply elem_of_list_to_set.
  - intros key. destruct (decide (populationOf shard = key)) as [<-|Hne].
    + rewrite lookup_insert_eq. split; [intros _|done]. exists shard. set_solver.
    + rewrite lookup_insert_ne, (part_present _ _ _ Hp) by done. split.
      * intros (s & Hs & Hk). exists s. set_solver.
      * intros (s & [Hs| ->%list_elem_of_singleton]%elem_of_app & Hk); [by exists s|done].
  - intros s [Hs| ->%list_elem_of_singleton]%elem_of_app; [by apply (part_census _ _ _ Hp)|by exists census].
  - rewrite (part_censuses _ _ _ Hp), map_app, list_to_set_app_L. set_solver.
Qed.

Lemma validatePlanShards_inr env shards commands censuses :
  ranging env -> validatePlanShards env shards commands censuses = inr () ->
  (forall shard, shard ∈ shards -> exists census, censuses !! shardCensus shard = Some census /\
     NoDup (assigned (populationOf shard) shards) /\ assigned (populationOf shard) shards ≡ₚ censusMembers census) /\
  (forall id, is_Some (censuses !! id) -> exists shard, shard ∈ shards /\ shardCensus shard = id).
Proof.
  intros Hr H. unfold validatePlanShards in H. apply checked_bind_inr in H as (seen & H1 & H).
  apply checked_bind_inr in H as ([] & H2 & H3).
  apply (forEach_inv (partitioning censuses) _ _ 0 [] noShards) in H1;
    [cbn [app] in H1|intros; by eapply planShardStep_inr|].
  2:{ split; [done|constructor| |by intros ? ?%elem_of_nil|done]. intros key. cbn. rewrite lookup_empty.
      split; [by intros []|]. by intros (s & ?%elem_of_nil & _). }
  assert (Forall (.∈ seenCensuses seen) (rangeCensuses env censuses)) as H3'
    by (eapply forEach_holds; [|exact H3]; intros; by open_checks).
  assert (Forall (fun p => size (snd p) = length (default [] (censusMembers <$> censuses !! fst (fst (fst p)))))
    (rangePopulations env (seenMembers seen))) as H2'.
  { eapply forEach_holds; [|exact H2]. intros i [[[id mode] iteration] members] [] E. cbn in E. open_checks. cbn. lia. }
  clear H2 H3. rename H2' into H2, H3' into H3.
  rewrite Forall_forall in H2. rewrite Forall_forall in H3. split.
  - intros shard Hs. destruct (part_census _ _ _ H1 shard Hs) as (census & Ec & _). exists census. split; [done|].
    split; [apply (part_nodup _ _ _ H1)|].
    assert (is_Some (seenMembers seen !! populationOf shard)) as [members Em] by (apply (part_present _ _ _ H1); eauto).
    pose proof (part_members _ _ _ H1 (populationOf shard)) as Hm. rewrite Em in Hm. cbn in Hm.
    apply submseteq_length_Permutation.
    + apply NoDup_submseteq; [apply (part_nodup _ _ _ H1)|]. intros m Hin. unfold assigned in Hin.
      apply list_elem_of_In, in_concat in Hin as (ms & (s & <- & Hf)%in_map_iff & Hm'%list_elem_of_In).
      apply list_elem_of_In, list_elem_of_filter in Hf as [Hk Hf].
      destruct (part_census _ _ _ H1 s Hf) as (census' & Ec' & Hall). rewrite Forall_forall in Hall.
      assert (shardCensus s = shardCensus shard) as E by (unfold populationOf in Hk; congruence).
      rewrite E, Ec in Ec'. injection Ec' as <-. by apply Hall.
    + specialize (H2 (populationOf shard, members)). cbn in H2. rewrite Ec in H2. cbn in H2. rewrite <- H2.
      * rewrite Hm, size_list_to_set by apply (part_nodup _ _ _ H1). done.
      * rewrite (ranges_populations env Hr). by apply elem_of_map_to_list.
  - intros id Hid. specialize (H3 id). rewrite (ranges_censuses env Hr), (part_censuses _ _ _ H1) in H3.
    apply elem_of_keys in Hid. apply H3 in Hid. apply elem_of_list_to_set, list_elem_of_fmap in Hid as (s & -> & Hs).
    by exists s.
Qed.

(** ** Plans *)

(** The requirements of a plan as its runners read them: the last binding of a unit. *)
Definition dependencyMap (dependencies : list PlanDependencyBinding) : gmap string (list string) :=
  foldl (fun m d => <[dependencyUnit d := Requires d]> m) ∅ dependencies.

Definition planRequires (plan : ExecutionPlan) : string -> list string := requiresOf (dependencyMap (Dependencies plan)).

Definition units (plan : ExecutionPlan) : list string := map WorkUnitID (Commands plan).

Lemma dependencyMap_indexed dependencies :
  NoDup (map dependencyUnit dependencies) -> indexed dependencyUnit Requires dependencies (dependencyMap dependencies).
Proof.
  unfold dependencyMap. induction dependencies as [|d l IH] using rev_ind; [intros _; apply indexed_nil|].
  rewrite map_app, foldl_app. intros (Hl & Hd & _)%NoDup_app. cbn. apply indexed_snoc; [by apply IH|].
  apply eq_None_not_Some. rewrite (indexed_dom _ _ _ _ _ (IH Hl)). intros Hin. by apply (Hd _ Hin), list_elem_of_singleton.
Qed.

Lemma indexed_unique {A B} (key : A -> string) (value : A -> B) l m m' :
  indexed key value l m -> indexed key value l m' -> m = m'.
Proof. intros [_ H] [_ H']. apply map_eq. intros k. apply option_eq. intros b. by rewrite H, H'. Qed.

Record well_planned (plan : ExecutionPlan) : Prop := {
  wp_budget : 0 < budgetCPU (Resources plan) /\ 0 < budgetMemory (Resources plan) /\ 0 < MaximumWorkers (Resources plan);
  wp_units : NoDup (units plan);
  wp_fits : Forall (fits (Resources plan)) (Commands plan);
  wp_groups : Forall (fun c => NoDup (ExclusivityGroups c)) (Commands plan);
  wp_required x y : depends (planRequires plan) x y -> x ∈ units plan /\ y ∈ units plan;
  wp_acyclic : acyclic (planRequires plan);
  wp_dependencies : NoDup (map dependencyUnit (Dependencies plan)) /\
    forall k, k ∈ map dependencyUnit (Dependencies plan) <-> k ∈ units plan;
  wp_population shard : shard ∈ Shards plan -> exists census, census ∈ Censuses plan /\
    censusID census = shardCensus shard /\ NoDup (assigned (populationOf shard) (Shards plan)) /\
    assigned (populationOf shard) (Shards plan) ≡ₚ censusMembers census;
  wp_censuses census : census ∈ Censuses plan -> exists shard, shard ∈ Shards plan /\ shardCensus shard = censusID census;
}.

Lemma validatePlanCensuses_inr env censuses byID :
  validatePlanCensuses env censuses = inr byID -> indexed censusID id censuses byID.
Proof.
  unfold validatePlanCensuses. destruct censuses as [|c cs] eqn:Ec; [done|]. rewrite <- Ec. intros H.
  apply checked_bind_inr in H as (seen & H & [= <-]).
  apply (forEach_inv (fun l s => indexed censusID id l (fst s)) _ _ 0 [] (∅, "")) in H; [by subst| |apply indexed_nil].
  intros i before a [m previous] s' E Hi. unfold planCensusStep in E. open_checks. cbn.
  apply indexed_snoc; [done|]. by apply eq_None_not_Some.
Qed.

Lemma validated_well_planned env plan : ranging env -> plan_Validate env plan = inr () -> well_planned plan.
Proof.
  intros Hr H. unfold plan_Validate in H.
  do 2 (apply checked_bind_inr in H as ([] & _ & H)). apply checked_bind_inr in H as (computed & _ & H).
  do 6 (apply checked_bind_inr in H as ([] & _ & H)). apply checked_bind_inr in H as ([] & Hb & H).
  apply checked_bind_inr in H as (commands & (_ & Hi & Hf & Hg)%validatePlanCommands_inr & H).
  apply checked_bind_inr in H as ([] & (byID & Hd & Ha & Hk & Hq)%validatePlanDependencies_inr & H); [|done].
  apply checked_bind_inr in H as (censuses & Hc%validatePlanCensuses_inr & H).
  apply checked_bind_inr in H as ([] & (Hs1 & Hs2)%validatePlanShards_inr & _); [|done].
  assert (dependencyMap (Dependencies plan) = byID) as Hmap
    by (eapply indexed_unique; [apply dependencyMap_indexed, Hd|done]).
  split.
  - unfold budget_validate in Hb. open_checks. lia.
  - apply Hi.
  - done.
  - done.
  - unfold planRequires. rewrite Hmap. intros x y Hxy. unfold depends, requiresOf in Hxy.
    destruct (byID !! x) as [required|] eqn:E; [|by apply elem_of_nil in Hxy].
    split; [apply (indexed_dom _ _ _ _ _ Hi), Hk; by rewrite E|].
    destruct Hd as [_ Hm]. apply Hm in E as (d & Hin & <- & <-). rewrite Forall_forall in Hq.
    specialize (Hq d Hin). rewrite Forall_forall in Hq. by apply (indexed_dom _ _ _ _ _ Hi), Hq.
  - unfold planRequires. by rewrite Hmap.
  - split; [apply Hd|]. intros k. by rewrite <- (indexed_dom _ _ _ _ _ Hd), Hk, (indexed_dom _ _ _ _ _ Hi).
  - intros shard Hin. destruct (Hs1 _ Hin) as (census & Ec & Hnd & Hp). destruct Hc as [_ Hc]. apply Hc in Ec as (c & ? & ? & <-).
    by exists c.
  - intros census Hin. apply Hs2, (indexed_dom _ _ _ _ _ Hc), list_elem_of_fmap. by exists census.
Qed.

(** C16. The shards of a validated plan partition its censuses: the members assigned to
    the shards of a census, mode and iteration are the members of the census, each exactly
    once, and every census has a shard. *)
Theorem shards_partition_censuses env plan :
  ranging env -> plan_Validate env plan = inr () ->
  (forall shard, shard ∈ Shards plan -> exists census, census ∈ Censuses plan /\
     censusID census = shardCensus shard /\ NoDup (assigned (populationOf shard) (Shards plan)) /\
     assigned (populationOf shard) (Shards plan) ≡ₚ censusMembers census) /\
  (forall census, census ∈ Censuses plan -> exists shard, shard ∈ Shards plan /\ shardCensus shard = censusID census).
Proof.
  intros Hr Hv. apply (validated_well_planned env plan Hr) in Hv. split; [apply (wp_population _ Hv)|apply (wp_censuses _ Hv)].
Qed.

(** ** A plan *)

(** An encoding of identities and a digest of fixed length. *)
Definition sample_environment : environment :=
  mkEnvironment (fun _ => inr "{}") (fun _ => zeros) (fun m => map fst (map_to_list m)) map_to_list
    (fun m => map fst (map_to_list m)).

Lemma sample_ranging : ranging sample_environment.
Proof. by split. Qed.

Definition sample_digest : string := "sha256:" +:+ zeros.

(** Three units; the last one requires the others, which exclude each other. *)
Definition sample_command (id : string) (cpu : Z) (groups : list string) : PlanCommandBinding :=
  mkCommand id id "." ["go"; "test"] sample_digest sample_digest (mkReservation cpu 10 1) groups false 60.

Definition sample_shard (id : string) : PlanShardBinding :=
  mkShard id id "selected-subgates" "subgate" 1 [id] 1 60.

Definition sample_report (id : string) : PlanExpectedReportBinding :=
  mkReport id id "report.json" sample_digest [] [mkRequirement "cases" 1].

Definition sample_plan : ExecutionPlan :=
  mkPlan 1 sample_digest ProfileSemantic (mkWorkspace "." sample_digest) (mkArtifact "manifest.json" sample_digest)
    (mkArtifact "registry.json" sample_digest) (mkToolchain "go1" "linux" "amd64" sample_digest)
    (mkBudget 4 64 2 "local" false)
    [sample_command "a" 3 ["disk"]; sample_command "b" 2 ["disk"]; sample_command "c" 1 []]
    [mkDependency "a" []; mkDependency "b" []; mkDependency "c" ["a"; "b"]]
    [mkCensus "selected-subgates" "subgates" ["a"; "b"; "c"] sample_digest]
    [sample_shard "a"; sample_shard "b"; sample_shard "c"]
    [sample_report "a"; sample_report "b"; sample_report "c"].

Lemma sample_plan_valid : plan_Validate sample_environment sample_plan = inr ().
Proof. vm_compute. reflexivity. Qed.

Lemma dependency_cycles_exact_witness :
  exists id, validateDependencyCycles sample_environment {[ "a" := ["b"]; "b" := ["a"] ]} =
      inl (Errorf "soundness execution plan dependency cycle includes %q" [id]) /\
    tc (depends (requiresOf {[ "a" := ["b"]; "b" := ["a"] ]})) id id.
Proof.
  pose proof (dependency_cycles_exact sample_environment {[ "a" := ["b"]; "b" := ["a"] ]} sample_ranging) as H.
  assert (exists e, validateDependencyCycles sample_environment {[ "a" := ["b"]; "b" := ["a"] ]} = inl e) as [e E]
    by (eexists; vm_compute; reflexivity).
  rewrite E in *. destruct H as (id & -> & H). by exists id.
Defined.

Lemma shards_partition_censuses_witness :
  plan_Validate sample_environment sample_plan = inr () /\
  assigned ("selected-subgates", "subgate", 1) (Shards sample_plan) ≡ₚ ["a"; "b"; "c"].
Proof.
  split; [exact sample_plan_valid|].
  destruct (shards_partition_censuses sample_environment sample_plan sample_ranging sample_plan_valid) as [H _].
  destruct (H (sample_shard "a")) as (census & Hc%list_elem_of_singleton & _ & _ & Hp); [left|].
  rewrite Hc in Hp. exact Hp.
Defined.
