(* ===== verification/Scheduler.v ===== *)
(** * The work-unit scheduler

    The scheduler of [internal/soundnessgate/scheduler.go] as a state machine: the loop of
    [schedulePlan] with the goroutines it starts, the channel of their completions, the
    context and the clock.  A step is one of the loop, the completion of a command, the end
    of the parent context or the passage of time, in any order. *)

From S2P Require Export PlanFacts.
Local Open Scope Z_scope.

(** ** Resources *)
Record schedulerState := mkState {
  availableCPU : Z;
  availableMemory : Z;
  running : Z;
  exclusive : gset string;
}.

Definition canAdmit (state : schedulerState) (plan : ExecutionPlan) (command : PlanCommandBinding) : bool :=
  if (MaximumWorkers (Resources plan) <=? running state) ||
     (availableCPU state <? CPUUnits (ReservedResources command)) ||
     (availableMemory state <? MemoryBytes (ReservedResources command))
  then false
  else forallb (fun group => negb (bool_decide (group ∈ exclusive state))) (ExclusivityGroups command).

Definition reserve (state : schedulerState) (command : PlanCommandBinding) : schedulerState :=
  mkState (availableCPU state - CPUUnits (ReservedResources command))
    (availableMemory state - MemoryBytes (ReservedResources command)) (running state + 1)
    (foldl (fun groups group => {[group]} ∪ groups) (exclusive state) (ExclusivityGroups command)).

Definition release (state : schedulerState) (command : PlanCommandBinding) : schedulerState :=
  mkState (availableCPU state + CPUUnits (ReservedResources command))
    (availableMemory state + MemoryBytes (ReservedResources command)) (running state - 1)
    (foldl (fun groups group => groups ∖ {[group]}) (exclusive state) (ExclusivityGroups command)).

Definition dependenciesComplete (required : list string) (completed : gset string) : bool :=
  forallb (fun id => bool_decide (id ∈ completed)) required.

(** ** Order *)
Definition comparePlanWorkUnitIDs (left right : string) : Z :=
  if str_ltb left right then -1 else if str_ltb right left then 1 else 0.

(** More processors first, then more memory, then the identifiers. *)
Definition compareSchedulerPriority (left right : PlanCommandBinding) : Z :=
  let l := ReservedResources left in
  let r := ReservedResources right in
  if negb (CPUUnits l =? CPUUnits r) then CPUUnits r - CPUUnits l
  else if negb (MemoryBytes l =? MemoryBytes r) then if MemoryBytes r <? MemoryBytes l then -1 else 1
  else comparePlanWorkUnitIDs (WorkUnitID left) (WorkUnitID right).

Definition before_command (left right : PlanCommandBinding) : Prop := compareSchedulerPriority left right <= 0.

#[export] Instance before_command_dec left right : Decision (before_command left right) := Z.le_dec _ _.

(** [slices.SortFunc] of distinct commands. *)
Definition byPriority (commands : list PlanCommandBinding) : list PlanCommandBinding :=
  merge_sort before_command commands.

(** ** The machine *)
Section Machine.
Context {T E : Type}.

(** The error wraps the cancellation of a context or the fail-fast cause. *)
Context (isCanceled : E -> bool).

Record scheduledWorkResult := mkWork {
  workUnit : string;
  QueuedAt : Z;
  StartedAt : Z;
  FinishedAt : Z;
  Value : T;
  Err : option E;
}.

Record schedulerCompletion := mkCompletion {
  command : PlanCommandBinding;
  queuedAt : Z;
  startedAt : Z;
  finishedAt : Z;
  value : T;
  err : option E;
}.

Inductive cancelCause := FailFast | ParentEnded.

Inductive schedulerError :=
  | ContextEnded (cause : cancelCause)
  | CannotAdmit
  | UnitFailed (id : string) (e : E)
  | Incomplete (done required : Z).

(** Where the loop stands. *)
Inductive phase :=
  | LoopTop
  | Launching (rest : list PlanCommandBinding) (launched : bool)
  | Launched (launched : bool)
  | Receiving
  | Concluding
  | Returned (results : list scheduledWorkResult) (failure : option schedulerError).

Record machine := mkMachine {
  at_phase : phase;
  queued : Z;
  pending : gset string;
  completed : gset string;
  state : schedulerState;
  executing : list (PlanCommandBinding * Z);
  completionChannel : list schedulerCompletion;
  results : list scheduledWorkResult;
  directFailures : gmap string E;
  internalFailure : bool;
  ctxErr : option cancelCause;
  clock : Z;
}.

Definition go (m : machine) (p : phase) : machine :=
  mkMachine p (queued m) (pending m) (completed m) (state m) (executing m) (completionChannel m) (results m)
    (directFailures m) (internalFailure m) (ctxErr m) (clock m).

Context (plan : ExecutionPlan).

Definition start (now : Z) : machine :=
  mkMachine LoopTop now (list_to_set (units plan)) ∅
    (mkState (budgetCPU (Resources plan)) (budgetMemory (Resources plan)) 0 ∅) [] [] [] ∅ false None now.

(** One command in the loop that launches: the goroutine starts executing it. *)
Definition launchOne (m : machine) (next : PlanCommandBinding) (rest : list PlanCommandBinding) (launched : bool) : machine :=
  if negb (bool_decide (WorkUnitID next ∈ pending m)) then go m (Launching rest launched)
  else if negb (dependenciesComplete (planRequires plan (WorkUnitID next)) (completed m)) ||
          negb (canAdmit (state m) plan next)
  then go m (Launching rest launched)
  else mkMachine (Launching rest true) (queued m) (pending m ∖ {[WorkUnitID next]}) (completed m)
         (reserve (state m) next) (executing m ++ [(next, clock m)]) (completionChannel m) (results m)
         (directFailures m) (internalFailure m) (ctxErr m) (clock m).

Definition resultOf (completion : schedulerCompletion) : scheduledWorkResult :=
  mkWork (WorkUnitID (command completion)) (queuedAt completion) (startedAt completion) (finishedAt completion)
    (value completion) (err completion).

(** The loop after it has received a completion. *)
Definition receive (m : machine) (completion : schedulerCompletion) (channel : list schedulerCompletion) : machine :=
  let id := WorkUnitID (command completion) in
  let failures :=
    match err completion with
    | Some e => if internalFailure m && isCanceled e then directFailures m else <[id := e]> (directFailures m)
    | None => directFailures m
    end in
  let failFast :=
    match err completion, ctxErr m with Some _, None => negb (internalFailure m) | _, _ => false end in
  mkMachine LoopTop (queued m) (pending m)
    (match err completion with None => {[id]} ∪ completed m | Some _ => completed m end)
    (release (state m) (command completion)) (executing m) channel (results m ++ [resultOf completion]) failures
    (internalFailure m || failFast) (if failFast then Some FailFast else ctxErr m) (clock m).

Definition result_le (left right : scheduledWorkResult) : Prop :=
  comparePlanWorkUnitIDs (workUnit left) (workUnit right) <= 0.

#[local] Instance result_le_dec left right : Decision (result_le left right) := Z.le_dec _ _.

Definition sortedResults (m : machine) : list scheduledWorkResult := merge_sort result_le (results m).

(** The error returned with the sorted results. *)
Definition failureOf (m : machine) : option schedulerError :=
  match slices_Sort (map fst (map_to_list (directFailures m))) with
  | id :: _ => UnitFailed id <$> directFailures m !! id
  | [] =>
      match ctxErr m with
      | Some cause => Some (ContextEnded cause)
      | None =>
          if negb (Z.of_nat (size (completed m)) =? Z.of_nat (length (Commands plan)))
          then Some (Incomplete (Z.of_nat (size (completed m))) (Z.of_nat (length (Commands plan))))
          else None
      end
  end.

(** One step of the loop; none while it waits for a completion or after it has returned. *)
Definition advance (m : machine) : option machine :=
  match at_phase m with
  | LoopTop =>
      if bool_decide (pending m = ∅) && (running (state m) =? 0) then Some (go m Concluding)
      else if negb (internalFailure m) && bool_decide (ctxErr m = None)
           then Some (go m (Launching (byPriority (Commands plan)) false))
           else Some (go m (Launched false))
  | Launching [] launched => Some (go m (Launched launched))
  | Launching (next :: rest) launched => Some (launchOne m next rest launched)
  | Launched launched =>
      if running (state m) =? 0 then
        if internalFailure m then Some (go m Concluding)
        else match ctxErr m with
             | Some cause => Some (go m (Returned [] (Some (ContextEnded cause))))
             | None =>
                 if negb (bool_decide (pending m = ∅)) && negb launched
                 then Some (go m (Returned [] (Some CannotAdmit)))
                 else Some (go m LoopTop)
             end
      else Some (go m Receiving)
  | Receiving =>
      match completionChannel m with
      | [] => None
      | completion :: channel => Some (receive m completion channel)
      end
  | Concluding => Some (go m (Returned (sortedResults m) (failureOf m)))
  | Returned _ _ => None
  end.

(** ** Steps *)
Definition finished (m : machine) (before after : list (PlanCommandBinding * Z)) (c : PlanCommandBinding) (started : Z)
    (v : T) (e : option E) : machine :=
  mkMachine (at_phase m) (queued m) (pending m) (completed m) (state m) (before ++ after)
    (completionChannel m ++ [mkCompletion c (queued m) started (clock m) v e]) (results m) (directFailures m)
    (internalFailure m) (ctxErr m) (clock m).

Definition parentEnds (m : machine) : machine :=
  mkMachine (at_phase m) (queued m) (pending m) (completed m) (state m) (executing m) (completionChannel m) (results m)
    (directFailures m) (internalFailure m) (match ctxErr m with Some c => Some c | None => Some ParentEnded end) (clock m).

Definition elapses (m : machine) (d : Z) : machine :=
  mkMachine (at_phase m) (queued m) (pending m) (completed m) (state m) (executing m) (completionChannel m) (results m)
    (directFailures m) (internalFailure m) (ctxErr m) (clock m + d).

(** What a command can answer: [execute]. *)
Context (executes : PlanCommandBinding -> T -> option E -> Prop).

(** The loop proceeds or a command completes. *)
Inductive progresses (m : machine) : machine -> Prop :=
  | progress_loop m' : advance m = Some m' -> progresses m m'
  | progress_finish before c started after v e :
      executing m = before ++ (c, started) :: after -> executes c v e ->
      progresses m (finished m before after c started v e).

Inductive step (m : machine) : machine -> Prop :=
  | step_progress m' : progresses m m' -> step m m'
  | step_parent : step m (parentEnds m)
  | step_clock d : 0 <= d -> step m (elapses m d).

(** The states of a run from some time on. *)
Definition reachable (m : machine) : Prop := exists now, rtc step (start now) m.
End Machine.
