(* ===== verification/SchedulerFacts.v ===== *)
(** * The scheduler keeps its promises

    Invariants of every reachable state of the scheduler on a validated plan: the
    resources of the commands that run, the order of units, the evidence of failures, and
    the phases of the loop. *)

From S2P Require Export Scheduler.
Local Open Scope Z_scope.

(** ** Sums over commands *)
Definition cpuOf (c : PlanCommandBinding) : Z := CPUUnits (ReservedResources c).
Definition memoryOf (c : PlanCommandBinding) : Z := MemoryBytes (ReservedResources c).

Definition sumOf {A} (f : A -> Z) (l : list A) : Z := foldr (fun a n => f a + n) 0 l.

Lemma sumOf_app {A} (f : A -> Z) l k : sumOf f (l ++ k) = sumOf f l + sumOf f k.
Proof. unfold sumOf. induction l as [|a l IH]; cbn; [done|]. rewrite IH. lia. Qed.

#[export] Instance sumOf_perm {A} (f : A -> Z) : Proper ((≡ₚ) ==> (=)) (sumOf f).
Proof. unfold sumOf. induction 1; cbn in *; lia. Qed.

Definition groupsOf (l : list PlanCommandBinding) : list string := concat (map ExclusivityGroups l).

Lemma sumOf_cons {A} (f : A -> Z) a l : sumOf f (a :: l) = f a + sumOf f l.
Proof. reflexivity. Qed.

Lemma groupsOf_cons c l : groupsOf (c :: l) = ExclusivityGroups c ++ groupsOf l.
Proof. reflexivity. Qed.

#[export] Instance groupsOf_perm : Proper ((≡ₚ) ==> (≡ₚ)) groupsOf.
Proof.
  unfold groupsOf. induction 1 as [|c l k _ IH|c d l|l1 l2 l3 _ IH1 _ IH2]; cbn; [done|by rewrite IH| |by etransitivity].
  rewrite !app_assoc. by rewrite (Permutation_app_comm (ExclusivityGroups d)).
Qed.

Lemma reserve_groups groups exclusive :
  foldl (fun gs g => {[g]} ∪ gs) exclusive groups = list_to_set groups ∪ (exclusive : gset string).
Proof. revert exclusive. induction groups as [|g groups IH]; intros exclusive; cbn; [set_solver|]. rewrite IH. set_solver. Qed.

Lemma release_groups groups exclusive :
  foldl (fun gs g => gs ∖ {[g]}) exclusive groups = (exclusive : gset string) ∖ list_to_set groups.
Proof. revert exclusive. induction groups as [|g groups IH]; intros exclusive; cbn; [set_solver|]. rewrite IH. set_solver. Qed.

Lemma canAdmit_spec st plan c :
  canAdmit st plan c = true <->
  running st < MaximumWorkers (Resources plan) /\ cpuOf c <= availableCPU st /\ memoryOf c <= availableMemory st /\
  forall g, g ∈ ExclusivityGroups c -> g ∉ exclusive st.
Proof.
  unfold canAdmit, cpuOf, memoryOf. destruct (_ || _) eqn:E.
  - split; [done|]. intros (H1 & H2 & H3 & _). lia.
  - apply orb_false_iff in E as [[Ea Eb]%orb_false_iff Ec]. rewrite forallb_forall. split.
    + intros H. split; [lia|]. split; [lia|]. split; [lia|]. intros g Hg. apply list_elem_of_In, H in Hg.
      by apply negb_true_iff, bool_decide_eq_false in Hg.
    + intros (_ & _ & _ & H) g Hg%list_elem_of_In. by apply negb_true_iff, bool_decide_eq_false, H.
Qed.

Lemma dependenciesComplete_spec required completed :
  dependenciesComplete required completed = true <-> forall y, y ∈ required -> y ∈ completed.
Proof.
  unfold dependenciesComplete. rewrite forallb_forall. split.
  - intros H y Hy%list_elem_of_In. by apply H, bool_decide_eq_true in Hy.
  - intros H y Hy%list_elem_of_In. by apply bool_decide_eq_true, H.
Qed.

(** ** Resources *)

(** The state of the scheduler accounts for the commands that run. *)
Record accounted (budget : ResourceBudget) (st : schedulerState) (active : list PlanCommandBinding) : Prop := {
  acc_running : running st = Z.of_nat (length active);
  acc_workers : running st <= MaximumWorkers budget;
  acc_cpu : availableCPU st = budgetCPU budget - sumOf cpuOf active /\ 0 <= availableCPU st;
  acc_memory : availableMemory st = budgetMemory budget - sumOf memoryOf active /\ 0 <= availableMemory st;
  acc_exclusive : exclusive st = list_to_set (groupsOf active);
  acc_disjoint : NoDup (groupsOf active);
}.

#[export] Instance accounted_perm budget st : Proper ((≡ₚ) ==> iff) (accounted budget st).
Proof.
  assert (forall l k, l ≡ₚ k -> accounted budget st l -> accounted budget st k) as H.
  { intros l k E []. assert (list_to_set (groupsOf k) = (list_to_set (groupsOf l) : gset string)) as Eg.
    { apply set_eq. intros g. rewrite !elem_of_list_to_set. by rewrite E. }
    split; rewrite <- ?E; congruence. }
  intros l k E. split; [by apply H|by apply H; symmetry].
Qed.

Lemma accounted_reserve plan st active c :
  accounted (Resources plan) st active -> canAdmit st plan c = true -> NoDup (ExclusivityGroups c) ->
  accounted (Resources plan) (reserve st c) (c :: active).
Proof.
  intros Ha (Hw & Hc & Hm & Hg)%canAdmit_spec Hn. destruct Ha as [Hr _ Hcpu Hmem He Hd].
  split; rewrite ?sumOf_cons, ?groupsOf_cons; cbn [reserve running availableCPU availableMemory exclusive length];
    change (CPUUnits (ReservedResources c)) with (cpuOf c); change (MemoryBytes (ReservedResources c)) with (memoryOf c);
    [lia..| |].
  - by rewrite reserve_groups, He, list_to_set_app_L.
  - apply NoDup_app. split; [done|]. split; [|done]. intros g H1 H2. apply (Hg g H1). rewrite He. by apply elem_of_list_to_set.
Qed.

Lemma accounted_release budget st active c :
  accounted budget st (c :: active) -> 0 <= cpuOf c -> 0 <= memoryOf c -> accounted budget (release st c) active.
Proof.
  intros [Hr Hw Hcpu Hmem He Hd] Hc Hm. rewrite sumOf_cons in Hcpu, Hmem. rewrite groupsOf_cons in He, Hd.
  apply NoDup_app in Hd as (_ & Hd1 & Hd2). cbn [length] in Hr.
  split; cbn [release running availableCPU availableMemory exclusive];
    change (CPUUnits (ReservedResources c)) with (cpuOf c); change (MemoryBytes (ReservedResources c)) with (memoryOf c);
    [lia..| |done].
  rewrite release_groups, He, list_to_set_app_L. apply set_eq. intros g. specialize (Hd1 g).
  rewrite elem_of_difference, elem_of_union, !elem_of_list_to_set. tauto.
Qed.

(** ** Units, evidence and phases *)
Section Facts.
Context {T Error : Type} (isCanceled : Error -> bool) (plan : ExecutionPlan).
Context (executes : PlanCommandBinding -> T -> option Error -> Prop) (Hplan : well_planned plan).

Abbreviation state_of := (@machine T Error).
Implicit Types m : state_of.

(** The commands that have been launched and whose completion has not been received. *)
Definition active m : list PlanCommandBinding := map fst (executing m) ++ map command (completionChannel m).

(** Units with a result. *)
Definition reported m : list string := map workUnit (results m).

Record bookkeeping m : Prop := {
  bk_units : elements (pending m) ++ map WorkUnitID (active m) ++ reported m ≡ₚ units plan;
  bk_known : Forall (.∈ Commands plan) (active m);
  bk_completed u : u ∈ completed m <-> exists r, r ∈ results m /\ workUnit r = u /\ Err r = None;
  bk_ready u y : u ∈ map WorkUnitID (active m) ++ reported m -> depends (planRequires plan) u y -> y ∈ completed m;
  bk_channel : Forall (fun x => executes (command x) (value x) (err x)) (completionChannel m);
  bk_results r : r ∈ results m -> exists c, c ∈ Commands plan /\ WorkUnitID c = workUnit r /\ executes c (Value r) (Err r);
}.

Record failing m : Prop := {
  fl_direct u e : directFailures m !! u = Some e -> exists r, r ∈ results m /\ workUnit r = u /\ Err r = Some e;
  fl_recorded r e : r ∈ results m -> Err r = Some e ->
    directFailures m !! workUnit r = Some e \/ (isCanceled e = true /\ internalFailure m = true);
  fl_internal : internalFailure m = true <-> ctxErr m = Some FailFast;
  fl_nonempty : internalFailure m = true -> directFailures m <> ∅;
  fl_clean r : ctxErr m = None -> r ∈ results m -> Err r = None;
}.

(** A pending command whose requirements are not complete. *)
Definition waits m (c : PlanCommandBinding) : Prop :=
  WorkUnitID c ∈ pending m -> dependenciesComplete (planRequires plan (WorkUnitID c)) (completed m) = false.

Definition busy m : Prop := pending m <> ∅ \/ running (state m) <> 0.

Definition phase_ok m : Prop :=
  match at_phase m with
  | LoopTop => True
  | Launching rest launched =>
      internalFailure m = false /\ busy m /\ (launched = true -> 0 < running (state m)) /\
      exists seen, byPriority (Commands plan) = seen ++ rest /\
        (launched = false -> running (state m) = 0 -> Forall (waits m) seen)
  | Launched launched =>
      busy m /\ (launched = true -> 0 < running (state m)) /\
      (launched = false -> running (state m) = 0 -> ctxErr m = None -> Forall (waits m) (Commands plan))
  | Receiving => 0 < running (state m)
  | Concluding => running (state m) = 0 /\ (pending m = ∅ \/ internalFailure m = true)
  | Returned rs failure =>
      running (state m) = 0 /\
      match failure with
      | None => rs = sortedResults m /\ reported m ≡ₚ units plan /\ Forall (fun r => Err r = None) rs
      | Some (UnitFailed u e) => rs = sortedResults m /\ directFailures m !! u = Some e /\
          forall u', is_Some (directFailures m !! u') -> String.le u u'
      | Some (ContextEnded cause) => cause = ParentEnded /\ ctxErr m = Some ParentEnded
      | Some CannotAdmit => False
      | Some (Incomplete _ _) => False
      end
  end.

Record invariant m : Prop := {
  inv_resources : accounted (Resources plan) (state m) (active m);
  inv_bookkeeping : bookkeeping m;
  inv_failing : failing m;
  inv_phase : phase_ok m;
}.

(** *** Small consequences *)
Lemma units_nodup m : bookkeeping m -> NoDup (elements (pending m) ++ map WorkUnitID (active m) ++ reported m).
Proof. intros H. rewrite (bk_units _ H). apply Hplan. Qed.

Lemma go_keeps m p :
  (accounted (Resources plan) (state m) (active m) -> accounted (Resources plan) (state (go m p)) (active (go m p))) /\
  (bookkeeping m -> bookkeeping (go m p)) /\ (failing m -> failing (go m p)).
Proof. split; [done|]. split; by intros []. Qed.

Lemma go_invariant m p : invariant m -> phase_ok (go m p) -> invariant (go m p).
Proof. intros [] Hp. split; [done|by apply go_keeps..|done]. Qed.

Lemma idle_active m : invariant m -> running (state m) = 0 -> active m = [].
Proof. intros Hi Hr. pose proof (acc_running _ _ _ (inv_resources _ Hi)). destruct (active m); [done|]. cbn in *. lia. Qed.

(** A command runs only when nothing prevents it: with all resources free, it waits for
    its requirements or for the launch. *)
Lemma idle_admits m c :
  invariant m -> running (state m) = 0 -> c ∈ Commands plan -> canAdmit (state m) plan c = true.
Proof.
  intros Hi Hr Hc. pose proof (idle_active m Hi Hr) as Ha. destruct (inv_resources _ Hi) as [_ _ Hcpu Hmem He _].
  rewrite Ha in *. cbn in *. pose proof (wp_fits _ Hplan) as Hf. rewrite Forall_forall in Hf. specialize (Hf c Hc).
  pose proof (wp_budget _ Hplan). unfold fits in Hf. apply canAdmit_spec. unfold cpuOf, memoryOf.
  split; [lia|]. split; [lia|]. split; [lia|]. intros g _. rewrite He. set_solver.
Qed.

(** Some pending command is ready while nothing runs and nothing has failed. *)
Lemma idle_ready m :
  invariant m -> running (state m) = 0 -> ctxErr m = None -> pending m <> ∅ ->
  ~ Forall (waits m) (Commands plan).
Proof.
  intros Hi Hr Hctx Hne Hw. destruct (inv_bookkeeping _ Hi) as [Hu _ Hc _ _ _].
  rewrite (idle_active m Hi Hr) in Hu. cbn in Hu.
  destruct (acyclic_minimal (planRequires plan) (pending m)) as (u & Hpu & Hmin); [intros x _; apply Hplan|done|].
  assert (u ∈ units plan) as Hin by (rewrite <- Hu; set_solver).
  unfold units in Hin. apply list_elem_of_fmap in Hin as (c & -> & Hc'). rewrite Forall_forall in Hw.
  specialize (Hw c Hc' Hpu). apply not_true_iff_false in Hw. apply Hw, dependenciesComplete_spec.
  intros y Hy. assert (y ∈ units plan) as Hyu by (apply (wp_required _ Hplan (WorkUnitID c)); done).
  rewrite <- Hu in Hyu. apply elem_of_app in Hyu as [Hyp%elem_of_elements|Hyr]; [by destruct (Hmin y Hy)|].
  unfold reported in Hyr. apply list_elem_of_fmap in Hyr as (r & -> & Hr'). apply Hc. exists r. split; [done|]. split; [done|].
  by apply (fl_clean _ (inv_failing _ Hi)).
Qed.

(** *** Launching *)
Lemma launched_active m c p : active (launchOne plan m c p true) ≡ₚ active m \/
  active (launchOne plan m c p true) ≡ₚ c :: active m.
Proof.
  unfold launchOne. destruct (negb _); [by left|]. destruct (_ || _); [by left|right]. unfold active. cbn.
  rewrite map_app, <- app_assoc. cbn. by rewrite Permutation_middle.
Qed.

(** The state after a launch that is admitted. *)
Abbreviation launches m c rest := (mkMachine (Launching rest true) (queued m) (pending m ∖ {[WorkUnitID c]}) (completed m)
  (reserve (state m) c) (executing m ++ [(c, clock m)]) (completionChannel m) (results m)
  (directFailures m) (internalFailure m) (ctxErr m) (clock m)).

Lemma launches_active m c rest : active (launches m c rest) ≡ₚ c :: active m.
Proof. unfold active. cbn. rewrite map_app, <- app_assoc. cbn. by rewrite Permutation_middle. Qed.

Lemma launches_bookkeeping m c rest :
  bookkeeping m -> c ∈ Commands plan -> WorkUnitID c ∈ pending m ->
  dependenciesComplete (planRequires plan (WorkUnitID c)) (completed m) = true -> bookkeeping (launches m c rest).
Proof.
  intros Hb Hc Hp Hd. pose proof (launches_active m c rest) as Ha. destruct Hb as [Hu Hk Hco Hr Hch Hre]. split; cbn.
  - rewrite <- Hu, Ha. cbn [map]. assert (pending m = {[WorkUnitID c]} ∪ pending m ∖ {[WorkUnitID c]}) as Hpe.
    { apply set_eq. intros x. destruct (decide (x = WorkUnitID c)); set_solver. }
    rewrite Hpe at 2. rewrite elements_union_singleton by set_solver. cbn. unfold reported. cbn. by rewrite <- Permutation_middle.
  - rewrite Ha. by constructor.
  - done.
  - intros u y Hin Hy. rewrite Ha in Hin. cbn [map app] in Hin. apply elem_of_cons in Hin as [->|Hin]; [|by apply (Hr u)].
    rewrite dependenciesComplete_spec in Hd. by apply Hd.
  - done.
  - done.
Qed.

Lemma launches_phase m c rest :
  phase_ok m -> (exists launched, at_phase m = Launching (c :: rest) launched) -> 0 <= running (state m) ->
  phase_ok (launches m c rest).
Proof.
  intros Hp [launched E] Hr. unfold phase_ok in *. rewrite E in Hp. cbn in *. destruct Hp as (Hi & _ & _ & seen & Hs & _).
  split; [done|]. split; [right; cbn; lia|]. split; [lia|]. exists (seen ++ [c]). rewrite <- app_assoc. done.
Qed.

Lemma skip_phase m c rest launched :
  phase_ok m -> at_phase m = Launching (c :: rest) launched ->
  (running (state m) = 0 -> waits m c) -> phase_ok (go m (Launching rest launched)).
Proof.
  intros Hp E Hw. unfold phase_ok in *. rewrite E in Hp. cbn in *. destruct Hp as (Hi & Hb & Hl & seen & Hs & Hall).
  split; [done|]. split; [done|]. split; [done|]. exists (seen ++ [c]). rewrite <- app_assoc. split; [done|].
  intros Hlf Hr. apply Forall_app. split; [by apply Hall|]. constructor; [|done]. by apply Hw.
Qed.

Lemma launchOne_invariant m c rest launched :
  invariant m -> at_phase m = Launching (c :: rest) launched -> invariant (launchOne plan m c rest launched).
Proof.
  intros Hi E. pose proof (inv_phase _ Hi) as Hp. pose proof Hp as Hp'. unfold phase_ok in Hp'. rewrite E in Hp'.
  destruct Hp' as (_ & _ & _ & seen & Hs & _).
  assert (c ∈ Commands plan) as Hc.
  { unfold byPriority in Hs. assert (c ∈ merge_sort before_command (Commands plan)) as H by (rewrite Hs; set_solver).
    by rewrite merge_sort_Permutation in H. }
  unfold launchOne. destruct (bool_decide (WorkUnitID c ∈ pending m)) eqn:Hpe; cbn [negb].
  2:{ apply bool_decide_eq_false in Hpe. apply go_invariant; [done|]. apply skip_phase with (c := c); [done..|]. intros _ Hin. by destruct Hpe. }
  apply bool_decide_eq_true in Hpe. destruct (negb _ || negb _) eqn:Hskip.
  - apply go_invariant; [done|]. apply skip_phase with (c := c); [done..|]. intros Hr _.
    rewrite (idle_admits m c Hi Hr Hc), orb_false_r in Hskip. by apply negb_true_iff.
  - apply orb_false_iff in Hskip as [Hd%negb_false_iff Ha%negb_false_iff].
    pose proof (wp_groups _ Hplan) as Hg. rewrite Forall_forall in Hg.
    pose proof (acc_running _ _ _ (inv_resources _ Hi)) as Hrun.
    destruct Hi as [Hacc Hb Hf _]. split.
    + rewrite launches_active. apply accounted_reserve; auto.
    + by apply launches_bookkeeping.
    + destruct Hf. by split.
    + apply launches_phase; [done|by exists launched|lia].
Qed.

(** *** Receiving *)
Lemma receive_active m x channel :
  completionChannel m = x :: channel -> active m ≡ₚ command x :: active (receive isCanceled m x channel).
Proof. intros H. unfold active. rewrite H. cbn. by rewrite Permutation_middle. Qed.

Lemma receive_bookkeeping m x channel :
  bookkeeping m -> completionChannel m = x :: channel -> bookkeeping (receive isCanceled m x channel).
Proof.
  intros [Hu Hk Hco Hr Hch Hre] Hx. pose proof (receive_active m x channel Hx) as Ha.
  rewrite Ha in Hu, Hk. rewrite Hx in Hch. inversion Hch; inversion Hk; subst.
  assert (forall u, u ∈ completed m -> u ∈ completed (receive isCanceled m x channel)) as Hmono
    by (intros u Hin; cbn; destruct (err x); set_solver).
  split.
  - rewrite <- Hu. cbn [map app]. change (pending (receive isCanceled m x channel)) with (pending m).
    apply Permutation_app_head. unfold reported. cbn [receive results]. rewrite map_app. cbn [map].
    change (workUnit (resultOf x)) with (WorkUnitID (command x)).
    rewrite (app_assoc _ (map workUnit (results m))). by rewrite <- Permutation_cons_append.
  - done.
  - intros u. cbn [receive completed results]. destruct (err x) eqn:He.
    + rewrite Hco. split; intros (r & Hin & Hw & Hn); exists r; [set_solver|].
      apply elem_of_app in Hin as [Hin| ->%list_elem_of_singleton]; [done|]. cbn in Hn. congruence.
    + rewrite elem_of_union, elem_of_singleton, Hco. split.
      * intros [->|(r & Hin & Hw & Hn)]; [exists (resultOf x)|exists r]; set_solver.
      * intros (r & [Hin| ->%list_elem_of_singleton]%elem_of_app & Hw & Hn); [right; by exists r|by left].
  - intros u y Hin Hy. apply Hmono, (Hr u); [|done]. rewrite Ha. cbn [map app]. unfold reported in *.
    cbn [receive results] in Hin. rewrite map_app in Hin. cbn [map] in Hin.
    change (workUnit (resultOf x)) with (WorkUnitID (command x)) in Hin. rewrite !elem_of_app, elem_of_cons in *. set_solver.
  - done.
  - intros r [Hin| ->%list_elem_of_singleton]%elem_of_app; [by apply Hre|]. exists (command x). done.
Qed.

Lemma receive_fresh m x channel r :
  bookkeeping m -> completionChannel m = x :: channel -> r ∈ results m -> workUnit r <> WorkUnitID (command x).
Proof.
  intros Hb Hx Hin Heq. pose proof (units_nodup m Hb) as Hn. rewrite (receive_active m x channel Hx) in Hn.
  apply NoDup_app in Hn as (_ & _ & Hn). cbn [map app] in Hn. apply NoDup_cons in Hn as [Hn _]. apply Hn, elem_of_app.
  right. unfold reported. rewrite <- Heq. apply list_elem_of_fmap. by exists r.
Qed.

Lemma receive_failing m x channel :
  bookkeeping m -> failing m -> completionChannel m = x :: channel -> failing (receive isCanceled m x channel).
Proof.
  intros Hb [Hd Hr Hi Hne Hc] Hx. pose proof (receive_fresh m x channel) as Hfresh.
  assert (ctxErr m = None -> internalFailure m = false) as Hnone.
  { intros En. destruct (internalFailure m); [|done]. destruct Hi as [Hi _]. rewrite En in Hi. by discriminate Hi. }
  split; cbn [receive directFailures results internalFailure ctxErr].
  - intros u e. destruct (err x) as [ex|] eqn:Ee; [destruct (_ && _)|].
    2: rewrite lookup_insert_Some; intros [[<- <-]|[_ H]]; [exists (resultOf x); set_solver|revert H].
    all: intros (r & Hin & Hw & He)%Hd; exists r; set_solver.
  - intros r e [Hin| ->%list_elem_of_singleton]%elem_of_app He.
    + destruct (Hr r e Hin He) as [H|[H1 H2]]; [left|right; split; [done|by rewrite H2]].
      destruct (err x); [destruct (_ && _)|]; [done| |done]. rewrite lookup_insert_ne; [done|]. intros Eq. by apply (Hfresh r).
    + cbn in He. rewrite He. cbn. destruct (internalFailure m && isCanceled e) eqn:Ei.
      * right. apply andb_true_iff in Ei as [-> ->]. by cbn.
      * left. by rewrite lookup_insert_eq.
  - destruct (err x), (ctxErr m) as [[]|] eqn:Ec; destruct (internalFailure m) eqn:Ei; cbn; try tauto; intuition congruence.
  - destruct (err x) as [ex|].
    + destruct (internalFailure m && isCanceled ex) eqn:Ei; [|intros _; apply insert_non_empty].
      apply andb_true_iff in Ei as [Ei _]. intros _. by apply Hne.
    + rewrite orb_false_r. exact Hne.
  - intros r Hctx. destruct (err x) as [ex|] eqn:Ee.
    + destruct (ctxErr m) as [cause|] eqn:Ec; [by destruct (internalFailure m)|]. rewrite Hnone in Hctx by done. done.
    + intros [Hin| ->%list_elem_of_singleton]%elem_of_app; [by apply Hc|done].
Qed.

Lemma receive_invariant m x channel :
  invariant m -> completionChannel m = x :: channel -> invariant (receive isCanceled m x channel).
Proof.
  intros [Ha Hb Hf _] Hx. split; [|by apply receive_bookkeeping|by apply receive_failing|done].
  pose proof (bk_known _ Hb) as Hk. rewrite (receive_active m x channel Hx) in Ha, Hk.
  pose proof (Forall_inv Hk) as Hc. pose proof (wp_fits _ Hplan) as Hfits. rewrite Forall_forall in Hfits.
  specialize (Hfits _ Hc). unfold fits in Hfits. apply accounted_release; [done|unfold cpuOf; lia|unfold memoryOf; lia].
Qed.

(** *** Returning *)
Lemma sorted_first u rest l : slices_Sort l = u :: rest -> forall u', u' ∈ l -> String.le u u'.
Proof.
  intros H u' Hin. assert (StronglySorted String.le (u :: rest)) as Hs.
  { rewrite <- H. unfold slices_Sort. apply Sorted_StronglySorted; [apply _|]. apply (Sorted_merge_sort String.le). }
  inversion Hs as [|? ? _ Hall]; subst. rewrite Forall_forall in Hall.
  assert (u' ∈ u :: rest) as [->|Hr]%elem_of_cons by (by rewrite <- H, slices_Sort_elem_of); [done|by apply Hall].
Qed.

Lemma failures_first m :
  match slices_Sort (map fst (map_to_list (directFailures m))) with
  | [] => directFailures m = ∅
  | u :: _ => is_Some (directFailures m !! u) /\ forall u', is_Some (directFailures m !! u') -> String.le u u'
  end.
Proof.
  destruct (slices_Sort _) as [|u rest] eqn:Es.
  - apply map_empty. intros u. apply eq_None_not_Some. intros Hs. apply elem_of_keys in Hs.
    rewrite <- slices_Sort_elem_of, Es in Hs. by apply elem_of_nil in Hs.
  - split; [|intros u' Hu'; apply (sorted_first u rest _ Es); by apply elem_of_keys].
    apply elem_of_keys. rewrite <- slices_Sort_elem_of, Es. left.
Qed.

(** Everything is reported once nothing is pending and nothing runs. *)
Lemma idle_reported m : invariant m -> running (state m) = 0 -> pending m = ∅ -> reported m ≡ₚ units plan.
Proof.
  intros Hi Hr Hp. pose proof (bk_units _ (inv_bookkeeping _ Hi)) as Hu.
  rewrite (idle_active m Hi Hr), Hp, elements_empty in Hu. exact Hu.
Qed.

Lemma completed_all m :
  bookkeeping m -> reported m ≡ₚ units plan -> Forall (fun r => Err r = None) (results m) ->
  size (completed m) = length (Commands plan).
Proof.
  intros Hb Hr Hn. assert (completed m = list_to_set (units plan)) as ->.
  { apply set_eq. intros u. rewrite elem_of_list_to_set, <- Hr, (bk_completed _ Hb). unfold reported.
    rewrite list_elem_of_fmap. rewrite Forall_forall in Hn. split.
    - intros (r & Hin & <- & _). by exists r.
    - intros (r & -> & Hin). exists r. auto. }
  rewrite size_list_to_set by apply Hplan. unfold units. by rewrite length_fmap.
Qed.

Lemma conclude_phase m :
  invariant m -> at_phase m = Concluding -> phase_ok (go m (Returned (sortedResults m) (failureOf plan m))).
Proof.
  intros Hi Hat. pose proof (inv_phase _ Hi) as Hp. unfold phase_ok in Hp. rewrite Hat in Hp. destruct Hp as [Hr Hp].
  unfold phase_ok. cbn. split; [done|]. unfold failureOf. pose proof (failures_first m) as Hfirst.
  destruct (slices_Sort _) as [|u rest].
  - assert (internalFailure m = false) as Hint.
    { apply not_true_iff_false. intros H. by apply (fl_nonempty _ (inv_failing _ Hi)) in H. }
    destruct Hp as [Hp|Hp]; [|congruence]. destruct (ctxErr m) as [[]|] eqn:Hc.
    + exfalso. apply (fl_internal _ (inv_failing _ Hi)) in Hc. congruence.
    + done.
    + assert (Forall (fun r => Err r = None) (results m)) as Hn.
      { apply Forall_forall. intros r. by apply (fl_clean _ (inv_failing _ Hi)). }
      pose proof (idle_reported m Hi Hr Hp) as Hrep.
      rewrite (completed_all m (inv_bookkeeping _ Hi) Hrep Hn), Z.eqb_refl. cbn.
      split; [done|]. split; [done|]. unfold sortedResults. by rewrite merge_sort_Permutation.
  - destruct Hfirst as [[e He] Hle]. by rewrite He.
Qed.

(** *** Every step keeps the invariant *)
Lemma busy_unless_done m :
  bool_decide (pending m = ∅) && (running (state m) =? 0) = false -> busy m.
Proof.
  unfold busy. intros H. apply andb_false_iff in H as [H%bool_decide_eq_false|H]; [by left|right]. lia.
Qed.

Lemma top_phase m :
  invariant m ->
  phase_ok (if bool_decide (pending m = ∅) && (running (state m) =? 0) then go m Concluding
            else if negb (internalFailure m) && bool_decide (ctxErr m = None)
                 then go m (Launching (byPriority (Commands plan)) false) else go m (Launched false)).
Proof.
  intros Hi. destruct (_ && (_ =? _)) eqn:Hdone.
  { apply andb_true_iff in Hdone as [H1%bool_decide_eq_true H2]. cbn. split; [lia|by left]. }
  apply busy_unless_done in Hdone. destruct (_ && _) eqn:Hgo; unfold phase_ok; cbn.
  - apply andb_true_iff in Hgo as [H1%negb_true_iff _]. split; [done|]. split; [done|]. split; [done|].
    exists []. split; [done|]. intros _ _. constructor.
  - split; [done|]. split; [done|]. intros _ _ Hc. exfalso. rewrite (bool_decide_eq_true_2 _ Hc), andb_true_r in Hgo.
    apply negb_false_iff, (fl_internal _ (inv_failing _ Hi)) in Hgo. congruence.
Qed.

Lemma launched_phase m launched m' :
  invariant m -> at_phase m = Launched launched -> advance isCanceled plan m = Some m' ->
  exists p, m' = go m p /\ phase_ok (go m p) /\ p <> LoopTop.
Proof.
  intros Hi Hat. pose proof (inv_phase _ Hi) as Hp. unfold phase_ok in Hp. rewrite Hat in Hp. destruct Hp as (Hb & Hl & Hw).
  unfold advance. rewrite Hat. pose proof (acc_running _ _ _ (inv_resources _ Hi)) as Hrun.
  destruct (Z.eqb_spec (running (state m)) 0) as [H0|H0].
  2:{ intros [= <-]. exists Receiving. split; [done|]. split; [cbn; lia|done]. }
  destruct (internalFailure m) eqn:Hint.
  { intros [= <-]. exists Concluding. split; [done|]. split; [|done]. cbn. auto. }
  destruct (ctxErr m) as [cause|] eqn:Hc.
  { intros [= <-]. eexists. split; [done|]. split; [|done]. cbn. split; [done|].
    destruct cause; [|done]. apply (fl_internal _ (inv_failing _ Hi)) in Hc. congruence. }
  destruct launched; [specialize (Hl eq_refl); lia|]. destruct Hb as [Hb|Hb]; [|done].
  destruct (idle_ready m Hi H0 Hc Hb). by apply Hw.
Qed.

Lemma advance_invariant m m' : invariant m -> advance isCanceled plan m = Some m' -> invariant m'.
Proof.
  intros Hi. destruct (at_phase m) as [|[|c rest] launched|launched| | |rs failure] eqn:Hat.
  - pose proof (top_phase m Hi) as Ht. unfold advance. rewrite Hat.
    destruct (_ && (_ =? _)); [|destruct (_ && _)]; intros [= <-]; by apply go_invariant.
  - unfold advance. rewrite Hat. intros [= <-]. apply go_invariant; [done|]. pose proof (inv_phase _ Hi) as Hp.
    unfold phase_ok in *. rewrite Hat in Hp. cbn. destruct Hp as (_ & Hb & Hl & seen & Hs & Hw).
    split; [done|]. split; [done|]. intros Hf H0 _. rewrite app_nil_r in Hs. specialize (Hw Hf H0). rewrite <- Hs in Hw.
    unfold byPriority in Hw. by rewrite merge_sort_Permutation in Hw.
  - unfold advance. rewrite Hat. intros [= <-]. by apply launchOne_invariant.
  - intros H. destruct (launched_phase m launched m' Hi Hat H) as (p & -> & Hp & _). by apply go_invariant.
  - unfold advance. rewrite Hat. destruct (completionChannel m) as [|x channel] eqn:Hx; [done|]. intros [= <-].
    by apply receive_invariant.
  - unfold advance. rewrite Hat. intros [= <-]. apply go_invariant; [done|]. by apply conclude_phase.
  - unfold advance. by rewrite Hat.
Qed.

(** A completion moves the command to the channel. *)
Lemma finished_active m before after c started v e :
  executing m = before ++ (c, started) :: after -> active (finished m before after c started v e) ≡ₚ active m.
Proof.
  intros H. unfold active. rewrite H. cbn. rewrite !map_app. cbn. rewrite <- !app_assoc. cbn.
  apply Permutation_app_head. rewrite app_assoc. by rewrite <- Permutation_cons_append.
Qed.

Lemma finished_invariant m before after c started v e :
  invariant m -> executing m = before ++ (c, started) :: after -> executes c v e ->
  invariant (finished m before after c started v e).
Proof.
  intros [Ha Hb Hf Hp] Hx He. pose proof (finished_active m before after c started v e Hx) as Hact. split.
  - by rewrite Hact.
  - destruct Hb as [Hu Hk Hco Hr Hch Hre]. split; cbn; [|by rewrite Hact|done| |by apply Forall_app; split; [|constructor]|done].
    + rewrite Hact. exact Hu.
    + intros u y. rewrite Hact. apply Hr.
  - by destruct Hf.
  - exact Hp.
Qed.

Lemma parentEnds_invariant m : invariant m -> invariant (parentEnds m).
Proof.
  intros [Ha Hb Hf Hp]. split; [done|by destruct Hb| |].
  - destruct Hf as [H1 H2 H3 H4 H5]. split; cbn; [done..| |done|].
    + rewrite H3. by destruct (ctxErr m) as [[]|].
    + intros r. by destruct (ctxErr m).
  - unfold phase_ok in *. cbn. destruct (at_phase m) as [| |launched| | |rs failure]; [done|done| |done|done|].
    + destruct Hp as (Hb1 & Hl & Hw). split; [done|]. split; [done|]. intros H1 H2. by destruct (ctxErr m).
    + destruct Hp as (Hr & Hp). split; [done|]. destruct failure as [[cause| | |]|]; [|done..].
      destruct Hp as [-> ->]. done.
Qed.

Lemma elapses_invariant m d : invariant m -> invariant (elapses m d).
Proof. intros [Ha Hb Hf Hp]. split; [done|by destruct Hb|by destruct Hf|exact Hp]. Qed.

Lemma start_invariant now : invariant (start plan now).
Proof.
  pose proof (wp_budget _ Hplan) as Hbud. split.
  - split; cbn; try done; try lia. constructor.
  - split; cbn; [|constructor|set_solver|by intros ?? ?%elem_of_nil|constructor|by intros ? ?%elem_of_nil].
    rewrite app_nil_r. apply elements_list_to_set, Hplan.
  - split; cbn; [by intros ?? ?%lookup_empty_Some|by intros ?? ?%elem_of_nil|done|done|by intros ? _ ?%elem_of_nil].
  - done.
Qed.

Lemma step_invariant m m' : invariant m -> step isCanceled plan executes m m' -> invariant m'.
Proof.
  intros Hi [m1 [m2 H|before c started after v e Hx He]| |d _];
    [by eapply advance_invariant|by apply finished_invariant|by apply parentEnds_invariant|by apply elapses_invariant].
Qed.

Lemma reachable_invariant m : reachable isCanceled plan executes m -> invariant m.
Proof.
  intros [now H]. assert (invariant (start plan now)) as Hs by apply start_invariant. revert Hs.
  induction H as [|m1 m2 m3 Hs _ IH]; [done|]. intros Hi. by eapply IH, step_invariant.
Qed.

(** *** Progress *)

(** The steps the loop has left before it receives a completion. *)
Definition phaseSteps m : nat :=
  match at_phase m with
  | LoopTop => 5 + length (Commands plan)
  | Launching rest _ => 4 + length rest
  | Launched _ => 3
  | Receiving => 2
  | Concluding => 1
  | Returned _ _ => 0
  end.

(** What is left to do: results, launches and completions, steps of the loop. *)
Definition remaining m : nat :=
  (length (Commands plan) - length (results m)) * (length (Commands plan) + 4) + phaseSteps m +
  2 * size (pending m) + length (executing m).

Lemma results_bound m : bookkeeping m -> (length (results m) + length (active m) <= length (Commands plan))%nat.
Proof.
  intros Hb. pose proof (Permutation_length (bk_units _ Hb)) as H. unfold units, reported in H.
  rewrite !length_app, !length_fmap in H. lia.
Qed.

Lemma receive_remaining m x channel :
  bookkeeping m -> completionChannel m = x :: channel -> at_phase m = Receiving ->
  (remaining (receive isCanceled m x channel) < remaining m)%nat.
Proof.
  intros Hb Hx Hat. pose proof (results_bound m Hb) as Hlt. unfold active in Hlt. rewrite Hx in Hlt.
  rewrite length_app in Hlt. cbn [map length] in Hlt. unfold remaining, phaseSteps. rewrite Hat. cbn.
  rewrite length_app. cbn [length]. nia.
Qed.

Lemma advance_remaining m m' :
  invariant m -> advance isCanceled plan m = Some m' -> (remaining m' < remaining m)%nat.
Proof.
  intros Hi H. pose proof (inv_bookkeeping _ Hi) as Hb.
  destruct (at_phase m) as [|[|c rest] launched|launched| | |rs failure] eqn:Hat.
  - unfold advance in H. rewrite Hat in H.
    destruct (_ && (_ =? _)); [|destruct (_ && _)]; injection H as <-; unfold remaining, phaseSteps; rewrite Hat; cbn;
      unfold byPriority; rewrite ?(Permutation_length (merge_sort_Permutation _ _)); lia.
  - unfold advance in H. rewrite Hat in H. injection H as <-. unfold remaining, phaseSteps. rewrite Hat. cbn. lia.
  - unfold advance in H. rewrite Hat in H. injection H as <-. unfold launchOne.
    destruct (bool_decide (WorkUnitID c ∈ pending m)) eqn:Hp; cbn [negb];
      [destruct (_ || _)|]; unfold remaining, phaseSteps; rewrite Hat; cbn; [lia| |lia].
    apply bool_decide_eq_true in Hp. rewrite size_difference, size_singleton, length_app by set_solver. cbn.
    assert (size (pending m) <> 0)%nat by (rewrite size_non_empty_iff; set_solver). lia.
  - destruct (launched_phase m launched m' Hi Hat H) as (p & -> & Hp & Hne).
    unfold advance in H. rewrite Hat in H.
    destruct (_ =? _); [destruct (internalFailure m); [|destruct (ctxErr m); [|destruct (_ && _)]]|]; injection H as <-;
      try done; unfold remaining, phaseSteps; rewrite Hat; cbn; lia.
  - unfold advance in H. rewrite Hat in H. destruct (completionChannel m) as [|x channel] eqn:Hx; [done|].
    injection H as <-. by apply receive_remaining.
  - unfold advance in H. rewrite Hat in H. injection H as <-. unfold remaining, phaseSteps. rewrite Hat. cbn. lia.
  - unfold advance in H. by rewrite Hat in H.
Qed.

Lemma progress_remaining m m' :
  invariant m -> progresses isCanceled plan executes m m' -> (remaining m' < remaining m)%nat.
Proof.
  intros Hi [m1 H|before c started after v e Hx He]; [by apply advance_remaining|].
  unfold remaining, phaseSteps. cbn. rewrite Hx, !length_app. cbn. lia.
Qed.

(** A run with the number of its steps that are progress. *)
Inductive runs : nat -> state_of -> state_of -> Prop :=
  | runs_refl m : runs 0 m m
  | runs_progress k m m1 m2 : progresses isCanceled plan executes m m1 -> runs k m1 m2 -> runs (S k) m m2
  | runs_parent k m m2 : runs k (parentEnds m) m2 -> runs k m m2
  | runs_clock k m d m2 : 0 <= d -> runs k (elapses m d) m2 -> runs k m m2.

Lemma runs_bounded k m m' : invariant m -> runs k m m' -> (k + remaining m' <= remaining m)%nat.
Proof.
  intros Hi H. induction H as [m|k m m1 m2 Hp _ IH|k m m2 _ IH|k m d m2 Hd _ IH].
  - lia.
  - pose proof (progress_remaining m m1 Hi Hp).
    assert (invariant m1) as Hi1 by (eapply step_invariant; [exact Hi|by apply step_progress]). specialize (IH Hi1). lia.
  - apply IH. by apply parentEnds_invariant.
  - apply IH. by apply elapses_invariant.
Qed.

(** The loop never waits for nothing. *)
Lemma never_stuck m :
  invariant m -> (forall c, c ∈ Commands plan -> exists v e, executes c v e) ->
  (exists rs failure, at_phase m = Returned rs failure) \/ exists m', progresses isCanceled plan executes m m'.
Proof.
  intros Hi Hex. destruct (at_phase m) as [|[|c rest] launched|launched| | |rs failure] eqn:Hat; [..|left; by eexists _, _];
    right; try (by eexists; apply progress_loop; unfold advance; rewrite Hat).
  - destruct (advance isCanceled plan m) as [m'|] eqn:Ha; [exists m'; by apply progress_loop|].
    exfalso. unfold advance in Ha. rewrite Hat in Ha. by destruct (_ && _); [|destruct (_ && _)].
  - destruct (advance isCanceled plan m) as [m'|] eqn:Ha; [exists m'; by apply progress_loop|].
    exfalso. unfold advance in Ha. rewrite Hat in Ha.
    by destruct (_ =? _); [destruct (internalFailure m); [|destruct (ctxErr m); [|destruct (_ && _)]]|].
  - destruct (executing m) as [|[c started] rest] eqn:Hx.
    + destruct (completionChannel m) as [|x channel] eqn:Hc.
      * exfalso. pose proof (inv_phase _ Hi) as Hp. unfold phase_ok in Hp. rewrite Hat in Hp.
        pose proof (acc_running _ _ _ (inv_resources _ Hi)) as Hr. unfold active in Hr. rewrite Hx, Hc in Hr. cbn in Hr. lia.
      * eexists. apply progress_loop. unfold advance. by rewrite Hat, Hc.
    + assert (c ∈ Commands plan) as Hin.
      { pose proof (bk_known _ (inv_bookkeeping _ Hi)) as Hk. unfold active in Hk. rewrite Hx in Hk. by inversion Hk. }
      destruct (Hex c Hin) as (v & e & He). eexists. by apply (progress_finish _ _ _ _ [] c started rest v e).
Qed.

(** The same number of steps is enough for every run. *)
Lemma remaining_start now : remaining (start plan now) =
  (length (Commands plan) * (length (Commands plan) + 4) + (5 + length (Commands plan)) + 2 * length (Commands plan))%nat.
Proof.
  unfold remaining, phaseSteps. cbn. rewrite size_list_to_set by apply Hplan. unfold units. rewrite length_fmap. lia.
Qed.
End Facts.
