(* ===== verification/SchedulerTheorems.v ===== *)
(** * What the scheduler guarantees

    The properties of [schedulePlan] ([internal/soundnessgate/scheduler.go]) on validated
    plans, for every interleaving of the loop, the commands, the parent context and time. *)

From S2P Require Export SchedulerFacts.
Local Open Scope Z_scope.

(** ** Results *)
Lemma result_le_spec {T E} (l r : @scheduledWorkResult T E) : result_le l r <-> String.le (workUnit l) (workUnit r).
Proof.
  unfold result_le, comparePlanWorkUnitIDs. rewrite !str_ltb_not_leb. rewrite <- str_leb_le.
  destruct (str_leb (workUnit r) (workUnit l)) eqn:E1, (str_leb (workUnit l) (workUnit r)) eqn:E2; cbn;
    [by split|split; [lia|done]|by split|]. exfalso. apply not_true_iff_false in E1, E2. rewrite str_leb_le in E1, E2.
  destruct (total String.le (workUnit l) (workUnit r)); auto.
Qed.

#[export] Instance result_le_total {T E} : Total (@result_le T E).
Proof. intros l r. rewrite !result_le_spec. apply (total String.le). Qed.

#[export] Instance result_le_trans {T E} : Transitive (@result_le T E).
Proof. intros a b c. rewrite !result_le_spec. apply transitivity. Qed.

Lemma sortedResults_sorted {T E} (m : @machine T E) : StronglySorted String.le (map workUnit (sortedResults m)).
Proof.
  assert (StronglySorted result_le (sortedResults m)) as H by (apply Sorted_StronglySorted; [apply _|]; apply (Sorted_merge_sort result_le)).
  induction H as [|r rs _ IH Hr]; cbn; constructor; [done|]. apply Forall_map. eapply Forall_impl; [exact Hr|].
  intros r' H. by apply result_le_spec.
Qed.

(** The end of a run. *)
Definition returned {T E} (m : @machine T E) (rs : list scheduledWorkResult) (failure : option schedulerError) : Prop :=
  at_phase m = Returned rs failure.

(** Commands at different places of a list without common groups. *)
Lemma groups_apart l : NoDup (groupsOf l) -> forall i j c d g,
  l !! i = Some c -> l !! j = Some d -> i <> j -> g ∈ ExclusivityGroups c -> g ∉ ExclusivityGroups d.
Proof.
  assert (forall l k d g, l !! k = Some d -> g ∈ ExclusivityGroups d -> g ∈ groupsOf l) as Hin.
  { intros l' k d g Hk Hg. apply list_elem_of_In, in_concat. exists (ExclusivityGroups d).
    split; [|by apply list_elem_of_In]. apply list_elem_of_In, list_elem_of_fmap. exists d.
    split; [done|]. by eapply list_elem_of_lookup_2. }
  induction l as [|a l IH]; intros Hn i j c d g Hi Hj Hne Hg; [done|]. rewrite groupsOf_cons in Hn.
  apply NoDup_app in Hn as (_ & Hd & Hn). destruct i as [|i], j as [|j]; cbn in Hi, Hj; try done; simplify_eq.
  - intros Hg'. by apply (Hd g), (Hin l j d).
  - intros Hg'. by apply (Hd g), (Hin l i c).
  - apply (IH Hn i j c d g); [done..|lia|done].
Qed.

Section Returned.
Context {T E : Type} (isCanceled : E -> bool) (plan : ExecutionPlan).
Context (executes : PlanCommandBinding -> T -> option E -> Prop) (Hplan : well_planned plan).
Abbreviation holds := (invariant isCanceled plan executes).

Lemma returned_idle (m : @machine T E) rs failure : holds m -> returned m rs failure -> active m = [].
Proof.
  intros Hm Hr. pose proof (inv_phase _ _ _ _ Hm) as Hp. unfold phase_ok in Hp. rewrite Hr in Hp. destruct Hp as [H0 _].
  by apply (idle_active isCanceled plan executes).
Qed.

Lemma returned_results (m : @machine T E) rs :
  holds m -> returned m rs None ->
  map workUnit rs ≡ₚ units plan /\ StronglySorted String.le (map workUnit rs) /\
  forall r, r ∈ rs -> exists c, c ∈ Commands plan /\ WorkUnitID c = workUnit r /\ executes c (Value r) (Err r).
Proof.
  intros Hm Hr. pose proof (inv_phase _ _ _ _ Hm) as Hp. unfold phase_ok in Hp. rewrite Hr in Hp.
  destruct Hp as (_ & -> & Hrep & _). split; [|split; [apply sortedResults_sorted|]].
  - unfold sortedResults. rewrite (merge_sort_Permutation result_le). exact Hrep.
  - intros r Hin. unfold sortedResults in Hin. rewrite merge_sort_Permutation in Hin.
    by apply (bk_results _ _ _ (inv_bookkeeping _ _ _ _ Hm)).
Qed.

Lemma units_injective c d : c ∈ Commands plan -> d ∈ Commands plan -> WorkUnitID c = WorkUnitID d -> c = d.
Proof.
  intros Hc Hd Heq. pose proof (wp_units _ Hplan) as Hn. unfold units in Hn.
  apply list_elem_of_lookup in Hc as [i Hi]. apply list_elem_of_lookup in Hd as [j Hj].
  assert (i = j) as ->; [|congruence].
  apply (NoDup_lookup _ i j (WorkUnitID c) Hn); rewrite list_lookup_fmap; [by rewrite Hi|]. rewrite Hj, Heq. done.
Qed.

(** Only the loop that launches takes pending units. *)
Lemma advance_pending (m m' : @machine T E) :
  holds m -> internalFailure m = true -> advance isCanceled plan m = Some m' ->
  pending m' = pending m /\ internalFailure m' = true.
Proof.
  intros Hm Hi. pose proof (inv_phase _ _ _ _ Hm) as Hp. unfold phase_ok in Hp. unfold advance.
  destruct (at_phase m) as [|[|c rest] launched|launched| | |rs failure].
  - destruct (_ && (_ =? _)); [|destruct (_ && _)]; by intros [= <-].
  - destruct Hp as [Hp _]. congruence.
  - destruct Hp as [Hp _]. congruence.
  - rewrite Hi. destruct (_ =? _); by intros [= <-].
  - destruct (completionChannel m); [done|]. intros [= <-]. cbn. by rewrite Hi.
  - by intros [= <-].
  - done.
Qed.

Lemma failing_step (m m' : @machine T E) :
  holds m -> internalFailure m = true -> step isCanceled plan executes m m' ->
  pending m' = pending m /\ internalFailure m' = true.
Proof. intros Hm Hi [m1 [m2 H|]| |]; [by apply advance_pending|done..]. Qed.
End Returned.

Lemma same_values {T E} (l1 l2 : list (@scheduledWorkResult T E)) :
  map workUnit l1 = map workUnit l2 ->
  (forall r1 r2, r1 ∈ l1 -> r2 ∈ l2 -> workUnit r1 = workUnit r2 -> Value r1 = Value r2) ->
  map (fun r => (workUnit r, Value r)) l1 = map (fun r => (workUnit r, Value r)) l2.
Proof.
  revert l2. induction l1 as [|r1 l1 IH]; intros [|r2 l2] Hw Hv; try done. cbn in Hw |- *. injection Hw as Hw1 Hw2.
  rewrite Hw1, (Hv r1 r2 ltac:(left) ltac:(left) Hw1). f_equal. apply IH; [done|]. intros; apply Hv; [by right..|done].
Qed.

Section Theorems.
Context {T E : Type} (isCanceled : E -> bool) (env : environment) (plan : ExecutionPlan).
Context (executes : PlanCommandBinding -> T -> option E -> Prop).
Context (Hranges : ranging env) (Hvalid : plan_Validate env plan = inr ()).

Abbreviation reaches := (reachable isCanceled plan executes).

(** C12. In every reachable state the commands that run fit the processors, the memory and
    the workers of the plan together, belong to the plan, and exclude each other by their
    groups. *)
Theorem scheduler_respects_resources m :
  reaches m ->
  sumOf cpuOf (active m) <= budgetCPU (Resources plan) /\
  sumOf memoryOf (active m) <= budgetMemory (Resources plan) /\
  Z.of_nat (length (active m)) <= MaximumWorkers (Resources plan) /\
  Forall (.∈ Commands plan) (active m) /\
  forall i j c d g, active m !! i = Some c -> active m !! j = Some d -> i <> j ->
    g ∈ ExclusivityGroups c -> g ∉ ExclusivityGroups d.
Proof.
  pose proof (validated_well_planned env plan Hranges Hvalid) as Hplan. intros Hm%reachable_invariant; [|done].
  destruct (inv_resources _ _ _ _ Hm) as [Hr Hw Hcpu Hmem _ Hd]. split; [lia|]. split; [lia|]. split; [lia|].
  split; [apply (inv_bookkeeping _ _ _ _ Hm)|]. intros i j c d g. by apply groups_apart.
Qed.

(** C13. A unit runs or has a result only after every unit it requires has completed
    without an error, and no unit is started twice. *)
Theorem scheduler_respects_dependencies m :
  reaches m ->
  NoDup (map WorkUnitID (active m) ++ reported m) /\
  forall u y, u ∈ map WorkUnitID (active m) ++ reported m -> depends (planRequires plan) u y ->
    exists r, r ∈ results m /\ workUnit r = y /\ Err r = None.
Proof.
  pose proof (validated_well_planned env plan Hranges Hvalid) as Hplan. intros Hm%reachable_invariant; [|done].
  pose proof (inv_bookkeeping _ _ _ _ Hm) as Hb. split.
  - pose proof (units_nodup plan executes Hplan m Hb) as Hn. by apply NoDup_app in Hn as (_ & _ & Hn).
  - intros u y Hu Hy. apply (bk_completed _ _ _ Hb). by apply (bk_ready _ _ _ Hb u).
Qed.

(** C14. The scheduler makes progress and returns: when commands answer, a state that has
    not returned can proceed, no run has more progress steps than the plan bounds, and once
    the scheduler has returned no command runs and no completion is left. *)
Theorem scheduler_liveness :
  (forall c, c ∈ Commands plan -> exists v e, executes c v e) ->
  (forall m, reaches m -> (exists rs failure, returned m rs failure) \/ exists m', progresses isCanceled plan executes m m') /\
  (forall k now m, runs isCanceled plan executes k (start plan now) m ->
     let n := length (Commands plan) in (k <= n * (n + 4) + (5 + n) + 2 * n)%nat) /\
  (forall m rs failure, reaches m -> returned m rs failure -> executing m = [] /\ completionChannel m = []).
Proof.
  pose proof (validated_well_planned env plan Hranges Hvalid) as Hplan. intros Hex. split; [|split].
  - intros m Hm%reachable_invariant; [|done]. by apply (never_stuck isCanceled plan executes).
  - intros k now m H. apply runs_bounded in H; [|done|by apply start_invariant]. rewrite remaining_start in H by done.
    cbv zeta. lia.
  - intros m rs failure Hm%reachable_invariant Hr; [|done]. apply (returned_idle _ _ _ _ rs failure) in Hm; [|done].
    unfold active in Hm. apply app_nil in Hm as [H1 H2]. split; by eapply fmap_nil_inv.
Qed.

(** C15. What the scheduler returns.  Without an error every unit of the plan has exactly
    one result, in the order of units, and none carries an error.  A reported failure is
    that of a unit, and no unit before it failed except by the cancellation that followed.
    Otherwise the parent context has ended; the errors of the scheduler itself, a plan it
    cannot admit and units it has lost, never occur. *)
Theorem scheduler_outcome m rs failure :
  reaches m -> returned m rs failure ->
  match failure with
  | None => map workUnit rs ≡ₚ units plan /\ StronglySorted String.le (map workUnit rs) /\ Forall (fun r => Err r = None) rs
  | Some (UnitFailed u e) =>
      (exists r, r ∈ rs /\ workUnit r = u /\ Err r = Some e) /\
      forall r e', r ∈ rs -> Err r = Some e' -> String.le u (workUnit r) \/ isCanceled e' = true
  | Some (ContextEnded cause) => cause = ParentEnded
  | Some CannotAdmit | Some (Incomplete _ _) => False
  end.
Proof.
  pose proof (validated_well_planned env plan Hranges Hvalid) as Hplan. intros Hm%reachable_invariant Hr; [|done].
  pose proof (inv_phase _ _ _ _ Hm) as Hp. unfold phase_ok in Hp. rewrite Hr in Hp. destruct Hp as [_ Hp].
  destruct failure as [[cause| |u e|d n]|]; [by destruct Hp|done| |done|].
  - destruct Hp as (-> & Hd & Hle). pose proof (inv_failing _ _ _ _ Hm) as Hf. unfold sortedResults.
    split.
    + destruct (fl_direct _ _ Hf u e Hd) as (r & Hin & Hw & He). exists r. by rewrite merge_sort_Permutation.
    + intros r e'. rewrite merge_sort_Permutation. intros Hin He.
      destruct (fl_recorded _ _ Hf r e' Hin He) as [Hd'|[Hc _]]; [left|by right]. apply Hle. by rewrite Hd'.
  - destruct Hp as (-> & Hrep & Hn). split; [|split; [apply sortedResults_sorted|done]].
    unfold sortedResults. rewrite (merge_sort_Permutation result_le). exact Hrep.
Qed.

(** The results of a successful run do not depend on the interleaving: when the value
    of a command is determined, two successful runs return the same values in the same
    order. *)
Theorem scheduler_deterministic m1 m2 rs1 rs2 :
  (forall c v e v' e', executes c v e -> executes c v' e' -> v = v') ->
  reaches m1 -> reaches m2 -> returned m1 rs1 None -> returned m2 rs2 None ->
  map (fun r => (workUnit r, Value r)) rs1 = map (fun r => (workUnit r, Value r)) rs2.
Proof.
  pose proof (validated_well_planned env plan Hranges Hvalid) as Hplan. intros Hfun.
  intros Hm1%reachable_invariant Hm2%reachable_invariant Hr1 Hr2; [|done..].
  destruct (returned_results _ _ _ _ rs1 Hm1 Hr1) as (Hu1 & Hs1 & He1).
  destruct (returned_results _ _ _ _ rs2 Hm2 Hr2) as (Hu2 & Hs2 & He2).
  apply same_values.
  - apply (StronglySorted_unique String.le); [done..|]. by rewrite Hu1, Hu2.
  - intros r1 r2 (c1 & Hc1 & Hw1 & Hx1)%He1 (c2 & Hc2 & Hw2 & Hx2)%He2 Heq.
    assert (c1 = c2) as -> by (apply (units_injective plan Hplan); [done..|congruence]). by eapply Hfun.
Qed.

(** After the first unit fails no other unit is started: no step removes a pending
    unit, and the scheduler ends with the failure of a unit. *)
Theorem scheduler_fails_fast m :
  reaches m -> internalFailure m = true ->
  (forall m', step isCanceled plan executes m m' -> pending m' = pending m /\ internalFailure m' = true) /\
  (forall rs failure, returned m rs failure -> exists u e, failure = Some (UnitFailed u e)).
Proof.
  pose proof (validated_well_planned env plan Hranges Hvalid) as Hplan. intros Hm%reachable_invariant Hi; [|done]. split.
  - intros m' Hs. by apply (failing_step isCanceled plan executes m).
  - intros rs failure Hr. pose proof (inv_phase _ _ _ _ Hm) as Hp. unfold phase_ok in Hp. rewrite Hr in Hp.
    destruct Hp as [_ Hp]. pose proof (inv_failing _ _ _ _ Hm) as Hf. pose proof (proj1 (fl_internal _ _ Hf) Hi) as Hc.
    destruct failure as [[cause| |u e|d n]|]; [destruct Hp; congruence|done|by eexists _, _|done|].
    exfalso. destruct Hp as (-> & _ & Hn). apply (fl_nonempty _ _ Hf) in Hi. apply map_choose in Hi as (u & e & He).
    destruct (fl_direct _ _ Hf u e He) as (r & Hin & _ & Her). rewrite Forall_forall in Hn.
    specialize (Hn r). unfold sortedResults in Hn. rewrite merge_sort_Permutation in Hn. rewrite Hn in Her by done. done.
Qed.
End Theorems.

(** ** One interleaving

    The loop runs until it waits; then the command launched first completes. *)
Section Drive.
Context {T E : Type} (isCanceled : E -> bool) (plan : ExecutionPlan) (answer : PlanCommandBinding -> T * option E).

Definition answers (c : PlanCommandBinding) (v : T) (e : option E) : Prop := answer c = (v, e).

Fixpoint drive (fuel : nat) (m : @machine T E) : @machine T E :=
  match fuel with
  | O => m
  | S fuel' =>
      match advance isCanceled plan m with
      | Some m' => drive fuel' m'
      | None =>
          match executing m with
          | [] => m
          | (c, started) :: rest => drive fuel' (finished m [] rest c started (fst (answer c)) (snd (answer c)))
          end
      end
  end.

Lemma drive_steps fuel : forall m, rtc (step isCanceled plan answers) m (drive fuel m).
Proof.
  induction fuel as [|fuel IH]; intros m; cbn [drive]; [done|].
  destruct (advance isCanceled plan m) as [m'|] eqn:Ha.
  - eapply rtc_l; [by apply step_progress, progress_loop|apply IH].
  - destruct (executing m) as [|[c started] rest] eqn:Hx; [done|]. eapply rtc_l; [|apply IH].
    apply step_progress, (progress_finish _ _ _ m [] c started rest); [done|]. unfold answers. by destruct (answer c).
Qed.

Lemma drive_reachable fuel now : reachable isCanceled plan answers (drive fuel (start plan now)).
Proof. exists now. apply drive_steps. Qed.
End Drive.

(** The commands of the sample plan answer their name; in the second run [b] fails. *)
Definition all_pass (c : PlanCommandBinding) : string * option string := (WorkUnitID c, None).
Definition b_fails (c : PlanCommandBinding) : string * option string :=
  (WorkUnitID c, if String.eqb (WorkUnitID c) "b" then Some "exit status 1" else None).
Definition canceled (e : string) : bool := String.eqb e "context canceled".

Abbreviation sample_run answer fuel := (drive canceled sample_plan answer fuel (start sample_plan 0)).

Lemma scheduler_respects_resources_witness :
  map WorkUnitID (active (sample_run all_pass 6)) = ["a"] /\
  sumOf cpuOf (active (sample_run all_pass 6)) <= 4.
Proof.
  split; [vm_compute; reflexivity|].
  apply (scheduler_respects_resources canceled sample_environment sample_plan (answers all_pass) sample_ranging
    sample_plan_valid), drive_reachable.
Defined.

Lemma scheduler_respects_dependencies_witness :
  NoDup (map WorkUnitID (active (sample_run all_pass 30)) ++ reported (sample_run all_pass 30)) /\
  exists r, r ∈ results (sample_run all_pass 30) /\ workUnit r = "a" /\ Err r = None.
Proof.
  destruct (scheduler_respects_dependencies canceled sample_environment sample_plan (answers all_pass) sample_ranging
    sample_plan_valid (sample_run all_pass 30) (drive_reachable _ _ _ _ _)) as [H1 H2].
  split; [exact H1|]. apply (H2 "c"); unfold depends; apply (bool_decide_unpack _); vm_compute; exact I.
Defined.

Lemma scheduler_liveness_witness :
  (exists m', progresses canceled sample_plan (answers all_pass) (sample_run all_pass 6) m') /\
  executing (sample_run all_pass 40) = [].
Proof.
  destruct (scheduler_liveness canceled sample_environment sample_plan (answers all_pass) sample_ranging sample_plan_valid)
    as (H1 & _ & H3).
  { intros c _. by exists (fst (all_pass c)), (snd (all_pass c)). }
  split.
  - destruct (H1 (sample_run all_pass 6) (drive_reachable _ _ _ _ _)) as [(rs & failure & H)|H]; [|exact H].
    exfalso. vm_compute in H. discriminate H.
  - assert (exists rs failure, returned (sample_run all_pass 40) rs failure) as (rs & failure & H)
      by (eexists _, _; vm_compute; reflexivity).
    exact (proj1 (H3 _ rs failure (drive_reachable _ _ _ _ _) H)).
Defined.

Lemma scheduler_outcome_witness :
  exists rs, returned (sample_run b_fails 40) rs (Some (UnitFailed "b" "exit status 1")) /\
    exists r, r ∈ rs /\ workUnit r = "b" /\ Err r = Some "exit status 1".
Proof.
  assert (exists rs, returned (sample_run b_fails 40) rs (Some (UnitFailed "b" "exit status 1"))) as [rs Hrs]
    by (eexists; vm_compute; reflexivity).
  exists rs. split; [exact Hrs|].
  exact (proj1 (scheduler_outcome canceled sample_environment sample_plan (answers b_fails) sample_ranging
    sample_plan_valid (sample_run b_fails 40) rs _ (drive_reachable _ _ _ _ _) Hrs)).
Defined.

Lemma scheduler_deterministic_witness :
  exists rs1 rs2, returned (sample_run all_pass 40) rs1 None /\
    returned (drive canceled sample_plan all_pass 40 (start sample_plan 7)) rs2 None /\
    map (fun r => (workUnit r, Value r)) rs1 = map (fun r => (workUnit r, Value r)) rs2.
Proof.
  assert (exists rs, returned (sample_run all_pass 40) rs None) as [rs1 H1] by (eexists; vm_compute; reflexivity).
  assert (exists rs, returned (drive canceled sample_plan all_pass 40 (start sample_plan 7)) rs None) as [rs2 H2]
    by (eexists; vm_compute; reflexivity).
  exists rs1, rs2. split; [exact H1|]. split; [exact H2|].
  apply (scheduler_deterministic canceled sample_environment sample_plan (answers all_pass) sample_ranging
    sample_plan_valid (sample_run all_pass 40) (drive canceled sample_plan all_pass 40 (start sample_plan 7)));
    [|apply drive_reachable..|exact H1|exact H2].
  intros c v e v' e' Ha Hb. unfold answers in Ha, Hb. congruence.
Defined.

Lemma scheduler_fails_fast_witness :
  internalFailure (sample_run b_fails 34) = true /\
  forall rs failure, returned (sample_run b_fails 34) rs failure -> exists u e, failure = Some (UnitFailed u e).
Proof.
  assert (internalFailure (sample_run b_fails 34) = true) as H by (vm_compute; reflexivity). split; [exact H|].
  exact (proj2 (scheduler_fails_fast canceled sample_environment sample_plan (answers b_fails) sample_ranging
    sample_plan_valid (sample_run b_fails 34) (drive_reachable _ _ _ _ _) H)).
Defined.
