(* ===== verification/PlanOrder.v ===== *)
(** * Serial orders of work units

    The order in which the serial runner of [internal/soundnessgate/plan_runner.go] executes
    the commands of a plan, [dependencyOrderedPlanCommands]. *)

From S2P Require Export SchedulerFacts.
Local Open Scope Z_scope.

(** ** Plans *)

(** The first command that is not completed and whose requirements are. *)
Definition readyCommand (requires : string -> list string) (completed : gset string) (commands : list PlanCommandBinding)
    : option PlanCommandBinding :=
  List.find (fun c => negb (bool_decide (WorkUnitID c ∈ completed)) &&
                      dependenciesComplete (requires (WorkUnitID c)) completed) commands.

(** The loop adds one command per iteration, so the number of commands is enough fuel. *)
Fixpoint orderLoop (fuel : nat) (requires : string -> list string) (commands ordered : list PlanCommandBinding)
    (completed : gset string) : checked (list PlanCommandBinding) :=
  match fuel with
  | O => inr ordered
  | S fuel' =>
      if (length ordered <? length commands)%nat then
        match readyCommand requires completed commands with
        | None => inl (Errorf "serial-reference plan has no dependency-ready work unit" [])
        | Some c => orderLoop fuel' requires commands (ordered ++ [c]) ({[WorkUnitID c]} ∪ completed)
        end
      else inr ordered
  end.

Definition dependencyOrderedPlanCommands (plan : ExecutionPlan) : checked (list PlanCommandBinding) :=
  orderLoop (length (Commands plan)) (planRequires plan) (Commands plan) [] ∅.

(** ** Topological orders *)

(** Every element comes after what it requires. *)
Definition ordered_by {A} (key : A -> string) (requires : string -> list string) (l : list A) : Prop :=
  forall before a after y, l = before ++ a :: after -> depends requires (key a) y -> y ∈ map key before.

Lemma ordered_snoc {A} (key : A -> string) requires l a :
  ordered_by key requires l -> (forall y, depends requires (key a) y -> y ∈ map key l) -> ordered_by key requires (l ++ [a]).
Proof.
  intros Hl Ha before b after y E Hy. destruct (decide (after = [])) as [->|Hne].
  - apply app_inj_tail in E as [-> ->]. by apply Ha.
  - destruct (exists_last Hne) as (after' & z & ->). change (before ++ b :: after' ++ [z]) with (before ++ (b :: after') ++ [z]) in E.
    rewrite app_assoc in E. apply app_inj_tail in E as [-> _]. by eapply Hl.
Qed.

(** What the loop has established. *)
Record ordering (plan : ExecutionPlan) (ordered : list PlanCommandBinding) (completed : gset string) : Prop := {
  or_known : Forall (.∈ Commands plan) ordered;
  or_completed : completed = list_to_set (map WorkUnitID ordered);
  or_nodup : NoDup (map WorkUnitID ordered);
  or_ordered : ordered_by WorkUnitID (planRequires plan) ordered;
}.

Lemma readyCommand_spec requires completed commands c :
  readyCommand requires completed commands = Some c ->
  c ∈ commands /\ WorkUnitID c ∉ completed /\ forall y, depends requires (WorkUnitID c) y -> y ∈ completed.
Proof.
  unfold readyCommand. intros [Hin H]%find_some. apply andb_true_iff in H as [H1%negb_true_iff H2].
  apply bool_decide_eq_false in H1. rewrite dependenciesComplete_spec in H2. by apply list_elem_of_In in Hin.
Qed.

Lemma readyCommand_none requires completed commands c :
  readyCommand requires completed commands = None -> c ∈ commands -> WorkUnitID c ∉ completed ->
  exists y, depends requires (WorkUnitID c) y /\ y ∉ completed.
Proof.
  unfold readyCommand. intros Hn Hin%list_elem_of_In Hc. pose proof (find_none _ _ Hn c Hin) as H.
  apply andb_false_iff in H as [H|H]; [by apply negb_false_iff, bool_decide_eq_true in H|].
  unfold dependenciesComplete in H. apply not_true_iff_false in H. rewrite forallb_forall in H.
  destruct (decide (Exists (.∉ completed) (requires (WorkUnitID c)))) as [(y & Hy & Hn')%Exists_exists|Hall]; [by exists y|].
  exfalso. apply H. intros y Hy%list_elem_of_In. apply bool_decide_eq_true. apply dec_stable. intros Hy'.
  apply Hall, Exists_exists. by exists y.
Qed.

Lemma ordering_ready plan ordered completed :
  well_planned plan -> ordering plan ordered completed -> (length ordered < length (Commands plan))%nat ->
  exists c, readyCommand (planRequires plan) completed (Commands plan) = Some c.
Proof.
  intros Hplan [Hk Hc Hn _] Hlt. destruct (readyCommand _ _ _) as [c|] eqn:E; [by exists c|exfalso].
  set (open := (list_to_set (units plan) ∖ completed : gset string)).
  assert (open <> ∅) as Hne.
  { intros He. assert (list_to_set (units plan) ⊆ completed) as Hsub.
    { intros u Hu. apply dec_stable. intros Hc'. apply (not_elem_of_empty (C:=gset string) u). rewrite <- He. by apply elem_of_difference. }
    apply subseteq_size in Hsub. rewrite Hc, !size_list_to_set in Hsub by (done || apply Hplan).
    unfold units in Hsub. rewrite !length_fmap in Hsub. lia. }
  destruct (acyclic_minimal (planRequires plan) open) as (u & Hu & Hmin); [intros x _; apply Hplan|done|].
  apply elem_of_difference in Hu as [Hu Hnc]. apply elem_of_list_to_set, list_elem_of_fmap in Hu as (c & -> & Hin).
  destruct (readyCommand_none _ _ _ c E Hin Hnc) as (y & Hy & Hyc). apply (Hmin y Hy), elem_of_difference.
  split; [|done]. apply elem_of_list_to_set. by apply (wp_required _ Hplan (WorkUnitID c)).
Qed.

Lemma orderLoop_spec plan fuel : forall ordered completed,
  well_planned plan -> ordering plan ordered completed -> (length ordered + fuel = length (Commands plan))%nat ->
  exists result completed', orderLoop fuel (planRequires plan) (Commands plan) ordered completed = inr result /\
    ordering plan result completed' /\ length result = length (Commands plan).
Proof.
  induction fuel as [|fuel IH]; intros ordered completed Hplan Ho Hlen; cbn [orderLoop].
  { exists ordered, completed. split; [done|]. split; [done|lia]. }
  assert ((length ordered <? length (Commands plan))%nat = true) as -> by (apply Nat.ltb_lt; lia).
  destruct (ordering_ready plan ordered completed Hplan Ho ltac:(lia)) as [c Hc]. rewrite Hc.
  apply readyCommand_spec in Hc as (Hin & Hn & Hd). apply IH; [done| |rewrite length_app; cbn; lia].
  destruct Ho as [Hk Hco Hnd Hor]. split.
  - apply Forall_app. by split; [|apply Forall_singleton].
  - rewrite map_app, list_to_set_app_L, Hco. set_solver.
  - rewrite map_app. apply NoDup_app. split; [done|]. split; [|apply NoDup_singleton].
    intros u Hu ->%list_elem_of_singleton. apply Hn. rewrite Hco. by apply elem_of_list_to_set.
  - apply ordered_snoc; [done|]. intros y Hy. apply Hd in Hy. rewrite Hco in Hy. by apply elem_of_list_to_set in Hy.
Qed.

(** The serial order of a validated plan exists, contains every command of the plan
    exactly once, and puts every command after those it requires. *)
Theorem serial_order_topological env plan :
  ranging env -> plan_Validate env plan = inr () ->
  exists ordered, dependencyOrderedPlanCommands plan = inr ordered /\ ordered ≡ₚ Commands plan /\
    ordered_by WorkUnitID (planRequires plan) ordered.
Proof.
  intros Hr Hplan%validated_well_planned; [|done].
  destruct (orderLoop_spec plan (length (Commands plan)) [] ∅) as (ordered & completed & E & [Hk Hc Hn Ho] & Hlen);
    [done|split; [constructor|done|constructor|by intros []]|done|].
  exists ordered. split; [exact E|]. split; [|done]. apply submseteq_length_Permutation; [|lia].
  apply NoDup_submseteq; [by eapply NoDup_fmap_1|]. by rewrite Forall_forall in Hk.
Qed.

Lemma serial_order_topological_witness :
  exists ordered, dependencyOrderedPlanCommands sample_plan = inr ordered /\
    ordered_by WorkUnitID (planRequires sample_plan) ordered /\ map WorkUnitID ordered ≡ₚ ["a"; "b"; "c"].
Proof.
  destruct (serial_order_topological sample_environment sample_plan sample_ranging sample_plan_valid)
    as (ordered & E & Hp & Ho).
  exists ordered. split; [exact E|]. split; [exact Ho|]. exact (Permutation_map WorkUnitID Hp).
Defined.
