(* ===== verification/Evidence.v ===== *)
(** * Semantic evidence

    The machine-readable evidence of [internal/soundnessevidence]: cases and the
    observations derived from them ([model.go]), the registry of required observations and
    the two-way census between both ([registry.go]). *)

From S2P Require Export Checks.
Local Open Scope Z_scope.

(** ** Vocabulary *)
Definition Layer : Type := string.
Definition Boundary : Type := string.
Definition Outcome : Type := string.
Definition ExecutionStage : Type := string.

Definition LayerRuleContract : Layer := "rule-contract".
Definition LayerOwnerRoute : Layer := "owner-route".
Definition LayerMustReport : Layer := "must-report".
Definition LayerMustNotReport : Layer := "must-not-report".
Definition LayerMustBeInconclusive : Layer := "must-be-inconclusive".
Definition LayerArtifactParity : Layer := "artifact-parity".
Definition LayerProduction : Layer := "production-integration".
Definition LayerGenerated : Layer := "generated".
Definition LayerMetamorphic : Layer := "metamorphic".
Definition LayerFuzz : Layer := "fuzz".
Definition LayerMutation : Layer := "mutation".
Definition LayerDeterminism : Layer := "determinism".
Definition BoundaryCatalogValidation : Boundary := "catalog-validation".
Definition BoundaryProductionAnalyzer : Boundary := "production-analyzer".
Definition BoundaryIndependentModel : Boundary := "independent-model".
Definition BoundaryIndependentOracle : Boundary := "independent-boundary-oracle".
Definition BoundaryMetamorphicAnalyzer : Boundary := "metamorphic-analyzer".
Definition BoundaryFuzzDecoder : Boundary := "fuzz-decoder".
Definition BoundaryMutationRunner : Boundary := "mutation-runner".
Definition BoundaryDeterminismAnalyzer : Boundary := "determinism-analyzer".
Definition BoundaryAggregateAdversarial : Boundary := "aggregate-adversarial".
Definition OutcomeMustReport : Outcome := "must-report".
Definition OutcomeMustNotReport : Outcome := "must-not-report".
Definition OutcomeMustBeInconclusive : Outcome := "must-be-inconclusive".
Definition OutcomeModelAgrees : Outcome := "model-agrees".
Definition OutcomeRelationPreserved : Outcome := "relation-preserved".
Definition OutcomePropertyDetected : Outcome := "property-detected".
Definition OutcomeMutantKilled : Outcome := "mutant-killed".
Definition OutcomeDeterministic : Outcome := "deterministic".
Definition OutcomeRouteExecuted : Outcome := "route-executed".
Definition OutcomeGateRejected : Outcome := "gate-rejected".
Definition StageSourceExtraction : ExecutionStage := "source-extraction".
Definition StageIdentity : ExecutionStage := "identity".
Definition StageGraphConstruction : ExecutionStage := "graph-construction".
Definition StagePropagation : ExecutionStage := "propagation".
Definition StageRefinement : ExecutionStage := "refinement".
Definition StageAggregation : ExecutionStage := "aggregation".
Definition StageReporting : ExecutionStage := "reporting".

Definition layers : list Layer :=
  [LayerRuleContract; LayerOwnerRoute; LayerMustReport; LayerMustNotReport; LayerMustBeInconclusive;
      LayerArtifactParity; LayerProduction; LayerGenerated; LayerMetamorphic; LayerFuzz; LayerMutation;
      LayerDeterminism].
Definition boundaries : list Boundary :=
  [BoundaryCatalogValidation; BoundaryProductionAnalyzer; BoundaryIndependentModel; BoundaryIndependentOracle;
      BoundaryMetamorphicAnalyzer; BoundaryFuzzDecoder; BoundaryMutationRunner; BoundaryDeterminismAnalyzer;
      BoundaryAggregateAdversarial].
Definition outcomes : list Outcome :=
  [OutcomeMustReport; OutcomeMustNotReport; OutcomeMustBeInconclusive; OutcomeModelAgrees;
      OutcomeRelationPreserved; OutcomePropertyDetected; OutcomeMutantKilled; OutcomeDeterministic;
      OutcomeRouteExecuted; OutcomeGateRejected].

(** The order of [canonicalStageSet]. *)
Definition stages : list ExecutionStage :=
  [StageSourceExtraction; StageIdentity; StageGraphConstruction; StagePropagation; StageRefinement;
      StageAggregation; StageReporting].

Definition validLayer (layer : Layer) : bool := bool_decide (layer ∈ layers).
Definition validBoundary (boundary : Boundary) : bool := bool_decide (boundary ∈ boundaries).
Definition validOutcome (outcome : Outcome) : bool := bool_decide (outcome ∈ outcomes).

(** ** Data *)
Record ObservationBinding := mkBinding {
  RunID : string;
  WorkspaceDigest : string;
  ManifestDigest : string;
  BindingCommandDigest : string;
  BindingSubgateID : string;
}.

Record ObservationResult := mkObservationResult { ResultOutcome : Outcome; CaseCount : Z; ResultDiagnosticCount : Z }.

Record SemanticCase := mkCase {
  CaseID : string;
  CaseCategory : string;
  CaseLayer : Layer;
  CaseFeatureID : string;
  CaseBoundary : Boundary;
  CaseExecutedBoundaries : list Boundary;
  CaseOutcome : Outcome;
  DiagnosticCount : Z;
  CaseStages : list ExecutionStage;
  CaseProperties : list string;
  CaseDimensions : list string;
}.

Record SemanticObservation := mkObservation {
  ObservationFormat : Z;
  Binding : ObservationBinding;
  RegistrationID : string;
  Category : string;
  ObservationLayer : Layer;
  FeatureID : string;
  ProducerID : string;
  TestID : string;
  ObservationBoundary : Boundary;
  ExecutedBoundaries : list Boundary;
  Result : ObservationResult;
  Stages : list ExecutionStage;
  Properties : list string;
  Dimensions : list string;
  Cases : list SemanticCase;
}.

#[export] Instance binding_eq_dec : EqDecision ObservationBinding.
Proof. solve_decision. Defined.
#[export] Instance result_eq_dec : EqDecision ObservationResult.
Proof. solve_decision. Defined.

Definition ObservationFormatVersion : Z := 2.

(** A 64-bit signed integer. *)
Definition wrap64 (z : Z) : Z := (z + 2 ^ 63) mod 2 ^ 64 - 2 ^ 63.

(** ** Bindings *)
Definition binding_Validate (binding : ObservationBinding) : checked unit :=
  reject_if (String.eqb (strings_TrimSpace (RunID binding)) "") "observation binding run_id is empty" [] ;;
  _ ← forEach (fun _ digest _ => ValidateDigest ("observation binding " +:+ fst digest) (snd digest)) 0
    [("workspace_digest", WorkspaceDigest binding); ("manifest_digest", ManifestDigest binding);
     ("command_digest", BindingCommandDigest binding)] ();
  validateIdentifier "observation binding subgate_id" (BindingSubgateID binding).

(** ** Lists of a case *)
Definition boundaryStep (name : string) (_ : Z) (boundary previous : Boundary) : checked Boundary :=
  reject_if (negb (validBoundary boundary)) "%s contains unsupported boundary %q" [name; boundary] ;;
  reject_if (negb (String.eqb previous "") && str_leb boundary previous)
    "%s must be unique and use canonical lexical order" [name] ;;
  mret boundary.

Definition validateBoundaries (name : string) (executed : list Boundary) : checked unit :=
  match executed with
  | [] => inl (Errorf "%s is empty" [name])
  | _ => _ ← forEach (boundaryStep name) 0 executed ""; mret ()
  end.

Definition stageStep (name : string) (index : Z) (stage : ExecutionStage) (seen : gset ExecutionStage)
    : checked (gset ExecutionStage) :=
  reject_if (negb (bool_decide (stage ∈ stages))) "%s[%d] %q is unsupported" [name; itoa index; stage] ;;
  reject_if (bool_decide (stage ∈ seen)) "%s contains duplicate %q" [name; stage] ;;
  mret ({[stage]} ∪ seen).

Definition validateStages (name : string) (executed : list ExecutionStage) : checked unit :=
  _ ← forEach (stageStep name) 0 executed ∅; mret ().

(** [validateCanonicalStrings] of this package checks what [validateCanonicalIdentifiers] does. *)
Definition validateCanonicalStrings : string -> list string -> checked unit := validateCanonicalIdentifiers.

Definition canonicalStageSet (set : gset ExecutionStage) : list ExecutionStage :=
  filter (fun stage => stage ∈ set) stages.

Definition canonicalStringSet (set : gset string) : list string := slices_Sort (elements set).
Definition canonicalBoundarySet (set : gset Boundary) : list Boundary := slices_Sort (elements set).
Definition CanonicalBoundaries (executed : list Boundary) : list Boundary := canonicalBoundarySet (list_to_set executed).

(** ** The evidence a case must carry *)
Section Contract.
Context (name : string) (current : SemanticCase).

Definition requireProduction : checked unit :=
  reject_if (negb (bool_decide (BoundaryProductionAnalyzer ∈ CaseExecutedBoundaries current)))
    "%s evidence is disconnected from the production analyzer" [name].

Definition requireFeatureDimension : checked unit :=
  reject_if (negb (bool_decide (CaseFeatureID current ∈ CaseDimensions current)))
    "%s dimensions omit category feature %q" [name; CaseFeatureID current].

Definition requireProperty (property : string) : checked unit :=
  reject_if (negb (bool_decide (property ∈ CaseProperties current))) "%s properties omit %q" [name; property].

Definition independent : bool :=
  bool_decide (BoundaryIndependentModel ∈ CaseExecutedBoundaries current) ||
  bool_decide (BoundaryIndependentOracle ∈ CaseExecutedBoundaries current).

(** What precedes the first slash of the identifier. *)
Definition caseDigest : string := default "" (head (components (CaseID current))).

Definition validateSemanticCaseEvidenceContract : checked unit :=
  if String.eqb (CaseLayer current) LayerGenerated then
    if String.eqb (CaseBoundary current) BoundaryIndependentModel ||
       String.eqb (CaseBoundary current) BoundaryIndependentOracle || independent
    then requireProduction ;; requireFeatureDimension ;; requireProperty "production-analyzer-executed"
    else mret ()
  else if String.eqb (CaseLayer current) LayerMetamorphic then
    reject_if (negb (String.eqb (CaseBoundary current) BoundaryMetamorphicAnalyzer))
      "%s metamorphic evidence uses boundary %q" [name; CaseBoundary current] ;;
    requireProduction ;; requireFeatureDimension ;; requireProperty "production-analyzer-executed" ;;
    requireProperty "relation-checked"
  else if String.eqb (CaseLayer current) LayerFuzz then
    reject_if (negb (String.eqb (CaseBoundary current) BoundaryFuzzDecoder))
      "%s fuzz evidence uses boundary %q" [name; CaseBoundary current] ;;
    reject_if (negb (digestPattern caseDigest))
      "%s fuzz case id %q is not bound to a canonical seed digest" [name; CaseID current] ;;
    requireProduction ;;
    reject_if (negb independent) "%s fuzz evidence has no executed independent model or oracle" [name] ;;
    requireFeatureDimension ;;
    reject_if (negb (existsb (fun property => strings_Contains property "decoded") (CaseProperties current)))
      "%s fuzz properties contain no decoded-structure claim" [name] ;;
    requireProperty "independent-property-checked"
  else if String.eqb (CaseLayer current) LayerDeterminism then
    reject_if (negb (String.eqb (CaseBoundary current) BoundaryDeterminismAnalyzer))
      "%s determinism evidence uses boundary %q" [name; CaseBoundary current] ;;
    requireProduction ;; requireFeatureDimension ;; requireProperty "equivalent-schedules-compared" ;;
    requireProperty "production-analyzer-executed"
  else mret ().
End Contract.

(** ** Cases *)
Record semanticCaseSummary := mkSummary {
  category : string;
  layer : Layer;
  featureID : string;
  boundary : Boundary;
  executedBoundaries : list Boundary;
  result : ObservationResult;
  summaryStages : list ExecutionStage;
  properties : list string;
  dimensions : list string;
}.

(** The sets the loop over the cases collects. *)
Record casesSeen := mkCasesSeen {
  previousID : string;
  diagnostics : Z;
  stageSet : gset ExecutionStage;
  boundarySet : gset Boundary;
  propertySet : gset string;
  dimensionSet : gset string;
}.

Definition noCases : casesSeen := mkCasesSeen "" 0 ∅ ∅ ∅ ∅.

Definition add_all (values : list string) (set : gset string) : gset string := list_to_set values ∪ set.

Definition caseStep (first : SemanticCase) (index : Z) (current : SemanticCase) (seen : casesSeen) : checked casesSeen :=
  let name := "case[" +:+ itoa index +:+ "]" in
  validateIdentifier (name +:+ " id") (CaseID current) ;;
  reject_if (negb (String.eqb (previousID seen) "") && str_leb (CaseID current) (previousID seen))
    "case ids must be unique and use canonical lexical order: %q then %q" [previousID seen; CaseID current] ;;
  validateIdentifier (name +:+ " category") (CaseCategory current) ;;
  validateIdentifier (name +:+ " feature_id") (CaseFeatureID current) ;;
  reject_if (negb (validLayer (CaseLayer current))) "%s layer %q is unsupported" [name; CaseLayer current] ;;
  reject_if (negb (validBoundary (CaseBoundary current))) "%s boundary %q is unsupported" [name; CaseBoundary current] ;;
  validateBoundaries (name +:+ " executed_boundaries") (CaseExecutedBoundaries current) ;;
  reject_if (negb (bool_decide (CaseBoundary current ∈ CaseExecutedBoundaries current)))
    "%s credited boundary %q is absent from executed_boundaries" [name; CaseBoundary current] ;;
  reject_if (negb (validOutcome (CaseOutcome current))) "%s outcome %q is unsupported" [name; CaseOutcome current] ;;
  reject_if (DiagnosticCount current <? 0)
    "%s diagnostic_count = %d, want a non-negative population" [name; itoa (DiagnosticCount current)] ;;
  reject_if (negb (String.eqb (CaseCategory current) (CaseCategory first)) ||
             negb (String.eqb (CaseLayer current) (CaseLayer first)) ||
             negb (String.eqb (CaseFeatureID current) (CaseFeatureID first)) ||
             negb (String.eqb (CaseBoundary current) (CaseBoundary first)) ||
             negb (String.eqb (CaseOutcome current) (CaseOutcome first)))
    "%s semantic identity does not match the observation case set" [name] ;;
  validateSemanticCaseEvidenceContract name current ;;
  validateStages (name +:+ " stages") (CaseStages current) ;;
  validateCanonicalStrings (name +:+ " properties") (CaseProperties current) ;;
  validateCanonicalStrings (name +:+ " dimensions") (CaseDimensions current) ;;
  mret (mkCasesSeen (CaseID current) (wrap64 (diagnostics seen + DiagnosticCount current))
    (add_all (CaseStages current) (stageSet seen)) (add_all (CaseExecutedBoundaries current) (boundarySet seen))
    (add_all (CaseProperties current) (propertySet seen)) (add_all (CaseDimensions current) (dimensionSet seen))).

Definition summarizeSemanticCases (cases : list SemanticCase) : checked semanticCaseSummary :=
  match cases with
  | [] => inl (Errorf "executed case population is empty" [])
  | first :: _ =>
      seen ← forEach (caseStep first) 0 cases noCases;
      mret (mkSummary (CaseCategory first) (CaseLayer first) (CaseFeatureID first) (CaseBoundary first)
        (canonicalBoundarySet (boundarySet seen))
        (mkObservationResult (CaseOutcome first) (Z.of_nat (length cases)) (diagnostics seen))
        (canonicalStageSet (stageSet seen)) (canonicalStringSet (propertySet seen))
        (canonicalStringSet (dimensionSet seen)))
  end.

(** ** Observations *)
Definition emptyBinding : ObservationBinding := mkBinding "" "" "" "" "".

Definition ObservationFromCases (registrationID producerID testID : string) (cases : list SemanticCase)
    : checked SemanticObservation :=
  summary ← summarizeSemanticCases cases;
  mret (mkObservation ObservationFormatVersion emptyBinding registrationID (category summary) (layer summary)
    (featureID summary) producerID testID (boundary summary) (executedBoundaries summary) (result summary)
    (summaryStages summary) (properties summary) (dimensions summary) cases).

Definition observationIdentifiers (observation : SemanticObservation) : list (string * string) :=
  [("registration_id", RegistrationID observation); ("category", Category observation);
   ("feature_id", FeatureID observation); ("producer_id", ProducerID observation); ("test_id", TestID observation)].

(** The fields of an observation that its cases determine. *)
Definition derivedFrom (observation : SemanticObservation) (summary : semanticCaseSummary) : checked unit :=
  reject_if (negb (String.eqb (Category observation) (category summary)))
    "observation category %q is not derived from executed cases %q" [Category observation; category summary] ;;
  reject_if (negb (String.eqb (ObservationLayer observation) (layer summary)))
    "observation layer %q is not derived from executed cases %q" [ObservationLayer observation; layer summary] ;;
  reject_if (negb (String.eqb (FeatureID observation) (featureID summary)))
    "observation feature_id %q is not derived from executed cases %q" [FeatureID observation; featureID summary] ;;
  reject_if (negb (String.eqb (ObservationBoundary observation) (boundary summary)))
    "observation boundary %q is not derived from executed cases %q" [ObservationBoundary observation; boundary summary] ;;
  reject_if (negb (bool_decide (ExecutedBoundaries observation = executedBoundaries summary)))
    "observation executed_boundaries are not derived from executed cases" [] ;;
  reject_if (negb (bool_decide (Result observation = result summary)))
    "observation result %+v is not derived from executed cases %+v" [] ;;
  reject_if (negb (bool_decide (Stages observation = summaryStages summary)))
    "observation stages are not derived from executed cases" [] ;;
  reject_if (negb (bool_decide (Properties observation = properties summary)))
    "observation properties are not derived from executed cases" [] ;;
  reject_if (negb (bool_decide (Dimensions observation = dimensions summary)))
    "observation dimensions are not derived from executed cases" [].

Definition observation_Validate (observation : SemanticObservation) : checked unit :=
  reject_if (negb (ObservationFormat observation =? ObservationFormatVersion))
    "observation format_version = %d, want %d" [itoa (ObservationFormat observation); itoa ObservationFormatVersion] ;;
  binding_Validate (Binding observation) ;;
  _ ← forEach (fun _ identifier _ => validateIdentifier ("observation " +:+ fst identifier) (snd identifier)) 0
    (observationIdentifiers observation) ();
  reject_if (negb (String.eqb (ProducerID observation) (BindingSubgateID (Binding observation))))
    "observation producer_id %q does not match binding subgate_id %q"
    [ProducerID observation; BindingSubgateID (Binding observation)] ;;
  reject_if (negb (validLayer (ObservationLayer observation))) "observation layer %q is unsupported"
    [ObservationLayer observation] ;;
  reject_if (negb (validBoundary (ObservationBoundary observation))) "observation boundary %q is unsupported"
    [ObservationBoundary observation] ;;
  validateBoundaries "observation executed_boundaries" (ExecutedBoundaries observation) ;;
  reject_if (negb (validOutcome (ResultOutcome (Result observation)))) "observation outcome %q is unsupported"
    [ResultOutcome (Result observation)] ;;
  reject_if (CaseCount (Result observation) <=? 0) "observation case_count = %d, want a positive population"
    [itoa (CaseCount (Result observation))] ;;
  reject_if (ResultDiagnosticCount (Result observation) <? 0)
    "observation diagnostic_count = %d, want a non-negative population"
    [itoa (ResultDiagnosticCount (Result observation))] ;;
  validateStages "observation stages" (Stages observation) ;;
  validateCanonicalStrings "observation properties" (Properties observation) ;;
  validateCanonicalStrings "observation dimensions" (Dimensions observation) ;;
  summary ← wrapped "observation cases: %w" [] (summarizeSemanticCases (Cases observation));
  derivedFrom observation summary.

(** ** The registry *)
Record CountRange := mkRange { rangeMinimum : Z; rangeMaximum : option Z }.

Record Expectation := mkExpectation {
  ExpectedOutcome : Outcome;
  MinimumCases : Z;
  Diagnostics : CountRange;
  RequiredStages : list ExecutionStage;
  RequiredProperties : list string;
  RequiredDimensions : list string;
}.

Record Registration := mkRegistration {
  registration_ID : string;
  registration_Category : string;
  registration_Layer : Layer;
  registration_FeatureID : string;
  registration_ProducerID : string;
  registration_TestID : string;
  registration_Boundary : Boundary;
  Expected : Expectation;
}.

Record EvidenceRegistry := mkRegistry { RegistryFormat : Z; Registrations : list Registration }.

Definition RegistryFormatVersion : Z := 2.

Definition categoryLayerKey (registration : Registration) : string :=
  registration_Category registration +:+ String Ascii.zero (registration_Layer registration).

Definition range_validate (countRange : CountRange) (index : Z) : checked unit :=
  reject_if (rangeMinimum countRange <? 0)
    "evidence registry registrations[%d].expected.diagnostics.minimum = %d, want non-negative"
    [itoa index; itoa (rangeMinimum countRange)] ;;
  match rangeMaximum countRange with
  | Some maximum =>
      reject_if (maximum <? rangeMinimum countRange)
        "evidence registry registrations[%d].expected.diagnostics.maximum = %d, want at least minimum %d"
        [itoa index; itoa maximum; itoa (rangeMinimum countRange)]
  | None => mret ()
  end.

Definition range_validateCount (countRange : CountRange) (registrationID : string) (count : Z) : checked unit :=
  reject_if (count <? rangeMinimum countRange) "evidence registration %q diagnostic_count = %d, want at least %d"
    [registrationID; itoa count; itoa (rangeMinimum countRange)] ;;
  match rangeMaximum countRange with
  | Some maximum =>
      reject_if (maximum <? count) "evidence registration %q diagnostic_count = %d, want at most %d"
        [registrationID; itoa count; itoa maximum]
  | None => mret ()
  end.

Definition registrationField (index : Z) (field : string) : string :=
  "evidence registry registrations[" +:+ itoa index +:+ "]." +:+ field.

Definition registration_validate (registration : Registration) (index : Z) : checked unit :=
  let expected := Expected registration in
  _ ← forEach (fun _ identifier _ => validateIdentifier (registrationField index (fst identifier)) (snd identifier)) 0
    [("id", registration_ID registration); ("category", registration_Category registration);
     ("feature_id", registration_FeatureID registration); ("producer_id", registration_ProducerID registration);
     ("test_id", registration_TestID registration)] ();
  reject_if (negb (validLayer (registration_Layer registration)))
    "evidence registry registrations[%d].layer %q is unsupported" [itoa index; registration_Layer registration] ;;
  reject_if (negb (validBoundary (registration_Boundary registration)))
    "evidence registry registrations[%d].boundary %q is unsupported" [itoa index; registration_Boundary registration] ;;
  reject_if (negb (validOutcome (ExpectedOutcome expected)))
    "evidence registry registrations[%d].expected.outcome %q is unsupported" [itoa index; ExpectedOutcome expected] ;;
  reject_if (MinimumCases expected <=? 0)
    "evidence registry registrations[%d].expected.minimum_cases = %d, want a positive population"
    [itoa index; itoa (MinimumCases expected)] ;;
  range_validate (Diagnostics expected) index ;;
  validateStages (registrationField index "expected.required_stages") (RequiredStages expected) ;;
  validateCanonicalStrings (registrationField index "expected.required_properties") (RequiredProperties expected) ;;
  validateCanonicalStrings (registrationField index "expected.required_dimensions") (RequiredDimensions expected).

Definition registryStep (index : Z) (registration : Registration) (seen : gset string * gset string * string)
    : checked (gset string * gset string * string) :=
  let '((seenIDs, seenKeys), previous) := seen in
  let id := registration_ID registration in
  let key := categoryLayerKey registration in
  registration_validate registration index ;;
  reject_if (bool_decide (id ∈ seenIDs)) "evidence registry contains duplicate registration id %q" [id] ;;
  reject_if (bool_decide (key ∈ seenKeys)) "evidence registry contains duplicate category/layer registration %q" [key] ;;
  reject_if (negb (String.eqb previous "") && str_ltb id previous)
    "evidence registry registrations must use canonical id order: %q precedes %q" [id; previous] ;;
  mret ({[id]} ∪ seenIDs, {[key]} ∪ seenKeys, id).

Definition registry_Validate (registry : EvidenceRegistry) : checked unit :=
  reject_if (negb (RegistryFormat registry =? RegistryFormatVersion))
    "evidence registry format_version = %d, want %d" [itoa (RegistryFormat registry); itoa RegistryFormatVersion] ;;
  reject_if (match Registrations registry with [] => true | _ => false end) "evidence registry has no registrations" [] ;;
  _ ← forEach registryStep 0 (Registrations registry) (∅, ∅, "");
  mret ().

(** ** The census *)
Definition validateObservation (registration : Registration) (observation : SemanticObservation)
    (expectedBinding : ObservationBinding) : checked unit :=
  let expected := Expected registration in
  let id := registration_ID registration in
  reject_if (negb (bool_decide (Binding observation = expectedBinding)))
    "evidence registration %q has stale or mismatched binding" [id] ;;
  reject_if (negb (bool_decide
      ([Category observation; ObservationLayer observation; FeatureID observation; ProducerID observation;
        TestID observation; ObservationBoundary observation] =
       [registration_Category registration; registration_Layer registration; registration_FeatureID registration;
        registration_ProducerID registration; registration_TestID registration; registration_Boundary registration])))
    "evidence registration %q observation identity does not match the registry" [id] ;;
  reject_if (negb (String.eqb (ResultOutcome (Result observation)) (ExpectedOutcome expected)))
    "evidence registration %q outcome = %q, want %q" [id; ResultOutcome (Result observation); ExpectedOutcome expected] ;;
  reject_if (CaseCount (Result observation) <? MinimumCases expected)
    "evidence registration %q case_count = %d, want at least %d"
    [id; itoa (CaseCount (Result observation)); itoa (MinimumCases expected)] ;;
  range_validateCount (Diagnostics expected) id (ResultDiagnosticCount (Result observation)) ;;
  reject_if (negb (bool_decide (Stages observation = RequiredStages expected)))
    "evidence registration %q stages do not exactly match the registry" [id] ;;
  reject_if (negb (bool_decide (Properties observation = RequiredProperties expected)))
    "evidence registration %q properties do not exactly match the registry" [id] ;;
  reject_if (negb (bool_decide (Dimensions observation = RequiredDimensions expected)))
    "evidence registration %q dimensions do not exactly match the registry" [id].

(** The registrations whose producer is selected, by their identifiers. *)
Definition selectStep (expectedBindings : gmap string ObservationBinding) (_ : Z) (registration : Registration)
    (selected : gmap string Registration) : checked (gmap string Registration) :=
  match expectedBindings !! registration_ProducerID registration with
  | None => mret selected
  | Some binding =>
      wrapped "evidence registration %q producer binding: %w" [registration_ID registration] (binding_Validate binding) ;;
      reject_if (negb (String.eqb (BindingSubgateID binding) (registration_ProducerID registration)))
        "evidence registration %q producer %q has binding subgate_id %q"
        [registration_ID registration; registration_ProducerID registration; BindingSubgateID binding] ;;
      mret (<[registration_ID registration := registration]> selected)
  end.

Definition censusStep (expectedBindings : gmap string ObservationBinding) (selected : gmap string Registration) (index : Z)
    (observation : SemanticObservation) (seen : gset string) : checked (gset string) :=
  let id := RegistrationID observation in
  wrapped "evidence observation[%d]: %w" [itoa index] (observation_Validate observation) ;;
  match selected !! id with
  | None => inl (Errorf "evidence observation[%d] has extra registration id %q" [itoa index; id])
  | Some registration =>
      reject_if (bool_decide (id ∈ seen)) "evidence observations contain duplicate registration id %q" [id] ;;
      validateObservation registration observation
        (default emptyBinding (expectedBindings !! registration_ProducerID registration)) ;;
      mret ({[id]} ∪ seen)
  end.

Definition ValidateObservations (registry : EvidenceRegistry) (observations : list SemanticObservation)
    (expectedBindings : gmap string ObservationBinding) : checked unit :=
  registry_Validate registry ;;
  selected ← forEach (selectStep expectedBindings) 0 (Registrations registry) ∅;
  seen ← forEach (censusStep expectedBindings selected) 0 observations ∅;
  forEach (fun _ registration _ =>
    reject_if (bool_decide (is_Some (selected !! registration_ID registration)) &&
               negb (bool_decide (registration_ID registration ∈ seen)))
      "evidence registration %q has no observation" [registration_ID registration]) 0 (Registrations registry) ().
