(* ===== verification/EvidenceFacts.v ===== *)
(** * What accepted evidence means

    The census between the registry and the observations of
    [internal/soundnessevidence/registry.go] is exact in both directions, and observations
    derived from cases ([model.go]) validate. *)

From S2P Require Export Evidence.
Local Open Scope Z_scope.

(** ** The census *)
Section Census.
Context (expectedBindings : gmap string ObservationBinding).

(** The registrations the executing profile selects: those with a bound producer. *)
Definition bound (registration : Registration) : Prop :=
  is_Some (expectedBindings !! registration_ProducerID registration).

#[local] Instance bound_dec registration : Decision (bound registration) := _.

Definition selectedRegistrations (registrations : list Registration) : list Registration := filter bound registrations.

(** The binding of a registration is valid and names its producer. *)
Definition well_bound (registration : Registration) : Prop :=
  forall b, expectedBindings !! registration_ProducerID registration = Some b ->
    binding_Validate b = inr () /\ BindingSubgateID b = registration_ProducerID registration.

Definition addSelected (m : gmap string Registration) (registration : Registration) : gmap string Registration :=
  if decide (bound registration) then <[registration_ID registration := registration]> m else m.

Lemma selectStep_inr index registration m m' :
  selectStep expectedBindings index registration m = inr m' <-> well_bound registration /\ m' = addSelected m registration.
Proof.
  unfold selectStep, well_bound, addSelected. destruct (decide (bound registration)) as [[b Hb]|Hn].
  - rewrite Hb. split.
    + intros H. open_checks. split; [|done]. intros b' [= <-]. split; [done|]. by apply String.eqb_eq.
    + intros [Hw ->]. destruct (Hw b eq_refl) as [Hv Hs]. rewrite Hv, Hs. cbn. unfold reject_if.
      by rewrite String.eqb_refl.
  - apply eq_None_not_Some in Hn. rewrite Hn. split; [by intros [= <-]|by intros [_ ->]].
Qed.

Lemma selectLoop_inr registrations : forall index m m',
  forEach (selectStep expectedBindings) index registrations m = inr m' <->
  Forall well_bound registrations /\ m' = foldl addSelected m registrations.
Proof.
  induction registrations as [|r l IH]; intros index m m'; cbn [forEach foldl].
  - split; [by intros [= <-]|by intros [_ ->]].
  - rewrite checked_bind_inr. split.
    + intros (m1 & [Hw ->]%selectStep_inr & [Hl ->]%IH). split; [by constructor|done].
    + intros [Hw ->]. inversion Hw; subst. exists (addSelected m r). rewrite selectStep_inr, IH. done.
Qed.

Lemma selected_indexed registrations :
  NoDup (map registration_ID registrations) ->
  indexed registration_ID id (selectedRegistrations registrations) (foldl addSelected ∅ registrations).
Proof.
  induction registrations as [|r l IH] using rev_ind; [intros _; apply indexed_nil|].
  rewrite map_app, foldl_app. intros (Hl & Hd & _)%NoDup_app. cbn. unfold addSelected, selectedRegistrations.
  rewrite filter_app, filter_cons, filter_nil. destruct (decide (bound r)) as [Hb|Hb]; [|rewrite app_nil_r; by apply IH].
  apply (indexed_snoc registration_ID id); [by apply IH|]. apply eq_None_not_Some.
  rewrite (indexed_dom registration_ID id _ _ _ (IH Hl)). intros Hin.
  apply (Hd (registration_ID r)); [|by apply list_elem_of_singleton]. apply list_elem_of_fmap in Hin as (r' & Heq & Hin).
  apply list_elem_of_filter in Hin as [_ Hin]. apply list_elem_of_fmap. by exists r'.
Qed.

(** An observation is what its registration expects. *)
Record fulfils (registration : Registration) (observation : SemanticObservation) (binding : ObservationBinding) : Prop := {
  ful_binding : Binding observation = binding;
  ful_identity :
    [Category observation; ObservationLayer observation; FeatureID observation; ProducerID observation;
     TestID observation; ObservationBoundary observation] =
    [registration_Category registration; registration_Layer registration; registration_FeatureID registration;
     registration_ProducerID registration; registration_TestID registration; registration_Boundary registration];
  ful_outcome : ResultOutcome (Result observation) = ExpectedOutcome (Expected registration);
  ful_cases : MinimumCases (Expected registration) <= CaseCount (Result observation);
  ful_diagnostics : rangeMinimum (Diagnostics (Expected registration)) <= ResultDiagnosticCount (Result observation) /\
    (forall maximum, rangeMaximum (Diagnostics (Expected registration)) = Some maximum ->
      ResultDiagnosticCount (Result observation) <= maximum);
  ful_stages : Stages observation = RequiredStages (Expected registration);
  ful_properties : Properties observation = RequiredProperties (Expected registration);
  ful_dimensions : Dimensions observation = RequiredDimensions (Expected registration);
}.

Lemma range_validateCount_inr range registrationID count :
  range_validateCount range registrationID count = inr () <->
  rangeMinimum range <= count /\ forall maximum, rangeMaximum range = Some maximum -> count <= maximum.
Proof.
  unfold range_validateCount. destruct (rangeMaximum range) as [maximum|]; rewrite checked_bind_inr; split.
  - intros ([] & H1%reject_if_inr & H2%reject_if_inr). split; [lia|]. intros m [= <-]. lia.
  - intros [H1 H2]. exists (). rewrite !reject_if_inr. specialize (H2 maximum eq_refl). lia.
  - intros ([] & H1%reject_if_inr & _). split; [lia|done].
  - intros [H1 _]. exists (). rewrite reject_if_inr. split; [lia|done].
Qed.

Lemma validateObservation_inr registration observation binding :
  validateObservation registration observation binding = inr () <-> fulfils registration observation binding.
Proof.
  unfold validateObservation. split.
  - intros H. apply checked_bind_inr in H as ([] & H1%reject_if_inr & H). apply checked_bind_inr in H as ([] & H2%reject_if_inr & H).
    apply checked_bind_inr in H as ([] & H3%reject_if_inr & H). apply checked_bind_inr in H as ([] & H4%reject_if_inr & H).
    apply checked_bind_inr in H as ([] & H5%range_validateCount_inr & H). apply checked_bind_inr in H as ([] & H6%reject_if_inr & H).
    apply checked_bind_inr in H as ([] & H7%reject_if_inr & H8%reject_if_inr).
    apply negb_false_iff in H1, H2, H3, H6, H7, H8. rewrite bool_decide_eq_true in H1, H2, H6, H7, H8.
    apply String.eqb_eq in H3. split; try done. lia.
  - intros [H1 H2 H3 H4 H5 H6 H7 H8]. rewrite (bool_decide_eq_true_2 _ H1), (bool_decide_eq_true_2 _ H2), H3, String.eqb_refl.
    rewrite (bool_decide_eq_true_2 _ H6), (bool_decide_eq_true_2 _ H7), (bool_decide_eq_true_2 _ H8).
    assert ((CaseCount (Result observation) <? MinimumCases (Expected registration)) = false) as -> by lia.
    rewrite (proj2 (range_validateCount_inr _ (registration_ID registration) _) H5). reflexivity.
Qed.

(** The registration an observation belongs to among the selected ones. *)
Definition accepted (selected : gmap string Registration) (observation : SemanticObservation) : Prop :=
  observation_Validate observation = inr () /\
  exists registration, selected !! RegistrationID observation = Some registration /\
    fulfils registration observation (default emptyBinding (expectedBindings !! registration_ProducerID registration)).

Lemma censusStep_inr selected index observation seen seen' :
  censusStep expectedBindings selected index observation seen = inr seen' <->
  accepted selected observation /\ RegistrationID observation ∉ seen /\ seen' = {[RegistrationID observation]} ∪ seen.
Proof.
  unfold censusStep, accepted. rewrite checked_bind_inr. split.
  - intros ([] & Hv%wrapped_inr & H). destruct (selected !! RegistrationID observation) as [r|] eqn:E; [|done].
    apply checked_bind_inr in H as ([] & Hn%reject_if_inr%bool_decide_eq_false & H).
    apply checked_bind_inr in H as ([] & Hf%validateObservation_inr & [= <-]). split; [|done]. split; [done|]. by exists r.
  - intros ((Hv & r & E & Hf) & Hn & ->). exists (). rewrite wrapped_inr. split; [done|]. rewrite E.
    rewrite (bool_decide_eq_false_2 _ Hn). apply validateObservation_inr in Hf. cbn. by rewrite Hf.
Qed.

Lemma censusLoop_inr selected observations : forall index seen seen',
  forEach (censusStep expectedBindings selected) index observations seen = inr seen' <->
  Forall (accepted selected) observations /\ NoDup (map RegistrationID observations) /\
  (forall o, o ∈ observations -> RegistrationID o ∉ seen) /\
  seen' = list_to_set (map RegistrationID observations) ∪ seen.
Proof.
  induction observations as [|o l IH]; intros index seen seen'; cbn [forEach map].
  - split; [intros [= <-]; split; [constructor|split; [constructor|split; [|cbn]; set_solver]]|].
    intros (_ & _ & _ & ->). cbn. by rewrite union_empty_l_L.
  - rewrite checked_bind_inr. split.
    + intros (seen1 & (Ha & Hn & ->)%censusStep_inr & (H1 & H2 & H3 & ->)%IH).
      split; [by constructor|]. split; [constructor; [|done]|split; [|cbn; set_solver]].
      * intros (o' & Heq & Hin)%list_elem_of_fmap. specialize (H3 o' Hin). rewrite <- Heq in H3. set_solver.
      * intros o' [->|Hin]%elem_of_cons; [done|]. specialize (H3 o' Hin). set_solver.
    + intros (H1 & H2 & H3 & ->). inversion H1; inversion H2; subst. exists ({[RegistrationID o]} ∪ seen).
      rewrite censusStep_inr, IH. split; [split; [done|split; [apply H3; left|done]]|].
      split; [done|]. split; [done|]. split; [|cbn; set_solver]. intros o' Hin [Heq%elem_of_singleton|Hs]%elem_of_union.
      * match goal with Hn : RegistrationID o ∉ _ |- _ => apply Hn end. rewrite <- Heq. apply list_elem_of_fmap. by exists o'.
      * by apply (H3 o'); [right|].
Qed.

Lemma accepted_indexed registrations selected observation :
  indexed registration_ID id (selectedRegistrations registrations) selected ->
  accepted selected observation <->
  observation_Validate observation = inr () /\ exists r b, r ∈ selectedRegistrations registrations /\
    registration_ID r = RegistrationID observation /\ expectedBindings !! registration_ProducerID r = Some b /\
    fulfils r observation b.
Proof.
  intros [_ Hi]. unfold accepted. split; intros [Hv H]; (split; [done|]).
  - destruct H as (r & (r' & Hin & Hid & Hr)%Hi & Hf). cbn in Hr. subst r'.
    pose proof Hin as [[b Hb] _]%list_elem_of_filter. exists r, b. rewrite Hb in Hf. done.
  - destruct H as (r & b & Hin & Hid & Hb & Hf). exists r. rewrite Hb. split; [|done]. apply Hi. by exists r.
Qed.

Lemma forEach_reject {A} (f : A -> bool) format args (l : list A) : forall index,
  forEach (fun _ a _ => reject_if (f a) (format a) (args a)) index l () = inr () <-> Forall (fun a => f a = false) l.
Proof.
  induction l as [|a l IH]; intros index; cbn [forEach]; [by split|]. rewrite checked_bind_inr. split.
  - intros ([] & H%reject_if_inr & Hl%IH). by constructor.
  - inversion 1; subst. exists (). rewrite reject_if_inr, IH. done.
Qed.

Lemma registry_nodup registry : registry_Validate registry = inr () -> NoDup (map registration_ID (Registrations registry)).
Proof.
  intros H. unfold registry_Validate in H. apply checked_bind_inr in H as ([] & _ & H).
  apply checked_bind_inr in H as ([] & _ & H). apply checked_bind_inr in H as ([[ids keys] previous] & H & _).
  apply (forEach_inv (fun l s => NoDup (map registration_ID l) /\ fst (fst s) = list_to_set (map registration_ID l))
    _ _ 0 [] (∅, ∅, "")) in H; [apply H| |split; [constructor|done]].
  intros i before a [[ids' keys'] previous'] s' E [Hn Hids]. cbn in Hids. unfold registryStep in E. open_checks. cbn.
  rewrite map_app. cbn [map]. split.
  - apply NoDup_app. split; [done|]. split; [|apply NoDup_singleton]. intros u Hu ->%list_elem_of_singleton.
    match goal with Hd : registration_ID a ∉ _ |- _ => apply Hd end. rewrite Hids. by apply elem_of_list_to_set.
  - rewrite list_to_set_app_L, Hids. set_solver.
Qed.
End Census.

(** C18. The census is exact in both directions.  Observations are accepted for a registry
    and the bindings of the executed producers exactly when the registry is valid, every
    selected producer is validly bound to itself, the observations are in one-to-one
    correspondence with the registrations of the bound producers, and each is valid and what
    its registration expects. *)
Theorem census_is_exact registry observations expectedBindings :
  let selected := selectedRegistrations expectedBindings (Registrations registry) in
  ValidateObservations registry observations expectedBindings = inr () <->
  registry_Validate registry = inr () /\
  Forall (well_bound expectedBindings) (Registrations registry) /\
  map RegistrationID observations ≡ₚ map registration_ID selected /\
  Forall (fun o => observation_Validate o = inr () /\ exists r b, r ∈ selected /\ registration_ID r = RegistrationID o /\
    expectedBindings !! registration_ProducerID r = Some b /\ fulfils r o b) observations.
Proof.
  cbv zeta. unfold ValidateObservations. rewrite checked_bind_inr. split.
  - intros ([] & Hr & H). pose proof (registry_nodup registry Hr) as Hnd.
    apply checked_bind_inr in H as (selected & [Hw ->]%selectLoop_inr & H).
    apply checked_bind_inr in H as (seen & (Ha & Hn & _ & ->)%censusLoop_inr & H%forEach_reject).
    pose proof (selected_indexed expectedBindings _ Hnd) as Hi. split; [done|]. split; [done|].
    assert (Forall (fun o => observation_Validate o = inr () /\ exists r b,
      r ∈ selectedRegistrations expectedBindings (Registrations registry) /\ registration_ID r = RegistrationID o /\
      expectedBindings !! registration_ProducerID r = Some b /\ fulfils r o b) observations) as Hall.
    { eapply Forall_impl; [exact Ha|]. intros o. by apply (accepted_indexed _ (Registrations registry)). }
    split; [|done]. apply NoDup_Permutation; [done|apply Hi|]. intros u. split.
    + intros (o & -> & Hin)%list_elem_of_fmap. rewrite Forall_forall in Hall.
      destruct (Hall o Hin) as (_ & r & b & Hr' & <- & _). apply list_elem_of_fmap. by exists r.
    + intros (r & -> & Hin)%list_elem_of_fmap. rewrite Forall_forall in H.
      pose proof Hin as [_ Hreg]%list_elem_of_filter. specialize (H r Hreg).
      apply andb_false_iff in H as [H|H].
      * apply bool_decide_eq_false in H. destruct H. apply (indexed_dom _ _ _ _ _ Hi), list_elem_of_fmap. by exists r.
      * apply negb_false_iff, bool_decide_eq_true in H. set_solver.
  - intros (Hr & Hw & Hp & Ha). exists (). split; [done|]. rewrite checked_bind_inr.
    pose proof (selected_indexed expectedBindings _ (registry_nodup registry Hr)) as Hi.
    eexists. split; [by apply selectLoop_inr|]. rewrite checked_bind_inr. eexists. split.
    + apply censusLoop_inr. split; [|split; [rewrite Hp; apply Hi|split; [set_solver|done]]].
      eapply Forall_impl; [exact Ha|]. intros o. by apply (accepted_indexed _ (Registrations registry)).
    + apply forEach_reject, Forall_forall. intros r Hin. apply andb_false_iff.
      destruct (decide (is_Some (foldl (addSelected expectedBindings) ∅ (Registrations registry) !! registration_ID r)))
        as [Hs|Hs]; [right|left; by apply bool_decide_eq_false].
      apply negb_false_iff, bool_decide_eq_true. apply elem_of_union; left. apply elem_of_list_to_set. rewrite Hp.
      by apply (indexed_dom _ _ _ _ _ Hi).
Qed.

(** ** Derived observations *)
Lemma wrap64_add a b : wrap64 (wrap64 a + b) = wrap64 (a + b).
Proof.
  unfold wrap64. replace ((a + 2 ^ 63) mod 2 ^ 64 - 2 ^ 63 + b + 2 ^ 63) with ((a + 2 ^ 63) mod 2 ^ 64 + b) by lia.
  rewrite Zplus_mod_idemp_l. f_equal. f_equal. lia.
Qed.

Lemma wrap64_small z : - 2 ^ 63 <= z < 2 ^ 63 -> wrap64 z = z.
Proof. intros H. unfold wrap64. rewrite Z.mod_small; lia. Qed.

(** The sum of the diagnostics of cases. *)
Definition diagnosed (cases : list SemanticCase) : Z := foldr (fun c n => DiagnosticCount c + n) 0 cases.

Lemma diagnosed_snoc cases c : diagnosed (cases ++ [c]) = diagnosed cases + DiagnosticCount c.
Proof. unfold diagnosed. induction cases as [|d l IH]; cbn; lia. Qed.

Lemma le_empty s : String.le "" s.
Proof. apply str_leb_le. by destruct s. Qed.

Lemma boundaryLoop_accepts name executed : forall index previous,
  Forall (fun b => validBoundary b = true) executed -> StronglySorted String.le (previous :: executed) ->
  NoDup (previous :: executed) -> exists last, forEach (boundaryStep name) index executed previous = inr last.
Proof.
  induction executed as [|b l IH]; intros index previous Hv Hs Hn; cbn [forEach]; [by exists previous|].
  inversion Hv as [|? ? Hb Hl]; inversion Hs as [|? ? Hs' Hle]; inversion Hn as [|? ? Hp Hn']; subst.
  assert (boundaryStep name index b previous = inr b) as ->; [|by apply IH].
  unfold boundaryStep. rewrite Hb. assert (str_leb b previous = false) as ->; [|by rewrite andb_false_r].
  apply not_true_iff_false. rewrite str_leb_le. intros Hle'. apply Hp. apply Forall_inv in Hle.
  assert (previous = b) as -> by (by apply (anti_symm String.le)). left.
Qed.

Lemma stageLoop_inr name executed : forall index seen seen',
  forEach (stageStep name) index executed seen = inr seen' <->
  Forall (.∈ stages) executed /\ NoDup executed /\ (forall s, s ∈ executed -> s ∉ seen) /\ seen' = list_to_set executed ∪ seen.
Proof.
  induction executed as [|s l IH]; intros index seen seen'; cbn [forEach].
  - split; [intros [= <-]; split; [constructor|split; [constructor|split; [|cbn]; set_solver]]|].
    intros (_ & _ & _ & ->). cbn. by rewrite union_empty_l_L.
  - rewrite checked_bind_inr. split.
    + intros (seen1 & E & (H1 & H2 & H3 & ->)%IH). unfold stageStep in E. open_checks.
      split; [by constructor|]. split; [constructor; [|done]; intros Hin; specialize (H3 s Hin); set_solver|].
      split; [|cbn; set_solver]. intros x [->|Hin]%elem_of_cons; [done|]. specialize (H3 x Hin). set_solver.
    + intros (H1 & H2 & H3 & ->). inversion H1; inversion H2; subst. exists ({[s]} ∪ seen).
      assert (s ∉ seen) as Hs by (apply H3; left).
      split; [unfold stageStep; rewrite (bool_decide_eq_true_2 (s ∈ stages)), (bool_decide_eq_false_2 (s ∈ seen)) by done; done|].
      apply IH.
      split; [done|]. split; [done|]. split; [|cbn; set_solver]. intros x Hin [->%elem_of_singleton|Hx]%elem_of_union; [done|].
      by apply (H3 x); [right|].
Qed.

Lemma validateStages_inr name executed : validateStages name executed = inr () <-> Forall (.∈ stages) executed /\ NoDup executed.
Proof.
  unfold validateStages. rewrite checked_bind_inr. split.
  - intros (seen & (H1 & H2 & _)%stageLoop_inr & _). done.
  - intros [H1 H2]. eexists. split; [|done]. apply stageLoop_inr. split; [done|]. split; [done|]. split; [set_solver|done].
Qed.

Lemma slices_Sort_sorted l : StronglySorted String.le (slices_Sort l).
Proof. apply Sorted_StronglySorted; [apply _|]. apply (Sorted_merge_sort String.le). Qed.

Lemma stages_accepted name (set : gset string) : validateStages name (canonicalStageSet set) = inr ().
Proof.
  apply validateStages_inr. unfold canonicalStageSet. split.
  - apply Forall_forall. intros s Hs. by apply list_elem_of_filter in Hs as [_ Hs].
  - apply NoDup_filter. apply (bool_decide_unpack _). vm_compute. exact I.
Qed.

Lemma strings_accepted name (set : gset string) :
  (forall v, v ∈ set -> identifier v) -> validateCanonicalStrings name (canonicalStringSet set) = inr ().
Proof.
  intros H. apply validateCanonicalIdentifiers_inr. unfold canonicalStringSet. split; [|split; [|apply slices_Sort_sorted]].
  - apply Forall_forall. intros v. rewrite slices_Sort_elem_of, elem_of_elements. apply H.
  - rewrite slices_Sort_Permutation. apply NoDup_elements.
Qed.

Lemma boundaries_accepted name (set : gset string) :
  set <> ∅ -> (forall b, b ∈ set -> validBoundary b = true) -> validateBoundaries name (canonicalBoundarySet set) = inr ().
Proof.
  intros Hne Hv. change (validateBoundaries name (slices_Sort (elements set)) = inr ()). unfold validateBoundaries.
  destruct (boundaryLoop_accepts name (slices_Sort (elements set)) 0 "") as [last Hl].
  - apply Forall_forall. intros x. rewrite slices_Sort_elem_of, elem_of_elements. apply Hv.
  - constructor; [apply slices_Sort_sorted|]. apply Forall_forall. intros x _. apply le_empty.
  - constructor; [|rewrite slices_Sort_Permutation; apply NoDup_elements].
    rewrite slices_Sort_elem_of, elem_of_elements. intros Hin. by apply Hv in Hin.
  - destruct (slices_Sort (elements set)) as [|b l] eqn:E; [|by rewrite Hl].
    exfalso. apply Hne, leibniz_equiv, elements_empty_inv, Permutation_nil_r. by rewrite <- E, slices_Sort_Permutation.
Qed.

(** What the loop over the cases has established. *)
Record summarizing (first : SemanticCase) (cases : list SemanticCase) (seen : casesSeen) : Prop := {
  sum_identity c : c ∈ cases -> identifier (CaseCategory first) /\ identifier (CaseFeatureID first) /\
    validLayer (CaseLayer first) = true /\ validBoundary (CaseBoundary first) = true /\ validOutcome (CaseOutcome first) = true;
  sum_diagnostics : diagnostics seen = wrap64 (diagnosed cases);
  sum_positive : 0 <= diagnosed cases;
  sum_boundaries : (cases <> [] -> boundarySet seen <> ∅) /\ forall b, b ∈ boundarySet seen -> validBoundary b = true;
  sum_properties v : v ∈ propertySet seen -> identifier v;
  sum_dimensions v : v ∈ dimensionSet seen -> identifier v;
}.

Lemma validateBoundaries_valid name executed :
  validateBoundaries name executed = inr () -> executed <> [] /\ Forall (fun b => validBoundary b = true) executed.
Proof.
  unfold validateBoundaries. destruct executed as [|b l] eqn:E; [done|]. rewrite <- E. intros H. split; [by subst|].
  apply checked_bind_inr in H as (last & H & _).
  apply (forEach_inv (fun l _ => Forall (fun b => validBoundary b = true) l) _ _ 0 []) in H; [done| |constructor].
  intros i before a s s' Es Hb. unfold boundaryStep in Es. open_checks. apply Forall_app. split; [done|].
  by apply Forall_singleton.
Qed.

Lemma caseStep_summarizing first index c cases seen seen' :
  caseStep first index c seen = inr seen' -> summarizing first cases seen -> summarizing first (cases ++ [c]) seen'.
Proof.
  intros H [Hi Hd Hp Hb Hpr Hdi]. unfold caseStep in H.
  apply checked_bind_inr in H as ([] & _ & H). apply checked_bind_inr in H as ([] & _ & H).
  apply checked_bind_inr in H as ([] & Hcat%validateIdentifier_inr & H).
  apply checked_bind_inr in H as ([] & Hfea%validateIdentifier_inr & H).
  apply checked_bind_inr in H as ([] & Hlay%reject_if_inr%negb_false_iff & H).
  apply checked_bind_inr in H as ([] & Hbou%reject_if_inr%negb_false_iff & H).
  apply checked_bind_inr in H as ([] & [Hne Hall]%validateBoundaries_valid & H).
  apply checked_bind_inr in H as ([] & _ & H). apply checked_bind_inr in H as ([] & Hout%reject_if_inr%negb_false_iff & H).
  apply checked_bind_inr in H as ([] & Hdiag%reject_if_inr & H). apply checked_bind_inr in H as ([] & Hid%reject_if_inr & H).
  do 2 (apply checked_bind_inr in H as ([] & _ & H)).
  apply checked_bind_inr in H as ([] & (Hprop & _)%validateCanonicalIdentifiers_inr & H).
  apply checked_bind_inr in H as ([] & (Hdim & _)%validateCanonicalIdentifiers_inr & [= <-]).
  rewrite Forall_forall in Hall. rewrite Forall_forall in Hprop. rewrite Forall_forall in Hdim.
  rewrite !orb_false_iff, !negb_false_iff, !String.eqb_eq in Hid. destruct Hid as [[[[E1 E2] E3] E4] E5].
  split; cbn; unfold add_all.
  - intros _ _. rewrite <- E1, <- E2, <- E3, <- E4, <- E5. done.
  - rewrite Hd, wrap64_add, diagnosed_snoc. done.
  - rewrite diagnosed_snoc. lia.
  - split.
    + intros _. destruct (CaseExecutedBoundaries c) as [|b l]; [done|]. set_solver.
    + intros b [Hin%elem_of_list_to_set|Hin]%elem_of_union; [by apply Hall|by apply Hb].
  - intros v [Hin%elem_of_list_to_set|Hin]%elem_of_union; auto.
  - intros v [Hin%elem_of_list_to_set|Hin]%elem_of_union; auto.
Qed.

Lemma summarizing_nil first : summarizing first [] noCases.
Proof.
  split; cbn; [by intros ? ?%elem_of_nil|done|done| |set_solver..]. split; [done|set_solver].
Qed.

(** An observation under the binding of the run that emits it. *)
Definition rebind (observation : SemanticObservation) (binding : ObservationBinding) : SemanticObservation :=
  mkObservation (ObservationFormat observation) binding (RegistrationID observation) (Category observation)
    (ObservationLayer observation) (FeatureID observation) (ProducerID observation) (TestID observation)
    (ObservationBoundary observation) (ExecutedBoundaries observation) (Result observation) (Stages observation)
    (Properties observation) (Dimensions observation) (Cases observation).

Lemma derivedFrom_own registrationID producerID testID cases summary binding :
  derivedFrom (rebind (mkObservation ObservationFormatVersion emptyBinding registrationID (category summary) (layer summary)
    (featureID summary) producerID testID (boundary summary) (executedBoundaries summary) (result summary)
    (summaryStages summary) (properties summary) (dimensions summary) cases) binding) summary = inr ().
Proof. unfold derivedFrom, reject_if. cbn. rewrite !String.eqb_refl, !bool_decide_eq_true_2 by done. done. Qed.

(** A summary of accepted cases satisfies every check on the fields of an observation. *)
Record sound_summary (summary : semanticCaseSummary) : Prop := {
  sound_identifiers : identifier (category summary) /\ identifier (featureID summary);
  sound_layer : validLayer (layer summary) = true;
  sound_boundary : validBoundary (boundary summary) = true;
  sound_outcome : validOutcome (ResultOutcome (result summary)) = true;
  sound_boundaries name : validateBoundaries name (executedBoundaries summary) = inr ();
  sound_counts : 0 < CaseCount (result summary) /\ 0 <= ResultDiagnosticCount (result summary);
  sound_stages name : validateStages name (summaryStages summary) = inr ();
  sound_properties name : validateCanonicalStrings name (properties summary) = inr ();
  sound_dimensions name : validateCanonicalStrings name (dimensions summary) = inr ();
}.

Lemma summarize_sound cases summary :
  summarizeSemanticCases cases = inr summary -> diagnosed cases < 2 ^ 63 -> sound_summary summary.
Proof.
  intros Hs Hsum. unfold summarizeSemanticCases in Hs. destruct cases as [|first rest] eqn:Ec; [done|].
  rewrite <- Ec in *. apply checked_bind_inr in Hs as (seen & Hloop & [= <-]).
  apply (forEach_inv (summarizing first) _ _ 0 [] noCases) in Hloop;
    [|intros; by eapply caseStep_summarizing|apply summarizing_nil].
  cbn [app] in Hloop. destruct (sum_identity _ _ _ Hloop first) as (H1 & H2 & H3 & H4 & H5); [rewrite Ec; left|].
  pose proof (sum_diagnostics _ _ _ Hloop) as Hd. pose proof (sum_positive _ _ _ Hloop) as Hp.
  rewrite wrap64_small in Hd by lia. destruct (sum_boundaries _ _ _ Hloop) as [Hb1 Hb2].
  split; cbn.
  - done.
  - done.
  - done.
  - done.
  - intros name. apply boundaries_accepted; [|done]. apply Hb1. by rewrite Ec.
  - split; [rewrite Ec; cbn; lia|lia].
  - intros name. apply stages_accepted.
  - intros name. apply strings_accepted, Hloop.
  - intros name. apply strings_accepted, Hloop.
Qed.

Lemma checked_bind_ok {A B} (m : checked A) (k : A -> checked B) a b : m = inr a -> k a = inr b -> (m ≫= k) = inr b.
Proof. intros -> H. exact H. Qed.

(** One check of a validator passes. *)
Ltac passes check := eapply checked_bind_ok; [check|cbv beta].

Lemma identifiers_accepted prefix (l : list (string * string)) : forall index,
  Forall (fun p => identifier (snd p)) l ->
  forEach (fun _ field _ => validateIdentifier (prefix +:+ fst field) (snd field)) index l () = inr ().
Proof.
  induction l as [|p l IH]; intros index H; inversion H; subst; cbn [forEach]; [done|].
  apply checked_bind_ok with (a := ()); [by apply validateIdentifier_inr|by apply IH].
Qed.

(** C36. An observation derived from executed cases validates: under a valid binding to
    its producer, with identifiers and diagnostics that fit 64 bits together, validation
    accepts what [ObservationFromCases] builds. *)
Theorem derived_observation_validates registrationID producerID testID cases observation binding :
  ObservationFromCases registrationID producerID testID cases = inr observation ->
  identifier registrationID -> identifier producerID -> identifier testID ->
  binding_Validate binding = inr () -> BindingSubgateID binding = producerID ->
  diagnosed cases < 2 ^ 63 ->
  observation_Validate (rebind observation binding) = inr ().
Proof.
  intros H Hreg Hpro Htest Hbind Hsub Hsum. unfold ObservationFromCases in H.
  apply checked_bind_inr in H as (summary & Hs & [= <-]). destruct (summarize_sound cases summary Hs Hsum) as
    [[H1 H2] H3 H4 H5 H6 H7 H8 H9 H10]. unfold observation_Validate.
  passes ltac:(done). passes ltac:(exact Hbind).
  passes ltac:(apply (identifiers_accepted "observation "); unfold observationIdentifiers; cbn; by rewrite !Forall_cons).
  passes ltac:(cbn; by rewrite Hsub, String.eqb_refl). passes ltac:(cbn; by rewrite H3).
  passes ltac:(cbn; by rewrite H4). passes ltac:(apply H6). passes ltac:(cbn; by rewrite H5).
  passes ltac:(unfold reject_if; cbn; by replace (_ <=? 0) with false by lia).
  passes ltac:(unfold reject_if; cbn; by replace (_ <? 0) with false by lia).
  passes ltac:(apply H8). passes ltac:(apply H9). passes ltac:(apply H10).
  passes ltac:(cbn; by rewrite Hs). apply derivedFrom_own.
Qed.

Definition sample_case : SemanticCase :=
  mkCase "case-1" "cfg" LayerMustReport "path" BoundaryProductionAnalyzer [BoundaryProductionAnalyzer] OutcomeMustReport 2
    [StagePropagation] ["reported"] ["path"].

Definition sample_binding : ObservationBinding :=
  mkBinding "run" ("sha256:" +:+ zeros) ("sha256:" +:+ zeros) ("sha256:" +:+ zeros) "producer".

Lemma derived_observation_validates_witness :
  exists observation, ObservationFromCases "registration" "producer" "test" [sample_case] = inr observation /\
    observation_Validate (rebind observation sample_binding) = inr ().
Proof.
  eexists. split; [vm_compute; reflexivity|].
  apply (derived_observation_validates "registration" "producer" "test" [sample_case] _ sample_binding);
    first [reflexivity|split; vm_compute; congruence|vm_compute; reflexivity].
Defined.
