(* ===== verification/Summary.v ===== *)
(** * Protocol summaries of callees

    [goplint/cfa_summary.go] and [goplint/protocol_summary_fact.go]: the effects a summary
    lists for one input of a function, what a caller concludes from them, and the shape of
    the facts that carry summaries between packages.  The types of a signature are those of
    [go/types], a parameter. *)

From S2P Require Export GoStrings ProtocolDomain.
Local Open Scope Z_scope.

(** ** Vocabulary *)
Definition protocolSummaryFactVersion : Z := 5.
Definition protocolSummaryEffectPure : string := "pure".
Definition protocolSummaryEffectPreserve : string := "preserve".
Definition protocolSummaryEffectValidate : string := "conditional-validation".
Definition protocolSummaryEffectMutate : string := "mutation".
Definition protocolSummaryEffectReplace : string := "replacement".
Definition protocolSummaryEffectEscape : string := "escape".
Definition protocolSummaryEffectConsume : string := "consume".
Definition protocolSummaryEffectTerminal : string := "terminal".
Definition protocolSummaryTargetReceiver : string := "receiver".
Definition protocolSummaryTargetParameter : string := "parameter".
Definition protocolSummaryTargetResult : string := "result".
Definition protocolSummaryConditionResultNil : string := "result-nil".
Definition protocolSummaryConditionSuccessfulReturn : string := "successful-return".

Inductive protocolSummaryFactStatus :=
  | protocolSummaryFactValid
  | protocolSummaryFactMissing
  | protocolSummaryFactIncompatible.

Record ProtocolSummaryEffectFact := mkEffectFact {
  effectKind : string;
  TargetKind : string;
  TargetSlot : Z;
  SourceKind : string;
  SourceSlot : Z;
  ConditionResultSlot : Z;
  Condition : string;
}.

#[export] Instance ProtocolSummaryEffectFact_eq_dec : EqDecision ProtocolSummaryEffectFact.
Proof. solve_decision. Defined.

Record ProtocolSummaryFact := mkFact {
  FactFormatVersion : Z;
  PackagePath : string;
  FunctionName : string;
  FunctionIdentity : string;
  FactComplete : bool;
  FactEffects : list ProtocolSummaryEffectFact;
}.

(** ** Slots *)
Definition calleeTargetSlotReceiver : string := "receiver".
Definition calleeTargetSlotArg : string := "arg".

Record calleeTargetSlot := mkSlot { slotKind : string; argIndex : Z }.

Definition cacheKey (slot : calleeTargetSlot) : string :=
  if String.eqb (slotKind slot) calleeTargetSlotArg then slotKind slot +:+ ":" +:+ itoa (argIndex slot)
  else slotKind slot.

Definition protocolSummaryTargetForCalleeSlot (slot : calleeTargetSlot) : string * Z :=
  if String.eqb (slotKind slot) calleeTargetSlotReceiver then (protocolSummaryTargetReceiver, 0)
  else (protocolSummaryTargetParameter, argIndex slot).

(** ** Effects *)
Definition newProtocolSummaryEffect (targetKind : string) (targetSlot conditionResultSlot : Z) : ProtocolSummaryEffectFact :=
  mkEffectFact protocolSummaryEffectValidate targetKind targetSlot "" (-1) conditionResultSlot
    protocolSummaryConditionResultNil.

Definition newProtocolSuccessfulReturnSummaryEffect (targetKind : string) (targetSlot : Z) : ProtocolSummaryEffectFact :=
  mkEffectFact protocolSummaryEffectValidate targetKind targetSlot "" (-1) (-1) protocolSummaryConditionSuccessfulReturn.

Definition newProtocolTargetSummaryEffect (kind targetKind : string) (targetSlot : Z) : ProtocolSummaryEffectFact :=
  mkEffectFact kind targetKind targetSlot "" (-1) (-1) "".

Definition newProtocolCallSummaryEffect (kind : string) : ProtocolSummaryEffectFact :=
  mkEffectFact kind "" (-1) "" (-1) (-1) "".

Definition appendUniqueProtocolSummaryEffect (effects : list ProtocolSummaryEffectFact)
    (effect : ProtocolSummaryEffectFact) : list ProtocolSummaryEffectFact :=
  if bool_decide (effect ∈ effects) then effects else effects ++ [effect].

(** ** Summaries *)
Record calleeTargetSummary := mkSummary {
  Effects : list ProtocolSummaryEffectFact;
  Complete : bool;
  SummaryReason : pathOutcomeReason;
}.

Definition noSummary : calleeTargetSummary := mkSummary [] false pathOutcomeReasonNone.

Definition zeroState : protocolAbstractState := mkState 0 0 0 0 0 0 0.

Definition hasEffect (summary : calleeTargetSummary) (kind : string) : bool :=
  existsb (fun effect => String.eqb (effectKind effect) kind) (Effects summary).

Definition conditionalEffect (kind : Z) : protocolConditionalEffect := mkEffect kind (mkRelation 0 0).

Definition possibly (effect : Z) (state : protocolAbstractState) : protocolAbstractState :=
  set_PossibleEffects (Z.lor (PossibleEffects state) effect) state.

(** One effect of the loop of [protocolContinuationStateFrom]; [None] returns an incomplete state. *)
Definition continueEffect (state : protocolAbstractState) (effect : ProtocolSummaryEffectFact)
    : option protocolAbstractState :=
  let kind := effectKind effect in
  if String.eqb kind protocolSummaryEffectPure || String.eqb kind protocolSummaryEffectPreserve then Some state
  else if String.eqb kind protocolSummaryEffectValidate then
    if String.eqb (Condition effect) protocolSummaryConditionSuccessfulReturn then
      Some (apply state (conditionalEffect protocolEffectValidate) protocolErrorResultNil 0)
    else if String.eqb (Condition effect) protocolSummaryConditionResultNil then
      Some (apply state (conditionalEffect protocolEffectValidate) protocolErrorResultUnknown 0)
    else None
  else if String.eqb kind protocolSummaryEffectMutate then
    Some (possibly protocolPossibleEffectMutate (set_Validation protocolValidationRequired state))
  else if String.eqb kind protocolSummaryEffectReplace then
    Some (possibly protocolPossibleEffectReplace (set_Validation protocolValidationRequired state))
  else if String.eqb kind protocolSummaryEffectEscape then
    Some (possibly protocolPossibleEffectEscape
      (apply state (conditionalEffect protocolEffectEscape) (Result state) 0))
  else if String.eqb kind protocolSummaryEffectConsume then
    Some (possibly protocolPossibleEffectConsume
      (apply state (conditionalEffect protocolEffectConsume) (Result state) 0))
  else if String.eqb kind protocolSummaryEffectTerminal then Some (possibly protocolPossibleEffectTerminate state)
  else None.

Fixpoint continueEffects (effects : list ProtocolSummaryEffectFact) (state : protocolAbstractState)
    : option protocolAbstractState :=
  match effects with
  | [] => Some state
  | effect :: rest => state ← continueEffect state effect; continueEffects rest state
  end.

Definition protocolContinuationStateFrom (summary : calleeTargetSummary) (validated : bool) : protocolAbstractState * bool :=
  if negb (Complete summary) || (match Effects summary with [] => true | _ => false end) then (zeroState, false)
  else
    let state := if validated then set_Validation protocolValidationProven newProtocolRequiredState
                 else newProtocolRequiredState in
    match continueEffects (Effects summary) state with
    | Some state => (state, true)
    | None => (zeroState, false)
    end.

Definition protocolContinuationState (summary : calleeTargetSummary) : protocolAbstractState * bool :=
  protocolContinuationStateFrom summary false.

(** The loop of [conditionallyValidatesWithoutHazard]; [None] returns false at once. *)
Fixpoint validatesWithoutHazard (effects : list ProtocolSummaryEffectFact) (validated hazard : bool) : option (bool * bool) :=
  match effects with
  | [] => Some (validated, hazard)
  | effect :: rest =>
      let kind := effectKind effect in
      if String.eqb kind protocolSummaryEffectPure || String.eqb kind protocolSummaryEffectPreserve then
        validatesWithoutHazard rest validated hazard
      else if String.eqb kind protocolSummaryEffectValidate then
        if negb (String.eqb (Condition effect) protocolSummaryConditionResultNil) &&
           negb (String.eqb (Condition effect) protocolSummaryConditionSuccessfulReturn)
        then None else validatesWithoutHazard rest true hazard
      else if String.eqb kind protocolSummaryEffectMutate || String.eqb kind protocolSummaryEffectReplace then
        validatesWithoutHazard rest false hazard
      else if String.eqb kind protocolSummaryEffectEscape then validatesWithoutHazard rest validated true
      else if String.eqb kind protocolSummaryEffectConsume then
        validatesWithoutHazard rest validated (hazard || negb validated)
      else None
  end.

Definition conditionallyValidatesWithoutHazard (summary : calleeTargetSummary) : bool :=
  if negb (Complete summary) || (match Effects summary with [] => true | _ => false end) then false
  else match validatesWithoutHazard (Effects summary) false false with
       | Some (validated, hazard) => validated && negb hazard
       | None => false
       end.

Definition hasSuccessfulReturnValidation (summary : calleeTargetSummary) : bool :=
  existsb (fun effect => String.eqb (effectKind effect) protocolSummaryEffectValidate &&
                         String.eqb (Condition effect) protocolSummaryConditionSuccessfulReturn) (Effects summary).

(** ** Facts *)
Definition validProtocolSummaryTarget (kind : string) (slot : Z) : bool :=
  (String.eqb kind protocolSummaryTargetReceiver || String.eqb kind protocolSummaryTargetParameter ||
   String.eqb kind protocolSummaryTargetResult) && (0 <=? slot).

Definition validProtocolSummaryEffect (effect : ProtocolSummaryEffectFact) : bool :=
  let kind := effectKind effect in
  if String.eqb kind protocolSummaryEffectPure || String.eqb kind protocolSummaryEffectTerminal then
    String.eqb (TargetKind effect) "" && (TargetSlot effect =? -1) &&
    String.eqb (SourceKind effect) "" && (SourceSlot effect =? -1) &&
    (ConditionResultSlot effect =? -1) && String.eqb (Condition effect) ""
  else if String.eqb kind protocolSummaryEffectPreserve || String.eqb kind protocolSummaryEffectMutate ||
          String.eqb kind protocolSummaryEffectEscape || String.eqb kind protocolSummaryEffectConsume then
    validProtocolSummaryTarget (TargetKind effect) (TargetSlot effect) &&
    String.eqb (SourceKind effect) "" && (SourceSlot effect =? -1) &&
    (ConditionResultSlot effect =? -1) && String.eqb (Condition effect) ""
  else if String.eqb kind protocolSummaryEffectReplace then
    validProtocolSummaryTarget (TargetKind effect) (TargetSlot effect) &&
    validProtocolSummaryTarget (SourceKind effect) (SourceSlot effect) &&
    (ConditionResultSlot effect =? -1) && String.eqb (Condition effect) ""
  else if String.eqb kind protocolSummaryEffectValidate then
    validProtocolSummaryTarget (TargetKind effect) (TargetSlot effect) &&
    String.eqb (SourceKind effect) "" && (SourceSlot effect =? -1) &&
    (((0 <=? ConditionResultSlot effect) && String.eqb (Condition effect) protocolSummaryConditionResultNil) ||
     ((ConditionResultSlot effect =? -1) && String.eqb (Condition effect) protocolSummaryConditionSuccessfulReturn))
  else false.

Definition validateProtocolSummaryFactShape (fact : option ProtocolSummaryFact) (packagePath : string)
    : protocolSummaryFactStatus :=
  match fact with
  | None => protocolSummaryFactMissing
  | Some fact =>
      if negb (FactFormatVersion fact =? protocolSummaryFactVersion) || negb (FactComplete fact) ||
         String.eqb (strings_TrimSpace (PackagePath fact)) "" || negb (String.eqb (PackagePath fact) packagePath) ||
         String.eqb (strings_TrimSpace (FunctionName fact)) "" ||
         String.eqb (strings_TrimSpace (FunctionIdentity fact)) ""
      then protocolSummaryFactIncompatible
      else if forallb validProtocolSummaryEffect (FactEffects fact) then protocolSummaryFactValid
      else protocolSummaryFactIncompatible
  end.

Section Functions.
(** The types of [go/types] and what the code asks of them. *)
Context {T : Type} (hasValidateMethod isErrorType : T -> bool) (AssignableTo : T -> T -> bool).

Record Signature := mkSignature { Recv : option T; Params : list T; Results : list T }.

(** A function object in its package, with the identity that [protocolFunctionIdentity] prints. *)
Record Func := mkFunc { PkgPath : option string; Name : string; Identity : string; Type_ : option Signature }.

Definition protocolSummarySlotType (signature : Signature) (kind : string) (slot : Z) : option T :=
  if slot <? 0 then None
  else if String.eqb kind protocolSummaryTargetReceiver then if slot =? 0 then Recv signature else None
  else if String.eqb kind protocolSummaryTargetParameter then Params signature !! Z.to_nat slot
  else if String.eqb kind protocolSummaryTargetResult then Results signature !! Z.to_nat slot
  else None.

Definition validProtocolSummaryEffectForFunction (effect : ProtocolSummaryEffectFact) (signature : Signature) : bool :=
  if negb (validProtocolSummaryEffect effect) then false
  else if String.eqb (effectKind effect) protocolSummaryEffectPure ||
          String.eqb (effectKind effect) protocolSummaryEffectTerminal then true
  else match protocolSummarySlotType signature (TargetKind effect) (TargetSlot effect) with
       | None => false
       | Some targetType =>
           hasValidateMethod targetType &&
           (negb (String.eqb (effectKind effect) protocolSummaryEffectReplace) ||
            match protocolSummarySlotType signature (SourceKind effect) (SourceSlot effect) with
            | None => false
            | Some sourceType => AssignableTo sourceType targetType
            end) &&
           (negb (String.eqb (effectKind effect) protocolSummaryEffectValidate &&
                  String.eqb (Condition effect) protocolSummaryConditionResultNil) ||
            match protocolSummarySlotType signature protocolSummaryTargetResult (ConditionResultSlot effect) with
            | None => false
            | Some conditionType => isErrorType conditionType
            end)
       end.

Definition validateProtocolSummaryFact (fact : option ProtocolSummaryFact) (function : Func) : protocolSummaryFactStatus :=
  match fact, PkgPath function with
  | None, _ => protocolSummaryFactMissing
  | _, None => protocolSummaryFactIncompatible
  | Some f, Some path =>
      match validateProtocolSummaryFactShape fact path, Type_ function with
      | protocolSummaryFactValid, Some signature =>
          if String.eqb (FunctionName f) (Name function) && String.eqb (FunctionIdentity f) (Identity function) &&
             forallb (fun effect => validProtocolSummaryEffectForFunction effect signature) (FactEffects f)
          then protocolSummaryFactValid else protocolSummaryFactIncompatible
      | _, _ => protocolSummaryFactIncompatible
      end
  end.

(** The effects of a fact that concern one slot. *)
Definition effectMatches (slot : calleeTargetSlot) (effect : ProtocolSummaryEffectFact) : bool :=
  (String.eqb (slotKind slot) calleeTargetSlotReceiver &&
     String.eqb (TargetKind effect) protocolSummaryTargetReceiver) ||
  (String.eqb (slotKind slot) calleeTargetSlotArg && String.eqb (TargetKind effect) protocolSummaryTargetParameter &&
     (TargetSlot effect =? argIndex slot)) ||
  String.eqb (effectKind effect) protocolSummaryEffectPure ||
  String.eqb (effectKind effect) protocolSummaryEffectTerminal.

(** [imported] answers [pass.ImportObjectFact]. *)
Definition importedProtocolSummaryForSlot (imported : Func -> option ProtocolSummaryFact) (function : Func)
    (slot : calleeTargetSlot) : calleeTargetSummary * bool * pathOutcomeReason :=
  match PkgPath function, imported function with
  | Some _, Some fact =>
      match validateProtocolSummaryFact (Some fact) function with
      | protocolSummaryFactValid =>
          match List.filter (effectMatches slot) (FactEffects fact) with
          | [] => (noSummary, false, pathOutcomeReasonUnresolvedTarget)
          | effects => (mkSummary effects true pathOutcomeReasonNone, true, pathOutcomeReasonNone)
          end
      | _ => (noSummary, false, pathOutcomeReasonUnresolvedTarget)
      end
  | _, _ => (noSummary, false, pathOutcomeReasonUnresolvedTarget)
  end.
End Functions.
