(* ===== verification/RecursiveSummary.v ===== *)
(** * Summaries of recursive validation helpers

    [goplint/protocol_recursive_validation.go]: a function that returns the error of a
    validation, of itself or of another such function is summarised by a fixed point over
    the functions it reaches.  What a function body contributes is read from [go/ssa] and is
    given as an [ssaFunction]: its blocks, what each return yields and what each instruction
    may do to the target.  The order in which a map is ranged over is a parameter. *)

From S2P Require Export Summary.
Local Open Scope Z_scope.

(** ** Transfers *)
Definition protocolRecursiveInvalidatesMutation : Z := Z.shiftl 1 0.
Definition protocolRecursiveInvalidatesReplacement : Z := Z.shiftl 1 1.

Record protocolRecursiveEffectTransfer := mkTransfer {
  available : bool;
  validation : bool;
  preInvalidations : Z;
  postInvalidations : Z;
  escape : bool;
  consumeBeforeValid : bool;
  consumeAfterValid : bool;
}.

#[export] Instance protocolRecursiveEffectTransfer_eq_dec : EqDecision protocolRecursiveEffectTransfer.
Proof. solve_decision. Defined.

Definition noTransfer : protocolRecursiveEffectTransfer := mkTransfer false false 0 0 false false false.

Record protocolRecursiveTransferBuilder := mkBuilder {
  transfer : protocolRecursiveEffectTransfer;
  validated : bool;
}.

Definition newBuilder : protocolRecursiveTransferBuilder := mkBuilder noTransfer false.

Definition applyInvalidation (builder : protocolRecursiveTransferBuilder) (kind : Z) : protocolRecursiveTransferBuilder :=
  let t := transfer builder in
  mkBuilder
    (if validation t
     then mkTransfer (available t) (validation t) (preInvalidations t) (Z.lor (postInvalidations t) kind)
            (escape t) (consumeBeforeValid t) (consumeAfterValid t)
     else mkTransfer (available t) (validation t) (Z.lor (preInvalidations t) kind) (postInvalidations t)
            (escape t) (consumeBeforeValid t) (consumeAfterValid t))
    false.

Definition applyKind (builder : protocolRecursiveTransferBuilder) (kind : string) : protocolRecursiveTransferBuilder :=
  let t := transfer builder in
  if String.eqb kind protocolSummaryEffectValidate then
    mkBuilder (mkTransfer (available t) true (Z.lor (preInvalidations t) (postInvalidations t)) 0
                 (escape t) (consumeBeforeValid t) (consumeAfterValid t)) true
  else if String.eqb kind protocolSummaryEffectMutate then applyInvalidation builder protocolRecursiveInvalidatesMutation
  else if String.eqb kind protocolSummaryEffectReplace then applyInvalidation builder protocolRecursiveInvalidatesReplacement
  else if String.eqb kind protocolSummaryEffectEscape then
    mkBuilder (mkTransfer (available t) (validation t) (preInvalidations t) (postInvalidations t)
                 true (consumeBeforeValid t) (consumeAfterValid t)) (validated builder)
  else if String.eqb kind protocolSummaryEffectConsume then
    mkBuilder (if validated builder
               then mkTransfer (available t) (validation t) (preInvalidations t) (postInvalidations t)
                      (escape t) (consumeBeforeValid t) true
               else mkTransfer (available t) (validation t) (preInvalidations t) (postInvalidations t)
                      (escape t) true (consumeAfterValid t)) (validated builder)
  else builder.

(** The loops of [applyLocalEffects]: the effects of one kind, for each kind in turn. *)
Definition applyKindsOf (effects : list string) (builder : protocolRecursiveTransferBuilder) (kind : string)
    : protocolRecursiveTransferBuilder :=
  foldl (fun b effect => if String.eqb effect kind then applyKind b effect else b) builder effects.

Definition applyLocalEffects (builder : protocolRecursiveTransferBuilder) (effects : list string)
    : protocolRecursiveTransferBuilder :=
  let builder := foldl (applyKindsOf effects) builder [protocolSummaryEffectMutate; protocolSummaryEffectReplace] in
  foldl (applyKindsOf effects) builder [protocolSummaryEffectEscape; protocolSummaryEffectConsume].

Definition invalidates (invalidations kind : Z) : bool := negb (Z.land invalidations kind =? 0).

Definition applyIf (b : bool) (kind : string) (builder : protocolRecursiveTransferBuilder) : protocolRecursiveTransferBuilder :=
  if b then applyKind builder kind else builder.

Definition applyInvalidations (builder : protocolRecursiveTransferBuilder) (invalidations : Z)
    : protocolRecursiveTransferBuilder :=
  applyIf (invalidates invalidations protocolRecursiveInvalidatesReplacement) protocolSummaryEffectReplace
    (applyIf (invalidates invalidations protocolRecursiveInvalidatesMutation) protocolSummaryEffectMutate builder).

Definition applyTransfer (builder : protocolRecursiveTransferBuilder) (t : protocolRecursiveEffectTransfer)
    : protocolRecursiveTransferBuilder :=
  if negb (available t) then builder
  else
    let builder := applyIf (escape t) protocolSummaryEffectEscape builder in
    let builder := applyIf (consumeBeforeValid t) protocolSummaryEffectConsume builder in
    let builder := applyInvalidations builder (preInvalidations t) in
    let builder := applyIf (validation t) protocolSummaryEffectValidate builder in
    let builder := applyIf (consumeAfterValid t) protocolSummaryEffectConsume builder in
    applyInvalidations builder (postInvalidations t).

(** [finish] of a builder. *)
Definition finishBuilder (builder : protocolRecursiveTransferBuilder) : protocolRecursiveEffectTransfer :=
  let t := transfer builder in
  mkTransfer true (validation t) (preInvalidations t) (postInvalidations t) (escape t) (consumeBeforeValid t)
    (consumeAfterValid t).

Definition protocolRecursiveValidationTransfer : protocolRecursiveEffectTransfer :=
  finishBuilder (applyKind newBuilder protocolSummaryEffectValidate).

Definition joinProtocolRecursiveTransfers (left right : protocolRecursiveEffectTransfer) : protocolRecursiveEffectTransfer :=
  if negb (available left) then right
  else if negb (available right) then left
  else mkTransfer true (validation left || validation right)
         (Z.lor (preInvalidations left) (preInvalidations right))
         (Z.lor (postInvalidations left) (postInvalidations right))
         (escape left || escape right) (consumeBeforeValid left || consumeBeforeValid right)
         (consumeAfterValid left || consumeAfterValid right).

(** [appendProtocolRecursiveInvalidations] of an empty list. *)
Definition invalidationEffects (invalidations : Z) (targetKind : string) (targetSlot : Z) : list ProtocolSummaryEffectFact :=
  (if invalidates invalidations protocolRecursiveInvalidatesMutation
   then [newProtocolTargetSummaryEffect protocolSummaryEffectMutate targetKind targetSlot] else []) ++
  (if invalidates invalidations protocolRecursiveInvalidatesReplacement
   then [newProtocolTargetSummaryEffect protocolSummaryEffectReplace targetKind targetSlot] else []).

Definition transferEffects (t : protocolRecursiveEffectTransfer) (targetKind : string) (targetSlot resultSlot : Z)
    : list ProtocolSummaryEffectFact :=
  (if escape t then [newProtocolTargetSummaryEffect protocolSummaryEffectEscape targetKind targetSlot] else []) ++
  (if consumeBeforeValid t then [newProtocolTargetSummaryEffect protocolSummaryEffectConsume targetKind targetSlot] else []) ++
  invalidationEffects (preInvalidations t) targetKind targetSlot ++
  (if validation t then [newProtocolSummaryEffect targetKind targetSlot resultSlot] else []) ++
  (if consumeAfterValid t then [newProtocolTargetSummaryEffect protocolSummaryEffectConsume targetKind targetSlot] else []) ++
  invalidationEffects (postInvalidations t) targetKind targetSlot.

(** ** Function bodies *)

(** An instruction of a function: its block and its index in the block. *)
Definition position : Type := nat * nat.

Section Bodies.
Context {F : Type}.

(** What an error result of a return derives from: a validation of the target, or a call that
    passes the target to a slot of another function; with the position of that call. *)
Inductive routeSource := ReturnsValidation | ReturnsDependency (function : F) (slot : calleeTargetSlot).

(** [returnsOf] lists, for a return, how each result is classified; [effectsOn] is
    [protocolRecursiveInstructionEffects] of the target. *)
Record ssaInstruction := mkInstruction {
  returnsOf : option (list (option (routeSource * position)));
  effectsOn : list string;
}.

Record ssaBlock := mkBlock { Succs : list nat; Instrs : list ssaInstruction }.

(** [hasTarget]: the function has the slot and a result tuple; [errorResults]: which results
    of the signature are errors. *)
Record ssaFunction := mkFunction { hasTarget : bool; errorResults : list bool; Blocks : list ssaBlock }.

Definition successors (body : ssaFunction) (block : nat) : list nat := default [] (Succs <$> Blocks body !! block).

(** The breadth-first search of [protocolRecursiveBlockReaches]; every pop consumes an edge. *)
Fixpoint reachQueue (fuel : nat) (body : ssaFunction) (to : nat) (queue : list nat) (seen : gset nat) : bool :=
  match fuel, queue with
  | _, [] => false
  | O, _ => false
  | S fuel', block :: queue' =>
      if Nat.eqb block to then true
      else if bool_decide (block ∈ seen) then reachQueue fuel' body to queue' seen
      else reachQueue fuel' body to (queue' ++ successors body block) ({[block]} ∪ seen)
  end.

Definition edgeCount (body : ssaFunction) : nat := list_sum (map (fun b => length (Succs b)) (Blocks body)).

Definition protocolRecursiveBlockReaches (body : ssaFunction) (from to : nat) (requireEdge : bool) : bool :=
  if Nat.eqb from to && negb requireEdge then true
  else reachQueue (S (edgeCount body + edgeCount body)) body to (successors body from) {[from]}.

Definition protocolInstructionMayPrecede (body : ssaFunction) (first second : position) : bool :=
  if bool_decide (first = second) then false
  else if Nat.eqb (fst first) (fst second) then
    Nat.ltb (snd first) (snd second) || protocolRecursiveBlockReaches body (fst first) (fst second) true
  else protocolRecursiveBlockReaches body (fst first) (fst second) false.

(** Every instruction of a body with its position, in the order of the blocks. *)
Definition instructionsOf (body : ssaFunction) : list (position * ssaInstruction) :=
  concat (imap (fun b block => imap (fun i instruction => ((b, i), instruction)) (Instrs block)) (Blocks body)).

Definition mayBeBefore (body : ssaFunction) (terminal returned i : position) : bool :=
  protocolInstructionMayPrecede body i terminal && protocolInstructionMayPrecede body terminal returned.

Definition mayBeAfter (body : ssaFunction) (terminal returned i : position) : bool :=
  (bool_decide (i = returned) || protocolInstructionMayPrecede body terminal i) &&
  (bool_decide (i = returned) || protocolInstructionMayPrecede body i returned).

Definition effectsWhere (body : ssaFunction) (terminal : position) (admitted : position -> bool) : list string :=
  concat (map (fun p => if bool_decide (fst p = terminal) || negb (admitted (fst p)) then [] else effectsOn (snd p))
    (instructionsOf body)).

Definition protocolRecursiveRouteEffects (body : ssaFunction) (terminal returned : position) : list string * list string :=
  (effectsWhere body terminal (mayBeBefore body terminal returned),
   effectsWhere body terminal (mayBeAfter body terminal returned)).

(** ** Nodes *)
Record protocolRecursiveSummaryRoute := mkRoute {
  source : routeSource;
  resultSlot : Z;
  before : list string;
  after : list string;
}.

Record protocolRecursiveSummaryNode := mkNode {
  routes : list protocolRecursiveSummaryRoute;
  invalid : bool;
  returning : bool;
  deps : gmap string (F * calleeTargetSlot);
}.

Context (protocolProcedureKey : F -> string) (ssaOf : F -> calleeTargetSlot -> ssaFunction).

Definition protocolRecursiveSummaryKey (function : F) (slot : calleeTargetSlot) : string :=
  protocolProcedureKey function +:+ "|" +:+ cacheKey slot.

Definition invalidate (node : protocolRecursiveSummaryNode) : protocolRecursiveSummaryNode :=
  mkNode (routes node) true (returning node) (deps node).

(** One error result of a return. *)
Definition scanResult (body : ssaFunction) (returned : position) (slot : nat)
    (classified : option (routeSource * position)) (node : protocolRecursiveSummaryNode) : protocolRecursiveSummaryNode :=
  match classified with
  | None => invalidate node
  | Some (src, terminal) =>
      let '(before, after) := protocolRecursiveRouteEffects body terminal returned in
      mkNode (routes node ++ [mkRoute src (Z.of_nat slot) before after]) (invalid node) (returning node)
        (match src with
         | ReturnsValidation => deps node
         | ReturnsDependency f s => <[protocolRecursiveSummaryKey f s := (f, s)]> (deps node)
         end)
  end.

Fixpoint scanResults (body : ssaFunction) (returned : position) (slot : nat)
    (results : list (option (routeSource * position))) (found : bool) (node : protocolRecursiveSummaryNode)
    : protocolRecursiveSummaryNode :=
  match results with
  | [] => if found then node else invalidate node
  | classified :: rest =>
      if default false (errorResults body !! slot)
      then scanResults body returned (S slot) rest true (scanResult body returned slot classified node)
      else scanResults body returned (S slot) rest found node
  end.

Definition scanInstruction (body : ssaFunction) (node : protocolRecursiveSummaryNode) (p : position * ssaInstruction)
    : protocolRecursiveSummaryNode :=
  match returnsOf (snd p) with
  | None => node
  | Some results =>
      scanResults body (fst p) 0 results false (mkNode (routes node) (invalid node) true (deps node))
  end.

Definition protocolScanRecursiveSummaryNode (function : F) (slot : calleeTargetSlot) : protocolRecursiveSummaryNode :=
  let body := ssaOf function slot in
  if hasTarget body then foldl (scanInstruction body) (mkNode [] false false ∅) (instructionsOf body)
  else mkNode [] true false ∅.
End Bodies.
Arguments protocolRecursiveSummaryRoute : clear implicits.
Arguments protocolRecursiveSummaryNode : clear implicits.
Arguments ssaFunction : clear implicits.
Arguments routeSource : clear implicits.

(** ** Fixed points *)

(** The loops [for changed := true; changed;]. *)
Fixpoint untilStable {S} (fuel i : nat) (pass : nat -> S -> S * bool) (s : S) : S :=
  match fuel with
  | O => s
  | S fuel' => let '(s', changed) := pass i s in if changed then untilStable fuel' (i + 1) pass s' else s'
  end.

Inductive rangeLoop := ValidLoop | ReachLoop | TransferLoop | PublishLoop.

Section Summaries.
Context {F : Type} (protocolProcedureKey : F -> string) (ssaOf : F -> calleeTargetSlot -> ssaFunction F).

Abbreviation node := (protocolRecursiveSummaryNode F).
Abbreviation keyOf := (protocolRecursiveSummaryKey protocolProcedureKey).

(** The orders in which the maps of nodes, once per pass, and of dependencies are ranged over. *)
Context (rangeNodes : rangeLoop -> nat -> gmap string node -> list string).
Context (rangeDeps : gmap string (F * calleeTargetSlot) -> list (F * calleeTargetSlot)).

(** [protocolCollectRecursiveSummaryNode]; [None] when the fuel does not suffice. *)
Fixpoint protocolCollectRecursiveSummaryNode (fuel : nat) (function : F) (slot : calleeTargetSlot)
    (visiting : gset string) (nodes : gmap string node) : option (gmap string node) :=
  match fuel with
  | O => None
  | S fuel' =>
      let key := keyOf function slot in
      if bool_decide (key ∈ visiting) then Some nodes
      else if bool_decide (is_Some (nodes !! key)) then Some nodes
      else
        let scanned := protocolScanRecursiveSummaryNode protocolProcedureKey ssaOf function slot in
        foldl (fun nodes d => ns ← nodes; protocolCollectRecursiveSummaryNode fuel' (fst d) (snd d) ({[key]} ∪ visiting) ns)
          (Some (<[key := scanned]> nodes)) (rangeDeps (deps scanned))
  end.

Definition depKeys (n : node) : list string := map fst (map_to_list (deps n)).

(** A pass that removes the keys with a dependency that is not valid. *)
Definition validStep (nodes : gmap string node) (st : gset string * bool) (key : string) : gset string * bool :=
  let '(valid, changed) := st in
  if negb (bool_decide (key ∈ valid)) then st
  else match nodes !! key with
       | Some n =>
           if forallb (fun d => bool_decide (d ∈ valid)) (depKeys n) then st else (valid ∖ {[key]}, true)
       | None => st
       end.

Definition validPass (nodes : gmap string node) (i : nat) (valid : gset string) : gset string * bool :=
  foldl (validStep nodes) (valid, false) (rangeNodes ValidLoop i nodes).

Definition initiallyValid (n : node) : bool :=
  returning n && negb (invalid n) && (match routes n with [] => false | _ => true end).

Definition keysWhere (nodes : gmap string node) (P : node -> bool) : gset string :=
  dom (filter (fun p => P (snd p) = true) nodes).

Definition validNodes (nodes : gmap string node) : gset string :=
  untilStable (S (size nodes)) 0 (validPass nodes) (keysWhere nodes initiallyValid).

Definition isDirect (r : protocolRecursiveSummaryRoute F) : bool :=
  match source r with ReturnsValidation => true | ReturnsDependency _ _ => false end.

(** A pass that adds the valid keys with a dependency that reaches a direct route. *)
Definition reachStep (nodes : gmap string node) (valid : gset string) (st : gset string * bool) (key : string)
    : gset string * bool :=
  let '(reaching, changed) := st in
  if negb (bool_decide (key ∈ valid)) || bool_decide (key ∈ reaching) then st
  else match nodes !! key with
       | Some n =>
           if existsb (fun d => bool_decide (d ∈ reaching)) (depKeys n) then ({[key]} ∪ reaching, true) else st
       | None => st
       end.

Definition reachPass (nodes : gmap string node) (valid : gset string) (i : nat) (reaching : gset string)
    : gset string * bool :=
  foldl (reachStep nodes valid) (reaching, false) (rangeNodes ReachLoop i nodes).

Definition reachesDirect (nodes : gmap string node) (valid : gset string) : gset string :=
  untilStable (S (size nodes)) 0 (reachPass nodes valid) (valid ∩ keysWhere nodes (fun n => existsb isDirect (routes n))).

Abbreviation transferMap := (gmap string protocolRecursiveEffectTransfer).

Definition transferOf (transfers : transferMap) (key : string) : protocolRecursiveEffectTransfer :=
  default noTransfer (transfers !! key).

(** The transfer of one route around its middle. *)
Definition routeTransfer (r : protocolRecursiveSummaryRoute F) (middle : protocolRecursiveEffectTransfer)
    : protocolRecursiveEffectTransfer :=
  finishBuilder (applyLocalEffects (applyTransfer (applyLocalEffects newBuilder (before r)) middle) (after r)).

(** The middle of a route; [None] when the dependency has no transfer yet. *)
Definition middleOf (transfers : transferMap) (r : protocolRecursiveSummaryRoute F) : option protocolRecursiveEffectTransfer :=
  match source r with
  | ReturnsValidation => Some protocolRecursiveValidationTransfer
  | ReturnsDependency f s =>
      let t := transferOf transfers (keyOf f s) in if available t then Some t else None
  end.

Fixpoint routesTransfer (rs : list (protocolRecursiveSummaryRoute F)) (transfers : transferMap) (requireAll : bool)
    (joined : protocolRecursiveEffectTransfer) (observed : bool) : protocolRecursiveEffectTransfer * bool :=
  match rs with
  | [] => (joined, observed)
  | r :: rest =>
      match middleOf transfers r with
      | Some middle =>
          routesTransfer rest transfers requireAll (joinProtocolRecursiveTransfers joined (routeTransfer r middle)) true
      | None => if requireAll then (noTransfer, false) else routesTransfer rest transfers requireAll joined observed
      end
  end.

Definition protocolRecursiveNodeTransfer (n : node) (transfers : transferMap) (requireAll : bool)
    : protocolRecursiveEffectTransfer * bool := routesTransfer (routes n) transfers requireAll noTransfer false.

Definition transferStep (nodes : gmap string node) (valid : gset string) (st : transferMap * bool) (key : string)
    : transferMap * bool :=
  let '(transfers, changed) := st in
  if negb (bool_decide (key ∈ valid)) then st
  else match nodes !! key with
       | Some n =>
           let '(candidate, ok) := protocolRecursiveNodeTransfer n transfers false in
           let merged := joinProtocolRecursiveTransfers (transferOf transfers key) candidate in
           if negb ok || bool_decide (merged = transferOf transfers key) then st else (<[key := merged]> transfers, true)
       | None => st
       end.

Definition transferPass (nodes : gmap string node) (valid : gset string) (i : nat) (transfers : transferMap)
    : transferMap * bool :=
  foldl (transferStep nodes valid) (transfers, false) (rangeNodes TransferLoop i nodes).

(** Nine flags per node, so nine changes per node. *)
Definition convergedTransfers (nodes : gmap string node) (valid : gset string) : transferMap :=
  untilStable (S (9 * size nodes)) 0 (transferPass nodes valid) ∅.

Definition publishStep (nodes : gmap string node) (valid : gset string) (st : option transferMap) (key : string)
    : option transferMap :=
  transfers ← st;
  if negb (bool_decide (key ∈ valid)) then Some transfers
  else match nodes !! key with
       | Some n =>
           let '(complete, ok) := protocolRecursiveNodeTransfer n transfers true in
           if ok then Some (<[key := joinProtocolRecursiveTransfers (transferOf transfers key) complete]> transfers)
           else None
       | None => Some transfers
       end.

Definition publishedTransfers (nodes : gmap string node) (valid : gset string) : option transferMap :=
  foldl (publishStep nodes valid) (Some (convergedTransfers nodes valid)) (rangeNodes PublishLoop 0 nodes).

Fixpoint resultSlotOf (rs : list (protocolRecursiveSummaryRoute F)) (slot : Z) : Z * bool :=
  match rs with
  | [] => (slot, 0 <=? slot)
  | r :: rest =>
      if slot <? 0 then resultSlotOf rest (resultSlot r)
      else if negb (slot =? resultSlot r) then (-1, false) else resultSlotOf rest slot
  end.

Definition protocolRecursiveResultSlot (n : node) : Z * bool := resultSlotOf (routes n) (-1).

(** What is published for the root, once the nodes are collected. *)
Definition summaryOfNodes (nodes : gmap string node) (function : F) (slot : calleeTargetSlot) : calleeTargetSummary * bool :=
  let rootKey := keyOf function slot in
  let valid := validNodes nodes in
  if bool_decide (nodes = ∅) then (noSummary, false)
  else if negb (bool_decide (rootKey ∈ valid)) || negb (bool_decide (rootKey ∈ reachesDirect nodes valid))
  then (noSummary, false)
  else match publishedTransfers nodes valid, nodes !! rootKey with
       | Some transfers, Some root =>
           let '(result, ok) := protocolRecursiveResultSlot root in
           let t := transferOf transfers rootKey in
           if negb ok || negb (available t) || negb (validation t) then (noSummary, false)
           else let '(targetKind, targetSlot) := protocolSummaryTargetForCalleeSlot slot in
                match transferEffects t targetKind targetSlot result with
                | [] => (noSummary, false)
                | effects => (mkSummary effects true pathOutcomeReasonNone, true)
                end
       | _, _ => (noSummary, false)
       end.

Definition buildProtocolRecursiveSummary (fuel : nat) (function : F) (slot : calleeTargetSlot)
    : option (calleeTargetSummary * bool) :=
  nodes ← protocolCollectRecursiveSummaryNode fuel function slot ∅ ∅;
  Some (summaryOfNodes nodes function slot).
End Summaries.
