(* ===== verification/RecursiveTransfers.v ===== *)
(** * The transfers of recursive summaries

    The algebra of [RecursiveSummary]: what a transfer says of a sequence of effects, that
    the transfer of a route covers every sequence the route can produce around what its
    middle covers, and that the transfer of a route grows with its middle. *)

From S2P Require Export RecursiveSummary.
From Stdlib Require Import Btauto.
Local Open Scope Z_scope.

(** ** Views

    The flags of a builder as booleans; every operation is a boolean function of them. *)
Definition mutates (p : Z) : bool := invalidates p protocolRecursiveInvalidatesMutation.
Definition replaces (p : Z) : bool := invalidates p protocolRecursiveInvalidatesReplacement.

Lemma invalidates_lor p q k : invalidates (Z.lor p q) k = invalidates p k || invalidates q k.
Proof.
  unfold invalidates. rewrite Z.land_lor_distr_l. apply eq_true_iff_eq.
  rewrite orb_true_iff, !negb_true_iff, !Z.eqb_neq, Z.lor_eq_0_iff. lia.
Qed.

Record view := mkView {
  v_validation : bool;
  v_validated : bool;
  v_mpre : bool;
  v_rpre : bool;
  v_mpost : bool;
  v_rpost : bool;
  v_escape : bool;
  v_before : bool;
  v_after : bool;
}.

Definition viewOf (b : protocolRecursiveTransferBuilder) : view :=
  let t := transfer b in
  mkView (validation t) (validated b) (mutates (preInvalidations t)) (replaces (preInvalidations t))
    (mutates (postInvalidations t)) (replaces (postInvalidations t)) (escape t) (consumeBeforeValid t) (consumeAfterValid t).

(** The kinds of effects of an instruction. *)
Inductive effect := Validates | Mutates | Replaces | Escapes | Consumes.

Definition kindOf (e : effect) : string :=
  match e with
  | Validates => protocolSummaryEffectValidate
  | Mutates => protocolSummaryEffectMutate
  | Replaces => protocolSummaryEffectReplace
  | Escapes => protocolSummaryEffectEscape
  | Consumes => protocolSummaryEffectConsume
  end.

Definition act (c : bool) (e : effect) (v : view) : view :=
  let 'mkView va vd mp rp mq rq es cb ca := v in
  match e with
  | Validates => mkView (va || c) (vd || c) (mp || (c && mq)) (rp || (c && rq)) (mq && negb c) (rq && negb c) es cb ca
  | Mutates => mkView va (vd && negb c) (mp || (c && negb va)) rp (mq || (c && va)) rq es cb ca
  | Replaces => mkView va (vd && negb c) mp (rp || (c && negb va)) mq (rq || (c && va)) es cb ca
  | Escapes => mkView va vd mp rp mq rq (es || c) cb ca
  | Consumes => mkView va vd mp rp mq rq es (cb || (c && negb vd)) (ca || (c && vd))
  end.

Ltac bools := repeat match goal with b : bool |- _ => destruct b end; done.

Lemma view_apply c e b : viewOf (applyIf c (kindOf e) b) = act c e (viewOf b).
Proof.
  destruct b as [[av va p q es cb ca] vd].
  assert (forall x k, mutates (Z.lor x k) = mutates x || mutates k) as Hm by (intros; apply invalidates_lor).
  assert (forall x k, replaces (Z.lor x k) = replaces x || replaces k) as Hr by (intros; apply invalidates_lor).
  destruct c; cbn [applyIf]; [|unfold viewOf; cbn; destruct e; cbn; by rewrite ?orb_false_r, ?andb_true_r].
  destruct e; unfold viewOf, applyKind, applyInvalidation, kindOf; cbn;
    rewrite ?Hm, ?Hr; destruct va, vd; cbn; rewrite ?Hm, ?Hr; cbn; rewrite ?orb_true_r, ?orb_false_r, ?andb_true_r, ?andb_false_r; done.
Qed.

Lemma view_new : viewOf newBuilder = mkView false false false false false false false false false.
Proof. done. Qed.

(** ** Traces *)

(** The builder after a sequence of effects. *)
Definition run (b : protocolRecursiveTransferBuilder) (trace : list effect) : protocolRecursiveTransferBuilder :=
  foldl (fun b e => applyKind b (kindOf e)) b trace.

Lemma view_run trace : forall b, viewOf (run b trace) = foldl (fun v e => act true e v) (viewOf b) trace.
Proof.
  induction trace as [|e trace IH]; intros b; [done|].
  change (viewOf (run (applyIf true (kindOf e) b) trace) =
    foldl (fun v e => act true e v) (act true e (viewOf b)) trace). by rewrite IH, view_apply.
Qed.

(** What the sequence does to the target: is it validated at the end, and did it escape or was
    it consumed while it was not validated.  A validation is one that succeeds. *)
Definition observe (st : bool * bool) (e : effect) : bool * bool :=
  let '(validated, hazard) := st in
  match e with
  | Validates => (true, hazard)
  | Mutates | Replaces => (false, hazard)
  | Escapes => (validated, true)
  | Consumes => (validated, hazard || negb validated)
  end.

Definition observes (trace : list effect) : bool * bool := foldl observe (false, false) trace.

Lemma observes_view trace :
  let v := viewOf (run newBuilder trace) in
  observes trace = (v_validated v, v_escape v || v_before v) /\
  v_validated v = v_validation v && negb (v_mpost v) && negb (v_rpost v).
Proof.
  cbv zeta. rewrite view_run, view_new. unfold observes.
  induction trace as [|e trace IH] using rev_ind; [done|]. rewrite !foldl_snoc. destruct IH as [-> IH].
  destruct (foldl _ _ trace) as [va vd mp rp mq rq es cb ca]. cbn in *. subst vd. destruct e; cbn; (split; [f_equal|]); btauto.
Qed.

(** ** Coverage *)

(** A transfer covers a sequence of effects: it tells of every invalidation, escape and
    consumption of the sequence; a consumption after the validation may be told of as one
    before it. *)
Definition covers_view (t : protocolRecursiveEffectTransfer) (v : view) : Prop :=
  available t = true /\ validation t = true /\ v_validation v = true /\
  (v_mpre v = true -> mutates (preInvalidations t) = true) /\ (v_rpre v = true -> replaces (preInvalidations t) = true) /\
  (v_mpost v = true -> mutates (postInvalidations t) = true) /\ (v_rpost v = true -> replaces (postInvalidations t) = true) /\
  (v_escape v = true -> escape t = true) /\ (v_before v = true -> consumeBeforeValid t = true) /\
  (v_after v = true -> consumeAfterValid t = true \/ consumeBeforeValid t = true).

Definition covers (t : protocolRecursiveEffectTransfer) (trace : list effect) : Prop :=
  covers_view t (viewOf (run newBuilder trace)).

(** ** The transfer of a route *)
Definition present (effects : list string) (e : effect) : bool := bool_decide (kindOf e ∈ effects).

Lemma act_act c d e v : act c e (act d e v) = act (d || c) e v.
Proof. destruct v, e; cbn; f_equal; btauto. Qed.

Lemma kindsOf_view effects e : forall b, viewOf (applyKindsOf effects b (kindOf e)) = act (present effects e) e (viewOf b).
Proof.
  unfold applyKindsOf. induction effects as [|k effects IH]; intros b.
  - replace (present [] e) with false by (symmetry; by apply bool_decide_eq_false, not_elem_of_nil).
    by rewrite <- (view_apply false e b).
  - cbn [foldl]. destruct (String.eqb_spec k (kindOf e)) as [->|Hk].
    + change (applyKind b (kindOf e)) with (applyIf true (kindOf e) b). rewrite IH, view_apply, act_act.
      f_equal. unfold present. cbn. symmetry. apply bool_decide_eq_true. left.
    + rewrite IH. f_equal. unfold present. apply bool_decide_ext. rewrite elem_of_cons.
      split; [by right|intros [?|?]; [congruence|done]].
Qed.

Definition actLocal (effects : list string) (v : view) : view :=
  act (present effects Consumes) Consumes (act (present effects Escapes) Escapes
    (act (present effects Replaces) Replaces (act (present effects Mutates) Mutates v))).

Lemma local_view effects b : viewOf (applyLocalEffects b effects) = actLocal effects (viewOf b).
Proof.
  unfold applyLocalEffects, actLocal. cbn [foldl].
  by rewrite (kindsOf_view _ Consumes), (kindsOf_view _ Escapes), (kindsOf_view _ Replaces), (kindsOf_view _ Mutates).
Qed.

Lemma invalidations_view b p :
  viewOf (applyInvalidations b p) = act (replaces p) Replaces (act (mutates p) Mutates (viewOf b)).
Proof. unfold applyInvalidations. by rewrite (view_apply _ Replaces), (view_apply _ Mutates). Qed.

Definition actTransfer (t : protocolRecursiveEffectTransfer) (v : view) : view :=
  let v := act (consumeBeforeValid t) Consumes (act (escape t) Escapes v) in
  let v := act (replaces (preInvalidations t)) Replaces (act (mutates (preInvalidations t)) Mutates v) in
  let v := act (consumeAfterValid t) Consumes (act (validation t) Validates v) in
  act (replaces (postInvalidations t)) Replaces (act (mutates (postInvalidations t)) Mutates v).

Lemma transfer_view b t : available t = true -> viewOf (applyTransfer b t) = actTransfer t (viewOf b).
Proof.
  intros Ha. unfold applyTransfer, actTransfer. rewrite Ha. cbn [negb].
  by rewrite invalidations_view, (view_apply _ Consumes), (view_apply _ Validates), invalidations_view,
    (view_apply _ Consumes), (view_apply _ Escapes).
Qed.

Section Route.
Context {F : Type} (r : protocolRecursiveSummaryRoute F).

Abbreviation B := (present (before r)).
Abbreviation A := (present (after r)).

(** The flags of the transfer of a route around a middle that validates. *)
Record route_flags (m t : protocolRecursiveEffectTransfer) : Prop := {
  rf_available : available t = true;
  rf_validation : validation t = true;
  rf_mpre : mutates (preInvalidations t) = B Mutates || mutates (preInvalidations m);
  rf_rpre : replaces (preInvalidations t) = B Replaces || replaces (preInvalidations m);
  rf_mpost : mutates (postInvalidations t) = mutates (postInvalidations m) || A Mutates;
  rf_rpost : replaces (postInvalidations t) = replaces (postInvalidations m) || A Replaces;
  rf_escape : escape t = B Escapes || escape m || A Escapes;
  rf_before : consumeBeforeValid t = B Consumes || consumeBeforeValid m ||
    (A Consumes && (mutates (postInvalidations m) || A Mutates || replaces (postInvalidations m) || A Replaces));
  rf_after : consumeAfterValid t = consumeAfterValid m ||
    (A Consumes && negb (mutates (postInvalidations m) || A Mutates || replaces (postInvalidations m) || A Replaces));
}.

Lemma routeTransfer_flags m : available m = true -> validation m = true -> route_flags m (routeTransfer r m).
Proof.
  intros Ha Hv. unfold routeTransfer.
  assert (viewOf (applyLocalEffects (applyTransfer (applyLocalEffects newBuilder (before r)) m) (after r)) =
    actLocal (after r) (actTransfer m (actLocal (before r) (mkView false false false false false false false false false)))) as E
    by (by rewrite local_view, transfer_view, local_view, view_new).
  destruct (applyLocalEffects _ (after r)) as [[av va p q es cb ca] vd]. unfold viewOf in E. cbn in E.
  unfold actTransfer in E. rewrite Hv in E. cbn in E. injection E as E1 E2 E3 E4 E5 E6 E7 E8 E9.
  split; cbn; rewrite ?E1, ?E2, ?E3, ?E4, ?E5, ?E6, ?E7, ?E8, ?E9; try done; btauto.
Qed.
End Route.

(** ** The order of transfers *)

(** [b] tells of everything [a] tells of. *)
Record below (a b : protocolRecursiveEffectTransfer) : Prop := {
  be_available : available b = true;
  be_validation : validation b = true;
  be_mpre : mutates (preInvalidations a) = true -> mutates (preInvalidations b) = true;
  be_rpre : replaces (preInvalidations a) = true -> replaces (preInvalidations b) = true;
  be_mpost : mutates (postInvalidations a) = true -> mutates (postInvalidations b) = true;
  be_rpost : replaces (postInvalidations a) = true -> replaces (postInvalidations b) = true;
  be_escape : escape a = true -> escape b = true;
  be_before : consumeBeforeValid a = true -> consumeBeforeValid b = true;
  be_after : consumeAfterValid a = true -> consumeAfterValid b = true \/ consumeBeforeValid b = true;
}.

Lemma below_refl a : available a = true -> validation a = true -> below a a.
Proof. split; auto. Qed.

Lemma below_trans a b c : below a b -> below b c -> below a c.
Proof. intros [] []; split; auto. intros H. naive_solver. Qed.

(** Transfers that are available validate. *)
Definition validating (t : protocolRecursiveEffectTransfer) : Prop := available t = true -> validation t = true.

Lemma join_fields a b :
  available a = true -> available b = true ->
  joinProtocolRecursiveTransfers a b = mkTransfer true (validation a || validation b)
    (Z.lor (preInvalidations a) (preInvalidations b)) (Z.lor (postInvalidations a) (postInvalidations b))
    (escape a || escape b) (consumeBeforeValid a || consumeBeforeValid b) (consumeAfterValid a || consumeAfterValid b).
Proof. intros Ha Hb. unfold joinProtocolRecursiveTransfers. by rewrite Ha, Hb. Qed.

Lemma mutates_lor p q : mutates (Z.lor p q) = mutates p || mutates q.
Proof. apply invalidates_lor. Qed.
Lemma replaces_lor p q : replaces (Z.lor p q) = replaces p || replaces q.
Proof. apply invalidates_lor. Qed.

Lemma below_join_r a b : available b = true -> validation b = true -> below b (joinProtocolRecursiveTransfers a b).
Proof.
  intros Hb Hv. destruct (available a) eqn:Ha.
  - rewrite join_fields by done. split; cbn; rewrite ?mutates_lor, ?replaces_lor, ?Hv, ?orb_true_iff; auto.
  - unfold joinProtocolRecursiveTransfers. rewrite Ha. by apply below_refl.
Qed.

Lemma below_join_l a b : available a = true -> validation a = true -> below a (joinProtocolRecursiveTransfers a b).
Proof.
  intros Ha Hv. destruct (available b) eqn:Hb.
  - rewrite join_fields by done. split; cbn; rewrite ?mutates_lor, ?replaces_lor, ?Hv, ?orb_true_iff; auto.
  - unfold joinProtocolRecursiveTransfers. rewrite Ha, Hb. by apply below_refl.
Qed.

Lemma join_below a b c :
  (available a = true -> below a c) -> (available b = true -> below b c) ->
  available (joinProtocolRecursiveTransfers a b) = true -> below (joinProtocolRecursiveTransfers a b) c.
Proof.
  unfold joinProtocolRecursiveTransfers. intros Ha Hb. destruct (available a) eqn:Ea; cbn [negb]; [|auto].
  destruct (available b) eqn:Eb; cbn [negb]; [|auto]. intros _. destruct (Ha eq_refl), (Hb eq_refl).
  split; cbn; rewrite ?mutates_lor, ?replaces_lor, ?orb_true_iff; naive_solver.
Qed.

Lemma join_validating a b : validating a -> validating b -> validating (joinProtocolRecursiveTransfers a b).
Proof.
  unfold validating, joinProtocolRecursiveTransfers. intros Ha Hb. destruct (available a) eqn:Ea; cbn [negb]; [|auto].
  destruct (available b) eqn:Eb; cbn [negb]; [|auto]. intros _. cbn. by rewrite (Ha eq_refl).
Qed.

Lemma join_available a b : available (joinProtocolRecursiveTransfers a b) = available a || available b.
Proof.
  unfold joinProtocolRecursiveTransfers. destruct (available a) eqn:Ea; cbn; [|done]. by destruct (available b) eqn:Eb; cbn.
Qed.

(** The transfer of a route grows with its middle. *)
Lemma routeTransfer_mono {F} (r : protocolRecursiveSummaryRoute F) a b :
  available a = true -> validation a = true -> below a b -> below (routeTransfer r a) (routeTransfer r b).
Proof.
  intros Ha Hv [Hba Hbv H1 H2 H3 H4 H5 H6 H7].
  destruct (routeTransfer_flags r a Ha Hv), (routeTransfer_flags r b Hba Hbv).
  split; [done|done|..].
  - rewrite rf_mpre0, rf_mpre1, !orb_true_iff. intuition.
  - rewrite rf_rpre0, rf_rpre1, !orb_true_iff. intuition.
  - rewrite rf_mpost0, rf_mpost1, !orb_true_iff. intuition.
  - rewrite rf_rpost0, rf_rpost1, !orb_true_iff. intuition.
  - rewrite rf_escape0, rf_escape1, !orb_true_iff. intuition.
  - rewrite rf_before0, rf_before1, !orb_true_iff, !andb_true_iff, !orb_true_iff. intuition.
  - rewrite rf_before1, rf_after0, rf_after1. destruct (present (after r) Consumes).
    + intros _. cbn. destruct (mutates (postInvalidations b) || present (after r) Mutates ||
        replaces (postInvalidations b) || present (after r) Replaces); [right|left]; by rewrite !orb_true_r.
    + cbn. rewrite !orb_false_r, !orb_true_iff. intuition.
Qed.

(** ** What a route can produce *)
Definition nf (trace : list effect) : protocolRecursiveEffectTransfer := finishBuilder (run newBuilder trace).

(** A sequence of effects other than validations, of the given kinds. *)
Definition drawn (effects : list string) (trace : list effect) : Prop :=
  Forall (fun e => e <> Validates /\ kindOf e ∈ effects) trace.

Lemma drawn_snoc effects trace e : drawn effects (trace ++ [e]) -> drawn effects trace /\ e <> Validates /\ present effects e = true.
Proof.
  intros [H1 H2]%Forall_app. apply Forall_singleton in H2 as [Hne Hin]. split; [done|]. split; [done|].
  by apply bool_decide_eq_true.
Qed.

Definition actAll (v : view) (trace : list effect) : view := foldl (fun v e => act true e v) v trace.

Lemma actAll_snoc v trace e : actAll v (trace ++ [e]) = act true e (actAll v trace).
Proof. unfold actAll. by rewrite foldl_snoc. Qed.

Lemma nf_fields trace :
  let t := nf trace in let v := actAll (viewOf newBuilder) trace in
  available t = true /\ validation t = v_validation v /\ mutates (preInvalidations t) = v_mpre v /\
  replaces (preInvalidations t) = v_rpre v /\ mutates (postInvalidations t) = v_mpost v /\
  replaces (postInvalidations t) = v_rpost v /\ escape t = v_escape v /\ consumeBeforeValid t = v_before v /\
  consumeAfterValid t = v_after v.
Proof. cbv zeta. unfold actAll. rewrite <- view_run. unfold nf, viewOf. cbn. repeat split. Qed.

(** Effects before any validation. *)
Lemma drawn_before effects trace :
  drawn effects trace -> exists m p e c, actAll (viewOf newBuilder) trace = mkView false false m p false false e c false /\
    (m = true -> present effects Mutates = true) /\ (p = true -> present effects Replaces = true) /\
    (e = true -> present effects Escapes = true) /\ (c = true -> present effects Consumes = true).
Proof.
  induction trace as [|x trace IH] using rev_ind; intros H.
  - by exists false, false, false, false.
  - apply drawn_snoc in H as (H & Hne & Hp). destruct (IH H) as (m & p & e & c & E & Hs). rewrite actAll_snoc, E.
    destruct x; [done|..]; cbn; do 4 eexists; (split; [reflexivity|]); rewrite ?orb_true_r, ?orb_false_r; naive_solver.
Qed.

(** The flags that were set before are kept. *)
Definition shift (m p e c : bool) (v : view) : view :=
  mkView (v_validation v) (v_validated v) (m || v_mpre v) (p || v_rpre v) (v_mpost v) (v_rpost v) (e || v_escape v)
    (c || v_before v) (v_after v).

Lemma run_shift m p e c trace :
  actAll (mkView false false m p false false e c false) trace = shift m p e c (actAll (viewOf newBuilder) trace).
Proof.
  induction trace as [|x trace IH] using rev_ind.
  - unfold shift. cbn. by rewrite !orb_false_r.
  - rewrite !actAll_snoc, IH. generalize (actAll (viewOf newBuilder) trace). intros [va vd mp rp mq rq es cb ca].
    unfold shift. destruct x; cbn; f_equal; btauto.
Qed.

(** Effects after the validation. *)
Lemma drawn_after effects trace v :
  drawn effects trace -> v_validation v = true -> v_validated v = negb (v_mpost v) && negb (v_rpost v) ->
  let w := actAll v trace in
  v_validation w = true /\ v_validated w = negb (v_mpost w) && negb (v_rpost w) /\
  v_mpre w = v_mpre v /\ v_rpre w = v_rpre v /\
  (v_mpost w = true -> v_mpost v = true \/ present effects Mutates = true) /\
  (v_rpost w = true -> v_rpost v = true \/ present effects Replaces = true) /\
  (v_escape w = true -> v_escape v = true \/ present effects Escapes = true) /\
  (v_before w = true -> v_before v = true \/ (present effects Consumes = true /\ (v_mpost w = true \/ v_rpost w = true))) /\
  (v_after w = true -> v_after v = true \/ present effects Consumes = true).
Proof.
  intros H Hv Hd. cbv zeta. induction trace as [|x trace IH] using rev_ind.
  - cbn. repeat split; auto.
  - apply drawn_snoc in H as (H & Hne & Hp). specialize (IH H). rewrite actAll_snoc.
    destruct (actAll v trace) as [va vd mp rp mq rq es cb ca]. cbn in IH. destruct IH as (-> & -> & -> & -> & IH).
    destruct x; [done|..]; cbn; rewrite ?orb_false_r, ?orb_true_r, ?andb_true_r; repeat split; try btauto;
      destruct mq, rq; cbn; rewrite ?orb_false_r, ?orb_true_r; naive_solver.
Qed.

Lemma actAll_app v t1 t2 : actAll v (t1 ++ t2) = actAll (actAll v t1) t2.
Proof. unfold actAll. apply foldl_app. Qed.

(** Whatever a route does before and after its middle, the transfer of the route tells of it. *)
Lemma route_covers {F} (r : protocolRecursiveSummaryRoute F) b mid a :
  drawn (before r) b -> validation (nf mid) = true -> drawn (after r) a ->
  validation (nf (b ++ mid ++ a)) = true /\ below (nf (b ++ mid ++ a)) (routeTransfer r (nf mid)).
Proof.
  intros (m & p & e & c & Eb & Hm & Hp & He & Hc)%drawn_before Hv Ha.
  destruct (nf_fields mid) as (_ & Nv & N1 & N2 & N3 & N4 & N5 & N6 & N7).
  destruct (nf_fields (b ++ mid ++ a)) as (_ & Tv & T1 & T2 & T3 & T4 & T5 & T6 & T7).
  destruct (observes_view mid) as [_ Hd]. cbv zeta in Hd. rewrite view_run in Hd. fold (actAll (viewOf newBuilder) mid) in Hd.
  rewrite !actAll_app, Eb, run_shift in Tv, T1, T2, T3, T4, T5, T6, T7.
  pose proof (drawn_after (after r) a (shift m p e c (actAll (viewOf newBuilder) mid)) Ha) as D. cbv zeta in D.
  rewrite <- Nv in Hd. unfold shift in D at 1 2 3 4. cbn [v_validation v_validated v_mpost v_rpost] in D.
  destruct D as (D1 & _ & D2 & D3 & D4 & D5 & D6 & D7 & D8); [congruence|by rewrite Hd, Hv|].
  destruct (routeTransfer_flags r (nf mid) eq_refl Hv). split; [congruence|].
  unfold shift in *. cbn in D2, D3, D4, D5, D6, D7, D8.
  split; [done|done|..].
  - rewrite T1, D2, rf_mpre0, N1, !orb_true_iff. intuition.
  - rewrite T2, D3, rf_rpre0, N2, !orb_true_iff. intuition.
  - rewrite T3, rf_mpost0, N3, orb_true_iff. intuition.
  - rewrite T4, rf_rpost0, N4, orb_true_iff. intuition.
  - rewrite T5, rf_escape0, N5, !orb_true_iff. intros [[H|H]%orb_true_iff|H]%D6; auto.
  - rewrite T6, rf_before0, N6, N3, N4, !orb_true_iff, !andb_true_iff, !orb_true_iff.
    intros [[H|H]%orb_true_iff|[H [H'|H']]]%D7; [auto|auto|..]; right; (split; [done|]).
    + destruct (D4 H'); auto.
    + destruct (D5 H'); auto.
  - rewrite T7, rf_after0, rf_before0, N7, N3, N4. intros [H|H]%D8; [left; by rewrite H|]. rewrite H. cbn.
    destruct (v_mpost _ || present (after r) Mutates || v_rpost _ || present (after r) Replaces); [right|left]; by rewrite !orb_true_r.
Qed.

Lemma validation_nf : protocolRecursiveValidationTransfer = nf [Validates].
Proof. done. Qed.

(** ** The height of the domain *)

(** The invalidations fit their two bits; an unavailable transfer is the zero value. *)
Definition fits2 (p : Z) : Prop := 0 <= p <= 3.

Lemma fits2_cases p : fits2 p -> p = 0 \/ p = 1 \/ p = 2 \/ p = 3.
Proof. unfold fits2. lia. Qed.

Lemma fits2_lor p q : fits2 p -> fits2 q -> fits2 (Z.lor p q).
Proof.
  intros Hp%fits2_cases Hq%fits2_cases.
  destruct Hp as [->|[->|[->| ->]]], Hq as [->|[->|[->| ->]]]; by split; vm_compute.
Qed.

Lemma fits2_eq p q : fits2 p -> fits2 q -> mutates p = mutates q -> replaces p = replaces q -> p = q.
Proof.
  intros Hp%fits2_cases Hq%fits2_cases.
  destruct Hp as [->|[->|[->| ->]]], Hq as [->|[->|[->| ->]]]; vm_compute; congruence.
Qed.

Record regular (t : protocolRecursiveEffectTransfer) : Prop := {
  reg_pre : fits2 (preInvalidations t);
  reg_post : fits2 (postInvalidations t);
  reg_validating : validating t;
  reg_zero : available t = false -> t = noTransfer;
}.

Lemma regular_no : regular noTransfer.
Proof. split; unfold fits2; cbn; [lia|lia|done|done]. Qed.

Lemma regular_join a b : regular a -> regular b -> regular (joinProtocolRecursiveTransfers a b).
Proof.
  intros [A1 A2 A3 A4] [B1 B2 B3 B4]. split.
  - unfold joinProtocolRecursiveTransfers. repeat case_match; cbn; auto using fits2_lor.
  - unfold joinProtocolRecursiveTransfers. repeat case_match; cbn; auto using fits2_lor.
  - by apply join_validating.
  - intros H. unfold joinProtocolRecursiveTransfers in *. repeat case_match; cbn in *; auto; done.
Qed.

(** The invalidations of a builder fit. *)
Definition fitting (b : protocolRecursiveTransferBuilder) : Prop :=
  fits2 (preInvalidations (transfer b)) /\ fits2 (postInvalidations (transfer b)).

Lemma fitting_apply b k : fitting b -> fitting (applyKind b k).
Proof.
  intros [H1 H2]. assert (fits2 protocolRecursiveInvalidatesMutation) by (by split; vm_compute).
  assert (fits2 protocolRecursiveInvalidatesReplacement) by (by split; vm_compute).
  assert (fits2 0) by (unfold fits2; lia).
  unfold fitting, applyKind, applyInvalidation. repeat case_match; cbn; auto using fits2_lor.
Qed.

Lemma fitting_if c k b : fitting b -> fitting (applyIf c k b).
Proof. destruct c; cbn; auto using fitting_apply. Qed.

Lemma fitting_local b effects : fitting b -> fitting (applyLocalEffects b effects).
Proof.
  assert (forall k b, fitting b -> fitting (applyKindsOf effects b k)) as H.
  { intros k. unfold applyKindsOf. induction effects as [|e l IH]; intros b' Hb; [done|]. cbn. apply IH.
    destruct (String.eqb e k); auto using fitting_apply. }
  intros Hb. unfold applyLocalEffects. cbn [foldl]. auto.
Qed.

Lemma fitting_transfer b t : fitting b -> fitting (applyTransfer b t).
Proof.
  intros Hb. unfold applyTransfer, applyInvalidations. destruct (available t); cbn [negb]; auto 20 using fitting_if.
Qed.

Lemma regular_route {F} (r : protocolRecursiveSummaryRoute F) m :
  available m = true -> validation m = true -> regular (routeTransfer r m).
Proof.
  intros Ha Hv. pose proof (rf_validation _ _ _ (routeTransfer_flags r m Ha Hv)) as Hval.
  unfold routeTransfer in *.
  assert (fitting (applyLocalEffects (applyTransfer (applyLocalEffects newBuilder (before r)) m) (after r))) as [H1 H2].
  { apply fitting_local, fitting_transfer, fitting_local. split; unfold fits2; cbn; lia. }
  split; cbn; [exact H1|exact H2|by intros _|done].
Qed.

(** The number of flags a transfer has set: at most nine, and a join that changes a transfer
    sets more. *)
Definition weight (t : protocolRecursiveEffectTransfer) : nat :=
  Nat.b2n (available t) + Nat.b2n (validation t) + Nat.b2n (mutates (preInvalidations t)) +
  Nat.b2n (replaces (preInvalidations t)) + Nat.b2n (mutates (postInvalidations t)) +
  Nat.b2n (replaces (postInvalidations t)) + Nat.b2n (escape t) + Nat.b2n (consumeBeforeValid t) +
  Nat.b2n (consumeAfterValid t).

Lemma b2n_le b : (Nat.b2n b <= 1)%nat.
Proof. destruct b; cbn; lia. Qed.

Lemma weight_bound t : (weight t <= 9)%nat.
Proof.
  unfold weight. pose proof (b2n_le (available t)). pose proof (b2n_le (validation t)).
  pose proof (b2n_le (mutates (preInvalidations t))). pose proof (b2n_le (replaces (preInvalidations t))).
  pose proof (b2n_le (mutates (postInvalidations t))). pose proof (b2n_le (replaces (postInvalidations t))).
  pose proof (b2n_le (escape t)). pose proof (b2n_le (consumeBeforeValid t)). pose proof (b2n_le (consumeAfterValid t)). lia.
Qed.

Lemma b2n_orb a b : (Nat.b2n a <= Nat.b2n (a || b))%nat /\ (Nat.b2n (a || b) = Nat.b2n a -> a || b = a).
Proof. destruct a, b; cbn; (split; [lia|done]). Qed.

Lemma weight_join a b :
  regular a -> regular b -> joinProtocolRecursiveTransfers a b <> a -> (weight a < weight (joinProtocolRecursiveTransfers a b))%nat.
Proof.
  intros [A1 A2 A3 A4] [B1 B2 B3 B4] Hne. destruct (available a) eqn:Ha.
  - destruct (available b) eqn:Hb; [|unfold joinProtocolRecursiveTransfers in *; by rewrite Ha, Hb in Hne].
    rewrite join_fields in * by done. destruct a as [av va p q es cb ca], b as [bv vb p' q' es' cb' ca'].
    cbn in *. subst. unfold weight. cbn [available validation preInvalidations postInvalidations escape consumeBeforeValid consumeAfterValid].
    rewrite !mutates_lor, !replaces_lor.
    destruct (b2n_orb va vb), (b2n_orb (mutates p) (mutates p')), (b2n_orb (replaces p) (replaces p')),
      (b2n_orb (mutates q) (mutates q')), (b2n_orb (replaces q) (replaces q')), (b2n_orb es es'), (b2n_orb cb cb'), (b2n_orb ca ca').
    apply Nat.nle_gt. intros Hle. change (Nat.b2n true) with 1%nat in Hle. apply Hne. f_equal;
      try (apply fits2_eq; [by apply fits2_lor|done|rewrite mutates_lor|rewrite replaces_lor]);
      match goal with H : _ -> ?x = ?y |- ?x = ?y => apply H; lia end.
  - rewrite A4 in * by done. unfold joinProtocolRecursiveTransfers in *. cbn [negb available noTransfer] in *.
    destruct (available b) eqn:Hb; [|rewrite B4 in Hne by done; done]. change (weight noTransfer) with 0%nat. unfold weight. rewrite Hb. cbn. lia.
Qed.

(** ** What a summary tells its callers *)
Section Callers.
Context (targetKind : string) (targetSlot resultSlot : Z).

(** The effect of a summary that stands for an effect of an execution. *)
Definition factOf (e : effect) : ProtocolSummaryEffectFact :=
  match e with
  | Validates => newProtocolSummaryEffect targetKind targetSlot resultSlot
  | _ => newProtocolTargetSummaryEffect (kindOf e) targetKind targetSlot
  end.

(** The published order of the effects of a transfer. *)
Definition normalTrace (t : protocolRecursiveEffectTransfer) : list effect :=
  (if escape t then [Escapes] else []) ++ (if consumeBeforeValid t then [Consumes] else []) ++
  (if mutates (preInvalidations t) then [Mutates] else []) ++ (if replaces (preInvalidations t) then [Replaces] else []) ++
  (if validation t then [Validates] else []) ++ (if consumeAfterValid t then [Consumes] else []) ++
  (if mutates (postInvalidations t) then [Mutates] else []) ++ (if replaces (postInvalidations t) then [Replaces] else []).

Lemma transferEffects_trace t : transferEffects t targetKind targetSlot resultSlot = map factOf (normalTrace t).
Proof.
  unfold transferEffects, normalTrace, invalidationEffects, mutates, replaces.
  rewrite !map_app, <- !app_assoc. repeat (f_equal; [by case_match|]). by case_match.
Qed.

Lemma observes_facts trace : forall v h, validatesWithoutHazard (map factOf trace) v h = Some (foldl observe (v, h) trace).
Proof. induction trace as [|e trace IH]; intros v h; [done|]. destruct e; cbn; apply IH. Qed.

Lemma observes_normal t : validation t = true ->
  observes (normalTrace t) = (negb (mutates (postInvalidations t)) && negb (replaces (postInvalidations t)),
                              escape t || consumeBeforeValid t).
Proof.
  intros Hv. unfold observes, normalTrace. rewrite Hv.
  destruct (escape t), (consumeBeforeValid t), (mutates (preInvalidations t)), (replaces (preInvalidations t)),
    (consumeAfterValid t), (mutates (postInvalidations t)), (replaces (postInvalidations t)); done.
Qed.

Definition occurs (e : effect) (trace : list effect) : bool :=
  existsb (fun e' => match e, e' with
    | Validates, Validates | Mutates, Mutates | Replaces, Replaces | Escapes, Escapes | Consumes, Consumes => true
    | _, _ => false end) trace.

Lemma occurs_snoc e trace x : occurs e (trace ++ [x]) = occurs e trace || occurs e [x].
Proof. apply existsb_app. Qed.

(** The effects that occurred, as an abstract state. *)
Definition effectsState (validation hazards : Z) (trace : list effect) : protocolAbstractState :=
  mkState validation hazards 0 protocolErrorResultUnknown 0 0
    (z_union [if occurs Mutates trace then protocolPossibleEffectMutate else 0;
              if occurs Replaces trace then protocolPossibleEffectReplace else 0;
              if occurs Escapes trace then protocolPossibleEffectEscape else 0;
              if occurs Consumes trace then protocolPossibleEffectConsume else 0]).

Definition occurredHazards (trace : list effect) : Z :=
  Z.lor (if occurs Escapes trace then protocolHazardEscaped else 0) (if occurs Consumes trace then protocolHazardConsumed else 0).

Lemma continueEffects_app l1 l2 : forall s, continueEffects (l1 ++ l2) s = s' ← continueEffects l1 s; continueEffects l2 s'.
Proof. induction l1 as [|e l1 IH]; intros s; [done|]. cbn. destruct (continueEffect s e); [apply IH|done]. Qed.

(** Continuing a required state reports every escape and consumption. *)
Lemma continue_required trace :
  continueEffects (map factOf trace) newProtocolRequiredState =
  Some (effectsState protocolValidationRequired (occurredHazards trace) trace).
Proof.
  induction trace as [|x trace IH] using rev_ind; [done|]. rewrite map_app, continueEffects_app, IH. cbn [mbind option_bind].
  unfold effectsState, occurredHazards. rewrite !occurs_snoc.
  destruct x, (occurs Mutates trace), (occurs Replaces trace), (occurs Escapes trace), (occurs Consumes trace); vm_compute; reflexivity.
Qed.

(** Continuing a validated state keeps it validated until an invalidation. *)
Lemma continue_validated trace :
  exists hazards, continueEffects (map factOf trace) (set_Validation protocolValidationProven newProtocolRequiredState) =
  Some (effectsState (if occurs Mutates trace || occurs Replaces trace then protocolValidationRequired
                      else protocolValidationProven) hazards trace).
Proof.
  induction trace as [|x trace [h IH]] using rev_ind; [by exists 0|]. rewrite map_app, continueEffects_app, IH. cbn [mbind option_bind].
  unfold effectsState. rewrite !occurs_snoc.
  destruct x, (occurs Mutates trace), (occurs Replaces trace), (occurs Escapes trace), (occurs Consumes trace); vm_compute;
    eexists; reflexivity.
Qed.

Lemma occurs_nf trace :
  occurs Mutates trace = mutates (preInvalidations (nf trace)) || mutates (postInvalidations (nf trace)) /\
  occurs Replaces trace = replaces (preInvalidations (nf trace)) || replaces (postInvalidations (nf trace)) /\
  occurs Escapes trace = escape (nf trace) /\
  occurs Consumes trace = consumeBeforeValid (nf trace) || consumeAfterValid (nf trace).
Proof.
  destruct (nf_fields trace) as (_ & _ & -> & -> & -> & -> & -> & -> & ->).
  induction trace as [|x trace IH] using rev_ind; [done|]. rewrite actAll_snoc, !occurs_snoc.
  destruct (actAll _ trace) as [va vd mp rp mq rq es cb ca]. cbn in IH. destruct IH as (-> & -> & -> & ->).
  destruct x; cbn; repeat split; btauto.
Qed.

Lemma occurs_normal t :
  occurs Mutates (normalTrace t) = mutates (preInvalidations t) || mutates (postInvalidations t) /\
  occurs Replaces (normalTrace t) = replaces (preInvalidations t) || replaces (postInvalidations t) /\
  occurs Escapes (normalTrace t) = escape t /\ occurs Consumes (normalTrace t) = consumeBeforeValid t || consumeAfterValid t.
Proof.
  unfold normalTrace. destruct (escape t), (consumeBeforeValid t), (mutates (preInvalidations t)), (replaces (preInvalidations t)),
    (validation t), (consumeAfterValid t), (mutates (postInvalidations t)), (replaces (postInvalidations t)); done.
Qed.
End Callers.

(** The summary with the effects of a transfer. *)
Definition summaryOf (t : protocolRecursiveEffectTransfer) (targetKind : string) (targetSlot resultSlot : Z) : calleeTargetSummary :=
  mkSummary (transferEffects t targetKind targetSlot resultSlot) true pathOutcomeReasonNone.

Section Told.
Context (t : protocolRecursiveEffectTransfer) (targetKind : string) (targetSlot resultSlot : Z).
Context (Hval : validation t = true).

Abbreviation summary := (summaryOf t targetKind targetSlot resultSlot).
Abbreviation fact := (factOf targetKind targetSlot resultSlot).

Lemma normalTrace_nonempty : exists e l, normalTrace t = e :: l.
Proof.
  unfold normalTrace. rewrite Hval. destruct (escape t), (consumeBeforeValid t), (mutates (preInvalidations t)),
    (replaces (preInvalidations t)); cbn; by do 2 eexists.
Qed.

Lemma summary_validates :
  conditionallyValidatesWithoutHazard summary =
  negb (mutates (postInvalidations t)) && negb (replaces (postInvalidations t)) && negb (escape t || consumeBeforeValid t).
Proof.
  unfold conditionallyValidatesWithoutHazard, summaryOf. cbn [Complete Effects negb orb].
  rewrite transferEffects_trace, observes_facts. pose proof (observes_normal t Hval) as H. unfold observes in H. rewrite H.
  destruct normalTrace_nonempty as (e & l & ->). done.
Qed.

Lemma summary_continues validated :
  protocolContinuationStateFrom summary validated =
  match continueEffects (map fact (normalTrace t))
          (if validated then set_Validation protocolValidationProven newProtocolRequiredState else newProtocolRequiredState) with
  | Some state => (state, true)
  | None => (zeroState, false)
  end.
Proof.
  unfold protocolContinuationStateFrom, summaryOf. cbn [Complete Effects negb orb]. rewrite transferEffects_trace.
  destruct normalTrace_nonempty as (e & l & ->). done.
Qed.

(** A summary whose transfer is above that of a sequence of effects tells its callers of the
    sequence: if they may take it as a validation, the sequence validates without a hazard;
    and the state in which they go on is above the one after the sequence. *)
Lemma told trace :
  below (nf trace) t -> validation (nf trace) = true ->
  (conditionallyValidatesWithoutHazard summary = true -> observes trace = (true, false)) /\
  (exists st st', protocolContinuationState summary = (st, true) /\
     continueEffects (map fact trace) newProtocolRequiredState = Some st' /\ lessEqual st' st = true) /\
  (exists st st', protocolContinuationStateFrom summary true = (st, true) /\
     continueEffects (map fact trace) (set_Validation protocolValidationProven newProtocolRequiredState) = Some st' /\
     Validation st' <= Validation st /\ bits_leb (PossibleEffects st') (PossibleEffects st) = true).
Proof.
  intros [Ba Bv B1 B2 B3 B4 B5 B6 B7] Hv.
  destruct (occurs_nf trace) as (O1 & O2 & O3 & O4). destruct (occurs_normal t) as (P1 & P2 & P3 & P4).
  assert (occurs Mutates trace = true -> occurs Mutates (normalTrace t) = true) as Q1
    by (rewrite O1, P1, !orb_true_iff; intuition).
  assert (occurs Replaces trace = true -> occurs Replaces (normalTrace t) = true) as Q2
    by (rewrite O2, P2, !orb_true_iff; intuition).
  assert (occurs Escapes trace = true -> occurs Escapes (normalTrace t) = true) as Q3 by (rewrite O3, P3; auto).
  assert (occurs Consumes trace = true -> occurs Consumes (normalTrace t) = true) as Q4
    by (rewrite O4, P4, !orb_true_iff; intuition).
  split; [|split].
  - rewrite summary_validates, !andb_true_iff, !negb_true_iff, orb_false_iff. intros [[H1 H2] [H3 H4]].
    destruct (observes_view trace) as [-> ->]. rewrite view_run.
    destruct (nf_fields trace) as (_ & N1 & _ & _ & N2 & N3 & N4 & N5 & _). cbv zeta in N1, N2, N3, N4, N5.
    unfold actAll in N1, N2, N3, N4, N5. rewrite <- N1, <- N2, <- N3, <- N4, <- N5.
    apply not_true_iff_false in H1, H2, H3, H4.
    rewrite (not_true_is_false _ (fun H => H1 (B3 H))), (not_true_is_false _ (fun H => H2 (B4 H))),
      (not_true_is_false _ (fun H => H3 (B5 H))), (not_true_is_false _ (fun H => H4 (B6 H))), Hv. done.
  - unfold protocolContinuationState. rewrite summary_continues, !continue_required. do 2 eexists. do 2 (split; [done|]).
    clear -Q1 Q2 Q3 Q4. unfold effectsState, occurredHazards.
    destruct (occurs Mutates trace), (occurs Replaces trace), (occurs Escapes trace), (occurs Consumes trace);
      rewrite ?Q1, ?Q2, ?Q3, ?Q4 by done; repeat case_match; done.
  - rewrite summary_continues. destruct (continue_validated targetKind targetSlot resultSlot trace) as [h ->].
    destruct (continue_validated targetKind targetSlot resultSlot (normalTrace t)) as [h' ->]. do 2 eexists. do 2 (split; [done|]).
    clear -Q1 Q2 Q3 Q4. unfold effectsState. cbn [Validation PossibleEffects].
    destruct (occurs Mutates trace), (occurs Replaces trace), (occurs Escapes trace), (occurs Consumes trace);
      rewrite ?Q1, ?Q2, ?Q3, ?Q4 by done; repeat case_match; done.
Qed.
End Told.

(** Transfers that tell the same lead their callers to the same conclusions. *)
Lemma told_alike a b targetKind targetSlot resultSlot :
  below a b -> below b a ->
  let sa := summaryOf a targetKind targetSlot resultSlot in let sb := summaryOf b targetKind targetSlot resultSlot in
  conditionallyValidatesWithoutHazard sa = conditionallyValidatesWithoutHazard sb /\
  protocolContinuationState sa = protocolContinuationState sb /\
  Validation (protocolContinuationStateFrom sa true).1 = Validation (protocolContinuationStateFrom sb true).1 /\
  PossibleEffects (protocolContinuationStateFrom sa true).1 = PossibleEffects (protocolContinuationStateFrom sb true).1.
Proof.
  intros [Bb Vb B1 B2 B3 B4 B5 B6 B7] [Ba Va A1 A2 A3 A4 A5 A6 A7].
  pose proof (eq_true_iff_eq _ _ (conj A1 B1)) as E1. pose proof (eq_true_iff_eq _ _ (conj A2 B2)) as E2.
  pose proof (eq_true_iff_eq _ _ (conj A3 B3)) as E3. pose proof (eq_true_iff_eq _ _ (conj A4 B4)) as E4.
  pose proof (eq_true_iff_eq _ _ (conj A5 B5)) as E5. pose proof (eq_true_iff_eq _ _ (conj A6 B6)) as E6.
  assert (consumeBeforeValid b || consumeAfterValid b = consumeBeforeValid a || consumeAfterValid a) as E7.
  { apply eq_true_iff_eq. rewrite !orb_true_iff. intuition. }
  destruct (occurs_normal a) as (P1 & P2 & P3 & P4). destruct (occurs_normal b) as (Q1 & Q2 & Q3 & Q4).
  rewrite <- E1, <- E3 in P1. rewrite <- E2, <- E4 in P2. rewrite <- E5 in P3. rewrite <- E7 in P4.
  cbv zeta. rewrite !summary_validates by done. split; [by rewrite E3, E4, E5, E6|].
  unfold protocolContinuationState. rewrite !summary_continues, !continue_required by done.
  unfold effectsState, occurredHazards. rewrite P1, P2, P3, P4, Q1, Q2, Q3, Q4. split; [done|].
  destruct (continue_validated targetKind targetSlot resultSlot (normalTrace a)) as [h ->].
  destruct (continue_validated targetKind targetSlot resultSlot (normalTrace b)) as [h' ->].
  unfold effectsState. cbn [fst Validation PossibleEffects]. by rewrite P1, P2, P3, P4, Q1, Q2, Q3, Q4.
Qed.
