(* ===== verification/RecursiveFacts.v ===== *)
(** * The fixed points of recursive summaries

    The loops of [RecursiveSummary] end in stable states whatever the order in which the maps
    are ranged over; the stable states are determined by the nodes up to what a transfer
    tells. *)

From S2P Require Export RecursiveTransfers.
Local Open Scope Z_scope.

(** ** Loops that run until nothing changes *)
Section Loops.
Context {S K : Type} (step : S * bool -> K -> S * bool) (I : S -> Prop) (m : S -> nat).

(** A step either does nothing or decreases the measure and reports a change. *)
Context (Hstep : forall s c k, I s -> let '(s', c') := step (s, c) k in
  (s' = s /\ c' = c) \/ (c' = true /\ I s' /\ (m s' < m s)%nat)).

Lemma fold_pass ks : forall s c, I s -> let '(s', c') := foldl step (s, c) ks in
  I s' /\ ((c' = true /\ (m s' < m s)%nat) \/ (s' = s /\ c' = c /\ Forall (fun k => step (s, c) k = (s, c)) ks)).
Proof.
  induction ks as [|k ks IH]; intros s c Hs; cbn; [split; [done|]; right; by repeat split|].
  pose proof (Hstep s c k Hs) as Hk. destruct (step (s, c) k) as [s1 c1] eqn:E.
  destruct Hk as [[-> ->]|(-> & Hs1 & Hm)].
  - specialize (IH s c Hs). destruct (foldl step (s, c) ks) as [s' c']. destruct IH as [Hi [H|(-> & -> & H)]]; [auto|].
    split; [done|]. right. split; [done|]. split; [done|]. by constructor.
  - specialize (IH s1 true Hs1). destruct (foldl step (s1, true) ks) as [s' c'].
    destruct IH as [Hi [[-> Hlt]|(-> & -> & _)]]; (split; [done|]); left; (split; [done|]); lia.
Qed.

Lemma untilStable_stable (keys : nat -> list K) (all : list K) :
  (forall i, keys i ≡ₚ all) -> forall fuel i s, I s -> (m s < fuel)%nat ->
  let s' := untilStable fuel i (fun i s => foldl step (s, false) (keys i)) s in
  I s' /\ forall k, k ∈ all -> step (s', false) k = (s', false).
Proof.
  intros Hkeys. induction fuel as [|fuel IH]; intros i s Hs Hm; [lia|]. cbn.
  pose proof (fold_pass (keys i) s false Hs) as Hp. destruct (foldl step (s, false) (keys i)) as [s' c'].
  destruct Hp as [Hi [[-> Hlt]|(-> & -> & H)]]; [apply IH; [done|lia]|].
  split; [done|]. intros k Hk. rewrite <- (Hkeys i) in Hk. rewrite Forall_forall in H. by apply H.
Qed.
End Loops.

(** A pass keeps what each step keeps. *)
Lemma foldl_keeps {S K} (step : S -> K -> S) (P : S -> Prop) ks :
  (forall s k, P s -> P (step s k)) -> forall s, P s -> P (foldl step s ks).
Proof. intros H. induction ks as [|k ks IH]; intros s Hs; [done|]. apply IH, H, Hs. Qed.

Lemma untilStable_keeps {S} (pass : nat -> S -> S * bool) (P : S -> Prop) :
  (forall i s, P s -> P (fst (pass i s))) -> forall fuel i s, P s -> P (untilStable fuel i pass s).
Proof.
  intros H. induction fuel as [|fuel IH]; intros i s Hs; [done|]. cbn. specialize (H i s Hs).
  destruct (pass i s) as [s' []]; [by apply IH|done].
Qed.

Section Nodes.
Context {F : Type} (protocolProcedureKey : F -> string).
Context (rangeNodes : rangeLoop -> nat -> gmap string (protocolRecursiveSummaryNode F) -> list string).

Abbreviation node := (protocolRecursiveSummaryNode F).
Abbreviation keyOf := (protocolRecursiveSummaryKey protocolProcedureKey).

(** Ranging over a map visits each of its keys once. *)
Definition ranging_nodes : Prop := forall loop i nodes, rangeNodes loop i nodes ≡ₚ elements (dom nodes).

Context (Hrange : ranging_nodes).
Context (nodes : gmap string node).

(** ** Valid nodes *)

(** Every key is a node whose dependencies are among the keys. *)
Definition closed (keys : gset string) : Prop :=
  forall k, k ∈ keys -> exists n, nodes !! k = Some n /\ forall d, d ∈ depKeys n -> d ∈ keys.

Abbreviation initial := (keysWhere nodes initiallyValid).
Abbreviation valid := (validNodes rangeNodes nodes).

Lemma keysWhere_spec P k : k ∈ keysWhere nodes P <-> exists n, nodes !! k = Some n /\ P n = true.
Proof.
  unfold keysWhere. rewrite elem_of_dom. unfold is_Some. setoid_rewrite map_lookup_filter_Some. done.
Qed.

Lemma forallb_in (keys : gset string) l : forallb (fun d => bool_decide (d ∈ keys)) l = true <-> forall d, d ∈ l -> d ∈ keys.
Proof.
  rewrite forallb_forall. setoid_rewrite <- list_elem_of_In. setoid_rewrite bool_decide_eq_true. done.
Qed.

Lemma validStep_spec s c k : s ⊆ dom nodes -> let '(s', c') := validStep nodes (s, c) k in
  (s' = s /\ c' = c) \/ (c' = true /\ s' ⊆ dom nodes /\ (size s' < size s)%nat).
Proof.
  intros Hs. unfold validStep. case_bool_decide as Hk; cbn [negb]; [|by left]. destruct (nodes !! k) as [n|]; [|by left].
  destruct (forallb _ _); [by left|]. right. split; [done|]. split; [set_solver|].
  rewrite size_difference by set_solver. rewrite size_singleton.
  enough (0 < size s)%nat by lia. apply Nat.neq_0_lt_0. intros ->%size_empty_iff%leibniz_equiv. set_solver.
Qed.

Lemma valid_stable : valid ⊆ dom nodes /\ forall k, k ∈ elements (dom nodes) -> validStep nodes (valid, false) k = (valid, false).
Proof.
  unfold validNodes, validPass.
  apply (untilStable_stable (validStep nodes) (fun s => s ⊆ dom nodes) size validStep_spec
    (fun i => rangeNodes ValidLoop i nodes) (elements (dom nodes))).
  - intros i. apply Hrange.
  - intros k (n & Hn & _)%keysWhere_spec. by apply elem_of_dom.
  - unfold keysWhere. rewrite size_dom. pose proof (map_size_filter (fun p => initiallyValid (snd p) = true) nodes). lia.
Qed.

Lemma valid_closed : closed valid.
Proof.
  destruct valid_stable as [Hd H]. intros k Hk. pose proof (Hd k Hk) as [n Hn]%elem_of_dom. exists n. split; [done|].
  specialize (H k). unfold validStep in H. rewrite bool_decide_eq_true_2 in H by done. cbn [negb] in H. rewrite Hn in H.
  destruct (forallb _ _) eqn:E in H; [by rewrite forallb_in in E|].
  rewrite elem_of_elements, elem_of_dom in H. specialize (H (ex_intro _ n Hn)). injection H as H. set_solver.
Qed.

Lemma valid_initial k : k ∈ valid -> exists n, nodes !! k = Some n /\ initiallyValid n = true.
Proof.
  intros Hk. apply keysWhere_spec. revert k Hk. change (valid ⊆ initial). unfold validNodes.
  apply (untilStable_keeps _ (fun s => s ⊆ initial)); [|done]. intros i s Hs. unfold validPass.
  apply (foldl_keeps _ (fun st => st.1 ⊆ initial)); [|done]. intros [s' c] k Hs'. unfold validStep. repeat case_match; cbn in *; set_solver.
Qed.

(** Every closed set of valid-looking nodes is kept, so the result does not depend on the order. *)
Lemma valid_greatest keys : closed keys -> keys ⊆ initial -> keys ⊆ valid.
Proof.
  intros Hc Hi. unfold validNodes. apply (untilStable_keeps _ (fun s => keys ⊆ s)); [|done]. intros i s Hs. unfold validPass.
  apply (foldl_keeps _ (fun st => keys ⊆ st.1)); [|done]. intros [s' c] k Hs'. unfold validStep. cbn in Hs'.
  case_bool_decide as Hk; cbn [negb]; [|done]. destruct (nodes !! k) as [n|] eqn:Hn; [|done].
  destruct (forallb _ _) eqn:E; [done|]. cbn. intros x Hx. apply elem_of_difference. split; [by apply Hs'|].
  intros ->%elem_of_singleton. destruct (Hc k Hx) as (n' & Hn' & Hd). simplify_eq.
  apply not_true_iff_false in E. apply E, forallb_in. set_solver.
Qed.

(** ** Nodes that reach a direct route *)
Lemma reach_keeps (P : gset string -> Prop) :
  (forall s k n, P s -> k ∈ valid -> nodes !! k = Some n -> (exists d, d ∈ depKeys n /\ d ∈ s) -> P ({[k]} ∪ s)) ->
  P (valid ∩ keysWhere nodes (fun n => existsb isDirect (routes n))) -> P (reachesDirect rangeNodes nodes valid).
Proof.
  intros Hstep H0. unfold reachesDirect. apply (untilStable_keeps _ P); [|done]. intros i s Hs. unfold reachPass.
  apply (foldl_keeps _ (fun st => P st.1)); [|done]. intros [s' c] k Hs'. unfold reachStep. cbn in Hs'.
  case_bool_decide as Hk; cbn [negb orb]; [|done]. case_bool_decide; [done|]. destruct (nodes !! k) as [n|] eqn:Hn; [|done].
  destruct (existsb _ _) eqn:E; [|done]. cbn. apply (Hstep _ _ n); [done..|].
  apply existsb_exists in E as (d & Hd & E%bool_decide_eq_true). exists d. by rewrite list_elem_of_In.
Qed.

Lemma reachStep_spec s c k : s ⊆ valid -> let '(s', c') := reachStep nodes valid (s, c) k in
  (s' = s /\ c' = c) \/ (c' = true /\ s' ⊆ valid /\ (size (valid ∖ s') < size (valid ∖ s))%nat).
Proof.
  intros Hs. unfold reachStep. case_bool_decide as Hk; cbn [negb orb]; [|by left]. case_bool_decide as Hn; [by left|].
  destruct (nodes !! k) as [n|]; [|by left]. destruct (existsb _ _); [|by left]. right. split; [done|]. split; [set_solver|].
  replace (valid ∖ ({[k]} ∪ s)) with ((valid ∖ s) ∖ {[k]}) by set_solver.
  rewrite (size_difference (valid ∖ s)), size_singleton by set_solver.
  enough (0 < size (valid ∖ s))%nat by lia. apply Nat.neq_0_lt_0. intros E%size_empty_iff%leibniz_equiv. set_solver.
Qed.

Lemma reach_stable : forall k n, k ∈ valid -> nodes !! k = Some n ->
  (exists d, d ∈ depKeys n /\ d ∈ reachesDirect rangeNodes nodes valid) -> k ∈ reachesDirect rangeNodes nodes valid.
Proof.
  assert (forall k, k ∈ elements (dom nodes) -> reachStep nodes valid (reachesDirect rangeNodes nodes valid, false) k =
    (reachesDirect rangeNodes nodes valid, false)) as H.
  { unfold reachesDirect, reachPass.
    apply (untilStable_stable (reachStep nodes valid) (fun s => s ⊆ valid) (fun s => size (valid ∖ s)) reachStep_spec
      (fun i => rangeNodes ReachLoop i nodes)); [intros; apply Hrange|set_solver|].
    rewrite <- (size_dom (D := gset string) nodes). apply Nat.lt_succ_r, subseteq_size. destruct valid_stable. set_solver. }
  intros k n Hk Hn (d & Hd & Hin). destruct (decide (k ∈ reachesDirect rangeNodes nodes valid)) as [|Hno]; [done|].
  specialize (H k). unfold reachStep in H. rewrite bool_decide_eq_true_2, bool_decide_eq_false_2, Hn in H by done. cbn [negb orb] in H.
  assert (existsb (fun d => bool_decide (d ∈ reachesDirect rangeNodes nodes valid)) (depKeys n) = true) as E.
  { apply existsb_exists. exists d. split; [by apply list_elem_of_In|]. by apply bool_decide_eq_true. }
  rewrite E in H. rewrite elem_of_elements, elem_of_dom in H. specialize (H (ex_intro _ n Hn)). injection H as H. set_solver.
Qed.

(** ** Converged transfers *)
Abbreviation transferMap := (gmap string protocolRecursiveEffectTransfer).

Definition all_regular (transfers : transferMap) : Prop := forall k, regular (transferOf transfers k).

Lemma transferOf_insert transfers k t k' :
  transferOf (<[k := t]> transfers) k' = if decide (k = k') then t else transferOf transfers k'.
Proof. unfold transferOf. destruct (decide (k = k')) as [->|]; [by rewrite lookup_insert_eq|by rewrite lookup_insert_ne]. Qed.

Lemma middleOf_validates transfers (r : protocolRecursiveSummaryRoute F) m :
  all_regular transfers -> middleOf protocolProcedureKey transfers r = Some m -> available m = true /\ validation m = true.
Proof.
  intros Hr. unfold middleOf. destruct (source r) as [|f s]; [by intros [= <-]|].
  destruct (available (transferOf transfers (keyOf f s))) eqn:Ea; [|done]. intros [= <-]. split; [done|]. by apply Hr.
Qed.

Abbreviation routesOf rs transfers := (routesTransfer protocolProcedureKey rs transfers).

(** The transfer of a node is the least one above the transfers of its available routes. *)
Lemma routesTransfer_spec rs transfers : all_regular transfers -> forall j o c ok,
  routesOf rs transfers false j o = (c, ok) -> regular j -> available j = o ->
  regular c /\ available c = ok /\
  (o = true -> below j c) /\
  (forall r m, r ∈ rs -> middleOf protocolProcedureKey transfers r = Some m -> below (routeTransfer r m) c) /\
  (forall x, (o = true -> below j x) ->
     (forall r m, r ∈ rs -> middleOf protocolProcedureKey transfers r = Some m -> below (routeTransfer r m) x) ->
     ok = true -> below c x).
Proof.
  intros Hreg. induction rs as [|r rs IH]; intros j o c ok; cbn [routesTransfer].
  - intros [= <- <-] Hj Ho. split; [done|]. split; [done|]. split; [intros ->; apply below_refl; [done|by apply Hj]|].
    split; [by intros ?? ?%elem_of_nil|]. auto.
  - destruct (middleOf protocolProcedureKey transfers r) as [m|] eqn:Em.
    + intros H Hj Ho. destruct (middleOf_validates _ _ _ Hreg Em) as [Ha Hv].
      pose proof (routeTransfer_flags r m Ha Hv) as [Fa Fv _ _ _ _ _ _ _].
      apply IH in H as (H1 & H2 & H3 & H4 & H5); [|by apply regular_join, regular_route|by rewrite join_available, Fa, orb_true_r].
      split; [done|]. split; [done|]. specialize (H3 eq_refl). split; [|split].
      * intros ->. eapply below_trans; [|exact H3]. apply below_join_l; [done|by apply Hj].
      * intros r' m' [->|Hin]%elem_of_cons Hm; [|by eapply H4]. simplify_eq. eapply below_trans; [|exact H3]. by apply below_join_r.
      * intros x Hx Hrs. apply H5; [intros _; apply join_below|].
        -- intros Hav. apply Hx. congruence.
        -- intros _. eapply Hrs; [left|done].
        -- by rewrite join_available, Fa, orb_true_r.
        -- intros r' m' Hin. apply Hrs. by right.
    + intros H Hj Ho. apply IH in H as (H1 & H2 & H3 & H4 & H5); [|done..]. split; [done|]. split; [done|]. split; [done|]. split.
      * intros r' m' [->|Hin]%elem_of_cons Hm; [congruence|by eapply H4].
      * intros x Hx Hrs. apply H5; [done|]. intros r' m' Hin. apply Hrs. by right.
Qed.

Lemma nodeTransfer_regular n transfers c ok :
  all_regular transfers -> protocolRecursiveNodeTransfer protocolProcedureKey n transfers false = (c, ok) ->
  regular c /\ available c = ok.
Proof.
  intros Hr H. apply (routesTransfer_spec _ _ Hr) in H as (H1 & H2 & _); [by split|apply regular_no|done].
Qed.

Lemma list_sum_le {A} (f g : A -> nat) l : (forall x, x ∈ l -> (f x <= g x)%nat) -> (list_sum (map f l) <= list_sum (map g l))%nat.
Proof.
  induction l as [|a l IH]; intros H; cbn; [lia|]. pose proof (H a ltac:(left)). unfold list_sum in IH.
  specialize (IH (fun x Hx => H x ltac:(by right))). lia.
Qed.

Lemma list_sum_lt {A} (f g : A -> nat) l y :
  (forall x, x ∈ l -> (f x <= g x)%nat) -> y ∈ l -> (f y < g y)%nat -> (list_sum (map f l) < list_sum (map g l))%nat.
Proof.
  intros H Hy Hlt. induction l as [|a l IH]; [by apply elem_of_nil in Hy|]. cbn. pose proof (H a ltac:(left)) as Ha.
  assert (forall x, x ∈ l -> (f x <= g x)%nat) as H' by (intros x Hx; apply H; by right).
  apply elem_of_cons in Hy as [<-|Hy]; [pose proof (list_sum_le f g l H') as Hs|pose proof (IH H' Hy) as Hs]; unfold list_sum in Hs; lia.
Qed.

Definition missing (transfers : transferMap) : nat :=
  list_sum (map (fun k => 9 - weight (transferOf transfers k))%nat (elements (dom nodes))).

Lemma transferStep_spec s c k : all_regular s -> let '(s', c') := transferStep protocolProcedureKey nodes valid (s, c) k in
  (s' = s /\ c' = c) \/ (c' = true /\ all_regular s' /\ (missing s' < missing s)%nat).
Proof.
  intros Hs. unfold transferStep. case_bool_decide as Hk; cbn [negb]; [|by left]. destruct (nodes !! k) as [n|] eqn:Hn; [|by left].
  destruct (protocolRecursiveNodeTransfer protocolProcedureKey n s false) as [cand ok] eqn:E.
  destruct ok; cbn [negb orb]; [|by left]. case_bool_decide as Heq; [by left|]. right. split; [done|].
  apply nodeTransfer_regular in E as [Hr Ha]; [|done]. split.
  - intros k'. rewrite transferOf_insert. destruct (decide (k = k')); [by apply regular_join|done].
  - apply (list_sum_lt _ _ _ k).
    + intros x _. rewrite transferOf_insert. destruct (decide (k = x)) as [<-|]; [|done].
      pose proof (weight_join _ _ (Hs k) Hr Heq). lia.
    + by apply elem_of_elements, elem_of_dom.
    + rewrite transferOf_insert, decide_True by done. pose proof (weight_join _ _ (Hs k) Hr Heq).
      pose proof (weight_bound (joinProtocolRecursiveTransfers (transferOf s k) cand)). lia.
Qed.

Abbreviation converged := (convergedTransfers protocolProcedureKey rangeNodes nodes valid).

Lemma converged_stable : all_regular converged /\
  forall k, k ∈ elements (dom nodes) -> transferStep protocolProcedureKey nodes valid (converged, false) k = (converged, false).
Proof.
  unfold convergedTransfers, transferPass.
  apply (untilStable_stable (transferStep protocolProcedureKey nodes valid) all_regular missing transferStep_spec
    (fun i => rangeNodes TransferLoop i nodes)).
  - intros i. apply Hrange.
  - intros k. apply regular_no.
  - rewrite <- (size_dom (D := gset string) nodes).
    change (size (dom nodes)) with (length (elements (dom nodes))). unfold missing. generalize (elements (dom nodes)).
    intros l. enough (list_sum (map (fun k => 9 - weight (transferOf ∅ k))%nat l) <= 9 * length l)%nat by lia.
    induction l as [|k l IH]; cbn [map length list_sum]; [cbn; lia|]. unfold list_sum in *. cbn [foldr]. lia.
Qed.

(** At the end the transfer of a valid node is above those of all its routes that have one,
    and it is available as soon as one of them has. *)
Lemma converged_routes k n r m :
  k ∈ valid -> nodes !! k = Some n -> r ∈ routes n -> middleOf protocolProcedureKey converged r = Some m ->
  below (routeTransfer r m) (transferOf converged k).
Proof.
  intros Hk Hn Hr Hm. destruct converged_stable as [Hreg H]. specialize (H k).
  unfold transferStep in H. rewrite bool_decide_eq_true_2, Hn in H by done. cbn [negb] in H.
  destruct (protocolRecursiveNodeTransfer protocolProcedureKey n converged false) as [cand ok] eqn:E.
  pose proof (routesTransfer_spec _ _ Hreg _ _ _ _ E regular_no eq_refl) as (H1 & H2 & _ & H4 & _).
  specialize (H4 r m Hr Hm). pose proof (be_available _ _ H4) as Hav.
  assert (ok = true) as -> by congruence. cbn [negb orb] in H.
  rewrite elem_of_elements, elem_of_dom in H. specialize (H (ex_intro _ n Hn)). case_bool_decide as Heq.
  - rewrite <- Heq. eapply below_trans; [exact H4|]. apply below_join_r; [done|by apply H1].
  - done.
Qed.

(** ** Coverage *)

(** Every dependency of a route is a dependency of its node. *)
Definition linked : Prop := forall k n r f s,
  nodes !! k = Some n -> r ∈ routes n -> source r = ReturnsDependency f s -> keyOf f s ∈ depKeys n.

(** The sequences of effects on the target of an execution of a node: what its route does
    before, then the validation or an execution of the dependency, then what it does after. *)
Inductive produces : string -> list effect -> Prop :=
  | produces_validation k n r b a :
      nodes !! k = Some n -> r ∈ routes n -> source r = ReturnsValidation ->
      drawn (before r) b -> drawn (after r) a -> produces k (b ++ [Validates] ++ a)
  | produces_dependency k n r f s b mid a :
      nodes !! k = Some n -> r ∈ routes n -> source r = ReturnsDependency f s ->
      drawn (before r) b -> produces (keyOf f s) mid -> drawn (after r) a -> produces k (b ++ mid ++ a).

Lemma converged_covers k trace : linked -> produces k trace -> k ∈ valid ->
  validation (nf trace) = true /\ below (nf trace) (transferOf converged k).
Proof.
  intros Hl Hp. induction Hp as [k n r b a Hn Hr Hs Hb Ha|k n r f s b mid a Hn Hr Hs Hb _ IH Ha]; intros Hk.
  - destruct (route_covers r b [Validates] a Hb eq_refl Ha) as [Hv Hbelow]. split; [done|].
    eapply below_trans; [exact Hbelow|]. eapply converged_routes; [done..|]. unfold middleOf. rewrite Hs. by rewrite validation_nf.
  - destruct (valid_closed k Hk) as (n' & Hn' & Hd). simplify_eq.
    destruct IH as [Hv Hmid]; [by eapply Hd, Hl|].
    destruct (route_covers r b mid a Hb Hv Ha) as [Hv' Hbelow]. split; [done|].
    eapply below_trans; [exact Hbelow|]. eapply below_trans; [by apply routeTransfer_mono|].
    eapply converged_routes; [done..|]. unfold middleOf. rewrite Hs, (be_available _ _ Hmid). done.
Qed.

(** ** Publication *)
Lemma routesTransfer_all rs transfers : forall j o c,
  routesOf rs transfers true j o = (c, true) -> routesOf rs transfers false j o = (c, true).
Proof.
  induction rs as [|r rs IH]; intros j o c; cbn; [done|]. destruct (middleOf _ transfers r); [apply IH|done].
Qed.

Lemma publish_same ks : forall transfers,
  foldl (publishStep protocolProcedureKey nodes valid) (Some converged) ks = Some transfers -> transfers = converged.
Proof.
  assert (forall ks, foldl (publishStep protocolProcedureKey nodes valid) None ks = None) as Hnone.
  { intros l. induction l as [|k l IH]; [done|]. cbn. apply IH. }
  induction ks as [|k ks IH]; intros transfers; cbn [foldl]; [by intros [= ->]|]. unfold publishStep at 2. cbn [mbind option_bind].
  case_bool_decide as Hk; cbn [negb]; [|apply IH]. destruct (nodes !! k) as [n|] eqn:Hn; [|apply IH].
  destruct (protocolRecursiveNodeTransfer protocolProcedureKey n converged true) as [c ok] eqn:E.
  destruct ok; [|by rewrite Hnone]. apply routesTransfer_all in E. destruct converged_stable as [Hreg H].
  pose proof (routesTransfer_spec _ _ Hreg _ _ _ _ E regular_no eq_refl) as (H1 & H2 & _).
  specialize (H k). unfold transferStep in H. rewrite bool_decide_eq_true_2, Hn in H by done. cbn [negb] in H.
  unfold protocolRecursiveNodeTransfer in H. rewrite E in H. cbn [negb orb] in H.
  rewrite elem_of_elements, elem_of_dom in H. specialize (H (ex_intro _ n Hn)). case_bool_decide as Heq; [|done].
  rewrite Heq, insert_id; [apply IH|]. assert (available (transferOf converged k) = true) as Hav.
  { rewrite <- Heq, join_available, H2. by rewrite orb_true_r. }
  unfold transferOf in *. destruct (converged !! k); [done|]. by vm_compute in Hav.
Qed.

Lemma published_converged transfers :
  publishedTransfers protocolProcedureKey rangeNodes nodes valid = Some transfers -> transfers = converged.
Proof. apply publish_same. Qed.

(** The nodes are published when every route of every valid node has a transfer. *)
Definition publishable : Prop := forall k n, k ∈ valid -> nodes !! k = Some n ->
  (protocolRecursiveNodeTransfer protocolProcedureKey n converged true).2 = true.

Lemma publish_some ks : (forall k n, k ∈ ks -> k ∈ valid -> nodes !! k = Some n ->
    (protocolRecursiveNodeTransfer protocolProcedureKey n converged true).2 = true) <->
  foldl (publishStep protocolProcedureKey nodes valid) (Some converged) ks = Some converged.
Proof.
  split.
  - induction ks as [|k ks IH]; intros H; [done|].
    assert (exists s, publishStep protocolProcedureKey nodes valid (Some converged) k = Some s) as [s Hs].
    { unfold publishStep. cbn [mbind option_bind]. case_bool_decide as Hk; cbn [negb]; [|by eexists].
      destruct (nodes !! k) as [n|] eqn:Hn; [|by eexists]. specialize (H k n ltac:(left) Hk Hn).
      destruct (protocolRecursiveNodeTransfer _ n converged true) as [c ok]. cbn in H. subst ok. by eexists. }
    pose proof (publish_same [k] s) as Hsame. cbn [foldl] in Hsame |- *. rewrite Hs in *. rewrite (Hsame eq_refl).
    apply IH. intros k' n Hin. apply H. by right.
  - induction ks as [|k' ks IH]; intros H k n Hin Hk Hn; [by apply elem_of_nil in Hin|]. cbn [foldl] in H.
    destruct (publishStep protocolProcedureKey nodes valid (Some converged) k') as [s|] eqn:Hs.
    + pose proof (publish_same [k'] s) as Hsame. cbn [foldl] in Hsame. rewrite (Hsame Hs) in *.
      apply elem_of_cons in Hin as [->|Hin]; [|by apply (IH H k n)].
      unfold publishStep in Hs. cbn [mbind option_bind] in Hs. rewrite bool_decide_eq_true_2 in Hs by done. cbn [negb] in Hs.
      rewrite Hn in Hs. by destruct (protocolRecursiveNodeTransfer _ n converged true) as [c [|]].
    + assert (forall l, foldl (publishStep protocolProcedureKey nodes valid) None l = None) as Hnone
        by (intros l; induction l as [|x l IHl]; [done|apply IHl]). by rewrite Hnone in H.
Qed.

Lemma published_spec :
  publishable <-> publishedTransfers protocolProcedureKey rangeNodes nodes valid = Some converged.
Proof.
  unfold publishedTransfers, publishable. rewrite <- publish_some. split; intros H k n.
  - intros _. apply H.
  - intros Hk Hn. apply (H k n); [|done|done]. rewrite (Hrange PublishLoop 0%nat nodes). apply elem_of_elements, elem_of_dom. by exists n.
Qed.
End Nodes.

(** ** The order does not matter *)
Section Orders.
Context {F : Type} (protocolProcedureKey : F -> string).
Context (range1 range2 : rangeLoop -> nat -> gmap string (protocolRecursiveSummaryNode F) -> list string).
Context (Hrange1 : ranging_nodes range1) (Hrange2 : ranging_nodes range2).
Context (nodes : gmap string (protocolRecursiveSummaryNode F)).

Lemma valid_within : validNodes range1 nodes ⊆ validNodes range2 nodes.
Proof.
  apply (valid_greatest range2 Hrange2 nodes).
  - apply (valid_closed range1 Hrange1).
  - intros k Hk. apply (keysWhere_spec nodes). by apply (valid_initial range1 Hrange1) in Hk.
Qed.

Lemma reaches_within valid : validNodes range1 nodes = valid -> validNodes range2 nodes = valid ->
  reachesDirect range1 nodes valid ⊆ reachesDirect range2 nodes valid.
Proof.
  intros H1 H2. rewrite <- H1 at 1. apply (reach_keeps range1 nodes (fun s => s ⊆ reachesDirect range2 nodes valid)).
  - intros s k n Hs Hk Hn (d & Hd & Hin). apply union_subseteq. split; [|done]. intros x ->%elem_of_singleton.
    rewrite H1, <- H2 in Hk. rewrite <- H2. apply (reach_stable range2 Hrange2 nodes k n Hk Hn). exists d.
    rewrite H2. split; [done|]. by apply Hs.
  - rewrite H1, <- H2. apply (reach_keeps range2 nodes (fun s => _ ⊆ s)); [|done].
    intros s k n Hs _ _ _. set_solver.
Qed.

(** Every transfer that one order computes is below the one the other order ends with. *)
Lemma converged_below valid k :
  validNodes range1 nodes = valid -> validNodes range2 nodes = valid ->
  available (transferOf (convergedTransfers protocolProcedureKey range1 nodes valid) k) = true ->
  below (transferOf (convergedTransfers protocolProcedureKey range1 nodes valid) k)
    (transferOf (convergedTransfers protocolProcedureKey range2 nodes valid) k).
Proof.
  intros H1 H2. set (T2 := convergedTransfers protocolProcedureKey range2 nodes valid).
  assert (forall k n r m, k ∈ valid -> nodes !! k = Some n -> r ∈ routes n ->
    middleOf protocolProcedureKey T2 r = Some m -> below (routeTransfer r m) (transferOf T2 k)) as Hroutes.
  { intros k' n r m Hk' Hn Hr Hm. unfold T2 in *. rewrite <- H2 in *. by eapply (converged_routes protocolProcedureKey range2 Hrange2). }
  assert (forall s, all_regular s /\ (forall k, available (transferOf s k) = true -> below (transferOf s k) (transferOf T2 k)) ->
    forall c k, let s' := (transferStep protocolProcedureKey nodes valid (s, c) k).1 in
    all_regular s' /\ (forall k, available (transferOf s' k) = true -> below (transferOf s' k) (transferOf T2 k))) as Hstep.
  { intros s [Hreg Hb] c k'. unfold transferStep. case_bool_decide as Hk'; cbn [negb]; [|done].
    destruct (nodes !! k') as [n|] eqn:Hn; [|done].
    destruct (protocolRecursiveNodeTransfer protocolProcedureKey n s false) as [cand ok] eqn:E.
    destruct ok; cbn [negb orb]; [|done]. case_bool_decide; [done|]. cbn [fst].
    pose proof (routesTransfer_spec protocolProcedureKey (routes n) s Hreg _ _ _ _ E regular_no eq_refl) as (C1 & C2 & _ & _ & C5).
    assert (below cand (transferOf T2 k')) as Hc.
    { apply C5; [done| |done]. intros r m Hr Hm.
      destruct (middleOf_validates _ _ _ _ Hreg Hm) as [Ma Mv]. unfold middleOf in Hm. destruct (source r) as [|f sl] eqn:Hs.
      - apply (Hroutes k' n); [done..|]. unfold middleOf. by rewrite Hs.
      - destruct (available (transferOf s _)) eqn:Ea; [|done]. injection Hm as <-. specialize (Hb _ Ea).
        eapply below_trans; [by apply routeTransfer_mono|]. apply (Hroutes k' n); [done..|]. unfold middleOf.
        rewrite Hs. by rewrite (be_available _ _ Hb). }
    split.
    - intros x. rewrite transferOf_insert. destruct (decide (k' = x)); [by apply regular_join|done].
    - intros x. rewrite transferOf_insert. destruct (decide (k' = x)) as [<-|]; [|apply Hb].
      apply join_below; [apply Hb|done]. }
  unfold convergedTransfers at 1 2.
  apply (untilStable_keeps _ (fun s => all_regular s /\ (forall k, available (transferOf s k) = true -> below (transferOf s k) (transferOf T2 k)))).
  - intros i s Hs. unfold transferPass. apply (foldl_keeps _ (fun st => all_regular st.1 /\
      (forall k, available (transferOf st.1 k) = true -> below (transferOf st.1 k) (transferOf T2 k)))); [|done].
    intros [s' c] x Hs'. by apply Hstep.
  - split; [intros x; apply regular_no|]. intros x Hx. by vm_compute in Hx.
Qed.
End Orders.

Section Alike.
Context {F : Type} (protocolProcedureKey : F -> string).
Context (range1 range2 : rangeLoop -> nat -> gmap string (protocolRecursiveSummaryNode F) -> list string).
Context (Hrange1 : ranging_nodes range1) (Hrange2 : ranging_nodes range2).
Context (nodes : gmap string (protocolRecursiveSummaryNode F)).

Lemma valid_alike : validNodes range1 nodes = validNodes range2 nodes.
Proof.
  apply leibniz_equiv, set_subseteq_antisymm; [by apply (valid_within range1 range2)|by apply (valid_within range2 range1)].
Qed.

Abbreviation valid := (validNodes range1 nodes).

Lemma reaches_alike : reachesDirect range1 nodes valid = reachesDirect range2 nodes valid.
Proof.
  pose proof (eq_sym valid_alike) as Ha. apply leibniz_equiv, set_subseteq_antisymm.
  - by apply (reaches_within range1 range2).
  - by apply (reaches_within range2 range1).
Qed.

Abbreviation T1 := (convergedTransfers protocolProcedureKey range1 nodes valid).
Abbreviation T2 := (convergedTransfers protocolProcedureKey range2 nodes valid).

Lemma converged_available k : available (transferOf T1 k) = available (transferOf T2 k).
Proof.
  pose proof (eq_sym valid_alike) as Ha. apply eq_true_iff_eq. split; intros H.
  - by apply (be_available (transferOf T1 k)), (converged_below protocolProcedureKey range1 range2).
  - by apply (be_available (transferOf T2 k)), (converged_below protocolProcedureKey range2 range1).
Qed.

(** A node is complete when each of its routes has a middle and it has a route. *)
Definition complete (transfers : gmap string protocolRecursiveEffectTransfer) (n : protocolRecursiveSummaryNode F) : bool :=
  forallb (fun r => bool_decide (is_Some (middleOf protocolProcedureKey transfers r))) (routes n) &&
  match routes n with [] => false | _ => true end.

Lemma routes_complete rs transfers : forall j o,
  (routesTransfer protocolProcedureKey rs transfers true j o).2 =
  forallb (fun r => bool_decide (is_Some (middleOf protocolProcedureKey transfers r))) rs && (o || match rs with [] => false | _ => true end).
Proof.
  induction rs as [|r rs IH]; intros j o; cbn; [by rewrite orb_false_r|].
  destruct (middleOf _ transfers r) as [m|].
  - rewrite IH, bool_decide_eq_true_2 by done. cbn. by rewrite orb_true_r.
  - rewrite bool_decide_eq_false_2; [done|]. intros [x Hx]. done.
Qed.

Lemma node_complete n transfers : (protocolRecursiveNodeTransfer protocolProcedureKey n transfers true).2 = complete transfers n.
Proof. apply routes_complete. Qed.

Lemma complete_alike n : complete T1 n = complete T2 n.
Proof.
  unfold complete. f_equal. induction (routes n) as [|r rs IH]; [done|]. cbn [forallb]. f_equal; [|apply IH]. apply bool_decide_ext.
  unfold middleOf. destruct (source r) as [|f s]; [done|]. rewrite <- converged_available.
  destruct (available (transferOf T1 _)); [split; intros _; by eexists|done].
Qed.

Lemma publishable_alike : publishable protocolProcedureKey range1 nodes <-> publishable protocolProcedureKey range2 nodes.
Proof.
  unfold publishable. rewrite <- valid_alike.
  split; intros H k n Hk Hn; specialize (H k n Hk Hn); revert H; by rewrite !node_complete, complete_alike.
Qed.
End Alike.
