(* ===== verification/RecursiveBodies.v ===== *)
(** * The bodies that recursive summaries scan

    The search of [protocolRecursiveBlockReaches] decides reachability by edges, so
    [protocolInstructionMayPrecede] decides whether an execution can run one instruction and
    later the other; a scan of a body has a route for every error result of its returns. *)

From S2P Require Export RecursiveFacts.
From stdpp Require Import relations.
Local Open Scope Z_scope.

(** ** Reachability of blocks *)
Lemma map_lookup_seq {A B} (g : option A -> B) (l : list A) :
  map (fun i => g (l !! i)) (seq 0 (length l)) = map (fun a => g (Some a)) l.
Proof.
  induction l as [|a l IH] using rev_ind; [done|]. rewrite length_app, seq_app, !map_app. cbn [length seq map Nat.add].
  rewrite list_lookup_middle by done. f_equal. rewrite <- IH. apply map_ext_in. intros i Hi%in_seq.
  rewrite lookup_app_l by lia. done.
Qed.

Lemma list_sum_cons n l : list_sum (n :: l) = (n + list_sum l)%nat.
Proof. done. Qed.

Section Reach.
Context {F : Type} (body : ssaFunction F).

Definition edge (b c : nat) : Prop := c ∈ successors body b.

(** The edges of the blocks that were not seen. *)
Definition unseen (seen : gset nat) : nat :=
  list_sum (map (fun b => if decide (b ∈ seen) then 0%nat else length (successors body b)) (seq 0 (length (Blocks body)))).

Lemma edgeCount_seq : edgeCount body = list_sum (map (fun b => length (successors body b)) (seq 0 (length (Blocks body)))).
Proof.
  unfold edgeCount, successors.
  by rewrite (map_lookup_seq (fun o => length (default [] (Succs <$> o))) (Blocks body)).
Qed.

Lemma unseen_le seen : (unseen seen <= edgeCount body)%nat.
Proof. rewrite edgeCount_seq. apply list_sum_le. intros b _. case_decide; lia. Qed.

Lemma unseen_insert seen b : b ∉ seen -> (unseen ({[b]} ∪ seen) + length (successors body b) <= unseen seen)%nat.
Proof.
  intros Hb. destruct (decide (b < length (Blocks body))%nat) as [Hlt|Hge].
  - unfold unseen. assert (b ∈ seq 0 (length (Blocks body))) as Hin by (apply elem_of_seq; lia).
    pose proof (NoDup_seq 0 (length (Blocks body))) as Hnd.
    apply list_elem_of_split in Hin as (l1 & l2 & E). rewrite E in *. rewrite !map_app, !list_sum_app. cbn [map].
    rewrite !list_sum_cons. rewrite decide_True by set_solver. rewrite (decide_False (P := b ∈ seen)) by done.
    assert (forall l, b ∉ l -> list_sum (map (fun x => if decide (x ∈ {[b]} ∪ seen) then 0%nat else length (successors body x)) l) =
      list_sum (map (fun x => if decide (x ∈ seen) then 0%nat else length (successors body x)) l)) as Hsame.
    { intros l Hl. f_equal. apply map_ext_in. intros x Hx%list_elem_of_In. apply decide_ext. set_solver. }
    apply NoDup_app in Hnd as (_ & Hn1 & Hn2%NoDup_cons). rewrite !Hsame; [lia|tauto|].
    intros Hin. apply (Hn1 b Hin). left.
  - unfold successors at 1. rewrite lookup_ge_None_2 by lia. cbn. rewrite Nat.add_0_r. apply list_sum_le.
    intros x _. repeat case_decide; try lia. set_solver.
Qed.

Lemma reachQueue_sound fuel from to : forall queue seen, (forall b, b ∈ queue -> tc edge from b) ->
  reachQueue fuel body to queue seen = true -> tc edge from to.
Proof.
  induction fuel as [|fuel IH]; intros [|block queue] seen Hq; cbn; try done.
  assert (tc edge from block) as Hb by (apply Hq; left).
  destruct (Nat.eqb_spec block to) as [->|_]; [done|]. case_bool_decide.
  - apply IH. intros b Hin. apply Hq. by right.
  - apply IH. intros b [Hin|Hin]%elem_of_app; [apply Hq; by right|]. by eapply tc_r.
Qed.

Lemma reachQueue_complete to fuel : forall queue seen,
  (length queue + unseen seen < fuel)%nat ->
  (forall b c, b ∈ seen -> edge b c -> c ∈ queue \/ (c ∈ seen /\ c <> to)) ->
  reachQueue fuel body to queue seen = false -> exists seen', seen ⊆ seen' /\ forall b c, b ∈ seen' -> edge b c -> c ∈ seen' /\ c <> to.
Proof.
  induction fuel as [|fuel IH]; intros queue seen Hf Hc; [lia|]. destruct queue as [|block queue]; cbn.
  - intros _. exists seen. split; [done|]. intros b c Hb He. by destruct (Hc b c Hb He) as [?%elem_of_nil|].
  - cbn in Hf. destruct (Nat.eqb_spec block to) as [->|Hne]; [done|]. case_bool_decide as Hs.
    + apply IH; [lia|]. intros b c Hb He. destruct (Hc b c Hb He) as [[->|Hin]%elem_of_cons|]; auto.
    + pose proof (unseen_insert seen block Hs) as Hu. intros H.
      destruct (IH (queue ++ successors body block) ({[block]} ∪ seen)) as (seen' & Hsub & H'); [rewrite length_app; lia| |done|].
      * intros b c Hb He. rewrite elem_of_app. apply elem_of_union in Hb as [->%elem_of_singleton|Hb]; [by auto|].
        destruct (Hc b c Hb He) as [[->|Hin]%elem_of_cons|[? ?]]; [right; split; [set_solver|done]|by auto|].
        right. split; [set_solver|done].
      * exists seen'. split; [set_solver|done].
Qed.

Lemma search_complete from to :
  tc edge from to -> reachQueue (S (edgeCount body + edgeCount body)) body to (successors body from) {[from]} = true.
Proof.
  intros Hp. apply not_false_is_true. intros H. apply reachQueue_complete in H as (seen & Hsub & Hcl).
  - assert (from ∈ seen) as Hf by set_solver. assert (to ∈ seen /\ to <> to) as [_ Hno]; [|done].
    enough (forall x, tc edge from x -> x ∈ seen /\ x <> to) as Hall by (by apply Hall).
    apply tc_ind_r; [intros y He; by eapply Hcl|]. intros y z _ He [Hy _]. by eapply Hcl.
  - pose proof (unseen_insert ∅ from ltac:(set_solver)) as Hu. rewrite union_empty_r_L in Hu.
    pose proof (unseen_le ∅). pose proof (unseen_le {[from]}). lia.
  - intros b c ->%elem_of_singleton He. by left.
Qed.

Lemma blockReaches_spec from to requireEdge :
  protocolRecursiveBlockReaches body from to requireEdge = true <->
  (from = to /\ requireEdge = false) \/ tc edge from to.
Proof.
  assert (reachQueue (S (edgeCount body + edgeCount body)) body to (successors body from) {[from]} = true <-> tc edge from to) as Hs.
  { split; [|apply search_complete]. apply reachQueue_sound. intros b Hb. by apply tc_once. }
  unfold protocolRecursiveBlockReaches. destruct (Nat.eqb_spec from to) as [->|Hne], requireEdge; cbn [andb negb];
    rewrite ?Hs; intuition congruence.
Qed.

(** ** Instructions *)

(** One instruction runs after another: the next one of the block, or the first one of a
    successor of a block that ends. *)
Inductive advances : position -> position -> Prop :=
  | advances_within b i block :
      Blocks body !! b = Some block -> (S i < length (Instrs block))%nat -> advances (b, i) (b, S i)
  | advances_across b i c block :
      Blocks body !! b = Some block -> S i = length (Instrs block) -> c ∈ Succs block -> advances (b, i) (c, 0%nat).

(** The blocks of a function are not empty and their successors are its blocks. *)
Definition wellFormed : Prop := forall b block, Blocks body !! b = Some block ->
  Instrs block <> [] /\ forall c, c ∈ Succs block -> is_Some (Blocks body !! c).

Definition instructionAt (p : position) : option ssaInstruction := block ← Blocks body !! p.1; Instrs block !! p.2.

Lemma elem_of_instructions p instruction : (p, instruction) ∈ instructionsOf body <-> instructionAt p = Some instruction.
Proof.
  unfold instructionsOf, instructionAt. rewrite list_elem_of_In, in_concat. setoid_rewrite <- list_elem_of_In. destruct p as [b i]. cbn. split.
  - intros (l & (b' & block & -> & Hb)%elem_of_lookup_imap & Hin). apply elem_of_lookup_imap in Hin as (i' & ins & E & Hi).
    simplify_eq. by rewrite Hb.
  - intros (block & Hb & Hi)%bind_Some. eexists. split; [eapply elem_of_lookup_imap_2, Hb|].
    by apply (elem_of_lookup_imap_2 (fun i instruction => ((b, i), instruction))).
Qed.

Lemma advances_order p q : tc advances p q -> (p.1 = q.1 /\ (p.2 < q.2)%nat) \/ tc edge p.1 q.1.
Proof.
  assert (forall p q, advances p q -> (p.1 = q.1 /\ (p.2 < q.2)%nat) \/ edge p.1 q.1) as Hone.
  { intros p' q' [b i block|b i c block Hb _ Hc]; [left; cbn; lia|]. right. unfold edge, successors. cbn. by rewrite Hb. }
  revert q. apply tc_ind_r.
  - intros q [H|H]%Hone; [by left|right; by apply tc_once].
  - intros y z _ [[E1 L1]|H1]%Hone [[E2 L2]|H2].
    + left. split; [congruence|lia].
    + right. by rewrite <- E1.
    + right. rewrite E2. by apply tc_once.
    + right. by eapply tc_r.
Qed.

Lemma within b i j block : Blocks body !! b = Some block -> (i <= j < length (Instrs block))%nat -> rtc advances (b, i) (b, j).
Proof.
  intros Hb [Hij Hj]. induction Hij as [|j Hij IH]; [done|]. eapply rtc_r; [apply IH; lia|]. by eapply advances_within.
Qed.

Lemma within_step b i j block : Blocks body !! b = Some block -> (i < j < length (Instrs block))%nat -> tc advances (b, i) (b, j).
Proof. intros Hb Hij. eapply tc_rtc_r; [apply tc_once; eapply advances_within; [done|lia]|]. eapply within; [done|lia]. Qed.

(** Along edges, the last instruction of a block leads to every instruction of the other. *)
Lemma across b i c block : wellFormed -> Blocks body !! b = Some block -> (i < length (Instrs block))%nat -> tc edge b c ->
  exists target, Blocks body !! c = Some target /\ forall j, (j < length (Instrs target))%nat -> tc advances (b, i) (c, j).
Proof.
  intros Hw Hb Hi. revert c. apply (tc_ind_r (fun c => exists target, Blocks body !! c = Some target /\
    forall j, (j < length (Instrs target))%nat -> tc advances (b, i) (c, j))).
  - intros c He. unfold edge, successors in He. rewrite Hb in He. cbn in He. destruct (Hw b block Hb) as [_ [target Hc]%(fun H => H c He)].
    exists target. split; [done|]. intros j Hj. eapply tc_rtc_l; [eapply (within b i (pred (length (Instrs block)))); [done|lia]|].
    eapply tc_rtc_r; [apply tc_once; eapply (advances_across b _ c block); [done|lia|done]|]. eapply within; [done|lia].
  - intros y c _ He (mid & Hy & IH). unfold edge, successors in He. rewrite Hy in He. cbn in He.
    destruct (Hw y mid Hy) as [Hne [target Hc]%(fun H => H c He)]. exists target. split; [done|]. intros j Hj.
    assert (0 < length (Instrs mid))%nat by (destruct (Instrs mid); [done|cbn; lia]).
    eapply tc_trans; [apply (IH (pred (length (Instrs mid)))); lia|].
    eapply tc_rtc_r; [apply tc_once; eapply (advances_across y _ c mid); [done|lia|done]|]. eapply within; [done|lia].
Qed.

Lemma mayPrecede_sound p q : p <> q -> tc advances p q -> protocolInstructionMayPrecede body p q = true.
Proof.
  intros Hne Hp%advances_order. unfold protocolInstructionMayPrecede. rewrite bool_decide_eq_false_2 by done.
  destruct (Nat.eqb_spec p.1 q.1) as [E|E].
  - destruct Hp as [[_ Hlt]|Hp]; [by apply Nat.ltb_lt in Hlt as ->|]. apply orb_true_iff. right. apply blockReaches_spec. by right.
  - destruct Hp as [[? _]|Hp]; [done|]. apply blockReaches_spec. by right.
Qed.

Lemma mayPrecede_complete p q ip iq : wellFormed -> instructionAt p = Some ip -> instructionAt q = Some iq ->
  protocolInstructionMayPrecede body p q = true -> p <> q /\ tc advances p q.
Proof.
  intros Hw (bp & Hbp & Hip)%bind_Some (bq & Hbq & Hiq)%bind_Some. unfold protocolInstructionMayPrecede.
  case_bool_decide as Hne; [done|]. intros H. split; [done|]. destruct p as [b i], q as [c j]. cbn in *.
  assert (tc edge b c -> tc advances (b, i) (c, j)) as Hedge.
  { intros He. destruct (across b i c bp Hw Hbp) as (t & Ht & Hall); [by eapply lookup_lt_Some|done|].
    apply Hall. simplify_eq. by eapply lookup_lt_Some. }
  destruct (Nat.eqb_spec b c) as [->|E].
  - apply orb_true_iff in H as [H|H]; [|apply blockReaches_spec in H as [[_ ?]|?]; [done|by apply Hedge]].
    apply Nat.ltb_lt in H. eapply within_step; [done|]. simplify_eq. apply lookup_lt_Some in Hiq. lia.
  - apply blockReaches_spec in H as [[? _]|?]; [done|by apply Hedge].
Qed.
End Reach.

(** ** Scans *)
Section Scan.
Context {F : Type} (protocolProcedureKey : F -> string) (body : ssaFunction F).

Abbreviation node := (protocolRecursiveSummaryNode F).
Abbreviation keyOf := (protocolRecursiveSummaryKey protocolProcedureKey).
Abbreviation scan := (scanInstruction protocolProcedureKey body).

(** A scan only adds to its node. *)
Record grows (n n' : node) : Prop := {
  gr_routes : forall r, r ∈ routes n -> r ∈ routes n';
  gr_invalid : invalid n = true -> invalid n' = true;
  gr_deps : forall k, is_Some (deps n !! k) -> is_Some (deps n' !! k);
}.

#[local] Instance grows_preorder : PreOrder grows.
Proof. split; [intros n; by split|]. intros n1 n2 n3 [] []. split; auto. Qed.

(** The dependencies of a node are those of its routes, under their keys. *)
Record tidy (n : node) : Prop := {
  ti_linked : forall r f s, r ∈ routes n -> source r = ReturnsDependency f s -> is_Some (deps n !! keyOf f s);
  ti_keyed : forall k f s, deps n !! k = Some (f, s) -> k = keyOf f s;
}.

Definition routeOf (returned : position) (slot : nat) (src : routeSource F) (terminal : position) : protocolRecursiveSummaryRoute F :=
  mkRoute src (Z.of_nat slot) (protocolRecursiveRouteEffects body terminal returned).1
    (protocolRecursiveRouteEffects body terminal returned).2.

(** What a node tells of an error result. *)
Definition accounts (n : node) (returned : position) (slot : nat) (classified : option (routeSource F * position)) : Prop :=
  match classified with
  | None => invalid n = true
  | Some (src, terminal) => routeOf returned slot src terminal ∈ routes n
  end.

Lemma accounts_grows n n' p j c : grows n n' -> accounts n p j c -> accounts n' p j c.
Proof. intros [H1 H2 _]. destruct c as [[src t]|]; cbn; auto. Qed.

Lemma invalidate_grows n : grows n (invalidate n).
Proof. by split. Qed.

Lemma scanResult_grows p j c n : grows n (scanResult protocolProcedureKey body p j c n).
Proof.
  unfold scanResult. destruct c as [[src t]|]; [|apply invalidate_grows]. destruct (protocolRecursiveRouteEffects _ _ _) as [b a].
  split; cbn; [intros r Hr; apply elem_of_app; by left|done|]. intros k Hk. destruct src as [|f s]; [done|].
  rewrite lookup_insert_is_Some'. by right.
Qed.

Lemma scanResult_accounts p j c n : accounts (scanResult protocolProcedureKey body p j c n) p j c.
Proof.
  unfold scanResult, accounts. destruct c as [[src t]|]; [|done]. unfold routeOf. destruct (protocolRecursiveRouteEffects _ _ _) as [b a]. cbn.
  apply elem_of_app. right. left.
Qed.

Lemma scanResult_tidy p j c n : tidy n -> tidy (scanResult protocolProcedureKey body p j c n).
Proof.
  intros [H1 H2]. unfold scanResult. destruct c as [[src t]|]; [|by split]. destruct (protocolRecursiveRouteEffects _ _ _) as [b a].
  split; cbn.
  - intros r f s [Hr|Hr]%elem_of_app Hs.
    + destruct src as [|f' s']; [by eapply H1|]. rewrite lookup_insert_is_Some'. right. by eapply H1.
    + apply elem_of_cons in Hr as [->|Hr%elem_of_nil]; [|done]. cbn in Hs. subst src. rewrite lookup_insert_is_Some'. by left.
  - intros k f s. destruct src as [|f' s']; [apply H2|]. rewrite lookup_insert_Some. intros [[<- E]|[_ Hk]]; [congruence|by apply H2].
Qed.

Lemma scanResults_grows p results : forall j found n, grows n (scanResults protocolProcedureKey body p j results found n).
Proof.
  induction results as [|c rest IH]; intros j found n; cbn; [destruct found; [done|apply invalidate_grows]|].
  destruct (default false _); [|apply IH]. etransitivity; [apply scanResult_grows|apply IH].
Qed.

Lemma scanResults_tidy p results : forall j found n, tidy n -> tidy (scanResults protocolProcedureKey body p j results found n).
Proof.
  induction results as [|c rest IH]; intros j found n Hn; cbn; [destruct found; [done|]; destruct Hn; by split|].
  destruct (default false _); apply IH; [by apply scanResult_tidy|done].
Qed.

Lemma scanResults_accounts p results i c : forall j found n,
  results !! i = Some c -> errorResults body !! (j + i)%nat = Some true ->
  accounts (scanResults protocolProcedureKey body p j results found n) p (j + i) c.
Proof.
  revert i. induction results as [|c' rest IH]; intros i j found n Hi He; [done|]. cbn. destruct i as [|i].
  - rewrite Nat.add_0_r in *. injection Hi as ->. rewrite He. cbn. eapply accounts_grows; [apply scanResults_grows|apply scanResult_accounts].
  - replace (j + S i)%nat with (S j + i)%nat in * by lia. destruct (default false _); by apply IH.
Qed.

(** A return without an error result makes the node invalid. *)
Lemma scanResults_error p results : forall j found n,
  invalid (scanResults protocolProcedureKey body p j results found n) = false ->
  found = true \/ exists i, (i < length results)%nat /\ errorResults body !! (j + i)%nat = Some true.
Proof.
  induction results as [|c rest IH]; intros j found n; cbn; [destruct found; [by left|done]|].
  destruct (errorResults body !! j) as [[|]|] eqn:E; cbn; intros H.
  - right. exists 0%nat. rewrite Nat.add_0_r. split; [lia|done].
  - apply IH in H as [?|(i & Hi & H)]; [by left|]. right. exists (S i). replace (j + S i)%nat with (S j + i)%nat by lia. split; [lia|done].
  - apply IH in H as [?|(i & Hi & H)]; [by left|]. right. exists (S i). replace (j + S i)%nat with (S j + i)%nat by lia. split; [lia|done].
Qed.

Lemma scan_grows n p : grows n (scan n p).
Proof.
  unfold scanInstruction. destruct (returnsOf p.2) as [results|]; [|done]. etransitivity; [|apply scanResults_grows]. by split.
Qed.

Lemma scan_tidy n p : tidy n -> tidy (scan n p).
Proof.
  intros Hn. unfold scanInstruction. destruct (returnsOf p.2) as [results|]; [|done]. apply scanResults_tidy. destruct Hn. by split.
Qed.

Lemma scans_grow ps : forall n, grows n (foldl scan n ps).
Proof. induction ps as [|p ps IH]; intros n; [done|]. cbn. etransitivity; [apply scan_grows|apply IH]. Qed.

(** After the scan every error result of every return of the body is accounted for. *)
Lemma scans_account ps p instruction results i c : forall n,
  (p, instruction) ∈ ps -> returnsOf instruction = Some results -> results !! i = Some c -> errorResults body !! i = Some true ->
  accounts (foldl scan n ps) p i c.
Proof.
  induction ps as [|q ps IH]; intros n Hin Hr Hi He; [by apply elem_of_nil in Hin|]. cbn.
  apply elem_of_cons in Hin as [<-|Hin]; [|by apply IH]. eapply accounts_grows; [apply scans_grow|]. unfold scanInstruction. cbn. rewrite Hr.
  by apply (scanResults_accounts p results i c 0).
Qed.

Lemma scans_error ps p instruction results : forall n,
  (p, instruction) ∈ ps -> returnsOf instruction = Some results -> invalid (foldl scan n ps) = false ->
  exists i, (i < length results)%nat /\ errorResults body !! i = Some true.
Proof.
  induction ps as [|q ps IH]; intros n Hin Hr Hv; [by apply elem_of_nil in Hin|]. cbn in Hv.
  apply elem_of_cons in Hin as [<-|Hin]; [|by eapply IH].
  assert (invalid (scan n (p, instruction)) = false) as H.
  { apply not_true_is_false. intros H. by rewrite (gr_invalid _ _ (scans_grow ps _) H) in Hv. }
  unfold scanInstruction in H. cbn in H. rewrite Hr in H. by apply scanResults_error in H as [|H].
Qed.

Lemma scans_tidy ps : forall n, tidy n -> tidy (foldl scan n ps).
Proof. induction ps as [|p ps IH]; intros n Hn; [done|]. cbn. by apply IH, scan_tidy. Qed.

(** ** Walks and what they do *)

(** The sequence of instructions of an execution, some of whose effects happen. *)
Definition performs (ps : list position) (trace : list effect) : Prop :=
  exists traces, Forall2 (fun p t => exists instruction, instructionAt body p = Some instruction /\ drawn (effectsOn instruction) t) ps traces /\
    trace = concat traces.

Lemma performs_drawn ps trace kinds : performs ps trace ->
  (forall p instruction k, p ∈ ps -> instructionAt body p = Some instruction -> k ∈ effectsOn instruction -> k ∈ kinds) -> drawn kinds trace.
Proof.
  intros (traces & Hall & ->) Hin. induction Hall as [|p t ps traces (instruction & Hp & Ht) _ IH]; [by apply Forall_nil|]. cbn.
  apply Forall_app. split.
  - eapply Forall_impl; [exact Ht|]. intros e [Hne Hk]. split; [done|]. eapply Hin; [left|done|done].
  - apply IH. intros q i k Hq. apply Hin. by right.
Qed.

(** The instructions run one after the other. *)
Fixpoint walks (ps : list position) : Prop :=
  match ps with
  | p :: (q :: _) as rest => advances body p q /\ walks rest
  | _ => True
  end.

Lemma walks_app_r l1 l2 : walks (l1 ++ l2) -> walks l2.
Proof. induction l1 as [|p l1 IH]; [done|]. intros H. apply IH. cbn in H. by destruct (l1 ++ l2); [|destruct H]. Qed.

Lemma walks_tc l1 p l2 q l3 : walks (l1 ++ p :: l2 ++ q :: l3) -> tc (advances body) p q.
Proof.
  intros H%walks_app_r. revert p H. induction l2 as [|x l2 IH]; intros p H; cbn in H.
  - apply tc_once. by destruct H.
  - destruct H as [H1 H2]. eapply tc_l; [exact H1|]. by apply IH.
Qed.

Lemma effectsWhere_in terminal admitted p instruction k :
  instructionAt body p = Some instruction -> p <> terminal -> admitted p = true -> k ∈ effectsOn instruction ->
  k ∈ effectsWhere body terminal admitted.
Proof.
  intros Hp Hne Ha Hk. unfold effectsWhere. rewrite list_elem_of_In, in_concat. exists (effectsOn instruction).
  split; [|by apply list_elem_of_In]. apply in_map_iff. exists (p, instruction). cbn. rewrite bool_decide_eq_false_2, Ha by done.
  split; [done|]. by apply list_elem_of_In, elem_of_instructions.
Qed.

(** What an execution does before the call whose error it returns is among the effects the
    route keeps for before, and likewise for after; the call is run once. *)
Lemma route_draws w1 terminal w2 returned b a :
  walks (w1 ++ terminal :: w2 ++ [returned]) -> terminal ∉ w1 ++ w2 ++ [returned] ->
  performs w1 b -> performs (w2 ++ [returned]) a ->
  drawn (protocolRecursiveRouteEffects body terminal returned).1 b /\ drawn (protocolRecursiveRouteEffects body terminal returned).2 a.
Proof.
  intros Hw Ht Hb Ha. rewrite !not_elem_of_app, not_elem_of_cons in Ht. destruct Ht as (H1 & H2 & Hne & _). pose proof (walks_tc _ _ _ _ _ Hw) as Htr. split.
  - eapply performs_drawn; [exact Hb|]. intros p ins k Hp Hins Hk. cbn. assert (p <> terminal) as Hpt by (by intros ->).
    eapply effectsWhere_in; [done..| |done]. unfold mayBeBefore. rewrite !mayPrecede_sound; [done|done|done|done|].
    apply list_elem_of_split in Hp as (l1 & l2 & ->). rewrite <- app_assoc in Hw. cbn in Hw. by eapply walks_tc.
  - eapply performs_drawn; [exact Ha|]. intros p ins k Hp Hins Hk. cbn.
    apply elem_of_app in Hp as [Hp|[->|?%elem_of_nil]%elem_of_cons]; [|..|done].
    + assert (p <> terminal) as Hpt by (by intros ->). eapply effectsWhere_in; [done..| |done]. unfold mayBeAfter.
      apply list_elem_of_split in Hp as (l1 & l2 & ->). rewrite <- app_assoc in Hw. cbn in Hw.
      destruct (decide (p = returned)) as [->|Hpr]; [by rewrite !bool_decide_eq_true_2|].
      rewrite !bool_decide_eq_false_2 by done. cbn. rewrite !mayPrecede_sound; [done|done| |done|].
      * pose proof Hw as Hw'. rewrite (app_comm_cons l1), app_assoc in Hw'. by eapply walks_tc.
      * by eapply walks_tc.
    + eapply effectsWhere_in; [done|congruence| |done]. unfold mayBeAfter. by rewrite !bool_decide_eq_true_2.
Qed.
End Scan.

(** The order of instructions that the routes of a recursive summary rest on is exact: the
    search says that one instruction may run before another when some walk along the
    instructions and edges of the function leads from the first to the second, and only then.
    It finds the walks through loops back to the block it starts from. *)
Theorem instruction_order_exact {F} (body : ssaFunction F) p q ip iq :
  wellFormed body -> instructionAt body p = Some ip -> instructionAt body q = Some iq ->
  protocolInstructionMayPrecede body p q = true <-> p <> q /\ tc (advances body) p q.
Proof.
  intros Hw Hp Hq. split; [by eapply mayPrecede_complete|]. intros [Hne Ht]. by apply mayPrecede_sound.
Qed.

(** A loop of two blocks. *)
Definition loopBody : ssaFunction string :=
  mkFunction true [true]
    [mkBlock [1%nat] [mkInstruction None []; mkInstruction None []]; mkBlock [0%nat; 1%nat] [mkInstruction None []]].

Lemma instruction_order_exact_witness : tc (advances loopBody) (0, 1)%nat (0, 0)%nat.
Proof.
  apply (instruction_order_exact loopBody (0, 1)%nat (0, 0)%nat (mkInstruction None []) (mkInstruction None []));
    [|done|done|by vm_compute].
  intros [|[|b]] block; [intros [= <-]..|done].
  - split; [done|]. intros c ->%list_elem_of_singleton. by eexists.
  - split; [done|]. intros c [->| ->%list_elem_of_singleton]%elem_of_cons; by eexists.
Defined.
