(* ===== verification/RecursiveTheorems.v ===== *)
(** * The theorems on recursive summaries

    The collection of the nodes terminates and is exact; a published summary is sound for
    the executions that run the call whose error they return once, and not for retries; what
    callers conclude from it does not depend on the order in which Go ranges over the maps. *)

From S2P Require Export RecursiveBodies.
Local Open Scope Z_scope.

(** ** Collection *)
Section Collect.
Context {F : Type} (protocolProcedureKey : F -> string) (ssaOf : F -> calleeTargetSlot -> ssaFunction F).

Abbreviation node := (protocolRecursiveSummaryNode F).
Abbreviation keyOf := (protocolRecursiveSummaryKey protocolProcedureKey).
Abbreviation scanOf := (protocolScanRecursiveSummaryNode protocolProcedureKey ssaOf).

(** Ranging over a map visits each of its values once. *)
Definition ranging_deps (rangeDeps : gmap string (F * calleeTargetSlot) -> list (F * calleeTargetSlot)) : Prop :=
  forall m, rangeDeps m ≡ₚ map snd (map_to_list m).

(** Functions with the same key are one function. *)
Definition keys_identify : Prop := forall f s f' s', keyOf f s = keyOf f' s' -> ssaOf f s = ssaOf f' s'.

(** The procedures that a summary depends on. *)
Inductive depends (root : F * calleeTargetSlot) : F -> calleeTargetSlot -> Prop :=
  | depends_root : depends root root.1 root.2
  | depends_step f s k f' s' : depends root f s -> deps (scanOf f s) !! k = Some (f', s') -> depends root f' s'.

Lemma scanOf_tidy f s : tidy protocolProcedureKey (scanOf f s).
Proof.
  unfold protocolScanRecursiveSummaryNode. destruct (hasTarget _).
  - apply scans_tidy. split; cbn; [intros r f' s' []%elem_of_nil|intros k f' s'; by rewrite lookup_empty].
  - split; cbn; [intros r f' s' []%elem_of_nil|intros k f' s'; by rewrite lookup_empty].
Qed.

Lemma scanOf_key f s f' s' : keys_identify -> keyOf f s = keyOf f' s' -> scanOf f s = scanOf f' s'.
Proof. intros Hk E%Hk. unfold protocolScanRecursiveSummaryNode. by rewrite E. Qed.

Section Search.
Context (rangeDeps : gmap string (F * calleeTargetSlot) -> list (F * calleeTargetSlot)).
Context (Hrange : ranging_deps rangeDeps) (Hkeys : keys_identify) (root : F * calleeTargetSlot).
Context (procedures : gset string) (Hfinite : forall f s, depends root f s -> keyOf f s ∈ procedures).

(** Collected nodes are scans of procedures that the root depends on. *)
Definition collected (nodes : gmap string node) : Prop := forall k n, nodes !! k = Some n ->
  exists f s, depends root f s /\ k = keyOf f s /\ n = scanOf f s.

Definition depsWithin (keys : gset string) (n : node) : Prop := forall k, is_Some (deps n !! k) -> k ∈ keys.

(** What a search adds: nodes whose dependencies are collected too. *)
Record extends (nodes nodes' : gmap string node) : Prop := {
  ex_kept : nodes ⊆ nodes';
  ex_collected : collected nodes';
  ex_closed : forall k n, nodes' !! k = Some n -> nodes !! k = None -> depsWithin (dom nodes') n;
}.

Lemma extension_refl nodes : collected nodes -> extends nodes nodes.
Proof. intros H. split; [done|done|]. intros k n Hk Hk'. congruence. Qed.

Lemma extension_trans n1 n2 n3 : extends n1 n2 -> extends n2 n3 -> extends n1 n3.
Proof.
  intros [A1 A2 A3] [B1 B2 B3]. split; [by etransitivity|done|]. intros k n Hk Hno d Hd.
  destruct (n2 !! k) as [m|] eqn:E.
  - assert (n3 !! k = Some m) as E3 by (eapply lookup_weaken; done). simplify_eq. apply (subseteq_dom _ _ B1). by eapply A3.
  - by eapply B3.
Qed.

Abbreviation collect := (protocolCollectRecursiveSummaryNode protocolProcedureKey ssaOf rangeDeps).

Lemma collect_extends fuel : forall f s visiting nodes,
  depends root f s -> collected nodes -> visiting ⊆ dom nodes -> (size (procedures ∖ dom nodes) < fuel)%nat ->
  exists nodes', collect fuel f s visiting nodes = Some nodes' /\ extends nodes nodes' /\ keyOf f s ∈ dom nodes'.
Proof.
  induction fuel as [|fuel IH]; intros f s visiting nodes Hd Hc Hv Hf; [lia|]. cbn [protocolCollectRecursiveSummaryNode].
  case_bool_decide as Hvis; [exists nodes; split; [done|]; split; [by apply extension_refl|by apply Hv]|].
  case_bool_decide as Hin; [exists nodes; split; [done|]; split; [by apply extension_refl|by apply elem_of_dom]|].
  set (key := keyOf f s) in *. set (n := scanOf f s). set (nodes0 := <[key := n]> nodes).
  assert (nodes !! key = None) as Hno by (by apply eq_None_not_Some).
  assert (collected nodes0) as Hc0.
  { intros k m. unfold nodes0. rewrite lookup_insert_Some. intros [[<- <-]|[_ Hk]]; [by exists f, s|by apply Hc]. }
  assert (key ∈ dom nodes0) as Hk0 by (unfold nodes0; set_solver).
  assert (forall ds ns, (forall d, d ∈ ds -> depends root d.1 d.2) -> collected ns -> nodes0 ⊆ ns ->
    exists ns', foldl (fun nodes d => ns ← nodes; collect fuel d.1 d.2 ({[key]} ∪ visiting) ns) (Some ns) ds = Some ns' /\
      extends ns ns' /\ forall d, d ∈ ds -> keyOf d.1 d.2 ∈ dom ns') as Hfold.
  { induction ds as [|d ds IHds]; intros ns Hds Hns Hsub.
    - exists ns. split; [done|]. split; [by apply extension_refl|]. by intros d ?%elem_of_nil.
    - pose proof (subseteq_dom _ _ Hsub) as Hdom. unfold nodes0 in Hdom. rewrite dom_insert in Hdom.
      destruct (IH d.1 d.2 ({[key]} ∪ visiting) ns) as (ns1 & E & Hex & Hd1); [apply Hds; left|done|set_solver| |].
      { assert (key ∈ procedures) by by apply Hfinite.
        assert (procedures ∖ dom ns ⊂ procedures ∖ dom nodes)%stdpp as Hlt%subset_size; [|lia].
        apply not_elem_of_dom in Hno. split; [set_solver|]. intros Hbad. specialize (Hbad key). set_solver. }
      destruct (IHds ns1) as (ns' & E' & Hex' & Hd'); [intros d' ?; apply Hds; by right|apply Hex|etransitivity; [done|apply Hex]|].
      exists ns'. cbn [foldl mbind option_bind]. rewrite E. split; [done|]. split; [by eapply extension_trans|].
      intros d' [->|Hd'']%elem_of_cons; [|by apply Hd']. by apply (subseteq_dom _ _ (ex_kept _ _ Hex')). }
  assert (forall d, d ∈ rangeDeps (deps n) <-> exists k, deps n !! k = Some d) as Hrd.
  { intros d. rewrite (Hrange (deps n)), list_elem_of_fmap. split.
    - intros ([k x] & -> & Hk%elem_of_map_to_list). by exists k.
    - intros (k & Hk). exists (k, d). split; [done|]. by apply elem_of_map_to_list. }
  destruct (Hfold (rangeDeps (deps n)) nodes0) as (nodes' & E & Hex & Hds); [|done|done|].
  { intros [f' s'] (k & Hk)%Hrd. by eapply depends_step. }
  exists nodes'. split; [exact E|]. split; [|by apply (subseteq_dom _ _ (ex_kept _ _ Hex))].
  split; [etransitivity; [|apply Hex]; by apply insert_subseteq|apply Hex|].
  intros k m Hk Hnone. destruct (decide (k = key)) as [->|Hne].
  - assert (nodes' !! key = Some n) as Ek by (eapply lookup_weaken; [apply lookup_insert_eq|apply Hex]). simplify_eq.
    intros d [[f' s'] Hd']. pose proof (ti_keyed _ _ (scanOf_tidy f s) _ _ _ Hd') as ->. apply (Hds (f', s')), Hrd. by eexists.
  - eapply (ex_closed _ _ Hex); [done|]. unfold nodes0. by rewrite lookup_insert_ne.
Qed.

(** The nodes are the scans of the procedures the root depends on, whatever the order. *)
Lemma collect_exact fuel : (size procedures < fuel)%nat -> exists nodes, collect fuel root.1 root.2 ∅ ∅ = Some nodes /\
  forall k n, nodes !! k = Some n <-> exists f s, depends root f s /\ k = keyOf f s /\ n = scanOf f s.
Proof.
  intros Hf. destruct (collect_extends fuel root.1 root.2 ∅ ∅) as (nodes & E & [_ Hc Hcl] & Hr).
  - apply depends_root.
  - intros k n. by rewrite lookup_empty.
  - set_solver.
  - rewrite dom_empty_L, difference_empty_L. done.
  - exists nodes. split; [done|]. intros k n. split; [apply Hc|]. intros (f & s & Hd & -> & ->).
    assert (keyOf f s ∈ dom nodes) as [n Hn]%elem_of_dom.
    { induction Hd as [|f s k f' s' _ [n Hn]%elem_of_dom Hdep]; [done|].
      destruct (Hc _ _ Hn) as (g & t & _ & Hk & ->). rewrite <- (scanOf_key f s g t Hkeys Hk) in Hn.
      pose proof (ti_keyed _ _ (scanOf_tidy f s) _ _ _ Hdep) as ->. eapply Hcl; [exact Hn|by rewrite lookup_empty|by eexists]. }
    destruct (Hc _ _ Hn) as (g & t & _ & Hk & ->). by rewrite (scanOf_key f s g t Hkeys Hk).
Qed.
End Search.
End Collect.

(** ** Publication *)
Section Published.
Context {F : Type} (protocolProcedureKey : F -> string).

Abbreviation node := (protocolRecursiveSummaryNode F).
Abbreviation keyOf := (protocolRecursiveSummaryKey protocolProcedureKey).

Section Order.
Context (rangeNodes : rangeLoop -> nat -> gmap string node -> list string) (Hrange : ranging_nodes rangeNodes).
Context (nodes : gmap string node) (function : F) (slot : calleeTargetSlot).

Abbreviation rootKey := (keyOf function slot).
Abbreviation valid := (validNodes rangeNodes nodes).

(** The transfer that is published for the root. *)
Definition rootTransfer : protocolRecursiveEffectTransfer :=
  transferOf (convergedTransfers protocolProcedureKey rangeNodes nodes valid) rootKey.

(** When a summary is published. *)
Record publishes (root : node) (result : Z) : Prop := {
  pu_node : nodes !! rootKey = Some root;
  pu_valid : rootKey ∈ valid;
  pu_direct : rootKey ∈ reachesDirect rangeNodes nodes valid;
  pu_complete : publishable protocolProcedureKey rangeNodes nodes;
  pu_result : protocolRecursiveResultSlot root = (result, true);
  pu_available : available rootTransfer = true;
}.

Lemma rootTransfer_validating : available rootTransfer = true -> validation rootTransfer = true.
Proof. apply (reg_validating _ (proj1 (converged_stable protocolProcedureKey rangeNodes Hrange nodes) rootKey)). Qed.

Lemma transferEffects_nonempty t kind target result : validation t = true -> exists e l, transferEffects t kind target result = e :: l.
Proof.
  intros Hv. rewrite transferEffects_trace. destruct (normalTrace_nonempty t Hv) as (e & l & ->). by do 2 eexists.
Qed.

Lemma summaryOfNodes_cases :
  let summary := summaryOfNodes protocolProcedureKey rangeNodes nodes function slot in
  (exists root result, publishes root result /\
     summary = (summaryOf rootTransfer (protocolSummaryTargetForCalleeSlot slot).1 (protocolSummaryTargetForCalleeSlot slot).2 result, true)) \/
  (summary = (noSummary, false) /\ forall root result, ~ publishes root result).
Proof.
  unfold summaryOfNodes. cbv zeta. case_bool_decide as Hempty.
  { right. split; [done|]. intros root result [Hn _ _ _ _ _]. by rewrite Hempty, lookup_empty in Hn. }
  case_bool_decide as Hv; cbn [negb orb]; [|right; split; [done|by intros root result []]].
  case_bool_decide as Hd; cbn [negb orb]; [|right; split; [done|by intros root result []]].
  destruct (publishedTransfers protocolProcedureKey rangeNodes nodes valid) as [transfers|] eqn:Hp.
  2: { right. split; [done|]. intros root result [_ _ _ Hc _ _]. apply (published_spec _ _ Hrange) in Hc. congruence. }
  assert (publishable protocolProcedureKey rangeNodes nodes) as Hc.
  { apply (published_spec _ _ Hrange). rewrite Hp. f_equal. by apply (published_converged _ _ Hrange). }
  apply (published_converged _ _ Hrange) in Hp as ->. fold rootTransfer.
  destruct (nodes !! rootKey) as [root|] eqn:Hn; [|right; split; [done|by intros root result []; congruence]].
  destruct (protocolRecursiveResultSlot root) as [result ok] eqn:Hr. destruct ok; cbn [negb orb].
  2: { right. split; [done|]. intros root' result' []. congruence. }
  destruct (available rootTransfer) eqn:Ha; cbn [negb orb]; [|right; split; [done|by intros root' result' []; congruence]].
  pose proof (rootTransfer_validating Ha) as Hval. rewrite Hval. cbn [negb].
  left. exists root, result. split; [by split|]. destruct (protocolSummaryTargetForCalleeSlot slot) as [kind target]. cbn [fst snd].
  unfold summaryOf. by destruct (transferEffects_nonempty rootTransfer kind target result Hval) as (e & l & ->).
Qed.
End Order.

Lemma publishes_alike range1 range2 nodes function slot root result :
  ranging_nodes range1 -> ranging_nodes range2 -> publishes range1 nodes function slot root result ->
  publishes range2 nodes function slot root result /\
  below (rootTransfer range1 nodes function slot) (rootTransfer range2 nodes function slot) /\
  below (rootTransfer range2 nodes function slot) (rootTransfer range1 nodes function slot).
Proof.
  intros H1 H2 [P1 P2 P3 P4 P5 P6]. pose proof (valid_alike range1 range2 H1 H2 nodes) as Hv.
  assert (available (rootTransfer range2 nodes function slot) = true) as Ha.
  { unfold rootTransfer in *. rewrite <- Hv. by rewrite <- (converged_available protocolProcedureKey range1 range2 H1 H2). }
  split; [split|split].
  - done.
  - by rewrite <- Hv.
  - rewrite <- Hv. by rewrite <- (reaches_alike range1 range2 H1 H2).
  - by apply (publishable_alike protocolProcedureKey range1 range2 H1 H2).
  - done.
  - done.
  - unfold rootTransfer in *. rewrite <- Hv in *. by apply (converged_below protocolProcedureKey range1 range2).
  - unfold rootTransfer in *. rewrite Hv in *. by apply (converged_below protocolProcedureKey range2 range1).
Qed.
End Published.

(** ** Executions *)
Section Executions.
Context {F : Type} (protocolProcedureKey : F -> string) (ssaOf : F -> calleeTargetSlot -> ssaFunction F).

Abbreviation keyOf := (protocolRecursiveSummaryKey protocolProcedureKey).
Abbreviation scanOf := (protocolScanRecursiveSummaryNode protocolProcedureKey ssaOf).

(** An error result of a return of a function and how it is classified. *)
Definition returns (f : F) (s : calleeTargetSlot) (p : position) (i : nat) (c : option (routeSource F * position)) : Prop :=
  exists instruction results, instructionAt (ssaOf f s) p = Some instruction /\ returnsOf instruction = Some results /\
    results !! i = Some c /\ errorResults (ssaOf f s) !! i = Some true.

(** What the executions of a function do to the target when they return the error of a
    validation that succeeds: they walk to the call, which validates or is an execution of the
    callee, and from it to the return, without running the call twice. *)
Inductive executes : F -> calleeTargetSlot -> list effect -> Prop :=
  | executes_validation f s w1 terminal w2 returned i b a :
      returns f s returned i (Some (ReturnsValidation, terminal)) ->
      walks (ssaOf f s) (w1 ++ terminal :: w2 ++ [returned]) -> terminal ∉ w1 ++ w2 ++ [returned] ->
      performs (ssaOf f s) w1 b -> performs (ssaOf f s) (w2 ++ [returned]) a -> executes f s (b ++ [Validates] ++ a)
  | executes_dependency f s w1 terminal w2 returned i g t b mid a :
      returns f s returned i (Some (ReturnsDependency g t, terminal)) ->
      walks (ssaOf f s) (w1 ++ terminal :: w2 ++ [returned]) -> terminal ∉ w1 ++ w2 ++ [returned] ->
      performs (ssaOf f s) w1 b -> executes g t mid -> performs (ssaOf f s) (w2 ++ [returned]) a ->
      executes f s (b ++ mid ++ a).

Lemma scanOf_accounts f s p i c : hasTarget (ssaOf f s) = true -> returns f s p i c -> accounts (ssaOf f s) (scanOf f s) p i c.
Proof.
  intros Ht (instruction & results & Hp & Hr & Hi & He). unfold protocolScanRecursiveSummaryNode. rewrite Ht.
  eapply scans_account; [by apply elem_of_instructions|done..].
Qed.

Lemma scanOf_target f s : invalid (scanOf f s) = false -> hasTarget (ssaOf f s) = true.
Proof. unfold protocolScanRecursiveSummaryNode. by destruct (hasTarget _). Qed.

Section Nodes.
Context (rangeNodes : rangeLoop -> nat -> gmap string (protocolRecursiveSummaryNode F) -> list string).
Context (Hrange : ranging_nodes rangeNodes) (Hkeys : keys_identify protocolProcedureKey ssaOf) (root : F * calleeTargetSlot).
Context (nodes : gmap string (protocolRecursiveSummaryNode F)).
Context (Hnodes : forall k n, nodes !! k = Some n <-> exists f s, depends protocolProcedureKey ssaOf root f s /\ k = keyOf f s /\ n = scanOf f s).

Abbreviation valid := (validNodes rangeNodes nodes).

Lemma valid_scan f s : keyOf f s ∈ valid -> nodes !! keyOf f s = Some (scanOf f s) /\ invalid (scanOf f s) = false.
Proof.
  intros Hk. destruct (valid_initial rangeNodes Hrange nodes _ Hk) as (n & Hn & Hi). rewrite Hn.
  apply Hnodes in Hn as (g & t & _ & E & ->). rewrite (scanOf_key _ _ f s g t Hkeys E). split; [done|].
  unfold initiallyValid in Hi. apply andb_true_iff in Hi as [[_ Hi%negb_true_iff]%andb_true_iff _]. done.
Qed.

Lemma valid_depends f s : keyOf root.1 root.2 ∈ valid -> depends protocolProcedureKey ssaOf root f s -> keyOf f s ∈ valid.
Proof.
  intros Hr Hd. induction Hd as [|f s k g t _ IH Hdep]; [done|].
  destruct (valid_closed rangeNodes Hrange nodes _ IH) as (n & Hn & Hall). destruct (valid_scan f s IH) as [Hn' _]. simplify_eq.
  pose proof (ti_keyed _ _ (scanOf_tidy protocolProcedureKey ssaOf f s) _ _ _ Hdep) as ->. apply Hall. unfold depKeys.
  apply list_elem_of_fmap. exists (keyOf g t, (g, t)). split; [done|]. by apply elem_of_map_to_list.
Qed.

Lemma nodes_linked : linked protocolProcedureKey nodes.
Proof.
  intros k n r f s (g & t & _ & -> & ->)%Hnodes Hr Hs.
  destruct (ti_linked _ _ (scanOf_tidy protocolProcedureKey ssaOf g t) r f s Hr Hs) as [d Hd].
  apply list_elem_of_fmap. exists (keyOf f s, d). split; [done|]. by apply elem_of_map_to_list.
Qed.

Lemma executes_produces f s trace : executes f s trace -> keyOf f s ∈ valid -> produces protocolProcedureKey nodes (keyOf f s) trace.
Proof.
  intros He. induction He as [f s w1 terminal w2 returned i b a Hr Hw Ht Hb Ha|
    f s w1 terminal w2 returned i g t b mid a Hr Hw Ht Hb _ IH Ha]; intros Hk;
    destruct (valid_scan f s Hk) as [Hn Hi]; pose proof (scanOf_accounts _ _ _ _ _ (scanOf_target _ _ Hi) Hr) as Hroute; cbn in Hroute;
    destruct (route_draws (ssaOf f s) w1 terminal w2 returned b a) as [Hdb Hda]; try exact Hw; try exact Ht; try exact Hb; try exact Ha.
  - by eapply produces_validation.
  - eapply produces_dependency; [done..| |done]. apply IH.
    destruct (valid_closed rangeNodes Hrange nodes _ Hk) as (n & Hn' & Hall). simplify_eq. apply Hall. by eapply nodes_linked.
Qed.
End Nodes.
End Executions.

(** ** The theorems *)
Section Theorems.
Context {F : Type} (protocolProcedureKey : F -> string) (ssaOf : F -> calleeTargetSlot -> ssaFunction F).
Context (Hkeys : keys_identify protocolProcedureKey ssaOf).
Context (function : F) (slot : calleeTargetSlot) (procedures : gset string).
Context (Hfinite : forall f s, depends protocolProcedureKey ssaOf (function, slot) f s -> protocolRecursiveSummaryKey protocolProcedureKey f s ∈ procedures).

Abbreviation build := (buildProtocolRecursiveSummary protocolProcedureKey ssaOf).

(** C32. A published summary of a recursive helper is sound for the executions that run the
    call whose error they return once.  Every error result of every return of every function
    it depends on is classified, and for every execution of the function, through whatever
    recursion, that reaches a return along the instructions, returns the error of a validation
    that succeeds, and runs that validation, or the call of the helper that does, no other
    time: if a caller may take the call as a validation, then the target is validated at the
    end and was neither let escape nor consumed unvalidated; the state in which a caller that
    requires validation goes on is above the one the execution leaves; and so is, in its
    validation and its possible effects, the one of a caller whose value is validated.  (For
    executions that run the call again after an error see
    [recursive_summary_misses_retries].) *)
Theorem recursive_summary_sound rangeNodes rangeDeps fuel summary :
  ranging_nodes rangeNodes -> ranging_deps rangeDeps -> (size procedures < fuel)%nat ->
  build rangeNodes rangeDeps fuel function slot = Some (summary, true) ->
  (forall f s p i c, depends protocolProcedureKey ssaOf (function, slot) f s -> returns ssaOf f s p i c -> c <> None) /\
  exists resultSlot, let fact := factOf (protocolSummaryTargetForCalleeSlot slot).1 (protocolSummaryTargetForCalleeSlot slot).2 resultSlot in
  forall trace, executes ssaOf function slot trace ->
  (conditionallyValidatesWithoutHazard summary = true -> observes trace = (true, false)) /\
  (exists st st', protocolContinuationState summary = (st, true) /\
     continueEffects (map fact trace) newProtocolRequiredState = Some st' /\ lessEqual st' st = true) /\
  (exists st st', protocolContinuationStateFrom summary true = (st, true) /\
     continueEffects (map fact trace) (set_Validation protocolValidationProven newProtocolRequiredState) = Some st' /\
     Validation st' <= Validation st /\ bits_leb (PossibleEffects st') (PossibleEffects st) = true).
Proof.
  intros Hrange Hdeps Hfuel. unfold buildProtocolRecursiveSummary.
  destruct (collect_exact protocolProcedureKey ssaOf rangeDeps Hdeps Hkeys (function, slot) procedures Hfinite fuel Hfuel) as (nodes & E & Hnodes).
  cbn [fst snd] in E. rewrite E. cbn [mbind option_bind]. intros [= Hs].
  destruct (summaryOfNodes_cases protocolProcedureKey rangeNodes Hrange nodes function slot) as [(root & result & Hp & Hs')|[Hs' _]]; [|congruence].
  rewrite Hs' in Hs. injection Hs as <-. pose proof (pu_valid _ _ _ _ _ _ _ Hp) as Hv. split.
  - intros f s p i c Hd Hr ->. pose proof (valid_depends _ _ _ Hrange Hkeys _ nodes Hnodes f s Hv Hd) as Hk.
    destruct (valid_scan _ _ _ Hrange Hkeys _ nodes Hnodes f s Hk) as [_ Hi].
    pose proof (scanOf_accounts protocolProcedureKey _ _ _ _ _ _ (scanOf_target _ _ _ _ Hi) Hr) as Ha. cbn in Ha. congruence.
  - exists result. intros trace He. apply (executes_produces _ _ _ Hrange Hkeys _ nodes Hnodes) in He; [|done].
    apply (converged_covers _ _ Hrange) in He as [Hval Hb]; [|by eapply nodes_linked|done].
    apply told; [|done|done]. eapply rootTransfer_validating, pu_available; [done|exact Hp].
Qed.

(** The collection of the procedures ends, with the scan of exactly those the summary
    depends on, and the loops over the collected nodes end in stable states: no pass would
    change the valid nodes or the transfers any more. *)
Theorem recursive_summary_terminates rangeNodes rangeDeps fuel :
  ranging_nodes rangeNodes -> ranging_deps rangeDeps -> (size procedures < fuel)%nat ->
  exists nodes, protocolCollectRecursiveSummaryNode protocolProcedureKey ssaOf rangeDeps fuel function slot ∅ ∅ = Some nodes /\
  (forall k n, nodes !! k = Some n <-> exists f s, depends protocolProcedureKey ssaOf (function, slot) f s /\
     k = protocolRecursiveSummaryKey protocolProcedureKey f s /\ n = protocolScanRecursiveSummaryNode protocolProcedureKey ssaOf f s) /\
  let valid := validNodes rangeNodes nodes in let transfers := convergedTransfers protocolProcedureKey rangeNodes nodes valid in
  forall i, validPass rangeNodes nodes i valid = (valid, false) /\
    transferPass protocolProcedureKey rangeNodes nodes valid i transfers = (transfers, false).
Proof.
  intros Hrange Hdeps Hfuel.
  destruct (collect_exact protocolProcedureKey ssaOf rangeDeps Hdeps Hkeys (function, slot) procedures Hfinite fuel Hfuel) as (nodes & E & Hnodes).
  exists nodes. do 2 (split; [done|]). cbv zeta. intros i.
  assert (forall {S K} (step : S * bool -> K -> S * bool) s ks, (forall k, k ∈ ks -> step (s, false) k = (s, false)) ->
    foldl step (s, false) ks = (s, false)) as Hfold.
  { intros S K step s ks. induction ks as [|k ks IH]; intros H; [done|]. cbn. rewrite H by left. apply IH. intros k' Hk'. apply H. by right. }
  split; apply Hfold; intros k; rewrite Hrange; [apply (valid_stable rangeNodes Hrange nodes)|
    apply (converged_stable protocolProcedureKey rangeNodes Hrange nodes)].
Qed.

(** C33. What callers conclude from the summary of a recursive helper does not depend on the
    orders in which Go ranges over the maps of nodes and of dependencies: whether a summary is
    published, whether a call of the helper validates without a hazard, the state in which a
    caller that requires validation goes on, and the validation and possible effects of the
    one in which a caller with a validated value does. *)
Theorem recursive_summary_order_independent range1 range2 deps1 deps2 fuel1 fuel2 :
  ranging_nodes range1 -> ranging_nodes range2 -> ranging_deps deps1 -> ranging_deps deps2 ->
  (size procedures < fuel1)%nat -> (size procedures < fuel2)%nat ->
  exists s1 s2 ok, build range1 deps1 fuel1 function slot = Some (s1, ok) /\ build range2 deps2 fuel2 function slot = Some (s2, ok) /\
  conditionallyValidatesWithoutHazard s1 = conditionallyValidatesWithoutHazard s2 /\
  protocolContinuationState s1 = protocolContinuationState s2 /\
  Validation (protocolContinuationStateFrom s1 true).1 = Validation (protocolContinuationStateFrom s2 true).1 /\
  PossibleEffects (protocolContinuationStateFrom s1 true).1 = PossibleEffects (protocolContinuationStateFrom s2 true).1.
Proof.
  intros H1 H2 D1 D2 F1 F2. unfold buildProtocolRecursiveSummary.
  destruct (collect_exact protocolProcedureKey ssaOf deps1 D1 Hkeys (function, slot) procedures Hfinite fuel1 F1) as (nodes & E1 & N1).
  destruct (collect_exact protocolProcedureKey ssaOf deps2 D2 Hkeys (function, slot) procedures Hfinite fuel2 F2) as (nodes' & E2 & N2).
  cbn [fst snd] in E1, E2. rewrite E1, E2. cbn [mbind option_bind].
  assert (nodes' = nodes) as ->.
  { apply map_eq. intros k. apply option_eq. intros n. by rewrite N1, N2. }
  destruct (summaryOfNodes_cases protocolProcedureKey range1 H1 nodes function slot) as [(root & result & Hp & ->)|[-> Hno1]],
    (summaryOfNodes_cases protocolProcedureKey range2 H2 nodes function slot) as [(root' & result' & Hp' & ->)|[-> Hno2]].
  - do 3 eexists. do 2 (split; [done|]).
    destruct (publishes_alike protocolProcedureKey range1 range2 nodes function slot root result H1 H2 Hp) as (Hp2 & Hb & Hb').
    assert (result' = result) as -> by (destruct Hp', Hp2; congruence). by apply told_alike.
  - destruct (publishes_alike protocolProcedureKey range1 range2 nodes function slot root result H1 H2 Hp) as [Hp2 _]. by apply Hno2 in Hp2.
  - destruct (publishes_alike protocolProcedureKey range2 range1 nodes function slot root' result' H2 H1 Hp') as [Hp1 _]. by apply Hno1 in Hp1.
  - exists noSummary, noSummary, false. done.
Qed.
End Theorems.

(** ** A pair of mutually recursive helpers *)

Definition receiverSlot : calleeTargetSlot := mkSlot calleeTargetSlotReceiver 0.

Definition performing (effects : list string) : ssaInstruction (F := string) := mkInstruction None effects.
Definition returning_ (src : routeSource string) (terminal : position) : ssaInstruction :=
  mkInstruction (Some [Some (src, terminal)]) [].

(** A function with an entry that branches to two blocks. *)
Definition branching (left right : list (ssaInstruction (F := string))) : ssaFunction string :=
  mkFunction true [true] [mkBlock [1%nat; 2%nat] [performing []]; mkBlock [] left; mkBlock [] right].

(** [ping] validates or mutates its receiver and returns the error of [pong]; [pong] returns
    the error of [ping]. *)
Definition pairBody (f : string) (_ : calleeTargetSlot) : ssaFunction string :=
  if String.eqb f "ping" then
    branching [performing []; returning_ ReturnsValidation (1, 0)%nat]
      [performing [protocolSummaryEffectMutate]; performing []; returning_ (ReturnsDependency "pong" receiverSlot) (2, 1)%nat]
  else if String.eqb f "pong" then
    mkFunction true [true] [mkBlock [] [performing []; returning_ (ReturnsDependency "ping" receiverSlot) (0, 0)%nat]]
  else mkFunction false [] [].

(** Keys that end with the name of the function. *)
Definition pairOf (f : string) (s : calleeTargetSlot) : ssaFunction string :=
  let key := protocolRecursiveSummaryKey id f s in
  if String.eqb key (protocolRecursiveSummaryKey id "ping" receiverSlot) then pairBody "ping" s
  else if String.eqb key (protocolRecursiveSummaryKey id "pong" receiverSlot) then pairBody "pong" s
  else mkFunction false [] [].

Definition pairKeys : gset string :=
  {[protocolRecursiveSummaryKey id "ping" receiverSlot; protocolRecursiveSummaryKey id "pong" receiverSlot]}.

Definition sortedNodes (_ : rangeLoop) (_ : nat) (nodes : gmap string (protocolRecursiveSummaryNode string)) : list string :=
  elements (dom nodes).
Definition reversedNodes (_ : rangeLoop) (_ : nat) (nodes : gmap string (protocolRecursiveSummaryNode string)) : list string :=
  reverse (elements (dom nodes)).
Definition sortedDeps (m : gmap string (string * calleeTargetSlot)) : list (string * calleeTargetSlot) := map snd (map_to_list m).

Lemma sortedNodes_ranging : ranging_nodes sortedNodes.
Proof. intros loop i nodes. reflexivity. Qed.
Lemma reversedNodes_ranging : ranging_nodes reversedNodes.
Proof. intros loop i nodes. apply reverse_Permutation. Qed.
Lemma sortedDeps_ranging : ranging_deps sortedDeps.
Proof. intros m. reflexivity. Qed.

Lemma pairKeys_size fuel : (2 < fuel)%nat -> (size pairKeys < fuel)%nat.
Proof. by assert (size pairKeys = 2%nat) as -> by (by vm_compute). Qed.

Lemma pair_identify : keys_identify id pairOf.
Proof. intros f s f' s' E. unfold pairOf. by rewrite E. Qed.

Lemma pair_finite f s : depends id pairOf ("ping", receiverSlot) f s -> protocolRecursiveSummaryKey id f s ∈ pairKeys.
Proof.
  intros Hd. induction Hd as [|f s k g t _ IH Hdep]; [unfold pairKeys; set_solver|].
  assert (forall body m, m = map_to_list (deps (foldl (scanInstruction id body) (mkNode [] false false ∅) (instructionsOf body))) ->
    deps (foldl (scanInstruction id body) (mkNode [] false false ∅) (instructionsOf body)) !! k = Some (g, t) -> (k, (g, t)) ∈ m) as Hin.
  { intros body m -> H. by apply elem_of_map_to_list. }
  unfold protocolScanRecursiveSummaryNode, pairOf in Hdep.
  destruct (String.eqb _ (protocolRecursiveSummaryKey id "ping" receiverSlot)) in Hdep; [|destruct (String.eqb _ _) in Hdep].
  - cbn [hasTarget pairBody branching String.eqb] in Hdep. eapply Hin in Hdep; [|vm_compute; reflexivity].
    apply list_elem_of_singleton in Hdep as [= -> -> ->]. unfold pairKeys. set_solver.
  - cbn [hasTarget pairBody branching String.eqb] in Hdep. eapply Hin in Hdep; [|vm_compute; reflexivity].
    apply list_elem_of_singleton in Hdep as [= -> -> ->]. unfold pairKeys. set_solver.
  - cbn [hasTarget deps] in Hdep. by rewrite lookup_empty in Hdep.
Qed.

Lemma performs_one {F} (body : ssaFunction F) p instruction trace :
  instructionAt body p = Some instruction -> drawn (effectsOn instruction) trace -> performs body [p] trace.
Proof. intros Hp Ht. exists [trace]. split; [|cbn; by rewrite app_nil_r]. apply Forall2_cons. split; [by exists instruction|done]. Qed.

(** The execution of [ping] that mutates its receiver and calls [pong], which calls [ping]. *)
Lemma ping_executes : executes pairOf "ping" receiverSlot [Mutates; Validates].
Proof.
  assert (executes pairOf "ping" receiverSlot [Validates]) as Hp.
  { apply (executes_validation pairOf "ping" receiverSlot [] (1, 0)%nat [] (1, 1)%nat 0 [] []).
    - by do 2 eexists.
    - cbn. split; [|done]. eapply advances_within; [reflexivity|cbn; lia].
    - by apply (bool_decide_unpack _).
    - by exists [].
    - eapply performs_one; [reflexivity|by apply Forall_nil]. }
  assert (executes pairOf "pong" receiverSlot [Validates]) as Hq.
  { apply (executes_dependency pairOf "pong" receiverSlot [] (0, 0)%nat [] (0, 1)%nat 0 "ping" receiverSlot [] [Validates] []); [|..|done|].
    - by do 2 eexists.
    - cbn. split; [|done]. eapply advances_within; [reflexivity|cbn; lia].
    - by apply (bool_decide_unpack _).
    - by exists [].
    - eapply performs_one; [reflexivity|by apply Forall_nil]. }
  apply (executes_dependency pairOf "ping" receiverSlot [(2, 0)%nat] (2, 1)%nat [] (2, 2)%nat 0 "pong" receiverSlot [Mutates] [Validates] []); [|..|done|].
  - by do 2 eexists.
  - cbn. split; [eapply advances_within; [reflexivity|cbn; lia]|]. split; [|done]. eapply advances_within; [reflexivity|cbn; lia].
  - by apply (bool_decide_unpack _).
  - eapply performs_one; [reflexivity|]. apply Forall_singleton. split; [done|left].
  - eapply performs_one; [reflexivity|by apply Forall_nil].
Qed.

Lemma recursive_summary_sound_witness : exists summary,
  buildProtocolRecursiveSummary id pairOf sortedNodes sortedDeps 3 "ping" receiverSlot = Some (summary, true) /\
  conditionallyValidatesWithoutHazard summary = true /\ observes [Mutates; Validates] = (true, false).
Proof.
  assert (exists summary, buildProtocolRecursiveSummary id pairOf sortedNodes sortedDeps 3 "ping" receiverSlot = Some (summary, true) /\
    conditionallyValidatesWithoutHazard summary = true) as (summary & Hb & Hc) by (eexists; split; vm_compute; reflexivity).
  exists summary. do 2 (split; [done|]).
  destruct (recursive_summary_sound id pairOf pair_identify "ping" receiverSlot pairKeys pair_finite sortedNodes sortedDeps 3 summary
    sortedNodes_ranging sortedDeps_ranging ltac:(apply pairKeys_size; lia) Hb) as [_ (result & H)].
  by apply (H _ ping_executes).
Defined.

Lemma recursive_summary_terminates_witness : exists nodes,
  protocolCollectRecursiveSummaryNode id pairOf sortedDeps 3 "ping" receiverSlot ∅ ∅ = Some nodes /\ size nodes = 2%nat.
Proof.
  destruct (recursive_summary_terminates id pairOf pair_identify "ping" receiverSlot pairKeys pair_finite sortedNodes sortedDeps 3
    sortedNodes_ranging sortedDeps_ranging ltac:(apply pairKeys_size; lia)) as (nodes & H & _).
  exists nodes. split; [exact H|]. assert (option_map size (Some nodes) = Some 2%nat) as E by (rewrite <- H; by vm_compute).
  by injection E.
Defined.

Lemma recursive_summary_order_independent_witness : exists s1 s2 ok,
  buildProtocolRecursiveSummary id pairOf sortedNodes sortedDeps 3 "ping" receiverSlot = Some (s1, ok) /\
  buildProtocolRecursiveSummary id pairOf reversedNodes sortedDeps 4 "ping" receiverSlot = Some (s2, ok) /\
  protocolContinuationState s1 = protocolContinuationState s2.
Proof.
  destruct (recursive_summary_order_independent id pairOf pair_identify "ping" receiverSlot pairKeys pair_finite sortedNodes reversedNodes
    sortedDeps sortedDeps 3 4 sortedNodes_ranging reversedNodes_ranging sortedDeps_ranging sortedDeps_ranging
    ltac:(apply pairKeys_size; lia) ltac:(apply pairKeys_size; lia)) as (s1 & s2 & ok & H1 & H2 & _ & H3 & _).
  exists s1, s2, ok. split; [exact H1|]. split; [exact H2|exact H3].
Defined.

(** ** The published effects

    Three helpers: the first validates, or calls the second and consumes its receiver; the
    second validates or calls the third; the third validates and mutates its receiver. *)
Definition chainOf (f : string) (_ : calleeTargetSlot) : ssaFunction string :=
  if String.eqb f "first" then
    branching [performing []; returning_ ReturnsValidation (1, 0)%nat]
      [performing []; performing [protocolSummaryEffectConsume]; returning_ (ReturnsDependency "second" receiverSlot) (2, 0)%nat]
  else if String.eqb f "second" then
    branching [performing []; returning_ ReturnsValidation (1, 0)%nat]
      [performing []; returning_ (ReturnsDependency "third" receiverSlot) (2, 0)%nat]
  else
    mkFunction true [true] [mkBlock [] [performing []; performing [protocolSummaryEffectMutate]; returning_ ReturnsValidation (0, 0)%nat]].

Definition chainNodes (names : list string) (_ : rangeLoop) (_ : nat) (_ : gmap string (protocolRecursiveSummaryNode string)) : list string :=
  map (fun f => protocolRecursiveSummaryKey id f receiverSlot) names.

Definition publishedKinds (names : list string) : option (list string) :=
  option_map (fun r => map effectKind (Effects r.1))
    (buildProtocolRecursiveSummary id chainOf (chainNodes names) sortedDeps 4 "first" receiverSlot).

(** The list of effects that is published for a recursive helper, unlike what callers
    conclude from it, depends on the order in which Go ranges over the map of nodes: the
    transfer of a route is not a monotone function of its flags, and the fixed point keeps the
    flags of provisional transfers.  For the same three helpers one order publishes a
    consumption after the validation and the other does not. *)
Theorem recursive_summary_effects_depend_on_order :
  publishedKinds ["second"; "first"; "third"] =
    Some [protocolSummaryEffectConsume; protocolSummaryEffectValidate; protocolSummaryEffectConsume; protocolSummaryEffectMutate] /\
  publishedKinds ["third"; "second"; "first"] =
    Some [protocolSummaryEffectConsume; protocolSummaryEffectValidate; protocolSummaryEffectMutate].
Proof. by split; vm_compute. Qed.

(** ** Retries

    The helper [check] consumes its receiver when the validation fails; [retry] calls it until
    it succeeds:
    [[
    func check(v *Value) error { err := v.Validate(); if err != nil { consume(v) }; return err }
    func retry(v *Value) error { for { if err := check(v); err == nil { return err } } }
    ]] *)
Section Retries.
Context {F : Type} (ssaOf : F -> calleeTargetSlot -> ssaFunction F).

(** What an execution that returns the error of a failed validation does to the target. *)
Inductive fails (f : F) (s : calleeTargetSlot) : list effect -> Prop :=
  | fails_validation w1 terminal w2 returned i b a :
      returns ssaOf f s returned i (Some (ReturnsValidation, terminal)) ->
      walks (ssaOf f s) (w1 ++ terminal :: w2 ++ [returned]) -> terminal ∉ w1 ++ w2 ++ [returned] ->
      performs (ssaOf f s) w1 b -> performs (ssaOf f s) (w2 ++ [returned]) a -> fails f s (b ++ a).

(** An execution that calls a helper in vain, calls it again and returns the error of the
    second call. *)
Inductive retries (f : F) (s : calleeTargetSlot) : list effect -> Prop :=
  | retries_dependency w1 terminal w2 w3 returned i g t b vain m mid a :
      returns ssaOf f s returned i (Some (ReturnsDependency g t, terminal)) ->
      walks (ssaOf f s) (w1 ++ terminal :: w2 ++ terminal :: w3 ++ [returned]) ->
      performs (ssaOf f s) w1 b -> fails g t vain -> performs (ssaOf f s) w2 m ->
      executes ssaOf g t mid -> performs (ssaOf f s) (w3 ++ [returned]) a ->
      retries f s (b ++ vain ++ m ++ mid ++ a).
End Retries.

Definition retryOf (f : string) (_ : calleeTargetSlot) : ssaFunction string :=
  if String.eqb f "check" then
    mkFunction true [true]
      [mkBlock [1%nat; 2%nat] [performing []];
       mkBlock [2%nat] [performing [protocolSummaryEffectConsume]];
       mkBlock [] [returning_ ReturnsValidation (0, 0)%nat]]
  else
    mkFunction true [true]
      [mkBlock [0%nat; 1%nat] [performing []];
       mkBlock [] [returning_ (ReturnsDependency "check" receiverSlot) (0, 0)%nat]].

Lemma check_executes : executes retryOf "check" receiverSlot [Validates].
Proof.
  apply (executes_validation retryOf "check" receiverSlot [] (0, 0)%nat [] (2, 0)%nat 0 [] []).
  - by do 2 eexists.
  - cbn. split; [|done]. eapply advances_across; [reflexivity|done|]. right. left.
  - by apply (bool_decide_unpack _).
  - by exists [].
  - eapply performs_one; [reflexivity|by apply Forall_nil].
Qed.

Lemma check_fails : fails retryOf "check" receiverSlot [Consumes].
Proof.
  apply (fails_validation retryOf "check" receiverSlot [] (0, 0)%nat [(1, 0)%nat] (2, 0)%nat 0 [] [Consumes]).
  - by do 2 eexists.
  - cbn. split; [eapply advances_across; [reflexivity|done|left]|]. split; [|done].
    eapply advances_across; [reflexivity|done|left].
  - by apply (bool_decide_unpack _).
  - by exists [].
  - exists [[Consumes]; []]. split; [|done]. apply Forall2_cons. split; [|apply Forall2_cons; split; [|done]].
    + eexists. split; [reflexivity|]. apply Forall_singleton. split; [done|left].
    + eexists. split; [reflexivity|by apply Forall_nil].
Qed.

(** The effects of a call that is run again are not among those before the last run: the
    summary of [retry] validates without a hazard, and an execution that is successful at
    last has consumed the target unvalidated. *)
Theorem recursive_summary_misses_retries :
  (exists summary, buildProtocolRecursiveSummary id retryOf sortedNodes sortedDeps 3 "retry" receiverSlot = Some (summary, true) /\
    conditionallyValidatesWithoutHazard summary = true) /\
  exists trace, retries retryOf "retry" receiverSlot trace /\ observes trace = (true, true).
Proof.
  split; [eexists; split; vm_compute; reflexivity|]. exists [Consumes; Validates]. split; [|by vm_compute].
  apply (retries_dependency retryOf "retry" receiverSlot [] (0, 0)%nat [] [] (1, 0)%nat 0 "check" receiverSlot [] [Consumes] [] [Validates] []).
  - by do 2 eexists.
  - cbn. split; [eapply advances_across; [reflexivity|done|left]|]. split; [|done].
    eapply advances_across; [reflexivity|done|right; left].
  - by exists [].
  - apply check_fails.
  - by exists [].
  - apply check_executes.
  - eapply performs_one; [reflexivity|by apply Forall_nil].
Qed.
