(* ===== verification/SSA.v ===== *)
(** * Functions in SSA form

    The data of [golang.org/x/tools/go/ssa] that the protocol analyses read: values and
    instructions with the operands the code looks at, blocks and functions.  A pointer to a
    value or a function is a number, and what it points to is looked up in a heap; types are
    given after [types.Unalias] and [Underlying]. *)

From S2P Require Export Prelude.

(** ** Pointers *)
Definition value : Type := nat.
Definition function : Type := nat.

#[export] Instance value_eq_dec : EqDecision value.
Proof. exact Nat.eq_dec. Defined.
#[export] Instance value_countable : Countable value.
Proof. exact nat_countable. Defined.

(** ** Types *)
Inductive goType :=
  | TypePointer (elem : goType)
  | TypeSlice
  | TypeMap
  | TypeInterface
  | TypeChan
  | TypeSignature
  | TypeStruct (fields : list string)
  | TypeOther.

(** [results]: which results of a signature have the type [error]. *)
Record signature := mkSignature { recv : bool; params : nat; results : list bool }.

(** A [types.Func]. *)
Record funcObject := mkFuncObject { objName : string; objSignature : option signature }.

(** ** Calls *)
Record callCommon := mkCommon {
  callValue : value;
  callArgs : list value;
  callMethod : option funcObject;
  callSignature : option signature;
  staticCallee : option function;
}.

Definition isInvoke (c : callCommon) : bool := bool_decide (is_Some (callMethod c)).

(** What refers to a value. *)
Inductive referrer := ReferDebug | ReferCall (v : value) | ReferDefer (v : value) | ReferOther.

(** ** Values *)
Inductive valueKind :=
  | Alloc
  | MakeSlice
  | ParameterValue (siblings : list value) (method : bool)
  | FreeVar
  | Global (package : option string)
  | Const (exact : option string) (isNil : bool)
  | FieldAddr (X : value) (Field : Z)
  | IndexAddr (X Index : value)
  | Phi (Edges : list value)
  | UnOp (Op : string) (X : value)
  | BinOp (Op : string) (X Y : value)
  | ChangeType (X : value)
  | ChangeInterface (X : value)
  | MakeInterface (X : value)
  | Convert (X : value)
  | Slice (X : value)
  | TypeAssert (X : value)
  | Extract (Tuple : value) (Index : Z)
  | FieldOf (X : value) (Field : Z)
  | IndexOf (X Index : value)
  | Lookup (X Index : value)
  | MakeClosure (Fn : value) (Bindings : list value) (Referrers : option (list referrer))
  | Call (common : callCommon)
  | OtherValue (Operands : list value).

(** [procedure] is [protocolProcedureKey] of the parent of the value. *)
Record ssaValue := mkValue {
  kind : valueKind;
  name : string;
  pos : Z;
  procedure : string;
  typeOf : option goType;
}.

(** ** Instructions *)
Inductive instruction :=
  | Define (v : value)
  | Store (Addr Val : value)
  | Send (X : value)
  | MapUpdate (Map Key Val : value)
  | Go (common : callCommon)
  | Defer (common : callCommon)
  | Return (Results : list value)
  | DebugRef (X : value)
  | Jump
  | If (Cond : value)
  | OtherInstruction (Operands : list value).

(** Blocks are in the order of their [Index]. *)
Record basicBlock := mkBasicBlock {
  instrs : list instruction;
  preds : list nat;
  succs : list nat;
}.

Record functionBody := mkBody {
  fnName : string;
  fnParams : list value;
  fnFreeVars : list value;
  fnSignature : option signature;
  fnObject : option funcObject;
  blocks : list basicBlock;
}.

(** ** Well-formed control flow *)
Definition blockAt (fn : functionBody) (b : nat) : option basicBlock := blocks fn !! b.

(** Predecessors and successors are inverse, and both are blocks of the function. *)
Record wellFormedFlow (fn : functionBody) : Prop := {
  wf_succ : forall b block c, blockAt fn b = Some block -> c ∈ succs block ->
    exists target, blockAt fn c = Some target /\ b ∈ preds target;
  wf_pred : forall c target b, blockAt fn c = Some target -> b ∈ preds target ->
    exists block, blockAt fn b = Some block /\ c ∈ succs block;
}.

(** The same, as a check. *)
Definition flowsTo (fn : functionBody) (b c : nat) : bool :=
  match blockAt fn b, blockAt fn c with
  | Some block, Some target => bool_decide (c ∈ succs block) && bool_decide (b ∈ preds target)
  | _, _ => false
  end.

Definition checkFlow (fn : functionBody) : bool :=
  forallb (fun b => match blockAt fn b with
    | Some block => forallb (flowsTo fn b) (succs block) && forallb (fun p => flowsTo fn p b) (preds block)
    | None => true
    end) (seq 0 (length (blocks fn))).

Lemma flowsTo_spec fn b c : flowsTo fn b c = true -> exists block target,
  blockAt fn b = Some block /\ blockAt fn c = Some target /\ c ∈ succs block /\ b ∈ preds target.
Proof.
  unfold flowsTo. destruct (blockAt fn b) as [block|], (blockAt fn c) as [target|]; try done.
  rewrite andb_true_iff, !bool_decide_eq_true. intros []. by exists block, target.
Qed.

Lemma checkFlow_spec fn : checkFlow fn = true -> wellFormedFlow fn.
Proof.
  unfold checkFlow. rewrite forallb_forall. intros H.
  assert (forall b block, blockAt fn b = Some block ->
    (forall c, c ∈ succs block -> flowsTo fn b c = true) /\ (forall p, p ∈ preds block -> flowsTo fn p b = true)) as Hall.
  { intros b block Hb. specialize (H b). rewrite Hb, andb_true_iff, !forallb_forall in H.
    destruct H as [H1 H2]; [apply in_seq; apply lookup_lt_Some in Hb; lia|]. split; intros c Hc; [apply H1|apply H2]; by apply list_elem_of_In. }
  split.
  - intros b block c Hb Hc. destruct (flowsTo_spec fn b c) as (? & target & ? & ? & ? & ?); [by apply (proj1 (Hall b block Hb))|]. by exists target.
  - intros c target b Hc Hb. destruct (flowsTo_spec fn b c) as (block & ? & ? & ? & ? & ?); [by apply (proj2 (Hall c target Hc))|]. by exists block.
Qed.
