(* ===== verification/Identity.v ===== *)
(** * Identities of values and addresses

    [goplint/protocol_identity.go]: the interner that names the values of a function and the
    addresses derived from them with numbers.  A value is named once; the address of a field
    or of an element at a constant index is named by the key of its base and the field or the
    index, so that equal addresses of different instructions share their name.

    The interner is threaded through the code as state.  The analyses that use it are written
    against the class [Interning], of which it is one instance; the other one is a fixed
    naming, and [IdentityFacts] shows that a run with the interner is a run with the naming it
    ends with. *)

From S2P Require Export SSA.
Local Open Scope Z_scope.

Definition protocolIdentity : Type := Z.

#[export] Instance protocolIdentity_eq_dec : EqDecision protocolIdentity := Z.eq_dec.
#[export] Instance protocolIdentity_countable : Countable protocolIdentity := Z_countable.

Definition protocolIdentityValue : string := "ssa-value".
Definition protocolIdentityAllocation : string := "allocation".
Definition protocolIdentityParameter : string := "parameter".
Definition protocolIdentityReceiver : string := "receiver".
Definition protocolIdentityResult : string := "result".
Definition protocolIdentityCopy : string := "copy".
Definition protocolIdentityPhi : string := "phi".
Definition protocolIdentityGlobalAddr : string := "global-address".
Definition protocolIdentityFieldAddr : string := "static-field-address".
Definition protocolIdentityIndexAddr : string := "static-index-address".

Record protocolIdentityDescriptor := mkDescriptor {
  ID : protocolIdentity;
  Kind : string;
  Procedure : string;
  Name : string;
  Slot : Z;
  Position : Z;
  ObjectKey : string;
}.

Record protocolIdentityInterner := mkInterner {
  nextID : protocolIdentity;
  values : gmap value protocolIdentity;
  objects : gmap string protocolIdentity;
  descriptors : gmap protocolIdentity protocolIdentityDescriptor;
  copySources : gmap protocolIdentity protocolIdentity;
}.

Definition newProtocolIdentityInterner : protocolIdentityInterner := mkInterner 1 ∅ ∅ ∅ ∅.

(** ** The interface *)

(** What the analyses use of the interner, in a monad [M]. *)
Class Interning (M : Type -> Type) := {
  i_ret : MRet M;
  i_bind : MBind M;
  i_value : value -> M protocolIdentity;
  i_field : protocolIdentity -> Z -> string -> Z -> M protocolIdentity;
  i_index : protocolIdentity -> string -> Z -> M protocolIdentity;
  i_fresh : protocolIdentity -> M bool;
  i_copy : protocolIdentity -> M (option protocolIdentity);
}.
#[export] Existing Instance i_ret.
#[export] Existing Instance i_bind.

(** ** The state *)

(** [None] is only for the recursion over operands: see [internValue]. *)
Definition interning (A : Type) : Type := protocolIdentityInterner -> option (A * protocolIdentityInterner).

#[export] Instance interning_ret : MRet interning := fun A a i => Some (a, i).
#[export] Instance interning_bind : MBind interning :=
  fun A B k m i => match m i with Some (a, i') => k a i' | None => None end.

Definition read {A} (f : protocolIdentityInterner -> A) : interning A := fun i => Some (f i, i).
Definition update (f : protocolIdentityInterner -> protocolIdentityInterner) : interning unit := fun i => Some (tt, f i).

Definition setValue (v : value) (identity : protocolIdentity) : interning unit :=
  update (fun i => mkInterner (nextID i) (<[v := identity]> (values i)) (objects i) (descriptors i) (copySources i)).
Definition setObject (key : string) (identity : protocolIdentity) : interning unit :=
  update (fun i => mkInterner (nextID i) (values i) (<[key := identity]> (objects i)) (descriptors i) (copySources i)).
Definition setCopySource (identity source : protocolIdentity) : interning unit :=
  update (fun i => mkInterner (nextID i) (values i) (objects i) (descriptors i) (<[identity := source]> (copySources i))).

Definition allocate (d : protocolIdentityDescriptor) : interning protocolIdentity := fun i =>
  let identity := nextID i in
  Some (identity, mkInterner (nextID i + 1) (values i) (objects i)
    (<[identity := mkDescriptor identity (Kind d) (Procedure d) (Name d) (Slot d) (Position d) (ObjectKey d)]> (descriptors i))
    (copySources i)).

Definition descriptor (identity : protocolIdentity) : interning (option protocolIdentityDescriptor) :=
  read (fun i => descriptors i !! identity).

Definition identityIsFreshAllocation (identity : protocolIdentity) : interning bool :=
  d ← descriptor identity;
  mret (match d with Some d => String.eqb (Kind d) protocolIdentityAllocation | None => false end).

Definition copySource (identity : protocolIdentity) : interning (option protocolIdentity) :=
  read (fun i => copySources i !! identity).

(** ** Addresses *)
Definition fieldKey (base : string) (field : Z) : string :=
  protocolIdentityFieldAddr +:+ "|" +:+ base +:+ "|" +:+ itoa field.
Definition indexKey (base index : string) : string :=
  protocolIdentityIndexAddr +:+ "|" +:+ base +:+ "|" +:+ index.
Definition globalKey (procedure name : string) : string :=
  protocolIdentityGlobalAddr +:+ "|" +:+ procedure +:+ "|" +:+ name.

(** An object is looked up by its key, or else allocated under it. *)
Definition internObject (key : string) (d : protocolIdentityDescriptor) : interning protocolIdentity :=
  known ← read (fun i => objects i !! key);
  match known with
  | Some identity => mret identity
  | None => identity ← allocate d; _ ← setObject key identity; mret identity
  end.

Definition internResult (procedure : string) (slot : Z) : interning protocolIdentity :=
  let key := "result|" +:+ procedure +:+ "|" +:+ itoa slot in
  internObject key (mkDescriptor 0 protocolIdentityResult procedure ("result[" +:+ itoa slot +:+ "]") slot 0 key).

Definition internFieldAddress (baseIdentity : protocolIdentity) (field : Z) (fieldName : string) (position : Z)
    : interning protocolIdentity :=
  base ← descriptor baseIdentity;
  match base with
  | None => mret 0
  | Some base =>
      if String.eqb (ObjectKey base) "" then mret 0
      else
        let key := fieldKey (ObjectKey base) field in
        let fieldName := if String.eqb fieldName "" then "field[" +:+ itoa field +:+ "]" else fieldName in
        internObject key (mkDescriptor 0 protocolIdentityFieldAddr (Procedure base) (Name base +:+ "." +:+ fieldName)
          field position key)
  end.

Definition internIndexAddress (baseIdentity : protocolIdentity) (index : string) (position : Z) : interning protocolIdentity :=
  base ← descriptor baseIdentity;
  match base with
  | None => mret 0
  | Some base =>
      if String.eqb (ObjectKey base) "" || String.eqb index "" then mret 0
      else
        let key := indexKey (ObjectKey base) index in
        internObject key (mkDescriptor 0 protocolIdentityIndexAddr (Procedure base) (Name base +:+ "[" +:+ index +:+ "]")
          (-1) position key)
  end.

(** ** Values *)
Section Heap.
Context (heap : value -> ssaValue).

Definition protocolStaticIndex (index : value) : option string :=
  match kind (heap index) with Const (Some exact) _ => Some exact | _ => None end.

Definition protocolStaticFieldName (baseType : option goType) (field : Z) : string :=
  match baseType with
  | None => ""
  | Some t =>
      if field <? 0 then ""
      else match (match t with TypePointer elem => elem | _ => t end) with
           | TypeStruct fields => default "" (fields !! Z.to_nat field)
           | _ => ""
           end
  end.

Definition protocolGlobalProcedureKey (package : option string) : string :=
  match package with Some path => path +:+ ":<global>" | None => "<unknown-package>:<global>" end.

Fixpoint indexOf (v : value) (l : list value) (i : Z) : Z :=
  match l with [] => -1 | w :: l => if Nat.eqb w v then i else indexOf v l (i + 1) end.

Definition protocolParameterKindAndSlot (v : value) (siblings : list value) (method : bool) : string * Z :=
  let slot := indexOf v siblings 0 in
  if (slot =? 0) && method then (protocolIdentityReceiver, 0) else (protocolIdentityParameter, slot).

Definition protocolIdentityKindForValue (v : value) : string * Z :=
  match kind (heap v) with
  | Alloc | MakeSlice => (protocolIdentityAllocation, -1)
  | ParameterValue siblings method => protocolParameterKindAndSlot v siblings method
  | Extract _ index => (protocolIdentityResult, index)
  | Phi _ => (protocolIdentityPhi, -1)
  | Global _ => (protocolIdentityGlobalAddr, -1)
  | FieldAddr _ field => (protocolIdentityFieldAddr, field)
  | IndexAddr _ _ => (protocolIdentityIndexAddr, -1)
  | ChangeType _ | ChangeInterface _ | MakeInterface _ => (protocolIdentityCopy, -1)
  | _ => (protocolIdentityValue, -1)
  end.

Definition protocolIdentityObjectKey (kind procedure name : string) (slot : Z) : string :=
  kind +:+ "|" +:+ procedure +:+ "|" +:+ itoa slot +:+ "|" +:+ name.

Definition protocolCopySource (v : value) : option value :=
  match kind (heap v) with
  | ChangeType X | ChangeInterface X | MakeInterface X | Slice X | TypeAssert X => Some X
  | Extract tuple index =>
      match kind (heap tuple) with TypeAssert _ => if index =? 0 then Some tuple else None | _ => None end
  | _ => None
  end.

(** The base of an address is copied from another value: so is the address. *)
Definition copyAddress (identity baseIdentity : protocolIdentity)
    (derive : protocolIdentity -> interning protocolIdentity) : interning unit :=
  source ← copySource baseIdentity;
  match source with
  | Some sourceBase => derived ← derive sourceBase; setCopySource identity derived
  | None => mret tt
  end.

Definition internAddressValue (internValue : value -> interning protocolIdentity) (v : value)
    : interning (option protocolIdentity) :=
  match kind (heap v) with
  | Global package =>
      let procedure := protocolGlobalProcedureKey package in
      let key := globalKey procedure (name (heap v)) in
      identity ← internObject key
        (mkDescriptor 0 protocolIdentityGlobalAddr procedure (name (heap v)) (-1) (pos (heap v)) key);
      mret (Some identity)
  | FieldAddr X field =>
      baseIdentity ← internValue X;
      let derive := fun base => internFieldAddress base field (protocolStaticFieldName (typeOf (heap X)) field) (pos (heap v)) in
      identity ← derive baseIdentity;
      _ ← copyAddress identity baseIdentity derive;
      mret (if identity =? 0 then None else Some identity)
  | IndexAddr X index =>
      match protocolStaticIndex index with
      | None => mret None
      | Some index =>
          baseIdentity ← internValue X;
          let derive := fun base => internIndexAddress base index (pos (heap v)) in
          identity ← derive baseIdentity;
          _ ← copyAddress identity baseIdentity derive;
          mret (if identity =? 0 then None else Some identity)
      end
  | _ => mret None
  end.

(** The recursion follows the operands of addresses and copies, which SSA form keeps acyclic;
    the fuel bounds their depth. *)
Fixpoint internValue (fuel : nat) (v : value) : interning protocolIdentity :=
  match fuel with
  | O => fun _ => None
  | S fuel' =>
      known ← read (fun i => values i !! v);
      match known with
      | Some identity => mret identity
      | None =>
          address ← internAddressValue (internValue fuel') v;
          match address with
          | Some identity => _ ← setValue v identity; mret identity
          | None =>
              let '(kind, slot) := protocolIdentityKindForValue v in
              let key := protocolIdentityObjectKey kind (procedure (heap v)) (name (heap v)) slot in
              identity ← allocate (mkDescriptor 0 kind (procedure (heap v)) (name (heap v)) slot (pos (heap v)) key);
              _ ← setValue v identity;
              match protocolCopySource v with
              | Some source => sourceIdentity ← internValue fuel' source; _ ← setCopySource identity sourceIdentity; mret identity
              | None => mret identity
              end
          end
      end
  end.

(** The interner of a heap whose operands are at most [fuel] deep. *)
Definition interner (fuel : nat) : Interning interning := {|
  i_ret := interning_ret;
  i_bind := interning_bind;
  i_value := internValue fuel;
  i_field := internFieldAddress;
  i_index := internIndexAddress;
  i_fresh := identityIsFreshAllocation;
  i_copy := copySource;
|}.
End Heap.

(** ** Namings *)

(** A fixed naming of values and addresses. *)
Record naming := mkNaming {
  nameOf : value -> protocolIdentity;
  fieldOf : protocolIdentity -> Z -> protocolIdentity;
  elementOf : protocolIdentity -> string -> protocolIdentity;
  freshOf : protocolIdentity -> bool;
  copyOf : protocolIdentity -> option protocolIdentity;
}.

Definition named (A : Type) : Type := A.

Definition namer (n : naming) : Interning named := {|
  i_ret := fun A a => a;
  i_bind := fun A B k m => k m;
  i_value := nameOf n;
  i_field := fun base field _ _ => fieldOf n base field;
  i_index := fun base index _ => elementOf n base index;
  i_fresh := freshOf n;
  i_copy := copyOf n;
|}.

(** The naming that an interner has arrived at. *)
Definition namingOf (i : protocolIdentityInterner) : naming := {|
  nameOf := fun v => default (0 : protocolIdentity) (values i !! v);
  fieldOf := fun base field =>
    match descriptors i !! base with Some d => default (0 : protocolIdentity) (objects i !! fieldKey (ObjectKey d) field) | None => 0 end;
  elementOf := fun base index =>
    match descriptors i !! base with
    | Some d => if String.eqb index "" then 0 else default (0 : protocolIdentity) (objects i !! indexKey (ObjectKey d) index)
    | None => 0
    end;
  freshOf := fun identity =>
    match descriptors i !! identity with Some d => String.eqb (Kind d) protocolIdentityAllocation | None => false end;
  copyOf := fun identity => copySources i !! identity;
|}.
