(* ===== verification/IdentityFacts.v ===== *)
(** * What interned identities mean

    The invariant of the interner of [goplint/protocol_identity.go], that interning a value or
    an address only extends it, and that a computation with the interner is the same
    computation with the naming it ends with ([follows]). *)

From S2P Require Export Identity.
Local Open Scope Z_scope.

Section Facts.
Context (heap : value -> ssaValue).

(** The values that are named by an address. *)
Definition addressed (v : value) : bool :=
  match kind (heap v) with
  | Global _ | FieldAddr _ _ => true
  | IndexAddr _ index => match protocolStaticIndex heap index with Some _ => true | None => false end
  | _ => false
  end.

Definition known (i : protocolIdentityInterner) (identity : protocolIdentity) : Prop := 1 <= identity < nextID i.

Record wf (i : protocolIdentityInterner) : Prop := {
  wf_next : 1 <= nextID i;
  wf_descriptors : forall identity, is_Some (descriptors i !! identity) <-> known i identity;
  wf_keys : forall identity d, descriptors i !! identity = Some d -> ObjectKey d <> "";
  wf_values : forall v identity, values i !! v = Some identity -> known i identity;
  wf_objects : forall key identity, objects i !! key = Some identity ->
    exists d, descriptors i !! identity = Some d /\ ObjectKey d = key;
  wf_plain : forall v identity key, addressed v = false -> values i !! v = Some identity -> objects i !! key <> Some identity;
  wf_distinct : forall v w identity, addressed v = false -> values i !! v = Some identity -> values i !! w = Some identity -> v = w;
}.

(** Interning extends the interner; the copies of values stay what they are. *)
Record extends (i j : protocolIdentityInterner) : Prop := {
  ex_next : nextID i <= nextID j;
  ex_values : values i ⊆ values j;
  ex_objects : objects i ⊆ objects j;
  ex_descriptors : descriptors i ⊆ descriptors j;
  ex_copies : forall identity, known i identity -> (forall key, objects j !! key <> Some identity) ->
    copySources j !! identity = copySources i !! identity;
}.

#[export] Instance extends_preorder : PreOrder extends.
Proof.
  split; [intros i; by split|]. intros i j k [A1 A2 A3 A4 A5] [B1 B2 B3 B4 B5].
  split; [lia|by etransitivity|by etransitivity|by etransitivity|].
  intros identity Hk Hn. rewrite B5; [apply A5; [done|]| |done].
  - intros key Ho. apply (Hn key). by eapply lookup_weaken.
  - unfold known in *. lia.
Qed.

Lemma known_extends i j identity : extends i j -> known i identity -> known j identity.
Proof. intros [H _ _ _ _]. unfold known. lia. Qed.

Lemma new_wf : wf newProtocolIdentityInterner.
Proof.
  split; cbn; try (intros *; rewrite ?lookup_empty; done).
  intros identity. unfold known. cbn. rewrite lookup_empty. split; [by intros []|lia].
Qed.

(** ** Objects *)
Lemma internObject_spec key d i : wf i -> ObjectKey d = key -> key <> "" -> exists identity j,
  internObject key d i = Some (identity, j) /\ wf j /\ extends i j /\ values j = values i /\
  objects j !! key = Some identity /\ known j identity.
Proof.
  intros Hw Hkey Hne. unfold internObject, read, mbind, interning_bind. destruct (objects i !! key) as [identity|] eqn:E.
  - exists identity, i. do 5 (split; [done|]). destruct (wf_objects i Hw _ _ E) as (d' & Hd & _). apply (wf_descriptors i Hw). by exists d'.
  - unfold allocate, setObject, update, mret, interning_ret. do 2 eexists. split; [reflexivity|]. cbn.
    pose proof (wf_next i Hw) as Hn. destruct Hw as [W1 W2 W3 W4 W5 W6 W7].
    assert (descriptors i !! nextID i = None) as Hfresh.
    { apply eq_None_not_Some. rewrite W2. unfold known. lia. }
    split; [|split; [|split; [done|split; [by rewrite lookup_insert_eq|unfold known; cbn; lia]]]].
    + split; cbn.
      * lia.
      * intros x. unfold known. cbn. rewrite lookup_insert_is_Some'. rewrite W2. unfold known. lia.
      * intros x d'. rewrite lookup_insert_Some. intros [[<- <-]|[_ H]]; [by cbn; rewrite Hkey|by eapply W3].
      * intros v x Hv. apply W4 in Hv. unfold known in *. cbn. lia.
      * intros k x. rewrite lookup_insert_Some. intros [[<- <-]|[_ H]].
        -- eexists. split; [apply lookup_insert_eq|done].
        -- destruct (W5 _ _ H) as (d' & Hd & Hk). exists d'. split; [|done]. rewrite lookup_insert_ne; [done|]. congruence.
      * intros v x k Ha Hv. rewrite lookup_insert_Some. intros [[_ <-]|[_ H]]; [apply W4 in Hv; unfold known in Hv; lia|by eapply W6].
      * done.
    + split; cbn; [lia|done|by apply insert_subseteq|by apply insert_subseteq|done].
Qed.

Lemma fieldKey_nonempty base field : fieldKey base field <> "".
Proof. done. Qed.
Lemma indexKey_nonempty base index : indexKey base index <> "".
Proof. done. Qed.

Lemma internFieldAddress_spec base field fieldName position i : wf i -> known i base -> exists identity j d,
  internFieldAddress base field fieldName position i = Some (identity, j) /\ wf j /\ extends i j /\ values j = values i /\
  descriptors i !! base = Some d /\ objects j !! fieldKey (ObjectKey d) field = Some identity /\ known j identity.
Proof.
  intros Hw Hk. apply (wf_descriptors i Hw) in Hk as [d Hd]. unfold internFieldAddress, descriptor, read, mbind, interning_bind.
  rewrite Hd. destruct (String.eqb_spec (ObjectKey d) "") as [E|_]; [by apply (wf_keys i Hw) in Hd|].
  destruct (internObject_spec (fieldKey (ObjectKey d) field)
    (mkDescriptor 0 protocolIdentityFieldAddr (Procedure d)
       (Name d +:+ "." +:+ (if String.eqb fieldName "" then "field[" +:+ itoa field +:+ "]" else fieldName)) field position
       (fieldKey (ObjectKey d) field)) i Hw eq_refl (fieldKey_nonempty _ _)) as (identity & j & E & H1 & H2 & H3 & H4 & H5).
  exists identity, j, d. rewrite E. done.
Qed.

Lemma internIndexAddress_spec base index position i : wf i -> known i base -> exists identity j d,
  internIndexAddress base index position i = Some (identity, j) /\ wf j /\ extends i j /\ values j = values i /\
  descriptors i !! base = Some d /\
  (if String.eqb index "" then identity = 0 else objects j !! indexKey (ObjectKey d) index = Some identity /\ known j identity).
Proof.
  intros Hw Hk. apply (wf_descriptors i Hw) in Hk as [d Hd]. unfold internIndexAddress, descriptor, read, mbind, interning_bind.
  rewrite Hd. destruct (String.eqb_spec (ObjectKey d) "") as [E|_]; [by apply (wf_keys i Hw) in Hd|].
  cbn [orb]. destruct (String.eqb index "") eqn:Ei.
  { exists 0, i, d. done. }
  destruct (internObject_spec (indexKey (ObjectKey d) index)
    (mkDescriptor 0 protocolIdentityIndexAddr (Procedure d) (Name d +:+ "[" +:+ index +:+ "]") (-1) position
       (indexKey (ObjectKey d) index)) i Hw eq_refl (indexKey_nonempty _ _)) as (identity & j & E & H1 & H2 & H3 & H4 & H5).
  exists identity, j, d. rewrite E. done.
Qed.

(** ** Values *)
Definition withValue (v : value) (identity : protocolIdentity) (i : protocolIdentityInterner) : protocolIdentityInterner :=
  mkInterner (nextID i) (<[v := identity]> (values i)) (objects i) (descriptors i) (copySources i).
Definition withCopy (identity source : protocolIdentity) (i : protocolIdentityInterner) : protocolIdentityInterner :=
  mkInterner (nextID i) (values i) (objects i) (descriptors i) (<[identity := source]> (copySources i)).

Lemma withValue_wf v identity i : wf i -> known i identity ->
  (addressed v = false -> forall key, objects i !! key <> Some identity) ->
  (forall w, values i !! w = Some identity -> addressed w = true /\ addressed v = true) -> wf (withValue v identity i).
Proof.
  intros [W1 W2 W3 W4 W5 W6 W7] Hk Ho Hv. split; cbn; try done.
  - intros w x. rewrite lookup_insert_Some. intros [[<- <-]|[_ H]]; [done|by apply W4 in H].
  - intros w x key Ha. rewrite lookup_insert_Some. intros [[<- <-]|[_ H]]; [by apply Ho|by apply (W6 w)].
  - intros w u x Ha. rewrite !lookup_insert_Some. intros [[<- <-]|[Hw H]] [[<- E]|[Hu H']]; [done|..].
    + apply Hv in H' as [_ ?]. congruence.
    + subst x. apply Hv in H as [? _]. congruence.
    + by eapply W7.
Qed.

Lemma withValue_extends v identity i : values i !! v = None -> extends i (withValue v identity i).
Proof. intros Hv. split; cbn; try done. by apply insert_subseteq. Qed.

Lemma withCopy_wf identity source i : wf i -> wf (withCopy identity source i).
Proof. intros [W1 W2 W3 W4 W5 W6 W7]. by split. Qed.

Lemma withCopy_extends identity source i j : extends i j ->
  (known i identity -> exists key, objects j !! key = Some identity) -> extends i (withCopy identity source j).
Proof.
  intros [A1 A2 A3 A4 A5] Hk. split; cbn; try done. intros x Hx Hn. rewrite lookup_insert_ne; [by apply A5|].
  intros <-. destruct (Hk Hx) as [key Ho]. by apply (Hn key).
Qed.

Lemma allocate_spec d i : wf i -> ObjectKey d <> "" -> exists j, allocate d i = Some (nextID i, j) /\ wf j /\ extends i j /\
  values j = values i /\ objects j = objects i /\ nextID j = nextID i + 1.
Proof.
  intros [W1 W2 W3 W4 W5 W6 W7] Hne. unfold allocate. eexists. split; [reflexivity|].
  assert (descriptors i !! nextID i = None) as Hfresh.
  { apply eq_None_not_Some. rewrite W2. unfold known. lia. }
  split; [|split; [|done]].
  - split; cbn; try done.
    + lia.
    + intros x. unfold known. cbn. rewrite lookup_insert_is_Some', W2. unfold known. lia.
    + intros x d'. rewrite lookup_insert_Some. intros [[<- <-]|[_ H]]; [done|by eapply W3].
    + intros v x Hv. apply W4 in Hv. unfold known in *. cbn. lia.
    + intros k x Hk. destruct (W5 _ _ Hk) as (d' & Hd & Hkey). exists d'. split; [|done]. rewrite lookup_insert_ne; congruence.
  - split; cbn; try done; [lia|by apply insert_subseteq].
Qed.

(** The operands that [internValue] follows; they are acyclic. *)
Definition followed (v : value) : list value :=
  match kind (heap v) with
  | FieldAddr X _ | IndexAddr X _ => [X]
  | _ => match protocolCopySource heap v with Some source => [source] | None => [] end
  end.

Lemma followed_copy v source : protocolCopySource heap v = Some source -> source ∈ followed v.
Proof.
  intros E. unfold followed. rewrite E. unfold protocolCopySource in E. destruct (kind (heap v)); (done || left).
Qed.

Section Ranked.
Context (rank : value -> nat) (Hrank : forall v w, w ∈ followed v -> (rank w < rank v)%nat).

(** Interning a value names it and what it is derived from. *)
Definition interns (v : value) (m : interning protocolIdentity) : Prop := forall i, wf i -> exists identity j,
  m i = Some (identity, j) /\ wf j /\ extends i j /\ values j !! v = Some identity /\
  forall w, (rank v < rank w)%nat -> values j !! w = values i !! w.

Lemma copyAddress_spec identity base derive i : wf i ->
  (known i identity -> exists key, objects i !! key = Some identity) ->
  (forall source i, wf i -> exists derived j, derive source i = Some (derived, j) /\ wf j /\ extends i j /\ values j = values i) ->
  exists j, copyAddress identity base derive i = Some (tt, j) /\ wf j /\ extends i j /\ values j = values i.
Proof.
  intros Hw Hk Hd. unfold copyAddress, copySource, read, mbind, interning_bind.
  destruct (copySources i !! base) as [source|]; [|by exists i].
  destruct (Hd source i Hw) as (derived & j & -> & Hwj & Hexj & Hv). exists (withCopy identity derived j).
  split; [done|]. split; [by apply withCopy_wf|]. split; [|done]. apply withCopy_extends; [done|].
  intros H. destruct (Hk H) as [key Ho]. exists key. eapply lookup_weaken; [done|apply Hexj].
Qed.

Lemma internField_any base field fieldName position i : wf i -> exists derived j,
  internFieldAddress base field fieldName position i = Some (derived, j) /\ wf j /\ extends i j /\ values j = values i.
Proof.
  intros Hw. destruct (descriptors i !! base) as [d|] eqn:Hd.
  - destruct (internFieldAddress_spec base field fieldName position i Hw) as (identity & j & d' & E & H1 & H2 & H3 & _).
    + apply (wf_descriptors i Hw). by exists d.
    + by exists identity, j.
  - exists 0, i. unfold internFieldAddress, descriptor, read, mbind, interning_bind. by rewrite Hd.
Qed.

Lemma internIndex_any base index position i : wf i -> exists derived j,
  internIndexAddress base index position i = Some (derived, j) /\ wf j /\ extends i j /\ values j = values i.
Proof.
  intros Hw. destruct (descriptors i !! base) as [d|] eqn:Hd.
  - destruct (internIndexAddress_spec base index position i Hw) as (identity & j & d' & E & H1 & H2 & H3 & _).
    + apply (wf_descriptors i Hw). by exists d.
    + by exists identity, j.
  - exists 0, i. unfold internIndexAddress, descriptor, read, mbind, interning_bind. by rewrite Hd.
Qed.

(** The address of an addressed value. *)
Lemma internAddress_spec intern v i : wf i ->
  (forall w, w ∈ followed v -> interns w (intern w)) ->
  exists address j, internAddressValue heap intern v i = Some (address, j) /\ wf j /\ extends i j /\
    (forall w, (rank v <= rank w)%nat -> values j !! w = values i !! w) /\
    match address with
    | Some identity => addressed v = true /\ known j identity /\ exists key, objects j !! key = Some identity
    | None => True
    end.
Proof.
  intros Hw Hi. unfold internAddressValue.
  destruct (kind (heap v)) as [| |siblings method| |package|exact isNil|X field|X index|edges|op X|op X Y|X|X|X|X|X|X|X index|X field|X index|X index|fnv bs rs|common|ops] eqn:Ek;
    try (exists None, i; done).
  - unfold mbind at 1, interning_bind at 1.
    destruct (internObject_spec (globalKey (protocolGlobalProcedureKey package) (name (heap v)))
      (mkDescriptor 0 protocolIdentityGlobalAddr (protocolGlobalProcedureKey package) (name (heap v)) (-1) (pos (heap v))
         (globalKey (protocolGlobalProcedureKey package) (name (heap v)))) i Hw eq_refl ltac:(done)) as (identity & j & -> & H1 & H2 & H3 & H4 & H5).
    exists (Some identity), j. unfold addressed. rewrite Ek, H3. split; [done|]. do 3 (split; [done|]). split; [done|]. split; [done|]. by eexists.
  - unfold mbind at 1, interning_bind at 1.
    destruct (Hi X ltac:(unfold followed; rewrite Ek; left) i Hw) as (base & i1 & -> & Hw1 & He1 & Hv1 & Hr1).
    unfold mbind at 1, interning_bind at 1.
    destruct (internFieldAddress_spec base field (protocolStaticFieldName (typeOf (heap X)) field) (pos (heap v)) i1 Hw1)
      as (identity & i2 & d & -> & Hw2 & He2 & Hv2 & Hd & Ho & Hk); [by eapply wf_values|].
    unfold mbind at 1, interning_bind at 1.
    destruct (copyAddress_spec identity base (fun base => internFieldAddress base field (protocolStaticFieldName (typeOf (heap X)) field) (pos (heap v))) i2 Hw2)
      as (j & -> & Hwj & Hej & Hvj); [intros _; by eexists|intros; by apply internField_any|].
    assert (rank X < rank v)%nat as HX by (apply Hrank; unfold followed; rewrite Ek; left).
    exists (Some identity), j. split; [|split; [done|split; [by do 2 (etransitivity; [done|])|split; [|split; [by unfold addressed; rewrite Ek|]]]]].
    + destruct (Z.eqb_spec identity 0) as [->|_]; [unfold known in Hk; lia|done].
    + intros w Hw'. rewrite Hvj, Hv2. apply Hr1. lia.
    + split; [by eapply known_extends|]. eexists. eapply lookup_weaken; [done|apply Hej].
  - destruct (protocolStaticIndex heap index) as [n|] eqn:En; [|by exists None, i].
    unfold mbind at 1, interning_bind at 1.
    destruct (Hi X ltac:(unfold followed; rewrite Ek; left) i Hw) as (base & i1 & -> & Hw1 & He1 & Hv1 & Hr1).
    unfold mbind at 1, interning_bind at 1.
    destruct (internIndexAddress_spec base n (pos (heap v)) i1 Hw1) as (identity & i2 & d & -> & Hw2 & He2 & Hv2 & Hd & Ho);
      [by eapply wf_values|].
    unfold mbind at 1, interning_bind at 1.
    destruct (copyAddress_spec identity base (fun base => internIndexAddress base n (pos (heap v))) i2 Hw2)
      as (j & -> & Hwj & Hej & Hvj); [|intros; by apply internIndex_any|].
    { destruct (String.eqb n ""); [subst; unfold known; lia|]. destruct Ho as [Ho _]. intros _. by eexists. }
    assert (rank X < rank v)%nat as HX by (apply Hrank; unfold followed; rewrite Ek; left).
    eexists _, j. split; [reflexivity|]. split; [done|]. split; [by do 2 (etransitivity; [done|])|]. split.
    + intros w Hw'. rewrite Hvj, Hv2. apply Hr1. lia.
    + destruct (Z.eqb_spec identity 0) as [|Hne]; [done|]. destruct (String.eqb n ""); [done|]. destruct Ho as [Ho Hk].
      split; [by unfold addressed; rewrite Ek, En|]. split; [by eapply known_extends|]. eexists. eapply lookup_weaken; [done|apply Hej].
Qed.

Lemma internValue_spec fuel : forall v, (rank v < fuel)%nat -> interns v (internValue heap fuel v).
Proof.
  induction fuel as [|fuel IH]; intros v Hf i Hw; [lia|]. cbn [internValue]. unfold mbind at 1, interning_bind at 1, read.
  destruct (values i !! v) as [identity|] eqn:Hv.
  { exists identity, i. done. }
  unfold mbind at 1, interning_bind at 1.
  destruct (internAddress_spec (internValue heap fuel) v i Hw) as (address & i1 & -> & Hw1 & He1 & Hr1 & Ha).
  { intros w Hin. apply IH. pose proof (Hrank v w Hin). lia. }
  assert (values i1 !! v = None) as Hv1 by (rewrite Hr1; [done|lia]).
  destruct address as [identity|].
  - destruct Ha as (Had & Hk & key & Ho). unfold mbind, interning_bind, setValue, update, mret, interning_ret.
    exists identity, (withValue v identity i1). split; [done|]. split; [|split; [|split]].
    + apply withValue_wf; [done|done|congruence|]. intros w Hww. split; [|done]. destruct (addressed w) eqn:Ew; [done|].
      exfalso. by eapply (wf_plain i1 Hw1 w).
    + etransitivity; [done|]. by apply withValue_extends.
    + cbn. apply lookup_insert_eq.
    + intros w Hww. cbn. rewrite lookup_insert_ne by (intros ->; lia). apply Hr1. lia.
  - destruct (protocolIdentityKindForValue heap v) as [k slot].
    unfold mbind at 1, interning_bind at 1.
    destruct (allocate_spec (mkDescriptor 0 k (procedure (heap v)) (name (heap v)) slot (pos (heap v))
      (protocolIdentityObjectKey k (procedure (heap v)) (name (heap v)) slot)) i1 Hw1) as (i2 & -> & Hw2 & He2 & Hv2 & Ho2 & Hn2).
    { cbn. unfold protocolIdentityObjectKey. by destruct k. }
    unfold mbind at 1, interning_bind at 1, setValue, update. fold (withValue v (nextID i1) i2). set (i3 := withValue v (nextID i1) i2).
    pose proof (wf_next i1 Hw1) as Hpos.
    assert (forall key, objects i2 !! key <> Some (nextID i1)) as Hno.
    { intros key. rewrite Ho2. intros (d & Hd & _)%(wf_objects i1 Hw1).
      assert (known i1 (nextID i1)) as Hk by (apply (wf_descriptors i1 Hw1); by exists d). unfold known in Hk. lia. }
    assert (forall w, values i2 !! w <> Some (nextID i1)) as Hnv.
    { intros w. rewrite Hv2. intros Hk%(wf_values i1 Hw1). unfold known in Hk. lia. }
    assert (wf i3) as Hw3.
    { apply withValue_wf; [done|unfold known; lia|done|]. intros w Hww. by apply Hnv in Hww. }
    assert (extends i i3) as He3.
    { do 2 (etransitivity; [done|]). apply withValue_extends. by rewrite Hv2. }
    assert (forall w, (rank v < rank w)%nat -> values i3 !! w = values i !! w) as Hr3.
    { intros w Hww. unfold i3, withValue. cbn. rewrite lookup_insert_ne by (intros ->; lia). rewrite Hv2. apply Hr1. lia. }
    assert (values i3 !! v = Some (nextID i1)) as Hv3 by (apply lookup_insert_eq).
    destruct (protocolCopySource heap v) as [source|] eqn:Es; [|by exists (nextID i1), i3].
    pose proof (Hrank v source (followed_copy v source Es)) as Hlt.
    unfold mbind at 1, interning_bind at 1. destruct (IH source ltac:(lia) i3 Hw3) as (copied & i4 & -> & Hw4 & He4 & Hs4 & Hr4).
    unfold mbind, interning_bind, setCopySource, update, mret, interning_ret.
    exists (nextID i1), (withCopy (nextID i1) copied i4). split; [done|]. split; [by apply withCopy_wf|]. split; [|split].
    + apply withCopy_extends; [by etransitivity|]. pose proof (ex_next _ _ He1). unfold known. lia.
    + cbn. eapply lookup_weaken; [done|apply He4].
    + intros w Hww. cbn. rewrite Hr4 by lia. by apply Hr3.
Qed.

(** ** Following a naming *)

(** What holds of an interner and of all that extend it. *)
Definition stable (P : protocolIdentityInterner -> Prop) : Prop := forall i j, P i -> extends i j -> P j.

(** A computation with the interner, from any state where [pre] holds, returns what the same
    computation with a naming returns, for the naming of any interner it ends in or that
    extends it. *)
Definition follows {A} (pre : protocolIdentityInterner -> Prop) (m : interning A) (p : naming -> A)
    (post : A -> protocolIdentityInterner -> Prop) : Prop :=
  forall i, wf i -> pre i -> exists a j, m i = Some (a, j) /\ wf j /\ extends i j /\ post a j /\
    forall f, wf f -> extends j f -> p (namingOf f) = a.

Lemma follows_ret {A} (pre : protocolIdentityInterner -> Prop) (a : A) (p : naming -> A) post :
  (forall n, p n = a) -> (forall i, pre i -> post a i) -> follows pre (mret a) p post.
Proof. intros Hp H i Hw Hi. exists a, i. split; [done|]. split; [done|]. split; [done|]. split; [auto|]. auto. Qed.

Lemma follows_bind {A B} pre (m : interning A) (p : naming -> A) mid (k : A -> interning B) (q : naming -> A -> B) post :
  stable pre -> follows pre m p mid -> (forall a, follows (fun i => pre i /\ mid a i) (k a) (fun n => q n a) post) ->
  follows pre (m ≫= k) (fun n => q n (p n)) post.
Proof.
  intros Hs Hm Hk i Hw Hi. destruct (Hm i Hw Hi) as (a & i1 & E1 & Hw1 & He1 & Hmid & Hp).
  destruct (Hk a i1 Hw1 (conj (Hs _ _ Hi He1) Hmid)) as (b & i2 & E2 & Hw2 & He2 & Hpost & Hq).
  exists b, i2. split; [unfold mbind, interning_bind; by rewrite E1|]. split; [done|]. split; [by etransitivity|]. split; [done|].
  intros f Hf Hef. rewrite (Hp f Hf) by (by etransitivity). by apply Hq.
Qed.

Lemma follows_weaken {A} (pre pre' : protocolIdentityInterner -> Prop) (m : interning A) p (post post' : A -> protocolIdentityInterner -> Prop) :
  follows pre m p post -> (forall i, pre' i -> pre i) -> (forall a i, post a i -> post' a i) -> follows pre' m p post'.
Proof.
  intros H Hpre Hpost i Hw Hi. destruct (H i Hw (Hpre i Hi)) as (a & j & H1 & H2 & H3 & H4 & H5). exists a, j. auto 6.
Qed.

Lemma stable_known identity : stable (fun i => known i identity).
Proof. intros i j H He. by eapply known_extends. Qed.

(** The name of a value is settled. *)
Definition isNamed (v : value) (identity : protocolIdentity) (i : protocolIdentityInterner) : Prop :=
  values i !! v = Some identity.

Lemma stable_named v identity : stable (isNamed v identity).
Proof. intros i j H He. eapply lookup_weaken; [done|apply He]. Qed.

Lemma follows_value fuel v pre : (rank v < fuel)%nat ->
  follows pre (internValue heap fuel v) (fun n => nameOf n v) (fun identity i => isNamed v identity i /\ known i identity).
Proof.
  intros Hf i Hw _. destruct (internValue_spec fuel v Hf i Hw) as (identity & j & E & Hwj & He & Hv & _).
  exists identity, j. split; [done|]. split; [done|]. split; [done|]. split; [split; [done|by eapply wf_values]|].
  intros f Hwf Hef. cbn [namingOf nameOf fieldOf elementOf freshOf copyOf]. by rewrite (stable_named v identity j f Hv Hef).
Qed.

Lemma follows_field base field fieldName position :
  follows (fun i => known i base) (internFieldAddress base field fieldName position) (fun n => fieldOf n base field)
    (fun identity i => known i identity).
Proof.
  intros i Hw Hk. destruct (internFieldAddress_spec base field fieldName position i Hw Hk) as (identity & j & d & E & Hwj & He & _ & Hd & Ho & Hk').
  exists identity, j. do 4 (split; [done|]). intros f Hwf Hef. cbn [namingOf nameOf fieldOf elementOf freshOf copyOf].
  assert (descriptors f !! base = Some d) as -> by (eapply lookup_weaken; [done|]; etransitivity; [apply He|apply Hef]).
  cbv beta iota.
  by rewrite (lookup_weaken _ _ _ _ Ho (ex_objects _ _ Hef)).
Qed.

Lemma follows_index base index position : index <> "" ->
  follows (fun i => known i base) (internIndexAddress base index position) (fun n => elementOf n base index)
    (fun identity i => known i identity).
Proof.
  intros Hne i Hw Hk. destruct (internIndexAddress_spec base index position i Hw Hk) as (identity & j & d & E & Hwj & He & _ & Hd & Ho).
  destruct (String.eqb_spec index "") as [|_]; [done|]. destruct Ho as [Ho Hk'].
  exists identity, j. do 4 (split; [done|]). intros f Hwf Hef. cbn [namingOf nameOf fieldOf elementOf freshOf copyOf].
  assert (descriptors f !! base = Some d) as -> by (eapply lookup_weaken; [done|]; etransitivity; [apply He|apply Hef]).
  cbv beta iota.
  destruct (String.eqb_spec index "") as [|_]; [done|].
  by rewrite (lookup_weaken _ _ _ _ Ho (ex_objects _ _ Hef)).
Qed.

Lemma follows_fresh identity pre :
  follows (fun i => pre i /\ known i identity) (identityIsFreshAllocation identity) (fun n => freshOf n identity) (fun _ i => pre i).
Proof.
  intros i Hw [Hp Hk]. apply (wf_descriptors i Hw) in Hk as [d Hd].
  exists (String.eqb (Kind d) protocolIdentityAllocation), i. unfold identityIsFreshAllocation, descriptor, read, mbind, interning_bind.
  rewrite Hd. do 4 (split; [done|]). intros f Hwf Hef. cbn [namingOf nameOf fieldOf elementOf freshOf copyOf].
  by assert (descriptors f !! identity = Some d) as -> by (eapply lookup_weaken; [done|apply Hef]).
Qed.

Lemma follows_copy v identity pre : addressed v = false ->
  follows (fun i => pre i /\ isNamed v identity i) (copySource identity) (fun n => copyOf n identity) (fun _ i => pre i).
Proof.
  intros Ha i Hw [Hp Hv]. exists (copySources i !! identity), i. do 4 (split; [done|]). intros f Hwf Hef. cbn [namingOf nameOf fieldOf elementOf freshOf copyOf].
  apply (ex_copies _ _ Hef); [by eapply wf_values|]. intros key. eapply wf_plain; [done|done|]. by eapply stable_named.
Qed.
End Ranked.
End Facts.
