(* ===== verification/Alias.v ===== *)
(** * Flow-sensitive aliases

    [goplint/protocol_alias_analysis.go]: for every instruction of a function, which object
    each value must be or may be, and what each memory cell must or may hold.  The snapshots
    and their operations are plain functions; the transfer of an instruction and the worklist
    name values and addresses through [Interning]. *)

From S2P Require Export ProtocolDomain Identity.
Local Open Scope Z_scope.

Inductive protocolAliasResolution := protocolAliasUnknown | protocolAliasMust | protocolAliasAmbiguous.

#[export] Instance protocolAliasResolution_eq_dec : EqDecision protocolAliasResolution.
Proof. solve_decision. Defined.

(** ** Snapshots *)
Record protocolAliasSnapshot := mkSnapshot {
  must : gmap protocolIdentity protocolIdentity;
  ambiguous : gset protocolIdentity;
  possible : gmap protocolIdentity (gset protocolIdentity);
  memoryMust : gmap protocolIdentity protocolIdentity;
  memoryAmbiguous : gset protocolIdentity;
  memoryPossible : gmap protocolIdentity (gset protocolIdentity);
}.

#[export] Instance protocolAliasSnapshot_eq_dec : EqDecision protocolAliasSnapshot.
Proof. solve_decision. Defined.

Definition newProtocolAliasSnapshot : protocolAliasSnapshot := mkSnapshot ∅ ∅ ∅ ∅ ∅ ∅.

(** [slices.Sort] of identities collected from a map. *)
Definition sorted (objects : gset protocolIdentity) : list protocolIdentity := merge_sort Z.le (elements objects).

Definition resolve (s : protocolAliasSnapshot) (identity : protocolIdentity) : protocolIdentity * protocolAliasResolution :=
  if bool_decide (identity ∈ ambiguous s) then (0, protocolAliasAmbiguous)
  else match must s !! identity with
       | None => (0, protocolAliasUnknown)
       | Some object => (object, protocolAliasMust)
       end.

Definition possibleObjects (s : protocolAliasSnapshot) (identity : protocolIdentity) : list protocolIdentity :=
  match must s !! identity with
  | Some object => [object]
  | None => sorted (default ∅ (possible s !! identity))
  end.

Definition mayResolveTo (s : protocolAliasSnapshot) (identity object : protocolIdentity) : bool :=
  match must s !! identity with
  | Some resolved => resolved =? object
  | None =>
      if negb (bool_decide (identity ∈ ambiguous s)) then false
      else match possible s !! identity with
           | None => true
           | Some candidates => bool_decide (object ∈ candidates)
           end
  end.

Definition bind (identity object : protocolIdentity) (s : protocolAliasSnapshot) : protocolAliasSnapshot :=
  mkSnapshot (<[identity := object]> (must s)) (ambiguous s ∖ {[identity]}) (delete identity (possible s))
    (memoryMust s) (memoryAmbiguous s) (memoryPossible s).

(** The objects other than the missing one. *)
Definition nonzero (l : list protocolIdentity) : gset protocolIdentity := list_to_set (filter (fun o => o <> 0) l).

Definition markAmbiguous (identity : protocolIdentity) (candidates : list protocolIdentity) (s : protocolAliasSnapshot)
    : protocolAliasSnapshot :=
  mkSnapshot (delete identity (must s)) ({[identity]} ∪ ambiguous s)
    (if bool_decide (nonzero candidates = ∅) then delete identity (possible s)
     else <[identity := nonzero candidates]> (possible s))
    (memoryMust s) (memoryAmbiguous s) (memoryPossible s).

Definition copyBinding (identity source : protocolIdentity) (s : protocolAliasSnapshot) : protocolAliasSnapshot :=
  match resolve s source with
  | (object, protocolAliasMust) => bind identity object s
  | _ => markAmbiguous identity (possibleObjects s source) s
  end.

(** ** Memory *)
Definition possibleMemoryObjects (s : protocolAliasSnapshot) (address : protocolIdentity) : list protocolIdentity :=
  sorted (union_list (map (fun cell =>
    match memoryMust s !! cell with Some object => {[object]} | None => ∅ end ∪ default ∅ (memoryPossible s !! cell))
    (possibleObjects s address))).

Definition resolveMemory (s : protocolAliasSnapshot) (address : protocolIdentity)
    : protocolIdentity * protocolAliasResolution :=
  let addressObjects := possibleObjects s address in
  let objects := possibleMemoryObjects s address in
  let otherwise := match objects with [] => (0, protocolAliasUnknown) | _ => (0, protocolAliasAmbiguous) end in
  match snd (resolve s address), addressObjects with
  | protocolAliasUnknown, _ | _, [] => (0, protocolAliasUnknown)
  | protocolAliasMust, [cell] =>
      match objects, memoryMust s !! cell with
      | [_], Some object => (object, protocolAliasMust)
      | _, _ => otherwise
      end
  | _, _ => otherwise
  end.

Definition markMemoryAmbiguous (cell : protocolIdentity) (candidates : list protocolIdentity) (s : protocolAliasSnapshot)
    : protocolAliasSnapshot :=
  let candidates := match memoryMust s !! cell with Some object => candidates ++ [object] | None => candidates end in
  mkSnapshot (must s) (ambiguous s) (possible s) (delete cell (memoryMust s)) ({[cell]} ∪ memoryAmbiguous s)
    (match candidates with
     | [] => delete cell (memoryPossible s)
     | _ => <[cell := default ∅ (memoryPossible s !! cell) ∪ nonzero candidates]> (memoryPossible s)
     end).

Definition setMemory (cell object : protocolIdentity) (s : protocolAliasSnapshot) : protocolAliasSnapshot :=
  mkSnapshot (must s) (ambiguous s) (possible s) (<[cell := object]> (memoryMust s)) (memoryAmbiguous s ∖ {[cell]})
    (delete cell (memoryPossible s)).

(** A store through an address that may be anything. *)
Definition storeAnywhere (s : protocolAliasSnapshot) : protocolAliasSnapshot :=
  foldl (fun s cell => markMemoryAmbiguous cell [] s) s (elements (dom (memoryMust s))).

Definition store (address object : protocolIdentity) (s : protocolAliasSnapshot) : protocolAliasSnapshot :=
  let addressObjects := possibleObjects s address in
  match snd (resolve s address), addressObjects with
  | protocolAliasUnknown, _ | _, [] => storeAnywhere s
  | _, _ =>
      let valueObjects := possibleObjects s object in
      match addressObjects, snd (resolve s object), valueObjects with
      | [cell], protocolAliasMust, [stored] => setMemory cell stored s
      | _, _, _ => foldl (fun s cell => markMemoryAmbiguous cell valueObjects s) s addressObjects
      end
  end.

Definition load (identity address : protocolIdentity) (s : protocolAliasSnapshot) : protocolAliasSnapshot :=
  match resolveMemory s address with
  | (object, protocolAliasMust) => bind identity object s
  | (_, protocolAliasAmbiguous) => markAmbiguous identity (possibleMemoryObjects s address) s
  | (_, protocolAliasUnknown) => markAmbiguous identity [] s
  end.

(** ** Escapes *)
Definition killObject (identity : protocolIdentity) (s : protocolAliasSnapshot) : protocolAliasSnapshot :=
  let kill object :=
    markAmbiguous identity [object]
      (foldl (fun s candidate => markAmbiguous candidate [object] s) s
         (elements (dom (filter (fun p => p.2 = object) (must s))))) in
  match resolve s identity with
  | (_, protocolAliasAmbiguous) => markAmbiguous identity (possibleObjects s identity) s
  | (_, protocolAliasUnknown) => kill identity
  | (object, protocolAliasMust) => kill object
  end.

Definition cellObjects (s : protocolAliasSnapshot) (cell : protocolIdentity) : list protocolIdentity :=
  match memoryMust s !! cell with Some object => [object] | None => [] end ++ elements (default ∅ (memoryPossible s !! cell)).

Definition escape (identity : protocolIdentity) (s : protocolAliasSnapshot) : protocolAliasSnapshot :=
  killObject identity (foldl (fun s cell => markMemoryAmbiguous cell (cellObjects s cell) s) s (possibleObjects s identity)).

(** ** Joins *)
Definition possibilities (s : protocolAliasSnapshot) (identity : protocolIdentity) : gset protocolIdentity :=
  match must s !! identity with Some object => {[object]} | None => default ∅ (possible s !! identity) end.

Definition identitiesOf (s : protocolAliasSnapshot) : gset protocolIdentity := dom (must s) ∪ ambiguous s.

(** What both sides bind to the same object stays bound; all else either side knows is ambiguous. *)
Definition agreed (s other : protocolAliasSnapshot) (identity : protocolIdentity) : option protocolIdentity :=
  match must s !! identity, must other !! identity with
  | Some x, Some y => if x =? y then Some x else None
  | _, _ => None
  end.

Definition joinIdentity (s other : protocolAliasSnapshot) (joined : protocolAliasSnapshot) (identity : protocolIdentity)
    : protocolAliasSnapshot :=
  match agreed s other identity with
  | Some object =>
      mkSnapshot (<[identity := object]> (must joined)) (ambiguous joined) (possible joined) ∅ ∅ ∅
  | None =>
      let candidates := possibilities s identity ∪ possibilities other identity in
      mkSnapshot (must joined) ({[identity]} ∪ ambiguous joined)
        (if bool_decide (candidates = ∅) then possible joined else <[identity := candidates]> (possible joined)) ∅ ∅ ∅
  end.

Definition joinProtocolAliasBindings (s other : protocolAliasSnapshot) : protocolAliasSnapshot :=
  foldl (joinIdentity s other) newProtocolAliasSnapshot (elements (identitiesOf s ∪ identitiesOf other)).

(** The memory of a snapshot as bindings. *)
Definition memoryOf (s : protocolAliasSnapshot) : protocolAliasSnapshot :=
  mkSnapshot (memoryMust s) (memoryAmbiguous s) (memoryPossible s) ∅ ∅ ∅.

Definition join (s other : protocolAliasSnapshot) : protocolAliasSnapshot :=
  let joined := joinProtocolAliasBindings s other in
  if bool_decide (memoryMust s = ∅) && bool_decide (memoryAmbiguous s = ∅) &&
     bool_decide (memoryMust other = ∅) && bool_decide (memoryAmbiguous other = ∅)
  then joined
  else
    let memory := joinProtocolAliasBindings (memoryOf s) (memoryOf other) in
    mkSnapshot (must joined) (ambiguous joined) (possible joined) (must memory) (ambiguous memory) (possible memory).

(** [equal] compares the maps entry by entry. *)
Definition samePossible (p q : gmap protocolIdentity (gset protocolIdentity)) : bool :=
  Nat.eqb (size p) (size q) &&
  forallb (fun entry => bool_decide (snd entry = default ∅ (q !! fst entry))) (map_to_list p).

Definition equal (s other : protocolAliasSnapshot) : bool :=
  bool_decide (must s = must other) && bool_decide (ambiguous s = ambiguous other) &&
  bool_decide (memoryMust s = memoryMust other) && bool_decide (memoryAmbiguous s = memoryAmbiguous other) &&
  samePossible (possible s) (possible other) && samePossible (memoryPossible s) (memoryPossible other).

(** ** Transfer *)
(** The states at the ends of the blocks. *)
Abbreviation outs := (gmap nat protocolAliasSnapshot).

Section Monadic.
Context {M : Type -> Type} {IM : Interning M}.

Fixpoint foldM {A B} (step : A -> B -> M A) (l : list B) (a : A) : M A :=
  match l with [] => mret a | b :: l => a' ← step a b; foldM step l a' end.

Section Heap.
Context (heap : value -> ssaValue).

(** A value of these types gives whoever holds it access to the object. *)
Definition protocolValueMayCarryMutableIdentity (v : value) : bool :=
  match typeOf (heap v) with
  | Some (TypePointer _ | TypeSlice | TypeMap | TypeInterface | TypeChan | TypeSignature) => true
  | _ => false
  end.

Definition isGlobal (v : value) : bool := match kind (heap v) with Global _ => true | _ => false end.

Definition protocolAliasStoreEscapes (address : value) : bool :=
  match kind (heap address) with
  | Global _ => true
  | FieldAddr X _ => isGlobal X
  | _ => false
  end.

Definition protocolClosureEscapes (closure : value) (referrers : option (list referrer)) : bool :=
  match referrers with
  | None => true
  | Some referrers =>
      existsb (fun r => match r with
        | ReferDebug => false
        | ReferCall v | ReferDefer v => negb (Nat.eqb v closure)
        | ReferOther => true
        end) referrers
  end.

Definition escapeProtocolValue (s : protocolAliasSnapshot) (v : value) : M protocolAliasSnapshot :=
  if negb (protocolValueMayCarryMutableIdentity v) then mret s
  else identity ← i_value v; mret (escape identity s).

Definition escapeCallArguments (call : callCommon) (s : protocolAliasSnapshot) : M protocolAliasSnapshot :=
  s ← match kind (heap (callValue call)) with
      | MakeClosure _ bindings _ => foldM escapeProtocolValue bindings s
      | _ => mret s
      end;
  foldM escapeProtocolValue (callArgs call) s.

Definition initializeFreshCell (cell base : protocolIdentity) (s : protocolAliasSnapshot) : M protocolAliasSnapshot :=
  if cell =? 0 then mret s
  else
    fresh ← i_fresh base;
    mret (if negb fresh || bool_decide (is_Some (memoryMust s !! cell)) || bool_decide (cell ∈ memoryAmbiguous s) then s
          else mkSnapshot (must s) (ambiguous s) (possible s) (<[cell := cell]> (memoryMust s)) (memoryAmbiguous s) (memoryPossible s)).

(** The cell of one of the objects that a base may be. *)
Definition derivedCell (derive : protocolIdentity -> M protocolIdentity) (r : protocolAliasSnapshot * list protocolIdentity)
    (object : protocolIdentity) : M (protocolAliasSnapshot * list protocolIdentity) :=
  cell ← derive object;
  s ← initializeFreshCell cell object (fst r);
  mret (s, snd r ++ [cell]).

Definition derivedAmbiguous (identity : protocolIdentity) (derive : protocolIdentity -> M protocolIdentity)
    (objects : list protocolIdentity) (s : protocolAliasSnapshot) : M protocolAliasSnapshot :=
  r ← foldM (derivedCell derive) objects (s, []);
  mret (markAmbiguous identity (snd r) (fst r)).

Definition bindDerivedAddress (identity base : protocolIdentity) (derive : protocolIdentity -> M protocolIdentity)
    (s : protocolAliasSnapshot) : M protocolAliasSnapshot :=
  match resolve s base with
  | (object, protocolAliasMust) =>
      derived ← derive object;
      s ← initializeFreshCell derived object s;
      mret (bind identity derived s)
  | _ => derivedAmbiguous identity derive (possibleObjects s base) s
  end.

Definition outOf (out : outs) (block : nat) : protocolAliasSnapshot := default newProtocolAliasSnapshot (out !! block).

Record phiState := mkPhi { phiPossible : gset protocolIdentity; allMust : bool; hasReachedEdge : bool }.

Definition phiEdge (preds : list nat) (out : outs) (reached : gset nat) (st : phiState) (e : nat * value) : M phiState :=
  match preds !! fst e with
  | None => mret st
  | Some pred =>
      if negb (bool_decide (pred ∈ reached)) then mret st
      else
        edgeIdentity ← i_value (snd e);
        mret (match resolve (outOf out pred) edgeIdentity with
              | (object, protocolAliasMust) => mkPhi ({[object]} ∪ phiPossible st) (allMust st) true
              | _ => mkPhi (list_to_set (possibleObjects (outOf out pred) edgeIdentity) ∪ phiPossible st) false true
              end)
  end.

Definition transferProtocolPhi (s : protocolAliasSnapshot) (identity : protocolIdentity) (edges : list value)
    (preds : list nat) (out : outs) (reached : gset nat) : M protocolAliasSnapshot :=
  st ← foldM (phiEdge preds out reached) (imap (fun i e => (i, e)) edges) (mkPhi ∅ true false);
  let objects := sorted (phiPossible st) in
  mret (match hasReachedEdge st, objects with
        | false, _ | _, [] => markAmbiguous identity [] s
        | true, _ =>
            match allMust st, objects with
            | true, [object] => bind identity object s
            | _, _ => markAmbiguous identity objects s
            end
        end).

(** A value that is no address, phi or load: a copy, or an object of its own. *)
Definition transferCopy (s : protocolAliasSnapshot) (identity : protocolIdentity) : M protocolAliasSnapshot :=
  source ← i_copy identity;
  mret (match source with Some source => copyBinding identity source s | None => bind identity identity s end).

(** What a closure captures escapes with it. *)
Definition escapeBindings (s : protocolAliasSnapshot) (v : value) : M protocolAliasSnapshot :=
  match kind (heap v) with
  | MakeClosure _ bindings referrers =>
      if protocolClosureEscapes v referrers then foldM escapeProtocolValue bindings s else mret s
  | _ => mret s
  end.

Definition transferProtocolAliasValue (s : protocolAliasSnapshot) (v : value) (preds : list nat) (out : outs)
    (reached : gset nat) : M protocolAliasSnapshot :=
  identity ← i_value v;
  s ← escapeBindings s v;
  match kind (heap v) with
  | FieldAddr X field =>
      base ← i_value X;
      bindDerivedAddress identity base
        (fun object => i_field object field (protocolStaticFieldName (typeOf (heap X)) field) (pos (heap v))) s
  | IndexAddr X index =>
      match protocolStaticIndex heap index with
      | None => mret (markAmbiguous identity [] s)
      | Some index =>
          base ← i_value X;
          bindDerivedAddress identity base (fun object => i_index object index (pos (heap v))) s
      end
  | Phi edges => transferProtocolPhi s identity edges preds out reached
  | UnOp op X =>
      if String.eqb op "*" then address ← i_value X; mret (load identity address s) else transferCopy s identity
  | _ => transferCopy s identity
  end.

Definition transferProtocolAliasInstruction (s : protocolAliasSnapshot) (i : instruction) (preds : list nat) (out : outs)
    (reached : gset nat) : M protocolAliasSnapshot :=
  match i with
  | Store address stored =>
      a ← i_value address;
      o ← i_value stored;
      let s := store a o s in
      if protocolAliasStoreEscapes address then escapeProtocolValue s stored else mret s
  | Send X => escapeProtocolValue s X
  | MapUpdate _ key stored => s ← escapeProtocolValue s key; escapeProtocolValue s stored
  | Go call => escapeCallArguments call s
  | Return results => foldM escapeProtocolValue results s
  | Define v => transferProtocolAliasValue s v preds out reached
  | _ => mret s
  end.

(** ** The worklist *)
Section Function.
Context (fn : functionBody).

Definition bindSelf (s : protocolAliasSnapshot) (v : value) : M protocolAliasSnapshot :=
  identity ← i_value v; mret (bind identity identity s).

Definition joinReached (out : outs) (reached : gset nat) (acc : option protocolAliasSnapshot) (pred : nat)
    : option protocolAliasSnapshot :=
  if negb (bool_decide (pred ∈ reached)) then acc
  else Some (match acc with None => outOf out pred | Some s => join s (outOf out pred) end).

(** The state before a block; [None] when no predecessor was reached. *)
Definition protocolAliasInputState (b : nat) (block : basicBlock) (out : outs) (reached : gset nat)
    : M (option protocolAliasSnapshot) :=
  if Nat.eqb b 0 then
    s ← foldM bindSelf (fnParams fn) newProtocolAliasSnapshot;
    s ← foldM bindSelf (fnFreeVars fn) s;
    mret (Some s)
  else mret (foldl (joinReached out reached) None (merge_sort Nat.le (preds block))).

Record protocolAliasAnalysis := mkAnalysis {
  before : gmap (nat * nat) protocolAliasSnapshot;
  after : gmap (nat * nat) protocolAliasSnapshot;
}.

Record worklist := mkWorklist {
  found : protocolAliasAnalysis;
  out : outs;
  reached : gset nat;
  queue : list nat;
  inQueue : gset nat;
}.

(** The instructions of a block from its [i]-th on. *)
Fixpoint transferBlock (b : nat) (block : basicBlock) (out : outs) (reached : gset nat) (i : nat) (instructions : list instruction)
    (s : protocolAliasSnapshot) (a : protocolAliasAnalysis) : M (protocolAliasSnapshot * protocolAliasAnalysis) :=
  match instructions with
  | [] => mret (s, a)
  | instruction :: rest =>
      s' ← transferProtocolAliasInstruction s instruction (preds block) out reached;
      transferBlock b block out reached (i + 1) rest s'
        (mkAnalysis (<[(b, i) := s]> (before a)) (<[(b, i) := s']> (after a)))
  end.

Definition enqueueBlock (q : list nat * gset nat) (b : nat) : list nat * gset nat :=
  if bool_decide (b ∈ snd q) then q else (fst q ++ [b], {[b]} ∪ snd q).

(** One iteration: the first block of the queue. *)
Definition visitBlock (b : nat) (rest : list nat) (w : worklist) : M worklist :=
  let inQ := inQueue w ∖ {[b]} in
  match blockAt fn b with
  | None => mret (mkWorklist (found w) (out w) (reached w) rest inQ)
  | Some block =>
      input ← protocolAliasInputState b block (out w) (reached w);
      match input with
      | None => mret (mkWorklist (found w) (out w) (reached w) rest inQ)
      | Some s =>
          let reached := {[b]} ∪ reached w in
          r ← transferBlock b block (out w) reached 0 (instrs block) s (found w);
          let unchanged := match out w !! b with Some previous => equal previous (fst r) | None => false end in
          mret (if unchanged then mkWorklist (snd r) (out w) reached rest inQ
                else
                  let q := foldl enqueueBlock (rest, inQ) (succs block) in
                  mkWorklist (snd r) (<[b := fst r]> (out w)) reached (fst q) (snd q))
      end
  end.

Fixpoint runWorklist (fuel : nat) (w : worklist) : M (option worklist) :=
  match queue w with
  | [] => mret (Some w)
  | b :: rest =>
      match fuel with
      | O => mret None
      | S fuel' => w' ← visitBlock b rest w; runWorklist fuel' w'
      end
  end.

Definition initialWorklist : worklist :=
  let all := seq 0 (length (blocks fn)) in mkWorklist (mkAnalysis ∅ ∅) ∅ ∅ all (list_to_set all).

(** [None] when the queue is not empty after [fuel] iterations. *)
Definition analyzeProtocolAliases (fuel : nat) : M (option protocolAliasAnalysis) :=
  runWorklist fuel initialWorklist ≫= fun w : option worklist => mret (option_map found w).

(** ** Queries *)
Definition snapshotBefore (a : protocolAliasAnalysis) (i : nat * nat) : option protocolAliasSnapshot := before a !! i.

Definition resolveBefore (a : protocolAliasAnalysis) (i : nat * nat) (v : value) : M (protocolIdentity * protocolAliasResolution) :=
  match snapshotBefore a i with
  | None => mret (0, protocolAliasUnknown)
  | Some s => identity ← i_value v; mret (resolve s identity)
  end.

Definition uncertaintyBefore (a : protocolAliasAnalysis) (i : nat * nat) (v : value) : M Z :=
  r ← resolveBefore a i v;
  mret (if bool_decide (snd r = protocolAliasAmbiguous) then protocolUncertaintyAmbiguousIdentity else 0).

Definition resolvePointeeBefore (a : protocolAliasAnalysis) (i : nat * nat) (address : value)
    : M (protocolIdentity * protocolAliasResolution) :=
  match snapshotBefore a i with
  | None => mret (0, protocolAliasUnknown)
  | Some s => identity ← i_value address; mret (resolveMemory s identity)
  end.

Definition mayAliasBefore (a : protocolAliasAnalysis) (i : nat * nat) (v : value) (object : protocolIdentity) : M bool :=
  if object =? 0 then mret false
  else match snapshotBefore a i with
       | None => mret false
       | Some s => identity ← i_value v; mret (mayResolveTo s identity object)
       end.

Definition pointeeMayAliasBefore (a : protocolAliasAnalysis) (i : nat * nat) (address : value) (object : protocolIdentity)
    : M bool :=
  if object =? 0 then mret false
  else match snapshotBefore a i with
       | None => mret false
       | Some s => identity ← i_value address; mret (bool_decide (object ∈ possibleMemoryObjects s identity))
       end.
End Function.
End Heap.
End Monadic.
