(* ===== verification/AliasSemantics.v ===== *)
(** * What aliases mean

    The executions that [goplint/protocol_alias_analysis.go] describes, by provenance: an
    object is named by the value that made it, an address by the object and the field or index
    it comes from, and a register or a cell holds such a name.  An instruction that hands the
    address of a cell to others lets them write the cell; calls write no cell.  A snapshot is
    sound for a state when what it resolves is what the registers and cells hold; every
    operation of a snapshot keeps it so. *)

From S2P Require Export Alias.
Local Open Scope Z_scope.

(** ** Executions *)

(** The registers hold what the values of the function are, the cells what they contain. *)
Record state := mkState { registers : gmap protocolIdentity protocolIdentity; cells : gmap protocolIdentity protocolIdentity }.

(** A value that no instruction defines is an object of its own, and so is the content of a
    cell that was never written. *)
Definition held (identity : protocolIdentity) (st : state) : protocolIdentity := default identity (registers st !! identity).
Definition content (cell : protocolIdentity) (st : state) : protocolIdentity := default cell (cells st !! cell).

Definition assign (identity : protocolIdentity) (o : protocolIdentity) (st : state) : state :=
  mkState (<[identity := o]> (registers st)) (cells st).
Definition write (cell : protocolIdentity) (o : protocolIdentity) (st : state) : state :=
  mkState (registers st) (<[cell := o]> (cells st)).

Section Executions.
Context (heap : value -> ssaValue) (n : naming) (fn : functionBody).

(** What a value may be computed to; [entry] is the state at the end of the predecessor [from]. *)
Inductive computes (predecessors : list nat) (from : nat) (entry st : state) (v : value) : protocolIdentity -> Prop :=
  | computesField X field : kind (heap v) = FieldAddr X field ->
      computes predecessors from entry st v (fieldOf n (held (nameOf n X) st) field)
  | computesElement X index i : kind (heap v) = IndexAddr X index -> protocolStaticIndex heap index = Some i ->
      computes predecessors from entry st v (elementOf n (held (nameOf n X) st) i)
  | computesAnyElement X index o : kind (heap v) = IndexAddr X index -> protocolStaticIndex heap index = None ->
      computes predecessors from entry st v o
  | computesPhi edges k e : kind (heap v) = Phi edges -> edges !! k = Some e -> predecessors !! k = Some from ->
      computes predecessors from entry st v (held (nameOf n e) entry)
  | computesLoad X : kind (heap v) = UnOp "*" X ->
      computes predecessors from entry st v (content (held (nameOf n X) st) st)
  | computesOther : match kind (heap v) with FieldAddr _ _ | IndexAddr _ _ | Phi _ => False | UnOp op _ => op <> "*" | _ => True end ->
      computes predecessors from entry st v
        (match copyOf n (nameOf n v) with Some source => held source st | None => nameOf n v end).

(** The values that an instruction hands to others: what is sent, put in a map, returned,
    passed to a goroutine, stored in a global, or captured by a closure that is used
    otherwise than by calling it. *)
Definition handedOut (i : instruction) : list value :=
  filter (fun v => protocolValueMayCarryMutableIdentity heap v = true)
    match i with
    | Store address stored => if protocolAliasStoreEscapes heap address then [stored] else []
    | Send X => [X]
    | MapUpdate _ key stored => [key; stored]
    | Go call =>
        match kind (heap (callValue call)) with MakeClosure _ bindings _ => bindings | _ => [] end ++ callArgs call
    | Return results => results
    | Define v =>
        match kind (heap v) with
        | MakeClosure _ bindings referrers => if protocolClosureEscapes v referrers then bindings else []
        | _ => []
        end
    | _ => []
    end.

(** What an instruction writes itself. *)
Definition plain (i : instruction) (st : state) : state :=
  match i with
  | Store address stored => write (held (nameOf n address) st) (held (nameOf n stored) st) st
  | _ => st
  end.

(** Who is handed an address may write the cell there; identity 0 names no cell. *)
Record interferes (i : instruction) (st st' : state) : Prop := {
  i_registers : registers st' = registers st;
  i_cells cell : content cell st' = content cell (plain i st) \/
    exists v, v ∈ handedOut i /\ cell = held (nameOf n v) st /\ cell <> 0;
}.

(** Apart from such interference, calls and the like write no cell of the function. *)
Inductive executes (predecessors : list nat) (from : nat) (entry st : state) : instruction -> state -> Prop :=
  | executesDefine v o st' : interferes (Define v) st st' -> computes predecessors from entry st' v o ->
      executes predecessors from entry st (Define v) (assign (nameOf n v) o st')
  | executesOther i st' : match i with Define _ => False | _ => True end -> interferes i st st' ->
      executes predecessors from entry st i st'.

Definition initialState : state :=
  mkState (foldl (fun r v => <[nameOf n v := nameOf n v]> r) ∅ (fnParams fn ++ fnFreeVars fn)) ∅.

(** An execution is before the [next] instruction of the [at_block]. *)
Record point := mkPoint { at_block : nat; from_block : nat; next : nat; entered : state; now : state }.

(** The points of the executions whose instructions satisfy [ok]. *)
Inductive reaches (ok : nat * nat -> instruction -> state -> state -> Prop) : point -> Prop :=
  | reachesEntry : reaches ok (mkPoint 0 0 0 initialState initialState)
  | reachesNext b from i entry st block instruction st' :
      reaches ok (mkPoint b from i entry st) -> blockAt fn b = Some block -> instrs block !! i = Some instruction ->
      ok (b, i) instruction st st' -> executes (preds block) from entry st instruction st' ->
      reaches ok (mkPoint b from (S i) entry st')
  | reachesJump b from entry st block c :
      reaches ok (mkPoint b from (length (instrs block)) entry st) -> blockAt fn b = Some block -> c ∈ succs block ->
      reaches ok (mkPoint c b 0 st st).

Lemma interferes_plain i st : interferes i st (plain i st).
Proof. split; [by destruct i|]. intros cell. by left. Qed.

Lemma executes_plain predecessors from entry st i : match i with Define _ => False | _ => True end ->
  executes predecessors from entry st i (plain i st).
Proof. intros Hi. apply executesOther; [done|apply interferes_plain]. Qed.

Lemma executes_define predecessors from entry st v o : computes predecessors from entry st v o ->
  executes predecessors from entry st (Define v) (assign (nameOf n v) o st).
Proof. apply executesDefine, (interferes_plain (Define v)). Qed.
End Executions.

(** An execution in which nobody interferes. *)
Definition undisturbed (n : naming) (p : nat * nat) (i : instruction) (st st' : state) : Prop :=
  forall cell, content cell st' = content cell (plain n i st).

(** ** Soundness *)
Record describes (s : protocolAliasSnapshot) (st : state) : Prop := {
  d_must : forall identity o, must s !! identity = Some o -> registers st !! identity = Some o;
  d_memory : forall cell o, memoryMust s !! cell = Some o -> content cell st = o;
  d_initial : forall cell, memoryMust s !! cell = None -> cell ∉ memoryAmbiguous s -> content cell st = cell;
}.

(** What makes a snapshot describe a state: the candidates play no part. *)
Definition similar (s s' : protocolAliasSnapshot) : Prop :=
  must s = must s' /\ memoryMust s = memoryMust s' /\ memoryAmbiguous s = memoryAmbiguous s'.

Lemma similar_describes s s' st : similar s s' -> describes s st -> describes s' st.
Proof. intros (H1 & H2 & H3) [D1 D2 D3]. rewrite H1, H2, H3 in *. by split. Qed.

Lemma equal_similar s s' : equal s s' = true -> similar s s'.
Proof. unfold equal. rewrite !andb_true_iff, !bool_decide_eq_true. intros [[[[[H1 _] H3] H4] _] _]. by split. Qed.

(** A snapshot that claims less describes as much: [weaker] binds no more values or cells, and
    forgets no cell. *)
Record weaker (s s' : protocolAliasSnapshot) : Prop := {
  w_must : must s' ⊆ must s;
  w_memory : memoryMust s' ⊆ memoryMust s;
  w_cells : forall cell, memoryMust s' !! cell = None -> cell ∉ memoryAmbiguous s' -> memoryMust s !! cell = None /\ cell ∉ memoryAmbiguous s;
}.

Lemma weaker_describes s s' st : weaker s s' -> describes s st -> describes s' st.
Proof.
  intros [W1 W2 W3] [D1 D2 D3]. split.
  - intros k o Hk. apply D1. by eapply lookup_weaken.
  - intros k o Hk. apply D2. by eapply lookup_weaken.
  - intros k Hk Hn. destruct (W3 k Hk Hn). auto.
Qed.

#[export] Instance weaker_preorder : PreOrder weaker.
Proof.
  split; [by split|]. intros a b c [A1 A2 A3] [B1 B2 B3].
  split; [by etransitivity|by etransitivity|]. intros k Hk Hn. destruct (B3 k Hk Hn). auto.
Qed.

Lemma weaker_markAmbiguous identity candidates s : weaker s (markAmbiguous identity candidates s).
Proof. split; cbn; [apply delete_subseteq|done|done]. Qed.

Lemma weaker_markMemory cell candidates s : weaker s (markMemoryAmbiguous cell candidates s).
Proof.
  split; cbn; [done|apply delete_subseteq|]. intros k Hk Hn. assert (k <> cell) by set_solver. rewrite lookup_delete_ne in Hk by done. set_solver.
Qed.

Lemma weaker_foldl {B} (step : protocolAliasSnapshot -> B -> protocolAliasSnapshot) l s :
  (forall s b, weaker s (step s b)) -> weaker s (foldl step s l).
Proof. intros H. revert s. induction l as [|b l IH]; intros s; cbn; [done|]. by rewrite <- IH. Qed.

Lemma weaker_kill identity s : weaker s (killObject identity s).
Proof.
  unfold killObject. destruct (resolve s identity) as [o []]; [|..|apply weaker_markAmbiguous];
    (etransitivity; [eapply weaker_foldl|apply weaker_markAmbiguous]; intros; apply weaker_markAmbiguous).
Qed.

Lemma weaker_escape identity s : weaker s (escape identity s).
Proof. unfold escape. etransitivity; [|apply weaker_kill]. eapply weaker_foldl. intros. apply weaker_markMemory. Qed.

(** ** Joins *)
Section Join.
Context (s other : protocolAliasSnapshot).

Lemma must_joinIdentities l k : forall j, must (foldl (joinIdentity s other) j l) !! k =
  match agreed s other k with Some o => if bool_decide (k ∈ l) then Some o else must j !! k | None => must j !! k end.
Proof.
  induction l as [|k0 l IH]; intros j; cbn [foldl]; [by case_match|]. rewrite IH. unfold joinIdentity.
  destruct (decide (k0 = k)) as [->|Hne].
  - destruct (agreed s other k) eqn:E; cbn; [|done]. rewrite (bool_decide_true (k ∈ k :: l)) by left. rewrite lookup_insert_eq. by case_match.
  - assert (bool_decide (k ∈ k0 :: l) = bool_decide (k ∈ l)) as -> by (apply bool_decide_ext; rewrite elem_of_cons; naive_solver).
    destruct (agreed s other k0); cbn; by rewrite ?lookup_insert_ne.
Qed.

Lemma ambiguous_joinIdentities l k : forall j,
  k ∈ ambiguous (foldl (joinIdentity s other) j l) <-> (k ∈ l /\ agreed s other k = None) \/ k ∈ ambiguous j.
Proof.
  induction l as [|k0 l IH]; intros j; cbn [foldl]; [by rewrite elem_of_nil; tauto|]. rewrite IH, elem_of_cons. unfold joinIdentity.
  destruct (agreed s other k0) eqn:E; cbn; [|rewrite elem_of_union, elem_of_singleton]; split; try tauto.
  - intros [[[->|?] ?]|?]; [congruence|tauto..].
  - intros [?|[->|?]]; tauto.
Qed.

Lemma possible_joinIdentities l k : forall j, possible (foldl (joinIdentity s other) j l) !! k =
  if bool_decide (k ∈ l /\ agreed s other k = None /\ possibilities s k ∪ possibilities other k <> ∅)
  then Some (possibilities s k ∪ possibilities other k) else possible j !! k.
Proof.
  induction l as [|k0 l IH]; intros j; cbn [foldl].
  - rewrite bool_decide_false; [done|]. by intros [?%elem_of_nil _].
  - rewrite IH. unfold joinIdentity. destruct (decide (k0 = k)) as [->|Hne].
    + destruct (agreed s other k) eqn:E; [by rewrite !bool_decide_false by naive_solver|]. cbn.
      destruct (decide (possibilities s k ∪ possibilities other k = ∅)) as [He|He].
      * rewrite (bool_decide_true (_ = ∅)) by done. by rewrite !bool_decide_false by naive_solver.
      * rewrite (bool_decide_true (k ∈ k :: l /\ _)) by (split; [left|done]). rewrite (bool_decide_false (_ = ∅)) by done. rewrite lookup_insert_eq.
        by destruct (bool_decide _).
    + assert (bool_decide (k ∈ k0 :: l /\ agreed s other k = None /\ possibilities s k ∪ possibilities other k <> ∅) =
        bool_decide (k ∈ l /\ agreed s other k = None /\ possibilities s k ∪ possibilities other k <> ∅)) as ->
        by (apply bool_decide_ext; rewrite elem_of_cons; naive_solver).
      destruct (agreed s other k0); cbn; [done|]. destruct (bool_decide (_ = ∅)); [done|]. by rewrite lookup_insert_ne.
Qed.

Lemma agreed_Some k o : agreed s other k = Some o <-> must s !! k = Some o /\ must other !! k = Some o.
Proof.
  unfold agreed. destruct (must s !! k) as [x|], (must other !! k) as [y|]; try naive_solver. destruct (Z.eqb_spec x y); naive_solver.
Qed.

Lemma agreed_known k o : agreed s other k = Some o -> k ∈ elements (identitiesOf s ∪ identitiesOf other).
Proof.
  intros [H _]%agreed_Some. apply elem_of_elements. unfold identitiesOf. apply elem_of_union_l, elem_of_union_l, elem_of_dom. by exists o.
Qed.

(** Both sides agree on what a join binds. *)
Lemma must_bindings k : must (joinProtocolAliasBindings s other) !! k = agreed s other k.
Proof.
  unfold joinProtocolAliasBindings. rewrite must_joinIdentities. cbn. rewrite lookup_empty.
  destruct (agreed s other k) eqn:E; [|done]. by rewrite bool_decide_true by (by eapply agreed_known).
Qed.

Lemma ambiguous_bindings k :
  k ∈ ambiguous (joinProtocolAliasBindings s other) <-> k ∈ identitiesOf s ∪ identitiesOf other /\ agreed s other k = None.
Proof.
  unfold joinProtocolAliasBindings. rewrite ambiguous_joinIdentities, elem_of_elements. cbn. rewrite elem_of_empty. tauto.
Qed.

Lemma possible_bindings k : possible (joinProtocolAliasBindings s other) !! k =
  if bool_decide (k ∈ identitiesOf s ∪ identitiesOf other /\ agreed s other k = None /\ possibilities s k ∪ possibilities other k <> ∅)
  then Some (possibilities s k ∪ possibilities other k) else None.
Proof.
  unfold joinProtocolAliasBindings. rewrite possible_joinIdentities. cbn. rewrite lookup_empty.
  erewrite bool_decide_ext; [done|]. by rewrite elem_of_elements.
Qed.


Lemma memory_joinIdentities l : forall j, memoryOf j = newProtocolAliasSnapshot ->
  memoryOf (foldl (joinIdentity s other) j l) = newProtocolAliasSnapshot.
Proof.
  induction l as [|k l IH]; intros j Hj; cbn [foldl]; [done|]. apply IH. unfold joinIdentity. by destruct (agreed s other k).
Qed.
End Join.

Lemma bindings_no_memory s other : memoryOf (joinProtocolAliasBindings s other) = newProtocolAliasSnapshot.
Proof. by apply memory_joinIdentities. Qed.

(** The bindings and the memory are joined alike, the shortcut for no memory included. *)
Lemma join_memory s other : memoryOf (join s other) = joinProtocolAliasBindings (memoryOf s) (memoryOf other).
Proof.
  pose proof (bindings_no_memory (memoryOf s) (memoryOf other)) as Hm. unfold join.
  destruct (_ && _) eqn:E; [|unfold memoryOf in *; cbn in *; destruct (joinProtocolAliasBindings (mkSnapshot _ _ _ _ _ _) _); cbn in *; unfold newProtocolAliasSnapshot in *; simplify_eq; done].
  rewrite bindings_no_memory. rewrite !andb_true_iff, !bool_decide_eq_true in E. destruct E as [[[E1 E2] E3] E4].
  unfold joinProtocolAliasBindings, identitiesOf. cbn [must ambiguous memoryOf]. rewrite E1, E2, E3, E4.
  by replace (elements _) with (@nil protocolIdentity) by (rewrite dom_empty_L, !union_empty_l_L; done).
Qed.

Lemma join_bindings s other : must (join s other) = must (joinProtocolAliasBindings s other) /\
  ambiguous (join s other) = ambiguous (joinProtocolAliasBindings s other) /\
  possible (join s other) = possible (joinProtocolAliasBindings s other).
Proof. unfold join. by destruct (_ && _). Qed.

(** A join claims less than either side. *)
Lemma weaker_join s other : weaker s (join s other) /\ weaker other (join s other).
Proof.
  assert (forall k, (memoryMust (join s other) !! k = agreed (memoryOf s) (memoryOf other) k) /\
    (k ∈ memoryAmbiguous (join s other) <-> k ∈ identitiesOf (memoryOf s) ∪ identitiesOf (memoryOf other) /\ agreed (memoryOf s) (memoryOf other) k = None)) as Hm.
  { intros k. split; [by rewrite <- must_bindings, <- join_memory|by rewrite <- ambiguous_bindings, <- join_memory]. }
  assert (forall k, must (join s other) !! k = agreed s other k) as Hb by (intros k; by rewrite (proj1 (join_bindings s other)), must_bindings).
  split; split; try (apply map_subseteq_spec; intros k o; rewrite ?Hb, ?(proj1 (Hm k)); by intros []%agreed_Some);
    intros k; rewrite (proj1 (Hm k)), (proj2 (Hm k)); intros Ha Hn; rewrite <- not_elem_of_dom; unfold identitiesOf in Hn; cbn in Hn; set_solver.
Qed.

(** ** Operations *)
Lemma lookup_weaker {A} (m m' : gmap protocolIdentity A) k x : m' ⊆ m -> m' !! k = Some x -> m !! k = Some x.
Proof. intros H Hk. by eapply lookup_weaken. Qed.

Lemma resolve_held s st identity o : describes s st -> resolve s identity = (o, protocolAliasMust) -> held identity st = o.
Proof.
  intros Hd. unfold resolve. case_bool_decide; [done|]. destruct (must s !! identity) eqn:E; [|done]. intros [= <-].
  unfold held. by rewrite (d_must s st Hd _ _ E).
Qed.

Lemma resolve_must s identity o : resolve s identity = (o, protocolAliasMust) -> must s !! identity = Some o.
Proof. unfold resolve. case_bool_decide; [done|]. destruct (must s !! identity); [|done]. by intros [= <-]. Qed.

Lemma possible_must s identity o : must s !! identity = Some o -> possibleObjects s identity = [o].
Proof. intros E. unfold possibleObjects. by rewrite E. Qed.

Lemma describes_bind s st identity o : describes s st -> describes (bind identity o s) (assign identity o st).
Proof.
  intros [D1 D2 D3]. split; cbn; [|done|done]. intros k x. rewrite !lookup_insert_Some. intros [[-> ->]|[? Hk]]; [by left|right; auto].
Qed.

Lemma describes_ambiguous s st identity candidates o : describes s st -> describes (markAmbiguous identity candidates s) (assign identity o st).
Proof.
  intros [D1 D2 D3]. split; cbn; [|done|done]. intros k x. rewrite lookup_delete_Some, lookup_insert_Some. intros [? Hk]. right. auto.
Qed.

Lemma describes_copy s st identity source : describes s st -> describes (copyBinding identity source s) (assign identity (held source st) st).
Proof.
  intros Hd. unfold copyBinding. destruct (resolve s source) as [o []] eqn:E; try by apply describes_ambiguous.
  rewrite (resolve_held s st source o Hd E). by apply describes_bind.
Qed.

Lemma resolveMemory_content s st address o : describes s st -> resolveMemory s address = (o, protocolAliasMust) ->
  content (held address st) st = o.
Proof.
  intros Hd. unfold resolveMemory. destruct (resolve s address) as [cell r] eqn:Er. cbn [snd].
  destruct r; cbn; [done| |by repeat case_match]. pose proof (resolve_must _ _ _ Er) as Hm. rewrite (possible_must _ _ _ Hm).
  rewrite (resolve_held _ _ _ _ Hd Er). destruct (possibleMemoryObjects s address) as [|x [|y l]]; try done.
  destruct (memoryMust s !! cell) eqn:E; [|done]. intros [= <-]. by apply (d_memory s st Hd).
Qed.

Lemma describes_load s st identity address : describes s st ->
  describes (load identity address s) (assign identity (content (held address st) st) st).
Proof.
  intros Hd. unfold load. destruct (resolveMemory s address) as [o []] eqn:E; try by apply describes_ambiguous.
  rewrite (resolveMemory_content s st address o Hd E). by apply describes_bind.
Qed.

Lemma content_write cell cell' o st : content cell' (write cell o st) = if decide (cell = cell') then o else content cell' st.
Proof. unfold content, write. cbn. case_decide as H; [subst; by rewrite lookup_insert_eq|by rewrite lookup_insert_ne]. Qed.

Lemma describes_marked s s' st cell o : weaker s s' -> memoryMust s' !! cell = None -> cell ∈ memoryAmbiguous s' ->
  describes s st -> describes s' (write cell o st).
Proof.
  intros Hw Hm Ha Hd. destruct (weaker_describes _ _ _ Hw Hd) as [D1 D2 D3]. split.
  - exact D1.
  - intros k x Hk. rewrite content_write. case_decide; [congruence|auto].
  - intros k Hk Hn. rewrite content_write. case_decide; [congruence|auto].
Qed.

Lemma marked_foldl candidates l cell : cell ∈ l -> forall s,
  let s' := foldl (fun s cell => markMemoryAmbiguous cell candidates s) s l in
  memoryMust s' !! cell = None /\ cell ∈ memoryAmbiguous s'.
Proof.
  intros Hin. induction l as [|c l IH] using rev_ind; intros s; [by apply elem_of_nil in Hin|]. rewrite foldl_snoc. cbn.
  destruct (decide (cell = c)) as [->|Hne]; [split; [apply lookup_delete_eq|set_solver]|].
  rewrite lookup_delete_ne by done. apply elem_of_app in Hin as [Hin| ->%list_elem_of_singleton]; [|done].
  destruct (IH Hin s) as [H1 H2]. split; [done|set_solver].
Qed.

(** A value is resolved, or what it holds is among its candidates. *)
Definition lists (n : naming) (s : protocolAliasSnapshot) (v : value) (st : state) : Prop :=
  snd (resolve s (nameOf n v)) = protocolAliasMust \/
  snd (resolve s (nameOf n v)) = protocolAliasAmbiguous /\ held (nameOf n v) st ∈ possibleObjects s (nameOf n v).

(** The address of a store, and what is handed out to somebody who writes there, is resolved
    or among the candidates. *)
Definition written_where_listed (heap : value -> ssaValue) (n : naming) (s : protocolAliasSnapshot) (i : instruction)
    (st st' : state) : Prop :=
  match i with Store address _ => lists n s address st | _ => True end /\
  forall v, v ∈ handedOut heap i -> content (held (nameOf n v) st) st' <> content (held (nameOf n v) st) (plain n i st) ->
    lists n s v st.

(** An object among the candidates of an identity that is not unknown. *)
Definition candidate (s : protocolAliasSnapshot) (identity object : protocolIdentity) : Prop :=
  snd (resolve s identity) <> protocolAliasUnknown /\ object ∈ possibleObjects s identity.

Lemma lists_candidate n s v st : describes s st -> lists n s v st -> candidate s (nameOf n v) (held (nameOf n v) st).
Proof.
  intros Hd [H|[H Hin]]; [|split; [by rewrite H|done]]. destruct (resolve s (nameOf n v)) as [o r] eqn:E. cbn in H. subst.
  unfold candidate. rewrite E, (possible_must _ _ _ (resolve_must _ _ _ E)), (resolve_held _ _ _ _ Hd E). split; [done|by left].
Qed.

(** ** Escapes *)
Section Escapes.
Context (identity object : protocolIdentity) (Hobject : object <> 0).

Lemma candidate_mark other candidates s :
  (other = identity -> object ∈ candidates) -> candidate s identity object ->
  candidate (markAmbiguous other candidates s) identity object.
Proof.
  intros Hin [Hr Hc]. unfold candidate, resolve, possibleObjects, markAmbiguous in *. cbn.
  destruct (decide (other = identity)) as [->|Hne].
  - rewrite bool_decide_true by set_solver. split; [done|]. rewrite lookup_delete_eq.
    assert (object ∈ nonzero candidates) as Hz.
    { unfold nonzero. apply elem_of_list_to_set, list_elem_of_filter. auto. }
    rewrite bool_decide_false by set_solver. rewrite lookup_insert_eq. cbn. unfold sorted.
    by rewrite merge_sort_Permutation, elem_of_elements.
  - rewrite lookup_delete_ne by done. rewrite (bool_decide_ext _ (identity ∈ ambiguous s)) by set_solver.
    split; [done|]. destruct (must s !! identity); [done|].
    destruct (bool_decide (nonzero candidates = ∅)); [by rewrite lookup_delete_ne|by rewrite lookup_insert_ne].
Qed.

Lemma candidate_must s o : must s !! identity = Some o -> candidate s identity object -> object = o.
Proof. intros H [_ Hc]. unfold possibleObjects in Hc. rewrite H in Hc. by apply list_elem_of_singleton. Qed.

(** Killing an object makes its names ambiguous and keeps their candidates. *)
Lemma candidate_kill other s : candidate s identity object -> candidate (killObject other s) identity object.
Proof.
  intros Hc. unfold killObject. destruct (resolve s other) as [o r] eqn:E.
  assert (forall target, (other = identity -> object = target) ->
    candidate (markAmbiguous other [target] (foldl (fun s c => markAmbiguous c [target] s) s
      (elements (dom (filter (fun p => p.2 = target) (must s)))))) identity object) as Hkill.
  { intros target Ht. apply candidate_mark; [intros Eo; rewrite (Ht Eo); by left|].
    assert (forall c, c ∈ elements (dom (filter (fun p => p.2 = target) (must s))) -> c = identity -> object = target) as Hl.
    { intros c [x Hx]%elem_of_elements%elem_of_dom ->. apply map_lookup_filter_Some in Hx as [Hx Ex]. cbn in Ex. subst.
      by eapply candidate_must. }
    revert Hl Hc. generalize (elements (dom (filter (fun p => p.2 = target) (must s)))) as l. intros l. clear E Ht. revert s.
    induction l as [|c l IH]; intros s Hl Hc; [done|]. cbn. apply IH; [intros; eapply Hl; [by right|done]|].
    apply candidate_mark; [|done]. intros Ec. rewrite (Hl c (list_elem_of_here _ _) Ec). by left. }
  destruct r.
  - apply Hkill. intros ->. destruct Hc as [Hr _]. by rewrite E in Hr.
  - apply Hkill. intros ->. apply (candidate_must s); [by apply resolve_must|done].
  - apply candidate_mark; [|done]. intros ->. apply Hc.
Qed.

Lemma candidate_markMemory cell candidates s :
  candidate (markMemoryAmbiguous cell candidates s) identity object <-> candidate s identity object.
Proof. done. Qed.

Lemma candidate_escape other s : candidate s identity object -> candidate (escape other s) identity object.
Proof.
  intros Hc. unfold escape. apply candidate_kill. revert s Hc.
  assert (forall l s, candidate s identity object ->
    candidate (foldl (fun s cell => markMemoryAmbiguous cell (cellObjects s cell) s) s l) identity object) as H; [|auto].
  induction l as [|c l IH]; intros s H; [done|]. by apply IH.
Qed.
End Escapes.

(** The cell is marked: it may hold anything. *)
Definition marked (cell : protocolIdentity) (s : protocolAliasSnapshot) : Prop :=
  memoryMust s !! cell = None /\ cell ∈ memoryAmbiguous s.

Lemma kill_memory identity s :
  memoryMust (killObject identity s) = memoryMust s /\ memoryAmbiguous (killObject identity s) = memoryAmbiguous s.
Proof.
  assert (forall object l s', memoryMust s' = memoryMust s -> memoryAmbiguous s' = memoryAmbiguous s ->
    let s2 := foldl (fun s' c => markAmbiguous c [object] s') s' l in
    memoryMust s2 = memoryMust s /\ memoryAmbiguous s2 = memoryAmbiguous s) as H.
  { intros object. induction l as [|c l IH]; intros s' E1 E2; [done|]. by apply IH. }
  unfold killObject. destruct (resolve s identity) as [o []]; [by apply H..|done].
Qed.

Lemma marked_memory cell other candidates s : marked cell s -> marked cell (markMemoryAmbiguous other candidates s).
Proof.
  intros [H1 H2]. split; cbn; [|set_solver]. destruct (decide (cell = other)) as [->|]; [by apply lookup_delete_eq|by rewrite lookup_delete_ne].
Qed.

Lemma marked_escape identity cell s :
  marked cell s \/ cell ∈ possibleObjects s identity -> marked cell (escape identity s).
Proof.
  intros H. unfold escape, marked. destruct (kill_memory identity
    (foldl (fun s cell => markMemoryAmbiguous cell (cellObjects s cell) s) s (possibleObjects s identity))) as [-> ->].
  fold (marked cell (foldl (fun s cell => markMemoryAmbiguous cell (cellObjects s cell) s) s (possibleObjects s identity))).
  revert H. generalize (possibleObjects s identity) as l. intros l. revert s.
  induction l as [|c l IH]; intros s [H|H]; [done|by apply elem_of_nil in H|..]; cbn; apply IH.
  - left. by apply marked_memory.
  - apply elem_of_cons in H as [->|H]; [left|by right]. split; cbn; [apply lookup_delete_eq|set_solver].
Qed.

(** A snapshot that claims less and marks what was overwritten describes the result. *)
Lemma describes_interference s s' st st' : weaker s s' -> registers st' = registers st ->
  (forall cell, content cell st' = content cell st \/ marked cell s') -> describes s st -> describes s' st'.
Proof.
  intros Hw Hr Hc Hd. destruct (weaker_describes _ _ _ Hw Hd) as [D1 D2 D3]. split.
  - by rewrite Hr.
  - intros k o Hk. destruct (Hc k) as [->|[Hm _]]; [auto|congruence].
  - intros k Hk Hn. destruct (Hc k) as [->|[_ Ha]]; [auto|done].
Qed.

(** ** Stores *)
Lemma describes_setMemory s st cell o : describes s st -> describes (setMemory cell o s) (write cell o st).
Proof.
  intros [D1 D2 D3]. split; cbn; [done|..]; intros k.
  - intros x. rewrite content_write, lookup_insert_Some. case_decide; naive_solver.
  - rewrite content_write, lookup_insert_None. intros [Hk ?] Hn. rewrite decide_False by done. apply D3; [done|set_solver].
Qed.

Lemma describes_store s st address o : describes s st -> snd (resolve s address) <> protocolAliasUnknown ->
  held address st ∈ possibleObjects s address -> describes (store address o s) (write (held address st) (held o st) st).
Proof.
  intros Hd Hr Hin. unfold store.
  assert (forall candidates, describes (foldl (fun s cell => markMemoryAmbiguous cell candidates s) s (possibleObjects s address))
    (write (held address st) (held o st) st)) as Hmark.
  { intros candidates. destruct (marked_foldl candidates _ _ Hin s) as [H1 H2].
    eapply describes_marked; [|exact H1|exact H2|exact Hd]. eapply weaker_foldl. intros. apply weaker_markMemory. }
  destruct (possibleObjects s address) as [|cell l] eqn:El; [by apply elem_of_nil in Hin|].
  destruct (snd (resolve s address)); [done|..]; (destruct l; [|apply Hmark]);
    (destruct (resolve s o) as [x []] eqn:Eo; [apply Hmark| |apply Hmark]); cbn [snd];
    rewrite (possible_must _ _ _ (resolve_must _ _ _ Eo)), (resolve_held _ _ _ _ Hd Eo);
    apply list_elem_of_singleton in Hin as <-; by apply describes_setMemory.
Qed.

(** A store changes no binding. *)
Lemma store_bindings s address o x :
  resolve (store address o s) x = resolve s x /\ possibleObjects (store address o s) x = possibleObjects s x.
Proof.
  assert (forall l candidates s', must s' = must s -> ambiguous s' = ambiguous s -> possible s' = possible s ->
    let s2 := foldl (fun s' cell => markMemoryAmbiguous cell candidates s') s' l in
    resolve s2 x = resolve s x /\ possibleObjects s2 x = possibleObjects s x) as Hfold.
  { induction l as [|c l IH]; intros candidates s' E1 E2 E3; [|by apply IH].
    cbn. unfold resolve, possibleObjects. by rewrite E1, E2, E3. }
  unfold store, storeAnywhere. destruct (possibleObjects s address) as [|cell [|c l]], (snd (resolve s address)); try by apply Hfold.
  all: destruct (snd (resolve s o)), (possibleObjects s o) as [|y [|z l']]; first [done|by apply Hfold].
Qed.

(** ** Instructions *)
(** A fixed naming makes the monad the identity. *)
Ltac unname := unfold mbind, mret; cbn [i_bind i_ret i_value i_field i_index i_fresh i_copy namer].

Section Transfer.
Context (heap : value -> ssaValue) (n : naming).

Lemma foldM_named {A B} (step : A -> B -> named A) l : forall a, foldM (IM := namer n) step l a = foldl step a l.
Proof. induction l as [|b l IH]; intros a; [done|]. exact (IH (step a b)). Qed.

Lemma weaker_escapeValue s v : weaker s (escapeProtocolValue (IM := namer n) heap s v).
Proof. unfold escapeProtocolValue. destruct (negb _); [done|]. apply weaker_escape. Qed.

Lemma weaker_escapeValues l s : weaker s (foldM (IM := namer n) (escapeProtocolValue (IM := namer n) heap) l s).
Proof. rewrite foldM_named. eapply weaker_foldl. intros. apply weaker_escapeValue. Qed.

Abbreviation escapeAll := (foldl (escapeProtocolValue (IM := namer n) heap)).

Lemma escapeArguments_all call s : escapeCallArguments (IM := namer n) heap call s =
  escapeAll s (match kind (heap (callValue call)) with MakeClosure _ bindings _ => bindings | _ => [] end ++ callArgs call).
Proof.
  unfold escapeCallArguments. unname. rewrite foldM_named, foldl_app. f_equal.
  destruct (kind (heap (callValue call))); try done. by rewrite foldM_named.
Qed.

(** What may be overwritten through the values handed out is marked. *)
Lemma marked_escapes vs cell : forall s,
  marked cell s \/ cell <> 0 /\ (exists v, v ∈ vs /\ protocolValueMayCarryMutableIdentity heap v = true /\ candidate s (nameOf n v) cell) ->
  marked cell (escapeAll s vs).
Proof.
  induction vs as [|w vs IH]; intros s H; [destruct H as [H|(_ & v & Hv & _)]; [done|by apply elem_of_nil in Hv]|].
  cbn. apply IH. unfold escapeProtocolValue. unname.
  destruct (protocolValueMayCarryMutableIdentity heap w) eqn:Ew; cbn [negb].
  - destruct H as [H|(Hz & v & [->|Hv]%elem_of_cons & Hm & Hc)]; [left; apply marked_escape; by left| |].
    + left. apply marked_escape. right. apply Hc.
    + right. split; [done|]. exists v. split_and!; [done..|]. by apply candidate_escape.
  - destruct H as [H|(Hz & v & [->|Hv]%elem_of_cons & Hm & Hc)]; [by left|congruence|]. right. split; [done|]. by exists v.
Qed.

Lemma weaker_escapes vs s : weaker s (escapeAll s vs).
Proof. eapply weaker_foldl. intros. apply weaker_escapeValue. Qed.

(** Escaping what an instruction hands out covers the interference. *)
Lemma describes_escapes s0 s vs i st st' : describes s0 st -> (forall x, possibleObjects s x = possibleObjects s0 x) -> (forall x, resolve s x = resolve s0 x) ->
  describes s (plain n i st) -> handedOut heap i = filter (fun v => protocolValueMayCarryMutableIdentity heap v = true) vs ->
  (forall v, v ∈ handedOut heap i -> content (held (nameOf n v) st) st' <> content (held (nameOf n v) st) (plain n i st) ->
     lists n s0 v st) ->
  interferes heap n i st st' -> describes (escapeAll s vs) st'.
Proof.
  intros Hd0 Ep Er Hd Hvs Hl [Hr Hc]. apply (describes_interference s _ (plain n i st)).
  - apply weaker_escapes.
  - rewrite Hr. by destruct i.
  - intros cell. destruct (Hc cell) as [?|(v & Hv & Ecell & Hz)]; [by left|].
    destruct (decide (content cell st' = content cell (plain n i st))) as [?|Hne]; [by left|right].
    apply marked_escapes. right. split; [done|]. exists v. rewrite Ecell in *. specialize (Hl v Hv Hne).
    rewrite Hvs in Hv. apply list_elem_of_filter in Hv as [Hm Hv]. split_and!; [done..|].
    apply lists_candidate in Hl; [|done]. unfold candidate in *. by rewrite Er, Ep.
  - done.
Qed.

(** The cells of a fresh object hold their initial contents. *)
Lemma describes_fresh s st cell base : describes s st -> describes (initializeFreshCell (IM := namer n) cell base s) st.
Proof.
  intros Hd. unfold initializeFreshCell. destruct (cell =? 0); [done|].
  change (describes (if negb (freshOf n base) || bool_decide (is_Some (memoryMust s !! cell)) || bool_decide (cell ∈ memoryAmbiguous s) then s
    else mkSnapshot (must s) (ambiguous s) (possible s) (<[cell := cell]> (memoryMust s)) (memoryAmbiguous s) (memoryPossible s)) st).
  destruct (_ || _) eqn:E; [done|]. rewrite !orb_false_iff, !bool_decide_eq_false in E. destruct E as [[_ Hm] Ha].
  destruct Hd as [D1 D2 D3]. split; cbn; [done|..].
  - intros k o. rewrite lookup_insert_Some. intros [[<- <-]|[_ Hk]]; [|auto]. apply D3; [by apply eq_None_not_Some|done].
  - intros k. rewrite lookup_insert_None. intros [Hk _] Hn. auto.
Qed.

Lemma describes_derived s st identity base derive o : describes s st ->
  (forall object, resolve s base = (object, protocolAliasMust) -> o = derive object) ->
  describes (bindDerivedAddress (IM := namer n) identity base derive s) (assign identity o st).
Proof.
  intros Hd Ho. unfold bindDerivedAddress.
  assert (forall l r, describes (fst r) st -> describes (fst (foldl (derivedCell (IM := namer n) derive) r l)) st) as Hfold.
  { induction l as [|object l IH]; intros r Hr; [done|]. cbn. apply IH. by apply describes_fresh. }
  destruct (resolve s base) as [object []] eqn:E.
  - apply describes_ambiguous. rewrite foldM_named. by apply Hfold.
  - rewrite (Ho object eq_refl). apply describes_bind. by apply describes_fresh.
  - apply describes_ambiguous. rewrite foldM_named. by apply Hfold.
Qed.

(** A phi that is bound is bound to what its edge from the predecessor holds. *)
Lemma phi_edges predecessors out reached k e from l : (k, e) ∈ l -> predecessors !! k = Some from -> from ∈ reached -> forall st0,
  let st := foldl (phiEdge (IM := namer n) predecessors out reached) st0 l in
  allMust st = true -> exists o, resolve (outOf out from) (nameOf n e) = (o, protocolAliasMust) /\ o ∈ phiPossible st.
Proof.
  intros Hin Hk Hr. induction l as [|[k' e'] l IH] using rev_ind; intros st0; [by apply elem_of_nil in Hin|]. rewrite foldl_snoc. cbn zeta.
  set (st := foldl _ st0 l) in *. unfold phiEdge. cbn [fst snd]. unname.
  apply elem_of_app in Hin as [Hin|Hin%list_elem_of_singleton].
  - specialize (IH Hin st0). cbn zeta in IH. fold st in IH.
    destruct (predecessors !! k'); [|exact IH]. destruct (negb _); [exact IH|].
    destruct (resolve (outOf out n0) (nameOf n e')) as [o' []]; cbn; try done.
    intros Hm. destruct (IH Hm) as (o & H1 & H2). exists o. split; [done|set_solver].
  - injection Hin as -> ->. rewrite Hk. rewrite bool_decide_true by done. cbn.
    destruct (resolve (outOf out from) (nameOf n e')) as [o' []]; cbn; try done. intros _. exists o'. split; [done|set_solver].
Qed.

Lemma describes_phi s st identity edges predecessors out reached k e from entry :
  edges !! k = Some e -> predecessors !! k = Some from -> from ∈ reached -> describes (outOf out from) entry -> describes s st ->
  describes (transferProtocolPhi (IM := namer n) s identity edges predecessors out reached) (assign identity (held (nameOf n e) entry) st).
Proof.
  intros He Hk Hr Hentry Hd. unfold transferProtocolPhi. rewrite foldM_named.
  assert ((k, e) ∈ imap (fun i e => (i, e)) edges) as Hin by (apply list_elem_of_lookup; exists k; by rewrite list_lookup_imap, He).
  pose proof (phi_edges predecessors out reached k e from _ Hin Hk Hr (mkPhi ∅ true false)) as Hphi. cbn zeta in Hphi.
  set (phi := foldl _ _ _) in *. unname.
  destruct (hasReachedEdge phi), (sorted (phiPossible phi)) as [|o [|o' l]] eqn:Es; try by apply describes_ambiguous.
  all: destruct (allMust phi); try by apply describes_ambiguous.
  destruct Hphi as (x & Hx & Hxin); [done|].
  assert (x ∈ sorted (phiPossible phi)) as Hs by (unfold sorted; by rewrite merge_sort_Permutation; apply elem_of_elements).
  rewrite Es in Hs. apply list_elem_of_singleton in Hs as ->. rewrite (resolve_held _ _ _ _ Hentry Hx). by apply describes_bind.
Qed.

Lemma describes_transferCopy s st identity : describes s st ->
  describes (transferCopy (IM := namer n) s identity)
    (assign identity (match copyOf n identity with Some source => held source st | None => identity end) st).
Proof.
  intros Hd. unfold transferCopy. unname. destruct (copyOf n identity); [by apply describes_copy|by apply describes_bind].
Qed.

Lemma escapeBindings_all s v : escapeBindings (IM := namer n) heap s v =
  escapeAll s match kind (heap v) with
    | MakeClosure _ bindings referrers => if protocolClosureEscapes v referrers then bindings else []
    | _ => []
    end.
Proof. unfold escapeBindings. destruct (kind (heap v)); try done. destruct (protocolClosureEscapes _ _); [|done]. by rewrite foldM_named. Qed.

Lemma describes_value s st v predecessors out reached from entry o :
  from ∈ reached \/ predecessors = [] -> describes (outOf out from) entry \/ predecessors = [] ->
  describes (escapeBindings (IM := namer n) heap s v) st -> computes heap n predecessors from entry st v o ->
  describes (transferProtocolAliasValue (IM := namer n) heap s v predecessors out reached) (assign (nameOf n v) o st).
Proof.
  intros Hr Hentry Hd' Hc. unfold transferProtocolAliasValue. unname.
  set (s' := escapeBindings (IM := namer n) heap s v) in *.
  clearbody s'.
  inversion Hc as [X field Hk|X index i Hk Hi|X index o' Hk Hi|edges k e Hk He Hp|X Hk|Hk]; subst; try (rewrite Hk; cbn [String.eqb]).
  - apply describes_derived; [done|]. intros object Ho. by rewrite (resolve_held _ _ _ _ Hd' Ho).
  - rewrite Hi. apply describes_derived; [done|]. intros object Ho. by rewrite (resolve_held _ _ _ _ Hd' Ho).
  - rewrite Hi. by apply describes_ambiguous.
  - destruct Hr as [Hr| ->]; [|done]. destruct Hentry as [Hentry| ->]; [|done]. by eapply describes_phi.
  - by apply describes_load.
  - destruct (kind (heap v)); try done; try (by apply describes_transferCopy).
    destruct (String.eqb_spec Op "*"); [done|]. by apply describes_transferCopy.
Qed.

(** An instruction that defines no value escapes what it hands out after its own write. *)
Lemma escapes_instruction s i predecessors out reached : match i with Define _ => False | _ => True end ->
  exists vs, transferProtocolAliasInstruction (IM := namer n) heap s i predecessors out reached =
      escapeAll match i with Store address stored => store (nameOf n address) (nameOf n stored) s | _ => s end vs /\
    handedOut heap i = filter (fun v => protocolValueMayCarryMutableIdentity heap v = true) vs.
Proof.
  intros Hi. destruct i as [v|address stored|X|map key stored|call|call|results|X| |c|operands];
    cbn [transferProtocolAliasInstruction]; unname; [done|..|by exists []|by exists []|by exists []|by exists []].
  - exists (if protocolAliasStoreEscapes heap address then [stored] else []). split; [|done]. by destruct (protocolAliasStoreEscapes _ _).
  - by exists [X].
  - by exists [key; stored].
  - eexists. split; [apply escapeArguments_all|done].
  - by exists [].
  - exists results. split; [by rewrite foldM_named|done].
Qed.

Lemma describes_instruction s st i predecessors out reached from entry st' :
  from ∈ reached \/ predecessors = [] -> describes (outOf out from) entry \/ predecessors = [] -> describes s st ->
  written_where_listed heap n s i st st' -> executes heap n predecessors from entry st i st' ->
  describes (transferProtocolAliasInstruction (IM := namer n) heap s i predecessors out reached) st'.
Proof.
  intros Hr Hentry Hd [Hw Hl] He. inversion He as [v o st1 Hi Hc|i' st1 Hi Hx]; subst; cbn [transferProtocolAliasInstruction].
  - apply (describes_value s st1 v predecessors out reached from entry); [done..| |done]. rewrite escapeBindings_all.
    by apply (describes_escapes s s _ (Define v) st).
  - destruct (escapes_instruction s i predecessors out reached Hi) as (vs & -> & Hvs).
    apply (describes_escapes s _ vs i st); try done; destruct i; try done; cbn [plain].
    + intros x. by apply store_bindings.
    + intros x. by apply store_bindings.
    + destruct (lists_candidate n s Addr st Hd Hw). by apply describes_store.
Qed.
End Transfer.
