(* ===== verification/AliasRun.v ===== *)
(** * Alias analysis with the interner

    A run of [goplint/protocol_alias_analysis.go] with the interner, which names values and
    addresses as they come, does what the run with the naming it ends with does: the analysis
    can be reasoned about with fixed names.  The objects of its snapshots are always named. *)

From S2P Require Export IdentityFacts AliasSemantics.
Local Open Scope Z_scope.

(** ** Well-formed snapshots *)

(** What is bound is not ambiguous, and only what is ambiguous has candidates. *)
Record tidy (bound : gmap protocolIdentity protocolIdentity) (open : gset protocolIdentity)
    (candidates : gmap protocolIdentity (gset protocolIdentity)) : Prop := {
  t_disjoint : forall k, k ∈ open -> bound !! k = None;
  t_open : forall k l, candidates !! k = Some l -> k ∈ open /\ l <> ∅;
}.

(** The bindings and the memory are tidy, and their objects satisfy [P]. *)
Record within (P : protocolIdentity -> Prop) (s : protocolAliasSnapshot) : Prop := {
  in_must : forall identity object, must s !! identity = Some object -> P object;
  in_possible : forall identity objects, possible s !! identity = Some objects -> set_Forall P objects;
  in_memoryMust : forall cell object, memoryMust s !! cell = Some object -> P object;
  in_memoryPossible : forall cell objects, memoryPossible s !! cell = Some objects -> set_Forall P objects;
  in_values : tidy (must s) (ambiguous s) (possible s);
  in_memory : tidy (memoryMust s) (memoryAmbiguous s) (memoryPossible s);
}.

Lemma tidy_empty : tidy ∅ ∅ ∅.
Proof. split; [done|]. intros k l. by rewrite lookup_empty. Qed.

Lemma tidy_bind m a p k (o : protocolIdentity) : tidy m a p -> tidy (<[k := o]> m) (a ∖ {[k]}) (delete k p).
Proof.
  intros [H1 H2]. split.
  - intros x Hx. rewrite lookup_insert_ne by set_solver. apply H1. set_solver.
  - intros x l. rewrite lookup_delete_Some. intros [Hne Hl]. destruct (H2 x l Hl). split; [set_solver|done].
Qed.

Lemma tidy_open m a p p' k : tidy m a p -> (forall x, x <> k -> p' !! x = p !! x) -> p' !! k <> Some ∅ ->
  tidy (delete k m) ({[k]} ∪ a) p'.
Proof.
  intros [H1 H2] Hp Hk. split.
  - intros x Hx. rewrite lookup_delete_None. destruct (decide (k = x)) as [|Hne]; [by left|]. right. apply H1. set_solver.
  - intros x l Hl. destruct (decide (x = k)) as [->|Hne]; [split; [set_solver|congruence]|]. rewrite Hp in Hl by done.
    destruct (H2 x l Hl). split; [set_solver|done].
Qed.

Lemma within_impl (P Q : protocolIdentity -> Prop) s : within P s -> (forall o, P o -> Q o) -> within Q s.
Proof.
  intros [H1 H2 H3 H4 H5 H6] H. split; [eauto| |eauto| |done|done]; intros k objects Hk o Ho; apply H; [by eapply H2|by eapply H4].
Qed.

Lemma elem_of_sorted x objects : x ∈ sorted objects <-> x ∈ objects.
Proof. unfold sorted. rewrite merge_sort_Permutation. apply elem_of_elements. Qed.

Lemma elem_of_nonzero x l : x ∈ nonzero l <-> x ∈ l /\ x <> 0.
Proof. unfold nonzero. rewrite elem_of_list_to_set, list_elem_of_filter. tauto. Qed.

Lemma elem_of_default {A} `{Countable A} x (o : option (gset A)) : x ∈ default ∅ o <-> exists l, o = Some l /\ x ∈ l.
Proof. destruct o as [l|]; cbn; [naive_solver|]. split; [by intros ?%elem_of_empty|naive_solver]. Qed.

Section Within.
Context (P : protocolIdentity -> Prop) (HP : forall o, P o -> o <> 0).

Lemma within_new : within P newProtocolAliasSnapshot.
Proof. split; [intros *; cbn; by rewrite lookup_empty..|apply tidy_empty|apply tidy_empty]. Qed.

Lemma within_resolve s identity object : within P s -> resolve s identity = (object, protocolAliasMust) -> P object.
Proof.
  intros Hs. unfold resolve. case_bool_decide; [done|]. destruct (must s !! identity) eqn:E; [|done].
  intros [= <-]. by eapply in_must.
Qed.

Lemma within_possible s identity o : within P s -> o ∈ possibleObjects s identity -> P o.
Proof.
  intros Hs. unfold possibleObjects. destruct (must s !! identity) eqn:E.
  - intros ->%list_elem_of_singleton. by eapply in_must.
  - rewrite elem_of_sorted, elem_of_default. intros (l & Hl & Ho). by eapply in_possible.
Qed.

Lemma within_memory s address o : within P s -> o ∈ possibleMemoryObjects s address -> P o.
Proof.
  intros Hs. unfold possibleMemoryObjects. rewrite elem_of_sorted, elem_of_union_list.
  intros (l & (cell & -> & _)%list_elem_of_fmap & [Ho|Ho]%elem_of_union).
  - destruct (memoryMust s !! cell) eqn:E; [|by apply elem_of_empty in Ho]. apply elem_of_singleton in Ho as ->. by eapply in_memoryMust.
  - apply elem_of_default in Ho as (l & Hl & Ho). by eapply in_memoryPossible.
Qed.

Lemma within_bind identity object s : within P s -> P object -> within P (bind identity object s).
Proof.
  intros [H1 H2 H3 H4 H5 H6] Ho. split; cbn; try done.
  - intros k o. rewrite lookup_insert_Some. intros [[_ <-]|[_ H]]; [done|by eapply H1].
  - intros k l. rewrite lookup_delete_Some. intros [_ H]. by eapply H2.
  - by apply tidy_bind.
Qed.

Lemma within_markAmbiguous identity candidates s : within P s -> Forall P candidates -> within P (markAmbiguous identity candidates s).
Proof.
  intros [H1 H2 H3 H4 H5 H6] Hc. rewrite Forall_forall in Hc. split; cbn; try done.
  - intros k o. rewrite lookup_delete_Some. intros [_ H]. by eapply H1.
  - intros k l. case_bool_decide.
    + rewrite lookup_delete_Some. intros [_ Hk]. by eapply H2.
    + rewrite lookup_insert_Some. intros [[_ <-]|[_ Hk]]; [|by eapply H2]. intros o [Ho _]%elem_of_nonzero. by apply Hc.
  - apply (tidy_open _ _ _ _ _ H5); case_bool_decide; rewrite ?lookup_delete_eq, ?lookup_insert_eq; try done; try congruence;
      intros x Hx; by rewrite ?lookup_delete_ne, ?lookup_insert_ne.
Qed.

Lemma within_markMemory cell candidates s : within P s -> Forall P candidates -> within P (markMemoryAmbiguous cell candidates s).
Proof.
  intros [H1 H2 H3 H4 H5 H6] Hc.
  assert (Forall P (match memoryMust s !! cell with Some object => candidates ++ [object] | None => candidates end)) as Hall.
  { destruct (memoryMust s !! cell) eqn:E; [|done]. apply Forall_app. split; [done|]. apply Forall_singleton. by eapply H3. }
  unfold markMemoryAmbiguous. revert Hall.
  generalize (match memoryMust s !! cell with Some object => candidates ++ [object] | None => candidates end). intros all Hall.
  split; cbn; try done.
  - intros k o. rewrite lookup_delete_Some. intros [_ H]. by eapply H3.
  - intros k l. destruct all as [|x all].
    + rewrite lookup_delete_Some. intros [_ Hk]. by eapply H4.
    + rewrite lookup_insert_Some. intros [[_ <-]|[_ Hk]]; [|by eapply H4]. intros o [Ho|[Ho _]%elem_of_nonzero]%elem_of_union.
      * apply elem_of_default in Ho as (l' & Hl & Ho). by eapply H4.
      * by eapply Forall_forall in Hall.
  - apply (tidy_open _ _ _ _ _ H6); destruct all as [|x all]; rewrite ?lookup_delete_eq, ?lookup_insert_eq; try done;
      try (intros y Hy; by rewrite ?lookup_delete_ne, ?lookup_insert_ne).
    apply Forall_cons_1 in Hall as [Hx _]. intros [= He]. assert (x ∈ nonzero (x :: all)) as Hin; [|set_solver].
    apply elem_of_nonzero. split; [left|by apply HP].
Qed.

Lemma within_foldl {B} (step : protocolAliasSnapshot -> B -> protocolAliasSnapshot) l :
  (forall s b, b ∈ l -> within P s -> within P (step s b)) -> forall s, within P s -> within P (foldl step s l).
Proof.
  induction l as [|b l IH]; intros H s Hs; [done|]. cbn. apply IH; [intros s' b' Hb; apply H; by right|]. apply H; [left|done].
Qed.

Lemma within_copy identity source s : within P s -> within P (copyBinding identity source s).
Proof.
  intros Hs. unfold copyBinding. destruct (resolve s source) as [object []] eqn:E; try (apply within_markAmbiguous; [done|];
    apply Forall_forall; intros o; by apply within_possible). apply within_bind; [done|by eapply within_resolve].
Qed.

Lemma within_setMemory cell object s : within P s -> P object -> within P (setMemory cell object s).
Proof.
  intros [H1 H2 H3 H4 H5 H6] Ho. split; cbn; try done.
  - intros k o. rewrite lookup_insert_Some. intros [[_ <-]|[_ H]]; [done|by eapply H3].
  - intros k l. rewrite lookup_delete_Some. intros [_ H]. by eapply H4.
  - by apply tidy_bind.
Qed.

Lemma within_store address object s : within P s -> within P (store address object s).
Proof.
  intros Hs.
  assert (within P (storeAnywhere s)) as Hany by (apply within_foldl; [|done]; intros; by apply within_markMemory).
  assert (Forall P (possibleObjects s object)) as Hv by (apply Forall_forall; intros o; by apply within_possible).
  assert (forall l s', within P s' -> within P (foldl (fun s0 cell => markMemoryAmbiguous cell (possibleObjects s object) s0) s' l)) as Hmark
    by (intros l s' Hs'; apply within_foldl; [|done]; intros; by apply within_markMemory).
  unfold store. destruct (snd (resolve s address)), (possibleObjects s address) as [|cell [|cell' l]]; try done;
    destruct (snd (resolve s object)), (possibleObjects s object) as [|stored [|stored' l']]; try (by apply Hmark);
    (apply within_setMemory; [done|]; by inversion Hv).
Qed.

Lemma within_load identity address s : within P s -> within P (load identity address s).
Proof.
  intros Hs. unfold load. destruct (resolveMemory s address) as [object []] eqn:E.
  - by apply within_markAmbiguous.
  - apply within_bind; [done|]. unfold resolveMemory in E.
    repeat match type of E with context [match ?x with _ => _ end] => destruct x eqn:? end; simplify_eq; by eapply in_memoryMust.
  - apply within_markAmbiguous; [done|]. apply Forall_forall. intros o. by apply within_memory.
Qed.

Lemma within_kill identity s : within P s -> P identity -> within P (killObject identity s).
Proof.
  intros Hs Hi.
  assert (forall object s' l, within P s' -> P object -> within P (markAmbiguous identity [object]
    (foldl (fun s candidate => markAmbiguous candidate [object] s) s' l))) as Hk.
  { intros object s' l Hs' Ho. apply within_markAmbiguous; [|by constructor]. apply within_foldl; [|done].
    intros. apply within_markAmbiguous; [done|by constructor]. }
  unfold killObject. destruct (resolve s identity) as [object []] eqn:E.
  - by apply Hk.
  - apply Hk; [done|]. by eapply within_resolve.
  - apply within_markAmbiguous; [done|]. apply Forall_forall. intros o. by apply within_possible.
Qed.

Lemma within_escape identity s : within P s -> P identity -> within P (escape identity s).
Proof.
  intros Hs Hi. apply within_kill; [|done]. apply within_foldl; [|done]. intros s' cell _ Hs'. apply within_markMemory; [done|].
  apply Forall_forall. intros o. unfold cellObjects. rewrite elem_of_app, elem_of_elements, elem_of_default. intros [Ho|(l & Hl & Ho)].
  - destruct (memoryMust s' !! cell) eqn:E; [|by apply elem_of_nil in Ho]. apply list_elem_of_singleton in Ho as ->. by eapply in_memoryMust.
  - by eapply in_memoryPossible.
Qed.

Lemma within_bindings s other : within P s -> within P other -> within P (joinProtocolAliasBindings s other).
Proof.
  intros Hs Ho. pose proof (bindings_no_memory s other) as Hm. injection Hm as M1 M2 M3.
  assert (forall k o, o ∈ possibilities s k ∪ possibilities other k -> P o) as Hp.
  { assert (forall s', within P s' -> forall k o, o ∈ possibilities s' k -> P o) as Hp; [|set_solver].
    intros s' Hs' k o. unfold possibilities. destruct (must s' !! k) eqn:E.
    - intros ->%elem_of_singleton. by eapply in_must.
    - rewrite elem_of_default. intros (l & Hl & Hin). by eapply in_possible. }
  split; rewrite ?M1, ?M2, ?M3; try (intros *; by rewrite lookup_empty); [..|apply tidy_empty].
  - intros k o. rewrite must_bindings. intros [H _]%agreed_Some. by apply (in_must P s Hs) in H.
  - intros k l. rewrite possible_bindings. case_bool_decide; [|done]. intros [= <-] o. apply Hp.
  - split.
    + intros k [_ Ha]%ambiguous_bindings. by rewrite must_bindings.
    + intros k l. rewrite possible_bindings. case_bool_decide as H; [|done]. intros [= <-]. rewrite ambiguous_bindings. tauto.
Qed.

Lemma within_memoryOf s : within P s -> within P (memoryOf s).
Proof. intros [H1 H2 H3 H4 H5 H6]. split; cbn; [done|done|intros *; by rewrite lookup_empty..|done|apply tidy_empty]. Qed.

Lemma within_join s other : within P s -> within P other -> within P (join s other).
Proof.
  intros Hs Ho. destruct (within_bindings s other Hs Ho) as [J1 J2 _ _ J5 _].
  destruct (within_bindings _ _ (within_memoryOf s Hs) (within_memoryOf other Ho)) as [K1 K2 _ _ K5 _].
  destruct (join_bindings s other) as (E1 & E2 & E3). rewrite <- join_memory in K1, K2, K5.
  split; rewrite ?E1, ?E2, ?E3; done.
Qed.

Lemma within_freshCell cell s : within P s -> P cell -> memoryMust s !! cell = None -> cell ∉ memoryAmbiguous s ->
  within P (mkSnapshot (must s) (ambiguous s) (possible s) (<[cell := cell]> (memoryMust s)) (memoryAmbiguous s) (memoryPossible s)).
Proof.
  intros [H1 H2 H3 H4 H5 [H6 H7]] Hc Hm Ha. split; cbn; try done.
  - intros k o. rewrite lookup_insert_Some. intros [[_ <-]|[_ H]]; [done|by eapply H3].
  - split; [|done]. intros k Hk. rewrite lookup_insert_ne by (intros ->; done). by apply H6.
Qed.
End Within.

(** ** Runs *)
Create HintDb stable.

Section Runs.
Context (heap : value -> ssaValue) (rank : value -> nat) (Hrank : forall v w, w ∈ followed heap v -> (rank w < rank v)%nat).
Context (fuel : nat) (Hfuel : forall v, (rank v < fuel)%nat).
Context (Hexact : forall v exact isNil, kind (heap v) = Const (Some exact) isNil -> exact <> "").

Abbreviation I := (interner heap fuel).
Abbreviation state := (protocolIdentityInterner -> Prop).

Lemma known_nonzero i o : known i o -> o <> 0.
Proof. unfold known. lia. Qed.
Hint Extern 0 (_ <> 0) => (eapply known_nonzero; eassumption) : core.

Definition knows (s : protocolAliasSnapshot) : state := fun i => within (known i) s.

Lemma stable_knows s : stable (knows s).
Proof. intros i j H He. eapply within_impl; [exact H|]. intros o. by apply known_extends. Qed.
Lemma stable_and (P Q : state) : stable P -> stable Q -> stable (fun i => P i /\ Q i).
Proof. intros HP HQ i j [H1 H2] He. split; [by eapply HP|by eapply HQ]. Qed.
Lemma stable_True : stable (fun _ => True).
Proof. done. Qed.
Hint Resolve stable_knows stable_and stable_True stable_known stable_named : stable.

Lemma fo_ret {A} (pre : state) (a : A) (post : A -> state) : (forall i, pre i -> post a i) ->
  follows heap pre (@mret interning (@i_ret interning I) A a) (fun n => @mret named (@i_ret named (namer n)) A a) post.
Proof. intros H. by apply follows_ret. Qed.

Lemma fo_bind {A B} (pre : state) (m : interning A) (p : naming -> named A) mid (k : A -> interning B) (q : naming -> A -> named B) post :
  stable pre -> follows heap pre m p mid -> (forall a, follows heap (fun i => pre i /\ mid a i) (k a) (fun n => q n a) post) ->
  follows heap pre (@mbind interning (@i_bind interning I) A B k m) (fun n => @mbind named (@i_bind named (namer n)) A B (q n) (p n)) post.
Proof. intros Hs Hm Hk. by apply (follows_bind heap pre m p mid k q post). Qed.

Lemma fo_pre {A} (pre pre' : state) (m : interning A) p (post : A -> state) :
  (forall i, pre' i -> pre i) -> follows heap pre m p post -> follows heap pre' m p post.
Proof. intros H Hf. by eapply follows_weaken. Qed.

(** The post-condition keeps what was known before. *)
Lemma fo_keep {A} (pre : state) (m : interning A) p (post : A -> state) : stable pre ->
  follows heap pre m p post -> follows heap pre m p (fun a i => pre i /\ post a i).
Proof.
  intros Hs Hf i Hw Hi. destruct (Hf i Hw Hi) as (a & j & H1 & H2 & H3 & H4 & H5). exists a, j. do 3 (split; [done|]).
  split; [|done]. split; [by eapply Hs|done].
Qed.

Lemma fo_value v pre : follows heap pre (@i_value interning I v) (fun n => @i_value named (namer n) v)
  (fun identity i => isNamed v identity i /\ known i identity).
Proof.
  eapply follows_weaken; [by apply (follows_value heap rank Hrank fuel v pre)|done|]. intros a i [H1 H2]. split; [done|done].
Qed.

Lemma fo_field base field fieldName position :
  follows heap (fun i => known i base) (@i_field interning I base field fieldName position)
    (fun n => @i_field named (namer n) base field fieldName position) (fun o i => known i o).
Proof. apply follows_field. Qed.

Lemma fo_index base index position : index <> "" ->
  follows heap (fun i => known i base) (@i_index interning I base index position)
    (fun n => @i_index named (namer n) base index position) (fun o i => known i o).
Proof. apply follows_index. Qed.

Lemma fo_fresh identity :
  follows heap (fun i => known i identity) (@i_fresh interning I identity) (fun n => @i_fresh named (namer n) identity) (fun _ _ => True).
Proof.
  intros i Hw Hk. destruct (follows_fresh heap identity (fun _ => True) i Hw (conj Logic.I Hk)) as (a & j & H). exists a, j. tauto.
Qed.

Lemma fo_copy v identity : addressed heap v = false ->
  follows heap (isNamed v identity) (@i_copy interning I identity) (fun n => @i_copy named (namer n) identity) (fun _ _ => True).
Proof.
  intros Ha i Hw Hv. destruct (follows_copy heap v identity (fun _ => True) Ha i Hw (conj Logic.I Hv)) as (a & j & H). exists a, j. tauto.
Qed.

Lemma fo_foldM {A B} (inv : A -> state) (step : A -> B -> interning A) (stepn : naming -> A -> B -> named A) l :
  (forall a, stable (inv a)) ->
  (forall a b, b ∈ l -> follows heap (inv a) (step a b) (fun n => stepn n a b) inv) ->
  forall a, follows heap (inv a) (@foldM interning I A B step l a) (fun n => @foldM named (namer n) A B (stepn n) l a) inv.
Proof.
  intros Hst. induction l as [|b l IH]; intros Hstep a; cbn [foldM].
  - apply fo_ret. auto.
  - apply (fo_bind (inv a) _ (fun n => stepn n a b) inv _ (fun n a' => @foldM named (namer n) A B (stepn n) l a')); [done|apply Hstep; left|].
    intros a'. eapply fo_pre; [|apply IH; intros; apply Hstep; by right]. tauto.
Qed.

(** *** The transfer *)
Definition knowsOuts (out : outs) : state := fun i => map_Forall (fun _ s => within (known i) s) out.

Lemma stable_outs out : stable (knowsOuts out).
Proof. intros i j H He. eapply map_Forall_impl; [exact H|]. intros b s Hs. eapply within_impl; [exact Hs|]. intros o. by apply known_extends. Qed.
Lemma stable_forall l : stable (fun i => Forall (known i) l).
Proof. intros i j H He. eapply Forall_impl; [exact H|]. intros o. by apply known_extends. Qed.
Hint Resolve stable_outs stable_forall : stable.

Lemma within_outOf i out b : knowsOuts out i -> within (known i) (outOf out b).
Proof. intros H. unfold outOf. destruct (out !! b) eqn:E; [by eapply H|apply within_new]. Qed.

Lemma fo_escapeValue s v :
  follows heap (knows s) (escapeProtocolValue (IM := I) heap s v) (fun n => escapeProtocolValue (IM := namer n) heap s v) knows.
Proof.
  unfold escapeProtocolValue. destruct (negb _); [by apply fo_ret|]. eapply fo_bind; [auto with stable|apply fo_value|].
  intros identity. apply fo_ret. intros i (Hs & _ & Hk). by apply within_escape.
Qed.

Lemma fo_escapeValues l s :
  follows heap (knows s) (foldM (IM := I) (escapeProtocolValue (IM := I) heap) l s)
    (fun n => foldM (IM := namer n) (escapeProtocolValue (IM := namer n) heap) l s) knows.
Proof.
  apply (fo_foldM knows _ (fun n => escapeProtocolValue (IM := namer n) heap)); [auto with stable|]. intros. apply fo_escapeValue.
Qed.

Lemma fo_initializeFresh cell base s :
  follows heap (fun i => knows s i /\ known i cell /\ known i base) (initializeFreshCell (IM := I) cell base s)
    (fun n => initializeFreshCell (IM := namer n) cell base s) knows.
Proof.
  unfold initializeFreshCell. destruct (cell =? 0); [apply fo_ret; tauto|].
  eapply fo_bind; [auto with stable|eapply fo_pre; [|apply fo_fresh]; tauto|]. intros fresh. apply fo_ret. intros i [(Hs & Hc & _) _].
  destruct (_ || _) eqn:E; [done|]. rewrite !orb_false_iff, !bool_decide_eq_false in E. destruct E as [[_ Hm] Ha].
  apply within_freshCell; [done|done|by apply eq_None_not_Some|done].
Qed.

Lemma fo_derived identity base derive (derivn : naming -> protocolIdentity -> named protocolIdentity) s :
  (forall object, follows heap (fun i => known i object) (derive object) (fun n => derivn n object) (fun o i => known i o)) ->
  follows heap (fun i => knows s i /\ known i identity) (bindDerivedAddress (IM := I) identity base derive s)
    (fun n => bindDerivedAddress (IM := namer n) identity base (derivn n) s) knows.
Proof.
  intros Hd. unfold bindDerivedAddress.
  assert (follows heap (fun i => knows s i /\ known i identity)
    (foldM (IM := I) (derivedCell (IM := I) derive) (possibleObjects s base) (s, []))
    (fun n => foldM (IM := namer n) (derivedCell (IM := namer n) (derivn n)) (possibleObjects s base) (s, []))
    (fun r i => knows (fst r) i /\ Forall (known i) (snd r))) as Hall.
  { eapply follows_weaken; [apply (fo_foldM (fun r i => (knows (fst r) i /\ Forall (known i) (snd r)) /\ Forall (known i) (possibleObjects s base))
      _ (fun n => derivedCell (IM := namer n) (derivn n)))|..]; [auto 6 with stable| |cbn|tauto].
    - intros r object Ho. unfold derivedCell. eapply fo_bind; [auto 6 with stable|eapply fo_pre; [|apply Hd]|].
      { intros i [_ H]. rewrite Forall_forall in H. by apply H. }
      intros cell. eapply fo_bind; [auto 6 with stable|eapply fo_pre; [|apply fo_initializeFresh]|].
      { intros i [[[Hs _] H] Hc]. rewrite Forall_forall in H. split; [done|]. split; [done|by apply H]. }
      intros s'. apply fo_ret. cbn. intros i [[[[_ Hl] H] Hc] Hs]. split; [|done]. split; [done|]. apply Forall_app. auto.
    - intros i [Hs _]. split; [by split|]. apply Forall_forall. intros o. by apply within_possible. }
  assert (follows heap (fun i => knows s i /\ known i identity)
    (derivedAmbiguous (IM := I) identity derive (possibleObjects s base) s)
    (fun n => derivedAmbiguous (IM := namer n) identity (derivn n) (possibleObjects s base) s) knows) as Hambiguous.
  { unfold derivedAmbiguous. eapply fo_bind; [auto with stable|apply Hall|]. intros r. apply fo_ret.
    intros i [_ [Hs Hl]]. by apply within_markAmbiguous. }
  destruct (resolve s base) as [object []] eqn:E; [exact Hambiguous| |exact Hambiguous].
  eapply fo_bind; [auto with stable|eapply fo_pre; [|apply Hd]|]; [intros i [Hs _]; by eapply within_resolve|].
  intros derived. eapply fo_bind; [auto with stable|eapply fo_pre; [|apply fo_initializeFresh]|].
  { intros i [[Hs _] Hk]. split; [done|]. split; [done|by eapply within_resolve]. }
  intros s'. apply fo_ret. intros i [[_ Hk] Hs]. by apply within_bind.
Qed.

Definition knowsPhi (st : phiState) : state := fun i => set_Forall (known i) (phiPossible st).

Lemma stable_phi st : stable (knowsPhi st).
Proof. intros i j H He o Ho. eapply known_extends; [done|by apply H]. Qed.
Hint Resolve stable_phi : stable.

Lemma fo_phiEdge predecessors out reached st e :
  follows heap (fun i => knowsPhi st i /\ knowsOuts out i) (phiEdge (IM := I) predecessors out reached st e)
    (fun n => phiEdge (IM := namer n) predecessors out reached st e) (fun st i => knowsPhi st i /\ knowsOuts out i).
Proof.
  unfold phiEdge. destruct (predecessors !! fst e) as [pred|]; [|by apply fo_ret]. destruct (negb _); [by apply fo_ret|].
  eapply fo_bind; [auto with stable|apply fo_value|]. intros identity. apply fo_ret. intros i [[Hst Ho] [_ Hk]].
  pose proof (within_outOf i out pred Ho) as Hw. split; [|done].
  assert (knowsPhi (mkPhi (list_to_set (possibleObjects (outOf out pred) identity) ∪ phiPossible st) false true) i) as Ha.
  { intros o [Hin|Hin]%elem_of_union; [|by apply Hst]. apply elem_of_list_to_set in Hin. by eapply within_possible. }
  destruct (resolve (outOf out pred) identity) as [object []] eqn:E; [done| |done].
  intros o [->%elem_of_singleton|Hin]%elem_of_union; [by eapply within_resolve|by apply Hst].
Qed.

Lemma fo_phi s identity edges predecessors out reached :
  follows heap (fun i => (knows s i /\ known i identity) /\ knowsOuts out i)
    (transferProtocolPhi (IM := I) s identity edges predecessors out reached)
    (fun n => transferProtocolPhi (IM := namer n) s identity edges predecessors out reached) knows.
Proof.
  unfold transferProtocolPhi. eapply fo_bind; [auto with stable| |].
  - eapply fo_pre; [|apply (fo_foldM (fun st i => knowsPhi st i /\ knowsOuts out i) _
      (fun n => phiEdge (IM := namer n) predecessors out reached))]; [|auto with stable|intros; apply fo_phiEdge].
    intros i [_ Ho]. split; [|done]. by intros o ?%elem_of_empty.
  - intros st. apply fo_ret. intros i [[[Hs Hi] _] [Hst _]].
    assert (Forall (known i) (sorted (phiPossible st))) as Hall.
    { apply Forall_forall. intros o. rewrite elem_of_sorted. apply Hst. }
    assert (within (known i) (markAmbiguous identity [] s)) as Hnone by (by apply within_markAmbiguous).
    destruct (hasReachedEdge st); [|done]. destruct (sorted (phiPossible st)) as [|o [|o' l]]; [done| |].
    + destruct (allMust st); [apply within_bind; [done|by inversion Hall]|by apply within_markAmbiguous].
    + destruct (allMust st); by apply within_markAmbiguous.
Qed.

Lemma fo_transferCopy v s identity : addressed heap v = false ->
  follows heap (fun i => knows s i /\ isNamed v identity i /\ known i identity) (transferCopy (IM := I) s identity)
    (fun n => transferCopy (IM := namer n) s identity) knows.
Proof.
  intros Ha. unfold transferCopy. eapply fo_bind; [auto with stable|eapply fo_pre; [|by apply (fo_copy v)]; tauto|].
  intros source. apply fo_ret. intros i [(Hs & _ & Hk) _]. destruct source as [source|]; [by apply within_copy|by apply within_bind].
Qed.

Lemma addressed_plain v : isGlobal heap v = false -> match kind (heap v) with FieldAddr _ _ | IndexAddr _ _ => False | _ => True end ->
  addressed heap v = false.
Proof. unfold isGlobal, addressed. by destruct (kind (heap v)). Qed.

Lemma fo_escapeBindings s v :
  follows heap (knows s) (escapeBindings (IM := I) heap s v) (fun n => escapeBindings (IM := namer n) heap s v) knows.
Proof.
  unfold escapeBindings. destruct (kind (heap v)); try (by apply fo_ret).
  destruct (protocolClosureEscapes _ _); [apply fo_escapeValues|by apply fo_ret].
Qed.

Lemma static_nonempty index exact : protocolStaticIndex heap index = Some exact -> exact <> "".
Proof. unfold protocolStaticIndex. destruct (kind (heap index)) eqn:E; try done. destruct exact0; [|done]. intros [= <-]. by eapply Hexact. Qed.

Lemma fo_transferValue s v predecessors out reached : isGlobal heap v = false ->
  follows heap (fun i => knows s i /\ knowsOuts out i) (transferProtocolAliasValue (IM := I) heap s v predecessors out reached)
    (fun n => transferProtocolAliasValue (IM := namer n) heap s v predecessors out reached) knows.
Proof.
  intros Hg. unfold transferProtocolAliasValue. eapply fo_bind; [auto with stable|apply fo_value|]. intros identity.
  eapply fo_bind; [auto with stable|eapply fo_pre with (pre := knows s); [tauto|apply fo_escapeBindings]|].
  intros s'.
    assert (addressed heap v = false -> follows heap (fun i => knows s' i /\ isNamed v identity i /\ known i identity)
      (transferCopy (IM := I) s' identity) (fun n => transferCopy (IM := namer n) s' identity) knows) as Hcopy by apply fo_transferCopy.
    eapply fo_pre with (pre := fun i => (knows s' i /\ knowsOuts out i) /\ (isNamed v identity i /\ known i identity)); [tauto|].
    pose proof (addressed_plain v Hg) as Hplain.
    destruct (kind (heap v)) eqn:Ek; try (eapply fo_pre; [|by apply Hcopy, Hplain]; tauto).
    + eapply fo_bind; [auto with stable|apply fo_value|]. intros base.
      eapply fo_pre; [|apply fo_derived; intros; apply fo_field]. tauto.
    + destruct (protocolStaticIndex heap Index) as [exact|] eqn:Ei; [|apply fo_ret; intros i [[Hs _] _]; by apply within_markAmbiguous].
      eapply fo_bind; [auto with stable|apply fo_value|]. intros base.
      eapply fo_pre; [|apply fo_derived; intros; apply fo_index; by eapply static_nonempty]. tauto.
    + eapply fo_pre; [|apply fo_phi]. tauto.
    + destruct (String.eqb Op "*"); [|eapply fo_pre; [|by apply Hcopy, Hplain]; tauto].
      eapply fo_bind; [auto with stable|apply fo_value|]. intros address. apply fo_ret. intros i [[[Hs _] _] _]. by apply within_load.
Qed.

Lemma fo_escapeArguments call s :
  follows heap (knows s) (escapeCallArguments (IM := I) heap call s) (fun n => escapeCallArguments (IM := namer n) heap call s) knows.
Proof.
  unfold escapeCallArguments.
  apply (fo_bind _ _ (fun n => match kind (heap (callValue call)) with
      | MakeClosure _ bindings _ => foldM (IM := namer n) (escapeProtocolValue (IM := namer n) heap) bindings s
      | _ => @mret named (@i_ret named (namer n)) _ s end) knows); [auto with stable| |].
  - destruct (kind _); try (by apply fo_ret). apply fo_escapeValues.
  - intros s'. eapply fo_pre; [|apply fo_escapeValues]. tauto.
Qed.

(** Only instructions define values, so none of them is a global. *)
Definition defines (ok : value -> Prop) (i : instruction) : Prop := match i with Define v => ok v | _ => True end.
Definition noGlobal : instruction -> Prop := defines (fun v => isGlobal heap v = false).

Lemma fo_instruction s i predecessors out reached : noGlobal i ->
  follows heap (fun i => knows s i /\ knowsOuts out i) (transferProtocolAliasInstruction (IM := I) heap s i predecessors out reached)
    (fun n => transferProtocolAliasInstruction (IM := namer n) heap s i predecessors out reached) knows.
Proof.
  intros Hi. destruct i as [v|address stored|X|m key stored|call|call|results|X| |cond|ops]; cbn [transferProtocolAliasInstruction];
    try (apply fo_ret; tauto).
  - by apply fo_transferValue.
  - eapply fo_bind; [auto with stable|apply fo_value|]. intros a. eapply fo_bind; [auto with stable|apply fo_value|]. intros o.
    assert (forall i, ((knows s i /\ knowsOuts out i) /\ isNamed address a i /\ known i a) /\ isNamed stored o i /\ known i o ->
      knows (store a o s) i) as Hstore by (intros i [[[Hs _] _] _]; by apply within_store).
    destruct (protocolAliasStoreEscapes heap address); [eapply fo_pre; [exact Hstore|apply fo_escapeValue]|by apply fo_ret].
  - eapply fo_pre; [|apply fo_escapeValue]. tauto.
  - eapply fo_bind; [auto with stable|eapply fo_pre; [|apply fo_escapeValue]; tauto|]. intros s'. eapply fo_pre; [|apply fo_escapeValue]. tauto.
  - eapply fo_pre; [|apply fo_escapeArguments]. tauto.
  - eapply fo_pre; [|apply fo_escapeValues]. tauto.
Qed.

Lemma fo_bindSelf s v : follows heap (knows s) (bindSelf (IM := I) s v) (fun n => bindSelf (IM := namer n) s v) knows.
Proof.
  unfold bindSelf. eapply fo_bind; [auto with stable|apply fo_value|]. intros identity. apply fo_ret.
  intros i [Hs [_ Hk]]. by apply within_bind.
Qed.

Lemma fo_bindSelves l s :
  follows heap (knows s) (foldM (IM := I) (bindSelf (IM := I)) l s) (fun n => foldM (IM := namer n) (bindSelf (IM := namer n)) l s) knows.
Proof. apply (fo_foldM knows _ (fun n => bindSelf (IM := namer n))); [auto with stable|]. intros. apply fo_bindSelf. Qed.

Definition knowsOption (s : option protocolAliasSnapshot) : state := fun i => match s with Some s => knows s i | None => True end.
Lemma stable_option s : stable (knowsOption s).
Proof. destruct s; [apply stable_knows|done]. Qed.
Hint Resolve stable_option : stable.

Lemma knows_joinReached out reached acc pred i : knowsOuts out i -> knowsOption acc i -> knowsOption (joinReached out reached acc pred) i.
Proof.
  intros Ho Ha. unfold joinReached. destruct (negb _); [done|]. pose proof (within_outOf i out pred Ho) as Hw.
  destruct acc as [s|]; [|done]. by apply within_join.
Qed.

Section Function.
Context (fn : functionBody) (Hglobal : forall b block, blockAt fn b = Some block -> Forall noGlobal (instrs block)).

Lemma fo_input b block out reached :
  follows heap (knowsOuts out) (protocolAliasInputState (IM := I) fn b block out reached)
    (fun n => protocolAliasInputState (IM := namer n) fn b block out reached) knowsOption.
Proof.
  unfold protocolAliasInputState. destruct (Nat.eqb b 0).
  - eapply fo_bind; [auto with stable|eapply fo_pre; [|apply fo_bindSelves]; intros; apply within_new|]. intros s.
    eapply fo_bind; [auto with stable|eapply fo_pre; [|apply fo_bindSelves]; tauto|]. intros s'. apply fo_ret. tauto.
  - apply fo_ret. intros i Ho. assert (knowsOption None i) as Hn by done. revert Hn. generalize (None : option protocolAliasSnapshot).
    induction (merge_sort Nat.le (preds block)) as [|pred l IH]; intros acc Ha; [done|]. cbn. apply IH. by apply knows_joinReached.
Qed.

Definition knowsFound (a : protocolAliasAnalysis) : state := fun i =>
  map_Forall (fun _ s => within (known i) s) (before a) /\ map_Forall (fun _ s => within (known i) s) (after a).
Lemma stable_found a : stable (knowsFound a).
Proof.
  intros i j [H1 H2] He. split; (eapply map_Forall_impl; [done|]); intros k s Hs; (eapply within_impl; [exact Hs|]); intros o; by apply known_extends.
Qed.
Hint Resolve stable_found : stable.

Lemma fo_transferBlock b block out reached l : forall i s a, Forall noGlobal l ->
  follows heap (fun j => (knows s j /\ knowsFound a j) /\ knowsOuts out j) (transferBlock (IM := I) heap b block out reached i l s a)
    (fun n => transferBlock (IM := namer n) heap b block out reached i l s a) (fun r j => knows (fst r) j /\ knowsFound (snd r) j).
Proof.
  induction l as [|instruction rest IH]; intros i s a Hl; cbn [transferBlock]; [apply fo_ret; tauto|]. apply Forall_cons_1 in Hl as [Hi Hl].
  eapply fo_bind; [auto with stable|eapply fo_pre; [|by apply fo_instruction]; tauto|]. intros s'. eapply fo_pre; [|by apply IH].
  intros j [[[Hs [H1 H2]] Ho] Hs']. split; [|done]. split; [done|]. split; cbn; by apply map_Forall_insert_2.
Qed.

Definition knowsWork (w : worklist) : state := fun i => knowsFound (found w) i /\ knowsOuts (out w) i.
Lemma stable_work w : stable (knowsWork w).
Proof. unfold knowsWork. auto with stable. Qed.
Hint Resolve stable_work : stable.

Lemma fo_visitBlock b rest w :
  follows heap (knowsWork w) (visitBlock (IM := I) heap fn b rest w) (fun n => visitBlock (IM := namer n) heap fn b rest w) knowsWork.
Proof.
  unfold visitBlock. destruct (blockAt fn b) as [block|] eqn:Eb; [|by apply fo_ret].
  eapply fo_bind; [auto with stable|eapply fo_pre; [|apply fo_input]; by intros i []|]. intros [s|]; [|apply fo_ret; tauto].
  eapply fo_bind; [auto with stable|eapply fo_pre; [|apply fo_transferBlock; by eapply Hglobal]|].
  { intros i [[Hf Ho] Hs]. done. }
  intros r. apply fo_ret. intros i [[[Hf Ho] _] [Hs Hr]].
  assert (knowsOuts (<[b := fst r]> (out w)) i) as Hins by (by apply map_Forall_insert_2).
  destruct (match out w !! b with Some previous => equal previous (fst r) | None => false end); by split.
Qed.

Lemma fo_runWorklist steps : forall w,
  follows heap (knowsWork w) (runWorklist (IM := I) heap fn steps w) (fun n => runWorklist (IM := namer n) heap fn steps w)
    (fun w i => match w with Some w => knowsWork w i | None => True end).
Proof.
  induction steps as [|steps IH]; intros w; cbn [runWorklist]; destruct (queue w) as [|b rest]; try (by apply fo_ret).
  eapply fo_bind; [auto with stable|apply fo_visitBlock|]. intros w'. eapply fo_pre; [|apply IH]. tauto.
Qed.

(** The analysis runs to the end of its fuel, finds what the analysis with the naming that it
    ends with finds, and every object it finds is named. *)
Lemma fo_analyze steps :
  follows heap (fun _ => True) (analyzeProtocolAliases (IM := I) heap fn steps) (fun n => analyzeProtocolAliases (IM := namer n) heap fn steps)
    (fun a i => match a with Some a => knowsFound a i | None => True end).
Proof.
  unfold analyzeProtocolAliases. eapply fo_bind; [auto with stable|eapply fo_pre; [|apply fo_runWorklist]|].
  { intros i _. split; [split|]; apply map_Forall_empty. }
  intros w. apply fo_ret. intros i [_ Hw]. destruct w as [w|]; [apply Hw|done].
Qed.
End Function.
End Runs.
