(* ===== verification/AliasWorklist.v ===== *)
(** * The alias worklist

    The worklist of [analyzeProtocolAliases], with a fixed naming: a block out of the queue is
    consistent with its predecessors, so that what a finished analysis records describes every
    execution; and the queue empties when the control flow has no cycle. *)

From S2P Require Export AliasSemantics.
Local Open Scope Z_scope.

Section Worklist.
Context (heap : value -> ssaValue) (n : naming) (fn : functionBody).

Abbreviation transferOne := (transferProtocolAliasInstruction (IM := namer n) heap).
Abbreviation inputOf := (protocolAliasInputState (IM := namer n) fn).

(** The state after a list of instructions. *)
Definition transferAll (block : basicBlock) (out : outs) (reached : gset nat) (l : list instruction) (s : protocolAliasSnapshot)
    : protocolAliasSnapshot :=
  foldl (fun s i => transferOne s i (preds block) out reached) s l.

Lemma transferBlock_all b block out reached l : forall i s a,
  let r := transferBlock (IM := namer n) heap b block out reached i l s a in
  fst r = transferAll block out reached l s /\
  (forall j, (j < length l)%nat -> before (snd r) !! (b, (i + j)%nat) = Some (transferAll block out reached (take j l) s)) /\
  (forall c j, c <> b -> before (snd r) !! (c, j) = before a !! (c, j)) /\
  (forall j, (j < i)%nat -> before (snd r) !! (b, j) = before a !! (b, j)).
Proof.
  induction l as [|x l IH]; intros i s a; cbn [transferBlock]; unname; [split; [done|split; [cbn; lia|done]]|].
  set (s' := transferOne s x (preds block) out reached).
  destruct (IH (i + 1)%nat s' (mkAnalysis (<[(b, i) := s]> (before a)) (<[(b, i) := s']> (after a)))) as (H1 & H2 & H3 & H4).
  split; [exact H1|]. split; [|split].
  - intros j Hj. destruct j as [|j].
    + rewrite Nat.add_0_r, H4 by lia. cbn. by rewrite lookup_insert_eq.
    + replace (i + S j)%nat with (i + 1 + j)%nat by lia. rewrite H2 by (cbn in Hj; lia). done.
  - intros c j Hc. rewrite H3 by done. cbn. by rewrite lookup_insert_ne by congruence.
  - intros j Hj. rewrite H4 by lia. cbn. by rewrite lookup_insert_ne by (intros [=]; lia).
Qed.

(** ** What a block depends on *)
Definition agree (l : list nat) (out out' : outs) (reached reached' : gset nat) : Prop :=
  forall p, p ∈ l -> out !! p = out' !! p /\ (p ∈ reached <-> p ∈ reached').

Lemma joinReached_agree l out out' reached reached' : agree l out out' reached reached' -> forall acc,
  foldl (joinReached out reached) acc l = foldl (joinReached out' reached') acc l.
Proof.
  induction l as [|p l IH]; intros Ha acc; [done|]. cbn. rewrite IH by (intros q Hq; apply Ha; by right). f_equal.
  unfold joinReached, outOf. destruct (Ha p ltac:(left)) as [-> Hr]. by rewrite (bool_decide_ext _ _ Hr).
Qed.

Lemma input_agree b block out out' reached reached' : agree (preds block) out out' reached reached' ->
  inputOf b block out reached = inputOf b block out' reached'.
Proof.
  intros Ha. unfold protocolAliasInputState. destruct (Nat.eqb b 0); [done|]. unname. apply joinReached_agree.
  intros p Hp. apply Ha. by rewrite merge_sort_Permutation in Hp.
Qed.

Lemma transfer_agree block out out' reached reached' s i : agree (preds block) out out' reached reached' ->
  transferOne s i (preds block) out reached = transferOne s i (preds block) out' reached'.
Proof.
  intros Ha. destruct i as [v| | | | | | | | | |]; try done. cbn [transferProtocolAliasInstruction].
  unfold transferProtocolAliasValue. unname. destruct (kind (heap v)); try done.
  unfold transferProtocolPhi. rewrite !(foldM_named n). f_equal.
  assert (forall l st, foldl (phiEdge (IM := namer n) (preds block) out reached) st l = foldl (phiEdge (IM := namer n) (preds block) out' reached') st l) as ->; [|done].
  induction l as [|e l IH]; intros st; [done|]. cbn. rewrite IH. f_equal. unfold phiEdge.
  destruct (preds block !! fst e) as [p|] eqn:Ep; [|done]. destruct (Ha p ltac:(by eapply list_elem_of_lookup_2)) as [Ho Hr].
  unfold outOf. by rewrite Ho, (bool_decide_ext _ _ Hr).
Qed.

Lemma transferAll_agree block out out' reached reached' l : agree (preds block) out out' reached reached' -> forall s,
  transferAll block out reached l s = transferAll block out' reached' l s.
Proof.
  intros Ha. unfold transferAll. induction l as [|i l IH]; intros s; [done|]. cbn. by rewrite (transfer_agree _ _ _ _ _ _ _ Ha), IH.
Qed.

(** ** Consistency *)
Context (Hflow : wellFormedFlow fn).

(** The block was visited with the states its predecessors have now. *)
Definition consistent (w : worklist) (b : nat) (block : basicBlock) : Prop :=
  forall s, inputOf b block (out w) (reached w) = Some s ->
    b ∈ reached w /\
    (exists o, out w !! b = Some o /\ similar (transferAll block (out w) (reached w) (instrs block) s) o) /\
    forall j, (j < length (instrs block))%nat ->
      before (found w) !! (b, j) = Some (transferAll block (out w) (reached w) (take j (instrs block)) s).

Record settled (w : worklist) : Prop := {
  s_queue : inQueue w = list_to_set (queue w);
  s_nodup : NoDup (queue w);
  s_reached : forall b, is_Some (out w !! b) -> b ∈ reached w;
  s_consistent : forall b block, blockAt fn b = Some block -> b ∉ queue w -> consistent w b block;
}.

Lemma settled_initial : settled (initialWorklist fn).
Proof.
  split; cbn; [done|apply NoDup_seq|by intros b [? ?%lookup_empty_Some]|]. intros b block Hb Hn. destruct Hn. apply elem_of_seq.
  apply lookup_lt_Some in Hb. lia.
Qed.

Lemma enqueueBlock_spec q inQ c : inQ = list_to_set q -> NoDup q ->
  let r := enqueueBlock (q, inQ) c in (snd r = list_to_set (fst r) /\ NoDup (fst r)) /\ (forall b, b ∈ fst r <-> b ∈ q \/ b = c).
Proof.
  intros -> Hnd. unfold enqueueBlock. cbn [fst snd]. case_bool_decide as Hc; rewrite elem_of_list_to_set in Hc; cbn [fst snd].
  - split; [done|]. naive_solver.
  - split; [|intros b; by rewrite elem_of_app, list_elem_of_singleton]. split; [rewrite list_to_set_app_L; set_solver|].
    apply NoDup_app. split; [done|]. split; [|apply NoDup_singleton]. by intros x Hx ->%list_elem_of_singleton.
Qed.

Lemma enqueueBlocks_spec l : forall q inQ, inQ = list_to_set q -> NoDup q ->
  let r := foldl enqueueBlock (q, inQ) l in (snd r = list_to_set (fst r) /\ NoDup (fst r)) /\ (forall b, b ∈ fst r <-> b ∈ q \/ b ∈ l).
Proof.
  induction l as [|c l IH]; intros q inQ Hq Hnd; [split; [done|]; intros b; rewrite elem_of_nil; tauto|].
  destruct (enqueueBlock_spec q inQ c Hq Hnd) as [[H1 H2] H3]. change (foldl enqueueBlock (q, inQ) (c :: l)) with (foldl enqueueBlock (enqueueBlock (q, inQ) c) l).
  destruct (enqueueBlock (q, inQ) c) as [q' inQ']. cbn [fst snd] in *. destruct (IH q' inQ' H1 H2) as [H4 H5]. split; [done|].
  intros b. rewrite H5, H3, elem_of_cons. tauto.
Qed.

Lemma consistent_agree w w' b block : agree (preds block) (out w) (out w') (reached w) (reached w') ->
  (b ∈ reached w -> b ∈ reached w') -> (out w' !! b = out w !! b) ->
  (forall j, before (found w') !! (b, j) = before (found w) !! (b, j)) -> consistent w b block -> consistent w' b block.
Proof.
  intros Ha Hr Ho Hb Hc s Hs. rewrite <- (input_agree b block _ _ _ _ Ha) in Hs. destruct (Hc s Hs) as (H1 & (o & H2 & H3) & H4).
  rewrite Ho. split; [auto|]. split.
  - exists o. by rewrite <- (transferAll_agree _ _ _ _ _ _ Ha).
  - intros j Hj. rewrite Hb, H4 by done. by rewrite (transferAll_agree _ _ _ _ _ _ Ha).
Qed.

Lemma visit_unreached b rest w block : blockAt fn b = Some block -> inputOf b block (out w) (reached w) = None ->
  visitBlock (IM := namer n) heap fn b rest w = mkWorklist (found w) (out w) (reached w) rest (inQueue w ∖ {[b]}).
Proof. intros Hb Hi. unfold visitBlock. rewrite Hb. unname. by rewrite Hi. Qed.

Lemma visit_reached b rest w block s : blockAt fn b = Some block -> inputOf b block (out w) (reached w) = Some s ->
  let r := transferBlock (IM := namer n) heap b block (out w) ({[b]} ∪ reached w) 0 (instrs block) s (found w) in
  visitBlock (IM := namer n) heap fn b rest w =
    if match out w !! b with Some previous => equal previous (fst r) | None => false end
    then mkWorklist (snd r) (out w) ({[b]} ∪ reached w) rest (inQueue w ∖ {[b]})
    else let q := foldl enqueueBlock (rest, inQueue w ∖ {[b]}) (succs block) in
      mkWorklist (snd r) (<[b := fst r]> (out w)) ({[b]} ∪ reached w) (fst q) (snd q).
Proof. intros Hb Hi. unfold visitBlock. rewrite Hb. unname. by rewrite Hi. Qed.

Lemma visit_missing b rest w : blockAt fn b = None ->
  visitBlock (IM := namer n) heap fn b rest w = mkWorklist (found w) (out w) (reached w) rest (inQueue w ∖ {[b]}).
Proof. intros Hb. unfold visitBlock. by rewrite Hb. Qed.

Lemma similar_sym s s' : similar s s' -> similar s' s.
Proof. intros (H1 & H2 & H3). by split. Qed.

Lemma popped b rest w : queue w = b :: rest -> settled w -> inQueue w ∖ {[b]} = list_to_set rest /\ NoDup rest /\ b ∉ rest.
Proof.
  intros Hq Hs. pose proof (s_nodup w Hs) as Hn. rewrite (s_queue w Hs), Hq in *. apply NoDup_cons in Hn as [Hb Hn].
  split; [|done]. cbn. set_solver.
Qed.

(** A block that is not a successor of [b] does not depend on the state after [b]. *)
Lemma agree_elsewhere b c o target out reached : blockAt fn c = Some target -> b ∉ preds target ->
  agree (preds target) out (<[b := o]> out) reached ({[b]} ∪ reached).
Proof. intros Hc Hb p Hp. rewrite lookup_insert_ne by (intros ->; done). split; [done|]. set_solver. Qed.

Lemma settled_visit b rest w : queue w = b :: rest -> settled w -> settled (visitBlock (IM := namer n) heap fn b rest w).
Proof.
  intros Hq Hs. destruct (popped b rest w Hq Hs) as (Hrest & Hnd & Hb). pose proof Hs as [S1 S2 S3 S4].
  assert (forall c block, blockAt fn c = Some block -> c ∉ rest -> c <> b -> consistent w c block) as Hold.
  { intros c block Hc Hn Hne. apply S4; [done|]. rewrite Hq. set_solver. }
  destruct (blockAt fn b) as [block|] eqn:Eb.
  2: { rewrite visit_missing by done. split; cbn; [done|done|done|]. intros c block Hc Hn. eapply consistent_agree; [..|apply Hold]; try done.
    congruence. }
  destruct (inputOf b block (out w) (reached w)) as [s|] eqn:Ei.
  2: { rewrite (visit_unreached b rest w block) by done. split; cbn; [done|done|done|]. intros c block' Hc Hn. destruct (decide (c = b)) as [->|Hne].
    - intros s Hs'. cbn in Hs'. congruence.
    - eapply consistent_agree; [..|apply Hold]; done. }
  rewrite (visit_reached b rest w block s) by done. cbn zeta.
  destruct (transferBlock_all b block (out w) ({[b]} ∪ reached w) (instrs block) 0 s (found w)) as (R1 & R2 & R3 & _).
  set (r := transferBlock _ _ _ _ _ _ _ _ _) in *. cbn [plus] in R2. rewrite R1 in *.
  destruct (match out w !! b with Some previous => _ | None => false end) eqn:Ee.
  - destruct (out w !! b) as [previous|] eqn:Ep; [|done].
    assert (b ∈ reached w) as Hr by (apply S3; rewrite Ep; by eexists).
    assert (forall l, agree l (out w) (out w) (reached w) ({[b]} ∪ reached w)) as Ha by (intros l p _; split; [done|set_solver]).
    split; cbn; [done|done|intros c Hc; apply S3 in Hc; set_solver|]. intros c block' Hc Hn. destruct (decide (c = b)) as [->|Hne].
    + rewrite Eb in Hc. injection Hc as <-. intros s' Hs'. cbn in *. rewrite <- (input_agree b block _ _ _ _ (Ha _)), Ei in Hs'.
      injection Hs' as <-. split; [set_solver|]. split; [|exact R2]. exists previous. split; [done|]. by apply similar_sym, equal_similar.
    + eapply consistent_agree; [..|by apply Hold]; cbn; [apply Ha|set_solver|done|intros; by apply R3].
  - destruct (enqueueBlocks_spec (succs block) rest _ Hrest Hnd) as [[Q1 Q2] Q3].
    set (q := foldl enqueueBlock _ _) in *. split; cbn; [done|done|..].
    + intros c [o Ho]. destruct (decide (c = b)) as [->|Hne]; [set_solver|]. rewrite lookup_insert_ne in Ho by done.
      assert (c ∈ reached w) by (apply S3; by exists o). set_solver.
    + intros c block' Hc Hn. rewrite Q3 in Hn.
      assert (b ∉ preds block') as Hp.
      { intros Hin. destruct (wf_pred fn Hflow _ _ _ Hc Hin) as (block'' & Hb'' & Hsucc). rewrite Eb in Hb''. injection Hb'' as <-. tauto. }
      pose proof (agree_elsewhere b c (transferAll block (out w) ({[b]} ∪ reached w) (instrs block) s) block' (out w) (reached w) Hc Hp) as Ha.
      destruct (decide (c = b)) as [->|Hne].
      * rewrite Eb in Hc. injection Hc as <-. intros s' Hs'. cbn in *. rewrite <- (input_agree b block _ _ _ _ Ha), Ei in Hs'.
        injection Hs' as <-.
        assert (forall l, transferAll block (out w) ({[b]} ∪ reached w) l s = transferAll block (<[b:=transferAll block (out w) ({[b]} ∪ reached w) (instrs block) s]> (out w)) ({[b]} ∪ reached w) l s) as Heq.
        { intros l. rewrite <- (transferAll_agree _ _ _ _ _ l Ha). symmetry. apply transferAll_agree. intros p Hp'. split; [done|]. destruct (Ha p Hp'). tauto. }
        split; [set_solver|]. split; [|intros j Hj; rewrite <- Heq; by apply R2]. eexists. split; [apply lookup_insert_eq|].
        by rewrite <- Heq.
      * eapply consistent_agree; [..|apply Hold]; cbn; [exact Ha|set_solver|by rewrite lookup_insert_ne|intros; by apply R3|done|tauto|done].
Qed.

Lemma settled_run steps : forall w w', settled w -> runWorklist (IM := namer n) heap fn steps w = Some w' ->
  settled w' /\ queue w' = [].
Proof.
  induction steps as [|steps IH]; intros w w' Hs; cbn [runWorklist]; destruct (queue w) as [|b rest] eqn:Eq; unname;
    try (intros [= <-]; done). intros Hr. eapply IH; [|exact Hr]. by apply settled_visit.
Qed.

(** ** Soundness *)
Context (Hentry : forall b block, blockAt fn b = Some block -> 0%nat ∉ succs block).

Lemma entry_preds block : blockAt fn 0 = Some block -> preds block = [].
Proof.
  intros H0. destruct (preds block) as [|p l] eqn:E; [done|]. destruct (wf_pred fn Hflow _ _ p H0) as (b & Hb & Hin); [rewrite E; left|].
  by destruct (Hentry _ _ Hb).
Qed.

Lemma bindSelf_describes l : forall s r, describes s (mkState r ∅) ->
  describes (foldM (IM := namer n) (bindSelf (IM := namer n)) l s) (mkState (foldl (fun r v => <[nameOf n v := nameOf n v]> r) r l) ∅).
Proof.
  induction l as [|v l IH]; intros s r Hd; [done|]. cbn [foldM foldl]. unname. apply IH. unfold bindSelf. unname.
  exact (describes_bind _ _ (nameOf n v) (nameOf n v) Hd).
Qed.

Lemma describes_initial : describes newProtocolAliasSnapshot (mkState ∅ ∅).
Proof. split; cbn; [done|done|]. intros cell _ _. unfold content. cbn. by rewrite lookup_empty. Qed.

Lemma describes_entry s block out reached : inputOf 0 block out reached = Some s -> describes s (initialState n fn).
Proof.
  unfold protocolAliasInputState. rewrite Nat.eqb_refl. unname. intros [= <-].
  unfold initialState. rewrite foldl_app. apply bindSelf_describes, bindSelf_describes, describes_initial.
Qed.

Lemma joinReached_some out reached l : forall s, exists s', foldl (joinReached out reached) (Some s) l = Some s' /\ weaker s s'.
Proof.
  induction l as [|p l IH]; intros s; [by exists s|]. cbn. unfold joinReached at 2. destruct (negb _); [apply IH|].
  destruct (IH (join s (outOf out p))) as (s' & -> & Hw). exists s'. split; [done|]. etransitivity; [exact (proj1 (weaker_join s (outOf out p)))|exact Hw].
Qed.

Lemma joinReached_pred out reached b l : b ∈ l -> b ∈ reached -> forall acc, exists s',
  foldl (joinReached out reached) acc l = Some s' /\ weaker (outOf out b) s'.
Proof.
  intros Hin Hr. induction l as [|p l IH]; intros acc; [by apply elem_of_nil in Hin|]. cbn. apply elem_of_cons in Hin as [<-|Hin]; [|by apply IH].
  unfold joinReached at 2. rewrite bool_decide_true by done. cbn [negb].
  destruct (joinReached_some out reached l (match acc with Some s => join s (outOf out b) | None => outOf out b end)) as (s' & -> & Hw).
  exists s'. split; [done|]. etransitivity; [|exact Hw]. destruct acc as [s|]; [exact (proj2 (weaker_join s (outOf out b)))|done].
Qed.

(** The cells that are written through addresses [a] did not resolve, by a store or by who
    was handed the address, are among the candidates of [a]. *)
Definition listed (a : protocolAliasAnalysis) (p : nat * nat) (i : instruction) (st st' : state) : Prop :=
  forall s, before a !! p = Some s -> written_where_listed heap n s i st st'.

Section Finished.
Context (w : worklist) (Hs : settled w) (Hq : queue w = []).

Record described (p : point) : Prop := {
  p_from : from_block p ∈ reached w \/ forall block, blockAt fn (at_block p) = Some block -> preds block = [];
  p_entered : describes (outOf (out w) (from_block p)) (entered p) \/ forall block, blockAt fn (at_block p) = Some block -> preds block = [];
  p_now : forall block, blockAt fn (at_block p) = Some block -> exists s, inputOf (at_block p) block (out w) (reached w) = Some s /\
    describes (transferAll block (out w) (reached w) (take (next p) (instrs block)) s) (now p);
}.

Lemma finished_consistent b block : blockAt fn b = Some block -> consistent w b block.
Proof. intros Hb. apply (s_consistent w Hs); [done|]. rewrite Hq. by intros ?%elem_of_nil. Qed.

Lemma reaches_described p : reaches heap n fn (listed (found w)) p -> described p.
Proof.
  induction 1 as [|b from i entry st block x st' _ [P1 P2 P3] Hb Hx Hl He|b from entry st block c _ [P1 P2 P3] Hb Hc]; cbn [at_block from_block next entered now] in *.
  - split; cbn [at_block from_block next entered now]; [right; apply entry_preds|right; apply entry_preds|]. intros block Hb.
    destruct (inputOf 0 block (out w) (reached w)) as [s|] eqn:E; [|done]. exists s. split; [done|]. cbn. by eapply describes_entry.
  - split; cbn [at_block from_block next entered now]; [done|done|]. intros block' Hb'. rewrite Hb in Hb'. injection Hb' as <-. destruct (P3 block Hb) as (s & Hi & Hd).
    exists s. split; [done|]. rewrite (take_S_r _ _ _ Hx). unfold transferAll. rewrite foldl_app. cbn.
    eapply describes_instruction; [..|exact He]; [naive_solver|naive_solver|exact Hd|]. apply Hl.
    apply (finished_consistent b block Hb s Hi). by eapply lookup_lt_Some.
  - destruct (P3 block Hb) as (s & Hi & Hd). rewrite firstn_all in Hd.
    destruct (finished_consistent b block Hb s Hi) as (Hr & (o & Ho & Hsim) & _).
    assert (describes (outOf (out w) b) st) as Hout by (unfold outOf; rewrite Ho; by eapply similar_describes).
    split; cbn [at_block from_block next entered now]; [by left|by left|]. intros target Ht. destruct (wf_succ fn Hflow _ _ _ Hb Hc) as (target' & Ht' & Hp).
    rewrite Ht in Ht'. injection Ht' as <-. destruct (joinReached_pred (out w) (reached w) b (merge_sort Nat.le (preds target))) with (acc := @None protocolAliasSnapshot)
      as (s' & Hs' & Hw); [by rewrite merge_sort_Permutation|done|].
    exists s'. split; [|by eapply weaker_describes].
    unfold protocolAliasInputState. destruct (Nat.eqb_spec c 0) as [->|_]; [by destruct (Hentry _ _ Hb)|done].
Qed.

(** What a finished analysis records before an instruction describes the executions there. *)
Lemma finished_describes p block : reaches heap n fn (listed (found w)) p -> blockAt fn (at_block p) = Some block -> (next p < length (instrs block))%nat ->
  exists s, before (found w) !! (at_block p, next p) = Some s /\ describes s (now p).
Proof.
  intros Hp Hb Hlt. destruct (p_now p (reaches_described p Hp) block Hb) as (s & Hi & Hd).
  eexists. split; [|exact Hd]. by apply (finished_consistent _ _ Hb s Hi).
Qed.
End Finished.
End Worklist.

(** ** Termination *)

(** Without a cycle, a visit replaces a block by blocks of lower rank; [order] ranks the blocks
    and [degree] bounds their successors. *)
Section Acyclic.
Context (heap : value -> ssaValue) (n : naming) (fn : functionBody) (order : nat -> nat) (degree : nat).
Context (Horder : forall b block c, blockAt fn b = Some block -> c ∈ succs block -> (order c < order b)%nat).
Context (Hdegree : forall b block, blockAt fn b = Some block -> (length (succs block) <= degree)%nat).

Definition weight (b : nat) : nat := (degree + 1) ^ order b.
Definition weights (l : list nat) : nat := sum_list_with weight l.

Lemma weights_app l k : weights (l ++ k) = (weights l + weights k)%nat.
Proof. apply sum_list_with_app. Qed.

Lemma weight_positive b : (1 <= weight b)%nat.
Proof. unfold weight. pose proof (Nat.pow_nonzero (degree + 1) (order b)). lia. Qed.

Lemma weights_below m l : (forall c, c ∈ l -> (order c < m)%nat) -> (weights l <= length l * (degree + 1) ^ (m - 1))%nat.
Proof.
  induction l as [|c l IH]; intros H; [done|]. unfold weights in *. cbn [sum_list_with length].
  assert (weight c <= (degree + 1) ^ (m - 1))%nat as Hc.
  { apply Nat.pow_le_mono_r; [lia|]. specialize (H c ltac:(left)). lia. }
  specialize (IH ltac:(intros; apply H; by right)). lia.
Qed.

Lemma weights_succs b block : blockAt fn b = Some block -> (weights (succs block) < weight b)%nat.
Proof.
  intros Hb. pose proof (weights_below (order b) (succs block) (fun c => Horder b block c Hb)) as Hw.
  pose proof (Hdegree b block Hb) as Hd. unfold weight. destruct (order b) as [|m] eqn:Em.
  - destruct (succs block) as [|c l] eqn:Es; [cbn; lia|]. specialize (Horder b block c Hb ltac:(rewrite Es; left)). lia.
  - rewrite Nat.pow_succ_r'. replace (S m - 1)%nat with m in Hw by lia. pose proof (Nat.pow_nonzero (degree + 1) m ltac:(lia)).
    pose proof (Nat.mul_le_mono_r _ _ ((degree + 1) ^ m) Hd). lia.
Qed.

Lemma weights_enqueue l : forall q inQ, (weights (fst (foldl enqueueBlock (q, inQ) l)) <= weights q + weights l)%nat.
Proof.
  induction l as [|c l IH]; intros q inQ; cbn [foldl]; [cbn [fst]; lia|]. unfold enqueueBlock at 2. cbn [fst snd].
  change (weights (c :: l)) with (weight c + weights l)%nat. case_bool_decide.
  - specialize (IH q inQ). lia.
  - specialize (IH (q ++ [c]) ({[c]} ∪ inQ)). rewrite weights_app in IH. unfold weights at 3 in IH. cbn in IH. lia.
Qed.

Lemma visit_weight b rest w : (weights (queue (visitBlock (IM := namer n) heap fn b rest w)) < weight b + weights rest)%nat.
Proof.
  pose proof (weight_positive b) as Hp. destruct (blockAt fn b) as [block|] eqn:Eb; [|rewrite visit_missing by done; cbn [queue]; lia].
  destruct (protocolAliasInputState (IM := namer n) fn b block (out w) (reached w)) as [s|] eqn:Ei;
    [|rewrite (visit_unreached heap n fn b rest w block) by done; cbn [queue]; lia].
  rewrite (visit_reached heap n fn b rest w block s) by done. cbn zeta. destruct (match out w !! b with Some _ => _ | None => false end); [cbn [queue]; lia|].
  cbn [queue]. pose proof (weights_enqueue (succs block) rest (inQueue w ∖ {[b]})). pose proof (weights_succs b block Eb). lia.
Qed.

Lemma run_terminates steps : forall w, (weights (queue w) <= steps)%nat -> exists w', runWorklist (IM := namer n) heap fn steps w = Some w'.
Proof.
  induction steps as [|steps IH]; intros w Hw; cbn [runWorklist]; destruct (queue w) as [|b rest] eqn:Eq; unname; try (by eexists).
  - change (weights (b :: rest)) with (weight b + weights rest)%nat in Hw. pose proof (weight_positive b). lia.
  - apply IH. pose proof (visit_weight b rest w). change (weights (b :: rest)) with (weight b + weights rest)%nat in Hw. lia.
Qed.
End Acyclic.
