(* ===== verification/AliasJoin.v ===== *)
(** * The join of alias snapshots

    On well-formed snapshots the join of [goplint/protocol_alias_analysis.go] is a semilattice,
    so that neither the order of the predecessors nor that of a map range matters, and [equal]
    is equality. *)

From S2P Require Export AliasRun.
Local Open Scope Z_scope.

Lemma snapshot_eq (s s' : protocolAliasSnapshot) :
  (forall k, must s !! k = must s' !! k) -> (forall k, k ∈ ambiguous s <-> k ∈ ambiguous s') -> (forall k, possible s !! k = possible s' !! k) ->
  memoryOf s = memoryOf s' -> s = s'.
Proof.
  intros H1 H2 H3 Hm. destruct s as [m a p mm ma mp], s' as [m' a' p' mm' ma' mp']. injection Hm as -> -> ->. cbn in *.
  apply map_eq in H1 as ->. apply map_eq in H3 as ->. by apply set_eq in H2 as ->.
Qed.

Definition wellFormed (s : protocolAliasSnapshot) : Prop := within (fun o => o <> 0) s.

Lemma bindings_comm s s' : joinProtocolAliasBindings s s' = joinProtocolAliasBindings s' s.
Proof.
  assert (forall k, agreed s s' k = agreed s' s k) as Ha.
  { intros k. apply option_eq. intros o. rewrite !agreed_Some. tauto. }
  apply snapshot_eq; [intros k..|by rewrite !bindings_no_memory].
  - by rewrite !must_bindings.
  - rewrite !ambiguous_bindings, Ha. set_solver.
  - rewrite !possible_bindings, Ha, (union_comm_L (possibilities s k)), (union_comm_L (identitiesOf s)). done.
Qed.

Lemma join_comm_bindings s s' : join s s' = join s' s.
Proof.
  destruct (join_bindings s s') as (E1 & E2 & E3), (join_bindings s' s) as (F1 & F2 & F3).
  apply snapshot_eq; [intros k; by rewrite ?E1, ?E2, ?E3, ?F1, ?F2, ?F3, bindings_comm..|].
  by rewrite !join_memory, bindings_comm.
Qed.

Section Tidy.
Context (s : protocolAliasSnapshot) (Hs : tidy (must s) (ambiguous s) (possible s)).

Lemma possibilities_known k : k ∉ identitiesOf s -> possibilities s k = ∅.
Proof.
  unfold identitiesOf, possibilities. rewrite not_elem_of_union, not_elem_of_dom. intros [-> Ha].
  destruct (possible s !! k) eqn:E; [|done]. by apply (t_open _ _ _ Hs) in E as [? _].
Qed.

Lemma bindings_idem : joinProtocolAliasBindings s s = mkSnapshot (must s) (ambiguous s) (possible s) ∅ ∅ ∅.
Proof.
  assert (forall k, agreed s s k = must s !! k) as Ha.
  { intros k. apply option_eq. intros o. rewrite agreed_Some. tauto. }
  apply snapshot_eq; [intros k..|by rewrite bindings_no_memory]; cbn.
  - by rewrite must_bindings.
  - rewrite ambiguous_bindings, Ha, union_idemp_L. unfold identitiesOf. rewrite elem_of_union, elem_of_dom. split.
    + intros [[H|H] Hn]; [rewrite Hn in H; by destruct H|done].
    + intros H. split; [by right|by apply (t_disjoint _ _ _ Hs)].
  - rewrite possible_bindings, Ha, !union_idemp_L. case_bool_decide as H.
    + destruct H as (_ & Hn & He). unfold possibilities in *. rewrite Hn in *. destruct (possible s !! k); done.
    + destruct (possible s !! k) as [l|] eqn:E; [|done]. destruct H. destruct (t_open _ _ _ Hs _ _ E) as [Hk Hl].
      pose proof (t_disjoint _ _ _ Hs _ Hk) as Hm. unfold identitiesOf, possibilities. rewrite Hm, E. split; [set_solver|done].
Qed.
End Tidy.

Lemma possibilities_bindings s s' k : tidy (must s) (ambiguous s) (possible s) -> tidy (must s') (ambiguous s') (possible s') ->
  possibilities (joinProtocolAliasBindings s s') k = possibilities s k ∪ possibilities s' k.
Proof.
  intros Hs Hs'. unfold possibilities at 1. rewrite must_bindings. destruct (agreed s s' k) as [o|] eqn:E.
  - apply agreed_Some in E as [E1 E2]. unfold possibilities. rewrite E1, E2. set_solver.
  - rewrite possible_bindings. case_bool_decide as H; [done|]. cbn.
    destruct (decide (k ∈ identitiesOf s ∪ identitiesOf s')) as [Hk|Hk].
    + destruct (decide (possibilities s k ∪ possibilities s' k = ∅)) as [->|He]; [done|tauto].
    + rewrite not_elem_of_union in Hk. destruct Hk as [H1 H2]. rewrite !possibilities_known by done. set_solver.
Qed.

Lemma identities_bindings s s' : identitiesOf (joinProtocolAliasBindings s s') = identitiesOf s ∪ identitiesOf s'.
Proof.
  apply set_eq. intros k. unfold identitiesOf at 1. rewrite elem_of_union, elem_of_dom, must_bindings, ambiguous_bindings.
  destruct (agreed s s' k) as [o|] eqn:E; [|split; [intros [[]|[]]; done|tauto]]. split; [|intros _; left; by eexists]. intros _.
  apply agreed_known in E. by apply elem_of_elements in E.
Qed.

Lemma bindings_assoc a b c : tidy (must a) (ambiguous a) (possible a) -> tidy (must b) (ambiguous b) (possible b) ->
  tidy (must c) (ambiguous c) (possible c) ->
  joinProtocolAliasBindings (joinProtocolAliasBindings a b) c = joinProtocolAliasBindings a (joinProtocolAliasBindings b c).
Proof.
  intros Ha Hb Hc.
  assert (forall k, agreed (joinProtocolAliasBindings a b) c k = agreed a (joinProtocolAliasBindings b c) k) as Hag.
  { intros k. apply option_eq. intros o. rewrite !agreed_Some, !must_bindings, !agreed_Some. tauto. }
  apply snapshot_eq; [intros k..|by rewrite !bindings_no_memory].
  - by rewrite !must_bindings.
  - rewrite !ambiguous_bindings, !identities_bindings, Hag. set_solver.
  - rewrite !possible_bindings, !identities_bindings, Hag, !possibilities_bindings by done. by rewrite !(assoc_L (∪)).
Qed.

Lemma join_idem s : wellFormed s -> join s s = s.
Proof.
  intros Hs. destruct (join_bindings s s) as (E1 & E2 & E3). rewrite (bindings_idem s (in_values _ s Hs)) in E1, E2, E3.
  apply snapshot_eq; [intros k; by rewrite ?E1, ?E2, ?E3..|]. rewrite join_memory.
  by rewrite (bindings_idem (memoryOf s) (in_memory _ s Hs)).
Qed.

Lemma bindings_ext a a' b b' : must a = must a' -> ambiguous a = ambiguous a' -> possible a = possible a' ->
  must b = must b' -> ambiguous b = ambiguous b' -> possible b = possible b' ->
  joinProtocolAliasBindings a b = joinProtocolAliasBindings a' b'.
Proof.
  intros H1 H2 H3 H4 H5 H6.
  assert (forall k, agreed a b k = agreed a' b' k) as Ha by (intros k; unfold agreed; by rewrite H1, H4).
  apply snapshot_eq; [intros k..|by rewrite !bindings_no_memory].
  - by rewrite !must_bindings.
  - unfold identitiesOf. rewrite !ambiguous_bindings, Ha. unfold identitiesOf. by rewrite H1, H2, H4, H5.
  - rewrite !possible_bindings, Ha. unfold identitiesOf, possibilities. by rewrite H1, H2, H3, H4, H5, H6.
Qed.

Lemma join_assoc a b c : wellFormed a -> wellFormed b -> wellFormed c -> join (join a b) c = join a (join b c).
Proof.
  intros Ha Hb Hc. destruct (join_bindings a b) as (A1 & A2 & A3), (join_bindings b c) as (B1 & B2 & B3).
  destruct (join_bindings (join a b) c) as (C1 & C2 & C3), (join_bindings a (join b c)) as (D1 & D2 & D3).
  assert (joinProtocolAliasBindings (join a b) c = joinProtocolAliasBindings a (join b c)) as He.
  { rewrite (bindings_ext (join a b) (joinProtocolAliasBindings a b) c c) by done.
    rewrite (bindings_ext a a (join b c) (joinProtocolAliasBindings b c)) by done. apply bindings_assoc; by eapply in_values. }
  apply snapshot_eq; [intros k; rewrite ?C1, ?C2, ?C3, ?D1, ?D2, ?D3, He; done..|].
  rewrite !join_memory. apply bindings_assoc; by eapply in_memory.
Qed.

(** ** Equality *)
Lemma samePossible_eq p q : (forall k l, p !! k = Some l -> l <> ∅) -> samePossible p q = true <-> p = q.
Proof.
  intros Hp. unfold samePossible. rewrite andb_true_iff, Nat.eqb_eq, forallb_forall. split; [|intros ->; split; [done|]].
  - intros [Hsize H]. assert (p ⊆ q) as Hsub.
    { apply map_subseteq_spec. intros k l Hk. specialize (H (k, l)). cbn in H. rewrite bool_decide_eq_true in H.
      assert (l = default ∅ (q !! k)) as -> by (apply H, list_elem_of_In; by apply elem_of_map_to_list).
      destruct (q !! k) eqn:E; [done|]. cbn in *. by destruct (Hp k ∅). }
    apply map_subseteq_size_eq; [done|lia].
  - intros [k l] Hin%list_elem_of_In%elem_of_map_to_list. cbn. rewrite Hin. by apply bool_decide_eq_true.
Qed.

Lemma equal_eq s s' : wellFormed s -> equal s s' = true <-> s = s'.
Proof.
  intros Hs. unfold equal. rewrite !andb_true_iff, !bool_decide_eq_true, !samePossible_eq.
  - destruct s, s'; cbn. split; [intros (((((? & ?) & ?) & ?) & ?) & ?); congruence|intros [=]; tauto].
  - intros k l Hk. by destruct (t_open _ _ _ (in_memory _ s Hs) _ _ Hk).
  - intros k l Hk. by destruct (t_open _ _ _ (in_values _ s Hs) _ _ Hk).
Qed.
