(* ===== verification/AliasDefects.v ===== *)
(** * Where the alias analysis falls short

    Three small functions on which [goplint/protocol_alias_analysis.go] does not do what it
    says: the worklist of one never empties, in another an alias is not among the candidates,
    and in the third a value is resolved to what it does not hold. *)

From S2P Require Export AliasWorklist AliasJoin.
Local Open Scope Z_scope.

(** Equality of the state of the analysis is decidable. *)
#[export] Instance protocolIdentityDescriptor_eq_dec : EqDecision protocolIdentityDescriptor.
Proof. solve_decision. Defined.
#[export] Instance protocolIdentityInterner_eq_dec : EqDecision protocolIdentityInterner.
Proof. solve_decision. Defined.
#[export] Instance protocolAliasAnalysis_eq_dec : EqDecision protocolAliasAnalysis.
Proof. solve_decision. Defined.
#[export] Instance worklist_eq_dec : EqDecision worklist.
Proof. solve_decision. Defined.

(** ** Visits *)
(** One instruction, and one jump, of a concrete execution. *)
Ltac advance b i how := eapply (reachesNext _ _ _ _ b _ i); [|reflexivity|reflexivity| |how]; [|first [by intros ?|idtac]].
Ltac jump b c := eapply (reachesJump _ _ _ _ b _ _ _ _ c); [|reflexivity|by apply list_elem_of_In; cbn; auto].

Section Visits.
Context (heap : value -> ssaValue) (fuel : nat) (fn : functionBody).
Abbreviation I := (interner heap fuel).

(** The worklist after [k] visits, if the queue lasts. *)
Fixpoint visits (k : nat) (w : worklist) (i : protocolIdentityInterner) : option (worklist * protocolIdentityInterner) :=
  match k with
  | O => Some (w, i)
  | S k' =>
      match queue w with
      | [] => None
      | b :: rest =>
          match visitBlock (IM := I) heap fn b rest w i with Some (w', i') => visits k' w' i' | None => None end
      end
  end.

Lemma visits_add j k w i : visits (j + k) w i = match visits j w i with Some (w', i') => visits k w' i' | None => None end.
Proof.
  revert w i. induction j as [|j IH]; intros w i; [done|]. cbn. destruct (queue w) as [|b rest]; [done|].
  destruct (visitBlock (IM := I) heap fn b rest w i) as [[w' i']|]; [apply IH|done].
Qed.

Lemma visits_run k : forall w i w' i' steps, visits k w i = Some (w', i') ->
  if (steps <? k)%nat then exists j, runWorklist (IM := I) heap fn steps w i = Some (None, j)
  else runWorklist (IM := I) heap fn steps w i = runWorklist (IM := I) heap fn (steps - k) w' i'.
Proof.
  induction k as [|k IH]; intros w i w' i' steps H.
  - injection H as <- <-. by rewrite Nat.sub_0_r.
  - cbn in H. destruct (queue w) as [|b rest] eqn:Eq; [done|]. destruct (visitBlock (IM := I) heap fn b rest w i) as [[w1 i1]|] eqn:Ev; [|done].
    destruct steps as [|steps]; cbn [runWorklist]; rewrite Eq; [by exists i|]. unfold mbind, i_bind. cbn [interner]. unfold interning_bind.
    rewrite Ev. specialize (IH _ _ _ _ steps H). by rewrite Nat.sub_succ.
Qed.

(** A worklist that comes back to where it was never empties. *)
Lemma visits_loop k w i : (0 < k)%nat -> visits k w i = Some (w, i) -> forall steps, exists j, runWorklist (IM := I) heap fn steps w i = Some (None, j).
Proof.
  intros Hk Hloop steps. induction (lt_wf steps) as [steps _ IH]. pose proof (visits_run k w i w i steps Hloop) as H.
  destruct (Nat.ltb_spec steps k); [done|]. rewrite H. apply IH. lia.
Qed.

Lemma analysis_loops j k : (0 < k)%nat ->
  visits j (initialWorklist fn) newProtocolIdentityInterner = visits (j + k) (initialWorklist fn) newProtocolIdentityInterner ->
  is_Some (visits j (initialWorklist fn) newProtocolIdentityInterner) ->
  forall steps, exists i', analyzeProtocolAliases (IM := I) heap fn steps newProtocolIdentityInterner = Some (None, i').
Proof.
  intros Hk Hjk [[w i] Hj] steps. rewrite visits_add, Hj in Hjk. symmetry in Hjk.
  assert (exists i', runWorklist (IM := I) heap fn steps (initialWorklist fn) newProtocolIdentityInterner = Some (None, i')) as [i' Hr].
  { pose proof (visits_run j _ _ _ _ steps Hj) as H. destruct (steps <? j)%nat; [done|]. rewrite H. by eapply visits_loop. }
  exists i'. unfold analyzeProtocolAliases, mbind, i_bind. cbn [interner]. unfold interning_bind. by rewrite Hr.
Qed.
End Visits.

(** ** A worklist that never empties *)

(** [[
    func f(v *Holder, qq **Slot) {
        slot := &Slot{}; old := &Holder{s: slot}; slot.p = old
        q := *qq
        for more() { q.p = v; h := slot.p; q = h.s }
    }
    ]] *)
Module Diverging.
Definition pointer : option goType := Some (TypePointer (TypeStruct ["p"])).
Definition val (k : valueKind) (n : string) : ssaValue := mkValue k n 0 "f" pointer.

Definition heap (v : value) : ssaValue :=
  match v with
  | 1 => val (ParameterValue [1; 2]%nat false) "v"
  | 2 => val (ParameterValue [1; 2]%nat false) "qq"
  | 10 => val Alloc "t0"
  | 11 => val Alloc "t1"
  | 12 => val (FieldAddr 11%nat 0) "t2"
  | 13 => val (FieldAddr 10%nat 0) "t3"
  | 14 => val (UnOp "*" 2%nat) "t4"
  | 20 => val (Phi [14; 27]%nat) "t5"
  | 21 => val (FieldAddr 20%nat 0) "t6"
  | 22 => val (FieldAddr 10%nat 0) "t7"
  | 23 => val (UnOp "*" 22%nat) "t8"
  | 24 => val (FieldAddr 23%nat 0) "t9"
  | 27 => val (UnOp "*" 24%nat) "t10"
  | _ => val (OtherValue []) "more"
  end%nat.

Definition fn : functionBody := mkBody "f" [1; 2]%nat [] None None [
  mkBasicBlock [Define 10; Define 11; Define 12; Store 12 10; Define 13; Store 13 11; Define 14; Jump]%nat [] [1]%nat;
  mkBasicBlock [Define 20; Define 28; If 28]%nat [0; 2]%nat [2; 3]%nat;
  mkBasicBlock [Define 21; Store 21 1; Define 22; Define 23; Define 24; Define 27; Jump]%nat [1]%nat [1]%nat;
  mkBasicBlock [Return []] [1]%nat []].
End Diverging.

(** C23. There is a function with one loop, without a call or a global, on which the queue of
    [analyzeProtocolAliases] comes back to where it was: whatever the number of iterations,
    the analysis is not finished. *)
Theorem alias_analysis_diverges : exists heap fn, wellFormedFlow fn /\
  forall steps, exists i, analyzeProtocolAliases (IM := interner heap 5) heap fn steps newProtocolIdentityInterner = Some (None, i).
Proof.
  exists Diverging.heap, Diverging.fn. split; [apply checkFlow_spec; by vm_compute|].
  apply (analysis_loops _ _ _ 12 6); [lia| |].
  - apply (bool_decide_unpack _). vm_compute. exact Logic.I.
  - apply (bool_decide_unpack _). vm_compute. exact Logic.I.
Qed.

(** ** Runs of the examples *)


(** What an analysis of at most 20 visits found, and the identities it ended with. *)
Definition analyzed (heap : value -> ssaValue) (fn : functionBody) : protocolAliasAnalysis * protocolIdentityInterner :=
  match analyzeProtocolAliases (IM := interner heap 5) heap fn 20 newProtocolIdentityInterner with
  | Some (Some a, i) => (a, i)
  | _ => (mkAnalysis ∅ ∅, newProtocolIdentityInterner)
  end.

Lemma analyzed_spec heap fn :
  match analyzeProtocolAliases (IM := interner heap 5) heap fn 20 newProtocolIdentityInterner with Some (Some _, _) => true | _ => false end = true ->
  analyzeProtocolAliases (IM := interner heap 5) heap fn 20 newProtocolIdentityInterner = Some (Some (fst (analyzed heap fn)), snd (analyzed heap fn)).
Proof. unfold analyzed. by destruct (analyzeProtocolAliases (IM := interner heap 5) heap fn 20 newProtocolIdentityInterner) as [[[a|] i]|]. Qed.

(** ** A missing candidate *)

(** [[
    func f(x, y *T, s []*T, i, j int, c bool) {
        s[i] = y; p := x
        if c { p = s[j] }
        use(p)
    }
    ]] *)
Module Missing.
Definition pointer : option goType := Some (TypePointer TypeOther).
Definition val (k : valueKind) (n : string) : ssaValue := mkValue k n 0 "f" pointer.

Definition heap (v : value) : ssaValue :=
  match v with
  | 1 => val (ParameterValue [1; 2; 3]%nat false) "x"
  | 2 => val (ParameterValue [1; 2; 3]%nat false) "y"
  | 3 => val (ParameterValue [1; 2; 3]%nat false) "s"
  | 10 => val (IndexAddr 3%nat 4%nat) "t0"
  | 11 => val (IndexAddr 3%nat 5%nat) "t1"
  | 12 => val (UnOp "*" 11%nat) "t2"
  | 13 => val (Phi [1; 12]%nat) "t3"
  | _ => val (OtherValue []) "i"
  end%nat.

Definition fn : functionBody := mkBody "f" [1; 2; 3]%nat [] None None [
  mkBasicBlock [Define 10; Store 10 2; If 6]%nat [] [1; 2]%nat;
  mkBasicBlock [Define 11; Define 12; Jump]%nat [0]%nat [2]%nat;
  mkBasicBlock [Define 13; Return []]%nat [0; 1]%nat []].

Definition names : naming := namingOf (snd (analyzed heap fn)).
Definition y : protocolIdentity := nameOf names 2%nat.
End Missing.

(** C24. The candidates of a bounded ambiguity may be incomplete, against
    [mayAliasBefore]: a phi of a known object and of a load whose candidates are not known has
    the known object for its only candidate.  There is a function where [mayAliasBefore] says
    that a value cannot be [y] and an execution in which it is. *)
Theorem alias_candidates_incomplete : exists heap fn a i object p,
  analyzeProtocolAliases (IM := interner heap 5) heap fn 20 newProtocolIdentityInterner = Some (Some a, i) /\
  mayAliasBefore (IM := interner heap 5) a (2, 1)%nat 13%nat object i = Some (false, i) /\ object <> 0 /\
  reaches heap (namingOf i) fn (undisturbed (namingOf i)) p /\ (at_block p, next p) = (2, 1)%nat /\ held (nameOf (namingOf i) 13%nat) (now p) = object.
Proof.
  exists Missing.heap, Missing.fn, (fst (analyzed Missing.heap Missing.fn)), (snd (analyzed Missing.heap Missing.fn)), Missing.y.
  eexists. split; [apply analyzed_spec; by vm_compute|]. split; [by vm_compute|]. split; [by vm_compute|].
  fold Missing.names. split; [|split].
  - advance 2%nat 0%nat ltac:(apply executes_define; by eapply (computesPhi _ _ _ _ _ _ _ [1; 12]%nat 1)).
    jump 1%nat 2%nat.
    advance 1%nat 2%nat ltac:(by apply executes_plain).
    advance 1%nat 1%nat ltac:(apply executes_define; by eapply computesLoad).
    advance 1%nat 0%nat ltac:(apply executes_define; by eapply (computesAnyElement _ _ _ _ _ _ _ _ _ 7)).
    jump 0%nat 1%nat.
    advance 0%nat 2%nat ltac:(by apply executes_plain).
    advance 0%nat 1%nat ltac:(by apply executes_plain).
    advance 0%nat 0%nat ltac:(apply executes_define; by eapply (computesAnyElement _ _ _ _ _ _ _ _ _ 7)).
    apply reachesEntry.
  - reflexivity.
  - by vm_compute.
Qed.

(** ** A wrong strong update *)

(** [[
    func f(x, y *T, s []**T, i int, c bool) {
        cell := new( *T ); *cell = x; p := cell
        if c { p = s[i] }
        *p = y
        use( *cell )
    }
    ]] *)
Module Overwritten.
Definition pointer : option goType := Some (TypePointer TypeOther).
Definition val (k : valueKind) (n : string) : ssaValue := mkValue k n 0 "f" pointer.

Definition heap (v : value) : ssaValue :=
  match v with
  | 1 => val (ParameterValue [1; 2; 3]%nat false) "x"
  | 2 => val (ParameterValue [1; 2; 3]%nat false) "y"
  | 3 => val (ParameterValue [1; 2; 3]%nat false) "s"
  | 10 => val Alloc "t0"
  | 11 => val (IndexAddr 3%nat 4%nat) "t1"
  | 12 => val (UnOp "*" 11%nat) "t2"
  | 13 => val (Phi [10; 12]%nat) "t3"
  | 14 => val (UnOp "*" 10%nat) "t4"
  | _ => val (OtherValue []) "i"
  end%nat.

Definition fn : functionBody := mkBody "f" [1; 2; 3]%nat [] None None [
  mkBasicBlock [Define 10; Store 10 1; If 6]%nat [] [1; 2]%nat;
  mkBasicBlock [Define 11; Define 12; Jump]%nat [0]%nat [2]%nat;
  mkBasicBlock [Define 13; Store 13 2; Define 14; Return []]%nat [0; 1]%nat []].

Definition names : naming := namingOf (snd (analyzed heap fn)).
Definition x : protocolIdentity := nameOf names 1%nat.
Definition y : protocolIdentity := nameOf names 2%nat.
End Overwritten.

(** C25. A store through an ambiguous address with one known candidate is taken to write that
    candidate: there is a function where [resolveBefore] says that a value must be [y] and an
    execution in which it is [x]. *)
Theorem alias_resolution_wrong : exists heap fn a i x y p,
  analyzeProtocolAliases (IM := interner heap 5) heap fn 20 newProtocolIdentityInterner = Some (Some a, i) /\
  resolveBefore (IM := interner heap 5) a (2, 3)%nat 14%nat i = Some ((y, protocolAliasMust), i) /\
  reaches heap (namingOf i) fn (undisturbed (namingOf i)) p /\ (at_block p, next p) = (2, 3)%nat /\
  held (nameOf (namingOf i) 14%nat) (now p) = x /\ x <> y.
Proof.
  exists Overwritten.heap, Overwritten.fn, (fst (analyzed Overwritten.heap Overwritten.fn)), (snd (analyzed Overwritten.heap Overwritten.fn)),
    Overwritten.x, Overwritten.y.
  eexists. split; [apply analyzed_spec; by vm_compute|]. split; [by vm_compute|].
  fold Overwritten.names. split; [|split; [|split]].
  - advance 2%nat 2%nat ltac:(apply executes_define; by eapply computesLoad).
    advance 2%nat 1%nat ltac:(by apply executes_plain).
    advance 2%nat 0%nat ltac:(apply executes_define; by eapply (computesPhi _ _ _ _ _ _ _ [10; 12]%nat 1)).
    jump 1%nat 2%nat.
    advance 1%nat 2%nat ltac:(by apply executes_plain).
    advance 1%nat 1%nat ltac:(apply executes_define; by eapply computesLoad).
    advance 1%nat 0%nat ltac:(apply executes_define; by eapply (computesAnyElement _ _ _ _ _ _ _ _ _ 7)).
    jump 0%nat 1%nat.
    advance 0%nat 2%nat ltac:(by apply executes_plain).
    advance 0%nat 1%nat ltac:(by apply executes_plain).
    advance 0%nat 0%nat ltac:(by apply executes_define, computesOther).
    apply reachesEntry.
  - reflexivity.
  - by vm_compute.
  - by vm_compute.
Qed.
