(* ===== verification/AliasTheorems.v ===== *)
(** * The alias analysis

    The properties of [goplint/protocol_identity.go] and [goplint/protocol_alias_analysis.go]:
    identities, well-formed results, termination without loops, and what a must-resolution
    promises; the rest is in [AliasDefects]. *)

From S2P Require Export AliasDefects.
Local Open Scope Z_scope.

(** What SSA form promises: operands of addresses and copies are acyclic, at most [fuel] deep;
    constants have a value to print. *)
Record operandsOk (heap : value -> ssaValue) (rank : value -> nat) (fuel : nat) : Prop := {
  ok_rank : forall v w, w ∈ followed heap v -> (rank w < rank v)%nat;
  ok_fuel : forall v, (rank v < fuel)%nat;
  ok_exact : forall v exact isNil, kind (heap v) = Const (Some exact) isNil -> exact <> "";
}.

(** Instructions define no globals, control flow has inverse edges, and the entry no predecessor. *)
Record functionOk (heap : value -> ssaValue) (fn : functionBody) : Prop := {
  ok_global : forall b block, blockAt fn b = Some block -> Forall (noGlobal heap) (instrs block);
  ok_flow : wellFormedFlow fn;
  ok_entry : forall b block, blockAt fn b = Some block -> 0%nat ∉ succs block;
}.

Section Run.
Context (heap : value -> ssaValue) (rank : value -> nat) (fuel : nat) (fn : functionBody).
Context (Hheap : operandsOk heap rank fuel) (Hfn : functionOk heap fn).

Abbreviation analyze := (analyzeProtocolAliases (IM := interner heap fuel) heap fn).

Lemma analysis_runs steps : exists r i, analyze steps newProtocolIdentityInterner = Some (r, i) /\ wf heap i /\
  match r with Some a => knowsFound a i | None => True end /\
  forall j, wf heap j -> extends i j -> analyzeProtocolAliases (IM := namer (namingOf j)) heap fn steps = r.
Proof.
  destruct Hheap as [Hrank Hfuel Hexact], Hfn as [Hglobal _ _].
  destruct (fo_analyze heap rank Hrank fuel Hfuel Hexact fn Hglobal steps newProtocolIdentityInterner (new_wf heap) Logic.I)
    as (r & i & H1 & H2 & _ & H4 & H5). by exists r, i.
Qed.

Lemma analysis_named steps a i j : analyze steps newProtocolIdentityInterner = Some (Some a, i) -> wf heap j -> extends i j ->
  exists w, settled heap (namingOf j) fn w /\ queue w = [] /\ found w = a.
Proof.
  intros Ha Hj He. destruct (analysis_runs steps) as (r & i' & H1 & _ & _ & H4). rewrite Ha in H1. injection H1 as <- <-.
  specialize (H4 j Hj He). unfold analyzeProtocolAliases in H4. revert H4. unname.
  destruct (runWorklist (IM := namer (namingOf j)) heap fn steps (initialWorklist fn)) as [w|] eqn:E; [|done]. intros [= <-].
  exists w. destruct (settled_run heap (namingOf j) fn (ok_flow heap fn Hfn) steps _ w (settled_initial heap (namingOf j) fn) E). done.
Qed.

Lemma value_named v i j identity : wf heap i ->
  internValue heap fuel v i = Some (identity, j) -> wf heap j /\ extends i j /\ identity = nameOf (namingOf j) v.
Proof.
  intros Hi Hv. destruct Hheap as [Hrank Hfuel _]. destruct (fo_value heap rank Hrank fuel Hfuel v (fun _ => True) i Hi Logic.I) as (a' & j' & H1 & H2 & H3 & _ & H5).
  cbn in H1. rewrite Hv in H1. injection H1 as <- <-. split; [done|]. split; [done|]. symmetry. by apply H5.
Qed.

Lemma analysis_describes steps a i j p block instruction : analyze steps newProtocolIdentityInterner = Some (Some a, i) ->
  wf heap j -> extends i j -> reaches heap (namingOf j) fn (listed heap (namingOf j) a) p ->
  blockAt fn (at_block p) = Some block -> instrs block !! next p = Some instruction ->
  exists s, before a !! (at_block p, next p) = Some s /\ describes s (now p).
Proof.
  intros Ha Hj He Hp Hb Hi. destruct (analysis_named steps a i j Ha Hj He) as (w & Hs & Hq & <-).
  eapply (finished_describes heap (namingOf j) fn); [apply Hfn|apply Hfn|done|done|done|done|by eapply lookup_lt_Some].
Qed.

Lemma interner_end steps r i : analyze steps newProtocolIdentityInterner = Some (r, i) -> wf heap i.
Proof. intros Ha. destruct (analysis_runs steps) as (r' & i' & H1 & H2 & _). congruence. Qed.

(** C19. A must-resolution is right in the executions of [AliasSemantics].  In them an object
    is named by the value that made it (one name per allocation site; distinct parameters and
    distinct unwritten contents are distinct objects); stores write the cell they address;
    at an instruction that hands an address to others (a store to a global, a send, a map
    update, a return, the start of a goroutine, a closure that escapes) that cell may be
    overwritten with anything; calls, deferred calls and all else write no cell.  When each
    cell written through an address that the analysis did not resolve is one it lists: if
    [resolveBefore] resolves a value to an object, the value is that object there; if
    [resolvePointeeBefore] resolves an address, the cell holds the object.  Loops are
    included. *)
Theorem alias_resolution_sound steps a i v o j p block instruction :
  analyze steps newProtocolIdentityInterner = Some (Some a, i) ->
  reaches heap (namingOf j) fn (listed heap (namingOf j) a) p ->
  blockAt fn (at_block p) = Some block -> instrs block !! next p = Some instruction ->
  (resolveBefore (IM := interner heap fuel) a (at_block p, next p) v i = Some ((o, protocolAliasMust), j) ->
    held (nameOf (namingOf j) v) (now p) = o) /\
  (resolvePointeeBefore (IM := interner heap fuel) a (at_block p, next p) v i = Some ((o, protocolAliasMust), j) ->
    content (held (nameOf (namingOf j) v) (now p)) (now p) = o).
Proof.
  intros Ha Hp Hb Hi. pose proof (interner_end _ _ _ Ha) as Hw.
  split; unfold resolveBefore, resolvePointeeBefore, snapshotBefore; destruct (before a !! (at_block p, next p)) as [s|] eqn:Es; try done;
    unfold mbind, i_bind; cbn [interner i_value]; unfold interning_bind;
    destruct (internValue heap fuel v i) as [[identity j']|] eqn:Ev; try done; intros [= Hr <-];
    destruct (value_named v i j' identity Hw Ev) as (Hj & He & ->);
    destruct (analysis_describes steps a i j' p block instruction Ha Hj He Hp Hb Hi) as (s' & Hs' & Hd); rewrite Es in Hs'; injection Hs' as <-.
  - by eapply resolve_held.
  - by eapply resolveMemory_content.
Qed.

(** C20. The analysis never fails on the way, whatever the number of iterations: every value it
    meets is named, and when the queue empties the snapshots it returns are well-formed (what
    is bound is not ambiguous, candidates belong to what is ambiguous and are not empty) and
    their objects are named. *)
Theorem alias_snapshots_well_formed steps : exists r i, analyze steps newProtocolIdentityInterner = Some (r, i) /\ wf heap i /\
  forall a b s, r = Some a -> before a !! b = Some s \/ after a !! b = Some s -> within (known i) s.
Proof.
  destruct (analysis_runs steps) as (r & i & H1 & H2 & H3 & _). exists r, i. do 2 (split; [done|]). intros a b s -> Hs.
  destruct H3 as [H3 H4]. destruct Hs as [Hs|Hs]; [by eapply H3|by eapply H4].
Qed.

(** C22. Without a loop the queue empties: with [order] a ranking of the blocks along the
    control flow and [degree] a bound of the successors of a block, as many iterations as the
    weights of the blocks are enough. *)
Theorem alias_analysis_terminates order degree steps :
  (forall b block c, blockAt fn b = Some block -> c ∈ succs block -> (order c < order b)%nat) ->
  (forall b block, blockAt fn b = Some block -> (length (succs block) <= degree)%nat) ->
  (weights order degree (seq 0 (length (blocks fn))) <= steps)%nat ->
  exists a i, analyze steps newProtocolIdentityInterner = Some (Some a, i).
Proof.
  intros Ho Hd Hs. destruct (analysis_runs steps) as (r & i & H1 & H2 & _ & H4).
  destruct (run_terminates heap (namingOf i) fn order degree Ho Hd steps (initialWorklist fn) Hs) as (w & Hw).
  specialize (H4 i H2 ltac:(reflexivity)). unfold analyzeProtocolAliases in H4. revert H4. unname. rewrite Hw. intros <-. by exists (found w), i.
Qed.

(** Values are named once and apart: interning a value again gives its name again, and a
    value that is no address shares its name with no other value, whatever was interned before
    and in between. *)
Theorem identities_stable v w x j y k i : wf heap i ->
  internValue heap fuel v i = Some (x, j) -> internValue heap fuel w j = Some (y, k) ->
  wf heap k /\ extends i k /\ values k !! v = Some x /\ values k !! w = Some y /\ (v = w -> x = y) /\ (addressed heap v = false -> x = y -> v = w).
Proof.
  intros Hi Hv Hw. destruct Hheap as [Hrank Hfuel _].
  destruct (internValue_spec heap rank Hrank fuel v (Hfuel v) i Hi) as (x' & j' & E1 & W1 & X1 & V1 & _). rewrite Hv in E1. injection E1 as <- <-.
  destruct (internValue_spec heap rank Hrank fuel w (Hfuel w) j W1) as (y' & k' & E2 & W2 & X2 & V2 & _). rewrite Hw in E2. injection E2 as <- <-.
  assert (values k !! v = Some x) as V3 by (eapply lookup_weaken; [exact V1|apply X2]).
  split; [done|]. split; [by etransitivity|]. split; [done|]. split; [done|]. split; [intros ->; congruence|].
  intros Ha ->. by eapply (wf_distinct heap k W2).
Qed.
End Run.

(** C21. Joins neither depend on the order of the predecessors nor on how often one is joined:
    on well-formed snapshots the join is a semilattice that binds exactly what both sides bind
    to the same object, and [equal] is equality. *)
Theorem alias_join_semilattice a b c : wellFormed a -> wellFormed b -> wellFormed c ->
  wellFormed (join a b) /\ join a b = join b a /\ join (join a b) c = join a (join b c) /\ join a a = a /\
  (forall k o, must (join a b) !! k = Some o <-> must a !! k = Some o /\ must b !! k = Some o) /\
  (forall k o, memoryMust (join a b) !! k = Some o <-> memoryMust a !! k = Some o /\ memoryMust b !! k = Some o) /\
  (equal a b = true <-> a = b).
Proof.
  intros Ha Hb Hc. split; [by apply within_join|]. split; [apply join_comm_bindings|]. split; [by apply join_assoc|].
  split; [by apply join_idem|]. split; [|split; [|by apply equal_eq]]; intros k o.
  - by rewrite (proj1 (join_bindings a b)), must_bindings, agreed_Some.
  - change (memoryMust (join a b)) with (must (memoryOf (join a b))). by rewrite join_memory, must_bindings, agreed_Some.
Qed.

(** ** An example *)

(** [[
    func f(x *T, c bool) {
        box := &Box{}; box.p = x
        if c { more() }
        use(box.p)
    }
    ]] *)
Module Kept.
Definition pointer : option goType := Some (TypePointer (TypeStruct ["p"])).
Definition val (k : valueKind) (n : string) : ssaValue := mkValue k n 0 "f" pointer.

Definition heap (v : value) : ssaValue :=
  match v with
  | 0 => val (ParameterValue [0]%nat false) "x"
  | 1 => val Alloc "t0"
  | 2 => val (FieldAddr 1%nat 0) "t1"
  | 3 => val (FieldAddr 1%nat 0) "t2"
  | 4 => val (UnOp "*" 3%nat) "t3"
  | _ => val (OtherValue []) "c"
  end%nat.

Definition rank (v : value) : nat := match v with 2 | 3 => 1 | _ => 0 end%nat.

Definition fn : functionBody := mkBody "f" [0]%nat [] None None [
  mkBasicBlock [Define 1; Define 2; Store 2 0; If 6]%nat [] [1; 2]%nat;
  mkBasicBlock [Define 7; Jump]%nat [0]%nat [2]%nat;
  mkBasicBlock [Define 3; Define 4; Return []]%nat [0; 1]%nat []].

Definition order (b : nat) : nat := 2 - b.

Lemma operands : operandsOk heap rank 5.
Proof.
  split.
  - intros v w. do 5 (destruct v as [|v]; [cbn; try (intros ->%list_elem_of_singleton; cbn; lia); try (by intros ?%elem_of_nil)|]). by intros ?%elem_of_nil.
  - intros v. do 5 (destruct v as [|v]; [cbn; lia|]). cbn. lia.
  - intros v exact isNil. by do 5 (destruct v as [|v]; [done|]).
Qed.

Lemma function : functionOk heap fn.
Proof.
  split; [|by apply checkFlow_spec|].
  - intros [|[|[|b]]] block; [..|done]; intros [= <-]; repeat constructor.
  - intros [|[|[|b]]] block; [..|done]; intros [= <-]; cbn; set_solver.
Qed.

Definition analysis : protocolAliasAnalysis := fst (analyzed heap fn).
Definition names : protocolIdentityInterner := snd (analyzed heap fn).
End Kept.

Lemma kept_analyzed :
  analyzeProtocolAliases (IM := interner Kept.heap 5) Kept.heap Kept.fn 20 newProtocolIdentityInterner = Some (Some Kept.analysis, Kept.names).
Proof. apply analyzed_spec. by vm_compute. Qed.

(** One instruction of an execution in which nobody interferes and stores are resolved. *)
Ltac listing :=
  intros ? Hs; split;
  [first [exact Logic.I|left; vm_compute in Hs; injection Hs as <-; by vm_compute]
  |intros ? []%elem_of_nil].
Ltac follow b i how := eapply (reachesNext _ _ _ _ b _ i); [|reflexivity|reflexivity| |how]; [|listing].

Lemma kept_reaches : exists p, at_block p = 2%nat /\ next p = 2%nat /\
  reaches Kept.heap (namingOf Kept.names) Kept.fn (listed Kept.heap (namingOf Kept.names) Kept.analysis) p.
Proof.
  eexists. split; [|split].
  3: { follow 2%nat 1%nat ltac:(apply executes_define; by eapply computesLoad).
       follow 2%nat 0%nat ltac:(apply executes_define; by eapply computesField).
       jump 0%nat 2%nat.
       follow 0%nat 3%nat ltac:(by apply executes_plain).
       follow 0%nat 2%nat ltac:(by apply executes_plain).
       follow 0%nat 1%nat ltac:(apply executes_define; by eapply computesField).
       follow 0%nat 0%nat ltac:(by apply executes_define, computesOther).
       apply reachesEntry. }
  all: reflexivity.
Qed.

Lemma alias_resolution_sound_witness : exists p, at_block p = 2%nat /\ next p = 2%nat /\
  held (nameOf (namingOf Kept.names) 4%nat) (now p) = nameOf (namingOf Kept.names) 0%nat.
Proof.
  destruct kept_reaches as (p & Hb & Hi & Hp). exists p. split; [exact Hb|]. split; [exact Hi|].
  eapply (proj1 (alias_resolution_sound Kept.heap Kept.rank 5 Kept.fn Kept.operands Kept.function 20 Kept.analysis Kept.names 4%nat
    (nameOf (namingOf Kept.names) 0%nat) Kept.names p _ (Return []) kept_analyzed Hp ltac:(rewrite Hb; reflexivity) ltac:(rewrite Hi; reflexivity))).
  rewrite Hb, Hi. by vm_compute.
Defined.

Lemma alias_snapshots_well_formed_witness : exists s, before Kept.analysis !! (2, 1)%nat = Some s /\ within (known Kept.names) s.
Proof.
  destruct (alias_snapshots_well_formed Kept.heap Kept.rank 5 Kept.fn Kept.operands Kept.function 20) as (r & i & Hr & _ & Hs).
  rewrite kept_analyzed in Hr. apply (inj Some), pair_equal_spec in Hr as [<- <-].
  assert (exists s, before Kept.analysis !! (2, 1)%nat = Some s) as [s E] by (apply not_eq_None_Some; by vm_compute).
  exists s. split; [exact E|]. eapply Hs; [reflexivity|left; exact E].
Defined.

Lemma alias_analysis_terminates_witness : exists a i,
  analyzeProtocolAliases (IM := interner Kept.heap 5) Kept.heap Kept.fn 13 newProtocolIdentityInterner = Some (Some a, i).
Proof.
  apply (alias_analysis_terminates Kept.heap Kept.rank 5 Kept.fn Kept.operands Kept.function Kept.order 2 13).
  - intros [|[|[|b]]] block c Hb; try discriminate Hb; injection Hb as <-; cbn; intros Hc%list_elem_of_In; cbn in Hc;
      intuition (subst; unfold Kept.order; lia).
  - intros [|[|[|b]]] block Hb; try discriminate Hb; injection Hb as <-; cbn; lia.
  - by vm_compute; lia.
Defined.

Lemma identities_stable_witness : exists x y k,
  values k !! 1%nat = Some x /\ values k !! 4%nat = Some y /\ (x = y -> 1%nat = 4%nat).
Proof.
  destruct (internValue Kept.heap 5 1%nat newProtocolIdentityInterner) as [[x j]|] eqn:E1; [|by vm_compute in E1].
  destruct (internValue Kept.heap 5 4%nat j) as [[y k]|] eqn:E2; [|by vm_compute in E1; injection E1 as <- <-; vm_compute in E2].
  destruct (identities_stable Kept.heap Kept.rank 5 Kept.operands 1%nat 4%nat x j y k newProtocolIdentityInterner (new_wf _) E1 E2)
    as (_ & _ & H1 & H2 & _ & H3).
  exists x, y, k. split; [exact H1|]. split; [exact H2|]. exact (H3 eq_refl).
Defined.

Definition onePath : protocolAliasSnapshot := bind 2 1 (bind 1 1 newProtocolAliasSnapshot).
Definition otherPath : protocolAliasSnapshot := setMemory 1 3 (bind 3 3 (bind 1 1 newProtocolAliasSnapshot)).

Lemma alias_join_semilattice_witness : wellFormed (join onePath otherPath) /\ must (join onePath otherPath) !! (1 : protocolIdentity) = Some (1 : protocolIdentity).
Proof.
  assert (wellFormed onePath) as Hl by (do 2 (apply within_bind; [|discriminate]); apply within_new).
  assert (wellFormed otherPath) as Hr by (apply within_setMemory; [|discriminate]; do 2 (apply within_bind; [|discriminate]); apply within_new).
  destruct (alias_join_semilattice onePath otherPath onePath Hl Hr Hl) as (H1 & _ & _ & _ & H2 & _).
  split; [exact H1|]. apply H2. split; vm_compute; reflexivity.
Defined.
