(* ===== verification/Oracle.v ===== *)
(** * Programs of the protocol oracle

    [internal/protocoloracle/ir.go]: the normalized programs over which the analyzer is
    compared with an independent interpreter, their well-formedness and the dimensions of
    their graphs.  Values of type [uint8] are numbers from 0 to 255; the string types of the
    enumerations are strings. *)

From S2P Require Export Checks.
Local Open Scope Z_scope.

(** [strconv.FormatBool], and [%v] on a boolean. *)
Definition formatBool (b : bool) : string := if b then "true" else "false".

Definition InitialFactNeedsValidation : string := "needs-validation".
Definition InitialFactValidated : string := "validated".

Record NodeRef := mkRef { RProcedure : Z; RNode : Z }.

#[export] Instance NodeRef_eq_dec : EqDecision NodeRef.
Proof. solve_decision. Defined.

Definition Key (ref : NodeRef) : string := "p" +:+ itoa (RProcedure ref) +:+ ":n" +:+ itoa (RNode ref).

Definition OperationNoop : string := "noop".
Definition OperationValidate : string := "validate".
Definition OperationConsume : string := "consume".
Definition OperationMutate : string := "mutate".
Definition OperationReplace : string := "replace".
Definition OperationEscape : string := "escape".
Definition OperationUnresolved : string := "unresolved".

Definition ConditionalResultNone : string := "none".
Definition ConditionalResultNil : string := "nil".
Definition ConditionalResultNonNil : string := "non-nil".
Definition ConditionalResultUnknown : string := "unknown".

Definition AliasActionNone : string := "none".
Definition AliasActionCopy : string := "copy".
Definition AliasActionKill : string := "kill".

Definition UnknownEffectNone : string := "none".
Definition UnknownEffectUnresolved : string := "unresolved".
Definition UnknownEffectConcurrentMutation : string := "concurrent-mutation".
Definition UnknownEffectEscapedHeap : string := "escaped-heap-mutation".

Definition ConstraintNone : string := "none".
Definition ConstraintSAT : string := "sat".
Definition ConstraintUNSAT : string := "unsat".

Definition TopologyLinear : string := "linear".
Definition TopologyBranchJoin : string := "branch-join".
Definition TopologyCallReturn : string := "call-return".
Definition TopologyRecursive : string := "recursive".

Definition EdgeIntra : string := "intra".
Definition EdgeCall : string := "call".
Definition EdgeReturn : string := "return".

Record Node := mkNode {
  Ref : NodeRef;
  NOperation : string;
  NIdentity : Z;
  NCondition : string;
  NAliasAction : string;
  NAliasSource : Z;
  NUnknownEffect : string;
  NConstraint : string;
  NTerminal : bool;
}.

Record Edge := mkEdge { EFrom : NodeRef; ETo : NodeRef; EKind : string; ECallSite : Z }.

Record Shape := mkShape {
  SProcedures : Z;
  SNodesPerProcedure : Z;
  SIdentities : Z;
  SCallSites : Z;
  SCallDepth : Z;
  STopology : string;
  SBranchJoin : bool;
  SRecursive : bool;
}.

Record ProgramMetrics := mkMetrics {
  MProcedures : Z;
  MNodesPerProcedure : Z;
  MIdentities : Z;
  MValidatedFacts : Z;
  MCallSites : Z;
  MCallDepth : Z;
  MBranchJoin : bool;
  MRecursive : bool;
}.

Record Program := mkProgram {
  CaseID : string;
  PShape : Shape;
  Entry : NodeRef;
  Nodes : list Node;
  Edges : list Edge;
  Identities : list Z;
  InitialFacts : list string;
}.

(** ** Orders *)
Definition nodeKey_le (a b : Node) : Prop := String.le (Key (Ref a)) (Key (Ref b)).
#[export] Instance nodeKey_le_dec a b : Decision (nodeKey_le a b).
Proof. unfold nodeKey_le. apply _. Defined.

Definition referenceEdgeKey (e : Edge) : string :=
  Key (EFrom e) +:+ "|" +:+ EKind e +:+ "|" +:+ itoa (ECallSite e) +:+ "|" +:+ Key (ETo e).

Definition edgeKey_le (a b : Edge) : Prop := String.le (referenceEdgeKey a) (referenceEdgeKey b).
#[export] Instance edgeKey_le_dec a b : Decision (edgeKey_le a b).
Proof. unfold edgeKey_le. apply _. Defined.

(** ** Metrics *)

(** [m[k]++] on a map of counters. *)
Definition increment {K} `{Countable K} (k : K) (m : gmap K Z) : gmap K Z := <[k := default 0 (m !! k) + 1]> m.

Definition callGraphOf (edges : list Edge) : gmap Z (gset Z) :=
  foldl (fun graph e =>
    if String.eqb (EKind e) EdgeCall
    then <[RProcedure (EFrom e) := {[RProcedure (ETo e)]} ∪ default ∅ (graph !! RProcedure (EFrom e))]> graph else graph) ∅ edges.

(** The longest call chain from a procedure that enters no active procedure twice; a call of an
    active procedure counts, and is not followed.  The fuel bounds the procedures. *)
Fixpoint callDepthFrom (fuel : nat) (graph : gmap Z (gset Z)) (active : gset Z) (procedure : Z) : Z :=
  match fuel with
  | O => 0
  | S fuel' =>
      let active := {[procedure]} ∪ active in
      foldl (fun best callee =>
        Z.max best (if bool_decide (callee ∈ active) then 1 else 1 + callDepthFrom fuel' graph active callee))
        0 (elements (default ∅ (graph !! procedure)))
  end.

Definition callGraphDepth (graph : gmap Z (gset Z)) : Z :=
  foldl (fun best procedure => Z.max best (callDepthFrom (S (size (dom graph))) graph ∅ procedure)) 0 (elements (dom graph)).

(** The counts of the incoming intra-procedural edges, and whether one exceeded 1. *)
Definition countIntra (c : gmap string Z * bool) (e : Edge) : gmap string Z * bool :=
  if String.eqb (EKind e) EdgeIntra
  then let incoming := increment (Key (ETo e)) (fst c) in (incoming, snd c || (1 <? default 0 (incoming !! Key (ETo e))))
  else c.

Definition minimumCount (counts : list Z) : Z := foldl (fun best count => if (best =? 0) || (count <? best) then count else best) 0 counts.

Definition Metrics (program : Program) : ProgramMetrics :=
  let procedures := foldl (fun m node => increment (RProcedure (Ref node)) m) (∅ : gmap Z Z) (Nodes program) in
  let calls := filter (fun e => String.eqb (EKind e) EdgeCall) (Edges program) in
  mkMetrics (Z.of_nat (size procedures))
    (minimumCount (map snd (map_to_list procedures)))
    (Z.of_nat (length (Identities program)))
    (Z.of_nat (length (filter (fun fact => String.eqb fact InitialFactValidated) (InitialFacts program))))
    (Z.of_nat (size (list_to_set (map ECallSite calls) : gset Z)))
    (callGraphDepth (callGraphOf (Edges program)))
    (snd (foldl countIntra (∅, false) (Edges program)))
    (existsb (fun e => RProcedure (EFrom e) =? RProcedure (ETo e)) calls).

(** ** Well-formedness *)
Definition oneOf (values : list string) (s : string) : bool := existsb (String.eqb s) values.

Definition validateNodeEnums (node : Node) : checked unit :=
  reject_if (negb (oneOf [OperationNoop; OperationValidate; OperationConsume; OperationMutate; OperationReplace; OperationEscape;
    OperationUnresolved] (NOperation node))) "unsupported operation %q" [NOperation node] ;;
  reject_if (negb (oneOf [""; ConditionalResultNone; ConditionalResultNil; ConditionalResultNonNil; ConditionalResultUnknown]
    (NCondition node))) "unsupported conditional result %q" [NCondition node] ;;
  reject_if (negb (oneOf [""; AliasActionNone; AliasActionCopy; AliasActionKill] (NAliasAction node)))
    "unsupported alias action %q" [NAliasAction node] ;;
  reject_if (negb (oneOf [""; UnknownEffectNone; UnknownEffectUnresolved; UnknownEffectConcurrentMutation; UnknownEffectEscapedHeap]
    (NUnknownEffect node))) "unsupported unknown effect %q" [NUnknownEffect node] ;;
  reject_if (negb (oneOf [""; ConstraintNone; ConstraintSAT; ConstraintUNSAT] (NConstraint node)))
    "unsupported constraint %q" [NConstraint node].

(** The nodes seen so far and how many each procedure has. *)
Definition nodesSeen : Type := gset string * gmap Z Z.

Section Validate.
Context (program : Program).
Let shape : Shape := PShape program.

Definition identityStep (index : Z) (identity : Z) (_ : unit) : checked unit :=
  reject_if (negb (identity =? index mod 256)) "identity %d is %d, want a contiguous admitted identity" [itoa index; itoa identity] ;;
  let fact := default "" (InitialFacts program !! Z.to_nat index) in
  reject_if (negb (oneOf [InitialFactNeedsValidation; InitialFactValidated] fact))
    "identity %d has unsupported initial fact %q" [itoa identity; fact].

Definition nodeStep (_ : Z) (node : Node) (seen : nodesSeen) : checked nodesSeen :=
  let key := Key (Ref node) in
  reject_if (bool_decide (key ∈ fst seen)) "duplicate node %s" [key] ;;
  reject_if (SProcedures shape <=? RProcedure (Ref node)) "node %s references procedure outside the admitted set" [key] ;;
  reject_if (SNodesPerProcedure shape <=? RNode (Ref node)) "node %s references node index outside the admitted set" [key] ;;
  reject_if ((Z.of_nat (length (Identities program)) <=? NIdentity node) || (Z.of_nat (length (Identities program)) <=? NAliasSource node))
    "node %s references identity outside the admitted set" [key] ;;
  wrapped "node %s: %w" [key] (validateNodeEnums node) ;;
  mret ({[key]} ∪ fst seen, increment (RProcedure (Ref node)) (snd seen)).

Definition procedureStep (counts : gmap Z Z) (_ : Z) (procedure : Z) (_ : unit) : checked unit :=
  let count := default 0 (counts !! (procedure mod 256)) in
  reject_if (negb (count =? SNodesPerProcedure shape)) "procedure %d contains %d nodes, want %d"
    [itoa procedure; itoa count; itoa (SNodesPerProcedure shape)].

(** The counts of the call and of the return edges of each call site. *)
Definition edgeStep (nodes : gset string) (_ : Z) (e : Edge) (sites : gmap Z Z * gmap Z Z) : checked (gmap Z Z * gmap Z Z) :=
  reject_if (negb (bool_decide (Key (EFrom e) ∈ nodes)) || negb (bool_decide (Key (ETo e) ∈ nodes)))
    "edge %s -> %s has missing endpoint" [Key (EFrom e); Key (ETo e)] ;;
  reject_if (negb (oneOf [EdgeIntra; EdgeCall; EdgeReturn] (EKind e))) "edge %s -> %s has unsupported kind %q"
    [Key (EFrom e); Key (ETo e); EKind e] ;;
  reject_if ((String.eqb (EKind e) EdgeCall || String.eqb (EKind e) EdgeReturn) && (ECallSite e =? 0)) "%s edge requires call site" [EKind e] ;;
  mret (if String.eqb (EKind e) EdgeCall then increment (ECallSite e) (fst sites) else fst sites,
        if String.eqb (EKind e) EdgeReturn then increment (ECallSite e) (snd sites) else snd sites).

(** Counters of type [uint8]. *)
Definition siteCount (counts : gmap Z Z) (site : Z) : Z := default 0 (counts !! site) mod 256.

Definition sameMetrics (metrics : ProgramMetrics) : bool :=
  (MProcedures metrics =? SProcedures shape) && (MNodesPerProcedure metrics =? SNodesPerProcedure shape) &&
  (MIdentities metrics =? SIdentities shape) && (MCallSites metrics =? SCallSites shape) &&
  (MCallDepth metrics =? SCallDepth shape) && Bool.eqb (MBranchJoin metrics) (SBranchJoin shape) &&
  Bool.eqb (MRecursive metrics) (SRecursive shape).

Definition Validate : checked unit :=
  reject_if (String.eqb (CaseID program) "" || bool_decide (Nodes program = []) || bool_decide (Identities program = []))
    "program requires a case ID, nodes, and identities" [] ;;
  reject_if ((SProcedures shape <? 1) || (SNodesPerProcedure shape <? 1) || (SIdentities shape <? 1) ||
    (SCallSites shape <? 0) || (SCallDepth shape <? 0)) "program shape contains an invalid bound" [] ;;
  reject_if (negb (oneOf [TopologyLinear; TopologyBranchJoin; TopologyCallReturn; TopologyRecursive] (STopology shape)))
    "program shape has unsupported topology %q" [STopology shape] ;;
  reject_if (negb (Z.of_nat (length (Identities program)) =? SIdentities shape)) "program admits %d identities, want %d"
    [itoa (Z.of_nat (length (Identities program))); itoa (SIdentities shape)] ;;
  reject_if (negb (Nat.eqb (length (InitialFacts program)) (length (Identities program))))
    "program admits %d initial facts, want one for each of %d identities"
    [itoa (Z.of_nat (length (InitialFacts program))); itoa (Z.of_nat (length (Identities program)))] ;;
  forEach identityStep 0 (Identities program) tt ;;
  seen ← forEach nodeStep 0 (Nodes program) (∅, ∅);
  forEach (procedureStep (snd seen)) 0 (seqZ 0 (SProcedures shape)) tt ;;
  reject_if (negb (bool_decide (Key (Entry program) ∈ fst seen))) "entry %s is missing" [Key (Entry program)] ;;
  sites ← forEach (edgeStep (fst seen)) 0 (Edges program) (∅, ∅);
  forEach (fun _ site _ =>
    reject_if (negb (siteCount (fst sites) site =? 1) || negb (siteCount (snd sites) site =? 1))
      "call site %d has %d calls and %d returns, want one matched pair"
      [itoa site; itoa (siteCount (fst sites) site); itoa (siteCount (snd sites) site)]) 0 (elements (dom (fst sites))) tt ;;
  forEach (fun _ site _ =>
    reject_if (siteCount (fst sites) site =? 0) "return edge for call site %d has no matching call" [itoa site])
    0 (elements (dom (snd sites))) tt ;;
  reject_if (negb (sameMetrics (Metrics program))) "declared shape %+v does not match derived graph metrics %+v" [].
End Validate.

Definition InitialFactFor (program : Program) (identity : Z) : string := default "" (InitialFacts program !! Z.to_nat identity).

(** ** Outcomes *)
Definition OutcomeNone : string := "none".
Definition OutcomeViolation : string := "violation".
Definition OutcomeInconclusive : string := "inconclusive".

Record IdentityResult := mkIdentityResult {
  IOutcome : string;
  IUncertainty : list string;
  IWitness : list string;
  IRefinedWitnesses : list string;
  ISummaries : Z;
  ISummaryReuses : Z;
}.
