(* ===== verification/Interpreter.v ===== *)
(** * The interpreter of the protocol oracle

    [internal/protocoloracle/reference.go]: a tabulation of its own over the programs of
    [Oracle], which the analyzer is compared with.  The closures of [interpretIdentity] are
    functions on the record of the variables they share; the tables are maps from the printed
    keys, in whose order summaries and dependencies are processed. *)

From S2P Require Export Oracle.
Local Open Scope Z_scope.

Definition maxReferenceIdentities : nat := 8.

(** The arrays have [maxReferenceIdentities] elements. *)
Record referenceState := mkReference {
  validated : list bool;
  violated : bool;
  uncertainty : Z;
  aliases : list Z;
}.

(** [fmt.Sprintf] with [%v] on an array. *)
Definition formatArray (elements : list string) : string := "[" +:+ strings_Join elements " " +:+ "]".

Definition stateKey (state : referenceState) : string :=
  "validated=" +:+ formatArray (map formatBool (validated state)) +:+ "|violated=" +:+ formatBool (violated state) +:+
  "|uncertainty=" +:+ itoa (uncertainty state) +:+ "|aliases=" +:+ formatArray (map itoa (aliases state)).

Record referenceEntryFact := mkFact { factNode : NodeRef; factState : referenceState }.

Definition factKey (fact : referenceEntryFact) : string := Key (factNode fact) +:+ "|" +:+ stateKey (factState fact).

Record referencePathEdge := mkPath {
  pathEntry : referenceEntryFact;
  pathNode : NodeRef;
  pathState : referenceState;
  pathWitness : list string;
}.

Definition pathKey (edge : referencePathEdge) : string :=
  factKey (pathEntry edge) +:+ "|node=" +:+ Key (pathNode edge) +:+ "|" +:+ stateKey (pathState edge).

Record referenceDependency := mkDependency {
  calleeEntry : referenceEntryFact;
  calleeExit : NodeRef;
  callerEntry : referenceEntryFact;
  callSite : Z;
  returnNode : NodeRef;
  callerState : referenceState;
  callerWitness : list string;
}.

Definition dependencyKey (d : referenceDependency) : string :=
  factKey (calleeEntry d) +:+ "|exit=" +:+ Key (calleeExit d) +:+ "|caller=" +:+ factKey (callerEntry d) +:+ "|site=" +:+
  itoa (callSite d) +:+ "|return=" +:+ Key (returnNode d) +:+ "|state=" +:+ stateKey (callerState d).

Record referenceSummary := mkSummary {
  summaryEntry : referenceEntryFact;
  summaryExit : NodeRef;
  summaryState : referenceState;
  summaryWitness : list string;
}.

Definition summaryKey (s : referenceSummary) : string :=
  factKey (summaryEntry s) +:+ "|exit=" +:+ Key (summaryExit s) +:+ "|" +:+ stateKey (summaryState s).

(** ** Edges *)
Definition sortEdges (edges : list Edge) : list Edge := merge_sort edgeKey_le edges.

Definition referenceReturnEdgesFrom (edges : list Edge) : list Edge := filter (fun e => String.eqb (EKind e) EdgeReturn) edges.

Definition referenceReturnEdgesForCall (edges : list Edge) (site calleeProcedure : Z) : list Edge :=
  sortEdges (filter (fun e => String.eqb (EKind e) EdgeReturn && (ECallSite e =? site) && (RProcedure (EFrom e) =? calleeProcedure)) edges).

(** ** Effects of a node *)
Definition aliasOf (state : referenceState) (identity : Z) : Z := default 0 (aliases state !! Z.to_nat identity).
Definition isValidated (state : referenceState) (object : Z) : bool := default false (validated state !! Z.to_nat object).

Definition setValidated (object : Z) (b : bool) (state : referenceState) : referenceState :=
  mkReference (<[Z.to_nat object := b]> (validated state)) (violated state) (uncertainty state) (aliases state).
Definition setViolated (state : referenceState) : referenceState :=
  mkReference (validated state) true (uncertainty state) (aliases state).
Definition addUncertainty (bit : Z) (state : referenceState) : referenceState :=
  mkReference (validated state) (violated state) (Z.lor (uncertainty state) (Z.shiftl 1 bit)) (aliases state).
Definition setAlias (identity object : Z) (state : referenceState) : referenceState :=
  mkReference (validated state) (violated state) (uncertainty state) (<[Z.to_nat identity := object]> (aliases state)).

Definition applyAlias (state : referenceState) (node : Node) : referenceState :=
  if String.eqb (NAliasAction node) AliasActionCopy then setAlias (NIdentity node) (aliasOf state (NAliasSource node)) state
  else if String.eqb (NAliasAction node) AliasActionKill then
    setValidated (NIdentity node) false (setAlias (NIdentity node) (NIdentity node) state)
  else state.

Definition applyOperation (state : referenceState) (node : Node) : referenceState :=
  let object := aliasOf state (NIdentity node) in
  if String.eqb (NOperation node) OperationConsume then if isValidated state object then state else setViolated state
  else if String.eqb (NOperation node) OperationEscape then addUncertainty 3 state
  else if String.eqb (NOperation node) OperationValidate then
    if String.eqb (NCondition node) ConditionalResultNil then setValidated object true state
    else if String.eqb (NCondition node) ConditionalResultUnknown then if isValidated state object then state else addUncertainty 0 state
    else state
  else if String.eqb (NOperation node) OperationMutate || String.eqb (NOperation node) OperationReplace then setValidated object false state
  else if String.eqb (NOperation node) OperationUnresolved then addUncertainty 1 state
  else state.

Definition applyUnknown (state : referenceState) (node : Node) : referenceState :=
  if String.eqb (NUnknownEffect node) UnknownEffectUnresolved then addUncertainty 1 state
  else if String.eqb (NUnknownEffect node) UnknownEffectConcurrentMutation then addUncertainty 2 state
  else if String.eqb (NUnknownEffect node) UnknownEffectEscapedHeap then addUncertainty 3 state
  else state.

Definition applyReferenceNode (state : referenceState) (node : Node) (tracked : Z) : referenceState :=
  if (Z.of_nat maxReferenceIdentities <=? NIdentity node) || (Z.of_nat maxReferenceIdentities <=? NAliasSource node)
  then addUncertainty 5 state
  else
    let state := applyAlias state node in
    if negb (aliasOf state (NIdentity node) =? aliasOf state tracked) then state
    else applyUnknown (applyOperation state node) node.

Definition referenceTerminalOutcome (state : referenceState) (tracked : Z) : string :=
  if violated state || negb (isValidated state (aliasOf state tracked)) then OutcomeViolation
  else if negb (uncertainty state =? 0) then OutcomeInconclusive
  else OutcomeNone.

Definition joinOutcome (left right : string) : string :=
  if String.eqb left OutcomeViolation || String.eqb right OutcomeViolation then OutcomeViolation
  else if String.eqb left OutcomeInconclusive || String.eqb right OutcomeInconclusive then OutcomeInconclusive
  else OutcomeNone.

Definition uncertaintyNames : list (Z * string) :=
  [(0, "conditional-result"); (1, "unresolved"); (2, "concurrent-mutation"); (3, "escaped-heap-mutation"); (4, "state-budget"); (5, "identity-bound")].

Definition referenceUncertaintyNames (bits : Z) : list string :=
  map snd (filter (fun value => negb (Z.land bits (Z.shiftl 1 (fst value)) =? 0)) uncertaintyNames).

(** ** The tables *)
Record tables := mkTables {
  pathEdges : gmap string referencePathEdge;
  queue : list string;
  dependencies : gmap string referenceDependency;
  dependenciesByEntry : gmap string (list string);
  summaries : gmap string referenceSummary;
  summariesByEntry : gmap string (list string);
  t_outcome : string;
  t_uncertainty : Z;
  t_witness : list string;
  refinedWitnesses : list string;
  summaryReuses : Z;
  workUnits : Z;
  budgetExceeded : bool;
}.

Definition noTables : tables := mkTables ∅ [] ∅ ∅ ∅ ∅ OutcomeNone 0 [] [] 0 0 false.

Definition setQueue (q : list string) (t : tables) : tables :=
  mkTables (pathEdges t) q (dependencies t) (dependenciesByEntry t) (summaries t) (summariesByEntry t) (t_outcome t) (t_uncertainty t)
    (t_witness t) (refinedWitnesses t) (summaryReuses t) (workUnits t) (budgetExceeded t).
Definition addPath (key : string) (edge : referencePathEdge) (t : tables) : tables :=
  mkTables (<[key := edge]> (pathEdges t)) (queue t ++ [key]) (dependencies t) (dependenciesByEntry t) (summaries t) (summariesByEntry t)
    (t_outcome t) (t_uncertainty t) (t_witness t) (refinedWitnesses t) (summaryReuses t) (workUnits t) (budgetExceeded t).
Definition addDependency (key entryKey : string) (d : referenceDependency) (t : tables) : tables :=
  mkTables (pathEdges t) (queue t) (<[key := d]> (dependencies t))
    (<[entryKey := slices_Sort (default [] (dependenciesByEntry t !! entryKey) ++ [key])]> (dependenciesByEntry t)) (summaries t)
    (summariesByEntry t) (t_outcome t) (t_uncertainty t) (t_witness t) (refinedWitnesses t) (summaryReuses t) (workUnits t) (budgetExceeded t).
Definition addSummary (key entryKey : string) (s : referenceSummary) (t : tables) : tables :=
  mkTables (pathEdges t) (queue t) (dependencies t) (dependenciesByEntry t) (<[key := s]> (summaries t))
    (<[entryKey := slices_Sort (default [] (summariesByEntry t !! entryKey) ++ [key])]> (summariesByEntry t)) (t_outcome t)
    (t_uncertainty t) (t_witness t) (refinedWitnesses t) (summaryReuses t) (workUnits t) (budgetExceeded t).
Definition addRefined (witness : string) (t : tables) : tables :=
  mkTables (pathEdges t) (queue t) (dependencies t) (dependenciesByEntry t) (summaries t) (summariesByEntry t) (t_outcome t)
    (t_uncertainty t) (t_witness t) (refinedWitnesses t ++ [witness]) (summaryReuses t) (workUnits t) (budgetExceeded t).
Definition setOutcome (outcome : string) (uncertainty : Z) (witness : list string) (t : tables) : tables :=
  mkTables (pathEdges t) (queue t) (dependencies t) (dependenciesByEntry t) (summaries t) (summariesByEntry t) outcome uncertainty witness
    (refinedWitnesses t) (summaryReuses t) (workUnits t) (budgetExceeded t).
Definition countReuse (t : tables) : tables :=
  mkTables (pathEdges t) (queue t) (dependencies t) (dependenciesByEntry t) (summaries t) (summariesByEntry t) (t_outcome t)
    (t_uncertainty t) (t_witness t) (refinedWitnesses t) (summaryReuses t + 1) (workUnits t) (budgetExceeded t).
Definition setWork (units : Z) (exceeded : bool) (t : tables) : tables :=
  mkTables (pathEdges t) (queue t) (dependencies t) (dependenciesByEntry t) (summaries t) (summariesByEntry t) (t_outcome t)
    (t_uncertainty t) (t_witness t) (refinedWitnesses t) (summaryReuses t) units exceeded.

(** A closure that answers whether to go on. *)
Definition closure : Type := tables -> tables * bool.

(** The zero values, which a map gives for a missing key. *)
Definition zeroNode : Node := mkNode (mkRef 0 0) "" 0 "" "" 0 "" "" false.
Definition zeroState : referenceState := mkReference (replicate maxReferenceIdentities false) false 0 (replicate maxReferenceIdentities 0).
Definition zeroPath : referencePathEdge := mkPath (mkFact (mkRef 0 0) zeroState) (mkRef 0 0) zeroState [].
Definition zeroDependency : referenceDependency :=
  mkDependency (mkFact (mkRef 0 0) zeroState) (mkRef 0 0) (mkFact (mkRef 0 0) zeroState) 0 (mkRef 0 0) zeroState [].
Definition zeroSummary : referenceSummary := mkSummary (mkFact (mkRef 0 0) zeroState) (mkRef 0 0) zeroState [].

Section Interpret.
Context (program : Program) (tracked : Z) (maxStates : Z).

Definition reserve : closure := fun t =>
  let units := workUnits t + 1 in
  if units <=? maxStates then (setWork units (budgetExceeded t) t, true) else (setWork units true t, false).

Definition enqueue (edge : referencePathEdge) : closure := fun t =>
  let key := pathKey edge in
  if bool_decide (is_Some (pathEdges t !! key)) then (t, true)
  else
    let '(t, ok) := reserve t in
    if ok then (addPath key edge t, true) else (t, false).

(** A loop over a slice of keys that stops at the first failure. *)
Fixpoint eachKey (f : string -> closure) (keys : list string) : closure := fun t =>
  match keys with
  | [] => (t, true)
  | key :: keys => let '(t, ok) := f key t in if ok then eachKey f keys t else (t, false)
  end.

Definition applySummary (d : referenceDependency) (s : referenceSummary) : closure := fun t =>
  if negb (bool_decide (calleeExit d = summaryExit s)) then (t, true)
  else
    let state := mkReference (validated (summaryState s)) (violated (summaryState s))
      (Z.lor (uncertainty (summaryState s)) (uncertainty (callerState d))) (aliases (summaryState s)) in
    enqueue (mkPath (callerEntry d) (returnNode d) state (callerWitness d ++ summaryWitness s)) (countReuse t).

Definition registerDependency (d : referenceDependency) : closure := fun t =>
  let key := dependencyKey d in
  if bool_decide (is_Some (dependencies t !! key)) then (t, true)
  else
    let '(t, ok) := reserve t in
    if negb ok then (t, false)
    else
      let entryKey := factKey (calleeEntry d) in
      let t := addDependency key entryKey d t in
      eachKey (fun k t => applySummary d (default zeroSummary (summaries t !! k)) t)
        (default [] (summariesByEntry t !! entryKey)) t.

Definition publishSummary (s : referenceSummary) : closure := fun t =>
  let key := summaryKey s in
  if bool_decide (is_Some (summaries t !! key)) then (t, true)
  else
    let '(t, ok) := reserve t in
    if negb ok then (t, false)
    else
      let entryKey := factKey (summaryEntry s) in
      let t := addSummary key entryKey s t in
      eachKey (fun k t => applySummary (default zeroDependency (dependencies t !! k)) s t)
        (default [] (dependenciesByEntry t !! entryKey)) t.

(** The last node of a reference; [Validate] rejects two, and none. *)
Definition nodeAt (ref : NodeRef) : Node :=
  default zeroNode (last (filter (fun node => String.eqb (Key (Ref node)) (Key ref)) (Nodes program))).

Definition edges : list Edge := sortEdges (Edges program).
Definition outgoing (ref : NodeRef) : list Edge := filter (fun e => String.eqb (Key (EFrom e)) (Key ref)) edges.

Definition initial : referenceState :=
  mkReference
    (map (fun i => if (i <? length (Identities program))%nat then String.eqb (InitialFactFor program (Z.of_nat i)) InitialFactValidated else false)
       (seq 0 maxReferenceIdentities))
    false 0
    (map (fun i => if (i <? length (Identities program))%nat then Z.of_nat i else 0) (seq 0 maxReferenceIdentities)).

(** The dependencies of a call, one for each matching return. *)
Fixpoint registerCall (path : referencePathEdge) (calleeEntry : referenceEntryFact) (site : Z) (witness : list string) (returns : list Edge)
    (t : tables) : tables :=
  match returns with
  | [] => t
  | r :: returns =>
      let '(t, ok) := registerDependency
        (mkDependency calleeEntry (EFrom r) (pathEntry path) site (ETo r) (pathState path) witness) t in
      if ok then registerCall path calleeEntry site witness returns t else t
  end.

Definition followEdge (path : referencePathEdge) (t : tables) (e : Edge) : tables :=
  let nextWitness := pathWitness path ++ [referenceEdgeKey e] in
  if String.eqb (EKind e) EdgeReturn then t
  else if String.eqb (EKind e) EdgeCall then
    let entry := mkFact (ETo e) (pathState path) in
    let t := registerCall path entry (ECallSite e) nextWitness
      (referenceReturnEdgesForCall edges (ECallSite e) (RProcedure (ETo e))) t in
    if budgetExceeded t then t
    else fst (enqueue (mkPath entry (ETo e) (pathState path) nextWitness) t)
  else fst (enqueue (mkPath (pathEntry path) (ETo e) (pathState path) nextWitness) t).

(** One iteration, for the path edge taken from the queue. *)
Definition processPath (path : referencePathEdge) (node : Node) (t : tables) : tables :=
  if String.eqb (NConstraint node) ConstraintUNSAT then addRefined (strings_Join (pathWitness path) " -> ") t
  else
    let path := mkPath (pathEntry path) (pathNode path) (applyReferenceNode (pathState path) node tracked) (pathWitness path) in
    if NTerminal node then
      let joined := joinOutcome (t_outcome t) (referenceTerminalOutcome (pathState path) tracked) in
      let witness := if negb (String.eqb joined (t_outcome t)) || bool_decide (t_witness t = []) then pathWitness path else t_witness t in
      setOutcome joined (Z.lor (t_uncertainty t) (uncertainty (pathState path))) witness t
    else if negb (bool_decide (referenceReturnEdgesFrom (outgoing (pathNode path)) = [])) then
      fst (publishSummary (mkSummary (pathEntry path) (pathNode path) (pathState path) (pathWitness path)) t)
    else foldl (followEdge path) t (outgoing (pathNode path)).

(** [None] when the fuel is used up. *)
Fixpoint runQueue (fuel : nat) (t : tables) : option tables :=
  match queue t with
  | [] => Some t
  | key :: rest =>
      if budgetExceeded t then Some t
      else match fuel with
           | O => None
           | S fuel' =>
               let path := default zeroPath (pathEdges t !! key) in
               runQueue fuel' (processPath path (nodeAt (pathNode path)) (setQueue rest t))
           end
  end.

Definition startTables : tables := fst (enqueue (mkPath (mkFact (Entry program) initial) (Entry program) initial []) noTables).

(** Every iteration takes a path edge from the queue, and [maxStates] bounds the path edges. *)
Definition interpretIdentity : option IdentityResult :=
  if match Validate program with inl _ => true | inr _ => false end || (maxStates <=? 0) ||
     (maxReferenceIdentities <? length (Identities program))%nat
  then Some (mkIdentityResult OutcomeInconclusive ["invalid-program"] [] [] 0 0)
  else
    match runQueue (Z.to_nat maxStates) startTables with
    | None => None
    | Some t =>
        let outcome := if budgetExceeded t then joinOutcome (t_outcome t) OutcomeInconclusive else t_outcome t in
        let uncertainty := if budgetExceeded t then Z.lor (t_uncertainty t) (Z.shiftl 1 4) else t_uncertainty t in
        Some (mkIdentityResult outcome (referenceUncertaintyNames uncertainty) (t_witness t) (slices_Sort (refinedWitnesses t))
          (Z.of_nat (size (summaries t))) (summaryReuses t))
    end.
End Interpret.

(** [Interpret]: every identity of the program. *)
Definition Interpret (program : Program) (maxStates : Z) : option (gmap Z IdentityResult) :=
  foldl (fun results identity =>
    results ← results; result ← interpretIdentity program identity maxStates; Some (<[identity := result]> results))
    (Some (∅ : gmap Z IdentityResult)) (Identities program).
