(* ===== verification/InterpreterKeys.v ===== *)
(** * Keys of the interpreter

    The printed keys of [internal/protocoloracle/reference.go] determine what they print, up to
    the witnesses, which they leave out. *)

From S2P Require Export Interpreter.
Local Open Scope Z_scope.

(** ** Arrays *)
Definition space : Ascii.ascii := Ascii.Ascii false false false false false true false false.
Definition bracket : Ascii.ascii := Ascii.Ascii true false true true true false true false.

Definition elementOk (s : string) : Prop := s <> "" /\ has_char space s = false /\ has_char bracket s = false.

Lemma elementOk_bool b : elementOk (formatBool b).
Proof. by destruct b. Qed.

Lemma pretty_N_go_length x : forall s, (String.length s <= String.length (pretty_N_go x s))%nat.
Proof.
  induction (N.lt_wf_0 x) as [x _ IH]; intros s. assert (x = 0 \/ 0 < x)%N as [->|Hx] by lia; [by rewrite pretty_N_go_0|].
  rewrite pretty_N_go_step by done. etransitivity; [|apply IH; by apply N.div_lt]. cbn. lia.
Qed.

Lemma itoa_nonempty z : itoa z <> "".
Proof.
  assert (forall p, pretty (Npos p) <> "") as Hp.
  { intros p. unfold pretty, pretty_N. rewrite decide_False by done. rewrite pretty_N_go_step by done. intros H.
    pose proof (pretty_N_go_length (N.pos p `div` 10) (String (pretty_N_char (N.pos p `mod` 10)) "")) as Hl. rewrite H in Hl. cbn in Hl. lia. }
  unfold itoa, pretty, pretty_Z. destruct z; [done|apply Hp|done].
Qed.

Lemma elementOk_itoa z : elementOk (itoa z).
Proof. split; [apply itoa_nonempty|]. split; by apply itoa_no_char. Qed.

(** What ends an element. *)
Definition ending (c : Ascii.ascii) : Prop := c = space \/ c = bracket.

Lemma element_prefix a b c d x y : has_char space a = false -> has_char bracket a = false -> has_char space b = false ->
  has_char bracket b = false -> ending c -> ending d -> a +:+ String c x = b +:+ String d y -> a = b /\ c = d /\ x = y.
Proof.
  revert b. induction a as [|p a IH]; intros [|q b]; rewrite ?string_app_nil_l, ?string_app_cons.
  - by intros _ _ _ _ _ _ [= -> ->].
  - cbn. intros _ _ [H1 _]%orb_false_iff [H2 _]%orb_false_iff Hc _ [= <- _]. by destruct Hc as [->| ->].
  - cbn. intros [H1 _]%orb_false_iff [H2 _]%orb_false_iff _ _ _ Hd [= -> _]. by destruct Hd as [->| ->].
  - cbn. intros [_ H1]%orb_false_iff [_ H2]%orb_false_iff [_ H3]%orb_false_iff [_ H4]%orb_false_iff Hc Hd [= -> H].
    by destruct (IH b H1 H2 H3 H4 Hc Hd H) as (-> & -> & ->).
Qed.

(** An array from its first element on. *)
Definition afterElement (l : list string) (x : string) : Ascii.ascii * string :=
  match l with [] => (bracket, x) | _ => (space, strings_Join l " " +:+ "]" +:+ x) end.

Lemma join_after a l x : strings_Join (a :: l) " " +:+ "]" +:+ x = a +:+ String (fst (afterElement l x)) (snd (afterElement l x)).
Proof. destruct l as [|b l]; [done|]. cbn [afterElement fst snd]. change (strings_Join (a :: b :: l) " ") with (a +:+ " " +:+ strings_Join (b :: l) " "). by rewrite !string_app_assoc. Qed.

Lemma after_ending l x : ending (fst (afterElement l x)).
Proof. destruct l; [by right|by left]. Qed.

Lemma elements_prefix l : Forall elementOk l -> forall l' x y, Forall elementOk l' ->
  strings_Join l " " +:+ "]" +:+ x = strings_Join l' " " +:+ "]" +:+ y -> l = l' /\ x = y.
Proof.
  induction 1 as [|a l [Ha1 [Ha2 Ha3]] Hl IH]; intros l' x y Hl'; destruct l' as [|b l'].
  - intros [= H]. by split.
  - apply Forall_cons_1 in Hl' as [(H1 & H2 & H3) _]. rewrite join_after. intros H. exfalso. destruct b as [|q b]; [done|].
    cbn in H3. apply orb_false_iff in H3 as [H3 _]. injection H as <- _. done.
  - rewrite join_after. intros H. exfalso. destruct a as [|q a]; [done|]. cbn in Ha3. apply orb_false_iff in Ha3 as [Ha3 _].
    injection H as -> _. done.
  - apply Forall_cons_1 in Hl' as [(H1 & H2 & H3) Hl']. rewrite !join_after. intros H.
    apply element_prefix in H as (-> & Hc & Hx); try done; try apply after_ending.
    destruct l as [|c l], l' as [|c' l']; cbn [afterElement fst snd] in Hc, Hx; try done.
    destruct (IH (c' :: l') x y Hl' Hx) as [E ->]. by rewrite E.
Qed.

Lemma array_prefix l l' x y : Forall elementOk l -> Forall elementOk l' -> formatArray l +:+ x = formatArray l' +:+ y -> l = l' /\ x = y.
Proof.
  intros Hl Hl'. unfold formatArray. rewrite !string_app_assoc. intros H%string_app_inj_l. by apply elements_prefix in H.
Qed.

Lemma elements_bools l : Forall elementOk (map formatBool l).
Proof. apply Forall_map, Forall_true, elementOk_bool. Qed.
Lemma elements_numbers l : Forall elementOk (map itoa l).
Proof. apply Forall_map, Forall_true, elementOk_itoa. Qed.

#[export] Instance formatBool_inj : Inj (=) (=) formatBool.
Proof. by intros [] []. Qed.
#[export] Instance itoa_injective : Inj (=) (=) itoa.
Proof. intros x y. apply itoa_inj. Qed.

Lemma bool_prefix b b' x y : formatBool b +:+ x = formatBool b' +:+ y -> b = b' /\ x = y.
Proof. by destruct b, b'; intros [=]. Qed.

(** ** Keys *)
Lemma ref_prefix a b x y : nonnum_head x -> nonnum_head y -> Key a +:+ x = Key b +:+ y -> a = b /\ x = y.
Proof.
  destruct a as [p n], b as [q m]. unfold Key. cbn [RProcedure RNode]. rewrite !string_app_assoc. intros Hx Hy H%string_app_inj_l.
  apply itoa_prefix in H as [<- H%string_app_inj_l]; [|done..]. by apply itoa_prefix in H as [<- ->].
Qed.

Lemma ref_inj a b : Key a = Key b -> a = b.
Proof. intros H. rewrite <- (string_app_nil_r (Key a)), <- (string_app_nil_r (Key b)) in H. by apply ref_prefix in H as [-> _]. Qed.

Lemma reference_prefix s s' x y : stateKey s +:+ x = stateKey s' +:+ y -> s = s' /\ x = y.
Proof.
  destruct s as [v o u a], s' as [v' o' u' a']. unfold stateKey. cbn [validated violated uncertainty aliases]. rewrite !string_app_assoc.
  intros H%string_app_inj_l. apply array_prefix in H as [Hv%(inj (map formatBool)) H%string_app_inj_l]; [|apply elements_bools..].
  apply bool_prefix in H as [<- H%string_app_inj_l]. apply itoa_prefix in H as [<- H%string_app_inj_l]; [|done..].
  apply array_prefix in H as [Ha%(inj (map itoa)) ->]; [|apply elements_numbers..]. by subst.
Qed.

Lemma fact_prefix a b x y : factKey a +:+ x = factKey b +:+ y -> a = b /\ x = y.
Proof.
  destruct a as [n s], b as [m s']. unfold factKey. cbn [factNode factState]. rewrite !string_app_assoc.
  intros [<- H%string_app_inj_l]%ref_prefix; [|done..]. by apply reference_prefix in H as [<- ->].
Qed.

Lemma fact_inj a b : factKey a = factKey b -> a = b.
Proof. intros H. rewrite <- (string_app_nil_r (factKey a)), <- (string_app_nil_r (factKey b)) in H. by apply fact_prefix in H as [-> _]. Qed.

Lemma path_inj a b : pathKey a = pathKey b -> pathEntry a = pathEntry b /\ pathNode a = pathNode b /\ pathState a = pathState b.
Proof.
  unfold pathKey. intros [-> H%string_app_inj_l]%fact_prefix. apply ref_prefix in H as [-> H%string_app_inj_l]; [|done..].
  rewrite <- (string_app_nil_r (stateKey (pathState a))), <- (string_app_nil_r (stateKey (pathState b))) in H. by apply reference_prefix in H as [-> _].
Qed.

Lemma summary_inj a b : summaryKey a = summaryKey b ->
  summaryEntry a = summaryEntry b /\ summaryExit a = summaryExit b /\ summaryState a = summaryState b.
Proof.
  unfold summaryKey. intros [-> H%string_app_inj_l]%fact_prefix. apply ref_prefix in H as [-> H%string_app_inj_l]; [|done..].
  rewrite <- (string_app_nil_r (stateKey (summaryState a))), <- (string_app_nil_r (stateKey (summaryState b))) in H. by apply reference_prefix in H as [-> _].
Qed.

Lemma dependency_inj a b : dependencyKey a = dependencyKey b ->
  calleeEntry a = calleeEntry b /\ calleeExit a = calleeExit b /\ callerEntry a = callerEntry b /\ callSite a = callSite b /\
  returnNode a = returnNode b /\ callerState a = callerState b.
Proof.
  unfold dependencyKey. intros [-> H%string_app_inj_l]%fact_prefix. apply ref_prefix in H as [-> H%string_app_inj_l]; [|done..].
  apply fact_prefix in H as [-> H%string_app_inj_l]. apply itoa_prefix in H as [-> H%string_app_inj_l]; [|done..].
  apply ref_prefix in H as [-> H%string_app_inj_l]; [|done..].
  rewrite <- (string_app_nil_r (stateKey (callerState a))), <- (string_app_nil_r (stateKey (callerState b))) in H. by apply reference_prefix in H as [-> _].
Qed.
