(* ===== verification/InterpreterFacts.v ===== *)
(** * What the interpreter derives

    The rules that the tables of [interpretIdentity] follow, and the invariant of its queue:
    every entry is derived, and what is not in the queue any more has been followed. *)

From S2P Require Export InterpreterKeys.
Local Open Scope Z_scope.

Section Facts.
Context (program : Program) (tracked : Z) (maxStates : Z).

(** ** Rules *)
Definition stateAfter (n : NodeRef) (s : referenceState) : referenceState := applyReferenceNode s (nodeAt program n) tracked.

Definition isRefuted (n : NodeRef) : bool := String.eqb (NConstraint (nodeAt program n)) ConstraintUNSAT.
Definition isTerminal (n : NodeRef) : bool := NTerminal (nodeAt program n).

(** Paths go on from a node that is neither refuted nor terminal. *)
Definition isLive (n : NodeRef) : Prop := isRefuted n = false /\ isTerminal n = false.

Definition returning (n : NodeRef) : Prop := exists r, r ∈ Edges program /\ EFrom r = n /\ EKind r = EdgeReturn.

Definition leaves (n : NodeRef) (x : Edge) : Prop := isLive n /\ ~ returning n /\ x ∈ Edges program /\ EFrom x = n.

(** The return edges of a call site. *)
Definition matches (site procedure : Z) (r : Edge) : Prop :=
  r ∈ Edges program /\ EKind r = EdgeReturn /\ ECallSite r = site /\ RProcedure (EFrom r) = procedure.

Definition root : referenceEntryFact := mkFact (Entry program) (initial program).

Inductive derived : referenceEntryFact -> NodeRef -> referenceState -> Prop :=
  | d_root : derived root (Entry program) (initial program)
  | d_step e n s x : derived e n s -> leaves n x -> EKind x <> EdgeCall -> EKind x <> EdgeReturn -> derived e (ETo x) (stateAfter n s)
  | d_call e n s x : derived e n s -> leaves n x -> EKind x = EdgeCall ->
      derived (mkFact (ETo x) (stateAfter n s)) (ETo x) (stateAfter n s)
  | d_summary e n s x m t r : derived e n s -> leaves n x -> EKind x = EdgeCall ->
      derived (mkFact (ETo x) (stateAfter n s)) m t -> isLive m -> matches (ECallSite x) (RProcedure (ETo x)) r -> EFrom r = m ->
      derived e (ETo r) (stateAfter m t).

(** The outcome at a terminal node that is reached. *)
Definition final (outcome : string) : Prop := exists e n s,
  derived e n s /\ isRefuted n = false /\ isTerminal n = true /\ outcome = referenceTerminalOutcome (stateAfter n s) tracked.

(** ** Edges *)
Lemma elem_of_sortEdges x l : x ∈ sortEdges l <-> x ∈ l.
Proof. unfold sortEdges. by rewrite merge_sort_Permutation. Qed.

Lemma outgoing_spec x n : x ∈ outgoing program n <-> x ∈ Edges program /\ EFrom x = n.
Proof.
  unfold outgoing, edges. rewrite list_elem_of_filter, elem_of_sortEdges, Is_true_true, String.eqb_eq. split.
  - by intros [->%ref_inj Hx].
  - by intros [Hx ->].
Qed.

Lemma elem_of_returns x site procedure : x ∈ referenceReturnEdgesForCall (edges program) site procedure <-> matches site procedure x.
Proof.
  unfold referenceReturnEdgesForCall, edges, matches.
  rewrite elem_of_sortEdges, list_elem_of_filter, elem_of_sortEdges, Is_true_true, !andb_true_iff, String.eqb_eq, !Z.eqb_eq. tauto.
Qed.

Lemma returning_spec n : bool_decide (referenceReturnEdgesFrom (outgoing program n) = []) = false <-> returning n.
Proof.
  rewrite bool_decide_eq_false. unfold referenceReturnEdgesFrom, returning. split.
  - destruct (filter _ _) as [|r l] eqn:E; [done|]. intros _. exists r.
    assert (r ∈ filter (fun e => String.eqb (EKind e) EdgeReturn) (outgoing program n)) as H by (rewrite E; left).
    rewrite list_elem_of_filter, outgoing_spec, Is_true_true, String.eqb_eq in H. tauto.
  - intros (r & Hr & Hf & Hk) E. apply (not_elem_of_nil r). rewrite <- E.
    by rewrite list_elem_of_filter, outgoing_spec, Is_true_true, String.eqb_eq.
Qed.

(** ** The tables *)
Definition dependencyOk (d : referenceDependency) : Prop := exists n s x r,
  derived (callerEntry d) n s /\ leaves n x /\ EKind x = EdgeCall /\ calleeEntry d = mkFact (ETo x) (stateAfter n s) /\
  callerState d = stateAfter n s /\ matches (ECallSite x) (RProcedure (ETo x)) r /\ calleeExit d = EFrom r /\ returnNode d = ETo r.

Definition summaryOk (s : referenceSummary) : Prop := exists t,
  derived (summaryEntry s) (summaryExit s) t /\ isLive (summaryExit s) /\ summaryState s = stateAfter (summaryExit s) t.

Definition outcomeOk (outcome : string) : Prop :=
  outcome = OutcomeNone \/ final outcome.

Record sound (t : tables) : Prop := {
  so_paths : forall k p, pathEdges t !! k = Some p -> k = pathKey p /\ derived (pathEntry p) (pathNode p) (pathState p);
  so_dependencies : forall k d, dependencies t !! k = Some d -> k = dependencyKey d /\ dependencyOk d;
  so_summaries : forall k s, summaries t !! k = Some s -> k = summaryKey s /\ summaryOk s;
  so_dependencyIndex : forall entry k, k ∈ default [] (dependenciesByEntry t !! entry) <->
    exists d, dependencies t !! k = Some d /\ factKey (calleeEntry d) = entry;
  so_summaryIndex : forall entry k, k ∈ default [] (summariesByEntry t !! entry) <->
    exists s, summaries t !! k = Some s /\ factKey (summaryEntry s) = entry;
  so_queue : forall k, k ∈ queue t -> is_Some (pathEdges t !! k);
  so_outcome : outcomeOk (t_outcome t);
}.

(** What is left of the budget. *)
Definition potential (t : tables) : nat := length (queue t) + Z.to_nat (maxStates - workUnits t).

Record grows (t t' : tables) : Prop := {
  gr_paths : pathEdges t ⊆ pathEdges t';
  gr_dependencies : dependencies t ⊆ dependencies t';
  gr_summaries : summaries t ⊆ summaries t';
  gr_outcome : t_outcome t' = t_outcome t;
  gr_budget : budgetExceeded t = true -> budgetExceeded t' = true;
  gr_queue : queue t `prefix_of` queue t';
  gr_new : forall k, is_Some (pathEdges t' !! k) -> is_Some (pathEdges t !! k) \/ k ∈ queue t';
  gr_potential : (potential t' <= potential t)%nat;
}.

#[export] Instance tables_grow : PreOrder grows.
Proof.
  split; [intros t; split; try done; by left|]. intros a b c [A1 A2 A3 A4 A5 A6 A7 A8] [B1 B2 B3 B4 B5 B6 B7 B8].
  split; [by etransitivity|by etransitivity|by etransitivity|congruence|auto|by etransitivity| |lia].
  intros k Hk. destruct (B7 k Hk) as [H|H]; [|by right]. destruct (A7 k H) as [H'|H']; [by left|].
  right. eapply elem_of_prefix; [done|done].
Qed.

(** What paths the summaries complete. *)
Definition returnPath (d : referenceDependency) (s : referenceSummary) : referencePathEdge :=
  mkPath (callerEntry d) (returnNode d)
    (mkReference (validated (summaryState s)) (violated (summaryState s)) (Z.lor (uncertainty (summaryState s)) (uncertainty (callerState d)))
      (aliases (summaryState s)))
    (callerWitness d ++ summaryWitness s).

Definition connected (d : referenceDependency) (s : referenceSummary) : Prop :=
  calleeEntry d = summaryEntry s /\ calleeExit d = summaryExit s.

Definition joined (t : tables) : Prop := forall kd d ks s, dependencies t !! kd = Some d -> summaries t !! ks = Some s -> connected d s ->
  is_Some (pathEdges t !! pathKey (returnPath d s)).

Lemma reserve_eq t : let '(t', ok) := reserve maxStates t in
  t' = setWork (workUnits t + 1) (budgetExceeded t || negb ok) t /\ (ok = true -> workUnits t + 1 <= maxStates).
Proof.
  unfold reserve. destruct (Z.leb_spec (workUnits t + 1) maxStates); (split; [|done || intros _; lia]); cbn.
  - by rewrite orb_false_r.
  - by rewrite orb_true_r.
Qed.

Lemma setWork_sound units exceeded t : sound t -> sound (setWork units exceeded t).
Proof. intros [S1 S2 S3 S4 S5 S6 S7]. by split. Qed.

Lemma setWork_grows t ok : grows t (setWork (workUnits t + 1) (budgetExceeded t || ok) t).
Proof. split; cbn; try done; [by intros ->|by left|unfold potential; cbn; lia]. Qed.

Lemma addPath_sound p t : sound t -> derived (pathEntry p) (pathNode p) (pathState p) -> sound (addPath (pathKey p) p t).
Proof.
  intros [S1 S2 S3 S4 S5 S6 S7] Hd. split; cbn; try done.
  - intros k q. rewrite lookup_insert_Some. intros [[<- <-]|[_ H]]; auto.
  - intros k. rewrite elem_of_app, list_elem_of_singleton. intros [H| ->]; rewrite lookup_insert_is_Some'; [right; auto|by left].
Qed.

(** What a call of a closure does. *)
Record runs_ok (t t' : tables) (ok : bool) (done : tables -> Prop) : Prop := {
  ro_sound : sound t';
  ro_grows : grows t t';
  ro_done : ok = true -> done t';
  ro_failed : ok = false -> budgetExceeded t' = true;
}.

Lemma enqueue_ok p t : sound t -> derived (pathEntry p) (pathNode p) (pathState p) ->
  let r := enqueue maxStates p t in
  runs_ok t (fst r) (snd r) (fun t' => is_Some (pathEdges t' !! pathKey p)) /\
  dependencies (fst r) = dependencies t /\ summaries (fst r) = summaries t.
Proof.
  intros Hs Hd. unfold enqueue. case_bool_decide as Hk; [split; [|done]; by split|].
  pose proof (reserve_eq t) as Hr. destruct (reserve maxStates t) as [t1 ok]. destruct Hr as [-> Hu]. destruct ok; cbn [fst snd].
  - split; [|done]. split; [apply addPath_sound; [by apply setWork_sound|done]| |intros _; cbn; rewrite lookup_insert_eq; by eexists|done].
    split; cbn; try done.
    + apply insert_subseteq. by apply eq_None_not_Some.
    + intros ->. done.
    + by eexists.
    + intros k. rewrite lookup_insert_is_Some', elem_of_app, list_elem_of_singleton. intros [->|H]; [by right; right|by left].
    + unfold potential. cbn. rewrite length_app. cbn. specialize (Hu eq_refl). lia.
  - split; [|done]. split; [by apply setWork_sound|apply setWork_grows|done|]. intros _. cbn. apply orb_true_r.
Qed.

(** ** Uncertainty only grows *)
Definition keeps (u : Z) (s : referenceState) : Prop := Z.lor (uncertainty s) u = uncertainty s.

Lemma keeps_add u bit s : keeps u s -> keeps u (addUncertainty bit s).
Proof. unfold keeps. cbn. intros H. by rewrite <- Z.lor_assoc, (Z.lor_comm (Z.shiftl 1 bit)), Z.lor_assoc, H. Qed.

Lemma keeps_alias u s node : keeps u s -> keeps u (applyAlias s node).
Proof. intros H. unfold applyAlias. by repeat case_match. Qed.

Lemma keeps_operation u s node : keeps u s -> keeps u (applyOperation s node).
Proof. intros H. unfold applyOperation. repeat case_match; first [exact H|by apply keeps_add]. Qed.

Lemma keeps_unknown u s node : keeps u s -> keeps u (applyUnknown s node).
Proof. intros H. unfold applyUnknown. repeat case_match; first [exact H|by apply keeps_add]. Qed.

Lemma keeps_after u n s : keeps u s -> keeps u (stateAfter n s).
Proof.
  intros H. unfold stateAfter, applyReferenceNode. destruct (_ || _); [by apply keeps_add|].
  destruct (negb _); [by apply keeps_alias|]. by apply keeps_unknown, keeps_operation, keeps_alias.
Qed.

Lemma derived_keeps e n s : derived e n s -> keeps (uncertainty (factState e)) s.
Proof.
  induction 1 as [|e n s x _ IH _ _ _|e n s x _ IH _ _|e n s x m t r _ IH1 _ _ _ IH2 _ _ _].
  - apply Z.lor_diag.
  - by apply keeps_after.
  - apply Z.lor_diag.
  - apply keeps_after. cbn in IH2. unfold keeps in *. apply (keeps_after _ n) in IH1. unfold keeps in IH1.
    rewrite <- IH2, <- Z.lor_assoc, IH1. done.
Qed.

(** ** Closures *)
Lemma returnPath_derived d s : dependencyOk d -> summaryOk s -> connected d s ->
  derived (pathEntry (returnPath d s)) (pathNode (returnPath d s)) (pathState (returnPath d s)).
Proof.
  intros (n & s0 & x & r & Hd & Hl & Hx & He & Hc & Hm & Hf & Hr) (t & Ht & Hlive & Hst) [Hce Hcx].
  cbn [returnPath pathEntry pathNode pathState]. rewrite Hst, Hr.
  replace (mkReference _ _ _ _) with (stateAfter (summaryExit s) t).
  - eapply d_summary; [exact Hd|exact Hl|exact Hx| |exact Hlive|exact Hm|congruence]. by rewrite <- He, Hce.
  - apply derived_keeps in Ht. rewrite <- Hce, He in Ht. cbn in Ht. apply (keeps_after _ (summaryExit s)) in Ht. unfold keeps in Ht.
    rewrite Hc, Ht. by destruct (stateAfter (summaryExit s) t).
Qed.

Lemma countReuse_sound t : sound t -> sound (countReuse t).
Proof. intros [S1 S2 S3 S4 S5 S6 S7]. by split. Qed.
Lemma countReuse_grows t : grows t (countReuse t).
Proof. split; cbn; try done; by left. Qed.

Lemma runs_ok_before t0 t t' ok done : grows t0 t -> runs_ok t t' ok done -> runs_ok t0 t' ok done.
Proof. intros Hg [R1 R2 R3 R4]. split; [done|by etransitivity|done|done]. Qed.

Lemma runs_ok_weaken t t' ok (done done' : tables -> Prop) : (done t' -> done' t') -> runs_ok t t' ok done -> runs_ok t t' ok done'.
Proof. intros H [R1 R2 R3 R4]. split; auto. Qed.

Lemma applySummary_ok d s t : sound t -> dependencyOk d -> summaryOk s -> calleeEntry d = summaryEntry s ->
  let r := applySummary maxStates d s t in
  runs_ok t (fst r) (snd r) (fun t' => connected d s -> is_Some (pathEdges t' !! pathKey (returnPath d s))) /\
  dependencies (fst r) = dependencies t /\ summaries (fst r) = summaries t.
Proof.
  intros Hs Hd Hsum He. unfold applySummary. case_bool_decide as Hx; cbn [negb].
  - destruct (enqueue_ok (returnPath d s) (countReuse t) (countReuse_sound t Hs)) as (H1 & H2 & H3).
    { by apply returnPath_derived. }
    split; [|done]. eapply runs_ok_before; [apply countReuse_grows|]. by eapply runs_ok_weaken; [|exact H1].
  - split; [|done]. split; [done|done|by intros _ []|done].
Qed.

(** A loop over keys that keeps the dependencies and the summaries. *)
Lemma eachKey_ok (f : string -> closure) (what : string -> tables -> Prop) keys :
  (forall k t t', what k t -> grows t t' -> what k t') ->
  forall t, sound t ->
  (forall k t', k ∈ keys -> sound t' -> dependencies t' = dependencies t -> summaries t' = summaries t ->
    let r := f k t' in runs_ok t' (fst r) (snd r) (what k) /\ dependencies (fst r) = dependencies t' /\ summaries (fst r) = summaries t') ->
  let r := eachKey f keys t in
  runs_ok t (fst r) (snd r) (fun t' => forall k, k ∈ keys -> what k t') /\ dependencies (fst r) = dependencies t /\ summaries (fst r) = summaries t.
Proof.
  intros Hw. induction keys as [|k keys IH]; intros t Hs Hf; cbn [eachKey].
  - split; [|done]. split; [done|done|by intros _ k ?%elem_of_nil|done].
  - destruct (Hf k t ltac:(left) Hs eq_refl eq_refl) as ([R1 R2 R3 R4] & Hd & Hsum). cbn zeta in *.
    destruct (f k t) as [t1 ok]. cbn [fst snd] in *. destruct ok; [|split; [|done]; by split].
    destruct (IH t1 R1) as ([Q1 Q2 Q3 Q4] & Qd & Qs).
    { intros k' t' Hk' Hs' Hd' Hsum'. apply Hf; [by right|done|congruence|congruence]. }
    split; [|split; congruence]. split; [done|by etransitivity| |done]. intros Hok k' [->|Hk']%elem_of_cons; [|by apply Q3].
    eapply Hw; [by apply R3|done].
Qed.

Lemma path_grows t t' k : is_Some (pathEdges t !! k) -> grows t t' -> is_Some (pathEdges t' !! k).
Proof. intros [p Hp] Hg. exists p. eapply lookup_weaken; [done|apply Hg]. Qed.

(** An index lists the keys of the entries it is for. *)
Lemma keysFor_insert {A} (m : gmap string A) (index : gmap string (list string)) (entryOf : A -> string) key a :
  m !! key = None -> (forall entry k, k ∈ default [] (index !! entry) <-> exists x, m !! k = Some x /\ entryOf x = entry) ->
  forall entry k, k ∈ default [] (<[entryOf a := slices_Sort (default [] (index !! entryOf a) ++ [key])]> index !! entry) <->
    exists x, <[key := a]> m !! k = Some x /\ entryOf x = entry.
Proof.
  intros Hn Hi entry k. destruct (decide (entryOf a = entry)) as [<-|Hne].
  - rewrite lookup_insert_eq. cbn. rewrite slices_Sort_elem_of, elem_of_app, list_elem_of_singleton, Hi. split.
    + intros [(x & Hx & He)| ->]; [exists x; rewrite lookup_insert_ne by congruence; done|exists a; by rewrite lookup_insert_eq].
    + intros (x & [[<- <-]|[Hk Hx]]%lookup_insert_Some & He); [by right|left; by exists x].
  - rewrite lookup_insert_ne by done. rewrite Hi. split.
    + intros (x & Hx & He). exists x. rewrite lookup_insert_ne by congruence. done.
    + intros (x & [[<- <-]|[Hk Hx]]%lookup_insert_Some & He); [congruence|by exists x].
Qed.

Lemma addDependency_sound d t : sound t -> dependencyOk d -> dependencies t !! dependencyKey d = None ->
  sound (addDependency (dependencyKey d) (factKey (calleeEntry d)) d t).
Proof.
  intros [S1 S2 S3 S4 S5 S6 S7] Hd Hn. split; cbn; try done.
  - intros k x. rewrite lookup_insert_Some. intros [[<- <-]|[_ H]]; auto.
  - by apply (keysFor_insert _ _ (fun d => factKey (calleeEntry d))).
Qed.

Lemma addSummary_sound s t : sound t -> summaryOk s -> summaries t !! summaryKey s = None ->
  sound (addSummary (summaryKey s) (factKey (summaryEntry s)) s t).
Proof.
  intros [S1 S2 S3 S4 S5 S6 S7] Hs Hn. split; cbn; try done.
  - intros k x. rewrite lookup_insert_Some. intros [[<- <-]|[_ H]]; auto.
  - by apply (keysFor_insert _ _ (fun s => factKey (summaryEntry s))).
Qed.

Lemma reserved_grows t : grows t (setWork (workUnits t + 1) (budgetExceeded t || false) t).
Proof. apply setWork_grows. Qed.

Lemma registerDependency_ok d t : sound t -> dependencyOk d ->
  let r := registerDependency maxStates d t in
  runs_ok t (fst r) (snd r) (fun t' => is_Some (dependencies t' !! dependencyKey d) /\ (joined t -> joined t')).
Proof.
  intros Hs Hd. unfold registerDependency. case_bool_decide as Hk; [by split|].
  apply eq_None_not_Some in Hk. pose proof (reserve_eq t) as Hr. destruct (reserve maxStates t) as [t1 ok]. destruct Hr as [-> _].
  destruct ok; cbn [negb]; [|split; [by apply setWork_sound|apply setWork_grows|done|intros _; cbn; apply orb_true_r]].
  set (t1 := setWork _ _ t). set (t2 := addDependency _ _ d t1).
  assert (sound t2) as Hs2 by (apply addDependency_sound; [by apply setWork_sound|done|done]).
  assert (grows t t2) as Hg2.
  { etransitivity; [apply reserved_grows|]. split; cbn; try done; [by apply insert_subseteq|by left]. }
  destruct (eachKey_ok (fun k t => applySummary maxStates d (default zeroSummary (summaries t !! k)) t)
    (fun k t => let s := default zeroSummary (summaries t2 !! k) in connected d s -> is_Some (pathEdges t !! pathKey (returnPath d s)))
    (default [] (summariesByEntry t2 !! factKey (calleeEntry d)))) with (t := t2) as (Hall & Hdeps & Hsums).
  - intros k t' t'' H Hg. cbn zeta. intros Hc. eapply path_grows; [by apply H|done].
  - done.
  - intros k t' Hin Hs' Hd' Hsum'. apply (so_summaryIndex t2 Hs2) in Hin as (s & Hsk & He).
    assert (default zeroSummary (summaries t' !! k) = s) as -> by (by rewrite Hsum', Hsk). rewrite Hsk. cbn [default].
    apply applySummary_ok; [done|done|by apply (so_summaries t2 Hs2 _ _ Hsk)|by apply fact_inj].
  - destruct Hall as [R1 R2 R3 R4]. split; [done|by etransitivity| |done].
    intros Hok. split; [rewrite Hdeps; cbn; rewrite lookup_insert_eq; by eexists|].
    intros Hj kd d' ks s Hd' Hsk Hc. rewrite Hdeps in Hd'. rewrite Hsums in Hsk. cbn in Hd'. apply lookup_insert_Some in Hd' as [[<- <-]|[_ Hd']].
    + specialize (R3 Hok ks). cbn zeta in R3. rewrite Hsk in R3. apply R3; [|done]. apply (so_summaryIndex t2 Hs2). exists s.
      split; [done|]. by destruct Hc as [-> _].
    + eapply path_grows; [by eapply (Hj kd d' ks s)|]. by etransitivity.
Qed.

Lemma publishSummary_ok s t : sound t -> summaryOk s ->
  let r := publishSummary maxStates s t in
  runs_ok t (fst r) (snd r) (fun t' => is_Some (summaries t' !! summaryKey s) /\ (joined t -> joined t')).
Proof.
  intros Hs Hsum. unfold publishSummary. case_bool_decide as Hk; [by split|].
  apply eq_None_not_Some in Hk. pose proof (reserve_eq t) as Hr. destruct (reserve maxStates t) as [t1 ok]. destruct Hr as [-> _].
  destruct ok; cbn [negb]; [|split; [by apply setWork_sound|apply setWork_grows|done|intros _; cbn; apply orb_true_r]].
  set (t1 := setWork _ _ t). set (t2 := addSummary _ _ s t1).
  assert (sound t2) as Hs2 by (apply addSummary_sound; [by apply setWork_sound|done|done]).
  assert (grows t t2) as Hg2.
  { etransitivity; [apply reserved_grows|]. split; cbn; try done; [by apply insert_subseteq|by left]. }
  destruct (eachKey_ok (fun k t => applySummary maxStates (default zeroDependency (dependencies t !! k)) s t)
    (fun k t => let d := default zeroDependency (dependencies t2 !! k) in connected d s -> is_Some (pathEdges t !! pathKey (returnPath d s)))
    (default [] (dependenciesByEntry t2 !! factKey (summaryEntry s)))) with (t := t2) as (Hall & Hdeps & Hsums).
  - intros k t' t'' H Hg. cbn zeta. intros Hc. eapply path_grows; [by apply H|done].
  - done.
  - intros k t' Hin Hs' Hd' Hsum'. apply (so_dependencyIndex t2 Hs2) in Hin as (d & Hdk & He).
    assert (default zeroDependency (dependencies t' !! k) = d) as -> by (by rewrite Hd', Hdk). rewrite Hdk. cbn [default].
    apply applySummary_ok; [done|by apply (so_dependencies t2 Hs2 _ _ Hdk)|done|by apply fact_inj].
  - destruct Hall as [R1 R2 R3 R4]. split; [done|by etransitivity| |done].
    intros Hok. split; [rewrite Hsums; cbn; rewrite lookup_insert_eq; by eexists|].
    intros Hj kd d ks s' Hdk Hs' Hc. rewrite Hdeps in Hdk. rewrite Hsums in Hs'. cbn in Hs'. apply lookup_insert_Some in Hs' as [[<- <-]|[_ Hs']].
    + specialize (R3 Hok kd). cbn zeta in R3. rewrite Hdk in R3. apply R3; [|done]. apply (so_dependencyIndex t2 Hs2). exists d.
      split; [done|]. by destruct Hc as [-> _].
    + eapply path_grows; [by eapply (Hj kd d ks s')|]. by etransitivity.
Qed.

(** ** Iterations *)

(** What a part of an iteration does: unless the budget is used up, it gets [done]. *)
Record stepped (t t' : tables) (done : tables -> Prop) : Prop := {
  st_sound : sound t';
  st_grows : grows t t';
  st_done : budgetExceeded t' = false -> done t' /\ (joined t -> joined t');
}.

Lemma within_budget t t' : grows t t' -> budgetExceeded t' = false -> budgetExceeded t = false.
Proof. intros Hg H. destruct (budgetExceeded t) eqn:E; [|done]. by rewrite (gr_budget t t' Hg E) in H. Qed.

Lemma joined_grows t t' : dependencies t' = dependencies t -> summaries t' = summaries t -> grows t t' -> joined t -> joined t'.
Proof. intros Hd Hs Hg Hj kd d ks s. rewrite Hd, Hs. intros H1 H2 Hc. eapply path_grows; [by eapply Hj|done]. Qed.

Definition dependencyFor (entry : referenceEntryFact) (s : referenceState) (x r : Edge) (witness : list string) : referenceDependency :=
  mkDependency (mkFact (ETo x) s) (EFrom r) entry (ECallSite x) (ETo r) s witness.

Definition hasPath (e : referenceEntryFact) (n : NodeRef) (s : referenceState) (t : tables) : Prop :=
  is_Some (pathEdges t !! pathKey (mkPath e n s [])).

(** What follows a path edge along [x], in the state after its node. *)
Definition followed (e : referenceEntryFact) (s : referenceState) (x : Edge) (t : tables) : Prop :=
  EKind x <> EdgeReturn ->
  (EKind x <> EdgeCall -> hasPath e (ETo x) s t) /\
  (EKind x = EdgeCall -> hasPath (mkFact (ETo x) s) (ETo x) s t /\
    forall r, matches (ECallSite x) (RProcedure (ETo x)) r -> is_Some (dependencies t !! dependencyKey (dependencyFor e s x r []))).

Lemma followed_grows e s x t t' : followed e s x t -> grows t t' -> followed e s x t'.
Proof.
  intros Hf Hg Hr. destruct (Hf Hr) as [H1 H2]. split.
  - intros Hc. eapply path_grows; [by apply H1|done].
  - intros Hc. destruct (H2 Hc) as [H3 H4]. split; [by eapply path_grows|]. intros r Hm. destruct (H4 r Hm) as [d Hd].
    exists d. eapply lookup_weaken; [done|apply Hg].
Qed.

Lemma registerCall_stepped p s0 x witness returns : leaves (pathNode p) x -> EKind x = EdgeCall ->
  derived (pathEntry p) (pathNode p) s0 -> pathState p = stateAfter (pathNode p) s0 ->
  (forall r, r ∈ returns -> matches (ECallSite x) (RProcedure (ETo x)) r) -> forall t, sound t ->
  stepped t (registerCall maxStates p (mkFact (ETo x) (pathState p)) (ECallSite x) witness returns t)
    (fun t' => forall r, r ∈ returns -> is_Some (dependencies t' !! dependencyKey (dependencyFor (pathEntry p) (pathState p) x r []))).
Proof.
  intros Hl Hx Hd Hp. induction returns as [|r returns IH]; intros Hm t Hs; cbn [registerCall].
  - split; [done|done|]. intros _. split; [by intros r ?%elem_of_nil|done].
  - set (d := mkDependency _ _ _ _ _ _ _).
    destruct (registerDependency_ok d t Hs) as [R1 R2 R3 R4].
    { exists (pathNode p), s0, x, r. cbn. rewrite Hp. do 5 (split; [done|]). split; [apply Hm; left|done]. }
    cbn zeta in *. destruct (registerDependency maxStates d t) as [t1 ok]. cbn [fst snd] in *. destruct ok.
    + destruct (IH ltac:(intros; apply Hm; by right) t1 R1) as [Q1 Q2 Q3]. split; [done|by etransitivity|]. intros Hb.
      destruct (Q3 Hb) as [Q4 Q5], (R3 eq_refl) as [R5 R6]. split; [|auto]. intros r' [->|Hr']%elem_of_cons; [|by apply Q4].
      destruct R5 as [d' Hd']. exists d'. eapply lookup_weaken; [exact Hd'|apply Q2].
    + split; [done|done|]. rewrite (R4 eq_refl). done.
Qed.

Lemma enqueue_stepped p t : sound t -> derived (pathEntry p) (pathNode p) (pathState p) ->
  stepped t (fst (enqueue maxStates p t)) (fun t' => is_Some (pathEdges t' !! pathKey p)).
Proof.
  intros Hs Hd. destruct (enqueue_ok p t Hs Hd) as ([R1 R2 R3 R4] & Hdeps & Hsums). cbn zeta in *.
  destruct (enqueue maxStates p t) as [t1 ok]. cbn [fst snd] in *. split; [done|done|]. intros Hb. destruct ok; [|by rewrite R4 in Hb].
  split; [auto|by apply joined_grows].
Qed.

Lemma followEdge_stepped p s0 t x : leaves (pathNode p) x -> derived (pathEntry p) (pathNode p) s0 ->
  pathState p = stateAfter (pathNode p) s0 -> sound t ->
  stepped t (followEdge program maxStates p t x) (followed (pathEntry p) (pathState p) x).
Proof.
  intros Hl Hd Hp Hs. unfold followEdge. destruct (String.eqb_spec (EKind x) EdgeReturn) as [Hr|Hr].
  { split; [done|done|]. intros _. by split. }
  destruct (String.eqb_spec (EKind x) EdgeCall) as [Hc|Hc].
  - destruct (registerCall_stepped p s0 x (pathWitness p ++ [referenceEdgeKey x])
      (referenceReturnEdgesForCall (edges program) (ECallSite x) (RProcedure (ETo x))) Hl Hc Hd Hp
      (fun r Hin => proj1 (elem_of_returns _ _ _) Hin) t Hs) as [R1 R2 R3].
    set (t1 := registerCall _ _ _ _ _ _ t) in *. destruct (budgetExceeded t1) eqn:Eb; [by split; [| |rewrite Eb]|].
    destruct (enqueue_stepped (mkPath (mkFact (ETo x) (pathState p)) (ETo x) (pathState p) (pathWitness p ++ [referenceEdgeKey x])) t1 R1) as [Q1 Q2 Q3].
    { cbn. rewrite Hp. by eapply d_call. }
    split; [done|by etransitivity|]. intros Hb. destruct (Q3 Hb) as [Q4 Q5], (R3 eq_refl) as [R4 R5]. split; [|auto].
    intros _. split; [done|]. intros _. split; [exact Q4|]. intros r Hm.
    destruct (R4 r ltac:(by apply elem_of_returns)) as [d Hdr]. exists d. eapply lookup_weaken; [exact Hdr|apply Q2].
  - destruct (enqueue_stepped (mkPath (pathEntry p) (ETo x) (pathState p) (pathWitness p ++ [referenceEdgeKey x])) t Hs) as [Q1 Q2 Q3].
    { cbn. rewrite Hp. by eapply d_step. }
    split; [done|done|]. intros Hb. destruct (Q3 Hb) as [Q4 Q5]. split; [|done]. intros _. by split.
Qed.

Lemma followEdges_stepped p s0 l : derived (pathEntry p) (pathNode p) s0 -> pathState p = stateAfter (pathNode p) s0 ->
  (forall x, x ∈ l -> leaves (pathNode p) x) -> forall t, sound t ->
  stepped t (foldl (followEdge program maxStates p) t l) (fun t' => forall x, x ∈ l -> followed (pathEntry p) (pathState p) x t').
Proof.
  intros Hd Hp. induction l as [|x l IH]; intros Hl t Hs; cbn [foldl].
  - split; [done|done|]. intros _. split; [by intros x ?%elem_of_nil|done].
  - destruct (followEdge_stepped p s0 t x (Hl x ltac:(left)) Hd Hp Hs) as [R1 R2 R3].
    destruct (IH ltac:(intros; apply Hl; by right) _ R1) as [Q1 Q2 Q3]. split; [done|by etransitivity|]. intros Hb.
    destruct (Q3 Hb) as [Q4 Q5], (R3 (within_budget _ _ Q2 Hb)) as [R4 R5]. split; [|auto].
    intros y [->|Hy]%elem_of_cons; [by eapply followed_grows|by apply Q4].
Qed.
End Facts.
