(* ===== verification/InterpreterRun.v ===== *)
(** * Runs of the interpreter

    The queue of [interpretIdentity] empties within its budget, and the tables it ends with
    hold exactly what the rules derive; the rules derive exactly what the executions of the
    program with a call stack reach. *)

From S2P Require Export InterpreterFacts.
Local Open Scope Z_scope.

(** Outcomes are ordered by how bad they are. *)
Definition isViolation (o : string) : bool := String.eqb o OutcomeViolation.
Definition isInconclusive (o : string) : bool := String.eqb o OutcomeInconclusive.

Lemma join_violation a b : isViolation (joinOutcome a b) = isViolation a || isViolation b.
Proof. unfold joinOutcome. fold (isViolation a) (isViolation b). destruct (isViolation a || isViolation b); [done|]. by destruct (_ || _). Qed.

Lemma join_inconclusive a b : isInconclusive (joinOutcome a b) = negb (isViolation a || isViolation b) && (isInconclusive a || isInconclusive b).
Proof.
  unfold joinOutcome. fold (isViolation a) (isViolation b) (isInconclusive a) (isInconclusive b).
  destruct (isViolation a || isViolation b); [done|]. by destruct (isInconclusive a || isInconclusive b).
Qed.

Lemma join_eq a b : joinOutcome a b =
  if isViolation a || isViolation b then OutcomeViolation else if isInconclusive a || isInconclusive b then OutcomeInconclusive else OutcomeNone.
Proof. done. Qed.

Lemma violation_inconclusive a : isViolation a = true -> isInconclusive a = false.
Proof. by intros ->%String.eqb_eq. Qed.

Lemma joinOutcome_absorbs a b o : joinOutcome a o = a -> joinOutcome (joinOutcome a b) o = joinOutcome a b.
Proof.
  intros H. pose proof (join_violation a o) as Hv. pose proof (join_inconclusive a o) as Hi. rewrite H in Hv, Hi.
  rewrite (join_eq (joinOutcome a b)), join_violation, join_inconclusive, (join_eq a b).
  pose proof (violation_inconclusive a). pose proof (violation_inconclusive o).
  destruct (isViolation a), (isViolation b), (isViolation o), (isInconclusive a), (isInconclusive b), (isInconclusive o); naive_solver.
Qed.

Lemma joinOutcome_right a o : joinOutcome (joinOutcome a o) o = joinOutcome a o.
Proof.
  rewrite (join_eq (joinOutcome a o)), join_violation, join_inconclusive, (join_eq a o).
  by destruct (isViolation a), (isViolation o), (isInconclusive a), (isInconclusive o).
Qed.

Lemma joinOutcome_cases a b : joinOutcome a b = OutcomeNone \/ joinOutcome a b = a \/ joinOutcome a b = b.
Proof.
  unfold joinOutcome. destruct (String.eqb_spec a OutcomeViolation), (String.eqb_spec b OutcomeViolation); cbn; subst; auto.
  destruct (String.eqb_spec a OutcomeInconclusive), (String.eqb_spec b OutcomeInconclusive); cbn; subst; auto.
Qed.

Section Run.
Context (program : Program) (tracked : Z) (maxStates : Z).
Abbreviation derived := (derived program tracked).
Abbreviation stateAfter := (stateAfter program tracked).
Abbreviation sound := (sound program tracked).

Definition outcomeAt (p : referencePathEdge) : string := referenceTerminalOutcome (stateAfter (pathNode p) (pathState p)) tracked.

(** What is done for a path edge that has left the queue. *)
Definition finished (p : referencePathEdge) (t : tables) : Prop :=
  isRefuted program (pathNode p) = false ->
  if isTerminal program (pathNode p) then joinOutcome (t_outcome t) (outcomeAt p) = t_outcome t
  else
    let s := stateAfter (pathNode p) (pathState p) in
    (returning program (pathNode p) -> is_Some (summaries t !! summaryKey (mkSummary (pathEntry p) (pathNode p) s []))) /\
    (~ returning program (pathNode p) -> forall x, x ∈ Edges program -> EFrom x = pathNode p -> followed program (pathEntry p) s x t).

Lemma finished_grows p t t' : finished p t -> grows maxStates t t' -> finished p t'.
Proof.
  intros Hf Hg Hr. specialize (Hf Hr). destruct (isTerminal program (pathNode p)); [by rewrite (gr_outcome _ t t' Hg)|].
  destruct Hf as [H1 H2]. split.
  - intros Hret. destruct (H1 Hret) as [s Hs]. exists s. eapply lookup_weaken; [done|apply Hg].
  - intros Hret x Hx Hn. eapply followed_grows; [by apply H2|done].
Qed.

(** The invariant of the loop. *)
Record inv (t : tables) : Prop := {
  i_sound : sound t;
  i_joined : budgetExceeded t = false -> joined t;
  i_finished : budgetExceeded t = false -> forall k p, pathEdges t !! k = Some p -> k ∈ queue t \/ finished p t;
}.

(** The iteration of a path edge. *)
Lemma processPath_spec p t : sound t -> derived (pathEntry p) (pathNode p) (pathState p) ->
  let t' := processPath program tracked maxStates p (nodeAt program (pathNode p)) t in
  sound t' /\ pathEdges t ⊆ pathEdges t' /\ (potential maxStates t' <= potential maxStates t)%nat /\
  (budgetExceeded t = true -> budgetExceeded t' = true) /\ queue t `prefix_of` queue t' /\
  (forall k, is_Some (pathEdges t' !! k) -> is_Some (pathEdges t !! k) \/ k ∈ queue t') /\
  (budgetExceeded t' = false -> finished p t' /\ (joined t -> joined t') /\ forall q, finished q t -> finished q t').
Proof.
  intros Hs Hd. unfold processPath.
  change (String.eqb (NConstraint (nodeAt program (pathNode p))) ConstraintUNSAT) with (isRefuted program (pathNode p)).
  destruct (isRefuted program (pathNode p)) eqn:Eu.
  { destruct Hs. split; [by split|]. do 4 (split; [done|]). split; [by left|]. intros _. split; [unfold finished; by rewrite Eu|done]. }
  change (applyReferenceNode (pathState p) (nodeAt program (pathNode p)) tracked) with (stateAfter (pathNode p) (pathState p)).
  change (NTerminal (nodeAt program (pathNode p))) with (isTerminal program (pathNode p)). cbn [pathState pathNode pathEntry pathWitness].
  destruct (isTerminal program (pathNode p)) eqn:Et.
  { set (o := referenceTerminalOutcome _ tracked).
    assert (final program tracked o) as Hfinal by (by exists (pathEntry p), (pathNode p), (pathState p)).
    split.
    - destruct Hs as [S1 S2 S3 S4 S5 S6 S7]. split; cbn; try done.
      destruct (joinOutcome_cases (t_outcome t) o) as [->|[->| ->]]; [by left|done|by right].
    - do 4 (split; [done|]). split; [by left|]. intros _. split; [|split; [done|]].
      + intros _. rewrite Et. apply joinOutcome_right.
      + intros q Hq Hr. specialize (Hq Hr). destruct (isTerminal program (pathNode q)); [by apply joinOutcome_absorbs|done]. }
  assert (forall t', grows maxStates t t' -> sound t' -> (budgetExceeded t' = false -> finished p t' /\ (joined t -> joined t')) ->
    sound t' /\ pathEdges t ⊆ pathEdges t' /\ (potential maxStates t' <= potential maxStates t)%nat /\
    (budgetExceeded t = true -> budgetExceeded t' = true) /\ queue t `prefix_of` queue t' /\
    (forall k, is_Some (pathEdges t' !! k) -> is_Some (pathEdges t !! k) \/ k ∈ queue t') /\
    (budgetExceeded t' = false -> finished p t' /\ (joined t -> joined t') /\ forall q, finished q t -> finished q t')) as Hgoal.
  { intros t' Hg Hs' Hf. pose proof Hg as [G1 G2 G3 G4 G5 G6 G7 G8]. do 6 (split; [done|]). intros Hb. destruct (Hf Hb). split; [done|].
    split; [done|]. intros q Hq. by eapply finished_grows. }
  destruct (bool_decide (referenceReturnEdgesFrom (outgoing program (pathNode p)) = [])) eqn:Er; cbn [negb].
  - assert (~ returning program (pathNode p)) as Hr by (rewrite <- returning_spec; by rewrite Er).
    destruct (followEdges_stepped program tracked maxStates
      (mkPath (pathEntry p) (pathNode p) (stateAfter (pathNode p) (pathState p)) (pathWitness p)) (pathState p) (outgoing program (pathNode p)) Hd eq_refl)
      with (t := t) as [R1 R2 R3]; [intros x Hx; apply outgoing_spec in Hx as [Hx Hf]; done|done|].
    apply Hgoal; [done|done|]. intros Hb. destruct (R3 Hb) as [R4 R5]. split; [|done]. intros _. rewrite Et. split; [done|].
    intros _ x Hx Hf. apply R4. by apply outgoing_spec.
  - assert (returning program (pathNode p)) as Hr by (by apply returning_spec).
    destruct (publishSummary_ok program tracked maxStates
      (mkSummary (pathEntry p) (pathNode p) (stateAfter (pathNode p) (pathState p)) (pathWitness p)) t Hs) as [R1 R2 R3 R4].
    { by exists (pathState p). }
    cbn zeta in *. destruct (publishSummary maxStates _ t) as [t' ok]. cbn [fst snd] in *. apply Hgoal; [done|done|]. intros Hb.
    destruct ok; [|by rewrite R4 in Hb]. destruct (R3 eq_refl) as [R5 R6]. split; [|done]. intros _. rewrite Et. by split.
Qed.

Lemma inv_start : 0 < maxStates -> inv (startTables program maxStates) /\
  (budgetExceeded (startTables program maxStates) = false -> hasPath (root program) (Entry program) (initial program) (startTables program maxStates)) /\
  (potential maxStates (startTables program maxStates) <= Z.to_nat maxStates)%nat.
Proof.
  intros Hpos. assert (sound noTables) as H0.
  { split; cbn; try (intros *; by rewrite lookup_empty); [..|by left].
    - intros entry k. rewrite lookup_empty. cbn. split; [by intros ?%elem_of_nil|intros (d & Hd & _); by rewrite lookup_empty in Hd].
    - intros entry k. rewrite lookup_empty. cbn. split; [by intros ?%elem_of_nil|intros (d & Hd & _); by rewrite lookup_empty in Hd].
    - by intros k ?%elem_of_nil. }
  destruct (enqueue_stepped program tracked maxStates (mkPath (mkFact (Entry program) (initial program)) (Entry program) (initial program) []) noTables H0)
    as [R1 R2 R3]; [apply d_root|].
  fold (startTables program maxStates) in *. split; [split; [done|..]|split].
  - intros Hb. apply (R3 Hb). intros kd d ks sm Hd. cbn in Hd. by rewrite lookup_empty in Hd.
  - intros _ k p Hk. destruct (gr_new _ _ _ R2 k) as [H|H]; [by exists p| |by left]. cbn in H. rewrite lookup_empty in H. by destruct H.
  - intros Hb. unfold hasPath, root. exact (proj1 (R3 Hb)).
  - pose proof (gr_potential _ _ _ R2) as Hp. unfold potential at 2 in Hp. cbn [queue noTables workUnits length] in Hp. lia.
Qed.

Lemma setQueue_inv k rest t : queue t = k :: rest -> inv t -> sound (setQueue rest t) /\ (potential maxStates (setQueue rest t) < potential maxStates t)%nat.
Proof.
  intros Hq [Hs _ _]. split; [|unfold potential; cbn; rewrite Hq; cbn; lia].
  destruct Hs as [S1 S2 S3 S4 S5 S6 S7]. split; cbn; try done. intros k' Hk'. apply S6. rewrite Hq. by right.
Qed.

Lemma inv_step k rest t : queue t = k :: rest -> inv t ->
  let p := default zeroPath (pathEdges t !! k) in
  let t' := processPath program tracked maxStates p (nodeAt program (pathNode p)) (setQueue rest t) in
  inv t' /\ (potential maxStates t' < potential maxStates t)%nat /\ pathEdges t ⊆ pathEdges t' /\
  (budgetExceeded t = true -> budgetExceeded t' = true).
Proof.
  intros Hq Hi. destruct (setQueue_inv k rest t Hq Hi) as [Hs Hlt]. destruct Hi as [I1 I2 I3].
  destruct (so_queue _ _ _ I1 k) as [p Hp]; [rewrite Hq; left|]. rewrite Hp. change (default zeroPath (Some p)) with p. cbn zeta.
  destruct (so_paths _ _ _ I1 k p Hp) as [Hk Hd].
  destruct (processPath_spec p (setQueue rest t) Hs Hd) as (P1 & P2 & P3 & P4 & P5 & P6 & P7). cbn zeta in *.
  set (t' := processPath _ _ _ p _ _) in *. split; [|split; [lia|done]]. split; [done|..].
  - intros Hb. assert (budgetExceeded t = false) as Hb' by (destruct (budgetExceeded t) eqn:E; [by rewrite P4 in Hb|done]).
    destruct (P7 Hb) as (_ & Hj & _). apply Hj. exact (I2 Hb').
  - intros Hb k' p' Hp'. assert (budgetExceeded t = false) as Hb' by (destruct (budgetExceeded t) eqn:E; [by rewrite P4 in Hb|done]).
    destruct (P7 Hb) as (Hf & _ & Hall). destruct (P6 k') as [H|H]; [by exists p'| |by left]. destruct H as [q Hq']. cbn in Hq'.
    assert (q = p') as -> by (eapply lookup_weaken in Hq'; [|exact P2]; congruence).
    destruct (I3 Hb' k' p' Hq') as [Hin|Hfin]; [|right; by apply Hall].
    rewrite Hq in Hin. apply elem_of_cons in Hin as [->|Hin]; [right; assert (p' = p) as -> by congruence; exact Hf|]. left. by eapply elem_of_prefix.
Qed.

Lemma runQueue_spec fuel : forall t, inv t -> (potential maxStates t <= fuel)%nat -> exists t',
  runQueue program tracked maxStates fuel t = Some t' /\ inv t' /\ (budgetExceeded t' = true \/ queue t' = []) /\ pathEdges t ⊆ pathEdges t' /\
  (budgetExceeded t = true -> budgetExceeded t' = true).
Proof.
  induction fuel as [|fuel IH]; intros t Hi Hp; cbn [runQueue]; destruct (queue t) as [|k rest] eqn:Eq; try (exists t; by auto).
  - unfold potential in Hp. rewrite Eq in Hp. cbn [length] in Hp. lia.
  - destruct (budgetExceeded t) eqn:Eb; [exists t; by auto|]. destruct (inv_step k rest t Eq Hi) as (H1 & H2 & H3 & H4). cbn zeta in *.
    destruct (IH _ H1) as (t' & H5 & H6 & H7 & H8 & H9); [lia|]. exists t'. split; [done|]. split; [done|]. split; [done|].
    split; [by etransitivity|done].
Qed.

(** ** Completeness *)
Section Complete.
Context (t : tables) (Hi : inv t) (Hb : budgetExceeded t = false) (Hq : queue t = [])
  (Hroot : hasPath (root program) (Entry program) (initial program) t).

Lemma stored_path e n s : hasPath e n s t -> exists p, finished p t /\ pathEntry p = e /\ pathNode p = n /\ pathState p = s.
Proof.
  intros [p Hp]. destruct (so_paths _ _ _ (i_sound t Hi) _ p Hp) as [Hk _]. apply path_inj in Hk as (H1 & H2 & H3). cbn in *.
  destruct (i_finished t Hi Hb _ p Hp) as [H|H]; [rewrite Hq in H; by apply elem_of_nil in H|]. by exists p.
Qed.

Lemma hasPath_edge e n s x : hasPath e n s t -> leaves program n x -> followed program e (stateAfter n s) x t.
Proof.
  intros Hp (Hl & Hr & Hx & Hf). destruct (stored_path e n s Hp) as (p & Hfin & <- & <- & <-). destruct Hl as [Hl1 Hl2].
  specialize (Hfin Hl1). rewrite Hl2 in Hfin. by apply Hfin.
Qed.

Lemma hasPath_return e n s : hasPath e n s t -> isLive program n -> returning program n ->
  is_Some (summaries t !! summaryKey (mkSummary e n (stateAfter n s) [])).
Proof.
  intros Hp Hl Hr. destruct (stored_path e n s Hp) as (p & Hfin & <- & <- & <-). destruct Hl as [Hl1 Hl2].
  specialize (Hfin Hl1). rewrite Hl2 in Hfin. by apply Hfin.
Qed.

Lemma derived_hasPath e n s : derived e n s -> hasPath e n s t.
Proof.
  induction 1 as [|e n s x _ IH Hl Hc Hr|e n s x _ IH Hl Hc|e n s x m u r H1 IH1 Hl Hc H2 IH2 Hlive Hm Hf].
  - done.
  - by apply (hasPath_edge e n s x IH Hl).
  - by apply (hasPath_edge e n s x IH Hl); rewrite Hc.
  - destruct (hasPath_edge e n s x IH1 Hl) as [_ Hcall]; [by rewrite Hc|]. destruct (Hcall Hc) as [_ Hdeps].
    destruct (Hdeps r Hm) as [d Hd]. destruct (hasPath_return _ m u IH2 Hlive) as [sm Hsm].
    { exists r. destruct Hm as (? & ? & _). done. }
    destruct (so_dependencies _ _ _ (i_sound t Hi) _ d Hd) as [Kd Dd]. destruct (so_summaries _ _ _ (i_sound t Hi) _ sm Hsm) as [Ks Ss].
    pose proof (dependency_inj _ _ Kd) as (E1 & E2 & E3 & E4 & E5 & E6). pose proof (summary_inj _ _ Ks) as (F1 & F2 & F3). cbn in *.
    assert (connected d sm) as Hcon by (split; congruence).
    destruct (i_joined t Hi Hb _ d _ sm Hd Hsm Hcon) as [p Hp]. unfold hasPath. exists p. rewrite <- Hp. f_equal.
    unfold pathKey, returnPath. cbn. rewrite <- E3, <- E5, <- E6, <- F3. do 5 f_equal.
    apply derived_keeps in H2. cbn in H2. apply (keeps_after program tracked _ m) in H2. unfold keeps in H2. rewrite H2.
    by destruct (stateAfter m u).
Qed.

Lemma final_joined o : final program tracked o -> joinOutcome (t_outcome t) o = t_outcome t.
Proof.
  intros (e & n & s & Hd & Hr & Ht & ->). destruct (stored_path e n s (derived_hasPath e n s Hd)) as (p & Hfin & <- & <- & <-).
  specialize (Hfin Hr). by rewrite Ht in Hfin.
Qed.
End Complete.
End Run.
