(* ===== verification/Executions.v ===== *)
(** * Executions of a protocol program

    The executions of a program of the oracle with an explicit call stack, and that the rules
    of [InterpreterFacts], which tabulate procedures by their entry facts, derive exactly the
    nodes and states that an execution reaches. *)

From S2P Require Export InterpreterRun.
Local Open Scope Z_scope.

(** A call that is not completed: its site and the procedure it enters. *)
Record frame := mkFrame { frameSite : Z; frameProcedure : Z }.

Record config := mkConfig { stack : list frame; at_node : NodeRef; before : referenceState }.

Section Executions.
Context (program : Program) (tracked : Z).
Abbreviation derived := (derived program tracked).
Abbreviation stateAfter := (stateAfter program tracked).
Abbreviation leaves := (leaves program).

Inductive step : config -> config -> Prop :=
  | step_intra frames n s x : leaves n x -> EKind x <> EdgeCall -> EKind x <> EdgeReturn ->
      step (mkConfig frames n s) (mkConfig frames (ETo x) (stateAfter n s))
  | step_call frames n s x : leaves n x -> EKind x = EdgeCall ->
      step (mkConfig frames n s) (mkConfig (mkFrame (ECallSite x) (RProcedure (ETo x)) :: frames) (ETo x) (stateAfter n s))
  | step_return f frames n s r : isLive program n -> matches program (frameSite f) (frameProcedure f) r -> EFrom r = n ->
      step (mkConfig (f :: frames) n s) (mkConfig frames (ETo r) (stateAfter n s)).

Definition start : config := mkConfig [] (Entry program) (initial program).

Definition reachable (c : config) : Prop := rtc step start c.

(** The execution that reaches [c] ends there, with the outcome. *)
Definition ends (outcome : string) : Prop := exists c,
  reachable c /\ isRefuted program (at_node c) = false /\ isTerminal program (at_node c) = true /\
  outcome = referenceTerminalOutcome (stateAfter (at_node c) (before c)) tracked.

(** ** What is derived is reached, from every stack at the entry of the procedure. *)
Lemma derived_steps e n s : derived e n s -> forall frames,
  rtc step (mkConfig frames (factNode e) (factState e)) (mkConfig frames n s).
Proof.
  induction 1 as [|e n s x _ IH Hl Hc Hr|e n s x _ IH Hl Hc|e n s x m u r _ IH1 Hl Hc _ IH2 Hlive Hm Hf]; intros frames.
  - apply rtc_refl.
  - eapply rtc_r; [apply IH|]. by apply step_intra.
  - apply rtc_refl.
  - eapply rtc_r; [|by eapply (step_return (mkFrame (ECallSite x) (RProcedure (ETo x))))].
    etransitivity; [apply IH1|]. eapply rtc_l; [by apply step_call|]. apply IH2.
Qed.

Lemma derived_entry e n s : derived e n s -> exists frames, reachable (mkConfig frames (factNode e) (factState e)).
Proof.
  induction 1 as [|e n s x _ IH Hl Hc Hr|e n s x Hd IH Hl Hc|e n s x m u r _ IH1 Hl Hc _ IH2 Hlive Hm Hf]; [|done| |done].
  - exists []. apply rtc_refl.
  - destruct IH as [frames Hf]. eexists. eapply rtc_r; [etransitivity; [exact Hf|by apply derived_steps]|]. by apply step_call.
Qed.

(** ** What is reached is derived for the call that its stack ends with. *)
Inductive chain : referenceEntryFact -> list frame -> Prop :=
  | chain_root : chain (root program) []
  | chain_call e n s x frames : derived e n s -> leaves n x -> EKind x = EdgeCall -> chain e frames ->
      chain (mkFact (ETo x) (stateAfter n s)) (mkFrame (ECallSite x) (RProcedure (ETo x)) :: frames).

Definition explained (c : config) : Prop := exists e, chain e (stack c) /\ derived e (at_node c) (before c).

Lemma step_explained c c' : step c c' -> explained c -> explained c'.
Proof.
  intros [frames n s x Hl Hc Hr|frames n s x Hl Hc|f frames n s r Hlive Hm Hf] (e & Hchain & Hd); cbn in *.
  - exists e. split; [done|]. by apply d_step.
  - exists (mkFact (ETo x) (stateAfter n s)). split; [by eapply chain_call|by eapply d_call].
  - inversion Hchain as [|e' n' s' x frames' Hd' Hl' Hc' Hchain' He Hframe]; subst. exists e'. split; [done|].
    by eapply d_summary.
Qed.

Lemma reachable_explained c : reachable c -> explained c.
Proof.
  intros Hr. refine (rtc_ind_r (R := step) explained start _ _ c Hr).
  - exists (root program). split; [apply chain_root|apply d_root].
  - intros c1 c2 _ Hs He. by eapply step_explained.
Qed.

Lemma ends_final o : ends o <-> final program tracked o.
Proof.
  split.
  - intros (c & (e & _ & Hd)%reachable_explained & Hr & Ht & ->). by exists e, (at_node c), (before c).
  - intros (e & n & s & Hd & Hr & Ht & ->). destruct (derived_entry e n s Hd) as [frames Hf]. exists (mkConfig frames n s).
    split; [|done]. unfold reachable in *. etransitivity; [exact Hf|]. by apply derived_steps.
Qed.
End Executions.
