(* ===== verification/InterpreterTheorems.v ===== *)
(** * Properties of the protocol oracle

    [interpretIdentity] always answers, and its answer is the verdict of the executions with
    a call stack unless it reports that the budget was used up.  The witness it gives for a
    completed call need not be a path. *)

From S2P Require Export Executions.
Local Open Scope Z_scope.

(** The guard of [interpretIdentity]. *)
Definition rejected (program : Program) (maxStates : Z) : bool :=
  match Validate program with inl _ => true | inr _ => false end || (maxStates <=? 0) ||
  (maxReferenceIdentities <? length (Identities program))%nat.

(** The worst outcome of an execution. *)
Definition verdict (program : Program) (tracked : Z) (outcome : string) : Prop :=
  (outcome = OutcomeViolation /\ ends program tracked OutcomeViolation) \/
  (outcome = OutcomeInconclusive /\ ends program tracked OutcomeInconclusive /\ ~ ends program tracked OutcomeViolation) \/
  (outcome = OutcomeNone /\ forall o, ends program tracked o -> o = OutcomeNone).

Definition stateBudget : string := "state-budget".

Lemma terminal_cases state tracked : let o := referenceTerminalOutcome state tracked in
  o = OutcomeViolation \/ o = OutcomeInconclusive \/ o = OutcomeNone.
Proof. unfold referenceTerminalOutcome. repeat case_match; auto. Qed.

Lemma ends_cases program tracked o : ends program tracked o -> o = OutcomeViolation \/ o = OutcomeInconclusive \/ o = OutcomeNone.
Proof. intros (c & _ & _ & _ & ->). apply terminal_cases. Qed.

Lemma budget_reported u : stateBudget ∈ referenceUncertaintyNames (Z.lor u (Z.shiftl 1 4)).
Proof.
  unfold referenceUncertaintyNames. apply list_elem_of_fmap. exists (4, stateBudget). split; [done|].
  apply list_elem_of_filter. split; [|unfold uncertaintyNames; set_solver].
  apply Is_true_true. cbn [fst]. apply negb_true_iff, Z.eqb_neq. intros H. apply (f_equal (fun z => Z.testbit z 4)) in H.
  rewrite Z.land_spec, Z.lor_spec in H. cbn in H. by rewrite orb_true_r in H.
Qed.

(** An outcome that absorbs the outcome of every execution and that is reached is the verdict. *)
Lemma joined_verdict program tracked o : outcomeOk program tracked o ->
  (forall o', ends program tracked o' -> joinOutcome o o' = o) -> verdict program tracked o.
Proof.
  intros Hok Hall. assert (forall o', ends program tracked o' -> isViolation o' = true -> isViolation o = true) as Hv.
  { intros o' He Ho. rewrite <- (Hall o' He), join_violation, Ho. apply orb_true_r. }
  assert (o = OutcomeNone \/ ends program tracked o) as [->|He] by (destruct Hok as [->|H]; [by left|right; by apply ends_final]).
  - right. right. split; [done|]. intros o' He. destruct (ends_cases _ _ o' He) as [->|[->| ->]]; [|by specialize (Hall _ He)|done].
    by specialize (Hall _ He).
  - destruct (ends_cases _ _ o He) as [->|[->| ->]]; [by left| |].
    + right. left. split; [done|]. split; [done|]. intros Hviol. by specialize (Hv _ Hviol eq_refl).
    + right. right. split; [done|]. intros o' He'. destruct (ends_cases _ _ o' He') as [->|[->| ->]]; [by specialize (Hall _ He')..|done].
Qed.

Lemma tables_verdict program tracked t : inv program tracked t -> budgetExceeded t = false -> queue t = [] ->
  hasPath (root program) (Entry program) (initial program) t -> verdict program tracked (t_outcome t).
Proof.
  intros Hi Hb Hq Hroot. apply joined_verdict; [apply Hi|]. intros o He. apply ends_final in He.
  exact (final_joined program tracked t Hi Hb Hq Hroot o He).
Qed.

(** The run of the queue from the start. *)
Lemma run_spec program tracked maxStates : 0 < maxStates -> exists t,
  runQueue program tracked maxStates (Z.to_nat maxStates) (startTables program maxStates) = Some t /\ outcomeOk program tracked (t_outcome t) /\
  (budgetExceeded t = false -> verdict program tracked (t_outcome t)).
Proof.
  intros Hpos. destruct (inv_start program tracked maxStates Hpos) as (H1 & H2 & H3).
  destruct (runQueue_spec program tracked maxStates _ _ H1 H3) as (t & Hrun & Hi & Hend & Hsub & Hb). exists t. split; [done|].
  split; [apply Hi|]. intros Hb'. destruct Hend as [He|He]; [congruence|]. eapply tables_verdict; [done..|].
  unfold hasPath in *. destruct H2 as [p Hp]; [|exists p; by eapply lookup_weaken].
  destruct (budgetExceeded (startTables program maxStates)); [by rewrite Hb in Hb'|done].
Qed.

Lemma join_budget a : joinOutcome a OutcomeInconclusive = if isViolation a then OutcomeViolation else OutcomeInconclusive.
Proof. rewrite join_eq. change (isViolation OutcomeInconclusive) with false. change (isInconclusive OutcomeInconclusive) with true.
  rewrite orb_false_r, orb_true_r. by destruct (isViolation a). Qed.

(** The contract of an answer. *)
Definition answers (program : Program) (tracked maxStates : Z) (result : IdentityResult) : Prop :=
  if rejected program maxStates then IOutcome result = OutcomeInconclusive /\ IUncertainty result = ["invalid-program"]
  else verdict program tracked (IOutcome result) \/
    (stateBudget ∈ IUncertainty result /\ IOutcome result <> OutcomeNone /\
     (IOutcome result = OutcomeViolation -> ends program tracked OutcomeViolation)).

Lemma interpretation_total program tracked maxStates : is_Some (interpretIdentity program tracked maxStates).
Proof.
  unfold interpretIdentity. fold (rejected program maxStates). destruct (rejected program maxStates) eqn:Er; [by eexists|].
  destruct (run_spec program tracked maxStates) as (t & -> & _); [|by eexists].
  unfold rejected in Er. rewrite !orb_false_iff, Z.leb_gt in Er. tauto.
Qed.

Lemma interpretation_answers program tracked maxStates result :
  interpretIdentity program tracked maxStates = Some result -> answers program tracked maxStates result.
Proof.
  unfold interpretIdentity, answers. fold (rejected program maxStates). destruct (rejected program maxStates) eqn:Er; [by intros [= <-]|].
  destruct (run_spec program tracked maxStates) as (t & -> & Hok & Hv).
  { unfold rejected in Er. rewrite !orb_false_iff, Z.leb_gt in Er. tauto. }
  intros [= <-]. cbn [IOutcome IUncertainty]. destruct (budgetExceeded t) eqn:Eb; [|left; by apply Hv].
  right. split; [apply budget_reported|]. rewrite join_budget. destruct (isViolation (t_outcome t)) eqn:Ev; [|by split].
  apply String.eqb_eq in Ev. rewrite Ev in Hok. destruct Hok as [Hok|Hok]; [done|]. split; [done|]. intros _. by apply ends_final.
Qed.

Lemma verdict_unique program tracked o o' : verdict program tracked o -> verdict program tracked o' -> o = o'.
Proof.
  intros [(-> & H1)|[(-> & H1 & H2)|(-> & H1)]] [(-> & H3)|[(-> & H3 & H4)|(-> & H3)]]; try done.
  - by specialize (H3 _ H1).
  - by specialize (H3 _ H1).
  - by specialize (H1 _ H3).
  - by specialize (H1 _ H3).
Qed.

(** C26. [interpretIdentity] returns for every program, identity and budget: the work list
    empties within [maxStates] iterations.  A rejected program is answered inconclusive with
    [invalid-program].  Otherwise either the answer is the verdict of the executions that keep
    a call stack (violation when one ends in a violation, inconclusive when none does and one
    ends inconclusive, none when every execution that ends, ends with none), or the uncertainty
    lists [state-budget]; then the answer is not [none], and violation only when an execution
    ends in a violation.  Tabulating entry facts, dependencies and summaries thus loses no
    execution and adds no unbalanced one. *)
Theorem interpretation_exact program tracked maxStates : exists result, interpretIdentity program tracked maxStates = Some result /\
  answers program tracked maxStates result.
Proof. destruct (interpretation_total program tracked maxStates) as [r Hr]. exists r. split; [done|]. by apply interpretation_answers. Qed.

(** The verdict of a program does not depend on the budget: two budgets that are not
    reported as used up give the same outcome. *)
Theorem interpretation_budget_independent program tracked small large r r' :
  interpretIdentity program tracked small = Some r -> interpretIdentity program tracked large = Some r' ->
  stateBudget ∉ IUncertainty r -> stateBudget ∉ IUncertainty r' -> 0 < small -> 0 < large -> IOutcome r = IOutcome r'.
Proof.
  intros Hv%interpretation_answers Hv'%interpretation_answers Hb Hb' Hs Hl. unfold answers in *.
  assert (rejected program large = rejected program small) as He.
  { unfold rejected. by destruct (Z.leb_spec large 0), (Z.leb_spec small 0); try lia. }
  rewrite He in Hv'. destruct (rejected program small); [by destruct Hv as [-> _], Hv' as [-> _]|].
  destruct Hv as [Hv|[H _]], Hv' as [Hv'|[H' _]]; try done. by eapply verdict_unique.
Qed.

(** ** A helper that validates, called before the value is used *)
Definition plainNode (procedure node : Z) (operation condition : string) (terminal : bool) : Node :=
  mkNode (mkRef procedure node) operation 0 condition "" 0 "" "" terminal.

Definition callProgram : Program :=
  mkProgram "call" (mkShape 2 2 1 1 1 TopologyCallReturn false false) (mkRef 0 0)
    [plainNode 0 0 OperationNoop "" false; plainNode 0 1 OperationConsume "" true;
     plainNode 1 0 OperationValidate ConditionalResultNil false; plainNode 1 1 OperationNoop "" false]
    [mkEdge (mkRef 0 0) (mkRef 1 0) EdgeCall 1; mkEdge (mkRef 1 0) (mkRef 1 1) EdgeIntra 0; mkEdge (mkRef 1 1) (mkRef 0 1) EdgeReturn 1]
    [0] [InitialFactNeedsValidation].


Lemma callProgram_admitted : rejected callProgram 20 = false /\ rejected callProgram 100 = false.
Proof. vm_compute. split; reflexivity. Qed.


(** ** Witnesses of completed calls *)


