(* ===== verification/Generate.v ===== *)
(** * The bounded corpus of the protocol oracle

    [internal/protocoloracle/generate.go] and [fuzz.go]: the configurations that a bounds
    manifest enumerates, the program of a configuration, the corpora, their shards and the
    features that a corpus covers.  SHA-256, [json.Marshal], [os.ReadFile] and
    [jsonv2.Unmarshal] are parameters.  A runtime panic is the error [panicked], which no
    function of the package returns; byte slices are strings. *)

From S2P Require Export Oracle.
Local Open Scope Z_scope.

Definition manifestFormatVersion : Z := 3.
Definition manifestGenerator : string := "normalized-protocol-v3".
Definition manifestEnumeration : string := "one-factor-plus-integrated-scheduled-v1".

Record ManifestDimensions := mkDimensions {
  ProcedureCounts : list Z;
  NodesPerProcedure : list Z;
  IdentityCounts : list Z;
  CallSiteCounts : list Z;
  CallDepths : list Z;
  Topologies : list string;
  BranchJoins : list bool;
  Recursion : list bool;
  Operations : list string;
  ConditionalResults : list string;
  AliasActions : list string;
  UnknownEffects : list string;
  Constraints : list string;
  DInitialFacts : list string;
}.

Record CorpusProfile := mkProfile {
  Shards : Z;
  MinimumPrograms : Z;
  MaxStates : Z;
  PairwiseSemantics : bool;
  PExpectedProgramCount : Z;
}.

Record BoundsManifest := mkManifest {
  FormatVersion : Z;
  Generator : string;
  Enumeration : string;
  Dimensions : ManifestDimensions;
  Scenarios : list string;
  Blocking : CorpusProfile;
  Scheduled : CorpusProfile;
  RequiredFeatures : list string;
  ExpectedProgramCount : Z;
}.

Record generatedConfiguration := mkConfiguration {
  caseID : string;
  shape : Shape;
  operation : string;
  condition : string;
  aliasAction : string;
  unknownEffect : string;
  constraint : string;
  initialFact : string;
  validateFirst : bool;
  operationInCallee : bool;
  protectedIdentity : Z;
}.

Definition withCase (id : string) (c : generatedConfiguration) : generatedConfiguration :=
  mkConfiguration id (shape c) (operation c) (condition c) (aliasAction c) (unknownEffect c) (constraint c) (initialFact c)
    (validateFirst c) (operationInCallee c) (protectedIdentity c).
Definition withShape (f : Shape -> Shape) (c : generatedConfiguration) : generatedConfiguration :=
  mkConfiguration (caseID c) (f (shape c)) (operation c) (condition c) (aliasAction c) (unknownEffect c) (constraint c) (initialFact c)
    (validateFirst c) (operationInCallee c) (protectedIdentity c).
Definition withOperation (operation : string) (c : generatedConfiguration) : generatedConfiguration :=
  mkConfiguration (caseID c) (shape c) operation (condition c) (aliasAction c) (unknownEffect c) (constraint c) (initialFact c)
    (validateFirst c) (operationInCallee c) (protectedIdentity c).
Definition withCondition (condition : string) (c : generatedConfiguration) : generatedConfiguration :=
  mkConfiguration (caseID c) (shape c) (operation c) condition (aliasAction c) (unknownEffect c) (constraint c) (initialFact c)
    (validateFirst c) (operationInCallee c) (protectedIdentity c).
Definition withAliasAction (action : string) (c : generatedConfiguration) : generatedConfiguration :=
  mkConfiguration (caseID c) (shape c) (operation c) (condition c) action (unknownEffect c) (constraint c) (initialFact c)
    (validateFirst c) (operationInCallee c) (protectedIdentity c).
Definition withUnknownEffect (effect : string) (c : generatedConfiguration) : generatedConfiguration :=
  mkConfiguration (caseID c) (shape c) (operation c) (condition c) (aliasAction c) effect (constraint c) (initialFact c)
    (validateFirst c) (operationInCallee c) (protectedIdentity c).
Definition withConstraint (kind : string) (c : generatedConfiguration) : generatedConfiguration :=
  mkConfiguration (caseID c) (shape c) (operation c) (condition c) (aliasAction c) (unknownEffect c) kind (initialFact c)
    (validateFirst c) (operationInCallee c) (protectedIdentity c).
Definition withInitialFact (fact : string) (c : generatedConfiguration) : generatedConfiguration :=
  mkConfiguration (caseID c) (shape c) (operation c) (condition c) (aliasAction c) (unknownEffect c) (constraint c) fact
    (validateFirst c) (operationInCallee c) (protectedIdentity c).
Definition withValidateFirst (c : generatedConfiguration) : generatedConfiguration :=
  mkConfiguration (caseID c) (shape c) (operation c) (condition c) (aliasAction c) (unknownEffect c) (constraint c) (initialFact c)
    true (operationInCallee c) (protectedIdentity c).
Definition withOperationInCallee (c : generatedConfiguration) : generatedConfiguration :=
  mkConfiguration (caseID c) (shape c) (operation c) (condition c) (aliasAction c) (unknownEffect c) (constraint c) (initialFact c)
    (validateFirst c) true (protectedIdentity c).

Definition setProcedures (n : Z) (s : Shape) : Shape :=
  mkShape n (SNodesPerProcedure s) (SIdentities s) (SCallSites s) (SCallDepth s) (STopology s) (SBranchJoin s) (SRecursive s).
Definition setNodesPerProcedure (n : Z) (s : Shape) : Shape :=
  mkShape (SProcedures s) n (SIdentities s) (SCallSites s) (SCallDepth s) (STopology s) (SBranchJoin s) (SRecursive s).
Definition setIdentities (n : Z) (s : Shape) : Shape :=
  mkShape (SProcedures s) (SNodesPerProcedure s) n (SCallSites s) (SCallDepth s) (STopology s) (SBranchJoin s) (SRecursive s).
Definition setCallSites (n : Z) (s : Shape) : Shape :=
  mkShape (SProcedures s) (SNodesPerProcedure s) (SIdentities s) n (SCallDepth s) (STopology s) (SBranchJoin s) (SRecursive s).
Definition setCallDepth (n : Z) (s : Shape) : Shape :=
  mkShape (SProcedures s) (SNodesPerProcedure s) (SIdentities s) (SCallSites s) n (STopology s) (SBranchJoin s) (SRecursive s).
Definition setTopology (topology : string) (s : Shape) : Shape :=
  mkShape (SProcedures s) (SNodesPerProcedure s) (SIdentities s) (SCallSites s) (SCallDepth s) topology (SBranchJoin s) (SRecursive s).
Definition setBranchJoin (b : bool) (s : Shape) : Shape :=
  mkShape (SProcedures s) (SNodesPerProcedure s) (SIdentities s) (SCallSites s) (SCallDepth s) (STopology s) b (SRecursive s).
Definition setRecursive (b : bool) (s : Shape) : Shape :=
  mkShape (SProcedures s) (SNodesPerProcedure s) (SIdentities s) (SCallSites s) (SCallDepth s) (STopology s) (SBranchJoin s) b.

(** [max] on the procedures, the call sites and the call depth. *)
Definition atLeast (procedures sites depth : Z) (s : Shape) : Shape :=
  setCallDepth (Z.max (SCallDepth s) depth) (setCallSites (Z.max (SCallSites s) sites) (setProcedures (Z.max (SProcedures s) procedures) s)).
Definition twoIdentities (s : Shape) : Shape := setIdentities (Z.max (SIdentities s) 2) s.

(** ** Normalization *)
Definition chainCalls (s : Shape) : Shape :=
  if (1 <? SProcedures s) && (SCallSites s =? 0)
  then setCallDepth (Z.max (SCallDepth s) (SProcedures s - 1)) (setCallSites (SProcedures s - 1) s) else s.

Definition admitCallees (s : Shape) : Shape :=
  if 0 <? SCallSites s then setCallDepth (Z.max (SCallDepth s) 1) (setProcedures (Z.max (SProcedures s) 2) s) else s.

Definition admitDepth (s : Shape) : Shape :=
  if 0 <? SCallDepth s
  then setCallSites (Z.max (SCallSites s) (SCallDepth s)) (setProcedures (Z.max (SProcedures s) (SCallDepth s + 1)) s) else s.

Definition admitTopology (s : Shape) : Shape :=
  if String.eqb (STopology s) TopologyBranchJoin then setBranchJoin true s
  else if String.eqb (STopology s) TopologyCallReturn then atLeast 2 1 1 s
  else if String.eqb (STopology s) TopologyRecursive then setRecursive true (atLeast 2 2 2 s)
  else s.

Definition nameTopology (s : Shape) : Shape :=
  let s := if SBranchJoin s && String.eqb (STopology s) TopologyLinear then setTopology TopologyBranchJoin s else s in
  if SRecursive s && negb (String.eqb (STopology s) TopologyRecursive) then atLeast 2 2 2 (setTopology TopologyRecursive s) else s.

Definition normalizeShape (s : Shape) : Shape := nameTopology (admitTopology (admitDepth (admitCallees (chainCalls s)))).

Definition normalizeConfiguration (c : generatedConfiguration) : generatedConfiguration :=
  let c := withShape normalizeShape c in
  let c := if String.eqb (operation c) OperationValidate && String.eqb (condition c) ConditionalResultNone
           then withCondition ConditionalResultNil c else c in
  let c := if negb (String.eqb (condition c) ConditionalResultNone) then withOperation OperationValidate c else c in
  if negb (String.eqb (aliasAction c) AliasActionNone) then withShape twoIdentities c else c.

(** ** Manifests *)
Definition validateDimensions (d : ManifestDimensions) : checked unit :=
  forEach (fun _ values _ =>
    reject_if (bool_decide (values = [])) "every integer dimension must be enumerable" [] ;;
    forEach (fun _ value _ => reject_if (value <=? 0) "integer dimensions must be positive" []) 0 values tt) 0
    [ProcedureCounts d; NodesPerProcedure d; IdentityCounts d] tt ;;
  forEach (fun _ value _ =>
    reject_if (value <? 4) "nodes-per-procedure bounds must admit entry, operation, return, and terminal nodes" []) 0 (NodesPerProcedure d) tt ;;
  forEach (fun _ values _ =>
    reject_if (bool_decide (values = [])) "call-site and call-depth dimensions must be enumerable" [] ;;
    forEach (fun _ value _ => reject_if (value <? 0) "call-site and call-depth dimensions must be non-negative" []) 0 values tt) 0
    [CallSiteCounts d; CallDepths d] tt ;;
  forEach (fun _ values _ => reject_if (bool_decide (values = [])) "every string dimension must be enumerable" []) 0
    [Topologies d; Operations d; ConditionalResults d; AliasActions d; UnknownEffects d; Constraints d; DInitialFacts d] tt ;;
  reject_if (bool_decide (BranchJoins d = []) || bool_decide (Recursion d = [])) "branch and recursion dimensions must be enumerable" [].

Definition validateProfile (name : string) (p : CorpusProfile) : checked unit :=
  reject_if ((Shards p <=? 0) || (MinimumPrograms p <=? 0) || (MaxStates p <=? 0) || (PExpectedProgramCount p <=? 0))
    "%s corpus profile contains a non-positive bound" [name].

Definition validateManifest (m : BoundsManifest) : checked unit :=
  reject_if (negb (FormatVersion m =? manifestFormatVersion) || negb (String.eqb (Generator m) manifestGenerator) ||
    negb (String.eqb (Enumeration m) manifestEnumeration))
    "unsupported protocol oracle manifest format, generator, or enumeration" [] ;;
  validateDimensions (Dimensions m) ;;
  reject_if (bool_decide (Scenarios m = []) || bool_decide (RequiredFeatures m = []) || (ExpectedProgramCount m <=? 0))
    "manifest requires scenarios, required features, and expected cardinality" [] ;;
  validateProfile "blocking" (Blocking m) ;;
  validateProfile "scheduled" (Scheduled m) ;;
  reject_if ((Shards (Scheduled m) <? Shards (Blocking m)) || (MaxStates (Scheduled m) <? MaxStates (Blocking m)))
    "scheduled profile must be at least as strong as the blocking profile" [].

Definition Profile (m : BoundsManifest) (name : string) : checked CorpusProfile :=
  if String.eqb name "blocking" then inr (Blocking m)
  else if String.eqb name "scheduled" then inr (Scheduled m)
  else inl (Errorf "unknown protocol oracle profile %q" [name]).

(** ** Configurations *)

(** The first value of a dimension; [validateDimensions] rejects an empty one. *)
Definition first {A} (values : list A) : checked A :=
  match values with [] => inl (Errorf "panicked" []) | value :: _ => inr value end.

Definition baseConfiguration (d : ManifestDimensions) : checked generatedConfiguration :=
  validateDimensions d ;;
  procedures ← first (ProcedureCounts d); nodes ← first (NodesPerProcedure d); identities ← first (IdentityCounts d);
  sites ← first (CallSiteCounts d); depth ← first (CallDepths d); topology ← first (Topologies d);
  branch ← first (BranchJoins d); recursive ← first (Recursion d); operation ← first (Operations d);
  condition ← first (ConditionalResults d); alias ← first (AliasActions d); unknown ← first (UnknownEffects d);
  constraint ← first (Constraints d); fact ← first (DInitialFacts d);
  mret (normalizeConfiguration (mkConfiguration "baseline" (mkShape procedures nodes identities sites depth topology branch recursive)
    operation condition alias unknown constraint fact false false 0)).

Definition scenarioConfiguration (base : generatedConfiguration) (name : string) : checked generatedConfiguration :=
  let c := withCase ("scenario/" +:+ name) base in
  let validates result := withCondition result (withOperation OperationValidate c) in
  if String.eqb name "validated-nil" then inr (validates ConditionalResultNil)
  else if String.eqb name "validation-non-nil" then inr (validates ConditionalResultNonNil)
  else if String.eqb name "validation-unknown" then inr (validates ConditionalResultUnknown)
  else if String.eqb name "alias-copy" then inr (withShape twoIdentities (withAliasAction AliasActionCopy (validates ConditionalResultNil)))
  else if String.eqb name "alias-kill" then inr (withShape twoIdentities (withAliasAction AliasActionKill (validates ConditionalResultNil)))
  else if String.eqb name "post-validation-mutation" then inr (withOperation OperationMutate (withValidateFirst c))
  else if String.eqb name "post-validation-unknown" then
    inr (withUnknownEffect UnknownEffectUnresolved (withOperation OperationUnresolved (withValidateFirst c)))
  else if String.eqb name "matched-return" then
    inr (withOperationInCallee (withShape (setTopology TopologyCallReturn) (validates ConditionalResultNil)))
  else if String.eqb name "branch-join" then inr (withShape (setTopology TopologyBranchJoin) c)
  else if String.eqb name "recursive-summary" then inr (withShape (setTopology TopologyRecursive) c)
  else if String.eqb name "post-validation-escape" then inr (withOperation OperationEscape (withValidateFirst c))
  else if String.eqb name "refinement-unsat" then inr (withConstraint ConstraintUNSAT c)
  else inl (Errorf "unknown generated scenario %q" [name]).

(** The configurations that change one dimension of [base]. *)
Definition varied {A} (base : generatedConfiguration) (dimension : string) (print : A -> string)
    (change : A -> generatedConfiguration -> generatedConfiguration) (values : list A) : list generatedConfiguration :=
  map (fun value => normalizeConfiguration (withCase ("dimension/" +:+ dimension +:+ "/" +:+ print value) (change value base))) (tail values).

Definition enumerateConfigurations (m : BoundsManifest) : checked (list generatedConfiguration) :=
  let d := Dimensions m in
  base ← baseConfiguration d;
  let configurations := [base] ++
    varied base "procedures" itoa (fun v => withShape (setProcedures v)) (ProcedureCounts d) ++
    varied base "nodes" itoa (fun v => withShape (setNodesPerProcedure v)) (NodesPerProcedure d) ++
    varied base "identities" itoa (fun v => withShape (setIdentities v)) (IdentityCounts d) ++
    varied base "call-sites" itoa (fun v => withShape (setCallSites v)) (CallSiteCounts d) ++
    varied base "call-depth" itoa (fun v => withShape (setCallDepth v)) (CallDepths d) ++
    varied base "topology" id (fun v => withShape (setTopology v)) (Topologies d) ++
    varied base "branch-join" formatBool (fun v => withShape (setBranchJoin v)) (BranchJoins d) ++
    varied base "recursion" formatBool (fun v => withShape (setRecursive v)) (Recursion d) ++
    varied base "operation" id withOperation (Operations d) ++
    varied base "condition" id withCondition (ConditionalResults d) ++
    varied base "alias" id withAliasAction (AliasActions d) ++
    varied base "unknown" id withUnknownEffect (UnknownEffects d) ++
    varied base "constraint" id withConstraint (Constraints d) ++
    varied base "initial-fact" id withInitialFact (DInitialFacts d) in
  forEach (fun _ scenario configurations =>
    c ← scenarioConfiguration base scenario; mret (configurations ++ [normalizeConfiguration c])) 0 (Scenarios m) configurations.

(** ** Programs *)
Definition uint8 (n : Z) : Z := n mod 256.

Definition intraEdge (procedure from to : Z) : Edge :=
  mkEdge (mkRef (uint8 procedure) (uint8 from)) (mkRef (uint8 procedure) (uint8 to)) EdgeIntra 0.

(** The call of a site from node 1 of its caller, and the return to node 2. *)
Definition callPair (caller callee site nodesPerProcedure : Z) : list Edge :=
  [mkEdge (mkRef (uint8 caller) 1) (mkRef (uint8 callee) 0) EdgeCall (uint8 site);
   mkEdge (mkRef (uint8 callee) (uint8 (nodesPerProcedure - 1))) (mkRef (uint8 caller) 2) EdgeReturn (uint8 site)].

Definition generatedEdges (s : Shape) (nodesPerProcedure : Z) : list Edge :=
  let nonRecursiveSites := if SRecursive s then SCallSites s - 1 else SCallSites s in
  let sites := seqZ 1 nonRecursiveSites in
  let callerOf site := Z.min (site - 1) (SProcedures s - 2) in
  let callSources : gset Z := list_to_set (map callerOf sites) in
  (procedure ← seqZ 0 (SProcedures s);
   nodeIndex ← seqZ 0 (nodesPerProcedure - 1);
   if (nodeIndex =? 1) && bool_decide (procedure ∈ callSources) then [] else [intraEdge procedure nodeIndex (nodeIndex + 1)]) ++
  (if SBranchJoin s then [intraEdge 0 0 (nodesPerProcedure - 1)] else []) ++
  (site ← sites; callPair (callerOf site) (Z.min (callerOf site + 1) (SProcedures s - 1)) site nodesPerProcedure) ++
  (if SRecursive s
   then let procedure := Z.min (Z.max nonRecursiveSites 1) (SProcedures s - 1) in
        callPair procedure procedure (SCallSites s) nodesPerProcedure
   else []).

Definition blankNode (procedure node : Z) : Node :=
  mkNode (mkRef (uint8 procedure) (uint8 node)) OperationNoop 0 ConditionalResultNone AliasActionNone 0 UnknownEffectNone ConstraintNone false.

(** [nodes[operationIndex]] and [nodes[0]]. *)
Definition operationNode (c : generatedConfiguration) (n : Node) : Node :=
  let copies := negb (String.eqb (aliasAction c) AliasActionNone) in
  mkNode (Ref n) (operation c) (if copies then 1 else protectedIdentity c) (condition c) (aliasAction c)
    (if copies then 0 else NAliasSource n) (unknownEffect c) (constraint c) (NTerminal n).

Definition validatingNode (n : Node) : Node :=
  mkNode (Ref n) OperationValidate (NIdentity n) ConditionalResultNil (NAliasAction n) (NAliasSource n) (NUnknownEffect n) (NConstraint n)
    (NTerminal n).

Definition terminalNode (n : Node) : Node :=
  mkNode (Ref n) (NOperation n) (NIdentity n) (NCondition n) (NAliasAction n) (NAliasSource n) (NUnknownEffect n) (NConstraint n) true.

(** An assignment to an element of a slice, which panics outside it. *)
Definition assign {A} (index : Z) (f : A -> A) (l : list A) : checked (list A) :=
  reject_if ((index <? 0) || (Z.of_nat (length l) <=? index)) "panicked" [] ;;
  mret (alter f (Z.to_nat index) l).

Definition generatedProgram (c : generatedConfiguration) : checked Program :=
  let c := normalizeConfiguration c in
  let s := shape c in
  let mainNodes := SNodesPerProcedure s in
  reject_if ((mainNodes * SProcedures s <? 0) || (SIdentities s <? 0)) "panicked" [] ;;
  let nodes := procedure ← seqZ 0 (SProcedures s); nodeIndex ← seqZ 0 mainNodes; [blankNode procedure nodeIndex] in
  let operationIndex := if operationInCallee c then mainNodes + 1 else 1 in
  nodes ← assign operationIndex (operationNode c) nodes;
  nodes ← (if validateFirst c then assign 0 validatingNode nodes else inr nodes);
  nodes ← assign (mainNodes - 1) terminalNode nodes;
  let program := mkProgram (caseID c) s (mkRef 0 0) nodes (generatedEdges s mainNodes)
    (map uint8 (seqZ 0 (SIdentities s))) (map (fun _ => initialFact c) (seqZ 0 (SIdentities s))) in
  Validate program ;;
  mret program.

(** ** Features *)
Definition programFeatures (program : Program) : gset string :=
  let metrics := Metrics program in
  let only_if (b : bool) (feature : string) : gset string := if b then {[feature]} else ∅ in
  {["procedures-" +:+ itoa (MProcedures metrics)]} ∪ {["identities-" +:+ itoa (MIdentities metrics)]} ∪
  {["call-sites-" +:+ itoa (MCallSites metrics)]} ∪ {["call-depth-" +:+ itoa (MCallDepth metrics)]} ∪
  list_to_set (map (fun fact => "initial-fact-" +:+ fact) (InitialFacts program)) ∪
  {[if MRecursive metrics then "topology-recursive" else if 0 <? MCallSites metrics then "topology-call-return"
    else if MBranchJoin metrics then "topology-branch-join" else "topology-linear"]} ∪
  only_if (MBranchJoin metrics) "branch-join" ∪ only_if (MRecursive metrics) "recursion" ∪
  ⋃ (map (fun node =>
    only_if (negb (String.eqb (NOperation node) OperationNoop)) ("operation-" +:+ NOperation node) ∪
    only_if (String.eqb (NOperation node) OperationMutate) "mutation" ∪
    only_if (String.eqb (NOperation node) OperationReplace) "replacement" ∪
    only_if (negb (String.eqb (NCondition node) ConditionalResultNone)) ("condition-" +:+ NCondition node) ∪
    only_if (negb (String.eqb (NAliasAction node) AliasActionNone)) ("alias-" +:+ NAliasAction node) ∪
    only_if (negb (String.eqb (NUnknownEffect node) UnknownEffectNone)) ("unknown-" +:+ NUnknownEffect node) ∪
    only_if (negb (String.eqb (NConstraint node) ConstraintNone)) ("constraint-" +:+ NConstraint node)) (Nodes program)) ∪
  only_if (existsb (fun e => String.eqb (EKind e) EdgeCall && existsb (fun candidate =>
      String.eqb (EKind candidate) EdgeReturn && (ECallSite candidate =? ECallSite e) && (RProcedure (EFrom candidate) =? RProcedure (ETo e)))
      (Edges program)) (Edges program)) "matched-return".

Definition FeatureCensus (programs : list Program) : gmap string Z :=
  foldl (fun census program => foldl (fun census feature => increment feature census) census (elements (programFeatures program))) ∅ programs.

Definition Features (program : Program) : list string := slices_Sort (elements (programFeatures program)).

(** ** The corpora *)
Definition hexDigit (n : Z) : string := String.substring (Z.to_nat n) 1 "0123456789abcdef".

(** [hex.EncodeToString], and the verb [%x] on bytes. *)
Definition hexString (bytes : list Z) : string := String.concat "" (map (fun b => hexDigit (b / 16) +:+ hexDigit (b mod 16)) bytes).

(** [binary.BigEndian.Uint64] *)
Definition bigEndian (bytes : list Z) : Z := foldl (fun value b => value * 256 + b) 0 bytes.

Section Corpus.
Context (sum256 : string -> list Z) (marshal : Program -> string).

Definition Fingerprint (program : Program) : string :=
  "poracle3_" +:+ hexString (sum256 (marshal (mkProgram (CaseID program) (PShape program) (Entry program)
    (merge_sort nodeKey_le (Nodes program)) (merge_sort edgeKey_le (Edges program)) (Identities program) (InitialFacts program)))).

Definition fingerprint_le (a b : Program) : Prop := String.le (Fingerprint a) (Fingerprint b).
#[export] Instance fingerprint_le_dec a b : Decision (fingerprint_le a b).
Proof. unfold fingerprint_le. apply _. Defined.

Definition CorpusFingerprint (programs : list Program) : string :=
  "pcorpus3_" +:+ hexString (sum256 (strings_Join (slices_Sort (map Fingerprint programs)) (bytes [10%nat]))).

Definition programShard (program : Program) (shards : Z) : Z := bigEndian (take 8 (sum256 (Fingerprint program))) mod shards.

Definition generateAll (m : BoundsManifest) : checked (list Program) :=
  configurations ← enumerateConfigurations m;
  result ← forEach (fun _ c '(seen, programs) =>
      program ← generatedProgram c;
      reject_if (bool_decide (Fingerprint program ∈ (seen : gset string))) "duplicate generated program %s" [Fingerprint program] ;;
      mret ({[Fingerprint program]} ∪ seen, programs ++ [program])) 0 configurations (∅, []);
  mret (merge_sort fingerprint_le (snd result)).

(** The values of the nested loops of the integrated corpus. *)
Definition semantics (d : ManifestDimensions) : list (string * string * string * string * string * string) :=
  operation ← Operations d; condition ← ConditionalResults d; alias ← AliasActions d; unknown ← UnknownEffects d;
  constraint ← Constraints d; fact ← DInitialFacts d; [(operation, condition, alias, unknown, constraint, fact)].

Definition integratedConfiguration (base : generatedConfiguration) (v : string * string * string * string * string * string)
    : generatedConfiguration :=
  let '(operation, condition, alias, unknown, constraint, fact) := v in
  let c := mkConfiguration (strings_Join ["scheduled/integrated"; operation; condition; alias; unknown; constraint; fact] "/") (shape base)
    operation condition alias unknown constraint fact (validateFirst base) (operationInCallee base) (protectedIdentity base) in
  if negb (String.eqb (aliasAction c) AliasActionNone) then withShape twoIdentities c else c.

Definition integratedBase (base : generatedConfiguration) : generatedConfiguration :=
  normalizeConfiguration (withShape (fun s => twoIdentities (atLeast 2 1 1 (setTopology TopologyCallReturn s))) base).

Definition generateProfilePrograms (m : BoundsManifest) (profileName : string) : checked (list Program) :=
  profile ← Profile m profileName;
  programs ← generateAll m;
  if negb (PairwiseSemantics profile) then mret programs
  else
    base ← baseConfiguration (Dimensions m);
    result ← forEach (fun _ v '(seen, programs) =>
        program ← generatedProgram (integratedConfiguration (integratedBase base) v);
        mret (if bool_decide (Fingerprint program ∈ (seen : gset string)) then (seen, programs)
              else ({[Fingerprint program]} ∪ seen, programs ++ [program]))) 0 (semantics (Dimensions m))
      (list_to_set (map Fingerprint programs), programs);
    mret (merge_sort fingerprint_le (snd result)).

Definition Cardinality (m : BoundsManifest) : checked Z := programs ← generateAll m; mret (Z.of_nat (length programs)).

Definition ProfileCardinality (m : BoundsManifest) (profileName : string) : checked Z :=
  programs ← generateProfilePrograms m profileName; mret (Z.of_nat (length programs)).

(** The callbacks thread a state of their own. *)
Definition Enumerate {S} (m : BoundsManifest) (yield : Program -> S -> checked S) (s : S) : checked S :=
  programs ← generateAll m; forEach (fun _ => yield) 0 programs s.

Definition EnumerateProfile {S} (m : BoundsManifest) (profileName : string) (yield : Program -> S -> checked S) (s : S) : checked S :=
  programs ← generateProfilePrograms m profileName; forEach (fun _ => yield) 0 programs s.

Definition EnumerateShard {S} (m : BoundsManifest) (profileName : string) (shardIndex : Z) (yield : Program -> S -> checked S) (s : S)
    : checked S :=
  profile ← Profile m profileName;
  reject_if ((shardIndex <? 0) || (Shards profile <=? shardIndex)) "shard index %d is outside [0,%d)" [itoa shardIndex; itoa (Shards profile)] ;;
  programs ← generateProfilePrograms m profileName;
  forEach (fun _ program s => if negb (programShard program (Shards profile) =? shardIndex) then mret s else yield program s) 0 programs s.

Definition ProfileShardCardinality (m : BoundsManifest) (profileName : string) (shardIndex : Z) : checked Z :=
  EnumerateShard m profileName shardIndex (fun _ count => mret (count + 1)) 0.

Definition LoadBoundsManifest (ReadFile : string -> checked string) (Unmarshal : string -> checked BoundsManifest) (path : string)
    : checked BoundsManifest :=
  data ← wrapped "read protocol oracle bounds %s: %w" [path] (ReadFile path);
  manifest ← wrapped "decode protocol oracle bounds %s: %w" [path] (Unmarshal data);
  validateManifest manifest ;;
  cardinality ← Cardinality manifest;
  reject_if (negb (ExpectedProgramCount manifest =? cardinality)) "expected_program_count=%d, admitted grammar contains %d programs"
    [itoa (ExpectedProgramCount manifest); itoa cardinality] ;;
  reject_if ((cardinality <? MinimumPrograms (Blocking manifest)) || negb (cardinality =? PExpectedProgramCount (Blocking manifest)))
    "blocking corpus contains %d programs outside its reviewed bounds" [itoa cardinality] ;;
  scheduled ← ProfileCardinality manifest "scheduled";
  reject_if ((scheduled <? MinimumPrograms (Scheduled manifest)) || negb (scheduled =? PExpectedProgramCount (Scheduled manifest)))
    "scheduled corpus contains %d programs outside its reviewed bounds" [itoa scheduled] ;;
  mret manifest.
End Corpus.

(** ** Fuzzing *)

(** [a[i]] on an array of admitted values. *)
Definition valueAt (values : list string) (i : Z) : string := default "" (values !! Z.to_nat (i mod Z.of_nat (length values))).

Definition fuzzByteAt (data : string) (index : Z) : Z :=
  if (String.length data =? 0)%nat then 0
  else match String.get (Z.to_nat (index mod Z.of_nat (String.length data))) data with
       | Some c => Z.of_N (Ascii.N_of_ascii c)
       | None => 0
       end.

Definition fuzzConfiguration (sum256 : string -> list Z) (data : string) : generatedConfiguration :=
  let topology := valueAt [TopologyCallReturn; TopologyRecursive; TopologyBranchJoin] (fuzzByteAt data 6) in
  let shape := mkShape 2 4 2 1 1 topology (String.eqb topology TopologyBranchJoin) (String.eqb topology TopologyRecursive) in
  let shape := if String.eqb topology TopologyRecursive then setCallDepth 2 (setCallSites 2 shape) else shape in
  mkConfiguration ("fuzz/" +:+ hexString (take 8 (sum256 data))) shape
    (valueAt [OperationNoop; OperationValidate; OperationConsume; OperationMutate; OperationReplace; OperationEscape; OperationUnresolved]
      (fuzzByteAt data 1))
    (valueAt [ConditionalResultNone; ConditionalResultNil; ConditionalResultNonNil; ConditionalResultUnknown] (fuzzByteAt data 2))
    (valueAt [AliasActionNone; AliasActionCopy; AliasActionKill] (fuzzByteAt data 3))
    (valueAt [UnknownEffectNone; UnknownEffectUnresolved; UnknownEffectConcurrentMutation; UnknownEffectEscapedHeap] (fuzzByteAt data 4))
    (valueAt [ConstraintNone; ConstraintSAT; ConstraintUNSAT] (fuzzByteAt data 5))
    (valueAt [InitialFactNeedsValidation; InitialFactValidated] (fuzzByteAt data 0))
    (negb (Z.land (fuzzByteAt data 7) 1 =? 0)) false (fuzzByteAt data 8 mod 2).

Definition DecodeFuzzProgram (sum256 : string -> list Z) (data : string) : checked Program :=
  program ← generatedProgram (fuzzConfiguration sum256 data);
  Validate program ;;
  mret program.
