(* ===== verification/GenerateFacts.v ===== *)
(** * Properties of the bounded corpus

    Configurations reach a normal form, a program is admitted when its skeleton is, fuzzing
    admits every input, the shards partition a corpus, and the reviewed manifest. *)

From S2P Require Export Generate.
Local Open Scope Z_scope.

(** ** Normalization *)
#[local] Arguments Z.max : simpl never.
#[local] Arguments Z.add : simpl never.
#[local] Arguments Z.sub : simpl never.

(** The numbers of a shape are not negative and it has a procedure. *)
Definition admissible (s : Shape) : Prop := 1 <= SProcedures s /\ 0 <= SCallSites s /\ 0 <= SCallDepth s.

(** The stages on the numbers, and those on the topology. *)
Definition counts (s : Shape) : Shape := admitDepth (admitCallees (chainCalls s)).
Definition topologized (s : Shape) : Shape := nameTopology (admitTopology s).

Definition consistent (s : Shape) : Prop :=
  (1 < SProcedures s -> 1 <= SCallSites s) /\ (1 <= SCallSites s -> 2 <= SProcedures s /\ 1 <= SCallDepth s) /\
  (1 <= SCallDepth s -> SCallDepth s + 1 <= SProcedures s /\ SCallDepth s <= SCallSites s).

Ltac shape_fields := cbn [SProcedures SNodesPerProcedure SIdentities SCallSites SCallDepth STopology SBranchJoin SRecursive] in *.

Ltac known_topology t :=
  first [constr_eq t TopologyLinear|constr_eq t TopologyBranchJoin|constr_eq t TopologyCallReturn|constr_eq t TopologyRecursive].

(** Evaluates the tests of the topology [t], one of the known ones or another. *)
Ltac topology_tests :=
  shape_fields;
  repeat match goal with
  | H : ?a <> ?b |- context[String.eqb ?a ?b] => rewrite (proj2 (String.eqb_neq a b) H)
  | |- context[String.eqb ?a ?b] => known_topology a; let v := eval vm_compute in (String.eqb a b) in change (String.eqb a b) with v
  end; cbn [andb negb orb]; shape_fields.

Ltac topology_cases t :=
  destruct (String.eqb_spec t TopologyBranchJoin) as [->|?]; [|destruct (String.eqb_spec t TopologyCallReturn) as [->|?];
    [|destruct (String.eqb_spec t TopologyRecursive) as [->|?]; [|destruct (String.eqb_spec t TopologyLinear) as [->|?]]]].

Ltac topology_step :=
  unfold topologized, admitTopology; topology_tests; unfold atLeast, setBranchJoin, setRecursive, setProcedures, setCallSites, setCallDepth;
  topology_tests; unfold nameTopology; topology_tests; unfold setTopology; topology_tests;
  unfold atLeast, setProcedures, setCallSites, setCallDepth; topology_tests.

(** What each stage on the numbers ensures, and when it changes nothing. *)
Definition chained (s : Shape) : Prop := admissible s /\ (1 < SProcedures s -> 1 <= SCallSites s).
Definition calleesAdmitted (s : Shape) : Prop := chained s /\ (1 <= SCallSites s -> 2 <= SProcedures s /\ 1 <= SCallDepth s).

Lemma chainCalls_chained s : admissible s -> chained (chainCalls s).
Proof. unfold chained, admissible, chainCalls. case_match; cbn; lia. Qed.
Lemma admitCallees_admitted s : chained s -> calleesAdmitted (admitCallees s).
Proof. unfold calleesAdmitted, chained, admissible, admitCallees. case_match; cbn; lia. Qed.
Lemma admitDepth_consistent s : calleesAdmitted s -> consistent (admitDepth s) /\ admissible (admitDepth s).
Proof. unfold consistent, calleesAdmitted, chained, admissible, admitDepth. case_match; cbn; lia. Qed.

Lemma counts_consistent s : admissible s -> consistent (counts s) /\ admissible (counts s).
Proof. intros H. by apply admitDepth_consistent, admitCallees_admitted, chainCalls_chained. Qed.

Lemma counts_fixed s : consistent s -> counts s = s.
Proof.
  destruct s as [p n i c d t b r]. unfold consistent, counts. cbn [SProcedures SCallSites SCallDepth]. intros H.
  assert (chainCalls (mkShape p n i c d t b r) = mkShape p n i c d t b r) as ->.
  { unfold chainCalls. cbn [SProcedures SCallSites SCallDepth]. case_match; [exfalso; lia|done]. }
  assert (admitCallees (mkShape p n i c d t b r) = mkShape p n i c d t b r) as ->.
  { unfold admitCallees, setCallDepth, setProcedures. cbn in *. case_match; [f_equal; lia|done]. }
  unfold admitDepth, setCallSites, setProcedures. cbn in *. case_match; [f_equal; lia|done].
Qed.

(** [counts] raises the numbers and keeps the rest. *)
Definition numbered (p c d : Z) (s : Shape) : Shape := setCallDepth d (setCallSites c (setProcedures p s)).

Lemma counts_raises s : exists p c d, counts s = numbered p c d s /\ SProcedures s <= p /\ SCallSites s <= c /\ SCallDepth s <= d.
Proof.
  destruct s as [p n i c d t b r]. unfold counts, admitDepth, admitCallees, chainCalls, numbered, setProcedures, setCallSites, setCallDepth.
  cbn. repeat case_match; cbn in *; eexists _, _, _; (split; [reflexivity|]); lia.
Qed.

(** What the stages on the topology do to a shape. *)
Definition topologyOf (t : string) (b r : bool) : string :=
  if r then TopologyRecursive else if b && String.eqb t TopologyLinear then TopologyBranchJoin else t.

Definition leastCalls (t : string) (r : bool) : option Z :=
  if r then Some 2 else if String.eqb t TopologyCallReturn then Some 1 else None.

Lemma topologized_eq p n i c d t b r : topologized (mkShape p n i c d t b r) =
  let b := b || String.eqb t TopologyBranchJoin in
  let r := r || String.eqb t TopologyRecursive in
  match leastCalls t r with
  | Some k => mkShape (Z.max p 2) n i (Z.max c k) (Z.max d k) (topologyOf t b r) b r
  | None => mkShape p n i c d (topologyOf t b r) b r
  end.
Proof.
  unfold leastCalls, topologyOf. topology_cases t; destruct b, r; topology_step; try done; f_equal; lia.
Qed.

Lemma topologyOf_stable t b r : let b := b || String.eqb t TopologyBranchJoin in let r := r || String.eqb t TopologyRecursive in
  let u := topologyOf t b r in
  b || String.eqb u TopologyBranchJoin = b /\ r || String.eqb u TopologyRecursive = r /\ topologyOf u b r = u /\ leastCalls u r = leastCalls t r.
Proof. unfold topologyOf, leastCalls. cbn zeta. topology_cases t; destruct b, r; repeat (progress topology_tests); by auto. Qed.

Lemma topologized_twice s : topologized (topologized s) = topologized s.
Proof.
  destruct s as [p n i c d t b r]. rewrite topologized_eq. destruct (topologyOf_stable t b r) as (H1 & H2 & H3 & H4). cbn zeta in *.
  destruct (leastCalls t _) as [k|] eqn:E; rewrite topologized_eq; cbn zeta; rewrite H1, H2, H3, H4; [f_equal; lia|done].
Qed.

(** Greater numbers leave the topology as it is. *)
Lemma topologized_counts s : topologized s = s -> topologized (counts s) = counts s.
Proof.
  destruct (counts_raises s) as (p' & c' & d' & -> & Hp & Hc & Hd). destruct s as [p n i c d t b r].
  unfold numbered, setProcedures, setCallSites, setCallDepth. shape_fields. rewrite !topologized_eq. cbn zeta.
  destruct (leastCalls t _); intros [=]; f_equal; try done; lia.
Qed.

Lemma topologized_consistent s : SRecursive s = false -> STopology s <> TopologyRecursive -> consistent s -> consistent (topologized s).
Proof.
  destruct s as [p n i c d t b r]. shape_fields. intros -> Ht Hc. rewrite topologized_eq. unfold leastCalls. cbn zeta.
  rewrite (proj2 (String.eqb_neq _ _) Ht). cbn [orb]. destruct (String.eqb t TopologyCallReturn); [|exact Hc].
  unfold consistent in *. shape_fields. lia.
Qed.

Lemma admissible_topologized s : admissible s -> admissible (topologized s).
Proof.
  destruct s as [p n i c d t b r]. rewrite topologized_eq. unfold admissible. cbn zeta. shape_fields. destruct (leastCalls t _); shape_fields; lia.
Qed.

Lemma normalizeShape_eq s : normalizeShape s = topologized (counts s).
Proof. done. Qed.

(** Two passes reach the normal form of a shape; one does where nothing is recursive. *)
Lemma normalizeShape_twice s : admissible s -> normalizeShape (normalizeShape (normalizeShape s)) = normalizeShape (normalizeShape s).
Proof.
  intros H. rewrite !normalizeShape_eq. set (u := topologized (counts s)).
  assert (topologized u = u) as Hu by apply topologized_twice.
  assert (admissible u) as Ha by (by apply admissible_topologized, counts_consistent).
  rewrite (topologized_counts u Hu), (counts_fixed (counts u)); [|by apply counts_consistent]. by apply topologized_counts.
Qed.

Lemma normalizeShape_once s : admissible s -> SRecursive s = false -> STopology s <> TopologyRecursive ->
  normalizeShape (normalizeShape s) = normalizeShape s.
Proof.
  intros H Hr Ht. rewrite !normalizeShape_eq. destruct (counts_raises s) as (p & c & d & E & _).
  rewrite (counts_fixed (topologized (counts s))); [apply topologized_twice|]. apply topologized_consistent; [by rewrite E..|].
  by apply counts_consistent.
Qed.

Lemma normalize_twoIdentities s : normalizeShape (twoIdentities s) = twoIdentities (normalizeShape s).
Proof.
  assert (counts (twoIdentities s) = twoIdentities (counts s)) as E.
  { unfold counts, twoIdentities, setIdentities.
    assert (forall i, chainCalls (setIdentities i s) = setIdentities i (chainCalls s)) as H1 by (intros; unfold chainCalls; cbn; by case_match).
    assert (forall i u, admitCallees (setIdentities i u) = setIdentities i (admitCallees u)) as H2 by (intros; unfold admitCallees; cbn; by case_match).
    assert (forall i u, admitDepth (setIdentities i u) = setIdentities i (admitDepth u)) as H3 by (intros; unfold admitDepth; cbn; by case_match).
    fold (setIdentities (Z.max (SIdentities s) 2) s). rewrite H1, H2, H3. unfold setIdentities. f_equal. f_equal.
    unfold admitDepth, admitCallees, chainCalls. repeat case_match; done. }
  rewrite !normalizeShape_eq, E. destruct (counts s) as [p n i c d t b r]. unfold twoIdentities, setIdentities. shape_fields.
  rewrite !topologized_eq. cbn zeta. by destruct (leastCalls t _).
Qed.

(** The part of normalization that is not on the numbers and the topology. *)
Definition settled (c : generatedConfiguration) : generatedConfiguration :=
  let c := if String.eqb (operation c) OperationValidate && String.eqb (condition c) ConditionalResultNone
           then withCondition ConditionalResultNil c else c in
  let c := if negb (String.eqb (condition c) ConditionalResultNone) then withOperation OperationValidate c else c in
  if negb (String.eqb (aliasAction c) AliasActionNone) then withShape twoIdentities c else c.

Lemma normalizeConfiguration_eq c : normalizeConfiguration c = settled (withShape normalizeShape c).
Proof. done. Qed.

Ltac configuration_fields :=
  cbn [caseID shape operation condition aliasAction unknownEffect constraint initialFact validateFirst operationInCallee protectedIdentity andb orb negb].

Definition identitiesOf (alias : string) (s : Shape) : Shape := if negb (String.eqb alias AliasActionNone) then twoIdentities s else s.

Lemma settled_eq c : settled c =
  let validates := String.eqb (operation c) OperationValidate || negb (String.eqb (condition c) ConditionalResultNone) in
  mkConfiguration (caseID c) (identitiesOf (aliasAction c) (shape c)) (if validates then OperationValidate else operation c)
    (if String.eqb (operation c) OperationValidate && String.eqb (condition c) ConditionalResultNone then ConditionalResultNil else condition c)
    (aliasAction c) (unknownEffect c) (constraint c) (initialFact c) (validateFirst c) (operationInCallee c) (protectedIdentity c).
Proof.
  destruct c as [id s o k a u q f v w z]. unfold settled, identitiesOf, withCondition, withOperation, withShape. configuration_fields.
  destruct (String.eqb o OperationValidate), (String.eqb k ConditionalResultNone) eqn:Ek; configuration_fields;
    change (String.eqb ConditionalResultNil ConditionalResultNone) with false; rewrite ?Ek; configuration_fields;
    by destruct (String.eqb a AliasActionNone).
Qed.

Lemma settled_twice c f : (forall s, f (twoIdentities s) = twoIdentities (f s)) ->
  settled (withShape f (settled c)) = settled (withShape f c).
Proof.
  intros Hf. rewrite !settled_eq. destruct c as [id s o k a u q i v w z]. unfold identitiesOf, withShape.
  configuration_fields.
  assert (forall s, twoIdentities (twoIdentities s) = twoIdentities s) as Ht.
  { intros []. unfold twoIdentities, setIdentities. cbn. f_equal. lia. }
  f_equal.
  - destruct (String.eqb a AliasActionNone); cbn [negb]; [done|]. by rewrite Hf, Ht.
  - destruct (String.eqb_spec o OperationValidate) as [->|Ho], (String.eqb_spec k ConditionalResultNone) as [->|Hk]; cbn [andb orb negb]; try done;
      by rewrite ?(proj2 (String.eqb_neq _ _) Ho).
  - destruct (String.eqb_spec o OperationValidate) as [->|Ho], (String.eqb_spec k ConditionalResultNone) as [->|Hk]; cbn [andb orb negb]; try done;
      rewrite ?(proj2 (String.eqb_neq _ _) Ho), ?(proj2 (String.eqb_neq _ _) Hk); done.
Qed.

Lemma withShape_settled f g c : (forall s, f (twoIdentities s) = twoIdentities (f s)) -> (forall s, g (twoIdentities s) = twoIdentities (g s)) ->
  settled (withShape f (settled (withShape g c))) = settled (withShape (fun s => f (g s)) c).
Proof. intros Hf Hg. rewrite (settled_twice _ f Hf). done. Qed.

(** [normalizeConfiguration] settles: from a shape with a procedure and no negative number
    two passes reach a configuration that a third pass leaves as it is; one pass does when
    neither the flag nor the topology asks for recursion. *)
Theorem normalization_settles c : admissible (shape c) ->
  normalizeConfiguration (normalizeConfiguration (normalizeConfiguration c)) = normalizeConfiguration (normalizeConfiguration c) /\
  (SRecursive (shape c) = false -> STopology (shape c) <> TopologyRecursive -> normalizeConfiguration (normalizeConfiguration c) = normalizeConfiguration c).
Proof.
  intros H.
  assert (normalizeConfiguration (normalizeConfiguration c) = settled (withShape (fun s => normalizeShape (normalizeShape s)) c)) as E2.
  { rewrite !normalizeConfiguration_eq. apply withShape_settled; apply normalize_twoIdentities. }
  split.
  - rewrite E2, normalizeConfiguration_eq, withShape_settled; [|apply normalize_twoIdentities|by intros s; rewrite !normalize_twoIdentities].
    f_equal. unfold withShape. by rewrite (normalizeShape_twice (shape c) H).
  - intros Hr Ht. rewrite E2, normalizeConfiguration_eq. f_equal. unfold withShape. by rewrite (normalizeShape_once (shape c) H Hr Ht).
Qed.

Lemma normalization_settles_witness :
  let c := mkConfiguration "c" (mkShape 1 4 1 0 0 TopologyRecursive false false) OperationNoop ConditionalResultNone AliasActionCopy
    UnknownEffectNone ConstraintNone InitialFactValidated false false 0 in
  SProcedures (shape (normalizeConfiguration c)) = 2 /\ SProcedures (shape (normalizeConfiguration (normalizeConfiguration c))) = 3 /\
  normalizeConfiguration (normalizeConfiguration (normalizeConfiguration c)) = normalizeConfiguration (normalizeConfiguration c).
Proof.
  intros c. split; [reflexivity|]. split; [reflexivity|].
  exact (proj1 (normalization_settles c (conj (Z.le_refl 1) (conj (Z.le_refl 0) (Z.le_refl 0))))).
Defined.

(** ** Admission

    A program is admitted when the program of its nodes without effects is, and the effects
    are known ones of admitted identities. *)
Definition knownEffects (identities : Z) (n : Node) : Prop :=
  NIdentity n < identities /\ NAliasSource n < identities /\ validateNodeEnums n = inr tt.

Definition withNodes (nodes : list Node) (p : Program) : Program :=
  mkProgram (CaseID p) (PShape p) (Entry p) nodes (Edges p) (Identities p) (InitialFacts p).

Lemma nodeSteps_replaced p nodes' : forall nodes i seen seen', map Ref nodes' = map Ref nodes ->
  Forall (knownEffects (Z.of_nat (length (Identities p)))) nodes' ->
  forEach (nodeStep p) i nodes seen = inr seen' -> forEach (nodeStep (withNodes nodes' p)) i nodes' seen = inr seen'.
Proof.
  enough (forall all nodes i seen seen', map Ref nodes' = map Ref nodes ->
    Forall (knownEffects (Z.of_nat (length (Identities p)))) nodes' ->
    forEach (nodeStep p) i nodes seen = inr seen' -> forEach (nodeStep (withNodes all p)) i nodes' seen = inr seen') as H by apply H.
  intros all. induction nodes' as [|n' nodes' IH]; intros [|n nodes] i seen seen' Hr Hk H; try done.
  cbn [forEach] in *. injection Hr as Hn Hr. apply Forall_cons in Hk as [(H1 & H2 & H3) Hk].
  apply checked_bind_inr in H as (s & Hs & H). apply checked_bind_inr. exists s. split; [|by eapply IH].
  unfold nodeStep in *. cbn [PShape Identities withNodes]. rewrite <- Hn in Hs.
  checks Hs. rewrite H3.
  assert ((Z.of_nat (length (Identities p)) <=? NIdentity n') || (Z.of_nat (length (Identities p)) <=? NAliasSource n') = false) as Hids.
  { apply orb_false_iff. split; apply Z.leb_gt; lia. }
  rewrite Hids. repeat match goal with H : ?b = false |- context[reject_if ?b] => rewrite H end. exact Hs.
Qed.

Lemma Metrics_replaced p nodes' : map Ref nodes' = map Ref (Nodes p) -> Metrics (withNodes nodes' p) = Metrics p.
Proof.
  intros Hr. unfold Metrics. cbn [withNodes Nodes Edges Identities InitialFacts].
  assert (forall (l l' : list Node) (m : gmap Z Z), map Ref l' = map Ref l ->
    foldl (fun m node => increment (RProcedure (Ref node)) m) m l' = foldl (fun m node => increment (RProcedure (Ref node)) m) m l) as H.
  { induction l as [|n l IH]; intros [|n' l'] m Hl; try done. injection Hl as Hn Hl. cbn [foldl]. by rewrite Hn, (IH l'). }
  by rewrite (H (Nodes p) nodes').
Qed.

Lemma Validate_replaced p nodes' : Validate p = inr tt -> map Ref nodes' = map Ref (Nodes p) ->
  Forall (knownEffects (Z.of_nat (length (Identities p)))) nodes' -> Validate (withNodes nodes' p) = inr tt.
Proof.
  intros H Hr Hk. unfold Validate in *.
  assert (forEach (nodeStep (withNodes nodes' p)) 0 nodes' (∅, ∅) = forEach (nodeStep p) 0 (Nodes p) (∅, ∅)) as En.
  { pose proof H as H'. checks H'.
    match goal with Hn : forEach (nodeStep p) 0 _ _ = inr _ |- _ => rewrite Hn; by apply (nodeSteps_replaced p nodes') in Hn end. }
  assert (bool_decide (nodes' = []) = bool_decide (Nodes p = [])) as E.
  { clear -Hr. by destruct nodes', (Nodes p). }
  cbn [CaseID PShape Entry Nodes Edges Identities InitialFacts withNodes]. fold (withNodes nodes' p).
  rewrite E, En, (Metrics_replaced p nodes' Hr). exact H.
Qed.

Definition operations : list string :=
  [OperationNoop; OperationValidate; OperationConsume; OperationMutate; OperationReplace; OperationEscape; OperationUnresolved].
Definition conditions : list string :=
  [""; ConditionalResultNone; ConditionalResultNil; ConditionalResultNonNil; ConditionalResultUnknown].
Definition aliasActions : list string := [""; AliasActionNone; AliasActionCopy; AliasActionKill].
Definition unknownEffects : list string :=
  [""; UnknownEffectNone; UnknownEffectUnresolved; UnknownEffectConcurrentMutation; UnknownEffectEscapedHeap].
Definition constraints : list string := [""; ConstraintNone; ConstraintSAT; ConstraintUNSAT].

Lemma oneOf_elem values s : oneOf values s = true <-> s ∈ values.
Proof.
  unfold oneOf. rewrite existsb_exists. split.
  - intros (x & Hx & ->%String.eqb_eq). by apply list_elem_of_In.
  - intros H. exists s. split; [by apply list_elem_of_In|apply String.eqb_refl].
Qed.

Lemma validateNodeEnums_inr n : validateNodeEnums n = inr tt <->
  oneOf operations (NOperation n) = true /\ oneOf conditions (NCondition n) = true /\ oneOf aliasActions (NAliasAction n) = true /\
  oneOf unknownEffects (NUnknownEffect n) = true /\ oneOf constraints (NConstraint n) = true.
Proof.
  unfold validateNodeEnums, operations, conditions, aliasActions, unknownEffects, constraints.
  split.
  - intros H. checks H. apply reject_if_inr in H. by repeat match goal with Hn : negb _ = false |- _ => apply negb_false_iff in Hn end.
  - intros (H1 & H2 & H3 & H4 & H5). by rewrite H1, H2, H3, H4, H5.
Qed.

(** The program of a normalized configuration, without its effects. *)
Definition blankNodes (s : Shape) : list Node :=
  procedure ← seqZ 0 (SProcedures s); nodeIndex ← seqZ 0 (SNodesPerProcedure s); [blankNode procedure nodeIndex].

Definition skeleton (c : generatedConfiguration) : Program :=
  let s := shape c in
  mkProgram (caseID c) s (mkRef 0 0) (blankNodes s) (generatedEdges s (SNodesPerProcedure s))
    (map uint8 (seqZ 0 (SIdentities s))) (map (fun _ => initialFact c) (seqZ 0 (SIdentities s))).

(** The effects of a configuration are known ones. *)
Definition knownConfiguration (c : generatedConfiguration) : Prop :=
  validateNodeEnums (mkNode (mkRef 0 0) (operation c) 0 (condition c) (aliasAction c) 0 (unknownEffect c) (constraint c) false) = inr tt /\
  protectedIdentity c < SIdentities (shape c) /\ (aliasAction c <> AliasActionNone -> 1 < SIdentities (shape c)).

Lemma assign_in_range {A} index (f : A -> A) l : 0 <= index < Z.of_nat (length l) -> assign index f l = inr (alter f (Z.to_nat index) l).
Proof.
  intros H. unfold assign. assert ((index <? 0) || (Z.of_nat (length l) <=? index) = false) as ->; [|done].
  apply orb_false_iff. split; [apply Z.ltb_ge|apply Z.leb_gt]; lia.
Qed.

Lemma alter_Ref f i nodes : (forall n, Ref (f n) = Ref n) -> map Ref (alter f i nodes) = map Ref nodes.
Proof. intros Hf. revert i. induction nodes as [|n nodes IH]; intros [|i]; cbn; rewrite ?Hf; try done. by f_equal. Qed.

Lemma Forall_alter_all {A} (P : A -> Prop) f i l : (forall a, P a -> P (f a)) -> Forall P l -> Forall P (alter f i l).
Proof. intros Hf Hl. revert i. induction Hl as [|a l Ha Hl IH]; intros [|i]; cbn; constructor; auto. Qed.

Lemma blankNodes_known s : 0 < SIdentities s -> Forall (knownEffects (SIdentities s)) (blankNodes s).
Proof.
  intros Hi. apply Forall_forall. intros n Hn. unfold blankNodes in Hn.
  apply list_elem_of_bind in Hn as (p & Hn & _). apply list_elem_of_bind in Hn as (i & ->%list_elem_of_singleton & _). by split.
Qed.

(** The nodes of the program. *)
Definition effectNodes (c : generatedConfiguration) : list Node :=
  let s := shape c in
  let nodes := alter (operationNode c) (Z.to_nat (if operationInCallee c then SNodesPerProcedure s + 1 else 1)) (blankNodes s) in
  let nodes := if validateFirst c then alter validatingNode 0%nat nodes else nodes in
  alter terminalNode (Z.to_nat (SNodesPerProcedure s - 1)) nodes.

Lemma effectNodes_Ref c : map Ref (effectNodes c) = map Ref (blankNodes (shape c)).
Proof. unfold effectNodes. destruct (validateFirst c); by rewrite !alter_Ref. Qed.

Lemma effectNodes_known c : knownConfiguration c -> 0 < SIdentities (shape c) -> Forall (knownEffects (SIdentities (shape c))) (effectNodes c).
Proof.
  intros (He & Hid & Ha) Hi. unfold effectNodes.
  assert (Forall (knownEffects (SIdentities (shape c))) (alter (operationNode c)
    (Z.to_nat (if operationInCallee c then SNodesPerProcedure (shape c) + 1 else 1)) (blankNodes (shape c)))) as H.
  { apply Forall_alter_all; [|by apply blankNodes_known]. intros n (H1 & H2 & _). unfold operationNode, knownEffects. cbn.
    split_and!; [|by case_match|exact He]. destruct (String.eqb_spec (aliasAction c) AliasActionNone); cbn; auto. }
  apply Forall_alter_all; [by intros n (H1 & H2 & H3); repeat split|]. destruct (validateFirst c); [|exact H].
  apply Forall_alter_all; [|done]. intros n (H1 & H2 & H3). split_and!; [done|done|].
  apply validateNodeEnums_inr in H3 as (_ & _ & ? & ? & ?). by apply validateNodeEnums_inr.
Qed.

(** What [generatedProgram] answers for a configuration whose skeleton is well-formed. *)
Lemma generatedProgram_admitted c0 : let c := normalizeConfiguration c0 in let s := shape c in
  Validate (skeleton c) = inr tt -> knownConfiguration c -> 0 < SIdentities s -> 0 < SProcedures s -> 3 < SNodesPerProcedure s ->
  (if operationInCallee c then SNodesPerProcedure s + 1 else SNodesPerProcedure s) < Z.of_nat (length (blankNodes s)) ->
  generatedProgram c0 = inr (withNodes (effectNodes c) (skeleton c)) /\ Validate (withNodes (effectNodes c) (skeleton c)) = inr tt.
Proof.
  intros c s Hv Hk Hi Hp Hn Hl.
  assert (Validate (withNodes (effectNodes c) (skeleton c)) = inr tt) as Hw.
  { apply Validate_replaced; [done|apply effectNodes_Ref|]. cbn [skeleton Identities]. rewrite length_map, length_seqZ.
    rewrite Z2Nat.id by (fold s; lia). by apply effectNodes_known. }
  split; [|done]. unfold generatedProgram. fold c s (blankNodes s).
  assert ((SNodesPerProcedure s * SProcedures s <? 0) || (SIdentities s <? 0) = false) as ->.
  { apply orb_false_iff. split; apply Z.ltb_ge; lia. }
  cbn [reject_if]. rewrite assign_in_range by (destruct (operationInCallee c); lia).
  set (nodes := alter _ _ _). assert (length nodes = length (blankNodes s)) as Hlen by apply length_alter.
  assert (exists nodes2, (if validateFirst c then assign 0 validatingNode nodes else inr nodes) = inr nodes2 /\
    length nodes2 = length (blankNodes s) /\ alter terminalNode (Z.to_nat (SNodesPerProcedure s - 1)) nodes2 = effectNodes c) as (nodes2 & E2 & Hlen2 & E3).
  { unfold effectNodes. fold s nodes. destruct (validateFirst c); [|by exists nodes]. exists (alter validatingNode 0%nat nodes).
    rewrite assign_in_range by (destruct (operationInCallee c); lia). rewrite length_alter. done. }
  cbn [mbind checked_bind]. rewrite E2. cbn [mbind checked_bind]. rewrite assign_in_range by (destruct (operationInCallee c); lia).
  cbn [mbind checked_bind]. rewrite E3. unfold withNodes, skeleton in *. cbn [CaseID PShape Entry Edges Identities InitialFacts] in *.
  fold s in Hw. rewrite Hw. done.
Qed.

(** ** Fuzzing *)
Lemma valueAt_elem values i : values <> [] -> valueAt values i ∈ values.
Proof.
  intros Hv. unfold valueAt. assert (0 < Z.of_nat (length values)) as Hl by (destruct values; [done|cbn; lia]).
  pose proof (Z.mod_pos_bound i _ Hl) as Hm. destruct (lookup_lt_is_Some_2 values (Z.to_nat (i mod Z.of_nat (length values)))) as [x Hx]; [lia|].
  rewrite Hx. by eapply list_elem_of_lookup_2.
Qed.

Definition fuzzShapes : list Shape :=
  [mkShape 2 4 2 1 1 TopologyCallReturn false false; mkShape 3 4 2 2 2 TopologyRecursive false true; mkShape 2 4 2 1 1 TopologyBranchJoin true false].

Lemma fuzz_shape sum256 data : shape (normalizeConfiguration (fuzzConfiguration sum256 data)) ∈ fuzzShapes.
Proof.
  rewrite normalizeConfiguration_eq, settled_eq. unfold fuzzConfiguration, withShape. configuration_fields.
  set (alias := valueAt [AliasActionNone; _; _] _). clearbody alias. unfold identitiesOf.
  destruct (String.eqb alias AliasActionNone); cbn [negb];
    (pose proof (valueAt_elem [TopologyCallReturn; TopologyRecursive; TopologyBranchJoin] (fuzzByteAt data 6) ltac:(done)) as Ht;
     apply elem_of_cons in Ht as [->|[->|[->|[]%elem_of_nil]%elem_of_cons]%elem_of_cons];
     [by left|by right; left|by right; right; left]).
Qed.

Lemma fuzz_skeleton id fact s : s ∈ fuzzShapes -> fact ∈ [InitialFactNeedsValidation; InitialFactValidated] ->
  Validate (mkProgram ("fuzz/" +:+ id) s (mkRef 0 0) (blankNodes s) (generatedEdges s (SNodesPerProcedure s))
    (map uint8 (seqZ 0 (SIdentities s))) (map (fun _ => fact) (seqZ 0 (SIdentities s)))) = inr tt.
Proof.
  intros [->|[->|[->|[]%elem_of_nil]%elem_of_cons]%elem_of_cons]%elem_of_cons [->|[->|[]%elem_of_nil]%elem_of_cons]%elem_of_cons;
    vm_compute; reflexivity.
Qed.

Lemma fuzz_known sum256 data : knownConfiguration (normalizeConfiguration (fuzzConfiguration sum256 data)).
Proof.
  unfold knownConfiguration. pose proof (fuzz_shape sum256 data) as Hs.
  assert (SIdentities (shape (normalizeConfiguration (fuzzConfiguration sum256 data))) = 2) as ->.
  { by apply elem_of_cons in Hs as [->|[->|[->|[]%elem_of_nil]%elem_of_cons]%elem_of_cons]. }
  rewrite normalizeConfiguration_eq, settled_eq, validateNodeEnums_inr, !oneOf_elem. unfold fuzzConfiguration, withShape. configuration_fields.
  cbn [NOperation NCondition NAliasAction NUnknownEffect NConstraint].
  pose proof (Z.mod_pos_bound (fuzzByteAt data 8) 2 ltac:(lia)). split; [|split; [lia|lia]].
  assert (forall values extra i, values <> [] -> valueAt values i ∈ extra :: values) as Hx by (intros; right; by apply valueAt_elem).
  split_and!; [| |by apply Hx..].
  - destruct (_ || _); [by right; left|by apply valueAt_elem].
  - destruct (_ && _); [by right; right; left|by apply Hx].
Qed.

(** A call of the program with a return of its site. *)
Definition matchedReturn (p : Program) : Prop := exists call return_, call ∈ Edges p /\ return_ ∈ Edges p /\
  EKind call = EdgeCall /\ EKind return_ = EdgeReturn /\ ECallSite return_ = ECallSite call /\
  RProcedure (EFrom return_) = RProcedure (ETo call).

Lemma fuzz_edges s : s ∈ fuzzShapes -> exists before after, generatedEdges s (SNodesPerProcedure s) = before ++ callPair 0 1 1 4 ++ after.
Proof.
  intros [->|[->|[->|[]%elem_of_nil]%elem_of_cons]%elem_of_cons]%elem_of_cons.
  - exists (take 5 (generatedEdges (mkShape 2 4 2 1 1 TopologyCallReturn false false) 4)), []. vm_compute. reflexivity.
  - exists (take 8 (generatedEdges (mkShape 3 4 2 2 2 TopologyRecursive false true) 4)), (callPair 1 1 2 4). vm_compute. reflexivity.
  - exists (take 6 (generatedEdges (mkShape 2 4 2 1 1 TopologyBranchJoin true false) 4)), []. vm_compute. reflexivity.
Qed.

(** Every byte string decodes to an admitted program. *)
Lemma fuzz_decodes sum256 data : exists program, DecodeFuzzProgram sum256 data = inr program /\
  Validate program = inr tt /\ length (Identities program) = 2%nat /\ matchedReturn program.
Proof.
  pose proof (fuzz_shape sum256 data) as Hs. pose proof (fuzz_known sum256 data) as Hk.
  set (c := normalizeConfiguration (fuzzConfiguration sum256 data)) in *.
  assert (Validate (skeleton c) = inr tt) as Hv.
  { unfold skeleton. assert (caseID c = "fuzz/" +:+ hexString (take 8 (sum256 data))) as -> by (unfold c; by rewrite normalizeConfiguration_eq, settled_eq).
    apply fuzz_skeleton; [done|]. unfold c. rewrite normalizeConfiguration_eq, settled_eq. by apply valueAt_elem. }
  assert (operationInCallee c = false) as Ho by (unfold c; by rewrite normalizeConfiguration_eq, settled_eq).
  destruct (generatedProgram_admitted (fuzzConfiguration sum256 data)) as [Hg Hw]; fold c; try done.
  1-4: rewrite ?Ho; by apply elem_of_cons in Hs as [->|[->|[->|[]%elem_of_nil]%elem_of_cons]%elem_of_cons].
  fold c in Hg, Hw. eexists. split; [|split; [exact Hw|]].
  - unfold DecodeFuzzProgram. rewrite Hg. cbn [mbind checked_bind]. by rewrite Hw.
  - cbn [withNodes skeleton Identities Edges]. rewrite length_map, length_seqZ. split.
    + by apply elem_of_cons in Hs as [->|[->|[->|[]%elem_of_nil]%elem_of_cons]%elem_of_cons].
    + destruct (fuzz_edges _ Hs) as (before & after & E). unfold matchedReturn. cbn [withNodes skeleton Edges]. rewrite E.
      eexists _, _. split; [apply elem_of_app; right; left|]. split; [apply elem_of_app; right; right; left|]. done.
Qed.
