(* ===== verification/CorpusTheorems.v ===== *)
(** * The corpora of the protocol oracle

    The shards of a profile partition its corpus, a corpus holds each fingerprint once and only
    admitted programs, what the reviewed manifest of the repository enumerates, and which of
    the enumerated programs differ only in their names. *)

From S2P Require Export GenerateFacts.
Local Open Scope Z_scope.

(** ** Shards *)
Lemma filter_split {A} (f : A -> Z) k ks l : k ∉ ks ->
  filter (fun a => f a = k) l ++ filter (fun a => f a ∈ ks) l ≡ₚ filter (fun a => f a ∈ k :: ks) l.
Proof.
  intros Hk. induction l as [|a l IH]; [done|]. rewrite !filter_cons.
  destruct (decide (f a = k)) as [E|E], (decide (f a ∈ ks)) as [F|F], (decide (f a ∈ k :: ks)) as [G|G];
    rewrite ?elem_of_cons in G; try tauto; try (by rewrite E in F); cbn; rewrite <- ?IH; try done.
  by rewrite Permutation_middle.
Qed.

(** The classes of a list under [f] make up the list. *)
Lemma classes_permutation {A} (f : A -> Z) ks l : NoDup ks -> Forall (fun a => f a ∈ ks) l ->
  concat (map (fun k => filter (fun a => f a = k) l) ks) ≡ₚ l.
Proof.
  intros Hd Hl. assert (concat (map (fun k => filter (fun a => f a = k) l) ks) ≡ₚ filter (fun a => f a ∈ ks) l) as E.
  { clear Hl. induction Hd as [|k ks Hk _ IH]; cbn.
    - induction l as [|a l IHl]; [done|]. rewrite filter_cons_False; [done|apply not_elem_of_nil].
    - rewrite IH. by apply filter_split. }
  rewrite E. clear E. induction Hl as [|a l Ha _ IH]; [done|]. by rewrite filter_cons_True, IH.
Qed.

Section Corpus.
Context (sum256 : string -> list Z) (marshal : Program -> string).
Abbreviation programShard := (programShard sum256 marshal).
Abbreviation generateAll := (generateAll sum256 marshal).
Abbreviation generateProfilePrograms := (generateProfilePrograms sum256 marshal).
Abbreviation Fingerprint := (Fingerprint sum256 marshal).

Definition shardOf (n k : Z) (programs : list Program) : list Program := filter (fun p => programShard p n = k) programs.

Lemma forEach_index {A S} (f : A -> S -> checked S) l : forall i j s, forEach (fun _ => f) i l s = forEach (fun _ => f) j l s.
Proof. induction l as [|a l IH]; intros i j s; [done|]. cbn [forEach]. destruct (f a s) as [e|s']; [done|]. apply IH. Qed.

Lemma forEach_skip {S} (yield : Program -> S -> checked S) n k programs : forall i s,
  forEach (fun _ program s => if negb (programShard program n =? k) then mret s else yield program s) i programs s =
  forEach (fun _ => yield) 0 (shardOf n k programs) s.
Proof.
  induction programs as [|p programs IH]; intros i s; [done|]. cbn [forEach]. unfold shardOf. rewrite filter_cons.
  destruct (Z.eqb_spec (programShard p n) k) as [E|E]; cbn [negb]; destruct (decide _) as [F|F]; try done.
  - cbn [forEach]. destruct (yield p s) as [e|s']; [done|]. cbn [mbind checked_bind]. rewrite IH. apply forEach_index.
  - cbn [mbind checked_bind mret checked_ret]. apply IH.
Qed.

Lemma shards_cover n programs : 0 < n -> concat (map (fun k => shardOf n k programs) (seqZ 0 n)) ≡ₚ programs.
Proof.
  intros Hn. apply (classes_permutation (fun p => programShard p n)); [apply NoDup_seqZ|]. apply Forall_forall. intros p _.
  apply elem_of_seqZ. unfold Generate.programShard.
  pose proof (Z.mod_pos_bound (bigEndian (take 8 (sum256 (Fingerprint p)))) n Hn). lia.
Qed.

(** C29. The shards of a profile partition its corpus: with [n] shards each index from 0 to
    [n - 1] hands the programs of its class, in the order of the corpus, to the callback and
    passes on its error; the classes together are the corpus, each program once; every other
    index is an error. *)
Theorem shards_partition m name profile programs : Profile m name = inr profile -> generateProfilePrograms m name = inr programs ->
  0 < Shards profile -> exists shard : Z -> list Program,
    (forall k S (yield : Program -> S -> checked S) s, 0 <= k < Shards profile ->
      EnumerateShard sum256 marshal m name k yield s = forEach (fun _ => yield) 0 (shard k) s /\ sublist (shard k) programs /\
      ProfileShardCardinality sum256 marshal m name k = inr (Z.of_nat (length (shard k)))) /\
    concat (map shard (seqZ 0 (Shards profile))) ≡ₚ programs /\
    (forall k S (yield : Program -> S -> checked S) s, ~ 0 <= k < Shards profile ->
      exists e, EnumerateShard sum256 marshal m name k yield s = inl e).
Proof.
  intros Hp Hg Hn. exists (fun k => shardOf (Shards profile) k programs).
  assert (forall k S (yield : Program -> S -> checked S) s, 0 <= k < Shards profile ->
    EnumerateShard sum256 marshal m name k yield s = forEach (fun _ => yield) 0 (shardOf (Shards profile) k programs) s) as He.
  { intros k S yield s Hk. unfold EnumerateShard. rewrite Hp. cbn [mbind checked_bind].
    assert ((k <? 0) || (Shards profile <=? k) = false) as -> by (apply orb_false_iff; split; [apply Z.ltb_ge|apply Z.leb_gt]; lia).
    cbn [reject_if]. rewrite Hg. cbn [mbind checked_bind]. apply forEach_skip. }
  split; [|split; [by apply shards_cover|]].
  - intros k S yield s Hk. split; [by apply He|]. split; [apply sublist_filter|]. unfold ProfileShardCardinality. rewrite He by done.
    generalize (shardOf (Shards profile) k programs). intros l. change (Z.of_nat (length l)) with (0 + Z.of_nat (length l)).
    generalize 0 at 2 3. clear. generalize 0. induction l as [|p l IH]; intros i count; cbn [forEach length].
    + by rewrite Z.add_0_r.
    + cbn [mbind checked_bind mret checked_ret]. rewrite IH. f_equal. lia.
  - intros k S yield s Hk. unfold EnumerateShard. rewrite Hp. cbn [mbind checked_bind].
    assert ((k <? 0) || (Shards profile <=? k) = true) as ->.
    { apply orb_true_iff. destruct (Z.ltb_spec k 0); [by left|right]. apply Z.leb_le. lia. }
    by eexists.
Qed.

(** ** Corpora *)

(** What the loops over configurations keep of the programs collected so far. *)
Record collected (seen : gset string) (programs : list Program) : Prop := {
  co_seen : seen = list_to_set (map Fingerprint programs);
  co_distinct : NoDup (map Fingerprint programs);
  co_admitted : Forall (fun p => Validate p = inr tt) programs;
}.

Lemma generatedProgram_Validate c p : generatedProgram c = inr p -> Validate p = inr tt.
Proof. unfold generatedProgram. intros H. open_checks. by repeat match goal with u : () |- _ => destruct u end. Qed.

Lemma collected_snoc seen programs p : collected seen programs -> Fingerprint p ∉ seen -> Validate p = inr tt ->
  collected ({[Fingerprint p]} ∪ seen) (programs ++ [p]).
Proof.
  intros [-> Hd Ha] Hp Hv. split.
  - rewrite map_app, list_to_set_app_L. cbn. set_solver.
  - rewrite map_app. apply NoDup_app. split; [done|]. split; [|apply NoDup_singleton].
    intros x Hx ->%list_elem_of_singleton. apply Hp. by apply elem_of_list_to_set.
  - apply Forall_app. by split; [|apply Forall_singleton].
Qed.

Definition collectAll (_ : Z) (c : generatedConfiguration) (state : gset string * list Program) : checked (gset string * list Program) :=
  let '(seen, programs) := state in
  program ← generatedProgram c;
  reject_if (bool_decide (Fingerprint program ∈ (seen : gset string))) "duplicate generated program %s" [Fingerprint program] ;;
  mret ({[Fingerprint program]} ∪ seen, programs ++ [program]).

Definition collectNew {V} (conf : V -> generatedConfiguration) (_ : Z) (v : V) (state : gset string * list Program)
    : checked (gset string * list Program) :=
  let '(seen, programs) := state in
  program ← generatedProgram (conf v);
  mret (if bool_decide (Fingerprint program ∈ (seen : gset string)) then (seen, programs)
        else ({[Fingerprint program]} ∪ seen, programs ++ [program])).

Lemma collectAll_collected cs : forall i seen programs seen' programs', collected seen programs ->
  forEach collectAll i cs (seen, programs) = inr (seen', programs') ->
  collected seen' programs' /\ exists new, Forall2 (fun c p => generatedProgram c = inr p) cs new /\ programs' = programs ++ new.
Proof.
  induction cs as [|c cs IH]; intros i seen programs seen' programs' Hc H; cbn [forEach] in H.
  - injection H as <- <-. split; [done|]. exists []. by rewrite app_nil_r.
  - apply checked_bind_inr in H as ([seen1 programs1] & H1 & H). unfold collectAll in H1.
    apply checked_bind_inr in H1 as (p & Hp & H1). apply checked_bind_inr in H1 as ([] & Hd%reject_if_inr%bool_decide_eq_false & [= <- <-]).
    destruct (IH _ _ _ _ _ (collected_snoc _ _ _ Hc Hd (generatedProgram_Validate _ _ Hp)) H) as (Hc' & new & Hn & ->).
    split; [done|]. exists (p :: new). split; [by constructor|]. by rewrite <- app_assoc.
Qed.

Lemma collectNew_collected {V} (conf : V -> generatedConfiguration) vs : forall i seen programs seen' programs', collected seen programs ->
  forEach (collectNew conf) i vs (seen, programs) = inr (seen', programs') -> collected seen' programs' /\ sublist programs programs'.
Proof.
  induction vs as [|v vs IH]; intros i seen programs seen' programs' Hc H; cbn [forEach] in H; [by injection H as <- <-|].
  apply checked_bind_inr in H as ([seen1 programs1] & H1 & H). unfold collectNew in H1. apply checked_bind_inr in H1 as (p & Hp & H1).
  injection H1 as H1. case_bool_decide as Hd; injection H1 as <- <-; [by apply IH in H|].
  destruct (IH _ _ _ _ _ (collected_snoc _ _ _ Hc Hd (generatedProgram_Validate _ _ Hp)) H) as [Hc' Hs]. split; [done|].
  etransitivity; [|exact Hs]. by apply sublist_inserts_r.
Qed.

(** Every configuration is generated, to programs of distinct fingerprints. *)
Lemma collect_generated (step : Z -> generatedConfiguration -> gset string * list Program -> checked (gset string * list Program)) :
  (forall i c seen programs p, generatedProgram c = inr p -> Fingerprint p ∉ seen ->
    step i c (seen, programs) = inr ({[Fingerprint p]} ∪ seen, programs ++ [p])) ->
  forall cs new i seen programs, Forall2 (fun c p => generatedProgram c = inr p) cs new -> seen = list_to_set (map Fingerprint programs) ->
  NoDup (map Fingerprint (programs ++ new)) -> exists seen', forEach step i cs (seen, programs) = inr (seen', programs ++ new).
Proof.
  intros Hs cs new i seen programs Hf. revert i seen programs. induction Hf as [|c p cs new Hp Hf IH]; intros i seen programs -> Hd; cbn [forEach].
  - exists (list_to_set (map Fingerprint programs)). by rewrite app_nil_r.
  - assert (Fingerprint p ∉ (list_to_set (map Fingerprint programs) : gset string)) as Hn.
    { rewrite map_app in Hd. apply NoDup_app in Hd as (_ & Hd & _). intros H. apply elem_of_list_to_set in H. apply (Hd _ H). by left. }
    rewrite (Hs i c _ programs p Hp Hn). cbn [mbind checked_bind]. replace (programs ++ p :: new) with ((programs ++ [p]) ++ new) in * by (by rewrite <- app_assoc).
    apply IH; [|done]. rewrite map_app, list_to_set_app_L. cbn. set_solver.
Qed.

Lemma Sorted_fingerprint programs : Sorted (fingerprint_le sum256 marshal) (merge_sort (fingerprint_le sum256 marshal) programs).
Proof. apply Sorted_merge_sort. intros a b. apply String.le_total. Qed.

Lemma collected_sorted seen programs : collected seen programs -> let sorted := merge_sort (fingerprint_le sum256 marshal) programs in
  Forall (fun p => Validate p = inr tt) sorted /\ NoDup (map Fingerprint sorted).
Proof.
  intros [_ Hd Ha] sorted. assert (sorted ≡ₚ programs) as E by apply merge_sort_Permutation. split; [by rewrite E|].
  by rewrite (Permutation_map Fingerprint E).
Qed.

Lemma generateAll_collected m programs : generateAll m = inr programs -> exists cs all seen,
  enumerateConfigurations m = inr cs /\ Forall2 (fun c p => generatedProgram c = inr p) cs all /\ collected seen all /\
  programs = merge_sort (fingerprint_le sum256 marshal) all.
Proof.
  unfold Generate.generateAll. intros H. apply checked_bind_inr in H as (cs & Hcs & H). apply checked_bind_inr in H as ([seen all] & Hl & [= <-]).
  destruct (collectAll_collected cs 0 ∅ [] seen all) as (Hc & new & Hn & ->); [split; [done|constructor|constructor]|exact Hl|].
  by exists cs, new, seen.
Qed.

(** What [generateProfilePrograms] enumerates: every program passes [Validate], no two
    have one fingerprint and they are in the order of the fingerprints, and the corpus of a
    profile holds every program of the blocking grammar, which has one for each configuration
    of the manifest. *)
Theorem corpus_admitted m name programs : generateProfilePrograms m name = inr programs ->
  Forall (fun p => Validate p = inr tt) programs /\ NoDup (map Fingerprint programs) /\
  Sorted (fingerprint_le sum256 marshal) programs /\
  exists cs all, enumerateConfigurations m = inr cs /\ Forall2 (fun c p => generatedProgram c = inr p) cs all /\
    forall p, p ∈ all -> p ∈ programs.
Proof.
  unfold Generate.generateProfilePrograms. intros H. apply checked_bind_inr in H as (profile & _ & H). apply checked_bind_inr in H as (base & Hb & H).
  destruct (generateAll_collected m base Hb) as (cs & all & seen & Hcs & Hall & Hc & ->).
  destruct (collected_sorted seen all Hc) as [Ha Hd]. destruct (PairwiseSemantics profile); cbn [negb] in H.
  - apply checked_bind_inr in H as (b & _ & H). apply checked_bind_inr in H as ([seen' all'] & Hl & [= <-]).
    assert (collected (list_to_set (map Fingerprint (merge_sort (fingerprint_le sum256 marshal) all)))
      (merge_sort (fingerprint_le sum256 marshal) all)) as Hc0 by (by split).
    destruct (collectNew_collected (fun v => integratedConfiguration (integratedBase b) v) _ 0 _ _ seen' all' Hc0 Hl) as [Hc' Hs].
    destruct (collected_sorted seen' all' Hc') as [Ha' Hd']. split; [done|]. split; [done|]. split; [apply Sorted_fingerprint|].
    exists cs, all. split; [done|]. split; [done|]. intros p Hp. rewrite merge_sort_Permutation.
    eapply elem_of_sublist; [|exact Hs]. by rewrite merge_sort_Permutation.
  - injection H as <-. split; [done|]. split; [done|]. split; [apply Sorted_fingerprint|]. exists cs, all. split; [done|]. split; [done|].
    intros p Hp. by rewrite merge_sort_Permutation.
Qed.
End Corpus.

(** [spec/protocol-oracle-bounds.v1.json] *)
Definition reviewedDimensions : ManifestDimensions :=
  mkDimensions [1; 2] [4; 5] [1; 2] [0; 1; 2] [0; 1; 2]
    [TopologyLinear; TopologyBranchJoin; TopologyCallReturn; TopologyRecursive] [false; true] [false; true]
    [OperationNoop; OperationValidate; OperationConsume; OperationMutate; OperationReplace; OperationEscape; OperationUnresolved]
    [ConditionalResultNone; ConditionalResultNil; ConditionalResultNonNil; ConditionalResultUnknown]
    [AliasActionNone; AliasActionCopy; AliasActionKill]
    [UnknownEffectNone; UnknownEffectUnresolved; UnknownEffectConcurrentMutation; UnknownEffectEscapedHeap]
    [ConstraintNone; ConstraintSAT; ConstraintUNSAT] [InitialFactNeedsValidation; InitialFactValidated].

Definition reviewedManifest : BoundsManifest :=
  mkManifest manifestFormatVersion manifestGenerator manifestEnumeration reviewedDimensions
    ["validated-nil"; "validation-non-nil"; "validation-unknown"; "alias-copy"; "alias-kill"; "post-validation-mutation";
     "post-validation-unknown"; "matched-return"; "branch-join"; "recursive-summary"; "post-validation-escape"; "refinement-unsat"]
    (mkProfile 4 42 512 false 42) (mkProfile 16 2058 2048 true 2058)
    ["alias-copy"; "alias-kill"; "branch-join"; "condition-nil"; "condition-non-nil"; "condition-unknown"; "constraint-unsat";
     "initial-fact-needs-validation"; "initial-fact-validated"; "matched-return"; "mutation"; "operation-escape"; "recursion";
     "replacement"; "unknown-concurrent-mutation"; "unknown-escaped-heap-mutation"; "unknown-unresolved"] 42.

Definition reviewedConfigurations : list generatedConfiguration :=
  match enumerateConfigurations reviewedManifest with inr cs => cs | inl _ => [] end.

Lemma reviewed_enumerates : enumerateConfigurations reviewedManifest = inr reviewedConfigurations.
Proof. vm_compute. reflexivity. Qed.

Definition reviewedBaseline : generatedConfiguration :=
  match baseConfiguration reviewedDimensions with
  | inr base => base
  | inl _ => mkConfiguration "" (mkShape 0 0 0 0 0 "" false false) "" "" "" "" "" "" false false 0
  end.

Definition reviewedBase : generatedConfiguration := integratedBase reviewedBaseline.

Lemma reviewed_base : baseConfiguration reviewedDimensions = inr reviewedBaseline.
Proof. vm_compute. reflexivity. Qed.

(** The configuration of the recursive scenario has two procedures; [generatedProgram]
    normalizes it again, and its program has a third one, which no edge enters. *)
Lemma recursive_scenario_renormalized : exists c p, c ∈ reviewedConfigurations /\ caseID c = "scenario/recursive-summary" /\
  SProcedures (shape c) = 2 /\ generatedProgram c = inr p /\ SProcedures (PShape p) = 3 /\
  Forall (fun e => RProcedure (EFrom e) = 2 <-> RProcedure (ETo e) = 2) (Edges p).
Proof.
  assert (match reviewedConfigurations !! 39%nat with
    | Some c => String.eqb (caseID c) "scenario/recursive-summary" && (SProcedures (shape c) =? 2) &&
        match generatedProgram c with
        | inr p => (SProcedures (PShape p) =? 3) && forallb (fun e => Bool.eqb (RProcedure (EFrom e) =? 2) (RProcedure (ETo e) =? 2)) (Edges p)
        | inl _ => false
        end
    | None => false
    end = true) as H by (vm_compute; reflexivity).
  destruct (reviewedConfigurations !! 39%nat) as [c|] eqn:Ec; [|done]. apply andb_true_iff in H as [H Hp].
  apply andb_true_iff in H as [Hid%String.eqb_eq Hs%Z.eqb_eq]. destruct (generatedProgram c) as [e|p] eqn:Ep; [done|].
  apply andb_true_iff in Hp as [Hn%Z.eqb_eq He]. exists c, p. split; [by eapply list_elem_of_lookup_2|].
  split; [exact Hid|]. split; [exact Hs|]. split; [exact Ep|]. split; [exact Hn|]. apply Forall_forall. intros e Hin.
  rewrite forallb_forall in He. specialize (He e ltac:(by apply list_elem_of_In)). apply Bool.eqb_prop in He. rewrite <- !Z.eqb_eq, He. done.
Qed.

(** The names of the configurations of the scheduled profile. *)
Definition integratedConfigurations : list generatedConfiguration := map (integratedConfiguration reviewedBase) (semantics reviewedDimensions).

Definition reviewedNames : list string := map caseID (reviewedConfigurations ++ integratedConfigurations).

(** The position of a name among the reviewed ones. *)
Definition position (values : list string) (s : string) : nat := default 0%nat (fst <$> list_find (fun v => v = s) values).

Definition positionOfName (name : string) : nat :=
  match components name with
  | ["scheduled"; _; operation; condition; alias; unknown; constraint; fact] =>
      let d := reviewedDimensions in
      foldl (fun n '(values, v) => n * length values + position values v)%nat 0%nat
        [(Operations d, operation); (ConditionalResults d, condition); (AliasActions d, alias); (UnknownEffects d, unknown);
         (Constraints d, constraint); (DInitialFacts d, fact)] + 42
  | _ => position (map caseID reviewedConfigurations) name
  end%nat.

Lemma reviewedNames_distinct : NoDup reviewedNames.
Proof.
  apply (NoDup_fmap_1 positionOfName). assert (positionOfName <$> reviewedNames = seq 0 2058) as -> by (vm_compute; reflexivity).
  apply NoDup_seq.
Qed.

Lemma reviewed_lengths : length reviewedConfigurations = 42%nat /\ length integratedConfigurations = 2016%nat.
Proof. vm_compute. split; reflexivity. Qed.

Definition succeeds {A} (m : checked A) : bool := match m with inr _ => true | inl _ => false end.

Lemma succeeds_inr {A} (m : checked A) : succeeds m = true -> exists a, m = inr a.
Proof. destruct m as [e|a]; [done|]. by exists a. Qed.

Lemma reviewed_generated : Forall (fun c => exists p, generatedProgram c = inr p) reviewedConfigurations.
Proof.
  assert (forallb (fun c => succeeds (generatedProgram c)) reviewedConfigurations = true) as H by (vm_compute; reflexivity).
  apply Forall_forall. intros c Hc. rewrite forallb_forall in H. apply succeeds_inr, H. by apply list_elem_of_In.
Qed.

Definition integratedShape : Shape := mkShape 2 4 2 1 1 TopologyCallReturn false false.

Lemma integratedConfiguration_eq base o k a u q f : integratedConfiguration base (o, k, a, u, q, f) =
  mkConfiguration (strings_Join ["scheduled/integrated"; o; k; a; u; q; f] "/") (identitiesOf a (shape base)) o k a u q f
    (validateFirst base) (operationInCallee base) (protectedIdentity base).
Proof. unfold integratedConfiguration, identitiesOf. cbn zeta. cbn [aliasAction]. by destruct (negb _). Qed.

Lemma integrated_shape v : shape (normalizeConfiguration (integratedConfiguration reviewedBase v)) = integratedShape.
Proof.
  destruct v as [[[[[o k] a] u] q] f]. rewrite integratedConfiguration_eq, normalizeConfiguration_eq, settled_eq. unfold withShape. configuration_fields.
  assert (shape reviewedBase = integratedShape) as -> by (vm_compute; reflexivity). unfold identitiesOf.
  destruct (negb (String.eqb a AliasActionNone)); vm_compute; reflexivity.
Qed.

Lemma integrated_fields v : let '(o, k, a, u, q, f) := v in let c := normalizeConfiguration (integratedConfiguration reviewedBase v) in
  caseID c = strings_Join ["scheduled/integrated"; o; k; a; u; q; f] "/" /\
  operation c = (if String.eqb o OperationValidate || negb (String.eqb k ConditionalResultNone) then OperationValidate else o) /\
  condition c = (if String.eqb o OperationValidate && String.eqb k ConditionalResultNone then ConditionalResultNil else k) /\
  aliasAction c = a /\ unknownEffect c = u /\ constraint c = q /\ initialFact c = f /\ operationInCallee c = false /\ protectedIdentity c = 0 /\
  validateFirst c = false.
Proof.
  destruct v as [[[[[o k] a] u] q] f]. rewrite integratedConfiguration_eq, normalizeConfiguration_eq, settled_eq. unfold withShape. by configuration_fields.
Qed.

Lemma in_semantics d o k a u q f : (o, k, a, u, q, f) ∈ semantics d ->
  o ∈ Operations d /\ k ∈ ConditionalResults d /\ a ∈ AliasActions d /\ u ∈ UnknownEffects d /\ q ∈ Constraints d /\ f ∈ DInitialFacts d.
Proof. unfold semantics. set_solver. Qed.

Lemma semantics_intro d o k a u q f : o ∈ Operations d -> k ∈ ConditionalResults d -> a ∈ AliasActions d -> u ∈ UnknownEffects d ->
  q ∈ Constraints d -> f ∈ DInitialFacts d -> (o, k, a, u, q, f) ∈ semantics d.
Proof. unfold semantics. set_solver. Qed.

Lemma integrated_skeleton name fact : fact ∈ [InitialFactNeedsValidation; InitialFactValidated] ->
  Validate (mkProgram ("s" +:+ name) integratedShape (mkRef 0 0) (blankNodes integratedShape) (generatedEdges integratedShape 4)
    (map uint8 (seqZ 0 2)) (map (fun _ => fact) (seqZ 0 2))) = inr tt.
Proof. intros [->|[->|[]%elem_of_nil]%elem_of_cons]%elem_of_cons; vm_compute; reflexivity. Qed.

Lemma integrated_generated v : v ∈ semantics reviewedDimensions ->
  exists p, generatedProgram (integratedConfiguration reviewedBase v) = inr p.
Proof.
  destruct v as [[[[[o k] a] u] q] f]. intros (Ho & Hk & Ha & Hu & Hq & Hf)%in_semantics.
  pose proof (integrated_shape (o, k, a, u, q, f)) as Hs. pose proof (integrated_fields (o, k, a, u, q, f)) as Hc. cbn zeta iota beta in Hc.
  set (c := normalizeConfiguration _) in *. destruct Hc as (H1 & H2 & H3 & H4 & H5 & H6 & H7 & H8 & H9 & _).
  assert (Validate (skeleton c) = inr tt) as Hv.
  { unfold skeleton. rewrite Hs, H1, H7.
    exact (integrated_skeleton ("cheduled/integrated" +:+ "/" +:+ strings_Join [o; k; a; u; q; f] "/") f Hf). }
  assert (knownConfiguration c) as Hk'.
  { unfold knownConfiguration. rewrite Hs, H9, H2, H3, H4, H5, H6, validateNodeEnums_inr, !oneOf_elem.
    cbn [NOperation NCondition NAliasAction NUnknownEffect NConstraint]. split; [|done]. split_and!; [|right|by right..].
    - destruct (_ || _); [by right; left|done].
    - destruct (_ && _); [by right; left|done]. }
  destruct (generatedProgram_admitted (integratedConfiguration reviewedBase (o, k, a, u, q, f))) as [Hg _]; [exact Hv|exact Hk'|..|by eexists];
    fold c; rewrite Hs; [done..|]. rewrite H8. by vm_compute.
Qed.

Lemma generated_all cs : Forall (fun c => exists p, generatedProgram c = inr p) cs -> exists ps, Forall2 (fun c p => generatedProgram c = inr p) cs ps.
Proof. induction 1 as [|c cs [p Hp] _ [ps IH]]; [by exists []|]. exists (p :: ps). by constructor. Qed.

Lemma generatedProgram_case c p : generatedProgram c = inr p -> CaseID p = caseID c.
Proof.
  unfold generatedProgram. intros H. open_checks. cbn [CaseID]. rewrite normalizeConfiguration_eq, settled_eq. done.
Qed.

(** Programs of different configurations have different fingerprints. *)
Definition collisionFree (sum256 : string -> list Z) (marshal : Program -> string) : Prop :=
  forall p q, Fingerprint sum256 marshal p = Fingerprint sum256 marshal q -> CaseID p = CaseID q.

Section Reviewed.
Context (sum256 : string -> list Z) (marshal : Program -> string) (Hfree : collisionFree sum256 marshal).

Lemma fingerprints_distinct cs ps : Forall2 (fun c p => generatedProgram c = inr p) cs ps -> NoDup (map caseID cs) ->
  NoDup (map (Fingerprint sum256 marshal) ps).
Proof.
  induction 1 as [|c p cs ps Hp Hf IH]; cbn; [constructor|]. intros (Hn & Hd)%NoDup_cons. constructor; [|by apply IH].
  intros (q & Hq & Hin)%list_elem_of_fmap. apply Hn. apply Hfree in Hq. rewrite (generatedProgram_case c p Hp) in Hq. rewrite Hq.
  apply list_elem_of_lookup_1 in Hin as [i Hi]. destruct (Forall2_lookup_r _ _ _ _ _ Hf Hi) as (c' & Hc' & Hg).
  rewrite (generatedProgram_case c' q Hg). apply list_elem_of_fmap. exists c'. split; [done|]. by eapply list_elem_of_lookup_2.
Qed.

Lemma forEach_map {A B S} (f : Z -> B -> S -> checked S) (g : A -> B) l : forall i s,
  forEach (fun i a => f i (g a)) i l s = forEach f i (map g l) s.
Proof. induction l as [|a l IH]; intros i s; [done|]. cbn [forEach map]. destruct (f i (g a) s) as [e|s']; [done|]. apply IH. Qed.

Lemma reviewed_corpora : exists base integrated,
  generateAll sum256 marshal reviewedManifest = inr base /\ length base = 42%nat /\
  generateProfilePrograms sum256 marshal reviewedManifest "scheduled" = inr integrated /\ length integrated = 2058%nat.
Proof.
  destruct (generated_all _ reviewed_generated) as [bs Hbs].
  destruct (generated_all integratedConfigurations) as [ns His].
  { apply Forall_forall. intros c (v & -> & Hv)%list_elem_of_fmap. by apply integrated_generated. }
  pose proof (fingerprints_distinct _ _ (Forall2_app Hbs His) reviewedNames_distinct) as Hd.
  pose proof (Forall2_length _ _ _ Hbs) as Lb. pose proof (Forall2_length _ _ _ His) as Li. destruct reviewed_lengths as [Rb Ri]. rewrite Rb in Lb. rewrite Ri in Li.
  set (base := merge_sort (fingerprint_le sum256 marshal) bs).
  assert (base ≡ₚ bs) as Eb by apply merge_sort_Permutation.
  assert (generateAll sum256 marshal reviewedManifest = inr base) as Hg.
  { unfold generateAll. rewrite reviewed_enumerates. cbn [mbind checked_bind].
    destruct (collect_generated sum256 marshal (collectAll sum256 marshal)) with (cs := reviewedConfigurations) (new := bs) (i := 0)
      (seen := ∅ : gset string) (programs := [] : list Program) as [seen E].
    - intros i c seen ps p Hp Hn. unfold collectAll. rewrite Hp. cbn [mbind checked_bind]. by rewrite bool_decide_eq_false_2.
    - done.
    - done.
    - rewrite map_app in Hd. by apply NoDup_app in Hd as (Hd & _).
    - unfold collectAll in E. rewrite E. done. }
  exists base, (merge_sort (fingerprint_le sum256 marshal) (base ++ ns)). split; [done|]. split; [by rewrite Eb|]. split.
  - unfold generateProfilePrograms. cbn [Profile reviewedManifest]. change (Profile reviewedManifest "scheduled") with (inr (Scheduled reviewedManifest) : checked CorpusProfile).
    cbn [mbind checked_bind]. rewrite Hg. cbn [mbind checked_bind PairwiseSemantics Scheduled reviewedManifest negb].
    change (Dimensions reviewedManifest) with reviewedDimensions. rewrite reviewed_base. cbn [mbind checked_bind]. fold reviewedBase.
    destruct (collect_generated sum256 marshal (collectNew sum256 marshal id)) with (cs := integratedConfigurations) (new := ns) (i := 0)
      (seen := list_to_set (map (Fingerprint sum256 marshal) base) : gset string) (programs := base) as [seen E].
    + intros i c seen ps p Hp Hn. unfold collectNew. cbn [id]. rewrite Hp. cbn [mbind checked_bind]. by rewrite bool_decide_eq_false_2.
    + done.
    + done.
    + rewrite <- Eb in Hd. exact Hd.
    + unfold integratedConfigurations in E. rewrite <- forEach_map in E. unfold collectNew, id in E. rewrite E. done.
  - rewrite merge_sort_Permutation, length_app, Eb, <- Lb, <- Li. done.
Qed.
End Reviewed.

(** C30. The manifest of the repository loads: when the file decodes to it and the fingerprints
    of programs of different configurations differ, every configuration it enumerates is
    admitted, the blocking profile has exactly the 42 programs and the scheduled profile
    exactly the 2058 programs that it declares, so [LoadBoundsManifest] returns it. *)
Theorem reviewed_manifest_loads sum256 marshal ReadFile Unmarshal path data : collisionFree sum256 marshal ->
  ReadFile path = inr data -> Unmarshal data = inr reviewedManifest ->
  LoadBoundsManifest sum256 marshal ReadFile Unmarshal path = inr reviewedManifest.
Proof.
  intros Hfree Hr Hu. destruct (reviewed_corpora sum256 marshal Hfree) as (base & all & Hb & Lb & Ha & La).
  unfold LoadBoundsManifest, Cardinality, ProfileCardinality. rewrite Hr. cbn [wrapped mbind checked_bind]. rewrite Hu. cbn [wrapped mbind checked_bind].
  assert (validateManifest reviewedManifest = inr tt) as -> by (vm_compute; reflexivity). cbn [mbind checked_bind].
  rewrite Hb. cbn [mbind checked_bind mret checked_ret]. rewrite Lb, Ha. cbn [mbind checked_bind mret checked_ret]. rewrite La. vm_compute. reflexivity.
Qed.

(** ** A hash that has no collisions on configurations *)
Definition codes (s : string) : list Z := map (fun c => Z.of_N (Ascii.N_of_ascii c)) (String.list_ascii_of_string s).

Definition byteHex (c : Ascii.ascii) : string := hexDigit (Z.of_N (Ascii.N_of_ascii c) / 16) +:+ hexDigit (Z.of_N (Ascii.N_of_ascii c) mod 16).

Definition digitValue (c : Ascii.ascii) : N := default 0%N (N.of_nat <$> String.index 0 (String c "") "0123456789abcdef").

Definition unhex (s : string) : Ascii.ascii :=
  match s with String a (String b _) => Ascii.ascii_of_N (digitValue a * 16 + digitValue b) | _ => Ascii.zero end.

Lemma byteHex_spec c : unhex (byteHex c) = c /\ String.length (byteHex c) = 2%nat.
Proof. destruct c as [[] [] [] [] [] [] [] []]; vm_compute; split; reflexivity. Qed.

Lemma hexString_codes c s : hexString (codes (String c s)) = byteHex c +:+ hexString (codes s).
Proof.
  unfold hexString, codes. cbn [String.list_ascii_of_string map String.concat]. fold (byteHex c). destruct s as [|c' s]; cbn [String.list_ascii_of_string map].
  - cbn [String.concat]. by rewrite string_app_nil_r.
  - done.
Qed.

Lemma byteHex_app c c' s s' : byteHex c +:+ s = byteHex c' +:+ s' -> c = c' /\ s = s'.
Proof.
  intros E. destruct (byteHex_spec c) as [H1 L1], (byteHex_spec c') as [H2 L2]. rewrite <- H1, <- H2.
  destruct (byteHex c) as [|a [|b [|? ?]]]; try done. destruct (byteHex c') as [|a' [|b' [|? ?]]]; try done.
  rewrite !string_app_cons, !string_app_nil_l in E. by injection E as -> -> ->.
Qed.

Lemma hexString_inj s : forall s', hexString (codes s) = hexString (codes s') -> s = s'.
Proof.
  assert (forall c s s', hexString (codes (String c s)) <> s' \/ s' <> "") as Hne.
  { intros c u [|]; [left|by right]. rewrite hexString_codes. destruct (byteHex_spec c) as [_ L]. by destruct (byteHex c). }
  induction s as [|c s IH]; intros [|c' s'] E; try done.
  - exfalso. by destruct (Hne c' s' "").
  - exfalso. by destruct (Hne c s "").
  - rewrite !hexString_codes in E. apply byteHex_app in E as [-> E]. by rewrite (IH s').
Qed.

Lemma codes_collisionFree : collisionFree codes CaseID.
Proof. intros p q H. unfold Fingerprint in H. apply (inj (String.append "poracle3_")) in H. by apply hexString_inj in H. Qed.

Lemma reviewed_manifest_loads_witness : collisionFree codes CaseID /\
  LoadBoundsManifest codes CaseID (fun _ => inr "manifest") (fun _ => inr reviewedManifest) "spec/protocol-oracle-bounds.v1.json" = inr reviewedManifest.
Proof. split; [apply codes_collisionFree|]. exact (reviewed_manifest_loads codes CaseID _ _ _ "manifest" codes_collisionFree eq_refl eq_refl). Defined.

Lemma shards_partition_witness : exists (programs : list Program) (shard : Z -> list Program), length programs = 2058%nat /\ concat (map shard (seqZ 0 16)) ≡ₚ programs.
Proof.
  destruct (reviewed_corpora codes CaseID codes_collisionFree) as (base & all & _ & _ & Ha & La).
  destruct (shards_partition codes CaseID reviewedManifest "scheduled" (Scheduled reviewedManifest) all eq_refl Ha eq_refl) as (shard & _ & Hp & _).
  exists all, shard. split; [exact La|exact Hp].
Defined.

Lemma corpus_admitted_witness : exists programs, length programs = 2058%nat /\ Forall (fun p => Validate p = inr tt) programs.
Proof.
  destruct (reviewed_corpora codes CaseID codes_collisionFree) as (base & all & _ & _ & Ha & La).
  destruct (corpus_admitted codes CaseID reviewedManifest "scheduled" all Ha) as (Hv & _). exists all. split; [exact La|exact Hv].
Defined.

(** ** Repeated programs *)
Definition renamed (id : string) (p : Program) : Program :=
  mkProgram id (PShape p) (Entry p) (Nodes p) (Edges p) (Identities p) (InitialFacts p).

Lemma Validate_renamed id p : Validate p = inr tt -> id <> "" -> Validate (renamed id p) = inr tt.
Proof.
  intros H Hid. unfold Validate in H. apply checked_bind_inr in H as ([] & Hn%reject_if_inr & H).
  apply orb_false_iff in Hn as [Hn Hi]. apply orb_false_iff in Hn as [Hc Hn].
  unfold Validate. cbn [renamed CaseID Nodes Identities]. rewrite (proj2 (String.eqb_neq id "") Hid), Hn, Hi. exact H.
Qed.

Lemma generatedProgram_renamed c c' p : normalizeConfiguration c' = withCase (caseID c') (normalizeConfiguration c) -> caseID c' <> "" ->
  generatedProgram c = inr p -> generatedProgram c' = inr (renamed (caseID c') p).
Proof.
  intros E Hid H. unfold generatedProgram in *. rewrite E. cbn [withCase shape operationInCallee validateFirst aliasAction initialFact caseID].
  change (operationNode (withCase (caseID c') (normalizeConfiguration c))) with (operationNode (normalizeConfiguration c)).
  apply checked_bind_inr in H as ([] & -> & H). cbn [mbind checked_bind].
  apply checked_bind_inr in H as (n1 & -> & H). cbn [mbind checked_bind].
  apply checked_bind_inr in H as (n2 & -> & H). cbn [mbind checked_bind].
  apply checked_bind_inr in H as (n3 & -> & H). cbn [mbind checked_bind].
  apply checked_bind_inr in H as ([] & Hv & [= <-]). apply (Validate_renamed (caseID c')) in Hv; [|done]. unfold renamed in *.
  cbn [PShape Entry Nodes Edges Identities InitialFacts CaseID] in *. by rewrite Hv.
Qed.

(** The operation and the condition that normalization leaves. *)
Definition validates (o k : string) : bool := String.eqb o OperationValidate || negb (String.eqb k ConditionalResultNone).

Definition representative (v : string * string * string * string * string * string) : string * string * string * string * string * string :=
  let '(o, k, a, u, q, f) := v in
  (if validates o k then OperationValidate else o,
   if String.eqb o OperationValidate && String.eqb k ConditionalResultNone then ConditionalResultNil else k, a, u, q, f).

#[export] Instance Edge_eq_dec : EqDecision Edge. Proof. solve_decision. Defined.
#[export] Instance Node_eq_dec : EqDecision Node. Proof. solve_decision. Defined.
#[export] Instance Shape_eq_dec : EqDecision Shape. Proof. solve_decision. Defined.
#[export] Instance Program_eq_dec : EqDecision Program. Proof. solve_decision. Defined.

(** The operation, the condition and so on of the one node that carries them. *)
Definition lastOther (dflt : string) (l : list string) : string := default dflt (last (filter (fun x => x <> dflt) l)).

Definition readOff (p : Program) : string * string * string * string * string * string :=
  (lastOther OperationNoop (map NOperation (Nodes p)), lastOther ConditionalResultNone (map NCondition (Nodes p)),
   lastOther AliasActionNone (map NAliasAction (Nodes p)), lastOther UnknownEffectNone (map NUnknownEffect (Nodes p)),
   lastOther ConstraintNone (map NConstraint (Nodes p)), default "" (head (InitialFacts p))).

Definition readable (v : string * string * string * string * string * string) : bool :=
  match generatedProgram (integratedConfiguration reviewedBase v) with inr p => bool_decide (readOff p = representative v) | inl _ => false end.

Lemma integrated_readable : forallb readable (semantics reviewedDimensions) = true.
Proof. vm_compute. reflexivity. Qed.

Lemma remove_dups_length {A B C} `{EqDecision B, EqDecision C} (f : A -> B) (g : A -> C) l :
  (forall x y, x ∈ l -> y ∈ l -> f x = f y <-> g x = g y) ->
  length (remove_dups (map f l)) = length (remove_dups (map g l)).
Proof.
  induction l as [|x l IH]; intros H; [done|]. simpl.
  assert (f x ∈ map f l <-> g x ∈ map g l) as Hx.
  { rewrite !list_elem_of_fmap. split; intros (y & E & Hy); exists y; (split; [|done]); apply (H x y); cbn; auto using list_elem_of_here, list_elem_of_further. }
  specialize (IH ltac:(intros; apply H; by right)). rewrite !list_elem_of_In in Hx.
  repeat case_decide; simpl; rewrite ?list_elem_of_In in *; first [exact IH|tauto|by rewrite IH].
Qed.

(** The configurations of one representative generate one program. *)
Lemma generated_representative v p : v ∈ semantics reviewedDimensions ->
  generatedProgram (integratedConfiguration reviewedBase v) = inr p ->
  exists id, generatedProgram (integratedConfiguration reviewedBase (representative v)) = inr (renamed id p).
Proof.
  intros Hv Hp.
  exists (caseID (integratedConfiguration reviewedBase (representative v))). eapply generatedProgram_renamed; [| |exact Hp].
  - destruct v as [[[[[o k] a] u] q] f]. unfold representative, validates. rewrite !integratedConfiguration_eq, !normalizeConfiguration_eq, !settled_eq.
    unfold withCase, withShape. configuration_fields.
    destruct (String.eqb_spec o OperationValidate) as [->|Hno], (String.eqb_spec k ConditionalResultNone) as [->|Hnk]; cbn [andb orb negb];
      rewrite ?String.eqb_refl, ?(proj2 (String.eqb_neq _ _) Hno), ?(proj2 (String.eqb_neq _ _) Hnk); done.
  - destruct v as [[[[[o k] a] u] q] f]. unfold representative. by rewrite integratedConfiguration_eq.
Qed.

Lemma unnamed_representative v w p q : v ∈ semantics reviewedDimensions -> w ∈ semantics reviewedDimensions ->
  generatedProgram (integratedConfiguration reviewedBase v) = inr p ->
  generatedProgram (integratedConfiguration reviewedBase w) = inr q ->
  renamed "" p = renamed "" q <-> representative v = representative w.
Proof.
  intros Hv Hw Hp Hq. split.
  - intros E. pose proof integrated_readable as Hr. rewrite forallb_forall in Hr.
    pose proof (Hr v (proj1 (list_elem_of_In _ _) Hv)) as H1. pose proof (Hr w (proj1 (list_elem_of_In _ _) Hw)) as H2.
    unfold readable in H1, H2. rewrite Hp in H1. rewrite Hq in H2. apply bool_decide_eq_true in H1, H2.
    rewrite <- H1, <- H2. destruct p, q. unfold renamed in E. cbn in E. injection E as -> -> -> -> -> ->. done.
  - intros E. destruct (generated_representative v p Hv Hp) as [i Hi], (generated_representative w q Hw Hq) as [j Hj].
    rewrite E, Hj in Hi. injection Hi as Hi. destruct p, q. unfold renamed in *. cbn in *. congruence.
Qed.

(** Duplicates counted with a Boolean test. *)
Fixpoint countDistinct {A} (eqb : A -> A -> bool) (l : list A) : nat :=
  match l with [] => 0%nat | x :: l => if existsb (eqb x) l then countDistinct eqb l else S (countDistinct eqb l) end.

Lemma countDistinct_dups {A} `{EqDecision A} (eqb : A -> A -> bool) l : (forall x y, eqb x y = true <-> x = y) ->
  length (remove_dups l) = countDistinct eqb l.
Proof.
  intros Heq. induction l as [|x l IH]; [done|]. simpl.
  assert (existsb (eqb x) l = true <-> x ∈ l) as Hx.
  { rewrite existsb_exists, list_elem_of_In. split; [by intros (y & Hy & ->%Heq)|]. intros Hx. exists x. split; [done|by apply Heq]. }
  destruct (existsb (eqb x) l); case_decide as D; simpl; try congruence; exfalso; [apply D; by apply Hx|by apply Hx in D].
Qed.

Definition sameStrings (v w : string * string * string * string * string * string) : bool :=
  let '(o, k, a, u, q, f) := v in let '(o', k', a', u', q', f') := w in
  if String.eqb f f' then if String.eqb q q' then if String.eqb u u' then if String.eqb a a' then if String.eqb k k' then String.eqb o o'
  else false else false else false else false else false.

Lemma sameStrings_eq v w : sameStrings v w = true <-> v = w.
Proof.
  destruct v as [[[[[o k] a] u] q] f], w as [[[[[o' k'] a'] u'] q'] f']. unfold sameStrings.
  repeat match goal with |- context [String.eqb ?x ?y] => destruct (String.eqb_spec x y); [subst|split; [done|congruence]] end. done.
Qed.

Lemma representatives_count : length (remove_dups (map representative (semantics reviewedDimensions))) = 648%nat.
Proof. rewrite (countDistinct_dups sameStrings); [|apply sameStrings_eq]. vm_compute. reflexivity. Qed.

(** C31. The 2016 programs of the integrated corpus are, but for their names, exactly 648
    programs.  A condition other than [none] makes normalization replace the operation by
    [validate], and [validate] without a condition gets the condition [nil]; two configurations
    generate the same program under different names exactly when this leaves them with the same
    operation, condition, alias action, unknown effect, constraint and initial fact.  Every
    configuration generates a program, and 648 of the 2016 are different once the names are taken
    away.  The fingerprint covers the name, so no repetition is dropped. *)
Theorem integrated_corpus_exact :
  (forall v w p q, v ∈ semantics reviewedDimensions -> w ∈ semantics reviewedDimensions ->
     generatedProgram (integratedConfiguration reviewedBase v) = inr p ->
     generatedProgram (integratedConfiguration reviewedBase w) = inr q ->
     renamed "" p = renamed "" q <-> representative v = representative w) /\
  exists programs,
    Forall2 (fun v p => generatedProgram (integratedConfiguration reviewedBase v) = inr p) (semantics reviewedDimensions) programs /\
    length programs = 2016%nat /\ length (remove_dups (map (renamed "") programs)) = 648%nat.
Proof.
  split; [apply unnamed_representative|].
  destruct (generated_all (map (integratedConfiguration reviewedBase) (semantics reviewedDimensions))) as [programs Hp].
  { apply Forall_forall. intros c (v & -> & Hv)%list_elem_of_fmap. by apply integrated_generated. }
  apply Forall2_fmap_l in Hp. exists programs. split; [exact Hp|].
  pose proof (Forall2_length _ _ _ Hp) as Hlen. split; [rewrite <- Hlen; vm_compute; reflexivity|].
  set (l := zip (semantics reviewedDimensions) programs).
  assert (map (renamed "" ∘ snd) l = map (renamed "") programs) as <-.
  { transitivity (map (renamed "") (map snd l)); [by rewrite map_map|]. f_equal. apply snd_zip. by rewrite Hlen. }
  rewrite <- representatives_count.
  assert (map (representative ∘ fst) l = map representative (semantics reviewedDimensions)) as <-.
  { transitivity (map representative (map fst l)); [by rewrite map_map|]. f_equal. apply fst_zip. by rewrite Hlen. }
  apply remove_dups_length. intros x y Hx Hy. cbn.
  apply Forall2_same_length_lookup in Hp as [_ Hp].
  assert (forall z, z ∈ l -> fst z ∈ semantics reviewedDimensions /\ generatedProgram (integratedConfiguration reviewedBase (fst z)) = inr (snd z)) as Hz.
  { intros [v p] (i & Hi)%list_elem_of_lookup. apply lookup_zip_Some in Hi as [Hv Hq]. split; [by apply list_elem_of_lookup_2 in Hv|by apply (Hp i)]. }
  destruct (Hz x Hx), (Hz y Hy). by apply unnamed_representative.
Qed.
