(* ===== verification/OracleTheorems.v ===== *)
(** * Generated programs and their interpretation

    The composition of the generator and the interpreter of the oracle. *)

From S2P Require Export InterpreterTheorems CorpusTheorems.
Local Open Scope Z_scope.

(** C28. From bytes to a verdict: whatever SHA-256 answers, [DecodeFuzzProgram] maps every byte
    string to a program, without an error or a panic; the program passes [Validate] and has a
    call site whose return leads back from the procedure it calls; and for every identity and
    positive budget the interpreter does not reject it, but answers the verdict of its executions
    with a call stack, or a used-up budget, which it reports and never answers as [none]. *)
Theorem fuzz_program_interpreted sum256 data tracked maxStates : 0 < maxStates -> exists program result,
  DecodeFuzzProgram sum256 data = inr program /\ Validate program = inr tt /\ matchedReturn program /\
  interpretIdentity program tracked maxStates = Some result /\
  (verdict program tracked (IOutcome result) \/
   (stateBudget ∈ IUncertainty result /\ IOutcome result <> OutcomeNone /\
    (IOutcome result = OutcomeViolation -> ends program tracked OutcomeViolation))).
Proof.
  intros Hm. destruct (fuzz_decodes sum256 data) as (program & Hd & Hv & Hi & Hm').
  destruct (interpretation_total program tracked maxStates) as [result Hr]. exists program, result. do 4 (split; [done|]).
  apply interpretation_answers in Hr. unfold answers, rejected in Hr. rewrite Hv, Hi in Hr.
  by rewrite (proj2 (Z.leb_gt maxStates 0) Hm) in Hr.
Qed.

Lemma fuzz_program_interpreted_witness : exists program result,
  DecodeFuzzProgram codes "goplint" = inr program /\ interpretIdentity program 0 512 = Some result.
Proof.
  destruct (fuzz_program_interpreted codes "goplint" 0 512 eq_refl) as (program & result & Hd & _ & _ & Hr & _). exists program, result. split; [exact Hd|exact Hr].
Defined.
